(* ===== verification/_CoqProject ===== *)
-Q . S2P
Prelude.v
Errors.v
Messages.v
VersionedMessages.v
VersionTypes.v
VersionStore.v
VersionChains.v
VersionStoreInv.v
VersionStoreSteps.v
VersionPurge.v
VersionStoreThms.v
VersionReads.v
VersionStoreSpec.v
VersionRefinement.v
HistoryTypes.v
HistoryStore.v
HistoryThms.v
HistoryPages.v
HistoryWrites.v
StdSlice.v
StdFloat.v
FilterNode.v
FilterThms.v
FilterIndex.v
FilterIndexThms.v
Predicate.v
PredicateThms.v
ReplayBuffer.v
ReplayThms.v
LeasedStore.v
LeasedThms.v
LeasedMemory.v
AnnotationTypes.v
Projection.v
ProjectionThms.v
AnnotationStore.v
AnnotationThms.v
AnnotationRuns.v
PresenceRegistry.v
PresenceRoster.v
PresenceSim.v
PresenceRegistryThms.v
PresenceRefinement.v
PresenceRuns.v
PresenceCapacity.v
PresenceLocks.v
CacheManager.v
Idempotency.v
IdempotencyThms.v
FallbackCache.v
FallbackThms.v
RateLimiter.v
RateLimiterThms.v
PresenceHistory.v
PresenceHistoryThms.v
PresenceSnapshot.v
PresencePaging.v
PresenceHistoryRuns.v
PresenceStores.v
PresenceStoreThms.v
PresenceStoreRuns.v
DurablePresence.v
DurablePresenceLog.v
DurablePresenceThms.v
DurablePresenceRuns.v
PushTypes.v
PushQueue.v
PushQueueThms.v
PushStore.v
PushStoreThms.v
PushRetry.v
PushRetryThms.v
PushRuns.v
