(* ===== verification/Prelude.v ===== *)
(** * Sockudo: a verification library

    Sockudo is a real-time messaging server.  Clients publish to channels; the server
    assigns serials and delivery positions, stores messages, their versions and their
    annotations, replays what a reconnecting client missed, and delivers to each
    subscriber what its filter accepts.  This library models the stores and the decision
    procedures of the server as executable functions and proves what the rest of the
    system relies on.

    ** The parts and how they meet

    - The version store ([crates/sockudo-core/src/version_store]) commits creates, updates,
      deletes and appends of a message under a per-channel delivery counter.  Publishers
      reserve positions from it directly or through the leased store, which caches blocks
      of positions.  The handlers read versions, replays and listings from it.
    - The history store ([.../history]) keeps a bounded log per channel, read page by page.
    - The annotation store ([.../annotations], [annotation_summarizers.rs]) keeps reactions
      to messages and projects them into summaries.
    - The replay buffer ([crates/sockudo-adapter/src/replay_buffer.rs]) keeps the last
      broadcasts of a channel for connection recovery.
    - The filters ([crates/sockudo-filter]) decide which publications a subscription gets.
    - The presence registry ([crates/sockudo-core/src/presence_registry.rs]) knows who is
      on a channel through which connection; the presence history ([.../presence_history])
      logs joins, updates and leaves and reconstructs the members at a point of it.
    - The publish claims ([idempotency.rs], used by the message service of
      [crates/sockudo-adapter/src/services.rs]) make a retried publish happen once, by
      atomic operations on a cache ([cache.rs], [crates/sockudo-cache]).
      A cache may be wrapped so that an in-memory one answers while it is down.
    - The rate limiter ([crates/sockudo-rate-limiter]) counts requests in fixed windows.
    - Push notifications ([crates/sockudo-push]) go through a staged queue; a delivery that
      can be retried is put back by a retry scheduler, and the status of a publish is
      updated by compare-and-swap.

    ** Files and what they model

    - [Prelude]: results and the [let?] notation, machine integers, strings of bytes,
      ordered keys, ordered maps ([BTreeMap] as [gmap] with its in-order iterator), a
      reader of pages, and the lemmas the components share.
    - [Errors] ([error.rs]), [Messages] (the payload and envelope types of
      [sockudo-protocol/src/messages.rs] and [message_envelope.rs]).
    - [VersionedMessages] ([versioned_messages.rs]), [VersionTypes]
      ([version_store/types.rs]), [VersionStore] ([version_store/memory.rs]): one
      definition per function of the source.  A store is a map from channel keys to
      records; an operation of [MemoryVersionStore], which holds the lock throughout, is
      one function.  [VersionChains], [VersionStoreInv], [VersionStoreSteps],
      [VersionPurge], [VersionStoreThms], [VersionReads]: its invariant and guarantees.
      [VersionStoreSpec] is the abstract contract, a commit log, and [VersionRefinement]
      the simulation.
    - [LeasedStore] ([version_store/leased.rs]): the state under the mutex, and callers as
      threads that interleave.  It is written against the class [VersionBackend], whose
      laws [LeasedMemory] discharges for the in-memory store.  [LeasedThms]: guarantees.
    - [HistoryTypes], [HistoryStore] ([history/types.rs], [history/memory.rs],
      [history/store.rs]); [HistoryThms], [HistoryPages], [HistoryWrites]: guarantees.
    - [AnnotationTypes], [Projection] ([annotations/types.rs],
      [annotation_summarizers.rs]), [AnnotationStore] ([annotations/memory.rs]): a section
      of the lock is one function, a call a thread that moves from section to section.
      [ProjectionThms], [AnnotationThms], [AnnotationRuns]: guarantees.
    - [ReplayBuffer] and [ReplayThms] ([replay_buffer.rs]).
    - [StdSlice], [StdFloat]: [sort], [dedup], [binary_search], an explicit stack, and the
      parsing and comparison of [f64], as the standard library defines them.
    - [FilterNode] ([ops.rs], [node.rs], [lib.rs]), [FilterThms], [Predicate]
      ([predicate.rs]), [PredicateThms].
    - [PresenceRegistry] ([presence_registry.rs]): one definition per operation; a channel
      state is a location of a heap, because connections and the table of channels share
      it.  [PresenceRoster] is the abstract contract, a flat set of members, [PresenceSim]
      the relation, [PresenceRegistryThms] and [PresenceRefinement] the simulation of each
      operation, [PresenceRuns] the theorems.  [PresenceCapacity] has the capacity budget
      as interleaving threads, [PresenceLocks] the order in which locks are taken.
    - [PresenceHistory] ([presence_history/memory.rs], [types.rs], [store.rs]);
      [PresenceHistoryThms]: its invariant; [PresenceSnapshot]: [snapshot_at] over any
      store; [PresencePaging]: over the in-memory store; [PresenceHistoryRuns]: theorems
      on runs.  [PresenceStores] has the interface as the class [PresenceStore], the disabled
      store, the filtered page read of [store.rs], and the wrapper of [tracking.rs] that
      remembers failed writes; [PresenceStoreThms], [PresenceStoreRuns]: guarantees.
    - [DurablePresence] ([presence_history/durable.rs]): transitions as records of a history
      store, behind a cache of recent ones, written against the class [HistoryBackend];
      [DurablePresenceLog], [DurablePresenceThms], [DurablePresenceRuns]: over the
      in-memory history store.
    - [CacheManager] ([cache.rs], [memory_cache_manager.rs]): the interface as a class with
      laws, and the in-memory cache as its instance.  [Idempotency] ([idempotency.rs] and
      the publish of [services.rs]) is written against the class, a call being a thread of
      single cache operations; [IdempotencyThms]: guarantees.  [FallbackCache]
      ([fallback_cache_manager.rs], and the default methods of [cache.rs]) is written against
      the class [FallibleCache]; [FallbackThms]: guarantees.
    - [FilterIndex], [FilterIndexThms] ([crates/sockudo-adapter/src/filter_index.rs]).
    - [RateLimiter], [RateLimiterThms] ([memory_limiter.rs]).
    - [PushTypes] ([sockudo-push/src/domain.rs]), [PushQueue] (the in-memory queue of
      [pipeline.rs]), [PushStore] (statuses, idempotency records and scheduler locks of
      [memory.rs], and the compare-and-swap loop of [pipeline.rs]), [PushRetry] ([retry.rs]).
      The loop and the scheduler are written against the class [PushWorld], the calls to the
      store, the queue and the clock, each of which may fail.  [PushQueueThms],
      [PushStoreThms], [PushRetryThms] (against the laws of the class [RetryWorld]):
      guarantees; [PushRuns] discharges the laws for the in-memory world and has the runs.

    ** What the theorems show

    - Version store: it refines the commit log for every sequence of writes and reads;
      compare-and-apply never loses an update; a retried operation returns its receipt;
      every reachable state is well formed; positions are issued once; the indexes and the
      incremental validator equal their reference definitions; replay, pages, batch reads
      and listings return exactly what the records determine; a purge batch removes
      expired prefixes only.
    - Leased store: positions are issued once under every interleaving, one reservation
      per channel is in flight and nobody waits in vain, except that a dropped owner blocks
      its channel for ever.
    - History: well formed in every reachable state; eviction keeps the longest suffix
      within the limits; following cursors reads everything once when records arrive in
      serial order, and can miss one when appends cross; an appended record is visible
      unless a limit forbids it; purges and cursors are exact; the largest retention
      window keeps nothing.
    - Annotations: a projection depends on the set of events only; a summary is what the
      log says; under interleaving every returned projection is exact when events arrive
      in serial order, and a stale one can stay when they do not; a create takes effect
      once; every call returns when it runs alone.
    - Replay buffer: a lookup recovers exactly when the missed messages are all there, and
      returns them in order; and they are there as long as they fit and have not expired.
    - Filters: evaluation, optimisation and compilation decide the declarative reading of
      a filter; validation accepts exactly the trees within the limits; the identity of a
      compiled predicate depends on its meaning.
    - Presence registry: it refines the flat roster for every sequence of operations; its
      shared states stay well formed; a connection that goes takes each of its members
      once; the budget is never exceeded under interleaving; superseding and entering can
      deadlock.
    - Presence history: its counters and indexes are those of the retained records; a
      snapshot is the replay of the pages that were read, whatever happens in between, and
      paging makes no difference when nothing happens; a join after an update makes the
      snapshot fail.  A filtered read ends within its budget; after a failed write no page
      and no snapshot claims to be complete; over a history store, a node with the log for
      itself never records an event twice in a row for a user, while nodes that share a log
      can lose a join.
    - Publish claims: under every interleaving, failure and dropped call a success answers
      with the receipt of a publish of the same request, and a key is published at most
      once while the cache keeps its entries; every call ends.
    - Fallback cache: during an outage it is the in-memory cache, and recovery carries the
      entries over; entries of an earlier outage can overwrite newer ones.
    - Filter index: it finds exactly the sockets whose filters match, as long as a socket is
      not added over an indexed filter of its own.
    - Rate limiter: at most twice the limit in any interval of the window's length, unless
      checks race with an expiring window.
    - Push: the queue is a multiset of messages with distinct ids, leases and keys; a status
      update is atomic among other writers; a retry is planned within its bounds and is
      dispatched at most once by schedulers that take turns, whatever fails, but can be
      dispatched twice when they race; the retries of two devices of one batch collide.

    ** Conventions

    A [u64], [i64] or [usize] is a [Z], with saturation and wrap-around written out; plain
    arithmetic wraps, as in the release profile.  The clock and fresh UUIDs are arguments
    ([now], [fresh]).  Hash maps and ordered maps are [gmap], sets [gset].  Code of other
    packages is a parameter with its documented behaviour: [SonicRs], [JsonEq] and the
    cursor codec (JSON), [Memchr] (substring search), [Jmespath] (expressions), [Dash] and
    [AHash] (the iteration order of a concurrent map, the hash that picks a shard), the
    codecs of publish records and of presence payloads ([DurableCodec] for the durable
    ones), the iteration order of the in-memory cache, the hash of the filter index, and
    [StableHash] (SHA-256 of the push queue); each theorem that uses such a law has an
    instance with a concrete function.

    An operation of the presence registry is one atomic step of the refinement; the budget
    and the locks, which operations on different connections share, are modelled at the
    grain of single accesses.  A cache operation may fail with or without taking effect,
    and entries may be lost, where a flag of the run says so.  What the publish pipeline
    answers is chosen by the environment; a publish it reports as failed left nothing
    behind.

    Fuel appears where the recursion is not structural: [search_range] (the length of the
    slice halves at each step, and the length is enough), [stack_walk] (the number of
    nodes), [evict_to_capacity] (the length of the buffer), [history_reader],
    [collect_pages], [snapshot_loop] and [scan_loop] (one more than the records left),
    [filtered_loop] (4097, one more than the greatest scan budget).  Lemmas beside each prove
    that this much fuel gives a result.  The retry loops of the leased store and of the annotation
    rebuild have no fuel: they are threads of a transition system.

    ** Not modelled

    - Sockets, tasks, HTTP handlers, cluster transports, brokers, metrics and bootstrap:
      I/O around the modelled parts.
    - The SQL, DynamoDB, ScyllaDB and SurrealDB stores: their operations run in databases.
    - Authentication and delta compression: cryptography and diff libraries do the work.
    - Push planning, dispatch, feedback and providers: clients of HTTP services and SQL
      stores, and the workers around them.  Of the push store the maps that are only read and
      written by key (devices, subscriptions, credentials, templates, delivery events) are
      left out.
    - Serialisation by serde: the records are modelled, their encodings are parameters.
    - The Redis caches and limiters: their operations are scripts that run inside Redis. *)

From Stdlib Require Import Ascii ZArith Lia.
From stdpp Require Import base gmap strings list sorting pretty.

(** ** Results

    [Result<T, E>] of the source.  Every fallible operation returns a [result];
    the [let?] notation is the [?] operator. *)

Inductive result (E A : Type) : Type :=
| Ok (a : A)
| Err (e : E).
Arguments Ok {E A} a.
Arguments Err {E A} e.

Definition rbind {E A B} (r : result E A) (k : A → result E B) : result E B :=
  match r with
  | Ok a => k a
  | Err e => Err e
  end.

Definition rmap {E A B} (f : A → B) (r : result E A) : result E B :=
  rbind r (λ a, Ok (f a)).

(** [Option::ok_or]. *)
Definition ok_or {E A} (o : option A) (e : E) : result E A :=
  match o with
  | Some a => Ok a
  | None => Err e
  end.

Definition is_ok {E A} (r : result E A) : bool :=
  match r with
  | Ok _ => true
  | Err _ => false
  end.

Declare Scope sockudo_scope.
Delimit Scope sockudo_scope with sockudo.
Notation "'let?' x := r 'in' k" := (rbind r (λ x, k))
  (at level 10, x binder, r at level 200, k at level 200) : sockudo_scope.
Notation "'ensure?' b 'else' e 'in' k" := (if b then k else Err e)
  (at level 10, b at level 100, e at level 100, k at level 200) : sockudo_scope.
Open Scope sockudo_scope.

(** [iter.map(f).collect::<Result<Vec<_>, _>>()]: stops at the first error. *)
Fixpoint rmapM {E A B} (f : A → result E B) (l : list A) : result E (list B) :=
  match l with
  | [] => Ok []
  | x :: l => let? y := f x in let? ys := rmapM f l in Ok (y :: ys)
  end.

Lemma rbind_Ok_inv {E A B} (r : result E A) (k : A → result E B) b :
  rbind r k = Ok b → ∃ a, r = Ok a ∧ k a = Ok b.
Proof. destruct r; naive_solver. Qed.

Lemma rmapM_Ok_iff {E A B} (f : A → result E B) l ys :
  rmapM f l = Ok ys ↔ Forall2 (λ x y, f x = Ok y) l ys.
Proof.
  revert ys. induction l as [|x l IH]; intros ys; simpl.
  - split; [intros [= <-]; constructor | inversion 1; done].
  - split.
    + destruct (f x) as [y|] eqn:Hf; simpl; [|done].
      destruct (rmapM f l) as [zs|] eqn:Hl; simpl; [|done].
      intros [= <-]. constructor; [done|]. by apply IH.
    + inversion 1 as [|? y ? zs Hx Hl]; subst. rewrite Hx. simpl.
      apply IH in Hl. by rewrite Hl.
Qed.

(** ** Machine integers

    A [u64], an [i64] and a [usize] (64-bit targets) are integers in [Z]; the
    operations write the behaviour at the width out.  Plain [+], [-] and [*] of
    the source wrap: the release profile leaves overflow checks off. *)

Definition u64_max : Z := 18446744073709551615.
Definition i64_max : Z := 9223372036854775807.
Definition i64_min : Z := -9223372036854775808.
Definition two64 : Z := 18446744073709551616.

Definition is_u64 (z : Z) : Prop := (0 ≤ z ≤ u64_max)%Z.
Definition is_i64 (z : Z) : Prop := (i64_min ≤ z ≤ i64_max)%Z.

Definition u64_saturating_add (a b : Z) : Z := Z.min (a + b) u64_max.
Definition u64_saturating_sub (a b : Z) : Z := Z.max (a - b) 0.
Definition i64_saturating_sub (a b : Z) : Z := Z.max i64_min (Z.min (a - b) i64_max).
Definition u64_wrap (z : Z) : Z := (z mod two64)%Z.
(** [x as i64] on a [u64]. *)
Definition u64_as_i64 (z : Z) : Z := if (z <=? i64_max)%Z then z else (z - two64)%Z.
Definition usize_from (b : bool) : Z := if b then 1%Z else 0%Z.

(** The limits enter arithmetic proofs as equations, so that no proof term makes the
    kernel compare unfolded constants. *)
Lemma int_limits :
  u64_max = 18446744073709551615%Z ∧ i64_max = 9223372036854775807%Z ∧
  i64_min = (-9223372036854775808)%Z ∧ two64 = 18446744073709551616%Z.
Proof. done. Qed.

Ltac u64_unfold :=
  pose proof int_limits as (? & ? & ? & ?);
  unfold is_u64, is_i64, u64_saturating_add, u64_saturating_sub, i64_saturating_sub,
    u64_as_i64 in *.
Ltac u64_lia := u64_unfold; lia.

Lemma u64_wrap_id z : is_u64 z → u64_wrap z = z.
Proof. intros ?. unfold u64_wrap. apply Z.mod_small. u64_lia. Qed.

Lemma u64_wrap_range z : is_u64 (u64_wrap z).
Proof. unfold u64_wrap. pose proof (Z.mod_pos_bound z two64). u64_lia. Qed.

Lemma saturating_add_lt a b :
  (u64_saturating_add a b < u64_max → u64_saturating_add a b = a + b)%Z.
Proof. u64_lia. Qed.

(** ** Strings

    A Rust [String] is a sequence of UTF-8 bytes; [string] holds the bytes.  Its
    derived order is the byte-wise lexicographic one ([String.le]), its [len] the
    number of bytes. *)

Definition str_len (s : string) : Z := Z.of_nat (String.length s).

Definition byte_in (lo hi : N) (a : ascii) : bool :=
  (lo <=? N_of_ascii a)%N && (N_of_ascii a <=? hi)%N.

(** [str::strip_prefix]. *)
Fixpoint strip_prefix (p s : string) : option string :=
  match p, s with
  | EmptyString, _ => Some s
  | String a p, String b s => if bool_decide (a = b) then strip_prefix p s else None
  | String _ _, EmptyString => None
  end.

Lemma string_app_assoc (a b c : string) : ((a +:+ b) +:+ c = a +:+ b +:+ c)%string.
Proof. induction a as [|x a IH]; [done|]. exact (f_equal (String x) IH). Qed.

Lemma strip_prefix_Some p s r : strip_prefix p s = Some r ↔ s = (p +:+ r)%string.
Proof.
  revert s. induction p as [|a p IH]; intros s; [split; [by intros [= ->]|by intros ->]|].
  destruct s as [|b s]; [done|]. change (String a p +:+ r)%string with (String a (p +:+ r)). simpl.
  case_bool_decide; subst.
  - rewrite IH. split; [by intros ->|by intros [= ->]].
  - split; [done|]. intros [= ? _]. done.
Qed.

Definition starts_with_continuation (s : string) : bool :=
  match s with
  | String a _ => byte_in 128 191 a
  | EmptyString => false
  end.

(** [str::chars]: a continuation byte (0x80..0xBF) belongs to the scalar value that
    starts before it. *)
Fixpoint chars (s : string) : list string :=
  match s with
  | EmptyString => []
  | String a s =>
      match chars s with
      | [] => [String a EmptyString]
      | c :: cs =>
          if starts_with_continuation c then String a c :: cs
          else String a EmptyString :: c :: cs
      end
  end.

(** [char::is_whitespace]: the Unicode White_Space property, on the UTF-8 encoding
    of one scalar value (U+0009..000D, 0020, 0085, 00A0, 1680, 2000..200A, 2028,
    2029, 202F, 205F, 3000). *)
Definition char_is_whitespace (c : string) : bool :=
  match N_of_ascii <$> String.list_ascii_of_string c with
  | [b] => ((9 <=? b) && (b <=? 13) || (b =? 32))%N
  | [b0; b1] => ((b0 =? 194) && ((b1 =? 133) || (b1 =? 160)))%N
  | [b0; b1; b2] =>
      ((b0 =? 225) && (b1 =? 154) && (b2 =? 128)
       || (b0 =? 226) && (b1 =? 128) && ((128 <=? b2) && (b2 <=? 138))
       || (b0 =? 226) && (b1 =? 128) && ((b2 =? 168) || (b2 =? 169) || (b2 =? 175))
       || (b0 =? 226) && (b1 =? 129) && (b2 =? 159)
       || (b0 =? 227) && (b1 =? 128) && (b2 =? 128))%N
  | _ => false
  end.

Fixpoint drop_while {A} (f : A → bool) (l : list A) : list A :=
  match l with
  | [] => []
  | x :: l' => if f x then drop_while f l' else l
  end.

Definition trim_chars (l : list string) : list string :=
  reverse (drop_while char_is_whitespace (reverse (drop_while char_is_whitespace l))).

(** [str::trim]. *)
Definition trim (s : string) : string :=
  foldr String.append EmptyString (trim_chars (chars s)).

Definition str_is_empty (s : string) : bool :=
  match s with
  | EmptyString => true
  | String _ _ => false
  end.

(** The [a\0b] keys of the stores. *)
Definition nul : string := String Ascii.zero EmptyString.

Fixpoint no_nul (s : string) : bool :=
  match s with
  | EmptyString => true
  | String a s => negb (bool_decide (a = Ascii.zero)) && no_nul s
  end.

Lemma chars_nonempty s c : c ∈ chars s → c ≠ EmptyString.
Proof.
  revert c. induction s as [|a s IH]; intros c; simpl; [by intros ?%elem_of_nil|].
  destruct (chars s) as [|d ds] eqn:Hs.
  - intros ?%list_elem_of_singleton. by subst.
  - destruct (starts_with_continuation d).
    + intros [->|?]%elem_of_cons; [done|]. apply IH. by right.
    + intros [->|?]%elem_of_cons; [done|]. by apply IH.
Qed.

Lemma drop_while_nil_iff {A} (f : A → bool) l : drop_while f l = [] ↔ Forall f l.
Proof.
  induction l as [|x l IH]; simpl; [by split; [constructor|]|].
  rewrite Forall_cons. destruct (f x); simpl; [|by split; [|intros [[] _]]].
  rewrite IH. split; [by intros ?|by intros [_ ?]].
Qed.

Lemma drop_while_suffix {A} (f : A → bool) l : ∃ k, l = k ++ drop_while f l ∧ Forall f k.
Proof.
  induction l as [|x l (k & Hk & Hf)]; simpl; [by exists []|].
  destruct (f x) eqn:Hx.
  - exists (x :: k). split; [by rewrite Hk at 1|]. constructor; [by rewrite Hx|done].
  - by exists [].
Qed.

Lemma append_nonempty s t : s ≠ EmptyString → (s +:+ t)%string ≠ EmptyString.
Proof. by destruct s. Qed.

(** [value.trim().is_empty()] holds exactly of the strings of white space. *)
Lemma trim_empty_iff s :
  str_is_empty (trim s) = true ↔ Forall char_is_whitespace (chars s).
Proof.
  rewrite <-drop_while_nil_iff. unfold trim, trim_chars.
  pose proof (chars_nonempty s) as Hne.
  destruct (drop_while_suffix char_is_whitespace (chars s)) as (k & Hk & _).
  assert (∀ c, c ∈ drop_while char_is_whitespace (chars s) → c ≠ EmptyString) as Hne'.
  { intros c Hc. apply Hne. rewrite Hk. apply elem_of_app. by right. }
  assert (∀ x l, drop_while char_is_whitespace (chars s) = x :: l →
                 char_is_whitespace x = false) as Hhd.
  { generalize (chars s). intros l. induction l as [|y l IH]; simpl; [done|].
    destruct (char_is_whitespace y) eqn:Hy; [done|]. by intros ?? [= <- _]. }
  destruct (drop_while char_is_whitespace (chars s)) as [|c cs] eqn:Hd; [done|].
  split; [|done]. intros Hemp. exfalso.
  specialize (Hhd c cs eq_refl).
  destruct (drop_while_suffix char_is_whitespace (reverse (c :: cs))) as (k' & Hk' & Hf').
  assert (c ∈ reverse (drop_while char_is_whitespace (reverse (c :: cs)))) as Hin.
  { apply elem_of_reverse.
    assert (c ∈ reverse (c :: cs)) as Hc by (apply elem_of_reverse; left).
    rewrite Hk' in Hc. apply elem_of_app in Hc as [Hc|Hc]; [|done].
    rewrite Forall_forall in Hf'. apply Hf' in Hc. by rewrite Hhd in Hc. }
  destruct (reverse (drop_while char_is_whitespace (reverse (c :: cs)))) as [|d ds] eqn:Hr.
  - by apply elem_of_nil in Hin.
  - simpl in Hemp. assert (d ≠ EmptyString) as Hd'.
    { apply Hne'. apply elem_of_reverse. rewrite Hk'. apply elem_of_app. right.
      apply elem_of_reverse. rewrite Hr. left. }
    destruct d; [done|]. by simpl in Hemp.
Qed.

(** ** Ordered keys and sorting *)

Class OrdKey (K : Type) := {
  key_le : relation K;
  key_le_dec :: RelDecision key_le;
  key_le_po :: PartialOrder key_le;
  key_le_total :: Total key_le;
}.

#[export] Instance string_ord_key : OrdKey string := {| key_le := String.le |}.
#[export] Instance Z_ord_key : OrdKey Z := {| key_le := Z.le |}.

(** Strict order: [a < b]. *)
Definition key_lt `{OrdKey K} (a b : K) : Prop := ¬ key_le b a.

Definition key_ltb `{OrdKey K} (a b : K) : bool := bool_decide (key_lt a b).

Section key_order.
Context `{OrdKey K}.
Implicit Types a b c : K.

Lemma key_lt_le a b : key_lt a b → key_le a b.
Proof. intros Hab. destruct (total key_le a b); [done|]. by destruct Hab. Qed.

Lemma key_lt_irrefl a : ¬ key_lt a a.
Proof. intros Ha. by apply Ha. Qed.

Lemma key_lt_le_trans a b c : key_lt a b → key_le b c → key_lt a c.
Proof. intros Hab Hbc Hca. apply Hab. by trans c. Qed.

Lemma key_le_lt_trans a b c : key_le a b → key_lt b c → key_lt a c.
Proof. intros Hab Hbc Hca. apply Hbc. by trans a. Qed.

#[export] Instance key_lt_trans : Transitive (@key_lt K _).
Proof. intros a b c Hab Hbc. eapply key_lt_le_trans; [done|]. by apply key_lt_le. Qed.

Lemma key_lt_neq a b : key_lt a b → a ≠ b.
Proof. intros Hab ->. by apply (key_lt_irrefl b). Qed.

Lemma key_le_neq_lt a b : key_le a b → a ≠ b → key_lt a b.
Proof. intros Hab Hne Hba. by apply Hne, (anti_symm key_le). Qed.

Lemma key_lt_asym a b : key_lt a b → ¬ key_lt b a.
Proof. intros Hab Hba. apply Hba. by apply key_lt_le. Qed.

Lemma key_trichotomy a b : key_lt a b ∨ a = b ∨ key_lt b a.
Proof.
  destruct (decide (key_le b a)) as [Hba|]; [|by left].
  destruct (decide (key_le a b)) as [Hab|]; [|by right; right].
  right; left. by apply (anti_symm key_le).
Qed.

Lemma not_key_lt_le a b : ¬ key_lt a b ↔ key_le b a.
Proof. unfold key_lt. split; [apply dec_stable|]. tauto. Qed.

Lemma key_ltb_spec a b : key_ltb a b = true ↔ key_lt a b.
Proof. apply bool_decide_eq_true. Qed.
End key_order.

(** Pairs in lexicographic order, as the derived [Ord] of a tuple. *)
Section pair_order.
Context `{OrdKey A, OrdKey B}.

Definition pair_le (x y : A * B) : Prop :=
  key_lt x.1 y.1 ∨ key_le x.1 y.1 ∧ key_le x.2 y.2.

#[export] Instance pair_le_dec : RelDecision pair_le.
Proof. intros x y. unfold pair_le, key_lt. apply _. Defined.

#[export] Instance pair_le_po : PartialOrder pair_le.
Proof.
  split; [split|].
  - intros x. by right.
  - intros x y z [Hxy|[Hxy Hxy']] [Hyz|[Hyz Hyz']].
    + left. by trans (y.1).
    + left. by eapply key_lt_le_trans.
    + left. by eapply key_le_lt_trans.
    + right. split; [by trans (y.1)|by trans (y.2)].
  - intros [a b] [a' b'] [Hxy|[Hxy Hxy']] [Hyx|[Hyx Hyx']]; simpl in *.
    + by apply key_lt_asym in Hxy.
    + by destruct Hxy.
    + by destruct Hyx.
    + f_equal; by apply (anti_symm key_le).
Qed.

#[export] Instance pair_le_total : Total pair_le.
Proof.
  intros x y. unfold pair_le. destruct (key_trichotomy (x.1) (y.1)) as [?|[Heq|?]]; [by left; left| |by right; left].
  rewrite Heq. destruct (total key_le x.2 y.2); [left|right]; by right.
Qed.

#[export] Instance pair_ord_key : OrdKey (A * B) := {| key_le := pair_le |}.
End pair_order.

Lemma key_lt_Z (a b : Z) : key_lt a b ↔ (a < b)%Z.
Proof. unfold key_lt. simpl. lia. Qed.

(** [slice::sort_by]: a stable sort. *)
Section stable_sort.
Context {A : Type} (le : relation A) `{!RelDecision le}.

Fixpoint insert_sorted (x : A) (l : list A) : list A :=
  match l with
  | [] => [x]
  | y :: l' => if decide (le x y) then x :: l else y :: insert_sorted x l'
  end.

Definition stable_sort (l : list A) : list A := foldr insert_sorted [] l.

Lemma insert_sorted_perm x l : insert_sorted x l ≡ₚ x :: l.
Proof.
  induction l as [|y l IH]; simpl; [done|].
  case_decide; [done|]. rewrite IH. by constructor.
Qed.

Lemma stable_sort_perm l : stable_sort l ≡ₚ l.
Proof.
  induction l as [|x l IH]; simpl; [done|]. by rewrite insert_sorted_perm, IH.
Qed.

Lemma insert_sorted_sorted `{!Transitive le, !Total le} x l :
  StronglySorted le l → StronglySorted le (insert_sorted x l).
Proof.
  induction 1 as [|y l Hl IH Hy]; simpl; [by repeat constructor|].
  case_decide as Hxy.
  - constructor; [by constructor|]. constructor; [done|].
    eapply Forall_impl; [exact Hy|]. intros z ?. by trans y.
  - constructor; [done|]. rewrite insert_sorted_perm. constructor; [|done].
    by destruct (total le x y).
Qed.

Lemma stable_sort_sorted `{!Transitive le, !Total le} l :
  StronglySorted le (stable_sort l).
Proof. induction l; simpl; [constructor|]. by apply insert_sorted_sorted. Qed.

Lemma stable_sort_id l : StronglySorted le l → stable_sort l = l.
Proof.
  induction 1 as [|x l Hl IH Hx]; simpl; [done|]. rewrite IH.
  destruct l as [|y l]; simpl; [done|]. rewrite decide_True; [done|].
  by inversion Hx.
Qed.
End stable_sort.

(** ** Lists *)

Lemma list_filter_all {A} (P : A → Prop) `{!∀ x, Decision (P x)} l :
  Forall P l → filter P l = l.
Proof.
  induction 1 as [|x l Hx Hl IH]; [done|]. by rewrite filter_cons_True, IH.
Qed.

Lemma list_filter_none {A} (P : A → Prop) `{!∀ x, Decision (P x)} l :
  Forall (λ x, ¬ P x) l → filter P l = [].
Proof.
  induction 1 as [|x l Hx Hl IH]; [done|]. by rewrite filter_cons_False.
Qed.

Lemma StronglySorted_filter {A} (R : relation A) (P : A → Prop)
    `{!∀ x, Decision (P x)} l :
  StronglySorted R l → StronglySorted R (filter P l).
Proof.
  induction 1 as [|x l Hl IH Hx]; [constructor|].
  rewrite filter_cons. case_decide; [|done]. constructor; [done|].
  rewrite Forall_forall in Hx |- *. intros y [_ Hy]%list_elem_of_filter. by apply Hx.
Qed.

Lemma list_filter_ext {A} (P Q : A → Prop) `{!∀ x, Decision (P x), !∀ x, Decision (Q x)} (l : list A) :
  (∀ x, x ∈ l → P x ↔ Q x) → filter P l = filter Q l.
Proof.
  induction l as [|x l IH]; intros HPQ; [done|]. rewrite !filter_cons.
  rewrite IH by (intros; apply HPQ; by right).
  specialize (HPQ x ltac:(left)). by repeat case_decide; try tauto.
Qed.

Lemma list_fmap_filter {A B} (f : A → B) (P : B → Prop) `{!∀ x, Decision (P x)} (l : list A) :
  f <$> filter (λ x, P (f x)) l = filter P (f <$> l).
Proof.
  induction l as [|x l IH]; csimpl; [done|]. rewrite !filter_cons.
  case_decide; csimpl; by rewrite IH.
Qed.

Lemma suffix_of_cons_cases {A} (k : list A) x l :
  k `suffix_of` x :: l → k = x :: l ∨ k `suffix_of` l.
Proof. intros [[|y a] Ha]; simplify_eq/=; [by left|]. right. by exists a. Qed.

(** Of two suffixes of a list the shorter is a suffix of the longer. *)
Lemma suffix_of_longer {A} (l k k' : list A) :
  k `suffix_of` l → k' `suffix_of` l → length k ≤ length k' → k `suffix_of` k'.
Proof.
  intros [a ->] [b Hb] Hlen. apply app_eq_inv in Hb as [(c & -> & ->)|(c & -> & ->)].
  - by exists c.
  - rewrite length_app in Hlen. destruct c; [done|simpl in *; lia].
Qed.

Lemma Forall_suffix_of {A} (P : A → Prop) l k : k `suffix_of` l → Forall P l → Forall P k.
Proof. intros [a ->] [_ ?]%Forall_app. done. Qed.

Lemma drop_while_suffix_of {A} (f : A → bool) l : drop_while f l `suffix_of` l.
Proof. destruct (drop_while_suffix f l) as (k & Hk & _). by exists k. Qed.

Lemma drop_while_idemp {A} (f : A → bool) l : drop_while f (drop_while f l) = drop_while f l.
Proof.
  induction l as [|x l IH]; simpl; [done|]. destruct (f x) eqn:Hx; [done|]. simpl. by rewrite Hx.
Qed.

(** The elements after a cursor [x] of a strictly sorted list. *)
Lemma sorted_filter_after {A} (R : relation A) (P : A → Prop) `{!∀ x, Decision (P x)} pre x post :
  (∀ a b, R a b → ¬ R b a) → (∀ y, P y ↔ R x y) →
  StronglySorted R (pre ++ x :: post) → filter P (pre ++ x :: post) = post.
Proof.
  intros Hasym HP Hs. rewrite filter_app, list_filter_none, filter_cons_False; simpl.
  - apply list_filter_all, Forall_forall. intros y Hy. apply HP.
    apply StronglySorted_app_1_r in Hs. apply StronglySorted_cons in Hs as [Hx _].
    rewrite Forall_forall in Hx. auto.
  - rewrite HP. intros Hx. by apply (Hasym x x).
  - apply Forall_forall. intros y Hy. rewrite HP. apply Hasym.
    eapply StronglySorted_app_1_elem_of; [exact Hs|done|left].
Qed.

Lemma Forall_sublist_of {A} (P : A → Prop) l k : k `sublist_of` l → Forall P l → Forall P k.
Proof. intros Hs. rewrite !Forall_forall. intros Hl x Hx. by eapply Hl, elem_of_sublist. Qed.

Lemma StronglySorted_weaken {A} (R R' : relation A) (l : list A) :
  (∀ x y, R x y → R' x y) → StronglySorted R l → StronglySorted R' l.
Proof.
  intros Himpl. induction 1 as [|x l Hl IH Hx]; constructor; [done|].
  eapply Forall_impl; [exact Hx|]. apply Himpl.
Qed.

Lemma StronglySorted_reverse_flip {A} (R : relation A) l :
  StronglySorted R l → StronglySorted (flip R) (reverse l).
Proof.
  induction 1 as [|x l Hl IH Hx]; [constructor|]. rewrite reverse_cons.
  apply StronglySorted_app_2; [|done|repeat constructor].
  intros a b Ha ->%list_elem_of_singleton. rewrite elem_of_reverse in Ha.
  rewrite Forall_forall in Hx. by apply Hx.
Qed.

(** ** Pages

    A reader that follows the [next_cursor] of a paged read until there is none.
    [None] is only returned when the fuel runs out. *)

Section pages.
Context {E A C : Type} (fetch : option C → result E (list A * option C)).

Fixpoint collect_pages (fuel : nat) (cursor : option C) : option (result E (list A)) :=
  match fuel with
  | O => None
  | S fuel =>
      match fetch cursor with
      | Err e => Some (Err e)
      | Ok (items, None) => Some (Ok items)
      | Ok (items, Some next) => rmap (app items) <$> collect_pages fuel (Some next)
      end
  end.

(** If every page is a non-empty piece of what remains, all of it is read. *)
Lemma collect_pages_complete (remains : option C → list A → Prop) :
  (∀ cursor rest, remains cursor rest →
     fetch cursor = Ok (rest, None) ∨
     ∃ items rest' next, rest = items ++ rest' ∧ items ≠ [] ∧
       fetch cursor = Ok (items, Some next) ∧ remains (Some next) rest') →
  ∀ fuel cursor rest, remains cursor rest → length rest < fuel →
    collect_pages fuel cursor = Some (Ok rest).
Proof.
  intros Hstep. induction fuel as [|fuel IH]; intros cursor rest Hrem Hlen; [lia|]. simpl.
  destruct (Hstep cursor rest Hrem) as [->|(items & rest' & next & -> & Hne & -> & Hrem')]; [done|].
  rewrite (IH (Some next) rest' Hrem'); [done|].
  rewrite length_app in Hlen. destruct items; [done|]. simpl in Hlen. lia.
Qed.
End pages.

(** ** Ordered maps

    A [BTreeMap] is a [gmap]; [btree_list] is its in-order iterator. *)

Section btree.
Context {K V : Type} `{Countable K, !OrdKey K}.
Implicit Types (m : gmap K V) (l : list (K * V)).

Definition entry_le (x y : K * V) : Prop := key_le x.1 y.1.

#[export] Instance entry_le_dec : RelDecision entry_le.
Proof. intros x y. unfold entry_le. apply _. Defined.

Definition btree_list m : list (K * V) := stable_sort entry_le (map_to_list m).

Definition btree_values m : list V := (btree_list m).*2.

(** [BTreeMap::range(lo..)]. *)
Definition btree_range (lo : K) m : list (K * V) :=
  filter (λ kv, key_le lo kv.1) (btree_list m).

Lemma btree_list_perm m : btree_list m ≡ₚ map_to_list m.
Proof. apply stable_sort_perm. Qed.

Lemma elem_of_btree_list m k v : (k, v) ∈ btree_list m ↔ m !! k = Some v.
Proof. rewrite btree_list_perm. apply elem_of_map_to_list. Qed.

Lemma elem_of_btree_values m v : v ∈ btree_values m ↔ ∃ k, m !! k = Some v.
Proof.
  unfold btree_values. rewrite list_elem_of_fmap. split.
  - intros ([k v'] & -> & Hin). exists k. by apply elem_of_btree_list.
  - intros [k Hk]. exists (k, v). by rewrite elem_of_btree_list.
Qed.

Lemma btree_list_NoDup_fst m : NoDup (btree_list m).*1.
Proof. rewrite btree_list_perm. apply NoDup_fst_map_to_list. Qed.

Lemma StronglySorted_le_lt_fst l :
  NoDup l.*1 → StronglySorted entry_le l → StronglySorted key_lt l.*1.
Proof.
  intros Hnd. induction 1 as [|[k v] l Hl IH Hk]; simpl in *; [constructor|].
  apply NoDup_cons in Hnd as [Hnotin Hnd]. constructor; [by apply IH|].
  apply Forall_fmap, Forall_forall. rewrite Forall_forall in Hk. intros [k' v'] Hin.
  apply key_le_neq_lt; [by apply (Hk _ Hin)|]. intros ->. simpl in *.
  apply Hnotin. apply list_elem_of_fmap. by exists (k', v').
Qed.

Lemma btree_list_sorted m : StronglySorted key_lt (btree_list m).*1.
Proof.
  apply StronglySorted_le_lt_fst; [apply btree_list_NoDup_fst|].
  apply stable_sort_sorted.
  - intros x y z ??. unfold entry_le in *. by trans (y.1).
  - intros x y. apply (total key_le).
Qed.

Lemma StronglySorted_fst l :
  StronglySorted key_lt l.*1 ↔ StronglySorted (λ x y : K * V, key_lt x.1 y.1) l.
Proof.
  induction l as [|[k v] l IH]; simpl; [by split; constructor|].
  by rewrite !StronglySorted_cons, Forall_fmap, IH.
Qed.

Lemma StronglySorted_lt_NoDup (ks : list K) : StronglySorted key_lt ks → NoDup ks.
Proof.
  induction 1 as [|x l Hl IH Hx]; constructor; [|done].
  intros Hin. rewrite Forall_forall in Hx. apply (key_lt_irrefl x), Hx, Hin.
Qed.

Lemma sorted_fst_unique l1 l2 :
  StronglySorted key_lt l1.*1 → StronglySorted key_lt l2.*1 →
  (∀ k v, (k, v) ∈ l1 ↔ (k, v) ∈ l2) → l1 = l2.
Proof.
  intros H1 H2 Helem.
  apply (StronglySorted_unique_strong (λ x y : K * V, key_lt x.1 y.1)).
  - intros x1 x2 _ _ Ha Hb. by apply key_lt_asym in Ha.
  - by apply StronglySorted_fst.
  - by apply StronglySorted_fst.
  - apply NoDup_Permutation.
    + by eapply (NoDup_fmap_1 fst), StronglySorted_lt_NoDup.
    + by eapply (NoDup_fmap_1 fst), StronglySorted_lt_NoDup.
    + intros [k v]. apply Helem.
Qed.

(** A strictly sorted list of the map's bindings is its iteration order. *)
Lemma btree_list_unique m l :
  StronglySorted key_lt l.*1 → (∀ k v, (k, v) ∈ l ↔ m !! k = Some v) →
  btree_list m = l.
Proof.
  intros Hl Helem. apply sorted_fst_unique; [apply btree_list_sorted|done|].
  intros k v. by rewrite elem_of_btree_list, Helem.
Qed.

Lemma btree_list_empty : btree_list (∅ : gmap K V) = [].
Proof. apply btree_list_unique; [constructor|]. intros. by rewrite elem_of_nil, lookup_empty. Qed.

(** Inserting a new largest key appends to the iteration order. *)
Lemma btree_list_insert_last m k v :
  (∀ k', is_Some (m !! k') → key_lt k' k) →
  btree_list (<[k := v]> m) = btree_list m ++ [(k, v)].
Proof.
  intros Hk. apply btree_list_unique.
  - rewrite fmap_app. apply StronglySorted_app_2; [|apply btree_list_sorted|repeat constructor].
    intros x1 x2 ([k1 v1] & -> & Hin)%list_elem_of_fmap ->%list_elem_of_singleton.
    apply Hk. apply elem_of_btree_list in Hin. eauto.
  - intros k' v'. rewrite elem_of_app, elem_of_btree_list, list_elem_of_singleton, lookup_insert.
    case_decide as Hkk'; [|naive_solver]. subst k'. split; [|naive_solver].
    intros [Hin|[= ->]]; [|done]. exfalso. by eapply (key_lt_irrefl k), Hk.
Qed.

Lemma StronglySorted_filter_fst (P : K * V → Prop) `{!∀ x, Decision (P x)} l :
  StronglySorted key_lt l.*1 → StronglySorted key_lt (filter P l).*1.
Proof.
  rewrite !StronglySorted_fst. apply StronglySorted_filter.
Qed.

Lemma btree_list_delete m k :
  btree_list (delete k m) = filter (λ kv, kv.1 ≠ k) (btree_list m).
Proof.
  apply btree_list_unique; [apply StronglySorted_filter_fst, btree_list_sorted|].
  intros k' v'. rewrite list_elem_of_filter, elem_of_btree_list, lookup_delete_Some.
  naive_solver.
Qed.

Lemma btree_list_cons_inv m k v l :
  btree_list m = (k, v) :: l →
  m !! k = Some v ∧ (∀ k', is_Some (m !! k') → key_le k k') ∧ btree_list (delete k m) = l.
Proof.
  intros Hm. pose proof (btree_list_sorted m) as Hs. rewrite Hm in Hs.
  simpl in Hs. apply StronglySorted_cons in Hs as [Hk Hs].
  split; [|split].
  - apply elem_of_btree_list. rewrite Hm. left.
  - intros k' [v' Hk']. apply elem_of_btree_list in Hk'. rewrite Hm in Hk'.
    apply elem_of_cons in Hk' as [[= -> ->]|Hin]; [done|].
    apply key_lt_le. rewrite Forall_forall in Hk. apply Hk.
    apply list_elem_of_fmap. by exists (k', v').
  - rewrite btree_list_delete, Hm, filter_cons_False; [|naive_solver].
    apply list_filter_all. rewrite Forall_forall in Hk. apply Forall_forall.
    intros [k' v'] Hin Heq.
    simpl in Heq. subst k'. eapply key_lt_irrefl, (Hk k), list_elem_of_fmap.
    by exists (k, v').
Qed.

Lemma elem_of_btree_range lo m k v :
  (k, v) ∈ btree_range lo m ↔ m !! k = Some v ∧ key_le lo k.
Proof. unfold btree_range. rewrite list_elem_of_filter, elem_of_btree_list. naive_solver. Qed.

Lemma btree_range_sorted lo m : StronglySorted key_lt (btree_range lo m).*1.
Proof. apply StronglySorted_filter_fst, btree_list_sorted. Qed.
End btree.

(** ** Automation *)

Create HintDb sockudo.
#[export] Hint Resolve key_lt_le key_lt_neq u64_wrap_range Forall_suffix_of drop_while_suffix_of
  btree_list_sorted btree_range_sorted stable_sort_perm : sockudo.
#[export] Hint Rewrite @elem_of_btree_list @elem_of_btree_range @btree_list_empty
  using (typeclasses eauto) : btree.
