(* ===== verification/Errors.v ===== *)
(** * Errors of the core crate

    [Error], its display text, the WebSocket close codes and the reconnect policy of
    [crates/sockudo-core/src/error.rs].  A payload whose type comes from a library
    ([sockudo_ws::Error], [sonic_rs::Error], [std::io::Error]) is its display text. *)

From S2P Require Import Prelude.
From stdpp Require Import base strings.
From Stdlib Require Import ZArith Lia.

Inductive Error : Type :=
| SSLRequired
| ApplicationNotFound
| ApplicationDisabled
| OverConnectionQuota
| PathNotFound
| InvalidVersionFormat
| UnsupportedProtocolVersion (s : string)
| NoProtocolVersion
| Unauthorized
| OriginNotAllowed
| OverCapacity
| ReconnectImmediately
| PongNotReceived
| InactivityTimeout
| ClientEventRateLimit
| ClientEventRateLimitTerminate
| WatchlistLimitExceeded
| Channel (s : string)
| InvalidChannelName (s : string)
| ChannelExists
| ChannelNotFound
| MessageNotFound (s : string)
| Auth (s : string)
| InvalidSignature
| InvalidKey
| Connection (s : string)
| ConnectionExists
| ConnectionNotFound
| ConnectionClosed (s : string)
| BufferFull (s : string)
| Protocol (s : string)
| InvalidMessageFormat (s : string)
| InvalidEventName (s : string)
| IdempotencyConflict
| IdempotencyInProgress
| AiTransport (code : Z) (name message : string)
| WebSocket (s : string)
| Internal (s : string)
| JsonError (s : string)
| ClientEvent (s : string)
| Io (s : string)
| InvalidAppKey
| Cache (s : string)
| Serialization (s : string)
| Broadcast (s : string)
| Other (s : string)
| Redis (s : string)
| RequestTimeout
| OwnRequestIgnored
| NoResponseNeeded
| RequestNotForThisNode
| HorizontalAdapter (s : string)
| Queue (s : string)
| Config (s : string)
| Configuration (s : string)
| ConfigFile (s : string)
| ClusterPresence (s : string)
| DeadNodeCleanup (s : string).

(** The [Display] text derived by [thiserror]. *)
Definition error_to_string (e : Error) : string :=
  match e with
  | SSLRequired => "Application only accepts SSL connections, reconnect using wss://"
  | ApplicationNotFound => "Application does not exist"
  | ApplicationDisabled => "Application disabled"
  | OverConnectionQuota => "Application is over adapter quota"
  | PathNotFound => "Path not found"
  | InvalidVersionFormat => "Invalid version string format"
  | UnsupportedProtocolVersion s => "Unsupported protocol version: " +:+ s
  | NoProtocolVersion => "No protocol version supplied"
  | Unauthorized => "Connection is unauthorized"
  | OriginNotAllowed => "Origin not allowed"
  | OverCapacity => "Over capacity"
  | ReconnectImmediately => "Generic reconnect immediately"
  | PongNotReceived => "Pong reply not received"
  | InactivityTimeout => "Closed after inactivity"
  | ClientEventRateLimit => "Client event rejected due to rate limit"
  | ClientEventRateLimitTerminate => "Connection closed due to client event rate limit"
  | WatchlistLimitExceeded => "Watchlist limit exceeded"
  | Channel s => "Channel error: " +:+ s
  | InvalidChannelName s => "Channel name invalid: " +:+ s
  | ChannelExists => "Channel already exists"
  | ChannelNotFound => "Channel does not exist"
  | MessageNotFound s => "Message not found: " +:+ s
  | Auth s => "Authentication error: " +:+ s
  | InvalidSignature => "Invalid signature"
  | InvalidKey => "Invalid key"
  | Connection s => "Connection error: " +:+ s
  | ConnectionExists => "Connection already exists"
  | ConnectionNotFound => "Connection not found"
  | ConnectionClosed s => "Connection closed: " +:+ s
  | BufferFull s => "Buffer full: " +:+ s
  | Protocol s => "Protocol error: " +:+ s
  | InvalidMessageFormat s => "Invalid message format: " +:+ s
  | InvalidEventName s => "Invalid event name: " +:+ s
  | IdempotencyConflict => "idempotency key was already used with a different payload"
  | IdempotencyInProgress => "idempotent publish is still in progress"
  | AiTransport _ _ message => message
  | WebSocket s => "WebSocket error: " +:+ s
  | Internal s => "Internal server error: " +:+ s
  | JsonError s => "JSON error: " +:+ s
  | ClientEvent s => "Client event error: " +:+ s
  | Io s => "I/O error: " +:+ s
  | InvalidAppKey => "Invalid app key"
  | Cache s => "Cache error: " +:+ s
  | Serialization _ => "Invalid JSON"
  | Broadcast s => "Broadcast error: " +:+ s
  | Other s => "Other: " +:+ s
  | Redis s => "Redis error: " +:+ s
  | RequestTimeout => "Request timeout"
  | OwnRequestIgnored => "Own request ignored"
  | NoResponseNeeded => "Fire-and-forget request, no response needed"
  | RequestNotForThisNode => "Request not for this node"
  | HorizontalAdapter s => "Horizontal adapter error: " +:+ s
  | Queue s => "Queue error: " +:+ s
  | Config _ => "Config"
  | Configuration s => "Configuration error: " +:+ s
  | ConfigFile s => "Config file Error: " +:+ s
  | ClusterPresence s => "Cluster presence error: " +:+ s
  | DeadNodeCleanup s => "Dead node cleanup error: " +:+ s
  end.

Definition close_code (e : Error) : Z :=
  match e with
  | SSLRequired => 4000
  | ApplicationNotFound => 4001
  | ApplicationDisabled => 4003
  | OverConnectionQuota => 4004
  | PathNotFound => 4005
  | InvalidVersionFormat => 4006
  | UnsupportedProtocolVersion _ => 4007
  | NoProtocolVersion => 4008
  | Unauthorized => 4009
  | OriginNotAllowed => 4009
  | OverCapacity => 4100
  | ReconnectImmediately => 4200
  | PongNotReceived => 4201
  | InactivityTimeout => 4202
  | ClientEventRateLimit => 4301
  | ClientEventRateLimitTerminate => 4301
  | WatchlistLimitExceeded => 4302
  | Broadcast _ => 4303
  | Channel _ | InvalidChannelName _ | ChannelExists | ChannelNotFound
  | MessageNotFound _ => 4300
  | ClientEvent _ => 4301
  | AiTransport _ _ _ => 4000
  | Auth _ | InvalidSignature | InvalidKey => 4009
  | Connection _ | ConnectionExists | ConnectionNotFound => 4000
  | BufferFull _ => 4100
  | _ => 4000
  end.

Definition is_fatal (e : Error) : bool :=
  match e with
  | SSLRequired | ApplicationNotFound | ApplicationDisabled | OverConnectionQuota
  | PathNotFound | InvalidVersionFormat | UnsupportedProtocolVersion _
  | NoProtocolVersion | Unauthorized | ClientEventRateLimitTerminate => true
  | _ => false
  end.

Definition should_reconnect (e : Error) : bool :=
  match e with
  | OverCapacity | ReconnectImmediately | PongNotReceived | InactivityTimeout => true
  | _ => false
  end.

Record ErrorData := { ed_code : option Z; ed_message : string }.

(** [impl From<Error> for ErrorData]. *)
Definition error_data_from (e : Error) : ErrorData :=
  match e with
  | AiTransport code _ message => {| ed_code := Some code; ed_message := message |}
  | _ => {| ed_code := Some (close_code e); ed_message := error_to_string e |}
  end.

(** Close codes follow the reconnect policy.  Every code is in the 4000..4399
    range; an error the server asks the client to reconnect after carries a code of
    the reconnect ranges 4100..4299 and is never fatal; the one error whose code is in
    those ranges without asking for a reconnect is a full send buffer; and a fatal
    error other than the rate-limit termination carries a do-not-reconnect code. *)
Theorem close_code_policy (e : Error) :
  (4000 ≤ close_code e < 4400)%Z ∧
  (should_reconnect e = true →
     (4100 ≤ close_code e < 4300)%Z ∧ is_fatal e = false) ∧
  ((4100 ≤ close_code e < 4300)%Z →
     should_reconnect e = true ∨ ∃ s, e = BufferFull s) ∧
  (is_fatal e = true →
     (close_code e < 4100)%Z ∨ e = ClientEventRateLimitTerminate).
Proof.
  destruct e; simpl; repeat split; intros; try lia; try done; eauto; left; lia.
Qed.
