(* ===== verification/Messages.v ===== *)
(** * Message data of the protocol crate

    The parts of [crates/sockudo-protocol/src/messages.rs] and
    [crates/sockudo-core/src/message_envelope.rs] that committed messages carry:
    payloads, extras with the AI-transport headers, and the message envelope. *)

From S2P Require Import Prelude Errors.
From stdpp Require Import base gmap strings list.
From Stdlib Require Import ZArith SpecFloat Init.Byte.

(** JSON values ([sonic_rs::Value], [serde_json::Value]); a number is its text. *)
Inductive Json : Type :=
| JNull
| JBool (b : bool)
| JNumber (text : string)
| JString (s : string)
| JArray (l : list Json)
| JObject (l : list (string * Json)).

Inductive MessageData : Type :=
| MString (s : string)
| MBinary (bytes : list byte)
| MStructured (channel_data channel user_data : option string) (extra : gmap string Json)
| MJson (v : Json).

Inductive ExtrasValue : Type :=
| EString (s : string)
| ENumber (f : spec_float)
| EBool (b : bool).

Record AiExtras := {
  ai_transport : option (gmap string string);
  ai_codec : option (gmap string string);
}.

Record MessageExtras := {
  ex_headers : option (gmap string ExtrasValue);
  ex_ephemeral : option bool;
  ex_idempotency_key : option string;
  ex_push : option Json;
  ex_echo : option bool;
  ex_ai : option AiExtras;
  ex_opaque : gmap string Json;
}.

(** [MessageExtras::ai_transport_headers]; [AiTransportHeaders] borrows the map. *)
Definition ai_transport_headers (ex : MessageExtras) : option (gmap string string) :=
  ex_ai ex ≫= ai_transport.

(** [AiTransportHeaders::get] and [AiTransportHeaders::status]. *)
Definition header_get (headers : gmap string string) (key : string) : option string :=
  headers !! key.
Definition header_status (headers : gmap string string) : option string :=
  header_get headers "status".

(** ** Message actions and envelopes *)

Inductive MessageAction : Type :=
| ActionCreate
| ActionUpdate
| ActionDelete
| ActionAppend
| ActionSummary.

#[export] Instance MessageAction_eq_dec : EqDecision MessageAction.
Proof. solve_decision. Defined.

Definition action_as_str (a : MessageAction) : string :=
  match a with
  | ActionCreate => "message.create"
  | ActionUpdate => "message.update"
  | ActionDelete => "message.delete"
  | ActionAppend => "message.append"
  | ActionSummary => "message.summary"
  end.

Inductive MessageContent : Type :=
| Text (s : string)
| Structured (v : Json)
| Binary (bytes : list byte).

Inductive VersionProjection : Type :=
| AppendFragment
| Aggregate.

Record VersionOperationMetadata := {
  vo_serial : string;
  vo_timestamp_ms : Z;
  vo_client_id : option string;
  vo_description : option string;
  vo_metadata : option Json;
  vo_projection : VersionProjection;
}.

Record PublishIdempotencyMetadata := {
  cache_key : string;
  payload_fingerprint : string;
}.

Record MessageEnvelope := {
  en_message_id : option string;
  en_acknowledgement_id : option string;
  en_name : option string;
  en_data : option MessageContent;
  en_encoding : option string;
  en_publisher_client_id : option string;
  en_publisher_socket_id : option string;
  en_publisher_connection_id : option string;
  en_published_at_ms : option Z;
  en_extras : option MessageExtras;
  en_stream_id : option string;
  en_history_serial : option Z;
  en_delivery_serial : option Z;
  en_action : option MessageAction;
  en_message_serial : option string;
  en_version : option VersionOperationMetadata;
  en_idempotency : option PublishIdempotencyMetadata;
}.

(** [MessageEnvelope::default()]. *)
Definition default_envelope : MessageEnvelope := {|
  en_message_id := None; en_acknowledgement_id := None; en_name := None;
  en_data := None; en_encoding := None; en_publisher_client_id := None;
  en_publisher_socket_id := None; en_publisher_connection_id := None;
  en_published_at_ms := None; en_extras := None; en_stream_id := None;
  en_history_serial := None; en_delivery_serial := None; en_action := None;
  en_message_serial := None; en_version := None; en_idempotency := None;
|}.

(** The JSON library, as the code uses it: [sonic_rs::to_vec] of message data (the
    number of bytes is all the stores read of it) and [sonic_rs::to_value].  An error
    is its display text. *)
Class SonicRs := {
  sonic_to_vec : MessageData → result string (list byte);
  sonic_to_value : MessageData → result string Json;
}.

(** [MessageContent::from_message_data]. *)
Definition content_from_message_data `{SonicRs} (data : MessageData)
    : result string MessageContent :=
  match data with
  | MString value => Ok (Text value)
  | MBinary value => Ok (Binary value)
  | MStructured _ _ _ _ =>
      match sonic_to_value data with
      | Ok v => Ok (Structured v)
      | Err error => Err ("failed to encode structured message data: " +:+ error)
      end
  | MJson value => Ok (Structured value)
  end.
