(* ===== verification/VersionedMessages.v ===== *)
(** * Versions of a mutable message

    [crates/sockudo-core/src/versioned_messages.rs]: serials, the mutation and append
    operations on one version, the selection of the latest visible version, and the
    validators of version chains and of replays. *)

From S2P Require Import Prelude Errors Messages.
From stdpp Require Import base gmap strings list sorting pretty.
From Stdlib Require Import ZArith Lia.

Definition MAX_VERSIONED_SERIAL_LENGTH : Z := 128.

(** A [MessageSerial] and a [VersionSerial] wrap a string that passed this check. *)
Definition validate_serial (label value : string) : result Error unit :=
  ensure? negb (str_is_empty (trim value))
    else (InvalidMessageFormat (label +:+ " must not be empty")) in
  ensure? negb (existsb char_is_whitespace (chars value))
    else (InvalidMessageFormat (label +:+ " must not contain whitespace")) in
  ensure? negb (str_len value >? MAX_VERSIONED_SERIAL_LENGTH)%Z
    else (InvalidMessageFormat (label +:+ " must be at most "
           +:+ pretty MAX_VERSIONED_SERIAL_LENGTH +:+ " bytes")) in
  Ok tt.

Definition message_serial_new (value : string) : result Error string :=
  let? _ := validate_serial "message_serial" value in Ok value.

Definition version_serial_new (value : string) : result Error string :=
  let? _ := validate_serial "version_serial" value in Ok value.

Record MessageIdentity := {
  mi_message_serial : string;
  mi_history_serial : Z;
}.

(** [ReplayPosition] has one field; a version carries its [delivery_serial]. *)
Record VersionMetadata := {
  v_serial : string;
  v_client_id : option string;
  v_timestamp_ms : Z;
  v_description : option string;
  v_metadata : option Json;
}.

Inductive FieldPatch (T : Type) : Type :=
| Keep
| Clear
| Replace (value : T).
Arguments Keep {T}.
Arguments Clear {T}.
Arguments Replace {T} value.

Record MessageFieldDelta := {
  d_name : FieldPatch string;
  d_data : FieldPatch MessageData;
  d_extras : FieldPatch MessageExtras;
}.

Record MessageAppend := {
  a_data_fragment : string;
  a_extras : option MessageExtras;
}.

Record VersionedMessage := {
  m_action : MessageAction;
  m_identity : MessageIdentity;
  m_delivery_serial : Z;
  m_version : VersionMetadata;
  m_name : option string;
  m_data : option MessageData;
  m_extras : option MessageExtras;
  m_append_fragment : option string;
}.

Definition new_create (message_serial : string) (version : VersionMetadata)
    (history_serial delivery_serial : Z) (name : option string)
    (data : option MessageData) (extras : option MessageExtras) : VersionedMessage := {|
  m_action := ActionCreate;
  m_identity := {| mi_message_serial := message_serial;
                   mi_history_serial := history_serial |};
  m_delivery_serial := delivery_serial;
  m_version := version;
  m_name := name;
  m_data := data;
  m_extras := extras;
  m_append_fragment := None;
|}.

Definition validate_next_version (cur : VersionedMessage) (version : VersionMetadata)
    (delivery_serial : Z) : result Error unit :=
  if decide (key_le (v_serial version) (v_serial (m_version cur))) then
    Err (InvalidMessageFormat ("next version_serial " +:+ v_serial version
      +:+ " must be greater than current " +:+ v_serial (m_version cur)))
  else if (delivery_serial <=? m_delivery_serial cur)%Z then
    Err (InvalidMessageFormat ("next delivery_serial " +:+ pretty delivery_serial
      +:+ " must be greater than current " +:+ pretty (m_delivery_serial cur)))
  else Ok tt.

Definition apply_field_patch {T} (current : option T) (patch : FieldPatch T) : option T :=
  match patch with
  | Keep => current
  | Clear => None
  | Replace value => Some value
  end.

Definition append_message_data (current : option MessageData) (fragment : string)
    : result Error MessageData :=
  match current with
  | None => Ok (MString fragment)
  | Some (MString existing) => Ok (MString (existing +:+ fragment))
  | Some _ => Err (InvalidMessageFormat
      "append requires string message data in the release 4.3 core model")
  end.

Definition apply_mutation (cur : VersionedMessage) (action : MessageAction)
    (version : VersionMetadata) (delivery_serial : Z) (delta : MessageFieldDelta)
    : result Error VersionedMessage :=
  match action with
  | ActionUpdate | ActionDelete =>
      let? _ := validate_next_version cur version delivery_serial in
      Ok {| m_action := action;
            m_identity := m_identity cur;
            m_delivery_serial := delivery_serial;
            m_version := version;
            m_name := apply_field_patch (m_name cur) (d_name delta);
            m_data := apply_field_patch (m_data cur) (d_data delta);
            m_extras := apply_field_patch (m_extras cur) (d_extras delta);
            m_append_fragment := None |}
  | _ => Err (InvalidMessageFormat
      (action_as_str action +:+ " does not use shallow-mixin mutation semantics"))
  end.

Definition apply_append (cur : VersionedMessage) (version : VersionMetadata)
    (delivery_serial : Z) (append : MessageAppend) : result Error VersionedMessage :=
  let? _ := validate_next_version cur version delivery_serial in
  let? data := append_message_data (m_data cur) (a_data_fragment append) in
  Ok {| m_action := ActionAppend;
        m_identity := m_identity cur;
        m_delivery_serial := delivery_serial;
        m_version := version;
        m_name := m_name cur;
        m_data := Some data;
        m_extras := match a_extras append with
                    | Some ex => Some ex
                    | None => m_extras cur
                    end;
        m_append_fragment := Some (a_data_fragment append) |}.

Definition ensure_same_chain (expected actual : VersionedMessage) : result Error unit :=
  let es := mi_message_serial (m_identity expected) in
  let acs := mi_message_serial (m_identity actual) in
  let eh := mi_history_serial (m_identity expected) in
  let ah := mi_history_serial (m_identity actual) in
  if decide (es ≠ acs) then
    Err (InvalidMessageFormat ("mixed message_serial values in one version chain: "
      +:+ es +:+ " vs " +:+ acs))
  else if decide (eh ≠ ah) then
    Err (InvalidMessageFormat ("mixed history_serial values in one version chain: "
      +:+ pretty eh +:+ " vs " +:+ pretty ah))
  else Ok tt.

Definition m_version_serial (m : VersionedMessage) : string := v_serial (m_version m).

(** The loop of [select_latest_visible] over the versions after the first. *)
Fixpoint select_winner (first winner : VersionedMessage) (rest : list VersionedMessage)
    : result Error VersionedMessage :=
  match rest with
  | [] => Ok winner
  | candidate :: rest =>
      let? _ := ensure_same_chain first candidate in
      select_winner first
        (if key_ltb (m_version_serial winner) (m_version_serial candidate)
         then candidate else winner) rest
  end.

Definition select_latest_visible (versions : list VersionedMessage)
    : result Error VersionedMessage :=
  match versions with
  | [] => Err (InvalidMessageFormat "version chain must not be empty")
  | first :: rest => select_winner first first rest
  end.

Fixpoint validate_chain_loop (first : VersionedMessage) (version_serials : gset string)
    (delivery_serials : gset Z) (versions : list VersionedMessage) : result Error unit :=
  match versions with
  | [] => Ok tt
  | version :: rest =>
      let? _ := ensure_same_chain first version in
      if decide (m_version_serial version ∈ version_serials) then
        Err (InvalidMessageFormat ("duplicate version_serial "
          +:+ m_version_serial version +:+ " in version chain"))
      else if decide (m_delivery_serial version ∈ delivery_serials) then
        Err (InvalidMessageFormat ("duplicate delivery_serial "
          +:+ pretty (m_delivery_serial version) +:+ " in version chain"))
      else
        validate_chain_loop first ({[m_version_serial version]} ∪ version_serials)
          ({[m_delivery_serial version]} ∪ delivery_serials) rest
  end.

Definition validate_version_chain (versions : list VersionedMessage) : result Error unit :=
  match versions with
  | [] => Err (InvalidMessageFormat "version chain must not be empty")
  | first :: rest =>
      validate_chain_loop first {[m_version_serial first]} {[m_delivery_serial first]} rest
  end.

Fixpoint replay_continuity_loop (expected : Z) (replay : list VersionedMessage)
    : result Error unit :=
  match replay with
  | [] => Ok tt
  | version :: rest =>
      if decide (m_delivery_serial version ≠ expected) then
        Err (InvalidMessageFormat ("replay gap detected: expected delivery_serial "
          +:+ pretty expected +:+ ", got " +:+ pretty (m_delivery_serial version)))
      else replay_continuity_loop (u64_saturating_add expected 1) rest
  end.

Definition validate_replay_continuity (replay : list VersionedMessage)
    (requested_after_serial : Z) : result Error unit :=
  replay_continuity_loop (u64_saturating_add requested_after_serial 1) replay.

(** ** Serials *)

Lemma chars_nil s : chars s = [] ↔ s = EmptyString.
Proof.
  split; [|by intros ->]. destruct s as [|a s]; [done|]. simpl.
  destruct (chars s) as [|c cs]; [done|]. by destruct (starts_with_continuation c).
Qed.

(** The serial constructor accepts exactly the non-empty strings of at most 128
    bytes without a white-space character, and returns them unchanged. *)
Theorem message_serial_new_iff value s :
  message_serial_new value = Ok s ↔
  s = value ∧ value ≠ EmptyString ∧ (str_len value ≤ 128)%Z ∧
  Forall (λ c, char_is_whitespace c = false) (chars value).
Proof.
  unfold message_serial_new, validate_serial, MAX_VERSIONED_SERIAL_LENGTH.
  destruct (existsb char_is_whitespace (chars value)) eqn:Hws; simpl.
  - split; [by destruct (negb _)|]. intros (_ & _ & _ & Hall).
    apply existsb_exists in Hws as (c & Hc%list_elem_of_In & Hw).
    rewrite Forall_forall in Hall. by rewrite (Hall c Hc) in Hw.
  - assert (Forall (λ c, char_is_whitespace c = false) (chars value)) as Hall.
    { apply Forall_forall. intros c Hc. destruct (char_is_whitespace c) eqn:Hcw; [|done].
      rewrite <-Hws. symmetry. apply existsb_exists. exists c. by rewrite <-list_elem_of_In. }
    destruct (str_is_empty (trim value)) eqn:Htrim; simpl.
    + split; [done|]. intros (_ & Hne & _). exfalso.
      apply trim_empty_iff in Htrim. rewrite Forall_forall in Htrim, Hall.
      destruct (chars value) as [|c cs] eqn:Hc; [by apply Hne, chars_nil|].
      specialize (Htrim c (list_elem_of_here _ _)). by rewrite (Hall c) in Htrim by left.
    + assert (value ≠ EmptyString) by (by intros ->).
      destruct (str_len value >? 128)%Z eqn:Hlen; simpl; [split; [done|lia]|].
      split; [intros [= <-]; repeat split; auto; lia|naive_solver].
Qed.

(** ** Chains *)

Lemma ensure_same_chain_Ok a b : ensure_same_chain a b = Ok tt ↔ m_identity a = m_identity b.
Proof.
  unfold ensure_same_chain. destruct (m_identity a) as [sa ha], (m_identity b) as [sb hb].
  simpl. repeat case_decide; naive_solver.
Qed.

Lemma ensure_same_chain_cases a b :
  (ensure_same_chain a b = Ok tt ∧ m_identity a = m_identity b) ∨
  (∃ e, ensure_same_chain a b = Err e ∧ m_identity a ≠ m_identity b).
Proof.
  destruct (ensure_same_chain a b) as [[]|e] eqn:H.
  - left. by rewrite ensure_same_chain_Ok in H.
  - right. exists e. split; [done|]. intros Heq%ensure_same_chain_Ok. congruence.
Qed.

Lemma validate_chain_loop_Ok first vs ds l :
  validate_chain_loop first vs ds l = Ok tt ↔
  Forall (λ m, m_identity first = m_identity m) l ∧
  NoDup (m_version_serial <$> l) ∧ (∀ m, m ∈ l → m_version_serial m ∉ vs) ∧
  NoDup (m_delivery_serial <$> l) ∧ (∀ m, m ∈ l → m_delivery_serial m ∉ ds).
Proof.
  revert vs ds. induction l as [|x l IH]; intros vs ds; simpl.
  { split; [intros _|done]. repeat split; try constructor; by intros m ?%elem_of_nil. }
  rewrite Forall_cons, !NoDup_cons, !list_elem_of_fmap.
  destruct (ensure_same_chain_cases first x) as [[-> Hid]|(e & -> & Hid)]; simpl.
  2: { split; [done|]. intros [[? _] _]. done. }
  case_decide as Hv; [split; [done|]; intros (_ & _ & Hn & _); by destruct (Hn x); [left|]|].
  case_decide as Hd; [split; [done|]; intros (_ & _ & _ & _ & Hn); by destruct (Hn x); [left|]|].
  rewrite IH. clear IH. setoid_rewrite not_elem_of_union. setoid_rewrite elem_of_cons.
  setoid_rewrite not_elem_of_singleton. naive_solver.
Qed.

(** The chain validator accepts exactly the non-empty lists in which every version
    has the same identity (message serial and history serial) and no version serial
    and no delivery serial occurs twice. *)
Lemma validate_version_chain_Ok (versions : list VersionedMessage) :
  validate_version_chain versions = Ok tt ↔
  versions ≠ [] ∧
  (∀ a b, a ∈ versions → b ∈ versions → m_identity a = m_identity b) ∧
  NoDup (m_version_serial <$> versions) ∧ NoDup (m_delivery_serial <$> versions).
Proof.
  destruct versions as [|first rest]; simpl; [naive_solver|].
  rewrite validate_chain_loop_Ok, !NoDup_cons, !list_elem_of_fmap, Forall_forall.
  setoid_rewrite not_elem_of_singleton. setoid_rewrite elem_of_cons.
  split.
  { intros (Hid & ? & Hv & ? & Hd). repeat split; auto; [|naive_solver..].
    intros a b [->|Ha] [->|Hb]; auto; [by symmetry; auto|].
    trans (m_identity first); [by symmetry; auto|by auto]. }
  intros (_ & Hid & [Hv ?] & [Hd ?]). repeat split; auto; intros m Hm Heq.
  - apply Hv. exists m. by rewrite Heq.
  - apply Hd. exists m. by rewrite Heq.
Qed.

Lemma replay_continuity_loop_Ok expected l :
  (expected ≤ u64_max)%Z →
  replay_continuity_loop expected l = Ok tt ↔
  ∀ i m, l !! i = Some m →
    m_delivery_serial m = u64_saturating_add expected (Z.of_nat i).
Proof.
  revert expected. induction l as [|x l IH]; intros expected Hle; simpl.
  { split; [by intros _ i m|done]. }
  case_decide as Hx.
  - split; [done|]. intros Hall. destruct Hx. rewrite (Hall 0 x eq_refl). u64_lia.
  - rewrite IH by u64_lia. split.
    + intros Hall [|i] m; simpl; [intros [= <-]; u64_lia|].
      intros Hm. rewrite (Hall i m Hm). u64_lia.
    + intros Hall i m Hm. rewrite (Hall (S i) m Hm). u64_lia.
Qed.

(** The replay validator accepts exactly the replays whose delivery serials are the
    consecutive positions after the requested one (saturating at the end of [u64]). *)
Lemma validate_replay_continuity_Ok replay after :
  validate_replay_continuity replay after = Ok tt ↔
  ∀ i m, replay !! i = Some m →
    m_delivery_serial m = u64_saturating_add after (1 + Z.of_nat i).
Proof.
  unfold validate_replay_continuity. rewrite replay_continuity_loop_Ok by u64_lia.
  split; intros Hall i m Hm; rewrite (Hall i m Hm); u64_lia.
Qed.

(** ** Latest visible version *)

(** [m] is the first element of [vs] with the greatest serial. *)
Section first_greatest.
Context {A : Type} (f : A → string).
Implicit Types (m x : A) (vs : list A).

Definition first_greatest vs m : Prop :=
  ∃ l1 l2, vs = l1 ++ m :: l2 ∧
    Forall (λ x, key_lt (f x) (f m)) l1 ∧ Forall (λ x, key_le (f x) (f m)) l2.

Lemma first_greatest_unique vs m m' :
  first_greatest vs m → first_greatest vs m' → m = m'.
Proof.
  intros (l1 & l2 & -> & H1 & H2) (k1 & k2 & Heq & K1 & K2).
  rewrite !Forall_forall in *.
  apply app_eq_inv in Heq as [(k & -> & Heq)|(k & -> & Heq)];
    destruct k as [|z k]; simplify_eq/=; try done; exfalso.
  - apply (H1 z), K2; apply elem_of_app; right; left.
  - apply (K1 z), H2; apply elem_of_app; right; left.
Qed.

Lemma first_greatest_singleton m : first_greatest [m] m.
Proof. exists [], []. by repeat split; constructor. Qed.

Lemma first_greatest_snoc vs m x :
  first_greatest vs m →
  first_greatest (vs ++ [x]) (if key_ltb (f m) (f x) then x else m).
Proof.
  intros (l1 & l2 & -> & H1 & H2).
  destruct (key_ltb _ _) eqn:Hlt.
  - apply key_ltb_spec in Hlt. exists (l1 ++ m :: l2), []. split; [done|]. split; [|done].
    apply Forall_app; split; [|constructor; [done|]].
    + eapply Forall_impl; [exact H1|]. intros y Hy. simpl in *. by etrans.
    + eapply Forall_impl; [exact H2|]. intros y Hy. simpl in *. by eapply key_le_lt_trans.
  - exists l1, (l2 ++ [x]). split; [by rewrite <-app_assoc|]. split; [done|].
    apply Forall_app; split; [done|]. constructor; [|done].
    apply not_key_lt_le. by rewrite <-key_ltb_spec, Hlt.
Qed.

Lemma first_greatest_elem vs m : first_greatest vs m → m ∈ vs.
Proof. intros (l1 & l2 & -> & _). apply elem_of_app. right. left. Qed.

Lemma first_greatest_le vs m x : first_greatest vs m → x ∈ vs → key_le (f x) (f m).
Proof.
  intros (l1 & l2 & -> & H1 & H2) [Hx|[->|Hx]%elem_of_cons]%elem_of_app; [|done|].
  - rewrite Forall_forall in H1. by apply key_lt_le, H1.
  - rewrite Forall_forall in H2. by apply H2.
Qed.
End first_greatest.

Lemma first_greatest_fmap {A B} (g : A → B) (f : B → string) vs m :
  first_greatest (f ∘ g) vs m → first_greatest f (g <$> vs) (g m).
Proof.
  intros (l1 & l2 & -> & H1 & H2). exists (g <$> l1), (g <$> l2).
  by rewrite fmap_app, !Forall_fmap.
Qed.

Lemma select_winner_Ok first pre winner rest m :
  first_greatest m_version_serial pre winner →
  select_winner first winner rest = Ok m ↔
  Forall (λ x, m_identity first = m_identity x) rest ∧ first_greatest m_version_serial (pre ++ rest) m.
Proof.
  revert pre winner. induction rest as [|x rest IH]; intros pre winner Hpre; simpl.
  - rewrite app_nil_r. split; [intros [= <-]; by split|].
    intros [_ Hm]. f_equal. by eapply first_greatest_unique.
  - rewrite Forall_cons.
    destruct (ensure_same_chain_cases first x) as [[-> Hid]|(e & -> & Hid)]; simpl.
    + rewrite (IH (pre ++ [x])) by (by apply first_greatest_snoc).
      rewrite <-app_assoc. simpl. tauto.
    + split; [done|]. tauto.
Qed.

(** The latest visible version is defined exactly on the non-empty chains with one
    identity, and is the first version with the greatest version serial. *)
Lemma select_latest_visible_Ok versions m :
  select_latest_visible versions = Ok m ↔
  (∀ a b, a ∈ versions → b ∈ versions → m_identity a = m_identity b) ∧
  first_greatest m_version_serial versions m.
Proof.
  destruct versions as [|first rest]; simpl.
  { split; [done|]. intros [_ (l1 & l2 & Heq & _)]. by destruct l1. }
  rewrite (select_winner_Ok first [first] first).
  2: { exists [], []. by repeat split; constructor. }
  simpl. rewrite Forall_forall. setoid_rewrite elem_of_cons.
  split; intros [Hid Hm]; split; auto.
  intros a b [->|Ha] [->|Hb]; auto; [by symmetry; auto|].
  trans (m_identity first); [by symmetry; auto|by auto].
Qed.

(** ** Mutations *)

Lemma validate_next_version_Ok cur version ds :
  validate_next_version cur version ds = Ok tt ↔
  key_lt (m_version_serial cur) (v_serial version) ∧ (m_delivery_serial cur < ds)%Z.
Proof.
  unfold validate_next_version, m_version_serial, key_lt.
  case_decide; [naive_solver|]. destruct (ds <=? m_delivery_serial cur)%Z eqn:?;
    split; try done; [lia|]. intros _. split; [done|lia].
Qed.

Lemma apply_mutation_Ok_inv cur action version ds delta m :
  apply_mutation cur action version ds delta = Ok m →
  m_identity m = m_identity cur ∧ m_version m = version ∧ m_delivery_serial m = ds ∧
  m_action m = action ∧
  key_lt (m_version_serial cur) (m_version_serial m) ∧ (m_delivery_serial cur < ds)%Z.
Proof.
  destruct action; simpl; try done;
    intros ([] & Hv & [= <-])%rbind_Ok_inv; simpl;
    apply validate_next_version_Ok in Hv as [? ?]; by repeat split.
Qed.

Lemma apply_append_Ok_inv cur version ds append m :
  apply_append cur version ds append = Ok m →
  m_identity m = m_identity cur ∧ m_version m = version ∧ m_delivery_serial m = ds ∧
  m_action m = ActionAppend ∧
  key_lt (m_version_serial cur) (m_version_serial m) ∧ (m_delivery_serial cur < ds)%Z.
Proof.
  intros ([] & Hv & (data & Hd & [= <-])%rbind_Ok_inv)%rbind_Ok_inv; simpl.
  apply validate_next_version_Ok in Hv as [? ?]; by repeat split.
Qed.

(** The version chains the operations build from a create, oldest version first. *)
Inductive evolves : list VersionedMessage → Prop :=
| evolves_create serial version hs ds name data extras :
    evolves [new_create serial version hs ds name data extras]
| evolves_mutation vs cur action version ds delta m :
    evolves (vs ++ [cur]) →
    apply_mutation cur action version ds delta = Ok m →
    evolves (vs ++ [cur; m])
| evolves_append vs cur version ds append m :
    evolves (vs ++ [cur]) →
    apply_append cur version ds append = Ok m →
    evolves (vs ++ [cur; m]).

(** Version serials and delivery serials of the later version are greater. *)
Definition version_before (a b : VersionedMessage) : Prop :=
  key_lt (m_version_serial a) (m_version_serial b) ∧
  (m_delivery_serial a < m_delivery_serial b)%Z.

#[export] Instance version_before_trans : Transitive version_before.
Proof. intros a b c [??] [??]. split; [by etrans|lia]. Qed.

Lemma evolves_chain vs :
  evolves vs →
  StronglySorted version_before vs ∧
  (∀ a b, a ∈ vs → b ∈ vs → m_identity a = m_identity b) ∧ vs ≠ [].
Proof.
  assert (∀ vs cur m, m_identity m = m_identity cur → version_before cur m →
    StronglySorted version_before (vs ++ [cur]) ∧
    (∀ a b, a ∈ vs ++ [cur] → b ∈ vs ++ [cur] → m_identity a = m_identity b) ∧
    vs ++ [cur] ≠ [] →
    StronglySorted version_before (vs ++ [cur; m]) ∧
    (∀ a b, a ∈ vs ++ [cur; m] → b ∈ vs ++ [cur; m] → m_identity a = m_identity b) ∧
    vs ++ [cur; m] ≠ []) as Hstep.
  { intros vs' cur m Hid Hlt (Hs & Hc & _).
    change ([cur; m]) with ([cur] ++ [m]). rewrite app_assoc.
    assert (cur ∈ vs' ++ [cur]) as Hcur by (apply elem_of_app; right; left).
    split; [|split]; [| |by destruct vs'].
    - apply StronglySorted_app_2; [|done|by repeat constructor].
      intros a b Ha ->%list_elem_of_singleton.
      apply elem_of_app in Ha as [Ha| ->%list_elem_of_singleton]; [|done].
      trans cur; [|done]. eapply StronglySorted_app_1_elem_of; [exact Hs|done|left].
    - assert (∀ a, a ∈ (vs' ++ [cur]) ++ [m] → m_identity a = m_identity cur) as Hall.
      { intros a [Ha| ->%list_elem_of_singleton]%elem_of_app; [by apply Hc|done]. }
      intros a b Ha Hb. by rewrite (Hall a Ha), (Hall b Hb). }
  induction 1 as [serial version hs ds name data extras
    |vs' cur action version ds delta m _ IH Hm|vs' cur version ds append m _ IH Hm].
  - split; [by repeat constructor|]. split; [|done].
    by intros a b ->%list_elem_of_singleton ->%list_elem_of_singleton.
  - apply apply_mutation_Ok_inv in Hm as (? & _ & ? & _ & ? & ?).
    apply Hstep; [done| |done]. split; [done|lia].
  - apply apply_append_Ok_inv in Hm as (? & _ & ? & _ & ? & ?).
    apply Hstep; [done| |done]. split; [done|lia].
Qed.

Lemma version_before_NoDup vs :
  StronglySorted version_before vs →
  NoDup (m_version_serial <$> vs) ∧ NoDup (m_delivery_serial <$> vs).
Proof.
  induction 1 as [|x vs Hvs [IHv IHd] Hx]; simpl; [by split; constructor|].
  rewrite Forall_forall in Hx. split; constructor; auto.
  - intros (y & Heq & Hy)%list_elem_of_fmap. apply Hx in Hy as [Hlt _].
    rewrite Heq in Hlt. by apply key_lt_irrefl in Hlt.
  - intros (y & Heq & Hy)%list_elem_of_fmap. apply Hx in Hy as [_ Hlt]. lia.
Qed.

(** Every chain that creates, updates, deletes and appends build passes the chain
    validator, and its latest visible version is the one committed last. *)
Theorem mutation_chain_valid vs cur :
  evolves (vs ++ [cur]) →
  validate_version_chain (vs ++ [cur]) = Ok tt ∧
  select_latest_visible (vs ++ [cur]) = Ok cur.
Proof.
  intros (Hs & Hid & Hne)%evolves_chain.
  apply version_before_NoDup in Hs as Hnd. destruct Hnd as [Hv Hd]. split.
  - by apply validate_version_chain_Ok.
  - apply select_latest_visible_Ok. split; [done|]. exists vs, []. split; [done|].
    split; [|done]. apply Forall_forall. intros x Hx.
    eapply StronglySorted_app_1_elem_of in Hs as [Hlt _]; [exact Hlt|done|left].
Qed.

Definition text_of (data : option MessageData) : option string :=
  match data with
  | None => Some EmptyString
  | Some (MString s) => Some s
  | Some _ => None
  end.

(** A run of appends, each with its version and delivery position. *)
Fixpoint append_all (cur : VersionedMessage)
    (appends : list (VersionMetadata * Z * MessageAppend)) : result Error VersionedMessage :=
  match appends with
  | [] => Ok cur
  | (version, ds, append) :: rest =>
      let? next := apply_append cur version ds append in append_all next rest
  end.

Fixpoint concat_fragments (appends : list (VersionMetadata * Z * MessageAppend)) : string :=
  match appends with
  | [] => EmptyString
  | (_, _, append) :: rest => a_data_fragment append +:+ concat_fragments rest
  end.

Lemma append_assoc (s t u : string) : (s +:+ t) +:+ u = s +:+ (t +:+ u).
Proof. induction s as [|a s IH]; [done|]. change (String a ((s +:+ t) +:+ u) = String a (s +:+ (t +:+ u))). by rewrite IH. Qed.

Lemma append_empty_r (s : string) : s +:+ "" = s.
Proof. induction s as [|a s IH]; [done|]. change (String a (s +:+ "") = String a s). by rewrite IH. Qed.

(** Appends roll up.  Starting from text (or from no payload) a run of appends with
    increasing version and delivery serials always succeeds; the resulting version
    keeps identity and name and holds the old text followed by all the fragments. *)
Theorem append_rollup cur text appends :
  text_of (m_data cur) = Some text →
  StronglySorted (λ x y, key_lt x.1 y.1 ∧ (x.2 < y.2)%Z)
    ((m_version_serial cur, m_delivery_serial cur) ::
     ((λ a, (v_serial a.1.1, a.1.2)) <$> appends)) →
  ∃ m, append_all cur appends = Ok m ∧
    m_identity m = m_identity cur ∧ m_name m = m_name cur ∧
    text_of (m_data m) = Some (text +:+ concat_fragments appends).
Proof.
  revert cur text. induction appends as [|[[version ds] append] rest IH]; simpl.
  { intros cur text Ht _. exists cur. by rewrite append_empty_r. }
  intros cur text Ht Hs. inversion Hs as [|?? Hs' Hall]; subst.
  inversion Hall as [|?? [Hv Hd] Hall']; subst. simpl in *.
  unfold apply_append.
  rewrite (proj2 (validate_next_version_Ok cur version ds)) by done. simpl.
  assert (append_message_data (m_data cur) (a_data_fragment append) =
          Ok (MString (text +:+ a_data_fragment append))) as ->.
  { destruct (m_data cur) as [[]|]; simplify_eq/=; done. }
  simpl. match goal with
  | |- context [append_all ?next rest] =>
      destruct (IH next (text +:+ a_data_fragment append))
        as (m & Hm & Hid & Hname & Htext); [done|exact Hs'|]
  end.
  exists m. rewrite Hm, Hid, Hname, Htext, append_assoc. done.
Qed.

(** ** Concrete instances *)

Definition sample_version (serial : string) : VersionMetadata := {|
  v_serial := serial; v_client_id := None; v_timestamp_ms := 1000;
  v_description := None; v_metadata := None;
|}.

Definition sample_message : VersionedMessage :=
  new_create "msg-1" (sample_version "v1") 7 3 (Some "chat") (Some (MString "Hel")) None.

Definition sample_fragment (text : string) : MessageAppend := {|
  a_data_fragment := text; a_extras := None;
|}.

Lemma mutation_chain_valid_witness :
  ∃ m, apply_append sample_message (sample_version "v2") 4 (sample_fragment "lo") = Ok m ∧
    validate_version_chain [sample_message; m] = Ok tt ∧
    select_latest_visible [sample_message; m] = Ok m.
Proof.
  eexists. split; [vm_compute; reflexivity|].
  apply (mutation_chain_valid [sample_message]). simpl.
  eapply (evolves_append [] sample_message (sample_version "v2") 4 (sample_fragment "lo"));
    [apply evolves_create|vm_compute; reflexivity].
Defined.

Lemma append_rollup_witness :
  ∃ m, append_all sample_message
         [(sample_version "v2", 4%Z, sample_fragment "l");
          (sample_version "v3", 6%Z, sample_fragment "o")] = Ok m ∧
    m_identity m = m_identity sample_message ∧ m_name m = Some "chat" ∧
    text_of (m_data m) = Some "Hello".
Proof.
  apply (append_rollup sample_message "Hel"
    [(sample_version "v2", 4%Z, sample_fragment "l");
     (sample_version "v3", 6%Z, sample_fragment "o")]); [reflexivity|].
  repeat constructor; try (vm_compute; congruence); by apply (bool_decide_unpack _).
Defined.
