(* ===== verification/VersionTypes.v ===== *)
(** * Version store: records and requests

    [crates/sockudo-core/src/version_store/types.rs]: the request and result types of
    the [VersionStore] trait, stored records, and the mutation of one stored record. *)

From stdpp Require Import base gmap strings list pretty.
From Stdlib Require Import ZArith Lia.
From S2P Require Import Prelude Errors Messages VersionedMessages.

Inductive VersionStoreDirection : Type :=
| VersionsNewestFirst
| VersionsOldestFirst.

#[export] Instance VersionStoreDirection_eq_dec : EqDecision VersionStoreDirection.
Proof. solve_decision. Defined.

Record VersionStoreCursor := {
  vcur_version : Z;
  vcur_version_serial : string;
  vcur_direction : VersionStoreDirection;
}.

Record StoredVersionRecord := {
  r_app_id : string;
  r_channel : string;
  r_original_client_id : option string;
  r_envelope : option MessageEnvelope;
  r_message : VersionedMessage;
}.

Record VersionStoreReadRequest := {
  vread_app_id : string;
  vread_channel : string;
  vread_message_serial : string;
  vread_direction : VersionStoreDirection;
  vread_limit : Z;
  vread_cursor : option VersionStoreCursor;
}.

Definition read_request_validate (req : VersionStoreReadRequest) : result Error unit :=
  ensure? negb (vread_limit req =? 0)%Z
    else (InvalidMessageFormat "version-history limit must be greater than 0") in
  match vread_cursor req with
  | None => Ok tt
  | Some cursor =>
      ensure? (vcur_version cursor =? 1)%Z
        else (InvalidMessageFormat ("unsupported version-history cursor version: "
               +:+ pretty (vcur_version cursor))) in
      ensure? bool_decide (vcur_direction cursor = vread_direction req)
        else (InvalidMessageFormat
               "version-history cursor direction does not match request") in
      Ok tt
  end.

Record VersionStorePage := {
  vpage_items : list StoredVersionRecord;
  vpage_next_cursor : option VersionStoreCursor;
  vpage_has_more : bool;
}.

Record VersionWriteReservation := {
  res_stream_id : string;
  res_delivery_serial : Z;
}.

Record VersionWriteReservationBlock := {
  blk_stream_id : string;
  blk_start_delivery_serial : Z;
  blk_len : Z;
}.

Definition block_validate (block_size : Z) : result Error unit :=
  ensure? negb (block_size =? 0)%Z
    else (InvalidMessageFormat
           "version delivery reservation block size must be greater than 0") in
  Ok tt.

(** ** Stored records *)

Definition message_serial (r : StoredVersionRecord) : string :=
  mi_message_serial (m_identity (r_message r)).
Definition version_serial (r : StoredVersionRecord) : string :=
  v_serial (m_version (r_message r)).
Definition history_serial (r : StoredVersionRecord) : Z :=
  mi_history_serial (m_identity (r_message r)).
Definition delivery_serial (r : StoredVersionRecord) : Z :=
  m_delivery_serial (r_message r).

Definition ai_status (r : StoredVersionRecord) : option string :=
  (m_extras (r_message r) ≫= ai_transport_headers) ≫= header_status.

Definition is_open_ai_stream (r : StoredVersionRecord) : bool :=
  bool_decide (ai_status r = Some "streaming").

Definition data_bytes `{SonicRs} (r : StoredVersionRecord) : result Error Z :=
  match m_data (r_message r) with
  | None => Ok 0%Z
  | Some (MString value) => Ok (str_len value)
  | Some value =>
      match sonic_to_vec value with
      | Ok bytes => Ok (Z.of_nat (length bytes))
      | Err e => Err (JsonError e)
      end
  end.

Definition set_delivery_serial (m : VersionedMessage) (ds : Z) : VersionedMessage := {|
  m_action := m_action m; m_identity := m_identity m; m_delivery_serial := ds;
  m_version := m_version m; m_name := m_name m; m_data := m_data m;
  m_extras := m_extras m; m_append_fragment := m_append_fragment m;
|}.

Definition with_delivery_position (r : StoredVersionRecord) (stream_id : string) (ds : Z)
    : StoredVersionRecord := {|
  r_app_id := r_app_id r;
  r_channel := r_channel r;
  r_original_client_id := r_original_client_id r;
  r_envelope :=
    match r_envelope r with
    | None => None
    | Some en => Some {|
        en_message_id := en_message_id en;
        en_acknowledgement_id := en_acknowledgement_id en;
        en_name := en_name en; en_data := en_data en; en_encoding := en_encoding en;
        en_publisher_client_id := en_publisher_client_id en;
        en_publisher_socket_id := en_publisher_socket_id en;
        en_publisher_connection_id := en_publisher_connection_id en;
        en_published_at_ms := en_published_at_ms en; en_extras := en_extras en;
        en_stream_id := Some stream_id;
        en_history_serial := en_history_serial en;
        en_delivery_serial := Some ds;
        en_action := en_action en; en_message_serial := en_message_serial en;
        en_version := en_version en; en_idempotency := en_idempotency en |}
    end;
  r_message := set_delivery_serial (r_message r) ds;
|}.

(** The idempotency receipt committed with a record. *)
Definition record_idempotency (r : StoredVersionRecord) : option PublishIdempotencyMetadata :=
  r_envelope r ≫= en_idempotency.

(** ** Mutation requests *)

Record VersionPrecondition := {
  pre_version_serial : string;
  pre_delivery_serial : Z;
}.

Definition precondition_from_record (r : StoredVersionRecord) : VersionPrecondition := {|
  pre_version_serial := version_serial r;
  pre_delivery_serial := delivery_serial r;
|}.

Definition precondition_matches (p : VersionPrecondition) (r : StoredVersionRecord) : bool :=
  bool_decide (pre_version_serial p = version_serial r) &&
  (pre_delivery_serial p =? delivery_serial r)%Z.

Inductive VersionMutation : Type :=
| MutationUpdate (delta : MessageFieldDelta)
| MutationDelete (delta : MessageFieldDelta)
| MutationAppend (append : MessageAppend).

Definition mutation_action (m : VersionMutation) : MessageAction :=
  match m with
  | MutationUpdate _ => ActionUpdate
  | MutationDelete _ => ActionDelete
  | MutationAppend _ => ActionAppend
  end.

Record VersionMutationLimits := {
  lim_max_accumulated_message_bytes : option Z;
  lim_max_appends_per_message : option Z;
  lim_max_open_streaming_messages_per_channel : option Z;
  lim_reject_append_after_terminal : bool;
}.

Record VersionCreateLimits := {
  clim_max_accumulated_message_bytes : option Z;
  clim_max_open_streaming_messages_per_channel : option Z;
}.

Record VersionCreateRequest := {
  creq_record : StoredVersionRecord;
  creq_limits : VersionCreateLimits;
}.

Inductive VersionCreateRejection : Type :=
| CreateAccumulatedMessageBytes (limit : Z)
| CreateOpenStreamingMessages (limit : Z).

Inductive VersionCreateResult : Type :=
| CreateApplied (record : StoredVersionRecord) (stream_id : string)
| CreateConflict (current : option StoredVersionRecord)
| CreateRejected (rejection : VersionCreateRejection).

Record VersionMutationRequest := {
  mreq_app_id : string;
  mreq_channel : string;
  mreq_message_serial : string;
  mreq_expected : VersionPrecondition;
  mreq_version : VersionMetadata;
  mreq_mutation : VersionMutation;
  mreq_idempotency : option PublishIdempotencyMetadata;
  mreq_limits : VersionMutationLimits;
}.

Inductive VersionMutationRejection : Type :=
| MutationAccumulatedMessageBytes (limit : Z)
| MutationAppendCount (limit : Z)
| MutationOpenStreamingMessages (limit : Z)
| MutationTerminalMessage.

Inductive VersionMutationResult : Type :=
| MutationApplied (record : StoredVersionRecord) (stream_id : string)
| MutationDuplicate (record : StoredVersionRecord) (stream_id : string)
| MutationConflict (current : option StoredVersionRecord)
| MutationRejected (rejection : VersionMutationRejection).

Record VersionStreamState := {
  vss_stream_id : option string;
  vss_next_delivery_serial : option Z;
  vss_oldest_available_delivery_serial : option Z;
  vss_newest_available_delivery_serial : option Z;
}.

Record VersionReplayRequest := {
  vreplay_app_id : string;
  vreplay_channel : string;
  vreplay_after_delivery_serial : Z;
  vreplay_limit : Z;
}.

Definition replay_request_validate (req : VersionReplayRequest) : result Error unit :=
  ensure? negb (vreplay_limit req =? 0)%Z
    else (InvalidMessageFormat "replay limit must be greater than 0") in
  Ok tt.

(** The message of the next version ([match &request.mutation]). *)
Definition mutate_message (m : VersionedMessage) (version : VersionMetadata) (ds : Z)
    (mutation : VersionMutation) : result Error VersionedMessage :=
  match mutation with
  | MutationUpdate delta => apply_mutation m ActionUpdate version ds delta
  | MutationDelete delta => apply_mutation m ActionDelete version ds delta
  | MutationAppend append => apply_append m version ds append
  end.

(** [message.data.as_ref().map(from_message_data).transpose()]. *)
Definition content_of `{SonicRs} (data : option MessageData)
    : result Error (option MessageContent) :=
  match data with
  | None => Ok None
  | Some d =>
      match content_from_message_data d with
      | Ok c => Ok (Some c)
      | Err e => Err (InvalidMessageFormat e)
      end
  end.

(** [StoredVersionRecord::apply_mutation]. *)
Definition record_apply_mutation `{SonicRs} (r : StoredVersionRecord)
    (req : VersionMutationRequest) (stream_id : string) (ds : Z)
    : result Error StoredVersionRecord :=
  if bool_decide (r_app_id r ≠ mreq_app_id req)
     || bool_decide (r_channel r ≠ mreq_channel req)
     || bool_decide (message_serial r ≠ mreq_message_serial req)
  then Err (InvalidMessageFormat "version mutation target does not match its predecessor")
  else
    let? message := mutate_message (r_message r) (mreq_version req) ds (mreq_mutation req) in
    let envelope := default default_envelope (r_envelope r) in
    let? data := content_of (m_data message) in
    Ok {| r_app_id := r_app_id r;
          r_channel := r_channel r;
          r_original_client_id := r_original_client_id r;
          r_envelope := Some {|
            en_message_id := en_message_id envelope;
            en_acknowledgement_id := Some (v_serial (m_version message));
            en_name := m_name message;
            en_data := data;
            en_encoding := en_encoding envelope;
            en_publisher_client_id :=
              match v_client_id (m_version message) with
              | Some c => Some c
              | None => en_publisher_client_id envelope
              end;
            en_publisher_socket_id := en_publisher_socket_id envelope;
            en_publisher_connection_id := en_publisher_connection_id envelope;
            en_published_at_ms := en_published_at_ms envelope;
            en_extras := m_extras message;
            en_stream_id := Some stream_id;
            en_history_serial := Some (mi_history_serial (m_identity message));
            en_delivery_serial := Some ds;
            en_action := Some (m_action message);
            en_message_serial := Some (mi_message_serial (m_identity message));
            en_version := Some {|
              vo_serial := v_serial (m_version message);
              vo_timestamp_ms := v_timestamp_ms (m_version message);
              vo_client_id := v_client_id (m_version message);
              vo_description := v_description (m_version message);
              vo_metadata := v_metadata (m_version message);
              vo_projection :=
                if bool_decide (m_action message = ActionAppend)
                then AppendFragment else Aggregate |};
            en_idempotency := mreq_idempotency req |};
          r_message := message |}.

Definition is_append (m : VersionMutation) : bool :=
  match m with
  | MutationAppend _ => true
  | _ => false
  end.

(** [MemoryVersionStore::is_terminal], and the same test inside [apply_to]. *)
Definition is_terminal (r : StoredVersionRecord) : bool :=
  match ai_status r with
  | Some status => bool_decide (status = "complete") || bool_decide (status = "cancelled")
  | None => false
  end.

Definition exceeds (limit : option Z) (n : Z) : option Z :=
  match limit with
  | Some limit => if (n >? limit)%Z then Some limit else None
  | None => None
  end.

Definition reaches (limit : option Z) (n : Z) : option Z :=
  match limit with
  | Some limit => if (n >=? limit)%Z then Some limit else None
  | None => None
  end.

(** [if let Some(limit) = max && record.data_bytes()? > limit]: the size is computed
    only under a limit. *)
Definition bytes_exceed `{SonicRs} (limit : option Z) (r : StoredVersionRecord)
    : result Error (option Z) :=
  match limit with
  | None => Ok None
  | Some _ => let? n := data_bytes r in Ok (exceeds limit n)
  end.

(** [VersionMutationRequest::apply_to]. *)
Definition apply_to `{SonicRs} (req : VersionMutationRequest) (current : StoredVersionRecord)
    (stream_id : string) (ds append_count : Z) : result Error VersionMutationResult :=
  let limits := mreq_limits req in
  if negb (precondition_matches (mreq_expected req) current) then
    Ok (MutationConflict (Some current))
  else if is_append (mreq_mutation req) && lim_reject_append_after_terminal limits
          && is_terminal current then
    Ok (MutationRejected MutationTerminalMessage)
  else
    match (if is_append (mreq_mutation req)
           then reaches (lim_max_appends_per_message limits) append_count else None) with
    | Some limit => Ok (MutationRejected (MutationAppendCount limit))
    | None =>
        let? record := record_apply_mutation current req stream_id ds in
        let? over := bytes_exceed (lim_max_accumulated_message_bytes limits) record in
        match over with
        | Some limit => Ok (MutationRejected (MutationAccumulatedMessageBytes limit))
        | None => Ok (MutationApplied record stream_id)
        end
    end.

(** ** Facts about record mutation *)

Lemma mutate_message_Ok_inv m version ds mutation m' :
  mutate_message m version ds mutation = Ok m' →
  m_identity m' = m_identity m ∧ m_version m' = version ∧ m_delivery_serial m' = ds ∧
  m_action m' = mutation_action mutation ∧
  key_lt (m_version_serial m) (m_version_serial m') ∧ (m_delivery_serial m < ds)%Z.
Proof.
  destruct mutation; simpl; eauto using apply_mutation_Ok_inv, apply_append_Ok_inv.
Qed.

Section record_facts.
Context `{SonicRs}.

Lemma record_apply_mutation_Ok_inv r req sid ds r' :
  record_apply_mutation r req sid ds = Ok r' →
  mutate_message (r_message r) (mreq_version req) ds (mreq_mutation req)
    = Ok (r_message r') ∧
  r_app_id r' = mreq_app_id req ∧ r_channel r' = mreq_channel req ∧
  r_app_id r = mreq_app_id req ∧ r_channel r = mreq_channel req ∧
  message_serial r = mreq_message_serial req ∧
  record_idempotency r' = mreq_idempotency req.
Proof.
  unfold record_apply_mutation. repeat case_bool_decide; simpl; try done.
  intros (m & Hm & (data & Hd & [= <-])%rbind_Ok_inv)%rbind_Ok_inv. simpl.
  repeat split; try done; by apply dec_stable.
Qed.

Lemma record_apply_mutation_fields r req sid ds r' :
  record_apply_mutation r req sid ds = Ok r' →
  message_serial r' = message_serial r ∧ history_serial r' = history_serial r ∧
  version_serial r' = v_serial (mreq_version req) ∧ delivery_serial r' = ds ∧
  key_lt (version_serial r) (version_serial r') ∧ (delivery_serial r < ds)%Z.
Proof.
  intros (Hm & _)%record_apply_mutation_Ok_inv.
  apply mutate_message_Ok_inv in Hm as (Hid & Hv & Hd & _ & Hlt & Hds).
  unfold message_serial, history_serial, version_serial, delivery_serial.
  rewrite Hid, Hd, Hv. unfold m_version_serial in Hlt. rewrite Hv in Hlt. done.
Qed.
End record_facts.
