(* ===== verification/VersionStore.v ===== *)
(** * The in-memory version store

    [crates/sockudo-core/src/version_store/memory.rs]: the indexed version chain of one
    message, the channel state, and the operations of [MemoryVersionStore].  Every
    operation runs under the store's write (or read) lock, so it is one function on the
    whole store; [fresh] is the UUID a new channel would get and [now] the clock value
    the operation reads. *)

From stdpp Require Import base gmap strings list sorting pretty.
From Stdlib Require Import ZArith Lia.
From S2P Require Import Prelude Errors Messages VersionedMessages VersionTypes.

(** ** Version chains *)

Record VersionChain := {
  vc_entries : list StoredVersionRecord;
  vc_versions : gset string;
  vc_operations : gmap string nat;
  vc_latest : option nat;
  vc_append_count : Z;
}.

Definition empty_chain : VersionChain := {|
  vc_entries := []; vc_versions := ∅; vc_operations := ∅;
  vc_latest := None; vc_append_count := 0;
|}.

(** [VersionChain::latest]; the index is in range whenever it is set. *)
Definition chain_latest (c : VersionChain) : option StoredVersionRecord :=
  vc_latest c ≫= λ index, vc_entries c !! index.

Definition validate_incoming (c : VersionChain) (record : StoredVersionRecord)
    : result Error unit :=
  let? _ := match vc_entries c with
            | first :: _ => ensure_same_chain (r_message first) (r_message record)
            | [] => Ok tt
            end in
  if decide (version_serial record ∈ vc_versions c) then
    Err (InvalidMessageFormat ("duplicate version_serial " +:+ version_serial record
      +:+ " in version chain"))
  else Ok tt.

Definition is_append_record (r : StoredVersionRecord) : bool :=
  bool_decide (m_action (r_message r) = ActionAppend).

Definition chain_push (c : VersionChain) (record : StoredVersionRecord) : VersionChain :=
  let index := length (vc_entries c) in {|
  vc_entries := vc_entries c ++ [record];
  vc_versions := {[version_serial record]} ∪ vc_versions c;
  vc_operations :=
    match record_idempotency record with
    | Some operation =>
        match vc_operations c !! cache_key operation with
        | Some _ => vc_operations c
        | None => <[cache_key operation := index]> (vc_operations c)
        end
    | None => vc_operations c
    end;
  vc_latest :=
    match chain_latest c with
    | Some latest =>
        if key_ltb (version_serial latest) (version_serial record)
        then Some index else vc_latest c
    | None => Some index
    end;
  vc_append_count := vc_append_count c + usize_from (is_append_record record);
|}.

(** [VersionChain::remove]: the retained entries are pushed again in order. *)
Definition chain_remove (c : VersionChain) (version : string) : VersionChain :=
  foldl chain_push empty_chain
    (filter (λ entry, version_serial entry ≠ version) (vc_entries c)).

(** ** Channels and the store *)

Record MemoryVersionChannel := {
  vch_stream_id : string;
  vch_next_delivery_serial : Z;
  vch_messages : gmap string VersionChain;
  vch_open_stream_count : Z;
  vch_replay : gmap Z StoredVersionRecord;
  vch_created_at : gmap Z Z;
}.

Definition default_channel (fresh : string) : MemoryVersionChannel := {|
  vch_stream_id := fresh; vch_next_delivery_serial := 1; vch_messages := ∅;
  vch_open_stream_count := 0; vch_replay := ∅; vch_created_at := ∅;
|}.

(** Keys of the store's [BTreeMap]: ["{app_id}\0{channel}"]. *)
Notation MemoryVersionStore := (gmap string MemoryVersionChannel).

Definition channel_key (app_id channel : string) : string := app_id +:+ nul +:+ channel.

(** [channels.entry(key).or_default()]. *)
Definition entry_or_default (fresh : string) (s : MemoryVersionStore) (key : string)
    : MemoryVersionChannel := default (default_channel fresh) (s !! key).

Definition set_next_delivery_serial (ch : MemoryVersionChannel) (next : Z)
    : MemoryVersionChannel := {|
  vch_stream_id := vch_stream_id ch; vch_next_delivery_serial := next;
  vch_messages := vch_messages ch; vch_open_stream_count := vch_open_stream_count ch;
  vch_replay := vch_replay ch; vch_created_at := vch_created_at ch;
|}.

Definition latest_is_open (c : option VersionChain) : bool :=
  match c ≫= chain_latest with
  | Some entry => is_open_ai_stream entry
  | None => false
  end.

Definition ensure_stream_id (fresh app_id channel : string) (s : MemoryVersionStore)
    : MemoryVersionStore * result Error string :=
  let key := channel_key app_id channel in
  let ch := entry_or_default fresh s key in
  (<[key := ch]> s, Ok (vch_stream_id ch)).

Definition reserve_delivery_position (fresh app_id channel : string)
    (s : MemoryVersionStore) : MemoryVersionStore * result Error VersionWriteReservation :=
  let key := channel_key app_id channel in
  let ch := entry_or_default fresh s key in
  (<[key := set_next_delivery_serial ch
              (u64_saturating_add (vch_next_delivery_serial ch) 1)]> s,
   Ok {| res_stream_id := vch_stream_id ch;
         res_delivery_serial := vch_next_delivery_serial ch |}).

Definition reserve_delivery_positions (fresh app_id channel : string) (block_size : Z)
    (s : MemoryVersionStore)
    : MemoryVersionStore * result Error VersionWriteReservationBlock :=
  match block_validate block_size with
  | Err e => (s, Err e)
  | Ok _ =>
      let key := channel_key app_id channel in
      let ch := entry_or_default fresh s key in
      (<[key := set_next_delivery_serial ch
                  (u64_saturating_add (vch_next_delivery_serial ch) block_size)]> s,
       Ok {| blk_stream_id := vch_stream_id ch;
             blk_start_delivery_serial := vch_next_delivery_serial ch;
             blk_len := block_size |})
  end.

(** The commit of a record that passed every check: the chain, the open-stream count
    ([usize] arithmetic), [created_at], [replay] and the delivery counter. *)
Definition channel_commit (ch : MemoryVersionChannel) (record : StoredVersionRecord)
    (now next : Z) : MemoryVersionChannel :=
  let serial := message_serial record in
  let before := vch_messages ch !! serial in
  let chain := chain_push (default empty_chain before) record in {|
  vch_stream_id := vch_stream_id ch;
  vch_next_delivery_serial := next;
  vch_messages := <[serial := chain]> (vch_messages ch);
  vch_open_stream_count :=
    u64_wrap (u64_wrap (vch_open_stream_count ch - usize_from (latest_is_open before))
              + usize_from (latest_is_open (Some chain)));
  vch_replay := <[delivery_serial record := record]> (vch_replay ch);
  vch_created_at := <[delivery_serial record := now]> (vch_created_at ch);
|}.

Definition append_version_checks (ch : MemoryVersionChannel) (record : StoredVersionRecord)
    : result Error unit :=
  match vch_replay ch !! delivery_serial record with
  | Some existing =>
      Err (InvalidMessageFormat ("duplicate delivery_serial "
        +:+ pretty (delivery_serial record) +:+ " in version replay log for "
        +:+ r_app_id record +:+ ":" +:+ r_channel record
        +:+ " (existing message_serial " +:+ message_serial existing
        +:+ ", incoming " +:+ message_serial record +:+ ")"))
  | None =>
      match vch_messages ch !! message_serial record with
      | Some chain => validate_incoming chain record
      | None => validate_version_chain [r_message record]
      end
  end.

Definition append_version (fresh : string) (now : Z) (record : StoredVersionRecord)
    (s : MemoryVersionStore) : MemoryVersionStore * result Error unit :=
  let key := channel_key (r_app_id record) (r_channel record) in
  let ch := entry_or_default fresh s key in
  match append_version_checks ch record with
  | Err e => (<[key := ch]> s, Err e)
  | Ok _ =>
      let next := Z.max (vch_next_delivery_serial ch)
                        (u64_saturating_add (delivery_serial record) 1) in
      (<[key := channel_commit ch record now next]> s, Ok tt)
  end.

Definition commit_create_checks `{SonicRs} (ch : MemoryVersionChannel)
    (req : VersionCreateRequest) : result Error (option VersionCreateResult) :=
  let record := creq_record req in
  match vch_messages ch !! message_serial record ≫= chain_latest with
  | Some current => Ok (Some (CreateConflict (Some current)))
  | None =>
      let? over := bytes_exceed (clim_max_accumulated_message_bytes (creq_limits req)) record in
      match over with
      | Some limit => Ok (Some (CreateRejected (CreateAccumulatedMessageBytes limit)))
      | None =>
          match (if is_open_ai_stream record
                 then reaches (clim_max_open_streaming_messages_per_channel (creq_limits req))
                        (vch_open_stream_count ch)
                 else None) with
          | Some limit => Ok (Some (CreateRejected (CreateOpenStreamingMessages limit)))
          | None => Ok None
          end
      end
  end.

(** [commit_create] after its admission checks: the record gets the next position. *)
Definition commit_create_apply (now : Z) (ch : MemoryVersionChannel)
    (incoming : StoredVersionRecord)
    : MemoryVersionChannel * result Error VersionCreateResult :=
  let ds := vch_next_delivery_serial ch in
  let record := with_delivery_position incoming (vch_stream_id ch) ds in
  match validate_version_chain [r_message record] with
  | Err e => (ch, Err e)
  | Ok _ =>
      match vch_replay ch !! ds with
      | Some _ =>
          (ch, Err (InvalidMessageFormat ("duplicate delivery_serial " +:+ pretty ds
             +:+ " in version replay log")))
      | None =>
          ({| vch_stream_id := vch_stream_id ch;
              vch_next_delivery_serial := u64_saturating_add ds 1;
              vch_messages :=
                <[message_serial record := chain_push empty_chain record]> (vch_messages ch);
              vch_open_stream_count :=
                u64_wrap (vch_open_stream_count ch + usize_from (is_open_ai_stream record));
              vch_replay := <[ds := record]> (vch_replay ch);
              vch_created_at := <[ds := now]> (vch_created_at ch) |},
           Ok (CreateApplied record (vch_stream_id ch)))
      end
  end.

Definition commit_create `{SonicRs} (fresh : string) (now : Z) (req : VersionCreateRequest)
    (s : MemoryVersionStore) : MemoryVersionStore * result Error VersionCreateResult :=
  let record := creq_record req in
  let key := channel_key (r_app_id record) (r_channel record) in
  let ch := entry_or_default fresh s key in
  match commit_create_checks ch req with
  | Err e => (<[key := ch]> s, Err e)
  | Ok (Some refused) => (<[key := ch]> s, Ok refused)
  | Ok None =>
      let '(ch', out) := commit_create_apply now ch record in (<[key := ch']> s, out)
  end.

(** The operation receipt of a retried mutation: the stored record with the same
    operation key, or the conflict of a different payload under that key. *)
Definition lookup_receipt (chain : VersionChain) (stream_id : string)
    (idempotency : option PublishIdempotencyMetadata)
    : option (result Error VersionMutationResult) :=
  incoming ← idempotency;
  existing ← (index ← vc_operations chain !! cache_key incoming; vc_entries chain !! index);
  Some
    (match record_idempotency existing with
     | None => Err (Internal "matched mutation idempotency record disappeared during lookup")
     | Some found =>
         if decide (payload_fingerprint found ≠ payload_fingerprint incoming)
         then Err IdempotencyConflict
         else Ok (MutationDuplicate existing stream_id)
     end).

(** The guards on the current version before a mutation is built. *)
Definition mutation_refused (req : VersionMutationRequest) (chain : VersionChain)
    (current : StoredVersionRecord) : option VersionMutationResult :=
  let limits := mreq_limits req in
  if negb (precondition_matches (mreq_expected req) current) then
    Some (MutationConflict (Some current))
  else if is_append (mreq_mutation req) then
    if lim_reject_append_after_terminal limits && is_terminal current then
      Some (MutationRejected MutationTerminalMessage)
    else
      match reaches (lim_max_appends_per_message limits) (vc_append_count chain) with
      | Some limit => Some (MutationRejected (MutationAppendCount limit))
      | None => None
      end
  else None.

(** The limits on the mutated record. *)
Definition mutation_over_limits `{SonicRs} (req : VersionMutationRequest)
    (ch : MemoryVersionChannel) (current record : StoredVersionRecord)
    : result Error (option VersionMutationRejection) :=
  let limits := mreq_limits req in
  let? over := bytes_exceed (lim_max_accumulated_message_bytes limits) record in
  match over with
  | Some limit => Ok (Some (MutationAccumulatedMessageBytes limit))
  | None =>
      if negb (is_open_ai_stream current) && is_open_ai_stream record then
        match reaches (lim_max_open_streaming_messages_per_channel limits)
                (vch_open_stream_count ch) with
        | Some limit => Ok (Some (MutationOpenStreamingMessages limit))
        | None => Ok None
        end
      else Ok None
  end.

(** The decision of [compare_and_apply] on a chain: an outcome that leaves the store
    unchanged ([inl]), or the current record and the record to commit ([inr]). *)
Definition compare_and_apply_decide `{SonicRs} (req : VersionMutationRequest)
    (ch : MemoryVersionChannel) (chain : VersionChain)
    : result Error (VersionMutationResult + StoredVersionRecord * StoredVersionRecord) :=
  match lookup_receipt chain (vch_stream_id ch) (mreq_idempotency req) with
  | Some out => rmap inl out
  | None =>
      let? current := ok_or (chain_latest chain)
        (InvalidMessageFormat "version chain must not be empty") in
      match mutation_refused req chain current with
      | Some out => Ok (inl out)
      | None =>
          let ds := Z.max (vch_next_delivery_serial ch)
                          (u64_saturating_add (delivery_serial current) 1) in
          let? record := record_apply_mutation current req (vch_stream_id ch) ds in
          let? over := mutation_over_limits req ch current record in
          match over with
          | Some rejection => Ok (inl (MutationRejected rejection))
          | None =>
              let? _ := validate_incoming chain record in
              match vch_replay ch !! ds with
              | Some _ => Err (InvalidMessageFormat ("duplicate delivery_serial "
                            +:+ pretty ds +:+ " in version replay log"))
              | None => Ok (inr (current, record))
              end
          end
      end
  end.

(** The commit of [compare_and_apply]. *)
Definition apply_commit (now : Z) (ch : MemoryVersionChannel) (chain : VersionChain)
    (serial : string) (current record : StoredVersionRecord) : MemoryVersionChannel := {|
  vch_stream_id := vch_stream_id ch;
  vch_next_delivery_serial := u64_saturating_add (delivery_serial record) 1;
  vch_messages := <[serial := chain_push chain record]> (vch_messages ch);
  vch_open_stream_count :=
    u64_wrap (u64_wrap (vch_open_stream_count ch - usize_from (is_open_ai_stream current))
              + usize_from (is_open_ai_stream record));
  vch_replay := <[delivery_serial record := record]> (vch_replay ch);
  vch_created_at := <[delivery_serial record := now]> (vch_created_at ch);
|}.

Definition compare_and_apply `{SonicRs} (now : Z) (req : VersionMutationRequest)
    (s : MemoryVersionStore) : MemoryVersionStore * result Error VersionMutationResult :=
  let key := channel_key (mreq_app_id req) (mreq_channel req) in
  match s !! key with
  | None => (s, Ok (MutationConflict None))
  | Some ch =>
      match vch_messages ch !! mreq_message_serial req with
      | None => (s, Ok (MutationConflict None))
      | Some chain =>
          match compare_and_apply_decide req ch chain with
          | Err e => (s, Err e)
          | Ok (inl out) => (s, Ok out)
          | Ok (inr (current, record)) =>
              (<[key := apply_commit now ch chain (mreq_message_serial req) current record]> s,
               Ok (MutationApplied record (vch_stream_id ch)))
          end
      end
  end.

(** ** Reads *)

Definition get_latest (app_id channel serial : string) (s : MemoryVersionStore)
    : result Error (option StoredVersionRecord) :=
  match s !! channel_key app_id channel with
  | None => Ok None
  | Some ch =>
      match vch_messages ch !! serial with
      | None => Ok None
      | Some chain =>
          let? latest := ok_or (chain_latest chain)
            (InvalidMessageFormat "version chain must not be empty") in
          Ok (Some latest)
      end
  end.

(** The requested serials go through a [BTreeSet]: each once, in order; the first empty
    chain is the error. *)
Definition get_latest_batch (app_id channel : string) (serials : list string)
    (s : MemoryVersionStore) : result Error (gmap string StoredVersionRecord) :=
  match serials with
  | [] => Ok ∅
  | _ =>
      match s !! channel_key app_id channel with
      | None => Ok ∅
      | Some ch =>
          let requested := stable_sort key_le (remove_dups serials) in
          let found := omap (λ serial, (λ chain, (serial, chain)) <$> vch_messages ch !! serial)
                         requested in
          rmap list_to_map
            (rmapM (λ sc : string * VersionChain,
                      let? record := ok_or (chain_latest sc.2)
                        (InvalidMessageFormat "version chain must not be empty") in
                      Ok (sc.1, record)) found)
      end
  end.

Definition empty_page : VersionStorePage := {|
  vpage_items := []; vpage_next_cursor := None; vpage_has_more := false;
|}.

Definition version_serial_le (a b : StoredVersionRecord) : Prop :=
  key_le (version_serial a) (version_serial b).

#[export] Instance version_serial_le_dec : RelDecision version_serial_le.
Proof. intros a b. unfold version_serial_le. apply _. Defined.

Definition after_cursor (req : VersionStoreReadRequest) (item : StoredVersionRecord) : bool :=
  match vread_cursor req with
  | None => true
  | Some cursor =>
      match vread_direction req with
      | VersionsNewestFirst => key_ltb (version_serial item) (vcur_version_serial cursor)
      | VersionsOldestFirst => key_ltb (vcur_version_serial cursor) (version_serial item)
      end
  end.

Definition chain_in_order (dir : VersionStoreDirection) (entries : list StoredVersionRecord)
    : list StoredVersionRecord :=
  let items := stable_sort version_serial_le entries in
  match dir with
  | VersionsNewestFirst => reverse items
  | VersionsOldestFirst => items
  end.

(** [limit + 1] is [usize] arithmetic. *)
Definition chain_page (req : VersionStoreReadRequest) (entries : list StoredVersionRecord)
    : VersionStorePage :=
  let filtered := take (Z.to_nat (u64_wrap (vread_limit req + 1)))
    (filter (λ item, after_cursor req item = true)
       (chain_in_order (vread_direction req) entries)) in
  let has_more := (Z.of_nat (length filtered) >? vread_limit req)%Z in
  let items := take (Z.to_nat (vread_limit req)) filtered in {|
  vpage_items := items;
  vpage_next_cursor :=
    if has_more
    then (λ item, {| vcur_version := 1; vcur_version_serial := version_serial item;
                     vcur_direction := vread_direction req |}) <$> last items
    else None;
  vpage_has_more := has_more;
|}.

Definition get_versions (req : VersionStoreReadRequest) (s : MemoryVersionStore)
    : result Error VersionStorePage :=
  let? _ := read_request_validate req in
  match s !! channel_key (vread_app_id req) (vread_channel req) with
  | None => Ok empty_page
  | Some ch =>
      match vch_messages ch !! vread_message_serial req with
      | None => Ok empty_page
      | Some chain => Ok (chain_page req (vc_entries chain))
      end
  end.

Definition replay_after (req : VersionReplayRequest) (s : MemoryVersionStore)
    : result Error (list StoredVersionRecord) :=
  let? _ := replay_request_validate req in
  match s !! channel_key (vreplay_app_id req) (vreplay_channel req) with
  | None => Ok []
  | Some ch =>
      let stored := take (Z.to_nat (vreplay_limit req))
        (btree_range (u64_saturating_add (vreplay_after_delivery_serial req) 1)
           (vch_replay ch)).*2 in
      let? _ := validate_replay_continuity (r_message <$> stored)
                  (vreplay_after_delivery_serial req) in
      Ok stored
  end.

Definition history_serial_le (a b : StoredVersionRecord) : Prop :=
  (history_serial a ≤ history_serial b)%Z.

#[export] Instance history_serial_le_dec : RelDecision history_serial_le.
Proof. intros a b. unfold history_serial_le. apply _. Defined.

Definition latest_by_history (app_id channel : string) (s : MemoryVersionStore)
    : result Error (list StoredVersionRecord) :=
  match s !! channel_key app_id channel with
  | None => Ok []
  | Some ch =>
      Ok (stable_sort history_serial_le (omap chain_latest (btree_values (vch_messages ch))))
  end.

Definition stream_state (app_id channel : string) (s : MemoryVersionStore)
    : result Error VersionStreamState :=
  match s !! channel_key app_id channel with
  | None => Ok {| vss_stream_id := None; vss_next_delivery_serial := None;
                  vss_oldest_available_delivery_serial := None;
                  vss_newest_available_delivery_serial := None |}
  | Some ch =>
      Ok {| vss_stream_id := Some (vch_stream_id ch);
            vss_next_delivery_serial := Some (vch_next_delivery_serial ch);
            vss_oldest_available_delivery_serial := head (btree_list (vch_replay ch)).*1;
            vss_newest_available_delivery_serial := last (btree_list (vch_replay ch)).*1 |}
  end.

(** ** Retention *)

(** The scan of [created_at]: serials to remove, and whether the batch limit stopped it. *)
Fixpoint scan_expired (before_ms remaining taken : Z) (created : list (Z * Z))
    : list Z * bool :=
  match created with
  | [] => ([], false)
  | (ds, created_ms) :: rest =>
      if (created_ms >=? before_ms)%Z then ([], false)
      else if (taken >=? remaining)%Z then ([], true)
      else
        let '(to_remove, more) := scan_expired before_ms remaining (taken + 1) rest in
        (ds :: to_remove, more)
  end.

(** One iteration of the removal loop, with its contribution to [deleted]. *)
Definition purge_serial (ch : MemoryVersionChannel) (ds : Z) : MemoryVersionChannel * Z :=
  let created_at := delete ds (vch_created_at ch) in
  match vch_replay ch !! ds with
  | None =>
      ({| vch_stream_id := vch_stream_id ch;
          vch_next_delivery_serial := vch_next_delivery_serial ch;
          vch_messages := vch_messages ch; vch_open_stream_count := vch_open_stream_count ch;
          vch_replay := vch_replay ch; vch_created_at := created_at |}, 0%Z)
  | Some record =>
      let replay := delete ds (vch_replay ch) in
      let key := message_serial record in
      match vch_messages ch !! key with
      | None =>
          ({| vch_stream_id := vch_stream_id ch;
              vch_next_delivery_serial := vch_next_delivery_serial ch;
              vch_messages := vch_messages ch;
              vch_open_stream_count := vch_open_stream_count ch;
              vch_replay := replay; vch_created_at := created_at |}, 1%Z)
      | Some chain =>
          let chain' := chain_remove chain (version_serial record) in
          ({| vch_stream_id := vch_stream_id ch;
              vch_next_delivery_serial := vch_next_delivery_serial ch;
              vch_messages :=
                match vc_entries chain' with
                | [] => delete key (vch_messages ch)
                | _ => <[key := chain']> (vch_messages ch)
                end;
              vch_open_stream_count :=
                u64_wrap (u64_wrap (vch_open_stream_count ch
                                    - usize_from (latest_is_open (Some chain)))
                          + usize_from (latest_is_open (Some chain')));
              vch_replay := replay; vch_created_at := created_at |}, 1%Z)
      end
  end.

Fixpoint purge_serials (ch : MemoryVersionChannel) (to_remove : list Z)
    : MemoryVersionChannel * Z :=
  match to_remove with
  | [] => (ch, 0%Z)
  | ds :: rest =>
      let '(ch1, n1) := purge_serial ch ds in
      let '(ch2, n2) := purge_serials ch1 rest in
      (ch2, (n1 + n2)%Z)
  end.

Definition first_is_expired (before_ms : Z) (ch : MemoryVersionChannel) : bool :=
  match btree_list (vch_created_at ch) with
  | (_, ts) :: _ => (ts <? before_ms)%Z
  | [] => false
  end.

(** The loop over [channels.values_mut()]. *)
Fixpoint purge_channels (before_ms batch_size deleted : Z) (has_more : bool)
    (chs : list (string * MemoryVersionChannel)) (s : MemoryVersionStore)
    : MemoryVersionStore * (Z * bool) :=
  match chs with
  | [] => (s, (deleted, has_more))
  | (key, ch) :: rest =>
      let remaining := u64_saturating_sub batch_size deleted in
      if (remaining =? 0)%Z then (s, (deleted, true))
      else
        let '(to_remove, more) :=
          scan_expired before_ms remaining 0 (btree_list (vch_created_at ch)) in
        let '(ch', n) := purge_serials ch to_remove in
        let has_more := has_more || more || first_is_expired before_ms ch' in
        purge_channels before_ms batch_size (deleted + n) has_more rest (<[key := ch']> s)
  end.

Definition purge_before (before_ms batch_size : Z) (s : MemoryVersionStore)
    : MemoryVersionStore * result Error (Z * bool) :=
  if (batch_size =? 0)%Z then (s, Ok (0%Z, false))
  else
    let '(s', out) := purge_channels before_ms batch_size 0 false (btree_list s) s in
    (s', Ok out).
