(* ===== verification/VersionChains.v ===== *)
(** * Indexed version chains

    The indexes of [VersionChain] (latest version, version set, operation receipts,
    append count) always agree with a scan of the entries, and the incremental
    validation of an incoming version agrees with the validation of the whole chain. *)

From stdpp Require Import base gmap strings list sorting pretty.
From Stdlib Require Import ZArith Lia.
From S2P Require Import Prelude Errors Messages VersionedMessages VersionTypes VersionStore.

Implicit Types (r : StoredVersionRecord) (l : list StoredVersionRecord) (c : VersionChain).

(** The chain a list of records builds. *)
Definition chain_of l : VersionChain := foldl chain_push empty_chain l.

(** Records of one message with pairwise different version serials. *)
Definition chain_records l : Prop :=
  l ≠ [] ∧
  (∀ a b, a ∈ l → b ∈ l → m_identity (r_message a) = m_identity (r_message b)) ∧
  NoDup (version_serial <$> l).

Definition wf_chain c : Prop := c = chain_of (vc_entries c) ∧ chain_records (vc_entries c).

(** The reference definitions: the first record stored under an operation key, and the
    number of appends, by a scan. *)
Definition has_key (key : string) r : Prop := cache_key <$> record_idempotency r = Some key.

#[export] Instance has_key_dec key r : Decision (has_key key r).
Proof. unfold has_key. apply _. Defined.

Definition scan_receipt (key : string) l : option StoredVersionRecord :=
  snd <$> list_find (has_key key) l.

Definition scan_appends l : Z :=
  Z.of_nat (length (filter (λ r, is_append_record r = true) l)).

Lemma chain_of_snoc l r : chain_of (l ++ [r]) = chain_push (chain_of l) r.
Proof. apply foldl_snoc. Qed.

Lemma chain_of_entries l : vc_entries (chain_of l) = l.
Proof.
  induction l as [|r l IH] using rev_ind; [done|]. rewrite chain_of_snoc. simpl. by rewrite IH.
Qed.

Lemma chain_of_versions l : vc_versions (chain_of l) = list_to_set (version_serial <$> l).
Proof.
  induction l as [|r l IH] using rev_ind; [done|]. rewrite chain_of_snoc. simpl. rewrite IH.
  rewrite fmap_app, list_to_set_app_L. simpl. set_solver.
Qed.

Lemma chain_of_append_count l : vc_append_count (chain_of l) = scan_appends l.
Proof.
  unfold scan_appends. induction l as [|r l IH] using rev_ind; [done|].
  rewrite chain_of_snoc. simpl. rewrite IH, filter_app, length_app, Nat2Z.inj_add.
  f_equal. rewrite filter_cons. by destruct (is_append_record r).
Qed.

(** The indexed latest version is the first one with the greatest version serial. *)
Lemma chain_of_latest l :
  match chain_latest (chain_of l) with
  | Some r => first_greatest version_serial l r
  | None => l = []
  end.
Proof.
  unfold chain_latest. induction l as [|r l IH] using rev_ind; [done|].
  rewrite chain_of_snoc. simpl. fold (chain_latest (chain_of l)) in *.
  rewrite chain_of_entries. destruct (chain_latest (chain_of l)) as [m|] eqn:Hm.
  - pose proof (first_greatest_snoc version_serial l m r IH) as Hsnoc.
    destruct (key_ltb _ _); simpl.
    + by rewrite lookup_app_r, Nat.sub_diag by done.
    + unfold chain_latest in Hm. rewrite chain_of_entries in Hm.
      destruct (vc_latest (chain_of l)) as [i|]; simplify_eq/=.
      by rewrite (lookup_app_l_Some _ _ _ _ Hm).
  - simpl. rewrite lookup_app_r, Nat.sub_diag by done. rewrite IH.
    apply first_greatest_singleton.
Qed.

Lemma chain_latest_Some l r :
  first_greatest version_serial l r ↔ chain_latest (chain_of l) = Some r.
Proof.
  pose proof (chain_of_latest l) as Hl. split.
  - intros Hr. destruct (chain_latest (chain_of l)) as [m|].
    + f_equal. by eapply first_greatest_unique.
    + subst. by apply first_greatest_elem, elem_of_nil in Hr.
  - intros Hr. by rewrite Hr in Hl.
Qed.

Lemma chain_latest_is_Some l : l ≠ [] → is_Some (chain_latest (chain_of l)).
Proof. pose proof (chain_of_latest l). destruct (chain_latest _); [eauto|done]. Qed.

(** The operation index finds the same record as a scan for the first receipt. *)
Lemma chain_of_operations l key :
  vc_operations (chain_of l) !! key = fst <$> list_find (has_key key) l.
Proof.
  induction l as [|r l IH] using rev_ind; [done|].
  rewrite chain_of_snoc. simpl. rewrite chain_of_entries.
  assert (list_find (has_key key) (l ++ [r]) =
    match list_find (has_key key) l with
    | Some x => Some x
    | None => if decide (has_key key r) then Some (length l, r) else None
    end) as ->.
  { destruct (list_find (has_key key) l) as [[i x]|] eqn:Hl.
    - by apply list_find_app_l.
    - rewrite list_find_app_r by done. simpl. by case_decide. }
  destruct (record_idempotency r) as [op|] eqn:Hr; simpl.
  - assert (has_key key r ↔ cache_key op = key) as Hkey.
    { unfold has_key. rewrite Hr. simpl. naive_solver. }
    destruct (decide (cache_key op = key)) as [Hk|Hk].
    + rewrite (decide_True _ _ (proj2 Hkey Hk)). subst key.
      destruct (vc_operations (chain_of l) !! cache_key op) as [i|] eqn:Hop;
        rewrite ?lookup_insert_eq; rewrite ?Hop; rewrite IH in Hop;
        destruct (list_find _ l) as [[j x]|]; by simplify_eq/=.
    + rewrite decide_False by tauto.
      destruct (vc_operations (chain_of l) !! cache_key op);
        rewrite ?lookup_insert_ne, IH by done; by destruct (list_find _ l).
  - rewrite decide_False by (unfold has_key; rewrite Hr; done).
    rewrite IH. by destruct (list_find _ l).
Qed.

Lemma chain_of_receipt l key :
  (vc_operations (chain_of l) !! key ≫= λ i, vc_entries (chain_of l) !! i) =
  scan_receipt key l.
Proof.
  unfold scan_receipt. rewrite chain_of_operations, chain_of_entries.
  destruct (list_find _ l) as [[i r]|] eqn:Hl; simpl; [|done].
  by apply list_find_Some in Hl as (-> & _).
Qed.

Lemma scan_receipt_app key l l' r :
  scan_receipt key l = Some r → scan_receipt key (l ++ l') = Some r.
Proof.
  unfold scan_receipt. destruct (list_find _ l) as [[i x]|] eqn:Hl; [|done].
  by rewrite (list_find_app_l _ _ _ _ _ Hl).
Qed.

Lemma scan_receipt_snoc key l r :
  scan_receipt key l = None → has_key key r → scan_receipt key (l ++ [r]) = Some r.
Proof.
  unfold scan_receipt. intros Hl Hr. destruct (list_find (has_key key) l) eqn:Hf; [done|].
  rewrite list_find_app_r by done. simpl. by rewrite decide_True.
Qed.

Lemma scan_receipt_Some key l r :
  scan_receipt key l = Some r → r ∈ l ∧ has_key key r.
Proof.
  unfold scan_receipt. destruct (list_find _ l) as [[i x]|] eqn:Hl; simpl; [|done].
  intros [= <-]. apply list_find_Some in Hl as (Hx & Hk & _).
  split; [|done]. by eapply list_elem_of_lookup_2.
Qed.

(** The indexes of a version chain are exact.  After pushing any records of one
    message in any order, the indexed latest version is the one
    [select_latest_visible] selects from all of them, the version set holds exactly
    their version serials, the operation index finds the first record stored under an
    operation key, and the append counter is the number of appends. *)
Theorem chain_indexes_exact l :
  l ≠ [] →
  (∀ a b, a ∈ l → b ∈ l → m_identity (r_message a) = m_identity (r_message b)) →
  (∃ r, chain_latest (chain_of l) = Some r ∧
     select_latest_visible (r_message <$> l) = Ok (r_message r)) ∧
  (∀ v, v ∈ vc_versions (chain_of l) ↔ ∃ r, r ∈ l ∧ version_serial r = v) ∧
  (∀ key, (vc_operations (chain_of l) !! key ≫= λ i, vc_entries (chain_of l) !! i) =
          scan_receipt key l) ∧
  vc_append_count (chain_of l) = scan_appends l.
Proof.
  intros Hne Hid. split; [|split; [|split]].
  - destruct (chain_latest_is_Some l Hne) as [r Hr]. exists r. split; [done|].
    apply chain_latest_Some in Hr. apply select_latest_visible_Ok. split.
    + intros a b (x & -> & Hx)%list_elem_of_fmap (y & -> & Hy)%list_elem_of_fmap. auto.
    + by apply first_greatest_fmap.
  - intros v. rewrite chain_of_versions, elem_of_list_to_set, list_elem_of_fmap. naive_solver.
  - apply chain_of_receipt.
  - apply chain_of_append_count.
Qed.

(** ** Incremental validation *)

Lemma validate_incoming_Ok l r :
  l ≠ [] →
  (∀ a b, a ∈ l → b ∈ l → m_identity (r_message a) = m_identity (r_message b)) →
  validate_incoming (chain_of l) r = Ok tt ↔
  (∀ a, a ∈ l → m_identity (r_message a) = m_identity (r_message r)) ∧
  version_serial r ∉ version_serial <$> l.
Proof.
  intros Hne Hid. unfold validate_incoming. rewrite chain_of_entries, chain_of_versions.
  destruct l as [|x l]; [done|].
  assert ((∀ a, a ∈ x :: l → m_identity (r_message a) = m_identity (r_message r)) ↔
          m_identity (r_message x) = m_identity (r_message r)) as ->.
  { split; [intros H; apply H; left|]. intros Hx a Ha. rewrite <-Hx. apply Hid; [done|left]. }
  destruct (ensure_same_chain_cases (r_message x) (r_message r)) as [[-> ?]|(e & -> & ?)];
    cbn [rbind].
  - case_decide as Hin; rewrite elem_of_list_to_set in Hin; naive_solver.
  - naive_solver.
Qed.

(** A chain accepts an incoming record exactly when the extended list is a chain. *)
Lemma chain_records_snoc l r :
  chain_records l →
  validate_incoming (chain_of l) r = Ok tt ↔ chain_records (l ++ [r]).
Proof.
  intros (Hne & Hid & Hnd). rewrite validate_incoming_Ok by done.
  unfold chain_records. rewrite fmap_app. simpl. rewrite NoDup_app. split.
  - intros [Hr Hv]. split; [by destruct l|]. split.
    + intros a b [Ha| ->%list_elem_of_singleton]%elem_of_app
        [Hb| ->%list_elem_of_singleton]%elem_of_app; auto. symmetry; auto.
    + split; [done|]. split; [|apply NoDup_singleton].
      intros v Hv' ->%list_elem_of_singleton. done.
  - intros (_ & Hid' & _ & Hv & _). split.
    + intros a Ha. apply Hid'; apply elem_of_app; [by left|right; left].
    + intros Hin. by apply (Hv _ Hin), list_elem_of_singleton.
Qed.

Lemma validate_chain_loop_app first vs ds (l l' : list VersionedMessage) :
  validate_chain_loop first vs ds l = Ok tt →
  validate_chain_loop first vs ds (l ++ l') =
  validate_chain_loop first (list_to_set (m_version_serial <$> l) ∪ vs)
    (list_to_set (m_delivery_serial <$> l) ∪ ds) l'.
Proof.
  revert vs ds. induction l as [|m l IH]; intros vs ds; simpl.
  { intros _. by rewrite !(left_id_L ∅ (∪)). }
  destruct (ensure_same_chain first m); [simpl|done].
  case_decide; [done|]. case_decide; [done|]. intros Hl. rewrite IH by done.
  f_equal; set_solver.
Qed.

Lemma validate_incoming_chain l r :
  validate_version_chain (r_message <$> l) = Ok tt →
  delivery_serial r ∉ delivery_serial <$> l →
  validate_incoming (chain_of l) r = validate_version_chain (r_message <$> (l ++ [r])).
Proof.
  intros Hl Hds. unfold validate_incoming. rewrite chain_of_entries, chain_of_versions.
  destruct l as [|x l]; [done|]. rewrite fmap_app.
  change (validate_version_chain (r_message <$> x :: l)) with
    (validate_chain_loop (r_message x) {[version_serial x]} {[delivery_serial x]}
       (r_message <$> l)) in Hl.
  change (validate_version_chain ((r_message <$> x :: l) ++ (r_message <$> [r]))) with
    (validate_chain_loop (r_message x) {[version_serial x]} {[delivery_serial x]}
       ((r_message <$> l) ++ [r_message r])).
  rewrite validate_chain_loop_app by done. rewrite <-!list_fmap_compose. simpl.
  destruct (ensure_same_chain (r_message x) (r_message r)); simpl; [|done].
  change (m_version_serial (r_message r)) with (version_serial r).
  change (m_delivery_serial (r_message r)) with (delivery_serial r).
  change (m_version_serial ∘ r_message) with version_serial.
  change (m_delivery_serial ∘ r_message) with delivery_serial.
  rewrite (decide_False (P := delivery_serial r ∈ _)) by set_solver.
  repeat case_decide; set_solver.
Qed.

(** Checking only the identity of the first entry and the version index is enough.
    On a valid chain, and for an incoming record at a new delivery position, the
    incremental check returns the same result, error included, as the validation of
    the whole extended chain. *)
Theorem validate_incoming_full l r :
  validate_version_chain (r_message <$> l) = Ok tt →
  delivery_serial r ∉ delivery_serial <$> l →
  validate_incoming (chain_of l) r = validate_version_chain (r_message <$> (l ++ [r])).
Proof. apply validate_incoming_chain. Qed.

(** ** Well-formed chains *)

Lemma wf_chain_of l : chain_records l → wf_chain (chain_of l).
Proof. intros Hl. split; by rewrite chain_of_entries. Qed.

Lemma chain_records_singleton r : chain_records [r].
Proof.
  split; [done|]. split; [|apply NoDup_singleton].
  by intros a b ->%list_elem_of_singleton ->%list_elem_of_singleton.
Qed.

Lemma chain_records_filter l v :
  chain_records l → filter (λ r, version_serial r ≠ v) l ≠ [] →
  chain_records (filter (λ r, version_serial r ≠ v) l).
Proof.
  intros (_ & Hid & Hnd) Hne. split; [done|]. split.
  - intros a b [_ Ha]%list_elem_of_filter [_ Hb]%list_elem_of_filter. auto.
  - eapply sublist_NoDup; [exact Hnd|]. apply fmap_sublist, sublist_filter.
Qed.

(** Within a chain a record is determined by its version serial. *)
Lemma chain_records_version_inj l a b :
  chain_records l → a ∈ l → b ∈ l → version_serial a = version_serial b → a = b.
Proof.
  intros (_ & _ & Hnd) [i Hi]%list_elem_of_lookup_1 [j Hj]%list_elem_of_lookup_1 Heq.
  assert (i = j) as ->; [|congruence].
  eapply NoDup_lookup; [exact Hnd|..]; rewrite list_lookup_fmap.
  - by rewrite Hi.
  - rewrite Hj. simpl. by rewrite Heq.
Qed.

(** ** Concrete chains *)

Definition chain_record (m : VersionedMessage) : StoredVersionRecord := {|
  r_app_id := "app"; r_channel := "chat"; r_original_client_id := None;
  r_envelope := None; r_message := m;
|}.

(** The versions "v1" and "v2" of one message, stored out of order. *)
Definition chain_old : StoredVersionRecord := chain_record sample_message.
Definition chain_new : StoredVersionRecord := chain_record
  (new_create "msg-1" (sample_version "v2") 7 4 None None None).

Lemma chain_indexes_exact_witness :
  (∃ r, chain_latest (chain_of [chain_new; chain_old]) = Some r ∧
     select_latest_visible (r_message <$> [chain_new; chain_old]) = Ok (r_message r)) ∧
  vc_append_count (chain_of [chain_new; chain_old]) = 0%Z.
Proof.
  destruct (chain_indexes_exact [chain_new; chain_old]) as (Hl & _ & _ & Hc); [done| |].
  - by intros a b [->|[->|[]%elem_of_nil]%elem_of_cons]%elem_of_cons
      [->|[->|[]%elem_of_nil]%elem_of_cons]%elem_of_cons.
  - split; [exact Hl|exact Hc].
Defined.

Lemma validate_incoming_full_witness :
  validate_incoming (chain_of [chain_old]) chain_new = Ok tt ∧
  validate_incoming (chain_of [chain_old]) chain_new =
  validate_version_chain (r_message <$> [chain_old; chain_new]).
Proof.
  split; [vm_compute; reflexivity|].
  apply (validate_incoming_full [chain_old] chain_new); [vm_compute; reflexivity|].
  apply (bool_decide_unpack _). vm_compute. exact I.
Defined.
