(* ===== verification/VersionStoreInv.v ===== *)
(** * Invariant of the in-memory version store

    Well-formedness of a channel: every chain is consistent, the replay log and the
    chains hold the same records, the delivery counter is ahead of every record and the
    open-stream counter counts the chains with an open latest version.  Every operation
    preserves it. *)

From stdpp Require Import base gmap strings list sorting pretty.
From Stdlib Require Import ZArith Lia.
From S2P Require Import Prelude Errors Messages VersionedMessages VersionTypes VersionStore.
From S2P Require Import VersionChains.

Implicit Types (r : StoredVersionRecord) (c : VersionChain) (ch : MemoryVersionChannel)
  (s : MemoryVersionStore).

(** ** Counting open streams *)

Definition open_count (messages : gmap string VersionChain) : nat :=
  size (filter (λ kc : string * VersionChain, latest_is_open (Some kc.2) = true) messages).

Lemma open_count_delete messages k :
  Z.of_nat (open_count (delete k messages)) =
  (Z.of_nat (open_count messages) - usize_from (latest_is_open (messages !! k)))%Z.
Proof.
  unfold open_count. rewrite map_filter_delete.
  destruct (messages !! k) as [c|] eqn:Hk.
  - destruct (latest_is_open (Some c)) eqn:Hopen; simpl.
    + rewrite map_size_delete_Some.
      2: { exists c. by apply map_lookup_filter_Some. }
      assert (size (filter (λ kc : string * VersionChain, latest_is_open (Some kc.2) = true)
        messages) ≠ 0) as Hne; [|lia].
      eapply (map_size_ne_0_lookup_2 _ k). exists c. by apply map_lookup_filter_Some.
    + rewrite delete_id; [lia|]. apply map_lookup_filter_None. right.
      intros c' ?. simplify_eq/=. congruence.
  - rewrite delete_id; [simpl; lia|]. apply map_lookup_filter_None. by left.
Qed.

Lemma open_count_insert messages k c :
  Z.of_nat (open_count (<[k := c]> messages)) =
  (Z.of_nat (open_count messages) - usize_from (latest_is_open (messages !! k))
   + usize_from (latest_is_open (Some c)))%Z.
Proof.
  rewrite <-insert_delete_eq, <-open_count_delete.
  unfold open_count at 1. destruct (latest_is_open (Some c)) eqn:Hopen.
  - rewrite map_filter_insert_True by done. rewrite map_size_insert_None; [simpl; unfold open_count; lia|].
    apply map_lookup_filter_None. left. apply lookup_delete_eq.
  - rewrite map_filter_insert_False by (simpl; congruence).
    rewrite delete_delete_eq. simpl. unfold open_count. lia.
Qed.

Lemma u64_wrap_sub_add n a b :
  u64_wrap (u64_wrap (u64_wrap n - a) + b) = u64_wrap (n - a + b).
Proof. unfold u64_wrap. by rewrite Zplus_mod_idemp_l, Zplus_mod, Zminus_mod_idemp_l, <-Zplus_mod. Qed.

(** ** Well-formed channels *)

Record wf_channel (key : string) ch : Prop := {
  wf_chains serial c :
    vch_messages ch !! serial = Some c →
    wf_chain c ∧ ∀ r, r ∈ vc_entries c → message_serial r = serial;
  wf_replay ds r :
    vch_replay ch !! ds = Some r ↔
    delivery_serial r = ds ∧
    ∃ c, vch_messages ch !! message_serial r = Some c ∧ r ∈ vc_entries c;
  wf_created : dom (vch_created_at ch) = dom (vch_replay ch);
  wf_next_u64 : is_u64 (vch_next_delivery_serial ch);
  wf_position ds :
    is_Some (vch_replay ch !! ds) →
    is_u64 ds ∧ (u64_saturating_add ds 1 ≤ vch_next_delivery_serial ch)%Z;
  wf_open : vch_open_stream_count ch = u64_wrap (Z.of_nat (open_count (vch_messages ch)));
  wf_key ds r :
    vch_replay ch !! ds = Some r → channel_key (r_app_id r) (r_channel r) = key;
}.

Definition wf_store s : Prop := map_Forall wf_channel s.

Lemma wf_default_channel key fresh : wf_channel key (default_channel fresh).
Proof.
  split; simpl.
  - by intros serial c ?%lookup_empty_Some.
  - intros ds r. rewrite lookup_empty. split; [done|].
    by intros (_ & c & ?%lookup_empty_Some & _).
  - done.
  - u64_lia.
  - by intros ds [r ?%lookup_empty_Some].
  - done.
  - by intros ds r ?%lookup_empty_Some.
Qed.

Lemma wf_entry_or_default s key fresh :
  wf_store s → wf_channel key (entry_or_default fresh s key).
Proof.
  intros Hs. unfold entry_or_default. destruct (s !! key) as [ch|] eqn:Hk; simpl.
  - by apply Hs.
  - apply wf_default_channel.
Qed.

Lemma wf_insert s key ch : wf_store s → wf_channel key ch → wf_store (<[key := ch]> s).
Proof. intros ??. by apply map_Forall_insert_2. Qed.

Lemma wf_set_next key ch next :
  wf_channel key ch → is_u64 next → (vch_next_delivery_serial ch ≤ next)%Z →
  wf_channel key (set_next_delivery_serial ch next).
Proof.
  intros [] ??. split; simpl; try done. intros ds Hds.
  destruct (wf_position0 ds Hds). split; [done|lia].
Qed.

Section wf_facts.
Context {key : string} {ch : MemoryVersionChannel} (Hwf : wf_channel key ch).

Lemma wf_chain_records serial c :
  vch_messages ch !! serial = Some c → c = chain_of (vc_entries c) ∧ chain_records (vc_entries c).
Proof. intros Hc. by destruct (wf_chains _ _ Hwf _ _ Hc) as [[] _]. Qed.

Lemma wf_entry_replay serial c r :
  vch_messages ch !! serial = Some c → r ∈ vc_entries c →
  message_serial r = serial ∧ vch_replay ch !! delivery_serial r = Some r.
Proof.
  intros Hc Hr. destruct (wf_chains _ _ Hwf _ _ Hc) as [_ Hserial].
  split; [by apply Hserial|]. apply (wf_replay _ _ Hwf). split; [done|].
  exists c. by rewrite (Hserial r Hr).
Qed.

Lemma wf_latest serial c :
  vch_messages ch !! serial = Some c →
  ∃ r, chain_latest c = Some r ∧ r ∈ vc_entries c ∧
    ∀ r', r' ∈ vc_entries c → key_le (version_serial r') (version_serial r).
Proof.
  intros Hc. destruct (wf_chain_records _ _ Hc) as [Heq Hrec].
  destruct (chain_latest_is_Some (vc_entries c) (proj1 Hrec)) as [r Hr].
  exists r. rewrite Heq at 1. split; [done|]. apply chain_latest_Some in Hr.
  split; [by eapply first_greatest_elem|]. intros. by eapply first_greatest_le.
Qed.
End wf_facts.

(** ** Commits *)

Section commit.
Context (key : string) (ch : MemoryVersionChannel) (r : StoredVersionRecord) (now next : Z).
Let before := vch_messages ch !! message_serial r.
Let entries := vc_entries (default empty_chain before).

Hypothesis Hwf : wf_channel key ch.
Hypothesis Hfresh : vch_replay ch !! delivery_serial r = None.
Hypothesis Hds : is_u64 (delivery_serial r).
Hypothesis Hkey : channel_key (r_app_id r) (r_channel r) = key.
Hypothesis Hvalid : ∀ c, before = Some c → validate_incoming c r = Ok tt.
Hypothesis Hnext : is_u64 next.
Hypothesis Hnext_ge : (vch_next_delivery_serial ch ≤ next)%Z.
Hypothesis Hnext_r : (u64_saturating_add (delivery_serial r) 1 ≤ next)%Z.

Lemma commit_chain :
  chain_push (default empty_chain before) r = chain_of (entries ++ [r]) ∧
  chain_records (entries ++ [r]) ∧
  (∀ x, x ∈ entries → message_serial x = message_serial r).
Proof.
  unfold entries. rewrite chain_of_snoc. destruct before as [c|] eqn:Hb; simpl.
  - destruct (wf_chain_records Hwf _ _ Hb) as [Heq Hrec].
    rewrite <-Heq. split; [done|]. split.
    + apply chain_records_snoc; [done|]. rewrite <-Heq. by apply Hvalid.
    + intros x Hx. by destruct (wf_entry_replay Hwf _ _ _ Hb Hx).
  - split; [done|]. split; [apply chain_records_singleton|]. by intros x ?%elem_of_nil.
Qed.

Lemma wf_channel_commit : wf_channel key (channel_commit ch r now next).
Proof.
  destruct commit_chain as (Hpush & Hrec & Hser).
  assert (vch_messages (channel_commit ch r now next) =
    <[message_serial r := chain_of (entries ++ [r])]> (vch_messages ch)) as Hm.
  { unfold channel_commit. cbn. fold before. by rewrite Hpush. }
  split.
  - intros serial c. rewrite Hm. intros [[<- <-]|[Hne Hc]]%lookup_insert_Some; [|by apply (wf_chains _ _ Hwf)].
    split; [by apply wf_chain_of|]. rewrite chain_of_entries.
    intros x [Hx| ->%list_elem_of_singleton]%elem_of_app; auto.
  - intros ds x. rewrite Hm. cbn. rewrite lookup_insert_Some, (wf_replay _ _ Hwf).
    setoid_rewrite lookup_insert_Some. split.
    + intros [[<- <-]|(Hne & <- & c & Hc & Hx)].
      { split; [done|]. exists (chain_of (entries ++ [r])). split; [by left|]. rewrite chain_of_entries.
        apply elem_of_app. right. left. }
      split; [done|]. destruct (decide (message_serial r = message_serial x)) as [He|He].
      { exists (chain_of (entries ++ [r])). split; [by left|]. rewrite chain_of_entries. apply elem_of_app. left.
        unfold entries, before. by rewrite He, Hc. }
      exists c. by split; [right|].
    + intros (<- & c & [[He <-]|[He Hc]] & Hx); [|right]; [|split; [|by eauto]].
      * rewrite chain_of_entries in Hx.
        apply elem_of_app in Hx as [Hx| ->%list_elem_of_singleton]; [right|by left].
        unfold entries, before in Hx.
        destruct (vch_messages ch !! message_serial r) as [c|] eqn:Hc;
          [|by apply elem_of_nil in Hx].
        destruct (wf_entry_replay Hwf _ _ _ Hc Hx) as [_ Hrep].
        split; [congruence|]. split; [done|]. exists c. by rewrite <-He.
      * intros Heq. destruct (wf_entry_replay Hwf _ _ _ Hc Hx) as [_ Hrep]. congruence.
  - cbn. rewrite !dom_insert_L. by rewrite (wf_created _ _ Hwf).
  - done.
  - cbn. intros ds [x [[<- <-]|[Hne Hx]]%lookup_insert_Some]; [done|].
    destruct (wf_position _ _ Hwf ds) as [? ?]; [by exists x|]. split; [done|lia].
  - rewrite Hm, open_count_insert, <-u64_wrap_sub_add, <-(wf_open _ _ Hwf), <-Hpush. done.
  - cbn. intros ds x [[<- <-]|[Hne Hx]]%lookup_insert_Some; [done|by eapply wf_key].
Qed.
End commit.

(** The create commit is the commit of a record with a new message serial. *)
Lemma commit_create_apply_Ok key now ch record ch' out :
  wf_channel key ch →
  vch_messages ch !! message_serial record ≫= chain_latest = None →
  commit_create_apply now ch record = (ch', Ok out) →
  let r := with_delivery_position record (vch_stream_id ch) (vch_next_delivery_serial ch) in
  out = CreateApplied r (vch_stream_id ch) ∧
  vch_messages ch !! message_serial r = None ∧
  vch_replay ch !! delivery_serial r = None ∧
  ch' = channel_commit ch r now (u64_saturating_add (delivery_serial r) 1).
Proof.
  intros Hwf Hnone. set (r := with_delivery_position _ _ _). unfold commit_create_apply.
  fold r. destruct (validate_version_chain _); [|done].
  destruct (vch_replay ch !! vch_next_delivery_serial ch) as [x|] eqn:Hrep; [done|].
  intros [= <- <-]. split; [done|].
  assert (vch_messages ch !! message_serial r = None) as Hm.
  { change (message_serial r) with (message_serial record).
    destruct (vch_messages ch !! message_serial record) as [c|] eqn:Hc; [|done].
    destruct (wf_latest Hwf _ _ Hc) as (m & Hl & _). by simplify_eq/=. }
  split; [done|]. split; [done|]. unfold channel_commit. rewrite Hm. simpl.
  f_equal. rewrite Z.sub_0_r. rewrite (u64_wrap_id (vch_open_stream_count ch)); [done|].
  rewrite (wf_open _ _ Hwf). apply u64_wrap_range.
Qed.

Lemma wf_commit_create_apply key now ch record ch' out :
  wf_channel key ch →
  vch_messages ch !! message_serial record ≫= chain_latest = None →
  channel_key (r_app_id record) (r_channel record) = key →
  commit_create_apply now ch record = (ch', out) →
  wf_channel key ch'.
Proof.
  intros Hwf Hnone Hkey Hc. destruct out as [out|e].
  - apply commit_create_apply_Ok with (key := key) in Hc as (_ & Hm & Hrep & ->); [|done..].
    pose proof (wf_next_u64 _ _ Hwf).
    apply wf_channel_commit; try done; [by rewrite Hm|unfold delivery_serial; simpl; u64_lia..].
  - revert Hc. unfold commit_create_apply.
    destruct (validate_version_chain _); [|by intros [= <- _]].
    destruct (vch_replay ch !! _); [by intros [= <- _]|done].
Qed.

(** What [compare_and_apply] has checked when it commits. *)
Lemma compare_and_apply_decide_commit `{SonicRs} req ch chain current record :
  compare_and_apply_decide req ch chain = Ok (inr (current, record)) →
  lookup_receipt chain (vch_stream_id ch) (mreq_idempotency req) = None ∧
  chain_latest chain = Some current ∧
  precondition_matches (mreq_expected req) current = true ∧
  record_apply_mutation current req (vch_stream_id ch)
    (Z.max (vch_next_delivery_serial ch) (u64_saturating_add (delivery_serial current) 1))
    = Ok record ∧
  validate_incoming chain record = Ok tt ∧
  vch_replay ch !! delivery_serial record = None.
Proof.
  unfold compare_and_apply_decide.
  destruct (lookup_receipt _ _ _) as [[]|]; try done.
  destruct (chain_latest chain) as [cur|]; [|done]. simpl.
  destruct (mutation_refused req chain cur) eqn:Href; [done|].
  intros (rec & Hrec & (over & Hover & Hd)%rbind_Ok_inv)%rbind_Ok_inv.
  destruct over; [done|]. apply rbind_Ok_inv in Hd as ([] & Hvi & Hd).
  destruct (vch_replay ch !! _) eqn:Hrep; simplify_eq/=.
  repeat split; try done.
  - revert Href. unfold mutation_refused. by destruct (precondition_matches _ _).
  - apply record_apply_mutation_fields in Hrec as (_ & _ & _ & Hds & _). by rewrite Hds.
Qed.

(** On well-formed channels the commit of [compare_and_apply] is the generic one, at the
    channel's next delivery position. *)
Lemma apply_commit_eq `{SonicRs} key now req ch chain current record :
  wf_channel key ch →
  vch_messages ch !! mreq_message_serial req = Some chain →
  compare_and_apply_decide req ch chain = Ok (inr (current, record)) →
  delivery_serial record = vch_next_delivery_serial ch ∧
  message_serial record = mreq_message_serial req ∧
  (delivery_serial current < delivery_serial record)%Z ∧
  apply_commit now ch chain (mreq_message_serial req) current record =
  channel_commit ch record now (u64_saturating_add (delivery_serial record) 1).
Proof.
  intros Hwf Hc Hd. apply compare_and_apply_decide_commit in Hd
    as (_ & Hlat & _ & Hrec & Hvi & _).
  destruct (wf_latest Hwf _ _ Hc) as (m & Hm & Hin & Hmax). simplify_eq.
  destruct (wf_entry_replay Hwf _ _ _ Hc Hin) as [Hser Hrep].
  destruct (wf_position _ _ Hwf (delivery_serial current)) as [_ Hpos]; [by eexists|].
  apply record_apply_mutation_fields in Hrec as (Hs & _ & _ & Hds & Hlt & Hdlt).
  assert (message_serial record = mreq_message_serial req) as Hms by congruence.
  split; [lia|]. split; [done|]. split; [lia|].
  assert (latest_is_open (Some chain) = is_open_ai_stream current) as Ho.
  { unfold latest_is_open. simpl. by rewrite Hlat. }
  assert (latest_is_open (Some (chain_push chain record)) = is_open_ai_stream record) as Ho'.
  { unfold latest_is_open, chain_latest at 1. simpl.
    rewrite Hlat, (proj2 (key_ltb_spec _ _) Hlt). simpl.
    by rewrite lookup_app_r, Nat.sub_diag. }
  unfold apply_commit, channel_commit. rewrite Hms, Hc. cbv zeta.
  change (default empty_chain (Some chain)) with chain. by rewrite Ho, Ho'.
Qed.

(** ** Purging *)

Lemma chain_remove_eq c v :
  chain_remove c v = chain_of (filter (λ r, version_serial r ≠ v) (vc_entries c)).
Proof. done. Qed.

Section purge.
Context (key : string) (ch : MemoryVersionChannel) (r : StoredVersionRecord) (c : VersionChain).
Hypothesis Hwf : wf_channel key ch.
Hypothesis Hr : vch_replay ch !! delivery_serial r = Some r.
Hypothesis Hc : vch_messages ch !! message_serial r = Some c.
Hypothesis Hin : r ∈ vc_entries c.
Let rest := filter (λ x, version_serial x ≠ version_serial r) (vc_entries c).
Let messages' := match rest with
  | [] => delete (message_serial r) (vch_messages ch)
  | _ => <[message_serial r := chain_of rest]> (vch_messages ch)
  end.

(** Removing a version serial removes exactly the record at the purged position. *)
Lemma purge_rest x : x ∈ rest ↔ x ∈ vc_entries c ∧ delivery_serial x ≠ delivery_serial r.
Proof.
  destruct (wf_chain_records Hwf _ _ Hc) as [_ Hrec].
  unfold rest. rewrite list_elem_of_filter. split; intros [H1 H2]; split; try done.
  - intros Hd. apply H1. f_equal.
    destruct (wf_entry_replay Hwf _ _ _ Hc H2) as [_ Hx]. congruence.
  - intros Hv. apply H2. by rewrite (chain_records_version_inj _ _ _ Hrec H1 Hin Hv).
Qed.

Lemma purge_messages serial c' :
  messages' !! serial = Some c' ↔
  (serial = message_serial r ∧ rest ≠ [] ∧ c' = chain_of rest) ∨
  (serial ≠ message_serial r ∧ vch_messages ch !! serial = Some c').
Proof.
  unfold messages'. destruct rest as [|x rest'].
  - rewrite lookup_delete_Some. naive_solver.
  - rewrite lookup_insert_Some. naive_solver.
Qed.

Lemma purge_replay ds' x :
  delete (delivery_serial r) (vch_replay ch) !! ds' = Some x ↔
  delivery_serial x = ds' ∧ ∃ c', messages' !! message_serial x = Some c' ∧ x ∈ vc_entries c'.
Proof.
  setoid_rewrite purge_messages. rewrite lookup_delete_Some, (wf_replay _ _ Hwf). split.
  - intros (Hne & <- & c' & Hc' & Hx). split; [done|].
    destruct (decide (message_serial x = message_serial r)) as [He|He].
    + rewrite He, Hc in Hc'. injection Hc' as <-.
      assert (x ∈ rest) as Hx' by (by apply purge_rest).
      exists (chain_of rest). rewrite chain_of_entries. split; [|done]. left.
      repeat split; [done|]. intros Hnil. rewrite Hnil in Hx'. by apply elem_of_nil in Hx'.
    + exists c'. split; [by right|done].
  - intros (<- & c' & [(He & _ & ->)|[He Hc']] & Hx).
    + rewrite chain_of_entries in Hx. apply purge_rest in Hx as [Hx Hd].
      repeat split; [done|]. exists c. by rewrite He.
    + destruct (wf_entry_replay Hwf _ _ _ Hc' Hx) as [_ Hx'].
      split; [|by eauto]. intros Hd. rewrite <-Hd in Hx'. congruence.
Qed.

Lemma wf_purge_record : wf_channel key (purge_serial ch (delivery_serial r)).1.
Proof.
  unfold purge_serial. rewrite Hr, Hc. simpl. rewrite chain_remove_eq, chain_of_entries.
  fold rest. fold messages'. destruct (wf_chain_records Hwf _ _ Hc) as [_ Hrec].
  split; simpl.
  - intros serial c' [(-> & Hne & ->)|[Hne Hc']]%purge_messages;
      [|by apply (wf_chains _ _ Hwf)].
    split; [by apply wf_chain_of, chain_records_filter|]. rewrite chain_of_entries.
    intros x [Hx _]%purge_rest. by destruct (wf_entry_replay Hwf _ _ _ Hc Hx).
  - apply purge_replay.
  - by rewrite !dom_delete_L, (wf_created _ _ Hwf).
  - apply Hwf.
  - intros ds' Hds. apply (wf_position _ _ Hwf). rewrite lookup_delete_is_Some in Hds.
    by destruct Hds.
  - rewrite (wf_open _ _ Hwf), u64_wrap_sub_add. f_equal. unfold messages'.
    destruct rest; [rewrite open_count_delete|rewrite open_count_insert]; rewrite Hc; simpl; lia.
  - intros ds' x [_ Hx]%lookup_delete_Some. by eapply wf_key.
Qed.
End purge.

Lemma wf_purge_serial key ch ds :
  wf_channel key ch → wf_channel key (purge_serial ch ds).1.
Proof.
  intros Hwf. destruct (vch_replay ch !! ds) as [r|] eqn:Hr.
  - destruct (proj1 (wf_replay _ _ Hwf _ _) Hr) as (<- & c & Hc & Hin).
    by eapply wf_purge_record.
  - unfold purge_serial. rewrite Hr. destruct Hwf. split; simpl; auto.
    rewrite dom_delete_L, wf_created0. apply not_elem_of_dom in Hr. set_solver.
Qed.

Lemma wf_purge_serials key ch to_remove :
  wf_channel key ch → wf_channel key (purge_serials ch to_remove).1.
Proof.
  revert ch. induction to_remove as [|ds rest IH]; intros ch Hwf; simpl; [done|].
  apply (wf_purge_serial key ch ds) in Hwf.
  destruct (purge_serial ch ds) as [ch1 n1]. apply IH in Hwf. simpl in Hwf.
  by destruct (purge_serials ch1 rest).
Qed.

Lemma wf_purge_channels before_ms batch deleted more chs s :
  wf_store s → Forall (λ kc, wf_channel kc.1 kc.2) chs →
  wf_store (purge_channels before_ms batch deleted more chs s).1.
Proof.
  intros Hs Hchs. revert deleted more s Hs.
  induction Hchs as [|[key ch] chs Hch _ IH]; intros deleted more s Hs; simpl; [done|].
  destruct (_ =? 0)%Z; [done|]. destruct (scan_expired _ _ _ _) as [to_remove more'].
  apply (wf_purge_serials _ _ to_remove) in Hch. simpl in Hch.
  destruct (purge_serials ch to_remove) as [ch' n]. by apply IH, wf_insert.
Qed.
