(* ===== verification/VersionStoreSteps.v ===== *)
(** * Runs of the in-memory version store

    The store as a transition system: one transition per operation, run in the order in
    which the write lock is granted.  The invariant holds in every reachable state;
    between purges chains only grow and delivery positions only advance. *)

From stdpp Require Import base gmap strings list sorting pretty.
From Stdlib Require Import ZArith Lia.
From S2P Require Import Prelude Errors Messages VersionedMessages VersionTypes VersionStore.
From S2P Require Import VersionChains VersionStoreInv.

(** The writing operations with the environment values they read. *)
Inductive StoreOp : Type :=
| OpEnsure (fresh app_id channel : string)
| OpReserve (fresh app_id channel : string)
| OpReserveBlock (fresh app_id channel : string) (block_size : Z)
| OpAppend (fresh : string) (now : Z) (record : StoredVersionRecord)
| OpCreate (fresh : string) (now : Z) (req : VersionCreateRequest)
| OpMutate (now : Z) (req : VersionMutationRequest)
| OpPurge (before_ms batch_size : Z).

(** The [u64] arguments are in range. *)
Definition op_typed (op : StoreOp) : Prop :=
  match op with
  | OpReserveBlock _ _ _ block_size => is_u64 block_size
  | OpAppend _ _ record => is_u64 (delivery_serial record)
  | OpPurge _ batch_size => is_u64 batch_size
  | _ => True
  end.

Definition is_purge (op : StoreOp) : bool :=
  match op with
  | OpPurge _ _ => true
  | _ => false
  end.

(** How one write changes the state of its channel. *)
Inductive channel_evolves (key : string) (ch : MemoryVersionChannel)
    : MemoryVersionChannel → Prop :=
| evolve_same : channel_evolves key ch ch
| evolve_next next :
    is_u64 next → (vch_next_delivery_serial ch ≤ next)%Z →
    channel_evolves key ch (set_next_delivery_serial ch next)
| evolve_commit r now next :
    vch_replay ch !! delivery_serial r = None →
    is_u64 (delivery_serial r) →
    channel_key (r_app_id r) (r_channel r) = key →
    (∀ c, vch_messages ch !! message_serial r = Some c → validate_incoming c r = Ok tt) →
    is_u64 next →
    (vch_next_delivery_serial ch ≤ next)%Z →
    (u64_saturating_add (delivery_serial r) 1 ≤ next)%Z →
    channel_evolves key ch (channel_commit ch r now next).

Lemma wf_evolves key ch ch' : wf_channel key ch → channel_evolves key ch ch' → wf_channel key ch'.
Proof. intros Hwf []; [done|by apply wf_set_next|by apply wf_channel_commit]. Qed.

Lemma next_evolves key ch ch' :
  channel_evolves key ch ch' →
  (vch_next_delivery_serial ch ≤ vch_next_delivery_serial ch')%Z.
Proof. intros []; simpl; lia. Qed.

(** Chains grow at the end; the stream id is stable. *)
Definition channel_extends (ch ch' : MemoryVersionChannel) : Prop :=
  vch_stream_id ch' = vch_stream_id ch ∧
  (vch_next_delivery_serial ch ≤ vch_next_delivery_serial ch')%Z ∧
  ∀ serial c, vch_messages ch !! serial = Some c →
    ∃ l, vch_messages ch' !! serial = Some (chain_of (vc_entries c ++ l)).

Lemma evolves_extends key ch ch' :
  wf_channel key ch → channel_evolves key ch ch' → channel_extends ch ch'.
Proof.
  intros Hwf Hev.
  assert (∀ serial c, vch_messages ch !! serial = Some c → c = chain_of (vc_entries c ++ [])) as Hc.
  { intros serial c Hc. rewrite app_nil_r. by apply (wf_chain_records Hwf) in Hc as [? _]. }
  split; [by destruct Hev|]. split; [by eapply next_evolves|].
  intros serial c Hs. destruct Hev as [|next|r now next]; simpl.
  - exists []. by rewrite <-(Hc _ _ Hs).
  - exists []. by rewrite <-(Hc _ _ Hs).
  - rewrite lookup_insert. case_decide as He; [subst|exists []; by rewrite <-(Hc _ _ Hs)].
    exists [r]. rewrite Hs. simpl. rewrite chain_of_snoc. do 2 f_equal.
    apply Hc in Hs. by rewrite app_nil_r in Hs.
Qed.

Definition store_extends (s s' : MemoryVersionStore) : Prop :=
  ∀ key ch, s !! key = Some ch → ∃ ch', s' !! key = Some ch' ∧ channel_extends ch ch'.

Lemma channel_extends_refl key ch : wf_channel key ch → channel_extends ch ch.
Proof. intros Hwf. eapply evolves_extends; [done|constructor]. Qed.

#[export] Instance channel_extends_trans : Transitive channel_extends.
Proof.
  intros a b c (Hi1 & Hn1 & Hc1) (Hi2 & Hn2 & Hc2). split; [congruence|]. split; [lia|].
  intros serial x Hx. destruct (Hc1 _ _ Hx) as [l1 H1]. destruct (Hc2 _ _ H1) as [l2 H2].
  exists (l1 ++ l2). by rewrite app_assoc, <-(chain_of_entries (vc_entries x ++ l1)).
Qed.

Lemma store_extends_refl s : wf_store s → store_extends s s.
Proof. intros Hs key ch Hk. exists ch. split; [done|]. by eapply channel_extends_refl, Hs. Qed.

#[export] Instance store_extends_trans : Transitive store_extends.
Proof.
  intros s1 s2 s3 H12 H23 key ch Hk. destruct (H12 _ _ Hk) as (ch2 & Hk2 & He2).
  destruct (H23 _ _ Hk2) as (ch3 & Hk3 & He3). exists ch3. split; [done|]. by trans ch2.
Qed.

Section runs.
Context `{SonicRs}.

Definition exec_op (op : StoreOp) (s : MemoryVersionStore) : MemoryVersionStore :=
  match op with
  | OpEnsure fresh app_id channel => (ensure_stream_id fresh app_id channel s).1
  | OpReserve fresh app_id channel => (reserve_delivery_position fresh app_id channel s).1
  | OpReserveBlock fresh app_id channel n =>
      (reserve_delivery_positions fresh app_id channel n s).1
  | OpAppend fresh now record => (append_version fresh now record s).1
  | OpCreate fresh now req => (commit_create fresh now req s).1
  | OpMutate now req => (compare_and_apply now req s).1
  | OpPurge before_ms batch_size => (purge_before before_ms batch_size s).1
  end.

Definition run_ops (ops : list StoreOp) (s : MemoryVersionStore) : MemoryVersionStore :=
  foldl (λ s op, exec_op op s) s ops.

(** The effect of a write that is not a purge: one channel evolves. *)
Definition evolves_store (s s' : MemoryVersionStore) : Prop :=
  s' = s ∨
  ∃ key fresh ch', channel_evolves key (entry_or_default fresh s key) ch' ∧
    s' = <[key := ch']> s.

Lemma append_version_evolves fresh now record s :
  wf_store s → is_u64 (delivery_serial record) →
  evolves_store s (append_version fresh now record s).1.
Proof.
  intros Hs Hds. right. unfold append_version.
  set (key := channel_key _ _). set (ch := entry_or_default fresh s key).
  exists key, fresh. destruct (append_version_checks ch record) as [[]|e] eqn:Hck; simpl.
  2: { exists ch. split; [constructor|done]. }
  eexists. split; [|done]. unfold append_version_checks in Hck.
  destruct (vch_replay ch !! delivery_serial record) eqn:Hrep; [done|].
  pose proof (wf_next_u64 _ _ (wf_entry_or_default s key fresh Hs)).
  apply evolve_commit; auto; fold ch in H0 |- *; [|u64_lia..].
  intros c Hc. by rewrite Hc in Hck.
Qed.

Lemma commit_create_evolves fresh now req s :
  wf_store s → evolves_store s (commit_create fresh now req s).1.
Proof.
  intros Hs. right. unfold commit_create. set (record := creq_record req).
  set (key := channel_key _ _). set (ch := entry_or_default fresh s key).
  pose proof (wf_entry_or_default s key fresh Hs) as Hwf. fold ch in Hwf.
  exists key, fresh. destruct (commit_create_checks ch req) as [[refused|]|e] eqn:Hck;
    [by exists ch; split; [constructor|]| |by exists ch; split; [constructor|]].
  destruct (commit_create_apply now ch record) as [ch' out] eqn:Happ. simpl.
  exists ch'. split; [|done]. destruct out as [out|e].
  - apply commit_create_apply_Ok with (key := key) in Happ as (_ & Hm & Hrep & ->); [|done|].
    2: { revert Hck. unfold commit_create_checks. fold record. by destruct (_ ≫= _). }
    pose proof (wf_next_u64 _ _ Hwf). apply evolve_commit; try done; [by rewrite Hm|..];
      unfold delivery_serial; simpl; u64_lia.
  - revert Happ. unfold commit_create_apply.
    destruct (validate_version_chain _); [|intros [= <- _]; constructor].
    destruct (vch_replay ch !! _); [intros [= <- _]; constructor|done].
Qed.

Lemma compare_and_apply_evolves now req s :
  wf_store s → evolves_store s (compare_and_apply now req s).1.
Proof.
  intros Hs. unfold compare_and_apply. set (key := channel_key _ _).
  destruct (s !! key) as [ch|] eqn:Hk; [|by left].
  destruct (vch_messages ch !! mreq_message_serial req) as [chain|] eqn:Hc; [|by left].
  destruct (compare_and_apply_decide req ch chain) as [[out|[cur rec]]|e] eqn:Hd; try by left.
  right. exists key, "". eexists. split; [|done].
  assert (entry_or_default "" s key = ch) as -> by (unfold entry_or_default; by rewrite Hk).
  pose proof (Hs _ _ Hk) as Hwf. simpl in Hwf.
  destruct (apply_commit_eq key now req ch chain cur rec Hwf Hc Hd) as (Hds & Hms & _ & ->).
  apply compare_and_apply_decide_commit in Hd as (_ & _ & _ & Hrec & Hvi & Hrep).
  apply record_apply_mutation_Ok_inv in Hrec as (_ & Ha & Hch & _).
  pose proof (wf_next_u64 _ _ Hwf).
  apply evolve_commit; [done|by rewrite Hds|by rewrite Ha, Hch| |u64_lia..].
  intros c. rewrite Hms, Hc. by intros [= <-].
Qed.

Lemma exec_op_evolves op s :
  wf_store s → op_typed op → is_purge op = false → evolves_store s (exec_op op s).
Proof.
  intros Hs Hop Hp. destruct op as [f a c|f a c|f a c n|f now r|f now req|now req|b n]; try done.
  - right. exists (channel_key a c), f. eexists. split; [constructor|done].
  - right. exists (channel_key a c), f. eexists. split; [|done].
    pose proof (wf_next_u64 _ _ (wf_entry_or_default s (channel_key a c) f Hs)).
    apply evolve_next; u64_lia.
  - unfold exec_op, reserve_delivery_positions. destruct (block_validate n); [|by left].
    right. exists (channel_key a c), f. eexists. split; [|done].
    pose proof (wf_next_u64 _ _ (wf_entry_or_default s (channel_key a c) f Hs)).
    simpl in Hop. apply evolve_next; u64_lia.
  - by apply append_version_evolves.
  - by apply commit_create_evolves.
  - by apply compare_and_apply_evolves.
Qed.

Lemma wf_exec_op op s : wf_store s → op_typed op → wf_store (exec_op op s).
Proof.
  intros Hs Hop. destruct (is_purge op) eqn:Hp.
  - destruct op as [| | | | | |before_ms batch]; try done. simpl. unfold purge_before.
    destruct (_ =? 0)%Z; [done|].
    pose proof (wf_purge_channels before_ms batch 0 false (btree_list s) s Hs) as Hwf.
    destruct (purge_channels _ _ _ _ _ _) as [s' out]. apply Hwf.
    apply Forall_forall. intros [k ch] Hin. apply elem_of_btree_list in Hin. by apply Hs.
  - destruct (exec_op_evolves op s Hs Hop Hp) as [->|(key & f & ch' & Hev & ->)]; [done|].
    apply wf_insert; [done|]. eapply wf_evolves; [by apply wf_entry_or_default|done].
Qed.

Lemma wf_run_ops ops s : wf_store s → Forall op_typed ops → wf_store (run_ops ops s).
Proof.
  intros Hs Hops. revert s Hs. induction Hops; intros s Hs; simpl; [done|].
  by apply IHHops, wf_exec_op.
Qed.

Lemma exec_op_extends op s :
  wf_store s → op_typed op → is_purge op = false → store_extends s (exec_op op s).
Proof.
  intros Hs Hop Hp.
  destruct (exec_op_evolves op s Hs Hop Hp) as [->|(key & f & ch' & Hev & ->)];
    [by apply store_extends_refl|].
  intros k ch Hk. destruct (decide (key = k)) as [<-|He].
  - exists ch'. rewrite lookup_insert_eq. split; [done|]. unfold entry_or_default in Hev. rewrite Hk in Hev.
    by eapply evolves_extends; [apply Hs|].
  - exists ch. rewrite lookup_insert_ne by done. split; [done|].
    by eapply channel_extends_refl, Hs.
Qed.

Lemma run_ops_extends ops s :
  wf_store s → Forall op_typed ops → Forall (λ op, is_purge op = false) ops →
  store_extends s (run_ops ops s).
Proof.
  intros Hs Hops. revert s Hs. induction Hops as [|op ops Hop Hops IH]; intros s Hs Hp; simpl.
  - by apply store_extends_refl.
  - apply Forall_cons in Hp as [Hp1 Hp2]. trans (exec_op op s).
    + by apply exec_op_extends.
    + apply IH; [by apply wf_exec_op|done].
Qed.
End runs.

(** ** Concrete operations *)

(** A JSON library for concrete runs, in which no payload needs serialisation. *)
Definition sample_sonic : SonicRs := {|
  sonic_to_vec := λ _, Ok [];
  sonic_to_value := λ _, Ok JNull;
|}.

Definition sample_record : StoredVersionRecord := {|
  r_app_id := "app"; r_channel := "chat"; r_original_client_id := None;
  r_envelope := None; r_message := sample_message;
|}.

Definition sample_create : StoreOp :=
  OpCreate "stream-1" 1000 {|
    creq_record := sample_record;
    creq_limits := {| clim_max_accumulated_message_bytes := Some 100%Z;
                      clim_max_open_streaming_messages_per_channel := Some 5%Z |} |}.

Definition sample_mutation (serial text : string)
    (idempotency : option PublishIdempotencyMetadata) : VersionMutationRequest := {|
  mreq_app_id := "app"; mreq_channel := "chat"; mreq_message_serial := "msg-1";
  mreq_expected := {| pre_version_serial := "v1"; pre_delivery_serial := 1 |};
  mreq_version := sample_version serial;
  mreq_mutation := MutationAppend (sample_fragment text);
  mreq_idempotency := idempotency;
  mreq_limits := {| lim_max_accumulated_message_bytes := Some 100%Z;
                    lim_max_appends_per_message := Some 3%Z;
                    lim_max_open_streaming_messages_per_channel := None;
                    lim_reject_append_after_terminal := true |};
|}.

Definition sample_operation : PublishIdempotencyMetadata := {|
  cache_key := "op-1"; payload_fingerprint := "fp-1";
|}.

(** An append with an operation identity, and another one derived from the same version. *)
Definition sample_request := sample_mutation "v2" "lo" (Some sample_operation).
Definition sample_conflicting := sample_mutation "v3" "p" None.

(** The store after the create, and after the append. *)
Definition sample_created : MemoryVersionStore := run_ops (H := sample_sonic) [sample_create] ∅.
Definition sample_store : MemoryVersionStore :=
  run_ops (H := sample_sonic) [sample_create; OpMutate 2000 sample_request] ∅.

Lemma wf_sample_created : wf_store sample_created.
Proof. apply wf_run_ops; [apply map_Forall_empty|by repeat constructor]. Qed.

Lemma wf_sample_store : wf_store sample_store.
Proof. apply wf_run_ops; [apply map_Forall_empty|by repeat constructor]. Qed.
