(* ===== verification/VersionPurge.v ===== *)
(** * Retention of the in-memory version store

    [purge_before]: what one batch removes, what it reports, and that repeated batches
    remove every expired prefix. *)

From Stdlib Require Import ZArith Lia.
From stdpp Require Import base gmap strings numbers list sorting pretty.
From S2P Require Import Prelude Errors Messages VersionedMessages VersionTypes VersionStore.
From S2P Require Import VersionChains VersionStoreInv VersionStoreSteps.

Implicit Types (s : MemoryVersionStore) (ch : MemoryVersionChannel).

(** Number of records in the replay logs of the store. *)
Definition total_records s : nat := sum_list ((λ kc, size (vch_replay kc.2)) <$> map_to_list s).

Lemma total_records_insert s key ch ch' :
  s !! key = Some ch →
  total_records (<[key := ch']> s) + size (vch_replay ch) =
  total_records s + size (vch_replay ch').
Proof.
  intros Hk. unfold total_records.
  assert (∀ l l' : list (string * MemoryVersionChannel), l ≡ₚ l' →
    sum_list ((λ kc, size (vch_replay kc.2)) <$> l) =
    sum_list ((λ kc, size (vch_replay kc.2)) <$> l')) as Hp.
  { intros l l' Hl. induction Hl; csimpl; lia. }
  rewrite <-insert_delete_eq.
  rewrite (Hp _ _ (map_to_list_insert _ key ch' (lookup_delete_eq s key))).
  rewrite <-(Hp _ _ (map_to_list_delete s key ch Hk)). csimpl. lia.
Qed.

(** ** One channel *)

Lemma scan_expired_spec before_ms remaining taken created l more :
  (taken ≤ remaining)%Z →
  scan_expired before_ms remaining taken created = (l, more) →
  ∃ pre post, created = pre ++ post ∧ l = pre.*1 ∧
    Forall (λ x, (x.2 < before_ms)%Z) pre ∧
    (taken + Z.of_nat (length l) ≤ remaining)%Z ∧
    if more then (taken + Z.of_nat (length l) = remaining)%Z ∧
      ∃ ds t rest, post = (ds, t) :: rest ∧ (t < before_ms)%Z
    else match post with (_, t) :: _ => (before_ms ≤ t)%Z | [] => True end.
Proof.
  revert taken l more. induction created as [|[ds t] created IH]; intros taken l more Ht; simpl.
  { intros [= <- <-]. exists [], []. repeat split; [constructor|simpl; lia]. }
  destruct (t >=? before_ms)%Z eqn:Hexp.
  { intros [= <- <-]. exists [], ((ds, t) :: created). repeat split; [constructor|simpl; lia|lia]. }
  destruct (taken >=? remaining)%Z eqn:Htk.
  { intros [= <- <-]. exists [], ((ds, t) :: created).
    split_and!; [done|done|constructor|simpl; lia..|]. eexists _, _, _. split; [done|lia]. }
  destruct (scan_expired _ _ (taken + 1) created) as [l' more'] eqn:Hscan.
  intros [= <- <-]. destruct (IH (taken + 1)%Z l' more') as (pre & post & -> & -> & Hpre & Hle & Hm);
    [lia|done|]. exists ((ds, t) :: pre), post. simpl. repeat split.
  - constructor; [simpl; lia|done].
  - lia.
  - destruct more'; [|done]. destruct Hm. split; [lia|done].
Qed.

Lemma purge_serial_frame ch ds :
  vch_stream_id (purge_serial ch ds).1 = vch_stream_id ch ∧
  vch_next_delivery_serial (purge_serial ch ds).1 = vch_next_delivery_serial ch ∧
  vch_replay (purge_serial ch ds).1 = delete ds (vch_replay ch) ∧
  vch_created_at (purge_serial ch ds).1 = delete ds (vch_created_at ch) ∧
  (purge_serial ch ds).2 = usize_from (bool_decide (is_Some (vch_replay ch !! ds))).
Proof.
  unfold purge_serial. destruct (vch_replay ch !! ds) as [r|] eqn:Hr; simpl.
  - by destruct (vch_messages ch !! message_serial r).
  - by rewrite delete_id.
Qed.

Lemma purge_serials_spec ch l ch' n :
  NoDup l → (∀ ds, ds ∈ l → is_Some (vch_replay ch !! ds)) →
  purge_serials ch l = (ch', n) →
  vch_stream_id ch' = vch_stream_id ch ∧
  vch_next_delivery_serial ch' = vch_next_delivery_serial ch ∧
  n = Z.of_nat (length l) ∧ size (vch_replay ch') + length l = size (vch_replay ch) ∧
  (∀ ds, vch_replay ch' !! ds = if decide (ds ∈ l) then None else vch_replay ch !! ds) ∧
  (∀ ds, vch_created_at ch' !! ds = if decide (ds ∈ l) then None else vch_created_at ch !! ds).
Proof.
  intros Hnd. revert ch ch' n. induction Hnd as [|ds l Hnot Hnd IH]; intros ch ch' n Hl; simpl.
  { intros [= <- <-]. repeat split; [lia|..]; intros ds; by rewrite decide_False by apply not_elem_of_nil. }
  destruct (purge_serial_frame ch ds) as (Hsid & Hnx & Hrep & Hcr & Hn).
  destruct (purge_serial ch ds) as [ch1 n1]. simpl in *.
  destruct (purge_serials ch1 l) as [ch2 n2] eqn:Hp. intros [= <- <-].
  assert (is_Some (vch_replay ch !! ds)) as Hds by (apply Hl; left).
  apply IH in Hp as (? & ? & -> & Hsz & Hr2 & Hc2).
  2: { intros ds' Hds'. rewrite Hrep, lookup_delete_is_Some. split; [by intros ->|].
       apply Hl. by right. }
  rewrite bool_decide_true in Hn by done. rewrite Hrep, map_size_delete_Some in Hsz by done.
  assert (size (vch_replay ch) ≠ 0).
  { destruct Hds as [r Hr]. by eapply map_size_ne_0_lookup_2. }
  repeat split; try congruence; [simpl in *; lia|lia|..]; intros k; rewrite ?Hr2, ?Hc2, ?Hrep, ?Hcr;
    rewrite lookup_delete; repeat case_decide; set_solver.
Qed.

Lemma purge_created_list ch ch' pre post :
  btree_list (vch_created_at ch) = pre ++ post →
  (∀ ds, vch_created_at ch' !! ds =
     if decide (ds ∈ pre.*1) then None else vch_created_at ch !! ds) →
  btree_list (vch_created_at ch') = post.
Proof.
  intros Hl Hc. pose proof (btree_list_sorted (vch_created_at ch)) as Hs.
  rewrite Hl, fmap_app in Hs. apply btree_list_unique; [by eapply StronglySorted_app_1_r|].
  intros k t. rewrite Hc. case_decide as Hk.
  - split; [|done]. intros Hin. exfalso.
    apply (key_lt_irrefl k). eapply StronglySorted_app_1_elem_of; [exact Hs|done|].
    by apply (list_elem_of_fmap_2 fst) in Hin.
  - rewrite <-elem_of_btree_list, Hl, elem_of_app. split; [by right|].
    intros [Hin|]; [|done]. by apply (list_elem_of_fmap_2 fst) in Hin.
Qed.

(** The batch of one channel. *)
Lemma purge_channel_spec key ch before_ms remaining l more ch' n :
  wf_channel key ch → (0 ≤ remaining)%Z →
  scan_expired before_ms remaining 0 (btree_list (vch_created_at ch)) = (l, more) →
  purge_serials ch l = (ch', n) →
  vch_stream_id ch' = vch_stream_id ch ∧
  vch_next_delivery_serial ch' = vch_next_delivery_serial ch ∧
  (0 ≤ n ≤ remaining)%Z ∧ (more = true → n = remaining) ∧
  (Z.of_nat (size (vch_replay ch')) + n = Z.of_nat (size (vch_replay ch)))%Z ∧
  (∀ ds r, vch_replay ch !! ds = Some r → vch_replay ch' !! ds = Some r ∨
     vch_replay ch' !! ds = None ∧ ∃ t, vch_created_at ch !! ds = Some t ∧ (t < before_ms)%Z) ∧
  (∀ ds r, vch_replay ch' !! ds = Some r → vch_replay ch !! ds = Some r) ∧
  first_is_expired before_ms ch' = more.
Proof.
  intros Hwf Hrem Hscan Hpurge.
  apply scan_expired_spec in Hscan as (pre & post & Hl & -> & Hpre & Hle & Hm); [|lia].
  pose proof (btree_list_NoDup_fst (vch_created_at ch)) as Hnd.
  rewrite Hl, fmap_app in Hnd. apply NoDup_app in Hnd as (Hnd & _ & _).
  assert (∀ ds, ds ∈ pre.*1 → ∃ t, vch_created_at ch !! ds = Some t ∧ (t < before_ms)%Z) as Hin.
  { intros ds ([k t] & -> & Hkt)%list_elem_of_fmap. exists t. rewrite Forall_forall in Hpre.
    split; [|by apply (Hpre _ Hkt)]. apply elem_of_btree_list. rewrite Hl. apply elem_of_app. by left. }
  apply purge_serials_spec in Hpurge as (? & ? & -> & Hsz & Hr & Hc); [|done|].
  2: { intros ds (t & Ht & _)%Hin. apply elem_of_dom. rewrite <-(wf_created _ _ Hwf).
       apply elem_of_dom. eauto. }
  split_and!; try done; try lia.
  - intros ->. destruct Hm. lia.
  - intros ds r Hds. rewrite Hr. case_decide; [right|by left]. auto.
  - intros ds r. rewrite Hr. by case_decide.
  - unfold first_is_expired. rewrite (purge_created_list ch ch' pre post) by done.
    destruct more; [destruct Hm as (_ & ds & t & rest & -> & ?); lia|].
    destruct post as [|[? t] ?]; [done|]. lia.
Qed.

(** ** The whole store *)

(** A purge keeps the stream and its position and removes only expired records. *)
Definition purged (before_ms : Z) (ch ch' : MemoryVersionChannel) : Prop :=
  vch_stream_id ch' = vch_stream_id ch ∧
  vch_next_delivery_serial ch' = vch_next_delivery_serial ch ∧
  (∀ ds r, vch_replay ch !! ds = Some r → vch_replay ch' !! ds = Some r ∨
     vch_replay ch' !! ds = None ∧ ∃ t, vch_created_at ch !! ds = Some t ∧ (t < before_ms)%Z) ∧
  (∀ ds r, vch_replay ch' !! ds = Some r → vch_replay ch !! ds = Some r).

#[export] Instance purged_refl before_ms : Reflexive (purged before_ms).
Proof. intros ch. split_and!; auto. Qed.

Lemma purge_channels_spec before_ms batch deleted more chs s s' n more' :
  NoDup chs.*1 →
  (∀ k ch, (k, ch) ∈ chs → s !! k = Some ch ∧ wf_channel k ch) →
  (0 ≤ deleted ≤ batch)%Z →
  purge_channels before_ms batch deleted more chs s = (s', (n, more')) →
  (deleted ≤ n ≤ batch)%Z ∧
  (Z.of_nat (total_records s') + n = Z.of_nat (total_records s) + deleted)%Z ∧
  (∀ k, k ∉ chs.*1 → s' !! k = s !! k) ∧
  (∀ k ch, (k, ch) ∈ chs → ∃ ch', s' !! k = Some ch' ∧ purged before_ms ch ch' ∧
     (more' = false → first_is_expired before_ms ch' = false)) ∧
  (more' = true → more = true ∨ n = batch) ∧ (more = true → more' = true).
Proof.
  revert deleted more s. induction chs as [|[key ch] chs IH]; intros deleted more s Hnd Hin Hdel; simpl.
  { intros [= <- <- <-]. split_and!; auto with lia. by intros k ch ?%elem_of_nil. }
  apply NoDup_cons in Hnd as [Hkey Hnd].
  destruct (Hin key ch (list_elem_of_here _ _)) as [Hk Hwf].
  destruct (u64_saturating_sub batch deleted =? 0)%Z eqn:Hrem.
  { intros [= <- <- <-]. split_and!; try done; try u64_lia.
    intros k c Hc. exists c. destruct (Hin k c Hc). split_and!; by auto. }
  destruct (scan_expired _ _ _ _) as [l more1] eqn:Hscan.
  destruct (purge_serials ch l) as [ch1 n1] eqn:Hpurge. intros Hrun.
  destruct (purge_channel_spec key ch before_ms (u64_saturating_sub batch deleted)
    l more1 ch1 n1 Hwf ltac:(u64_lia) Hscan Hpurge)
    as (Hsid & Hnx & Hn1 & Hmore1 & Hsz & Hkeep & Hsub & Hexp).
  apply IH in Hrun as (Hn & Htot & Hout & Hchs & Hm1 & Hm2); [|done| |u64_lia].
  2: { intros k c Hc. rewrite lookup_insert_ne; [by apply Hin; right|].
       intros <-. apply (list_elem_of_fmap_2 fst) in Hc. by apply Hkey. }
  pose proof (total_records_insert s key ch ch1 Hk) as Hins.
  split_and!; [lia|lia|lia|..].
  - intros k [Hne Hk']%not_elem_of_cons. rewrite Hout by done. by rewrite lookup_insert_ne.
  - intros k c [[= -> ->]|Hc]%elem_of_cons; [|by apply Hchs].
    exists ch1. rewrite Hout by done. rewrite lookup_insert_eq. split_and!; [done|by split_and!|].
    intros ->. destruct (first_is_expired before_ms ch1); [|done].
    rewrite orb_true_r in Hm2. by rewrite Hm2.
  - intros Hm'. destruct (Hm1 Hm') as [Hor|]; [|by right].
    destruct more; [by left|]. right. simpl in Hor.
    rewrite Hexp in Hor. destruct more1; [|done].
    specialize (Hmore1 eq_refl). u64_lia.
  - intros ->. apply Hm2. done.
Qed.

Lemma purge_before_spec before_ms batch s s' n more :
  wf_store s → (0 < batch)%Z → purge_before before_ms batch s = (s', Ok (n, more)) →
  (0 ≤ n ≤ batch)%Z ∧
  (Z.of_nat (total_records s') + n = Z.of_nat (total_records s))%Z ∧
  (∀ k ch, s !! k = Some ch → ∃ ch', s' !! k = Some ch' ∧ purged before_ms ch ch' ∧
     (more = false → first_is_expired before_ms ch' = false)) ∧
  (∀ k, s !! k = None → s' !! k = None) ∧ (more = true → n = batch).
Proof.
  intros Hs Hb. unfold purge_before. destruct (batch =? 0)%Z eqn:Hb0; [lia|].
  destruct (purge_channels _ _ _ _ _ _) as [s'' [n' more']] eqn:Hp. intros [= <- <- <-].
  apply purge_channels_spec in Hp as (Hn & Htot & Hout & Hchs & Hm & _);
    [|apply btree_list_NoDup_fst| |lia].
  2: { intros k ch Hin%elem_of_btree_list. split; [done|]. by apply Hs. }
  split_and!; [lia|lia|lia|..].
  - intros k ch Hk. apply Hchs. by apply elem_of_btree_list.
  - intros k Hk. rewrite Hout; [done|]. intros ([k' ch] & -> & Hin)%list_elem_of_fmap.
    apply elem_of_btree_list in Hin. simpl in Hk. congruence.
  - intros Hmt. by destruct (Hm Hmt).
Qed.

(** C27: one purge batch.  At most [batch_size] records go, the returned number is exactly
    the number of records that left the store, every removed record was committed before
    [before_ms], positions and stream ids survive; "no more" means that no channel starts
    with an expired record, and "more" is only reported by a full batch (so repeated
    purging terminates). *)
Theorem purge_before_correct before_ms batch s s' n more :
  wf_store s → (0 < batch)%Z → purge_before before_ms batch s = (s', Ok (n, more)) →
  (0 ≤ n ≤ batch)%Z ∧
  (Z.of_nat (total_records s') + n = Z.of_nat (total_records s))%Z ∧
  dom s' = dom s ∧
  (∀ k ch ch', s !! k = Some ch → s' !! k = Some ch' →
     purged before_ms ch ch' ∧
     (more = false → ∀ ds t, head (btree_list (vch_created_at ch')) = Some (ds, t) →
        (before_ms ≤ t)%Z)) ∧
  (more = true → n = batch).
Proof.
  intros Hs Hb Hp.
  destruct (purge_before_spec before_ms batch s s' n more Hs Hb Hp) as (Hn & Htot & Hk & Hout & Hm).
  split_and!; try done; try lia.
  - apply set_eq. intros k. rewrite !elem_of_dom. split.
    + intros [ch Hch]. destruct (s !! k) eqn:Hsk; [by eexists|]. rewrite Hout in Hch; done.
    + intros [ch Hch]. destruct (Hk _ _ Hch) as (ch' & -> & _). by eexists.
  - intros k ch ch' Hch Hch'. destruct (Hk _ _ Hch) as (ch1 & Hch1 & Hpu & Hexp).
    simplify_eq. split; [done|]. intros Hmore ds t Hd. specialize (Hexp Hmore).
    unfold first_is_expired in Hexp. destruct (btree_list _) as [|[??] ?]; simplify_eq/=. lia.
Qed.

Lemma purge_before_correct_witness :
  (purge_before 1500 10 sample_store).2 = Ok (1%Z, false) ∧
  (Z.of_nat (total_records (purge_before 1500 10 sample_store).1) + 1 =
   Z.of_nat (total_records sample_store))%Z.
Proof.
  assert ((purge_before 1500 10 sample_store).2 = Ok (1%Z, false)) as Hout
    by (vm_compute; reflexivity).
  split; [exact Hout|].
  destruct (purge_before_correct 1500 10 sample_store (purge_before 1500 10 sample_store).1 1 false
    wf_sample_store) as (_ & Htot & _); [lia| |exact Htot].
  rewrite <-Hout. apply surjective_pairing.
Defined.
