(* ===== verification/VersionStoreThms.v ===== *)
(** * Guarantees of the in-memory version store

    What callers of [MemoryVersionStore] rely on: compare-and-apply never loses an
    update, a retried operation returns its first receipt, delivery positions are never
    issued twice, and reads return exactly what the committed records determine. *)

From Stdlib Require Import ZArith Lia.
From stdpp Require Import base gmap strings list sorting pretty.
From S2P Require Import Prelude Errors Messages VersionedMessages VersionTypes VersionStore.
From S2P Require Import VersionChains VersionStoreInv VersionStoreSteps VersionPurge.

Implicit Types (s : MemoryVersionStore) (ch : MemoryVersionChannel).

(** ** Applied writes *)

Section applied.
Context `{SonicRs}.

Lemma commit_create_checks_not_applied ch req r sid :
  commit_create_checks ch req ≠ Ok (Some (CreateApplied r sid)).
Proof.
  unfold commit_create_checks. destruct (_ ≫= _); [done|].
  destruct (bytes_exceed _ _) as [[]|]; simpl; try done.
  by destruct (if is_open_ai_stream _ then _ else _).
Qed.

Lemma commit_create_Applied fresh now req s r sid :
  wf_store s → (commit_create fresh now req s).2 = Ok (CreateApplied r sid) →
  let record := creq_record req in
  let key := channel_key (r_app_id record) (r_channel record) in
  let ch := entry_or_default fresh s key in
  r = with_delivery_position record (vch_stream_id ch) (vch_next_delivery_serial ch) ∧
  sid = vch_stream_id ch ∧
  vch_messages ch !! message_serial r = None ∧ vch_replay ch !! delivery_serial r = None ∧
  (commit_create fresh now req s).1 =
    <[key := channel_commit ch r now (u64_saturating_add (delivery_serial r) 1)]> s.
Proof.
  intros Hs. unfold commit_create. set (record := creq_record req). set (key := channel_key _ _).
  set (ch := entry_or_default fresh s key). cbv zeta.
  pose proof (wf_entry_or_default s key fresh Hs) as Hwf. fold ch in Hwf.
  destruct (commit_create_checks ch req) as [[out|]|e] eqn:Hck; simpl; [| |done].
  { intros [= ->]. by apply commit_create_checks_not_applied in Hck. }
  destruct (commit_create_apply now ch record) as [ch' [out|e]] eqn:Happ; simpl; [|done].
  apply commit_create_apply_Ok with (key := key) in Happ as (-> & Hm & Hrep & ->); [|done|].
  { by intros [= <- <-]. }
  revert Hck. unfold commit_create_checks. fold record. by destruct (_ ≫= _).
Qed.

Lemma compare_and_apply_decide_not_applied req ch chain r sid :
  compare_and_apply_decide req ch chain ≠ Ok (inl (MutationApplied r sid)).
Proof.
  unfold compare_and_apply_decide.
  destruct (lookup_receipt _ _ _) as [[out|]|] eqn:Hl; simpl; [|done|].
  { intros [= ->]. revert Hl. unfold lookup_receipt.
    destruct (mreq_idempotency req) as [i|]; [simpl|done].
    destruct (vc_operations chain !! cache_key i) as [j|]; [simpl|done].
    destruct (vc_entries chain !! j) as [x|]; [simpl|done].
    destruct (record_idempotency x); [|done]. by case_decide. }
  destruct (chain_latest chain) as [cur|]; [simpl|done].
  destruct (mutation_refused req chain cur) as [out|] eqn:Hr.
  { intros [= ->]. revert Hr. unfold mutation_refused. destruct (negb _); [done|].
    destruct (is_append _); [|done]. destruct (_ && _); [done|]. by destruct (reaches _ _). }
  destruct (record_apply_mutation _ _ _ _) as [x|]; [simpl|done].
  destruct (mutation_over_limits _ _ _ _) as [[]|]; simpl; try done.
  destruct (validate_incoming _ _); [simpl|done]. by destruct (vch_replay ch !! _).
Qed.

Lemma compare_and_apply_Applied now req s r sid :
  wf_store s → (compare_and_apply now req s).2 = Ok (MutationApplied r sid) →
  let key := channel_key (mreq_app_id req) (mreq_channel req) in
  ∃ ch chain current,
    s !! key = Some ch ∧ vch_messages ch !! mreq_message_serial req = Some chain ∧
    compare_and_apply_decide req ch chain = Ok (inr (current, r)) ∧
    sid = vch_stream_id ch ∧
    (compare_and_apply now req s).1 =
      <[key := channel_commit ch r now (u64_saturating_add (delivery_serial r) 1)]> s.
Proof.
  intros Hs. unfold compare_and_apply. set (key := channel_key _ _). cbv zeta.
  destruct (s !! key) as [ch|] eqn:Hk; [|done].
  destruct (vch_messages ch !! mreq_message_serial req) as [chain|] eqn:Hc; [|done].
  destruct (compare_and_apply_decide req ch chain) as [[out|[cur rec]]|e] eqn:Hd; simpl; [| |done].
  { intros [= ->]. by apply compare_and_apply_decide_not_applied in Hd. }
  intros [= <- <-]. pose proof (Hs _ _ Hk) as Hwf. simpl in Hwf.
  destruct (apply_commit_eq key now req ch chain cur rec Hwf Hc Hd) as (_ & _ & _ & ->).
  by exists ch, chain, cur.
Qed.
End applied.

(** ** Delivery positions *)

Definition next_serial s (key : string) : Z :=
  match s !! key with
  | Some ch => vch_next_delivery_serial ch
  | None => 1%Z
  end.

Section positions.
Context `{SonicRs}.

(** The positions an operation hands out: its channel, the first one and how many. *)
Definition issued (op : StoreOp) s : option (string * (Z * Z)) :=
  match op with
  | OpReserve fresh app_id channel =>
      match (reserve_delivery_position fresh app_id channel s).2 with
      | Ok res => Some (channel_key app_id channel, (res_delivery_serial res, 1%Z))
      | Err _ => None
      end
  | OpReserveBlock fresh app_id channel n =>
      match (reserve_delivery_positions fresh app_id channel n s).2 with
      | Ok block => Some (channel_key app_id channel,
                          (blk_start_delivery_serial block, blk_len block))
      | Err _ => None
      end
  | OpCreate fresh now req =>
      match (commit_create fresh now req s).2 with
      | Ok (CreateApplied r _) => Some (channel_key (r_app_id r) (r_channel r),
                                        (delivery_serial r, 1%Z))
      | _ => None
      end
  | OpMutate now req =>
      match (compare_and_apply now req s).2 with
      | Ok (MutationApplied r _) => Some (channel_key (r_app_id r) (r_channel r),
                                          (delivery_serial r, 1%Z))
      | _ => None
      end
  | _ => None
  end.

(** The positions issued on one channel along a run, in order. *)
Fixpoint issued_on (key : string) (ops : list StoreOp) s : list (Z * Z) :=
  match ops with
  | [] => []
  | op :: ops =>
      match issued op s with
      | Some (key', range) =>
          if decide (key' = key) then range :: issued_on key ops (exec_op op s)
          else issued_on key ops (exec_op op s)
      | None => issued_on key ops (exec_op op s)
      end
  end.

Lemma next_serial_entry s key fresh :
  vch_next_delivery_serial (entry_or_default fresh s key) = next_serial s key.
Proof. unfold entry_or_default, next_serial. by destruct (s !! key). Qed.

Lemma next_serial_insert s key ch : next_serial (<[key := ch]> s) key = vch_next_delivery_serial ch.
Proof. unfold next_serial. by rewrite lookup_insert_eq. Qed.

Lemma next_serial_insert_ne s key k ch :
  key ≠ k → next_serial (<[key := ch]> s) k = next_serial s k.
Proof. intros ?. unfold next_serial. by rewrite lookup_insert_ne. Qed.

(** Issued positions start at the channel's counter, which moves past them. *)
Lemma issued_exec op s key start n :
  wf_store s → op_typed op → issued op s = Some (key, (start, n)) →
  start = next_serial s key ∧ (0 < n)%Z ∧
  next_serial (exec_op op s) key = u64_saturating_add start n.
Proof.
  intros Hs Hop Hi. destruct op as [f a c|f a c|f a c m|f now r|f now req|now req|b m];
    simplify_eq/=; try done.
  - rewrite next_serial_insert. simpl. by rewrite next_serial_entry.
  - revert Hi. unfold reserve_delivery_positions, block_validate.
    destruct (m =? 0)%Z eqn:Hm; simpl; [done|]. intros [= <- <- <-].
    rewrite next_serial_insert. simpl. rewrite next_serial_entry.
    repeat split. u64_lia.
  - destruct (commit_create f now req s).2 as [[r sid| |]|] eqn:Hc; simplify_eq/=.
    apply commit_create_Applied in Hc as (-> & _ & _ & _ & ->); [|done].
    simpl. rewrite next_serial_insert. simpl. split; [apply next_serial_entry|done].
  - destruct (compare_and_apply now req s).2 as [[r sid| | |]|] eqn:Hc; simplify_eq/=.
    apply compare_and_apply_Applied in Hc as (ch & chain & cur & Hk & Hch & Hd & _ & ->); [|done].
    destruct (apply_commit_eq _ now req ch chain cur r (Hs _ _ Hk) Hch Hd) as (Hds & _).
    apply compare_and_apply_decide_commit in Hd as (_ & _ & _ & Hrec & _).
    apply record_apply_mutation_Ok_inv in Hrec as (_ & -> & -> & _).
    rewrite next_serial_insert. simpl. split; [|done]. unfold next_serial. by rewrite Hk.
Qed.

Lemma purge_next s before_ms batch key :
  wf_store s → is_u64 batch → next_serial (purge_before before_ms batch s).1 key = next_serial s key.
Proof.
  intros Hs Hb. destruct (purge_before before_ms batch s) as [s' [[n more]|e]] eqn:Hp; simpl.
  - destruct (decide (batch = 0%Z)) as [->|Hne]; [by injection Hp as <-|].
    apply purge_before_spec in Hp as (_ & _ & Hk & Hout & _); [|done|u64_lia].
    unfold next_serial. destruct (s !! key) as [ch|] eqn:Hch; [|by rewrite Hout].
    by destruct (Hk _ _ Hch) as (ch' & -> & (_ & -> & _) & _).
  - revert Hp. unfold purge_before. destruct (_ =? 0)%Z; [done|].
    by destruct (purge_channels _ _ _ _ _ _) as [? [??]].
Qed.

Lemma next_serial_mono op s key :
  wf_store s → op_typed op → (next_serial s key ≤ next_serial (exec_op op s) key)%Z.
Proof.
  intros Hs Hop. destruct (is_purge op) eqn:Hp.
  - destruct op as [| | | | | |before_ms batch]; try done. simpl in *. by rewrite purge_next.
  - destruct (exec_op_evolves op s Hs Hop Hp) as [->|(k & f & ch' & Hev & ->)]; [done|].
    destruct (decide (k = key)) as [->|?]; [|by rewrite next_serial_insert_ne].
    rewrite next_serial_insert, <-(next_serial_entry s key f). by eapply next_evolves.
Qed.

Lemma next_serial_run ops s key :
  wf_store s → Forall op_typed ops → (next_serial s key ≤ next_serial (run_ops ops s) key)%Z.
Proof.
  intros Hs Hops. revert s Hs. induction Hops as [|op ops Hop Hops IH]; intros s Hs; simpl; [done|].
  etrans; [by apply (next_serial_mono op)|]. by apply IH, wf_exec_op.
Qed.

Lemma issued_on_sorted key ops s :
  wf_store s → Forall op_typed ops → (next_serial (run_ops ops s) key < u64_max)%Z →
  StronglySorted (λ a b, (a.1 + a.2 ≤ b.1)%Z) (issued_on key ops s) ∧
  Forall (λ a, (next_serial s key ≤ a.1 ∧ a.1 + a.2 ≤ next_serial (run_ops ops s) key)%Z)
    (issued_on key ops s).
Proof.
  intros Hs Hops. revert s Hs.
  induction Hops as [|op ops Hop Hops IH]; intros s Hs Hmax; [by split; constructor|].
  change (run_ops (op :: ops) s) with (run_ops ops (exec_op op s)) in *. cbn [issued_on].
  pose proof (next_serial_mono op s key Hs Hop) as Hmono.
  pose proof (wf_exec_op op s Hs Hop) as Hs'.
  pose proof (next_serial_run ops (exec_op op s) key Hs' Hops) as Hrun.
  destruct (IH (exec_op op s) Hs' Hmax) as [Hsort Hall].
  assert (Forall (λ a, (next_serial s key ≤ a.1 ∧
    a.1 + a.2 ≤ next_serial (run_ops ops (exec_op op s)) key)%Z)
    (issued_on key ops (exec_op op s))) as Hall'.
  { eapply Forall_impl; [exact Hall|]. intros a [??]. simpl in *. lia. }
  destruct (issued op s) as [[k [start n]]|] eqn:Hi; [|done].
  case_decide; [subst k|done].
  destruct (issued_exec op s key start n Hs Hop Hi) as (-> & Hn & Hnext).
  assert (u64_saturating_add (next_serial s key) n < u64_max)%Z as Hmax' by lia.
  assert (next_serial s key + n ≤ next_serial (exec_op op s) key)%Z as Hle.
  { apply saturating_add_lt in Hmax'; lia. }
  split; constructor; auto.
  - eapply Forall_impl; [exact Hall|]. intros a [Ha _]. cbn [fst snd]. lia.
  - cbn [fst snd]. split; [done|]. lia.
Qed.

(** C10: delivery positions are unique.  Along any run of operations from the empty store
    (purges included), the ranges of positions handed out on a channel by reservations,
    block reservations, creates and mutations are disjoint and increasing, as long as
    the counter has not reached the end of [u64]. *)
Theorem delivery_positions_unique key ops :
  Forall op_typed ops → (next_serial (run_ops ops ∅) key < u64_max)%Z →
  StronglySorted (λ a b, (a.1 + a.2 ≤ b.1)%Z) (issued_on key ops ∅).
Proof. intros Hops Hmax. apply issued_on_sorted; [apply map_Forall_empty|done..]. Qed.

(** C9: the invariant of the store.  In every state reachable by any sequence of
    operations, each channel's chains are consistent (indexes equal to a scan, one
    identity, distinct version serials), the replay log holds exactly the records of
    the chains, creation times cover exactly the log, the next position is past every
    stored one, and the open-stream counter is the number of chains whose latest
    version is open. *)
Theorem reachable_wf ops : Forall op_typed ops → wf_store (run_ops ops ∅).
Proof. intros Hops. apply wf_run_ops; [apply map_Forall_empty|done]. Qed.
End positions.

(** ** Compare-and-apply *)

Section cas.
Context `{SonicRs}.

(** Two requests about the same message. *)
Definition same_target (req req' : VersionMutationRequest) : Prop :=
  mreq_app_id req' = mreq_app_id req ∧ mreq_channel req' = mreq_channel req ∧
  mreq_message_serial req' = mreq_message_serial req.

(** After a committed mutation and any further writes, the chain of the message still
    starts with the entries it had at the commit, followed by the new record. *)
Lemma applied_chain_later now req s r sid ops req' :
  wf_store s → (compare_and_apply now req s).2 = Ok (MutationApplied r sid) →
  Forall op_typed ops → Forall (λ op, is_purge op = false) ops → same_target req req' →
  let s' := run_ops ops (compare_and_apply now req s).1 in
  ∃ ch chain current ch' l,
    vch_messages ch !! mreq_message_serial req = Some chain ∧
    chain = chain_of (vc_entries chain) ∧
    compare_and_apply_decide req ch chain = Ok (inr (current, r)) ∧ sid = vch_stream_id ch ∧
    key_lt (version_serial current) (version_serial r) ∧
    s' !! channel_key (mreq_app_id req') (mreq_channel req') = Some ch' ∧
    vch_stream_id ch' = sid ∧
    vch_messages ch' !! mreq_message_serial req' =
      Some (chain_of ((vc_entries chain ++ [r]) ++ l)).
Proof.
  intros Hs Hap Hops Hnp (Happ & Hchn & Hser) s'.
  pose proof (wf_exec_op (OpMutate now req) s Hs I) as Hs1. simpl in Hs1.
  pose proof (run_ops_extends ops _ Hs1 Hops Hnp) as Hext. fold s' in Hext.
  apply compare_and_apply_Applied in Hap as (ch & chain & cur & Hk & Hc & Hd & Hsid & Hst); [|done].
  pose proof (Hs _ _ Hk) as Hwf. simpl in Hwf.
  destruct (wf_chain_records Hwf _ _ Hc) as [Heq _].
  destruct (apply_commit_eq _ now req ch chain cur r Hwf Hc Hd) as (_ & Hms & _ & _).
  destruct (compare_and_apply_decide_commit _ _ _ _ _ Hd) as (_ & _ & _ & Hrec & _).
  apply record_apply_mutation_fields in Hrec as (_ & _ & _ & _ & Hlt & _).
  rewrite Hst in Hext. edestruct Hext as (ch' & Hk' & Hsid' & _ & Hch'); [apply lookup_insert_eq|].
  destruct (Hch' (mreq_message_serial req) (chain_push chain r)) as [l Hl].
  { simpl. by rewrite Hms, lookup_insert_eq, Hc. }
  exists ch, chain, cur, ch', l. rewrite Happ, Hchn, Hser. split_and!; try done.
  simpl in Hsid'. congruence.
Qed.

(** C3: compare-and-apply loses no update.  Once a mutation derived from a version has
    been committed, and whatever other writes follow (purges excepted), a second
    mutation of that message derived from the same version changes nothing: without a
    stored receipt it is a conflict that returns a current version at least as new as
    the committed one. *)
Theorem cas_no_lost_update now now' req req' s r sid ops :
  wf_store s → (compare_and_apply now req s).2 = Ok (MutationApplied r sid) →
  Forall op_typed ops → Forall (λ op, is_purge op = false) ops →
  same_target req req' → mreq_expected req' = mreq_expected req →
  let s' := run_ops ops (compare_and_apply now req s).1 in
  (compare_and_apply now' req' s').1 = s' ∧
  (mreq_idempotency req' = None →
   ∃ cur, (compare_and_apply now' req' s').2 = Ok (MutationConflict (Some cur)) ∧
     key_le (version_serial r) (version_serial cur)).
Proof.
  intros Hs Hap Hops Hnp Htgt Hexp s'.
  destruct (applied_chain_later now req s r sid ops req' Hs Hap Hops Hnp Htgt)
    as (ch & chain & cur & ch' & l & _ & _ & Hd & _ & Hlt & Hk' & _ & Hc'). fold s' in Hk'.
  apply compare_and_apply_decide_commit in Hd as (_ & _ & Hpre & _).
  set (entries := (vc_entries chain ++ [r]) ++ l) in *.
  assert (r ∈ entries) as Hr.
  { unfold entries. rewrite !elem_of_app. left. right. left. }
  destruct (chain_latest_is_Some entries) as [m Hm].
  { intros Hnil. rewrite Hnil in Hr. by apply elem_of_nil in Hr. }
  pose proof (first_greatest_le _ _ _ _ (proj2 (chain_latest_Some _ _) Hm) Hr) as Hle.
  assert (precondition_matches (mreq_expected req') m = false) as Hno.
  { rewrite Hexp. unfold precondition_matches in *. apply andb_prop in Hpre as [Hv _].
    apply bool_decide_eq_true in Hv. rewrite Hv. rewrite bool_decide_false; [done|].
    intros Heq. rewrite Heq in Hlt. by apply Hlt. }
  unfold compare_and_apply. rewrite Hk', Hc'. unfold compare_and_apply_decide. rewrite Hm.
  assert (mutation_refused req' (chain_of entries) m = Some (MutationConflict (Some m))) as Href.
  { unfold mutation_refused. by rewrite Hno. }
  destruct (lookup_receipt _ _ _) as [[out|e]|] eqn:Hl; simpl; rewrite ?Href; split; try done.
  - intros Hi. by rewrite Hi in Hl.
  - intros Hi. by rewrite Hi in Hl.
  - intros _. by exists m.
Qed.

(** C5: retries are idempotent.  After a mutation with an operation identity has been
    committed, and whatever writes follow (purges excepted), repeating the operation
    (even with another precondition, version or payload argument) changes nothing and returns the
    record of the first commit; the same operation key with another payload
    fingerprint is refused as an idempotency conflict. *)
Theorem mutation_retry_idempotent now now' req req' s r sid ops op op' :
  wf_store s → (compare_and_apply now req s).2 = Ok (MutationApplied r sid) →
  Forall op_typed ops → Forall (λ op, is_purge op = false) ops →
  same_target req req' →
  mreq_idempotency req = Some op → mreq_idempotency req' = Some op' →
  cache_key op' = cache_key op →
  let s' := run_ops ops (compare_and_apply now req s).1 in
  compare_and_apply now' req' s' =
  (s', if decide (payload_fingerprint op ≠ payload_fingerprint op')
       then Err IdempotencyConflict else Ok (MutationDuplicate r sid)).
Proof.
  intros Hs Hap Hops Hnp Htgt Hi Hi' Hkey s'.
  destruct (applied_chain_later now req s r sid ops req' Hs Hap Hops Hnp Htgt)
    as (ch & chain & cur & ch' & l & Hc & Heq & Hd & Hsid & _ & Hk' & Hsid' & Hc').
  fold s' in Hk'. apply compare_and_apply_decide_commit in Hd as (Hrcp & _ & _ & Hrec & _).
  apply record_apply_mutation_Ok_inv in Hrec as (_ & _ & _ & _ & _ & _ & Hid).
  rewrite Hi in Hid.
  assert (scan_receipt (cache_key op') ((vc_entries chain ++ [r]) ++ l) = Some r) as Hscan.
  { apply scan_receipt_app. rewrite Hkey.
    assert (scan_receipt (cache_key op) (vc_entries chain) = None) as Hnone.
    { unfold lookup_receipt in Hrcp. rewrite Hi, Heq in Hrcp.
      cbn [mbind option_bind] in Hrcp. rewrite chain_of_receipt in Hrcp.
      by destruct (scan_receipt _ _). }
    apply scan_receipt_snoc; [done|]. unfold has_key. by rewrite Hid. }
  unfold compare_and_apply. rewrite Hk', Hc'. unfold compare_and_apply_decide, lookup_receipt.
  rewrite Hi'. cbn [mbind option_bind]. rewrite chain_of_receipt, Hscan. cbn. rewrite Hid, Hsid'.
  by case_decide.
Qed.
End cas.

(** ** Concrete instances *)

Lemma delivery_positions_unique_witness :
  issued_on (H := sample_sonic) (channel_key "app" "chat")
    [sample_create; OpReserve "" "app" "chat"; OpReserveBlock "" "app" "chat" 5;
     OpReserve "" "app" "chat"] ∅ = [(1, 1); (2, 1); (3, 5); (8, 1)]%Z ∧
  StronglySorted (λ a b, (a.1 + a.2 ≤ b.1)%Z)
    (issued_on (H := sample_sonic) (channel_key "app" "chat")
       [sample_create; OpReserve "" "app" "chat"; OpReserveBlock "" "app" "chat" 5;
        OpReserve "" "app" "chat"] ∅).
Proof.
  split; [vm_compute; reflexivity|].
  apply (delivery_positions_unique (H := sample_sonic)); [|vm_compute; reflexivity].
  repeat constructor; vm_compute; congruence.
Defined.

Lemma reachable_wf_witness :
  wf_store (run_ops (H := sample_sonic) [sample_create; OpMutate 2000 sample_request;
                                         OpPurge 1500 10] ∅).
Proof. apply (reachable_wf (H := sample_sonic)). repeat constructor; vm_compute; congruence. Defined.

(** The first mutation of the sample message. *)
Definition sample_first := compare_and_apply (H := sample_sonic) 2000 sample_request sample_created.

Definition applied_record (out : result Error VersionMutationResult) : StoredVersionRecord :=
  match out with
  | Ok (MutationApplied r _) => r
  | _ => sample_record
  end.

Lemma cas_no_lost_update_witness :
  sample_first.2 = Ok (MutationApplied (applied_record sample_first.2) "stream-1") ∧
  ∃ cur, (compare_and_apply (H := sample_sonic) 3000 sample_conflicting
            (run_ops (H := sample_sonic) [OpReserve "" "app" "chat"] sample_first.1)).2 =
    Ok (MutationConflict (Some cur)) ∧
    key_le (version_serial (applied_record sample_first.2)) (version_serial cur).
Proof.
  assert (sample_first.2 = Ok (MutationApplied (applied_record sample_first.2) "stream-1")) as Hfst
    by (vm_compute; reflexivity).
  split; [exact Hfst|].
  destruct (cas_no_lost_update (H := sample_sonic) 2000 3000 sample_request sample_conflicting
    sample_created (applied_record sample_first.2) "stream-1" [OpReserve "" "app" "chat"]
    wf_sample_created Hfst) as [_ Hconf];
    [by repeat constructor|by repeat constructor|by repeat split|reflexivity|].
  exact (Hconf eq_refl).
Defined.

Lemma mutation_retry_idempotent_witness :
  sample_first.2 = Ok (MutationApplied (applied_record sample_first.2) "stream-1") ∧
  compare_and_apply (H := sample_sonic) 3000 sample_request
    (run_ops (H := sample_sonic) [OpReserve "" "app" "chat"] sample_first.1) =
  (run_ops (H := sample_sonic) [OpReserve "" "app" "chat"] sample_first.1,
   Ok (MutationDuplicate (applied_record sample_first.2) "stream-1")).
Proof.
  assert (sample_first.2 = Ok (MutationApplied (applied_record sample_first.2) "stream-1")) as Hfst
    by (vm_compute; reflexivity).
  split; [exact Hfst|].
  pose proof (mutation_retry_idempotent (H := sample_sonic) 2000 3000 sample_request sample_request
    sample_created (applied_record sample_first.2) "stream-1" [OpReserve "" "app" "chat"]
    sample_operation sample_operation wf_sample_created Hfst) as Hretry.
  rewrite decide_False in Hretry by (intros Hne; exact (Hne eq_refl)).
  apply Hretry; [by repeat constructor|by repeat constructor|by repeat split|reflexivity..].
Defined.
