(* ===== verification/VersionReads.v ===== *)
(** * Reads of the in-memory version store

    Version history pages, replay, batch reads and the history-ordered listing, against
    the records that are stored. *)

From Stdlib Require Import ZArith Lia.
From stdpp Require Import base gmap strings list sorting pretty.
From S2P Require Import Prelude Errors Messages VersionedMessages VersionTypes VersionStore.
From S2P Require Import VersionChains VersionStoreInv VersionStoreSteps.

Implicit Types (s : MemoryVersionStore) (ch : MemoryVersionChannel) (r : StoredVersionRecord).

(** ** Version history pages *)

(** The order of a direction. *)
Definition dir_lt (dir : VersionStoreDirection) (a b : StoredVersionRecord) : Prop :=
  match dir with
  | VersionsOldestFirst => key_lt (version_serial a) (version_serial b)
  | VersionsNewestFirst => key_lt (version_serial b) (version_serial a)
  end.

Lemma dir_lt_asym dir a b : dir_lt dir a b → ¬ dir_lt dir b a.
Proof. destruct dir; apply key_lt_asym. Qed.

Lemma chain_in_order_perm dir l : chain_in_order dir l ≡ₚ l.
Proof. destruct dir; simpl; [rewrite reverse_Permutation|]; apply stable_sort_perm. Qed.

Lemma chain_in_order_sorted dir l :
  NoDup (version_serial <$> l) → StronglySorted (dir_lt dir) (chain_in_order dir l).
Proof.
  intros Hnd.
  assert (StronglySorted (dir_lt VersionsOldestFirst) (stable_sort version_serial_le l)) as Hs.
  { rewrite <-(stable_sort_perm version_serial_le l) in Hnd.
    assert (StronglySorted version_serial_le (stable_sort version_serial_le l)) as Hs.
    { apply stable_sort_sorted.
      - intros x y z ??. unfold version_serial_le in *. by etrans.
      - intros x y. apply (total key_le). }
    revert Hnd. induction Hs as [|x xs Hxs IH Hx]; intros Hnd; [constructor|].
    apply NoDup_cons in Hnd as [Hnot Hnd]. constructor; [by apply IH|].
    rewrite Forall_forall in Hx. apply Forall_forall. intros y Hy.
    apply key_le_neq_lt; [by apply Hx|]. intros Heq. apply Hnot, list_elem_of_fmap. by exists y. }
  destruct dir; [|done]. by apply StronglySorted_reverse_flip in Hs.
Qed.

Definition with_cursor (req : VersionStoreReadRequest) (cursor : option VersionStoreCursor)
    : VersionStoreReadRequest := {|
  vread_app_id := vread_app_id req; vread_channel := vread_channel req;
  vread_message_serial := vread_message_serial req;
  vread_direction := vread_direction req; vread_limit := vread_limit req;
  vread_cursor := cursor;
|}.

(** A client that pages through the version history of a message. *)
Definition fetch_versions (req : VersionStoreReadRequest) s (cursor : option VersionStoreCursor)
    : result Error (list StoredVersionRecord * option VersionStoreCursor) :=
  rmap (λ page, (vpage_items page, vpage_next_cursor page))
    (get_versions (with_cursor req cursor) s).

(** What is left after a cursor: the items after the version it names. *)
Definition versions_left (req : VersionStoreReadRequest) (l : list StoredVersionRecord)
    (cursor : option VersionStoreCursor) (rest : list StoredVersionRecord) : Prop :=
  match cursor with
  | None => rest = l
  | Some c => vcur_version c = 1%Z ∧ vcur_direction c = vread_direction req ∧
      ∃ pre x, l = pre ++ x :: rest ∧ version_serial x = vcur_version_serial c
  end.

Lemma after_cursor_left req l cursor rest :
  StronglySorted (dir_lt (vread_direction req)) l → versions_left req l cursor rest →
  filter (λ item, after_cursor (with_cursor req cursor) item = true) l = rest.
Proof.
  intros Hs. destruct cursor as [c|]; simpl.
  - intros (_ & _ & pre & x & -> & Hx).
    eapply sorted_filter_after; [apply dir_lt_asym| |exact Hs].
    intros y. unfold after_cursor. simpl. rewrite <-Hx.
    destruct (vread_direction req); apply key_ltb_spec.
  - intros ->. by apply list_filter_all, Forall_forall.
Qed.

Lemma read_validate_left req l cursor rest :
  (vread_limit req ≠ 0)%Z → versions_left req l cursor rest →
  read_request_validate (with_cursor req cursor) = Ok tt.
Proof.
  intros Hl Hleft. unfold read_request_validate. simpl.
  rewrite (proj2 (Z.eqb_neq _ _) Hl). simpl. destruct cursor as [c|]; [|done].
  destruct Hleft as (-> & -> & _). by rewrite bool_decide_true.
Qed.

(** Version-history pagination is complete.  Following the cursors of
    [get_versions] from the start, in either direction and with any page size, returns
    every stored version of the message exactly once, in version-serial order, and the
    reader ends within one page per version. *)
Theorem get_versions_pages_complete req s ch chain fuel :
  wf_store s → (0 < vread_limit req < u64_max)%Z →
  s !! channel_key (vread_app_id req) (vread_channel req) = Some ch →
  vch_messages ch !! vread_message_serial req = Some chain →
  length (vc_entries chain) < fuel →
  ∃ all, collect_pages (fetch_versions req s) fuel None = Some (Ok all) ∧
    all ≡ₚ vc_entries chain ∧ StronglySorted (dir_lt (vread_direction req)) all.
Proof.
  intros Hs Hlim Hk Hc Hfuel.
  destruct (wf_chain_records (Hs _ _ Hk) _ _ Hc) as [_ (_ & _ & Hnd)].
  set (l := chain_in_order (vread_direction req) (vc_entries chain)).
  pose proof (chain_in_order_sorted (vread_direction req) _ Hnd) as Hsort. fold l in Hsort.
  exists l. split; [|by split; [apply chain_in_order_perm|]].
  apply (collect_pages_complete _ (versions_left req l)).
  2: done. 2: { unfold l. by rewrite chain_in_order_perm. }
  intros cursor rest Hleft. unfold fetch_versions, get_versions.
  rewrite (read_validate_left req l cursor rest) by (done || lia). simpl. rewrite Hk, Hc. simpl.
  unfold chain_page. simpl. fold l. rewrite (after_cursor_left req l cursor rest Hsort Hleft).
  rewrite u64_wrap_id by u64_lia. rewrite length_take, take_take.
  rewrite Nat.min_l by lia.
  rewrite Z.gtb_ltb. destruct (_ <? _)%Z eqn:Hmore.
  - apply Z.ltb_lt in Hmore. right. set (n := Z.to_nat (vread_limit req)).
    destruct (last (take n rest)) as [x|] eqn:Hlast.
    2: { exfalso. apply last_None in Hlast. apply (f_equal length) in Hlast.
         rewrite length_take in Hlast. unfold n in Hlast. clear n. simpl in Hlast. lia. }
    exists (take n rest), (drop n rest). eexists. rewrite take_drop.
    split; [done|]. split; [by intros Hnil; rewrite Hnil in Hlast|]. split; [done|].
    split; [done|]. split; [done|]. apply last_Some in Hlast as [pre Hpre].
    assert (rest = pre ++ x :: drop n rest) as Hrest.
    { rewrite <-(take_drop n rest) at 1. by rewrite Hpre, <-app_assoc. }
    destruct cursor as [c|]; [|by simpl in Hleft; subst; eauto].
    destruct Hleft as (_ & _ & pre' & y & Hl & _).
    exists (pre' ++ y :: pre), x. split; [|done]. rewrite Hl, Hrest at 1.
    by rewrite <-app_assoc.
  - apply Z.ltb_ge in Hmore. left. rewrite take_ge by lia. done.
Qed.

(** ** Replay *)

(** A strictly sorted list splits at a key. *)
Lemma sorted_split {V} (l : list (Z * V)) m :
  StronglySorted key_lt l.*1 →
  l = filter (λ kv, (kv.1 ≤ m)%Z) l ++ filter (λ kv, ¬ (kv.1 ≤ m)%Z) l.
Proof.
  rewrite StronglySorted_fst. induction 1 as [|[k v] l Hl IH Hk]; [done|].
  rewrite !filter_cons. simpl. repeat case_decide; try lia; simpl.
  - by f_equal.
  - rewrite (list_filter_none (λ kv : Z * V, (kv.1 ≤ m)%Z)); simpl.
    + f_equal. symmetry. apply list_filter_all. eapply Forall_impl; [exact Hk|].
      intros [k' v']. simpl. rewrite key_lt_Z. lia.
    + eapply Forall_impl; [exact Hk|]. intros [k' v']. simpl. rewrite key_lt_Z. lia.
Qed.

(** Records at consecutive positions, tagged with them. *)
Fixpoint at_positions (from : Z) (l : list StoredVersionRecord) : list (Z * StoredVersionRecord) :=
  match l with
  | [] => []
  | r :: l => (from, r) :: at_positions (from + 1) l
  end.

Lemma at_positions_snd from l : (at_positions from l).*2 = l.
Proof. revert from. induction l; intros; simpl; by f_equal. Qed.

Lemma elem_of_at_positions from l k r :
  (k, r) ∈ at_positions from l ↔ (from ≤ k)%Z ∧ l !! Z.to_nat (k - from) = Some r.
Proof.
  revert from. induction l as [|x l IH]; intros from; simpl.
  { rewrite elem_of_nil. split; [done|]. by intros [_ ?]. }
  rewrite elem_of_cons, IH. split.
  - intros [[= -> ->]|[Hle Hl]]; [by rewrite Z.sub_diag|]. split; [lia|].
    by replace (Z.to_nat (k - from)) with (S (Z.to_nat (k - (from + 1)))) by lia.
  - intros [Hle Hl]. destruct (decide (k = from)) as [->|Hne].
    + rewrite Z.sub_diag in Hl. simplify_eq/=. by left.
    + right. split; [lia|].
      by replace (Z.to_nat (k - from)) with (S (Z.to_nat (k - (from + 1)))) in Hl by lia.
Qed.

Lemma at_positions_sorted from l : StronglySorted key_lt (at_positions from l).*1.
Proof.
  revert from. induction l as [|x l IH]; intros from; simpl; constructor; [done|].
  apply Forall_fmap, Forall_forall. intros [k r] [Hle _]%elem_of_at_positions.
  apply key_lt_Z. simpl. lia.
Qed.

(** The range read holds exactly the records stored after the position. *)
Lemma replay_range_prefix ch after l :
  (∀ i r, l !! i = Some r → vch_replay ch !! (after + 1 + Z.of_nat i)%Z = Some r) →
  btree_range (after + 1)%Z (vch_replay ch) =
  at_positions (after + 1) l ++
  filter (λ kv, ¬ (kv.1 ≤ after + Z.of_nat (length l))%Z) (btree_range (after + 1)%Z (vch_replay ch)).
Proof.
  intros Hl. rewrite (sorted_split (btree_range _ _) (after + Z.of_nat (length l))) at 1
    by apply btree_range_sorted.
  f_equal. apply sorted_fst_unique.
  - apply StronglySorted_filter_fst, btree_range_sorted.
  - apply at_positions_sorted.
  - intros k r. rewrite list_elem_of_filter, elem_of_btree_range, elem_of_at_positions.
    unfold key_le, Z_ord_key. simpl. split.
    + intros (Hk & Hr & Hge). split; [done|].
      destruct (lookup_lt_is_Some_2 l (Z.to_nat (k - (after + 1)))) as [x Hx]; [lia|].
      rewrite Hx. apply Hl in Hx. by replace (after + 1 + _)%Z with k in Hx by lia; simplify_eq.
    + intros [Hge Hx]. pose proof (lookup_lt_Some _ _ _ Hx). apply Hl in Hx.
      replace (after + 1 + _)%Z with k in Hx by lia. split_and!; [lia|done|lia].
Qed.

Lemma sorted_lower_bound (l : list Z) lo i k :
  StronglySorted key_lt l → (∀ x, x ∈ l → (lo ≤ x)%Z) → l !! i = Some k →
  (lo + Z.of_nat i ≤ k)%Z.
Proof.
  intros Hs. revert lo i. induction Hs as [|x l Hl IH Hx]; intros lo i Hlo Hi; [done|].
  destruct i as [|i]; simplify_eq/=; [specialize (Hlo k ltac:(left)); lia|].
  rewrite Forall_forall in Hx.
  enough (x + 1 + Z.of_nat i ≤ k)%Z by (specialize (Hlo x ltac:(left)); lia).
  apply IH; [|done]. intros y Hy%Hx. apply key_lt_Z in Hy. lia.
Qed.

Lemma replay_range_lookup ch after i r :
  (btree_range (after + 1)%Z (vch_replay ch)).*2 !! i = Some r →
  ∃ k, vch_replay ch !! k = Some r ∧ (after + 1 + Z.of_nat i ≤ k)%Z.
Proof.
  rewrite list_lookup_fmap. intros ([k x] & Hi & ->)%fmap_Some. exists k.
  pose proof (elem_of_btree_range (after + 1)%Z (vch_replay ch)) as Hel.
  split; [by eapply Hel, list_elem_of_lookup_2|].
  eapply sorted_lower_bound; [apply (btree_range_sorted (after + 1)%Z (vch_replay ch))| |].
  - intros y ([k' v] & -> & Hin)%list_elem_of_fmap. by apply Hel in Hin as [_ ?].
  - by rewrite list_lookup_fmap, Hi.
Qed.

(** Replay is exact.  [replay_after] succeeds with a list exactly when the list holds
    the records at the consecutive positions after the requested one and is maximal:
    it has [limit] records, or nothing is stored beyond it.  In particular a gap in
    the stored positions never goes unnoticed. *)
Theorem replay_after_exact req s ch l :
  wf_store s → s !! channel_key (vreplay_app_id req) (vreplay_channel req) = Some ch →
  (0 < vreplay_limit req)%Z → (0 ≤ vreplay_after_delivery_serial req < u64_max)%Z →
  let after := vreplay_after_delivery_serial req in
  replay_after req s = Ok l ↔
  (Z.of_nat (length l) ≤ vreplay_limit req)%Z ∧
  (∀ i r, l !! i = Some r → vch_replay ch !! (after + 1 + Z.of_nat i)%Z = Some r) ∧
  ((Z.of_nat (length l) < vreplay_limit req)%Z →
   ∀ ds, (after + Z.of_nat (length l) < ds)%Z → vch_replay ch !! ds = None).
Proof.
  intros Hs Hk Hlim Hafter after. unfold replay_after, replay_request_validate.
  rewrite (proj2 (Z.eqb_neq _ _)) by lia. simpl. rewrite Hk. fold after.
  replace (u64_saturating_add after 1) with (after + 1)%Z by u64_lia.
  assert (∀ k r, vch_replay ch !! k = Some r → delivery_serial r = k ∧ (k ≤ u64_max)%Z) as Hds.
  { intros k r Hr. split; [by apply (wf_replay _ _ (Hs _ _ Hk)) in Hr as [-> _]|].
    destruct (wf_position _ _ (Hs _ _ Hk) k) as [Hu _]; [by eexists|]. u64_lia. }
  set (full := btree_range (after + 1)%Z (vch_replay ch)).
  set (n := Z.to_nat (vreplay_limit req)). split.
  - intros ([] & Hcont & [= <-])%rbind_Ok_inv. rewrite validate_replay_continuity_Ok in Hcont.
    assert (∀ i r, take n full.*2 !! i = Some r →
      vch_replay ch !! (after + 1 + Z.of_nat i)%Z = Some r) as Hall.
    { intros i r Hi. specialize (Hcont i (r_message r)). rewrite list_lookup_fmap, Hi in Hcont.
      specialize (Hcont eq_refl). change (m_delivery_serial (r_message r)) with (delivery_serial r) in Hcont.
      apply lookup_take_Some in Hi as [Hi _].
      apply replay_range_lookup in Hi as (k & Hr & Hk').
      destruct (Hds _ _ Hr) as [Hdk Hmax]. replace (after + 1 + Z.of_nat i)%Z with k; [done|].
      rewrite <-Hdk, Hcont in *. u64_lia. }
    split; [rewrite length_take; lia|]. split; [done|]. intros Hlt ds Hgt.
    destruct (vch_replay ch !! ds) as [r|] eqn:Hr; [|done]. exfalso.
    assert ((ds, r) ∈ full) as [i Hi]%list_elem_of_lookup_1.
    { apply elem_of_btree_range. split; [done|]. unfold key_le. simpl. lia. }
    rewrite length_take in Hlt, Hgt. pose proof (lookup_lt_Some _ _ _ Hi) as Hlen.
    rewrite length_fmap in Hlt, Hgt. specialize (Hall i r).
    rewrite lookup_take_lt, list_lookup_fmap, Hi in Hall by lia.
    specialize (Hall eq_refl). apply Hds in Hall as [Hd1 _]. apply Hds in Hr as [Hd2 _]. lia.
  - intros (Hlen & Hall & Hmax). pose proof (replay_range_prefix ch after l Hall) as Hfull.
    fold full in Hfull. rewrite Hfull, fmap_app, at_positions_snd.
    assert (take n (l ++ (filter (λ kv, ¬ (kv.1 ≤ after + Z.of_nat (length l))%Z) full).*2) = l) as ->.
    { destruct (decide (Z.of_nat (length l) = vreplay_limit req)) as [He|He].
      - apply take_app_length'. lia.
      - rewrite list_filter_none, app_nil_r; [apply take_ge; lia|]. apply Forall_forall.
        intros [k r] [Hr _]%elem_of_btree_range Hgt. simpl in Hgt.
        rewrite Hmax in Hr; [done|lia..]. }
    rewrite (proj2 (validate_replay_continuity_Ok _ _)); [done|].
    intros i m (r & -> & Hr)%list_lookup_fmap_Some. apply Hall, Hds in Hr as [Hdr Hle].
    change (m_delivery_serial (r_message r)) with (delivery_serial r). u64_lia.
Qed.

(** ** Latest versions *)

Lemma get_latest_wf s ch app_id channel serial :
  wf_store s → s !! channel_key app_id channel = Some ch →
  get_latest app_id channel serial s = Ok (vch_messages ch !! serial ≫= chain_latest) ∧
  (is_Some (vch_messages ch !! serial) → is_Some (vch_messages ch !! serial ≫= chain_latest)).
Proof.
  intros Hs Hk. unfold get_latest. rewrite Hk.
  destruct (vch_messages ch !! serial) as [c|] eqn:Hc; simpl; [|by split; [|intros []]].
  by destruct (wf_latest (Hs _ _ Hk) _ _ Hc) as (m & -> & _).
Qed.

(** The collected batch of the requested serials that exist. *)
Definition batch_found ch (requested : list string) : list (string * StoredVersionRecord) :=
  omap (λ serial, pair serial <$> (vch_messages ch !! serial ≫= chain_latest)) requested.

Lemma batch_collect ch requested :
  (∀ serial c, vch_messages ch !! serial = Some c → is_Some (chain_latest c)) →
  rmapM (λ sc : string * VersionChain,
      let? record := ok_or (chain_latest sc.2)
        (InvalidMessageFormat "version chain must not be empty") in Ok (sc.1, record))
    (omap (λ serial, (λ chain, (serial, chain)) <$> vch_messages ch !! serial) requested)
  = Ok (batch_found ch requested).
Proof.
  intros Hsome. induction requested as [|x l IH]; [done|]. unfold batch_found. csimpl.
  fold (batch_found ch l). destruct (vch_messages ch !! x) as [c|] eqn:Hx; simpl; [|done].
  destruct (Hsome x c Hx) as [m ->]. simpl. by rewrite IH.
Qed.

Lemma batch_lookup ch requested serial :
  NoDup requested →
  (list_to_map (batch_found ch requested) : gmap string StoredVersionRecord) !! serial =
  if decide (serial ∈ requested) then vch_messages ch !! serial ≫= chain_latest else None.
Proof.
  induction 1 as [|x l Hnot Hnd IH].
  { rewrite decide_False by apply not_elem_of_nil. apply lookup_empty. }
  unfold batch_found. csimpl. fold (batch_found ch l).
  destruct (vch_messages ch !! x ≫= chain_latest) as [m|] eqn:Hx; simpl.
  - rewrite lookup_insert, IH. repeat case_decide; set_solver.
  - rewrite IH. repeat case_decide; set_solver.
Qed.

(** The batch read agrees with single reads.  On a reachable store it never fails,
    and it binds exactly the requested serials that exist, each to what [get_latest]
    returns for it. *)
Theorem get_latest_batch_single s app_id channel serials :
  wf_store s →
  ∃ m, get_latest_batch app_id channel serials s = Ok m ∧
    (∀ serial, serial ∈ serials → get_latest app_id channel serial s = Ok (m !! serial)) ∧
    (∀ serial, serial ∉ serials → m !! serial = None).
Proof.
  intros Hs. unfold get_latest_batch.
  destruct (s !! channel_key app_id channel) as [ch|] eqn:Hk.
  2: { exists ∅. split; [by destruct serials|]. split; intros serial _; [|done].
       unfold get_latest. by rewrite Hk. }
  set (requested := stable_sort key_le (remove_dups serials)).
  assert (∀ x, x ∈ requested ↔ x ∈ serials) as Hreq.
  { intros x. unfold requested. rewrite stable_sort_perm. apply elem_of_remove_dups. }
  assert (NoDup requested) as Hnd.
  { unfold requested. rewrite stable_sort_perm. apply NoDup_remove_dups. }
  exists (list_to_map (batch_found ch requested)). split_and!.
  - destruct serials as [|x l]; [done|]. rewrite batch_collect; [done|].
    intros serial c Hc. destruct (wf_latest (Hs _ _ Hk) _ _ Hc) as (m & -> & _). by eexists.
  - intros serial Hin. rewrite (proj1 (get_latest_wf s ch app_id channel serial Hs Hk)).
    by rewrite batch_lookup, decide_True by (done || by apply Hreq).
  - intros serial Hin. by rewrite batch_lookup, decide_False by (done || by rewrite Hreq).
Qed.

Lemma latest_list_NoDup (kcs : list (string * VersionChain)) :
  NoDup kcs.*1 →
  (∀ k c m, (k, c) ∈ kcs → chain_latest c = Some m → message_serial m = k) →
  NoDup (message_serial <$> omap chain_latest kcs.*2).
Proof.
  induction kcs as [|[k c] kcs IH]; csimpl; intros Hnd Hin; [constructor|].
  apply NoDup_cons in Hnd as [Hnot Hnd].
  destruct (chain_latest c) as [m|] eqn:Hm; [|apply IH; set_solver].
  csimpl. constructor; [|apply IH; set_solver].
  rewrite (Hin k c m) by (done || left).
  intros (r & Hr & (c' & ([k' c''] & -> & Hc')%list_elem_of_fmap & Hlat)%list_elem_of_omap)%list_elem_of_fmap.
  apply Hnot, list_elem_of_fmap. exists (k', c''). split; [|done]. simpl in *.
  rewrite <-(Hin k' c'' r); [done|by right|done].
Qed.

(** The history-ordered listing holds exactly the latest version of every message of
    the channel, each once, in history-serial order. *)
Theorem latest_by_history_exact s app_id channel :
  wf_store s →
  ∃ l, latest_by_history app_id channel s = Ok l ∧
    StronglySorted history_serial_le l ∧ NoDup (message_serial <$> l) ∧
    ∀ r, r ∈ l ↔ get_latest app_id channel (message_serial r) s = Ok (Some r).
Proof.
  intros Hs. unfold latest_by_history.
  destruct (s !! channel_key app_id channel) as [ch|] eqn:Hk.
  2: { exists []. unfold get_latest. rewrite Hk. split_and!; try constructor; try done.
       by intros ?%elem_of_nil. }
  pose proof (Hs _ _ Hk) as Hwf. simpl in Hwf.
  set (l := omap chain_latest (btree_values (vch_messages ch))).
  exists (stable_sort history_serial_le l). split; [done|].
  assert (∀ serial c m, vch_messages ch !! serial = Some c → chain_latest c = Some m →
    message_serial m = serial) as Hserial.
  { intros serial c m Hc Hm. destruct (wf_latest Hwf _ _ Hc) as (m' & Hm' & Hin & _).
    simplify_eq. by destruct (wf_entry_replay Hwf _ _ _ Hc Hin). }
  split_and!.
  - apply stable_sort_sorted; intros x; unfold history_serial_le; [intros y z; lia|intros y; lia].
  - rewrite stable_sort_perm. apply latest_list_NoDup; [apply btree_list_NoDup_fst|].
    intros k c m Hkc Hm. apply elem_of_btree_list in Hkc. by eapply Hserial.
  - intros r. rewrite stable_sort_perm. unfold l. rewrite list_elem_of_omap.
    rewrite (proj1 (get_latest_wf s ch app_id channel _ Hs Hk)). split.
    + intros (c & ([k c'] & -> & Hc)%list_elem_of_fmap & Hlat). simpl in *.
      apply elem_of_btree_list in Hc. rewrite (Hserial _ _ _ Hc Hlat), Hc. simpl. by rewrite Hlat.
    + destruct (vch_messages ch !! message_serial r) as [c|] eqn:Hc; [|done].
      intros [= Hr]. exists c. split; [|done]. apply list_elem_of_fmap.
      exists (message_serial r, c). split; [done|]. by apply elem_of_btree_list.
Qed.

(** ** Concrete instances *)

Definition sample_read : VersionStoreReadRequest := {|
  vread_app_id := "app"; vread_channel := "chat"; vread_message_serial := "msg-1";
  vread_direction := VersionsNewestFirst; vread_limit := 1; vread_cursor := None;
|}.

Definition sample_replay : VersionReplayRequest := {|
  vreplay_app_id := "app"; vreplay_channel := "chat";
  vreplay_after_delivery_serial := 0; vreplay_limit := 10;
|}.

Definition sample_channel : MemoryVersionChannel :=
  entry_or_default "" sample_store (channel_key "app" "chat").

Definition sample_chain : VersionChain :=
  default empty_chain (vch_messages sample_channel !! "msg-1").

Lemma sample_channel_lookup : sample_store !! channel_key "app" "chat" = Some sample_channel.
Proof. vm_compute. reflexivity. Qed.

Lemma get_versions_pages_complete_witness :
  ∃ all, collect_pages (fetch_versions sample_read sample_store) 3 None = Some (Ok all) ∧
    all ≡ₚ vc_entries sample_chain ∧ StronglySorted (dir_lt VersionsNewestFirst) all.
Proof.
  refine (get_versions_pages_complete sample_read sample_store sample_channel sample_chain 3
    wf_sample_store _ sample_channel_lookup _ _).
  - vm_compute. split; reflexivity.
  - vm_compute. reflexivity.
  - apply Nat.ltb_lt. vm_compute. reflexivity.
Defined.

Lemma replay_after_exact_witness :
  replay_after sample_replay sample_store =
    Ok (match replay_after sample_replay sample_store with Ok l => l | Err _ => [] end) ∧
  (Z.of_nat (length (match replay_after sample_replay sample_store with Ok l => l | Err _ => [] end))
   ≤ 10)%Z.
Proof.
  set (l := match replay_after sample_replay sample_store with Ok l => l | Err _ => [] end).
  assert (replay_after sample_replay sample_store = Ok l) as Hl by (vm_compute; reflexivity).
  split; [exact Hl|].
  destruct (replay_after_exact sample_replay sample_store sample_channel l wf_sample_store
    sample_channel_lookup) as [Hspec _]; [vm_compute; reflexivity|vm_compute; split; congruence|].
  exact (proj1 (Hspec Hl)).
Defined.

Lemma get_latest_batch_single_witness :
  ∃ m, get_latest_batch "app" "chat" ["msg-1"; "other"] sample_store = Ok m ∧
    get_latest "app" "chat" "other" sample_store = Ok (m !! "other").
Proof.
  destruct (get_latest_batch_single sample_store "app" "chat" ["msg-1"; "other"] wf_sample_store)
    as (m & Hm & Hin & _).
  exists m. split; [exact Hm|]. apply Hin. right. left.
Defined.

Lemma latest_by_history_exact_witness :
  ∃ l, latest_by_history "app" "chat" sample_store = Ok l ∧
    StronglySorted history_serial_le l ∧ NoDup (message_serial <$> l).
Proof.
  destruct (latest_by_history_exact sample_store "app" "chat" wf_sample_store)
    as (l & Hl & Hs & Hnd & _).
  exists l. split; [exact Hl|]. split; [exact Hs|exact Hnd].
Defined.
