(* ===== verification/VersionStoreSpec.v ===== *)
(** * The version store as a commit log

    The contract of the in-memory version store: a channel is a stream id, the next
    delivery position and the list of committed records in commit order.  Everything
    else (latest versions, operation receipts, append and open-stream counts, the
    replay order) is computed from that list by a scan, and mutations are decided by
    [VersionMutationRequest::apply_to], the definition the persistent backends share.
    [VersionRefinement.v] proves that the indexed store implements it. *)

From Stdlib Require Import ZArith Lia.
From stdpp Require Import base gmap strings list sorting pretty.
From S2P Require Import Prelude Errors Messages VersionedMessages VersionTypes VersionStore.
From S2P Require Import VersionChains VersionStoreSteps.

Record LogChannel := {
  lg_stream_id : string;
  lg_next : Z;
  lg_log : list (StoredVersionRecord * Z);
}.

Notation LogStore := (gmap string LogChannel).

Implicit Types (lc : LogChannel) (log : list (StoredVersionRecord * Z)) (a : LogStore).

Definition default_log (fresh : string) : LogChannel := {|
  lg_stream_id := fresh; lg_next := 1; lg_log := [];
|}.

Definition log_entry (fresh : string) a (key : string) : LogChannel :=
  default (default_log fresh) (a !! key).

Definition log_set_next lc (next : Z) : LogChannel := {|
  lg_stream_id := lg_stream_id lc; lg_next := next; lg_log := lg_log lc;
|}.

Definition log_commit lc (r : StoredVersionRecord) (now next : Z) : LogChannel := {|
  lg_stream_id := lg_stream_id lc; lg_next := next; lg_log := lg_log lc ++ [(r, now)];
|}.

(** ** Scans *)

(** The versions of a message, in commit order. *)
Definition versions_of log (serial : string) : list StoredVersionRecord :=
  filter (λ r, message_serial r = serial) log.*1.

Definition log_at log (ds : Z) : option StoredVersionRecord :=
  snd <$> list_find (λ r, delivery_serial r = ds) log.*1.

(** The first version with the greatest version serial. *)
Definition scan_latest (l : list StoredVersionRecord) : option StoredVersionRecord :=
  match l with
  | [] => None
  | r :: rest =>
      Some (foldl (λ best x,
        if key_ltb (version_serial best) (version_serial x) then x else best) r rest)
  end.

Definition message_is_open log (serial : string) : bool :=
  match scan_latest (versions_of log serial) with
  | Some r => is_open_ai_stream r
  | None => false
  end.

(** Messages whose latest version is an open stream (a [usize]). *)
Definition scan_open_count log : Z :=
  u64_wrap (Z.of_nat (length
    (filter (λ serial, message_is_open log serial = true)
       (remove_dups (message_serial <$> log.*1))))).

Definition position_le (x y : StoredVersionRecord * Z) : Prop :=
  (delivery_serial x.1 ≤ delivery_serial y.1)%Z.

#[export] Instance position_le_dec : RelDecision position_le.
Proof. intros x y. unfold position_le. apply _. Defined.

(** The log in delivery order. *)
Definition by_position log : list (StoredVersionRecord * Z) := stable_sort position_le log.

(** ** Writes *)

Definition log_append (now : Z) (r : StoredVersionRecord) lc : LogChannel * result Error unit :=
  match log_at (lg_log lc) (delivery_serial r) with
  | Some existing =>
      (lc, Err (InvalidMessageFormat ("duplicate delivery_serial "
        +:+ pretty (delivery_serial r) +:+ " in version replay log for "
        +:+ r_app_id r +:+ ":" +:+ r_channel r
        +:+ " (existing message_serial " +:+ message_serial existing
        +:+ ", incoming " +:+ message_serial r +:+ ")")))
  | None =>
      match validate_version_chain
              (r_message <$> versions_of (lg_log lc) (message_serial r) ++ [r]) with
      | Err e => (lc, Err e)
      | Ok _ => (log_commit lc r now
                   (Z.max (lg_next lc) (u64_saturating_add (delivery_serial r) 1)), Ok tt)
      end
  end.

Section writes.
Context `{SonicRs}.

Definition log_create (now : Z) (req : VersionCreateRequest) lc
    : LogChannel * result Error VersionCreateResult :=
  let record := creq_record req in
  match scan_latest (versions_of (lg_log lc) (message_serial record)) with
  | Some current => (lc, Ok (CreateConflict (Some current)))
  | None =>
      match bytes_exceed (clim_max_accumulated_message_bytes (creq_limits req)) record with
      | Err e => (lc, Err e)
      | Ok (Some limit) => (lc, Ok (CreateRejected (CreateAccumulatedMessageBytes limit)))
      | Ok None =>
          match (if is_open_ai_stream record
                 then reaches (clim_max_open_streaming_messages_per_channel (creq_limits req))
                        (scan_open_count (lg_log lc))
                 else None) with
          | Some limit => (lc, Ok (CreateRejected (CreateOpenStreamingMessages limit)))
          | None =>
              let ds := lg_next lc in
              let r := with_delivery_position record (lg_stream_id lc) ds in
              match log_at (lg_log lc) ds with
              | Some _ => (lc, Err (InvalidMessageFormat ("duplicate delivery_serial "
                             +:+ pretty ds +:+ " in version replay log")))
              | None => (log_commit lc r now (u64_saturating_add ds 1),
                         Ok (CreateApplied r (lg_stream_id lc)))
              end
          end
      end
  end.

Definition log_receipt (versions : list StoredVersionRecord) (stream_id : string)
    (idempotency : option PublishIdempotencyMetadata)
    : option (result Error VersionMutationResult) :=
  incoming ← idempotency;
  existing ← scan_receipt (cache_key incoming) versions;
  Some (if decide (payload_fingerprint <$> record_idempotency existing
                   = Some (payload_fingerprint incoming))
        then Ok (MutationDuplicate existing stream_id) else Err IdempotencyConflict).

Definition log_mutate (now : Z) (req : VersionMutationRequest) lc
    : LogChannel * result Error VersionMutationResult :=
  let versions := versions_of (lg_log lc) (mreq_message_serial req) in
  match log_receipt versions (lg_stream_id lc) (mreq_idempotency req) with
  | Some out => (lc, out)
  | None =>
      match scan_latest versions with
      | None => (lc, Ok (MutationConflict None))
      | Some current =>
          let ds := lg_next lc in
          match apply_to req current (lg_stream_id lc) ds (scan_appends versions) with
          | Err e => (lc, Err e)
          | Ok (MutationApplied r stream_id) =>
              match (if negb (is_open_ai_stream current) && is_open_ai_stream r
                     then reaches (lim_max_open_streaming_messages_per_channel (mreq_limits req))
                            (scan_open_count (lg_log lc))
                     else None) with
              | Some limit =>
                  (lc, Ok (MutationRejected (MutationOpenStreamingMessages limit)))
              | None =>
                  match log_at (lg_log lc) ds with
                  | Some _ => (lc, Err (InvalidMessageFormat ("duplicate delivery_serial "
                                 +:+ pretty ds +:+ " in version replay log")))
                  | None => (log_commit lc r now (u64_saturating_add ds 1),
                             Ok (MutationApplied r stream_id))
                  end
              end
          | Ok out => (lc, Ok out)
          end
      end
  end.
End writes.

(** ** Retention *)

Definition log_expired (before_ms : Z) log : bool :=
  match by_position log with
  | (_, created) :: _ => (created <? before_ms)%Z
  | [] => false
  end.

Fixpoint take_expired (before_ms : Z) log : list Z :=
  match log with
  | [] => []
  | (r, created) :: log =>
      if (created <? before_ms)%Z then delivery_serial r :: take_expired before_ms log else []
  end.

Fixpoint log_purge_channels (before_ms batch_size deleted : Z) (has_more : bool)
    (lcs : list (string * LogChannel)) a : LogStore * (Z * bool) :=
  match lcs with
  | [] => (a, (deleted, has_more))
  | (key, lc) :: rest =>
      if (deleted >=? batch_size)%Z then (a, (deleted, true))
      else
        let gone := take (Z.to_nat (batch_size - deleted))
                      (take_expired before_ms (by_position (lg_log lc))) in
        let log := filter (λ x, delivery_serial x.1 ∉ gone) (lg_log lc) in
        log_purge_channels before_ms batch_size (deleted + Z.of_nat (length gone))
          (has_more || log_expired before_ms log) rest
          (<[key := {| lg_stream_id := lg_stream_id lc; lg_next := lg_next lc;
                       lg_log := log |}]> a)
  end.

Definition log_purge (before_ms batch_size : Z) a : LogStore * result Error (Z * bool) :=
  if (batch_size =? 0)%Z then (a, Ok (0%Z, false))
  else
    let '(a', out) := log_purge_channels before_ms batch_size 0 false (btree_list a) a in
    (a', Ok out).
