(* ===== verification/VersionRefinement.v ===== *)
(** * The indexed version store implements the commit log

    A simulation between [MemoryVersionStore] and the log store of [VersionStoreSpec.v]:
    every operation returns the same result and preserves the relation, so a client
    cannot tell the two apart. *)

From Stdlib Require Import ZArith Lia.
From stdpp Require Import base gmap strings list sorting pretty.
From S2P Require Import Prelude Errors Messages VersionedMessages VersionTypes VersionStore.
From S2P Require Import VersionChains VersionStoreInv VersionStoreSteps VersionPurge VersionStoreSpec.

Implicit Types (ch : MemoryVersionChannel) (lc : LogChannel)
  (log : list (StoredVersionRecord * Z)) (s : MemoryVersionStore) (a : LogStore).

(** ** Scans and indexes *)

Definition chain_opt (l : list StoredVersionRecord) : option VersionChain :=
  match l with
  | [] => None
  | _ => Some (chain_of l)
  end.

Lemma chain_opt_default l : default empty_chain (chain_opt l) = chain_of l.
Proof. by destruct l. Qed.

Lemma chain_opt_Some l c : chain_opt l = Some c ↔ l ≠ [] ∧ c = chain_of l.
Proof. destruct l; naive_solver. Qed.

Lemma scan_latest_greatest l r : scan_latest l = Some r ↔ first_greatest version_serial l r.
Proof.
  assert (∀ pre best rest, first_greatest version_serial pre best →
    first_greatest version_serial (pre ++ rest) (foldl (λ best x,
      if key_ltb (version_serial best) (version_serial x) then x else best) best rest)) as Hfold.
  { intros pre best rest. revert pre best. induction rest as [|x rest IH]; intros pre best Hb; simpl.
    - by rewrite app_nil_r.
    - rewrite (cons_middle x pre rest), app_assoc. apply IH. by apply first_greatest_snoc. }
  destruct l as [|x l]; simpl.
  - split; [done|]. intros Hr%first_greatest_elem. by apply elem_of_nil in Hr.
  - specialize (Hfold [x] x l (first_greatest_singleton _ x)). simpl in Hfold. split.
    + by intros [= <-].
    + intros Hr. f_equal. by eapply first_greatest_unique.
Qed.

Lemma chain_latest_scan l : chain_latest (chain_of l) = scan_latest l.
Proof.
  destruct (chain_latest (chain_of l)) as [r|] eqn:Hl.
  - symmetry. apply scan_latest_greatest. by apply chain_latest_Some.
  - destruct l as [|x l]; [done|]. by destruct (chain_latest_is_Some (x :: l)) as [? ?]; [|congruence].
Qed.

Lemma chain_opt_latest l : chain_opt l ≫= chain_latest = scan_latest l.
Proof. destruct l as [|x l]; [done|]. apply chain_latest_scan. Qed.

Lemma latest_is_open_scan log serial :
  latest_is_open (chain_opt (versions_of log serial)) = message_is_open log serial.
Proof. unfold latest_is_open, message_is_open. by rewrite chain_opt_latest. Qed.

Lemma versions_of_snoc log r now serial :
  versions_of (log ++ [(r, now)]) serial =
  versions_of log serial ++ (if decide (message_serial r = serial) then [r] else []).
Proof. unfold versions_of. rewrite fmap_app, filter_app. csimpl. by rewrite filter_cons. Qed.

Lemma elem_of_versions_of log serial r :
  r ∈ versions_of log serial ↔ r ∈ log.*1 ∧ message_serial r = serial.
Proof. unfold versions_of. rewrite list_elem_of_filter. naive_solver. Qed.

(** ** The relation *)

Definition replay_of log : gmap Z StoredVersionRecord :=
  list_to_map ((λ x, (delivery_serial x.1, x.1)) <$> log).
Definition created_of log : gmap Z Z :=
  list_to_map ((λ x, (delivery_serial x.1, x.2)) <$> log).
Definition positions log : list Z := (λ x, delivery_serial x.1) <$> log.

Record refines (key : string) ch lc : Prop := {
  rf_wf : wf_channel key ch;
  rf_stream : vch_stream_id ch = lg_stream_id lc;
  rf_next : vch_next_delivery_serial ch = lg_next lc;
  rf_messages serial :
    vch_messages ch !! serial = chain_opt (versions_of (lg_log lc) serial);
  rf_nodup : NoDup (positions (lg_log lc));
  rf_replay : vch_replay ch = replay_of (lg_log lc);
  rf_created : vch_created_at ch = created_of (lg_log lc);
}.

Definition refines_store s a : Prop := map_Forall2 refines s a.

Lemma replay_of_at log ds : replay_of log !! ds = log_at log ds.
Proof.
  unfold replay_of, log_at. induction log as [|[r t] log IH]; csimpl; [done|].
  rewrite lookup_insert. repeat case_decide; try done. rewrite IH.
  by destruct (list_find _ _) as [[]|].
Qed.

Lemma positions_fst {B} (f : StoredVersionRecord * Z → B) log :
  ((λ x, (delivery_serial x.1, f x)) <$> log).*1 = positions log.
Proof. unfold positions. rewrite <-list_fmap_compose. done. Qed.

Section related.
Context {key : string} {ch : MemoryVersionChannel} {lc : LogChannel} (Href : refines key ch lc).

Lemma rf_log_at ds : vch_replay ch !! ds = log_at (lg_log lc) ds.
Proof. rewrite (rf_replay _ _ _ Href). apply replay_of_at. Qed.

Lemma rf_latest serial :
  vch_messages ch !! serial ≫= chain_latest = scan_latest (versions_of (lg_log lc) serial).
Proof. rewrite (rf_messages _ _ _ Href). apply chain_opt_latest. Qed.

(** The open-stream counter is the scan. *)
Lemma rf_open_count : vch_open_stream_count ch = scan_open_count (lg_log lc).
Proof.
  rewrite (wf_open _ _ (rf_wf _ _ _ Href)). unfold scan_open_count. do 2 f_equal.
  unfold open_count. rewrite <-(size_dom (D := gset string)).
  set (l := filter _ (remove_dups _)).
  assert (NoDup l) as Hnd by (apply NoDup_filter, NoDup_remove_dups).
  rewrite <-(size_list_to_set (C := gset string) l Hnd). f_equal.
  apply dom_filter_L. intros serial. rewrite elem_of_list_to_set. unfold l.
  rewrite list_elem_of_filter, elem_of_remove_dups. setoid_rewrite (rf_messages _ _ _ Href).
  rewrite <-latest_is_open_scan. split.
  - intros [Hopen _]. destruct (chain_opt _) as [c|]; [by exists c|done].
  - intros (c & Hc & Hopen). rewrite Hc. split; [done|].
    apply chain_opt_Some in Hc as [Hne _].
    destruct (versions_of (lg_log lc) serial) as [|r l'] eqn:Hv; [done|].
    assert (r ∈ versions_of (lg_log lc) serial) as [Hr Hs]%elem_of_versions_of
      by (rewrite Hv; left).
    apply list_elem_of_fmap. by exists r.
Qed.

(** A commit extends the log. *)
Lemma refines_commit r now next :
  vch_replay ch !! delivery_serial r = None →
  wf_channel key (channel_commit ch r now next) →
  refines key (channel_commit ch r now next) (log_commit lc r now next).
Proof.
  intros Hnone Hwf. destruct Href as [_ Hsid Hnext Hm Hnd Hrep Hcr].
  assert (delivery_serial r ∉ positions (lg_log lc)) as Hnot.
  { rewrite Hrep in Hnone. apply not_elem_of_list_to_map in Hnone. by rewrite positions_fst in Hnone. }
  split; simpl; try done.
  - intros serial. rewrite versions_of_snoc, lookup_insert. case_decide as He.
    + subst serial. rewrite Hm, chain_opt_default, <-chain_of_snoc.
      by destruct (versions_of _ _ ++ [r]) eqn:Hv; [destruct (versions_of _ _)|].
    + by rewrite app_nil_r.
  - unfold positions. rewrite fmap_app. apply NoDup_app. split; [done|]. split; [|apply NoDup_singleton].
    by intros x Hx ->%list_elem_of_singleton.
  - unfold replay_of. rewrite fmap_app. csimpl.
    rewrite list_to_map_snoc; [by rewrite Hrep|by rewrite positions_fst].
  - unfold created_of. rewrite fmap_app. csimpl.
    rewrite list_to_map_snoc; [by rewrite Hcr|by rewrite positions_fst].
Qed.

Lemma refines_next next :
  is_u64 next → (vch_next_delivery_serial ch ≤ next)%Z →
  refines key (set_next_delivery_serial ch next) (log_set_next lc next).
Proof. intros ??. destruct Href. split; simpl; auto. by apply wf_set_next. Qed.
End related.

Lemma refines_default key fresh : refines key (default_channel fresh) (default_log fresh).
Proof. split; try done; [apply wf_default_channel|constructor]. Qed.

Lemma refines_entry s a key fresh :
  refines_store s a → refines key (entry_or_default fresh s key) (log_entry fresh a key).
Proof.
  intros Hr. unfold entry_or_default, log_entry. specialize (Hr key).
  destruct (s !! key), (a !! key); inversion Hr; simpl; [done|apply refines_default].
Qed.

Lemma refines_insert s a key ch lc :
  refines_store s a → refines key ch lc → refines_store (<[key := ch]> s) (<[key := lc]> a).
Proof. intros ??. by apply map_Forall2_insert_2. Qed.

(** ** Delivery order *)

Lemma by_position_perm log : by_position log ≡ₚ log.
Proof. apply stable_sort_perm. Qed.

Lemma by_position_sorted log :
  NoDup (positions log) → StronglySorted key_lt (positions (by_position log)).
Proof.
  intros Hnd.
  assert (NoDup (positions (by_position log))) as Hnd'.
  { unfold positions. by rewrite by_position_perm. }
  assert (StronglySorted position_le (by_position log)) as Hs.
  { apply stable_sort_sorted; intros x; unfold position_le; [intros y z; lia|intros y; lia]. }
  revert Hnd'. induction Hs as [|x l Hl IH Hx]; csimpl; intros Hnd'; [constructor|].
  apply NoDup_cons in Hnd' as [Hnot Hnd']. constructor; [by apply IH|].
  apply Forall_fmap, Forall_forall. rewrite Forall_forall in Hx. intros y Hy. simpl.
  apply key_lt_Z. assert (delivery_serial x.1 ≠ delivery_serial y.1).
  { intros Heq. apply Hnot. rewrite Heq. by apply (list_elem_of_fmap_2 (λ x, delivery_serial x.1)). }
  specialize (Hx y Hy). unfold position_le in Hx. lia.
Qed.

Lemma btree_list_log {B} (f : StoredVersionRecord * Z → B) log :
  NoDup (positions log) →
  btree_list (list_to_map ((λ x, (delivery_serial x.1, f x)) <$> log) : gmap Z B) =
  (λ x, (delivery_serial x.1, f x)) <$> by_position log.
Proof.
  intros Hnd. apply btree_list_unique.
  - rewrite positions_fst. by apply by_position_sorted.
  - intros k v. rewrite <-elem_of_list_to_map by (by rewrite positions_fst).
    by rewrite by_position_perm.
Qed.

(** ** Writes *)

(** The log store's operations on its channel map. *)
Definition on_log {R} (fresh : string) (key : string) (f : LogChannel → LogChannel * R) a
    : LogStore * R :=
  let '(lc, out) := f (log_entry fresh a key) in (<[key := lc]> a, out).

Lemma refines_records {key ch lc} serial :
  refines key ch lc → versions_of (lg_log lc) serial ≠ [] →
  chain_records (versions_of (lg_log lc) serial).
Proof.
  intros Href Hne. pose proof (rf_messages _ _ _ Href serial) as Hm.
  destruct (versions_of (lg_log lc) serial) as [|r l] eqn:Hv; [done|].
  apply (wf_chain_records (rf_wf _ _ _ Href)) in Hm as [_ Hrec].
  by rewrite chain_of_entries in Hrec.
Qed.

(** The incremental check of an import is the validation of the whole chain. *)
Lemma append_checks_refine key ch lc r :
  refines key ch lc → log_at (lg_log lc) (delivery_serial r) = None →
  append_version_checks ch r =
  validate_version_chain (r_message <$> versions_of (lg_log lc) (message_serial r) ++ [r]).
Proof.
  intros Href Hat. unfold append_version_checks. rewrite (rf_log_at Href), Hat.
  rewrite (rf_messages _ _ _ Href). set (l := versions_of _ _).
  assert (∀ x, x ∈ l → delivery_serial x ≠ delivery_serial r) as Hne.
  { intros x [Hx _]%elem_of_versions_of Heq. rewrite <-replay_of_at in Hat.
    apply not_elem_of_list_to_map in Hat. rewrite positions_fst in Hat. apply Hat.
    rewrite <-Heq. apply list_elem_of_fmap in Hx as (y & -> & Hy).
    by apply (list_elem_of_fmap_2 (λ x, delivery_serial x.1)). }
  destruct (chain_opt l) as [c|] eqn:Hc.
  - apply chain_opt_Some in Hc as [Hl ->].
    destruct (refines_records _ Href Hl) as (_ & Hid & Hv). fold l in Hid, Hv.
    apply validate_incoming_chain; [|intros (x & Heq & Hx)%list_elem_of_fmap; by eapply Hne].
    apply validate_version_chain_Ok. split; [by destruct l|].
    rewrite <-!list_fmap_compose. split_and!; [|done|].
    + intros x y (x' & -> & Hx)%list_elem_of_fmap (y' & -> & Hy)%list_elem_of_fmap. auto.
    + eapply sublist_NoDup; [exact (rf_nodup _ _ _ Href)|].
      change (delivery_serial <$> l `sublist_of` (delivery_serial ∘ fst) <$> lg_log lc).
      rewrite list_fmap_compose. apply fmap_sublist, sublist_filter.
  - destruct l; [done|by simplify_eq].
Qed.

Lemma refine_append fresh now r s a :
  refines_store s a → is_u64 (delivery_serial r) →
  let key := channel_key (r_app_id r) (r_channel r) in
  refines_store (append_version fresh now r s).1 (on_log fresh key (log_append now r) a).1 ∧
  (append_version fresh now r s).2 = (on_log fresh key (log_append now r) a).2.
Proof.
  intros Hr Hds key. unfold append_version, on_log. fold key.
  pose proof (refines_entry s a key fresh Hr) as Href.
  set (ch := entry_or_default fresh s key) in *. set (lc := log_entry fresh a key) in *.
  unfold log_append. destruct (log_at (lg_log lc) (delivery_serial r)) as [x|] eqn:Hat.
  - unfold append_version_checks. rewrite (rf_log_at Href), Hat. simpl.
    split; [by apply refines_insert|done].
  - rewrite <-(append_checks_refine key ch lc r Href Hat).
    destruct (append_version_checks ch r) as [[]|e] eqn:Hck; simpl;
      [|split; [by apply refines_insert|done]].
    split; [|done]. apply refines_insert; [done|].
    rewrite <-(rf_next _ _ _ Href). pose proof (wf_next_u64 _ _ (rf_wf _ _ _ Href)).
    pose proof (rf_log_at Href (delivery_serial r)) as Hnone. rewrite Hat in Hnone.
    apply refines_commit; [done|done|]. apply wf_channel_commit; try done; [by destruct Href| |u64_lia..].
    intros c Hc. unfold append_version_checks in Hck. by rewrite Hnone, Hc in Hck.
Qed.

Section create_mutate.
Context `{SonicRs}.

Lemma refine_create fresh now req s a :
  refines_store s a →
  let key := channel_key (r_app_id (creq_record req)) (r_channel (creq_record req)) in
  refines_store (commit_create fresh now req s).1 (on_log fresh key (log_create now req) a).1 ∧
  (commit_create fresh now req s).2 = (on_log fresh key (log_create now req) a).2.
Proof.
  intros Hr key. unfold commit_create, on_log. fold key.
  pose proof (refines_entry s a key fresh Hr) as Href.
  set (ch := entry_or_default fresh s key) in *. set (lc := log_entry fresh a key) in *.
  assert (∀ (out : result Error VersionCreateResult),
    refines_store (<[key := ch]> s) (<[key := lc]> a) ∧ out = out) as Hsame
    by (intros; split; [by apply refines_insert|done]).
  unfold commit_create_checks, log_create. rewrite (rf_latest Href), (rf_open_count Href).
  destruct (scan_latest _) as [cur|] eqn:Hlat; [apply Hsame|].
  destruct (bytes_exceed _ _) as [[limit|]|e]; [apply Hsame| |apply Hsame]. simpl.
  destruct (if is_open_ai_stream _ then _ else _) as [limit|]; [apply Hsame|].
  destruct (commit_create_apply now ch (creq_record req)) as [ch' [out|e]] eqn:Happ.
  - apply commit_create_apply_Ok with (key := key) in Happ as (-> & Hm & Hrep & ->);
      [|by destruct Href|by rewrite (rf_latest Href)].
    rewrite <-(rf_next _ _ _ Href), <-(rf_stream _ _ _ Href).
    set (rec := with_delivery_position _ _ _) in *.
    pose proof Hrep as Hat. rewrite (rf_log_at Href) in Hat.
    change (delivery_serial rec) with (vch_next_delivery_serial ch) in Hat. rewrite Hat.
    split; [|done]. apply refines_insert; [done|]. apply refines_commit; [done..|].
    pose proof (wf_next_u64 _ _ (rf_wf _ _ _ Href)).
    apply wf_channel_commit; try done; [by destruct Href|by rewrite Hm|..];
      change (delivery_serial rec) with (vch_next_delivery_serial ch); u64_lia.
  - revert Happ. unfold commit_create_apply. simpl.
    rewrite (rf_log_at Href), <-(rf_next _ _ _ Href).
    destruct (log_at _ _); [|done]. intros [= <- <-]. apply Hsame.
Qed.

Lemma lookup_receipt_refine l stream_id idem :
  lookup_receipt (chain_of l) stream_id idem = log_receipt l stream_id idem.
Proof.
  unfold lookup_receipt, log_receipt. destruct idem as [op|]; [|done].
  cbn [mbind option_bind]. rewrite chain_of_receipt.
  destruct (scan_receipt (cache_key op) l) as [x|] eqn:Hx; [|done]. simpl.
  apply scan_receipt_Some in Hx as [_ Hk]. unfold has_key in Hk.
  destruct (record_idempotency x) as [found|]; [|done]. simpl.
  repeat case_decide; simplify_eq; try done. congruence.
Qed.

(** The inlined guards, mutation and size limit of the memory store are [apply_to]. *)
Lemma apply_to_refine req ch l current ds :
  match mutation_refused req (chain_of l) current with
  | Some out => apply_to req current (vch_stream_id ch) ds (scan_appends l) = Ok out ∧
                ∀ r sid, out ≠ MutationApplied r sid
  | None =>
      apply_to req current (vch_stream_id ch) ds (scan_appends l) =
      let? r := record_apply_mutation current req (vch_stream_id ch) ds in
      let? over := bytes_exceed (lim_max_accumulated_message_bytes (mreq_limits req)) r in
      match over with
      | Some limit => Ok (MutationRejected (MutationAccumulatedMessageBytes limit))
      | None => Ok (MutationApplied r (vch_stream_id ch))
      end
  end.
Proof.
  unfold mutation_refused, apply_to. rewrite chain_of_append_count.
  destruct (precondition_matches _ _); simpl; [|done].
  destruct (is_append _); simpl; [|done].
  destruct (lim_reject_append_after_terminal _ && is_terminal current); [done|].
  by destruct (reaches _ _).
Qed.

(** A record built by [record_apply_mutation] from the latest version passes the check
    of incoming records. *)
Lemma mutation_validates l current req sid ds r :
  chain_records l → first_greatest version_serial l current →
  record_apply_mutation current req sid ds = Ok r →
  validate_incoming (chain_of l) r = Ok tt.
Proof.
  intros Hrec Hcur Hr. destruct Hrec as (Hne & Hid & _).
  apply validate_incoming_Ok; [done..|].
  pose proof (record_apply_mutation_fields _ _ _ _ _ Hr) as (_ & _ & _ & _ & Hlt & _).
  apply record_apply_mutation_Ok_inv in Hr as [Hm _].
  apply mutate_message_Ok_inv in Hm as [Hmi _]. split.
  - intros x Hx. rewrite Hmi. apply Hid; [done|]. by eapply first_greatest_elem.
  - intros (x & Heq & Hx)%list_elem_of_fmap. apply Hlt. rewrite Heq.
    by eapply first_greatest_le.
Qed.

Lemma refine_decide key now req ch lc chain :
  refines key ch lc → vch_messages ch !! mreq_message_serial req = Some chain →
  log_mutate now req lc =
  match compare_and_apply_decide req ch chain with
  | Err e => (lc, Err e)
  | Ok (inl out) => (lc, Ok out)
  | Ok (inr (current, r)) =>
      (log_commit lc r now (u64_saturating_add (delivery_serial r) 1),
       Ok (MutationApplied r (vch_stream_id ch)))
  end.
Proof.
  intros Href Hc. pose proof Hc as Hc'. rewrite (rf_messages _ _ _ Href) in Hc'.
  apply chain_opt_Some in Hc' as [Hne ->].
  unfold compare_and_apply_decide, log_mutate. set (l := versions_of _ _) in *.
  rewrite lookup_receipt_refine, (rf_stream _ _ _ Href).
  destruct (log_receipt l _ _) as [[out|e]|]; [done..|].
  rewrite chain_latest_scan. destruct (scan_latest l) as [cur|] eqn:Hcur.
  2: { by destruct l. }
  simpl. apply scan_latest_greatest in Hcur.
  assert (Z.max (vch_next_delivery_serial ch) (u64_saturating_add (delivery_serial cur) 1)
          = lg_next lc) as Hds.
  { rewrite <-(rf_next _ _ _ Href). destruct (wf_position _ _ (rf_wf _ _ _ Href) (delivery_serial cur))
      as [_ Hp]; [|lia]. eexists. apply (wf_entry_replay (rf_wf _ _ _ Href) _ _ _ Hc).
    rewrite chain_of_entries. by eapply first_greatest_elem. }
  rewrite Hds. pose proof (apply_to_refine req ch l cur (lg_next lc)) as Happ.
  rewrite (rf_stream _ _ _ Href) in Happ.
  destruct (mutation_refused req (chain_of l) cur) as [out|].
  { destruct Happ as [-> Hno]. destruct out; try done. by destruct (Hno record stream_id). }
  rewrite Happ. destruct (record_apply_mutation _ _ _ _) as [r|e] eqn:Hr; simpl; [|done].
  unfold mutation_over_limits.
  destruct (bytes_exceed _ r) as [[limit|]|e]; simpl; [done| |done].
  rewrite (rf_open_count Href).
  pose proof (mutation_validates l cur req _ _ r (refines_records _ Href Hne) Hcur Hr) as Hvi.
  apply record_apply_mutation_fields in Hr as (_ & _ & _ & Hdr & _). rewrite <-Hdr.
  destruct (if negb (is_open_ai_stream cur) && is_open_ai_stream r then _ else _) as [limit|]
    eqn:Hopen; destruct (negb (is_open_ai_stream cur) && is_open_ai_stream r); try done;
    rewrite ?Hopen; [done|..]; rewrite Hvi, (rf_log_at Href); simpl; by destruct (log_at _ _).
Qed.

Definition log_store_mutate (now : Z) (req : VersionMutationRequest) a
    : LogStore * result Error VersionMutationResult :=
  let key := channel_key (mreq_app_id req) (mreq_channel req) in
  match a !! key with
  | None => (a, Ok (MutationConflict None))
  | Some lc => let '(lc', out) := log_mutate now req lc in (<[key := lc']> a, out)
  end.

Lemma refine_mutate now req s a :
  refines_store s a →
  refines_store (compare_and_apply now req s).1 (log_store_mutate now req a).1 ∧
  (compare_and_apply now req s).2 = (log_store_mutate now req a).2.
Proof.
  intros Hr. unfold compare_and_apply, log_store_mutate. set (key := channel_key _ _).
  pose proof (Hr key) as Hk. destruct (s !! key) as [ch|] eqn:Hs, (a !! key) as [lc|] eqn:Ha;
    inversion Hk as [? ? Href|]; subst; [|done].
  destruct (vch_messages ch !! mreq_message_serial req) as [chain|] eqn:Hc.
  - rewrite (refine_decide key now req ch lc chain Href Hc).
    destruct (compare_and_apply_decide req ch chain) as [[out|[cur r]]|e] eqn:Hd; simpl;
      [by rewrite (insert_id a)| |by rewrite (insert_id a)].
    split; [|done]. apply refines_insert; [done|].
    pose proof (rf_wf _ _ _ Href) as Hwf.
    pose proof (wf_next_u64 _ _ Hwf).
    destruct (apply_commit_eq key now req ch chain cur r Hwf Hc Hd) as (Hds & Hms & _ & ->).
    apply compare_and_apply_decide_commit in Hd as (_ & _ & _ & Hrec & Hvi & Hrep).
    apply record_apply_mutation_Ok_inv in Hrec as (_ & Ha' & Hch & _).
    apply refines_commit; [done..|].
    apply wf_channel_commit; try done; [by rewrite Hds|by rewrite Ha', Hch| |u64_lia..].
    intros c. rewrite Hms, Hc. by intros [= <-].
  - rewrite (rf_messages _ _ _ Href) in Hc.
    assert (versions_of (lg_log lc) (mreq_message_serial req) = []) as Hv
      by (by destruct (versions_of _ _)).
    unfold log_mutate. rewrite Hv. unfold log_receipt.
    destruct (mreq_idempotency req); simpl; by rewrite (insert_id a).
Qed.
End create_mutate.

(** ** Retention *)

Definition without_position lc (ds : Z) : LogChannel := {|
  lg_stream_id := lg_stream_id lc; lg_next := lg_next lc;
  lg_log := filter (λ x, delivery_serial x.1 ≠ ds) (lg_log lc);
|}.

Lemma versions_of_filter (P : StoredVersionRecord → Prop) `{!∀ x, Decision (P x)} log serial :
  versions_of (filter (λ x, P x.1) log) serial = filter P (versions_of log serial).
Proof.
  unfold versions_of. rewrite list_fmap_filter, !list_filter_filter.
  apply list_filter_ext. tauto.
Qed.

Lemma delete_log {B} (f : StoredVersionRecord * Z → B) log ds :
  delete ds (list_to_map ((λ x, (delivery_serial x.1, f x)) <$> log) : gmap Z B) =
  list_to_map ((λ x, (delivery_serial x.1, f x)) <$> filter (λ x, delivery_serial x.1 ≠ ds) log).
Proof.
  induction log as [|x log IH]; csimpl; [apply delete_empty|]. rewrite filter_cons.
  case_decide as Hx; csimpl.
  - by rewrite delete_insert_ne, IH.
  - subst ds. by rewrite delete_insert_eq.
Qed.

Lemma refine_purge_serial key ch lc ds :
  refines key ch lc → is_Some (vch_replay ch !! ds) →
  refines key (purge_serial ch ds).1 (without_position lc ds).
Proof.
  intros Href [r Hr]. pose proof (wf_purge_serial key ch ds (rf_wf _ _ _ Href)) as Hwf'.
  destruct (purge_serial_frame ch ds) as (Hsid & Hnx & Hrep & Hcr & _).
  destruct Href as [Hwf Hstream Hnext Hm Hnd Hreplay Hcreated].
  destruct (proj1 (wf_replay _ _ Hwf _ _) Hr) as (<- & c & Hc & Hin).
  split; simpl; try congruence.
  - intros serial.
    trans (chain_opt (filter (λ x, delivery_serial x ≠ delivery_serial r)
                        (versions_of (lg_log lc) serial))).
    2: { f_equal. symmetry. exact (versions_of_filter (λ x, delivery_serial x ≠ delivery_serial r) (lg_log lc) serial). }
    pose proof (Hm serial) as Hs.
    unfold purge_serial. rewrite Hr, Hc. simpl. rewrite chain_remove_eq, chain_of_entries.
    destruct (decide (serial = message_serial r)) as [->|Hne].
    + rewrite Hc in Hs. symmetry in Hs. apply chain_opt_Some in Hs as [_ ->].
      rewrite chain_of_entries in *.
      rewrite (list_filter_ext _ (λ x, delivery_serial x ≠ delivery_serial r)).
      * destruct (filter _ _) as [|x l]; [by rewrite lookup_delete_eq|by rewrite lookup_insert_eq].
      * intros x Hx. pose proof (purge_rest key ch r _ Hwf Hr Hc) as Hrest.
        rewrite chain_of_entries in Hrest. specialize (Hrest Hin x).
        rewrite list_elem_of_filter in Hrest. tauto.
    + transitivity (vch_messages ch !! serial).
      { destruct (filter _ _); [by rewrite lookup_delete_ne|by rewrite lookup_insert_ne]. }
      rewrite Hs, list_filter_all; [done|]. apply Forall_forall.
      intros x [Hx Hser]%elem_of_versions_of Hd. apply Hne. rewrite <-Hser. f_equal.
      rewrite Hreplay in Hr. assert ((delivery_serial x, x) ∈ (λ x, (delivery_serial x.1, x.1)) <$> lg_log lc) as Hx'.
      { apply list_elem_of_fmap in Hx as (y & -> & Hy). apply list_elem_of_fmap. by exists y. }
      apply elem_of_list_to_map_1 in Hx'; [|by rewrite positions_fst].
      unfold replay_of in Hr. rewrite <-Hd in Hr. congruence.
  - eapply sublist_NoDup; [exact Hnd|]. apply fmap_sublist, sublist_filter.
  - rewrite Hrep, Hreplay. apply delete_log.
  - rewrite Hcr, Hcreated. apply delete_log.
Qed.

Lemma refine_purge_serials key ch lc l ch' n :
  refines key ch lc → NoDup l → (∀ ds, ds ∈ l → is_Some (vch_replay ch !! ds)) →
  purge_serials ch l = (ch', n) →
  refines key ch' {| lg_stream_id := lg_stream_id lc; lg_next := lg_next lc;
                     lg_log := filter (λ x, delivery_serial x.1 ∉ l) (lg_log lc) |}.
Proof.
  intros Href Hnd. revert ch lc ch' n Href.
  induction Hnd as [|ds l Hnot Hnd IH]; intros ch lc ch' n Href Hl; simpl.
  { intros [= <- _]. rewrite list_filter_all; [by destruct lc|].
    apply Forall_forall. intros x _. apply not_elem_of_nil. }
  pose proof (refine_purge_serial key ch lc ds Href (Hl ds ltac:(left))) as Href1.
  destruct (purge_serial_frame ch ds) as (_ & _ & Hrep & _).
  destruct (purge_serial ch ds) as [ch1 n1]. simpl in *.
  destruct (purge_serials ch1 l) as [ch2 n2] eqn:Hp. intros [= <- _].
  eapply IH in Hp; [|exact Href1|].
  - simpl in Hp. rewrite list_filter_filter in Hp. erewrite list_filter_ext; [exact Hp|].
    intros x _. simpl. rewrite not_elem_of_cons. tauto.
  - intros d Hd. rewrite Hrep, lookup_delete_is_Some. split; [by intros ->|]. apply Hl. by right.
Qed.

Lemma scan_expired_take before_ms remaining taken log :
  (taken ≤ remaining)%Z →
  (scan_expired before_ms remaining taken ((λ x, (delivery_serial x.1, x.2)) <$> log)).1 =
  take (Z.to_nat (remaining - taken)) (take_expired before_ms log).
Proof.
  revert taken. induction log as [|[r t] log IH]; intros taken Ht; simpl; [by rewrite take_nil|].
  rewrite Z.geb_leb, (Z.ltb_antisym before_ms t). destruct (before_ms <=? t)%Z; simpl; [by rewrite take_nil|].
  rewrite Z.geb_leb. destruct (remaining <=? taken)%Z eqn:Hr.
  - apply Z.leb_le in Hr. by replace (Z.to_nat (remaining - taken)) with 0 by lia.
  - apply Z.leb_gt in Hr. specialize (IH (taken + 1)%Z).
    destruct (scan_expired _ _ _ _) as [l more]. simpl in *. rewrite IH by lia.
    by replace (Z.to_nat (remaining - taken)) with (S (Z.to_nat (remaining - (taken + 1)))) by lia.
Qed.

Lemma refine_purge_channel key ch lc before_ms remaining l more ch' n :
  refines key ch lc → (0 ≤ remaining)%Z →
  scan_expired before_ms remaining 0 (btree_list (vch_created_at ch)) = (l, more) →
  purge_serials ch l = (ch', n) →
  let gone := take (Z.to_nat remaining) (take_expired before_ms (by_position (lg_log lc))) in
  let log := filter (λ x, delivery_serial x.1 ∉ gone) (lg_log lc) in
  refines key ch' {| lg_stream_id := lg_stream_id lc; lg_next := lg_next lc; lg_log := log |} ∧
  n = Z.of_nat (length gone) ∧ (more || first_is_expired before_ms ch') = log_expired before_ms log.
Proof.
  intros Href Hrem Hscan Hpurge gone log.
  pose proof (purge_channel_spec key ch before_ms remaining l more ch' n (rf_wf _ _ _ Href)
    Hrem Hscan Hpurge) as (_ & _ & _ & _ & _ & _ & _ & Hexp).
  pose proof (btree_list_log snd (lg_log lc) (rf_nodup _ _ _ Href)) as Hbl.
  pose proof (scan_expired_take before_ms remaining 0 (by_position (lg_log lc)) Hrem) as Hl.
  rewrite <-Hbl in Hl. change (list_to_map _) with (created_of (lg_log lc)) in Hl.
  rewrite <-(rf_created _ _ _ Href), Hscan, Z.sub_0_r in Hl. simpl in Hl. fold gone in Hl. subst l.
  assert (NoDup gone ∧ ∀ ds, ds ∈ gone → is_Some (vch_replay ch !! ds)) as [Hnd Hin].
  { apply scan_expired_spec in Hscan as (pre & post & Hpp & Hgone & _); [|lia].
    pose proof (btree_list_NoDup_fst (vch_created_at ch)) as Hnd. rewrite Hpp, fmap_app in Hnd.
    rewrite Hgone. split; [by apply NoDup_app in Hnd as [? _]|].
    intros ds ([k t] & -> & Hk)%list_elem_of_fmap. apply elem_of_dom.
    rewrite <-(wf_created _ _ (rf_wf _ _ _ Href)). apply elem_of_dom. exists t.
    apply elem_of_btree_list. rewrite Hpp. apply elem_of_app. by left. }
  pose proof (refine_purge_serials key ch lc gone ch' n Href Hnd Hin Hpurge) as Href'.
  split; [done|]. split.
  - by apply purge_serials_spec in Hpurge as (_ & _ & -> & _).
  - rewrite Hexp, orb_diag, <-Hexp. unfold first_is_expired, log_expired.
    rewrite (rf_created _ _ _ Href'). unfold created_of. simpl. fold log.
    rewrite btree_list_log by exact (rf_nodup _ _ _ Href').
    by destruct (by_position log) as [|[? ?] ?].
Qed.

Definition entry_refines (x : string * MemoryVersionChannel) (y : string * LogChannel) : Prop :=
  x.1 = y.1 ∧ refines x.1 x.2 y.2.

(** Related stores iterate over related channels in the same order. *)
Lemma refines_btree_list s a :
  refines_store s a → Forall2 entry_refines (btree_list s) (btree_list a).
Proof.
  intros Hr.
  assert (∀ l, (∀ k ch, (k, ch) ∈ l → s !! k = Some ch) →
    let l' := omap (λ kc : string * MemoryVersionChannel, pair kc.1 <$> a !! kc.1) l in
    Forall2 entry_refines l l' ∧ l'.*1 = l.*1 ∧
    ∀ k lc, (k, lc) ∈ l' ↔ k ∈ l.*1 ∧ a !! k = Some lc) as Hl.
  { induction l as [|[k ch] l IH]; intros Hin; csimpl.
    { split_and!; [constructor|done|set_solver]. }
    pose proof (Hr k) as Hk. rewrite (Hin k ch) in Hk by left.
    destruct (a !! k) as [lc|] eqn:Ha; inversion Hk; subst. csimpl.
    destruct IH as (IH1 & IH2 & IH3); [set_solver|]. split_and!.
    - by constructor.
    - by rewrite IH2.
    - intros k' lc'. rewrite !elem_of_cons, IH3. naive_solver. }
  destruct (Hl (btree_list s)) as (H1 & H2 & H3); [by intros; apply elem_of_btree_list|].
  replace (btree_list a) with
    (omap (λ kc : string * MemoryVersionChannel, pair kc.1 <$> a !! kc.1) (btree_list s)); [done|].
  symmetry. apply btree_list_unique.
  - rewrite H2. apply btree_list_sorted.
  - intros k lc. rewrite H3. split; [naive_solver|]. intros Ha. split; [|done].
    pose proof (Hr k) as Hk. rewrite Ha in Hk. destruct (s !! k) as [ch|] eqn:Hs; [|inversion Hk].
    apply elem_of_btree_list in Hs. by apply (list_elem_of_fmap_2 fst) in Hs.
Qed.

Lemma refine_purge_channels before_ms batch deleted more chs lcs s a :
  Forall2 entry_refines chs lcs → refines_store s a → (0 ≤ deleted)%Z →
  refines_store (purge_channels before_ms batch deleted more chs s).1
    (log_purge_channels before_ms batch deleted more lcs a).1 ∧
  (purge_channels before_ms batch deleted more chs s).2 =
  (log_purge_channels before_ms batch deleted more lcs a).2.
Proof.
  intros Hl. revert deleted more s a.
  induction Hl as [|[k ch] [k' lc] chs lcs [Hk Href] _ IH]; intros deleted more s a Hr Hd; [done|].
  simpl in Hk, Href. subst k'. simpl.
  destruct (u64_saturating_sub batch deleted =? 0)%Z eqn:Hrem.
  { rewrite Z.geb_leb, (proj2 (Z.leb_le _ _)); [done|u64_lia]. }
  rewrite Z.geb_leb, (proj2 (Z.leb_gt _ _)) by u64_lia.
  destruct (scan_expired _ _ _ _) as [l more1] eqn:Hscan.
  destruct (purge_serials ch l) as [ch' n] eqn:Hpurge.
  destruct (refine_purge_channel k ch lc before_ms (u64_saturating_sub batch deleted) l more1 ch' n
    Href ltac:(u64_lia) Hscan Hpurge) as (Href' & -> & Hmore).
  assert (u64_saturating_sub batch deleted = batch - deleted)%Z as Hb by u64_lia.
  rewrite Hb in *. rewrite <-orb_assoc, Hmore. apply IH; [|lia]. by apply refines_insert.
Qed.

Lemma refine_purge before_ms batch s a :
  refines_store s a →
  refines_store (purge_before before_ms batch s).1 (log_purge before_ms batch a).1 ∧
  (purge_before before_ms batch s).2 = (log_purge before_ms batch a).2.
Proof.
  intros Hr. unfold purge_before, log_purge. destruct (batch =? 0)%Z; [done|].
  destruct (refine_purge_channels before_ms batch 0 false (btree_list s) (btree_list a) s a
    (refines_btree_list s a Hr) Hr ltac:(lia)) as [H1 H2].
  destruct (purge_channels _ _ _ _ _ _), (log_purge_channels _ _ _ _ _ _). simpl in *. by subst.
Qed.

(** ** Reads *)

Definition log_get_latest (app_id channel serial : string) a : option StoredVersionRecord :=
  a !! channel_key app_id channel ≫= λ lc, scan_latest (versions_of (lg_log lc) serial).

Definition log_get_versions (req : VersionStoreReadRequest) a : result Error VersionStorePage :=
  let? _ := read_request_validate req in
  match a !! channel_key (vread_app_id req) (vread_channel req) with
  | None => Ok empty_page
  | Some lc =>
      match versions_of (lg_log lc) (vread_message_serial req) with
      | [] => Ok empty_page
      | versions => Ok (chain_page req versions)
      end
  end.

Definition log_replay (req : VersionReplayRequest) a : result Error (list StoredVersionRecord) :=
  let? _ := replay_request_validate req in
  match a !! channel_key (vreplay_app_id req) (vreplay_channel req) with
  | None => Ok []
  | Some lc =>
      let from := u64_saturating_add (vreplay_after_delivery_serial req) 1 in
      let stored := take (Z.to_nat (vreplay_limit req))
        (filter (λ r, from ≤ delivery_serial r)%Z (by_position (lg_log lc)).*1) in
      let? _ := validate_replay_continuity (r_message <$> stored)
                  (vreplay_after_delivery_serial req) in
      Ok stored
  end.

Definition log_stream_state (app_id channel : string) a : VersionStreamState :=
  match a !! channel_key app_id channel with
  | None => {| vss_stream_id := None; vss_next_delivery_serial := None;
               vss_oldest_available_delivery_serial := None;
               vss_newest_available_delivery_serial := None |}
  | Some lc => {| vss_stream_id := Some (lg_stream_id lc);
                  vss_next_delivery_serial := Some (lg_next lc);
                  vss_oldest_available_delivery_serial := head (positions (by_position (lg_log lc)));
                  vss_newest_available_delivery_serial := last (positions (by_position (lg_log lc))) |}
  end.

Lemma refine_get_latest app_id channel serial s a :
  refines_store s a → get_latest app_id channel serial s = Ok (log_get_latest app_id channel serial a).
Proof.
  intros Hr. unfold get_latest, log_get_latest. pose proof (Hr (channel_key app_id channel)) as Hk.
  destruct (s !! _) as [ch|], (a !! _) as [lc|]; inversion Hk as [?? Href|]; subst; simpl; [|done].
  rewrite (rf_messages _ _ _ Href).
  destruct (versions_of (lg_log lc) serial) as [|r l] eqn:Hv; [done|].
  change (chain_opt (r :: l)) with (Some (chain_of (r :: l))). cbv beta iota.
  by rewrite chain_latest_scan.
Qed.

Lemma refine_get_versions req s a :
  refines_store s a → get_versions req s = log_get_versions req a.
Proof.
  intros Hr. unfold get_versions, log_get_versions. destruct (read_request_validate req); [simpl|done].
  pose proof (Hr (channel_key (vread_app_id req) (vread_channel req))) as Hk.
  destruct (s !! _) as [ch|], (a !! _) as [lc|]; inversion Hk as [?? Href|]; subst; simpl; [|done].
  rewrite (rf_messages _ _ _ Href).
  destruct (versions_of (lg_log lc) _) as [|r l]; [done|].
  change (chain_opt (r :: l)) with (Some (chain_of (r :: l))). cbv beta iota.
  by rewrite chain_of_entries.
Qed.

Lemma refine_replay req s a :
  refines_store s a → replay_after req s = log_replay req a.
Proof.
  intros Hr. unfold replay_after, log_replay. destruct (replay_request_validate req); [simpl|done].
  pose proof (Hr (channel_key (vreplay_app_id req) (vreplay_channel req))) as Hk.
  destruct (s !! _) as [ch|], (a !! _) as [lc|]; inversion Hk as [?? Href|]; subst; simpl; [|done].
  set (from := u64_saturating_add _ 1).
  assert ((btree_range from (vch_replay ch)).*2 =
    filter (λ r, from ≤ delivery_serial r)%Z (by_position (lg_log lc)).*1) as ->; [|done].
  unfold btree_range. rewrite (rf_replay _ _ _ Href). unfold replay_of.
  rewrite (btree_list_log fst) by exact (rf_nodup _ _ _ Href).
  generalize (by_position (lg_log lc)). intros l. induction l as [|x l IH]; [done|]. csimpl.
  rewrite !filter_cons. repeat case_decide; csimpl;
    [by f_equal|unfold key_le in *; simpl in *; lia..|done].
Qed.

Lemma refine_stream_state app_id channel s a :
  refines_store s a → stream_state app_id channel s = Ok (log_stream_state app_id channel a).
Proof.
  intros Hr. unfold stream_state, log_stream_state.
  pose proof (Hr (channel_key app_id channel)) as Hk.
  destruct (s !! _) as [ch|], (a !! _) as [lc|]; inversion Hk as [?? Href|]; subst; simpl; [|done].
  rewrite (rf_stream _ _ _ Href), (rf_next _ _ _ Href), (rf_replay _ _ _ Href).
  unfold replay_of. rewrite (btree_list_log fst) by exact (rf_nodup _ _ _ Href).
  by rewrite positions_fst.
Qed.

(** ** Traces *)

(** What a client of the store does, and what it sees. *)
Inductive Event : Type :=
| Write (op : StoreOp)
| ReadLatest (app_id channel serial : string)
| ReadVersions (req : VersionStoreReadRequest)
| ReadReplay (req : VersionReplayRequest)
| ReadState (app_id channel : string).

Inductive Observation : Type :=
| SawStream (r : result Error string)
| SawReservation (r : result Error VersionWriteReservation)
| SawBlock (r : result Error VersionWriteReservationBlock)
| SawAppend (r : result Error unit)
| SawCreate (r : result Error VersionCreateResult)
| SawMutation (r : result Error VersionMutationResult)
| SawPurge (r : result Error (Z * bool))
| SawLatest (r : result Error (option StoredVersionRecord))
| SawVersions (r : result Error VersionStorePage)
| SawReplay (r : result Error (list StoredVersionRecord))
| SawState (r : result Error VersionStreamState).

Definition event_typed (e : Event) : Prop :=
  match e with
  | Write op => op_typed op
  | _ => True
  end.

(** The log store's reservations. *)
Definition log_reserve (fresh app_id channel : string) a
    : LogStore * result Error VersionWriteReservation :=
  on_log fresh (channel_key app_id channel) (λ lc,
    (log_set_next lc (u64_saturating_add (lg_next lc) 1),
     Ok {| res_stream_id := lg_stream_id lc; res_delivery_serial := lg_next lc |})) a.

Definition log_reserve_block (fresh app_id channel : string) (block_size : Z) a
    : LogStore * result Error VersionWriteReservationBlock :=
  match block_validate block_size with
  | Err e => (a, Err e)
  | Ok _ =>
      on_log fresh (channel_key app_id channel) (λ lc,
        (log_set_next lc (u64_saturating_add (lg_next lc) block_size),
         Ok {| blk_stream_id := lg_stream_id lc; blk_start_delivery_serial := lg_next lc;
               blk_len := block_size |})) a
  end.

Section traces.
Context `{SonicRs}.

(** Pairs the state an operation leaves with what the client sees of it. *)
Definition observed {S R} (f : R → Observation) (x : S * R) : S * Observation := (x.1, f x.2).

Definition store_step (e : Event) s : MemoryVersionStore * Observation :=
  match e with
  | Write (OpEnsure fresh app_id channel) =>
      observed SawStream (ensure_stream_id fresh app_id channel s)
  | Write (OpReserve fresh app_id channel) =>
      observed SawReservation (reserve_delivery_position fresh app_id channel s)
  | Write (OpReserveBlock fresh app_id channel n) =>
      observed SawBlock (reserve_delivery_positions fresh app_id channel n s)
  | Write (OpAppend fresh now record) => observed SawAppend (append_version fresh now record s)
  | Write (OpCreate fresh now req) => observed SawCreate (commit_create fresh now req s)
  | Write (OpMutate now req) => observed SawMutation (compare_and_apply now req s)
  | Write (OpPurge before_ms n) => observed SawPurge (purge_before before_ms n s)
  | ReadLatest app_id channel serial => (s, SawLatest (get_latest app_id channel serial s))
  | ReadVersions req => (s, SawVersions (get_versions req s))
  | ReadReplay req => (s, SawReplay (replay_after req s))
  | ReadState app_id channel => (s, SawState (stream_state app_id channel s))
  end.

Definition log_step (e : Event) a : LogStore * Observation :=
  match e with
  | Write (OpEnsure fresh app_id channel) =>
      observed SawStream
        (on_log fresh (channel_key app_id channel) (λ lc, (lc, Ok (lg_stream_id lc))) a)
  | Write (OpReserve fresh app_id channel) =>
      observed SawReservation (log_reserve fresh app_id channel a)
  | Write (OpReserveBlock fresh app_id channel n) =>
      observed SawBlock (log_reserve_block fresh app_id channel n a)
  | Write (OpAppend fresh now r) =>
      observed SawAppend
        (on_log fresh (channel_key (r_app_id r) (r_channel r)) (log_append now r) a)
  | Write (OpCreate fresh now req) =>
      observed SawCreate
        (on_log fresh (channel_key (r_app_id (creq_record req)) (r_channel (creq_record req)))
           (log_create now req) a)
  | Write (OpMutate now req) => observed SawMutation (log_store_mutate now req a)
  | Write (OpPurge before_ms n) => observed SawPurge (log_purge before_ms n a)
  | ReadLatest app_id channel serial =>
      (a, SawLatest (Ok (log_get_latest app_id channel serial a)))
  | ReadVersions req => (a, SawVersions (log_get_versions req a))
  | ReadReplay req => (a, SawReplay (log_replay req a))
  | ReadState app_id channel => (a, SawState (Ok (log_stream_state app_id channel a)))
  end.

(** The observations of a run. *)
Fixpoint trace {S} (step : Event → S → S * Observation) (events : list Event) (st : S)
    : list Observation :=
  match events with
  | [] => []
  | e :: events => let '(st', o) := step e st in o :: trace step events st'
  end.

Lemma refine_step e s a :
  refines_store s a → event_typed e →
  refines_store (store_step e s).1 (log_step e a).1 ∧ (store_step e s).2 = (log_step e a).2.
Proof.
  intros Hr He. destruct e as [op|app_id channel serial|req|req|app_id channel]; simpl.
  - destruct op as [f i c|f i c|f i c n|f now r|f now req|now req|b n]; simpl in *.
    + pose proof (refines_entry s a (channel_key i c) f Hr) as Href.
      split; [by apply refines_insert|]. by rewrite (rf_stream _ _ _ Href).
    + pose proof (refines_entry s a (channel_key i c) f Hr) as Href.
      pose proof (wf_next_u64 _ _ (rf_wf _ _ _ Href)).
      unfold on_log. rewrite <-(rf_next _ _ _ Href), <-(rf_stream _ _ _ Href). split; [|done].
      apply refines_insert, refines_next; [done|done|u64_lia..].
    + unfold reserve_delivery_positions, log_reserve_block.
      destruct (block_validate n); [|done].
      pose proof (refines_entry s a (channel_key i c) f Hr) as Href.
      pose proof (wf_next_u64 _ _ (rf_wf _ _ _ Href)).
      unfold on_log. rewrite <-(rf_next _ _ _ Href), <-(rf_stream _ _ _ Href). split; [|done].
      apply refines_insert, refines_next; [done|done|u64_lia..].
    + destruct (refine_append f now r s a Hr He) as [? ->]. done.
    + destruct (refine_create f now req s a Hr) as [? ->]. done.
    + destruct (refine_mutate now req s a Hr) as [? ->]. done.
    + destruct (refine_purge b n s a Hr) as [? ->]. done.
  - by rewrite (refine_get_latest app_id channel serial s a Hr).
  - by rewrite (refine_get_versions req s a Hr).
  - by rewrite (refine_replay req s a Hr).
  - by rewrite (refine_stream_state app_id channel s a Hr).
Qed.

(** C1: the in-memory version store implements its contract.  For every sequence of
    creates, mutations, imports, reservations, purges and reads, in any order, the
    indexed store shows its client exactly the observations (results and errors) of the
    plain commit log, in which latest versions, receipts, counters and replay order are
    recomputed by scans and mutations are decided by [apply_to]. *)
Theorem store_refines_log events :
  Forall event_typed events → trace store_step events ∅ = trace log_step events ∅.
Proof.
  assert (∀ s a, refines_store s a → Forall event_typed events →
    trace store_step events s = trace log_step events a) as Hsim.
  { induction events as [|e events IH]; intros s a Hr Ht; [done|]. simpl.
    apply Forall_cons in Ht as [He Ht].
    destruct (refine_step e s a Hr He) as [Hr' Ho].
    destruct (store_step e s) as [s' o], (log_step e a) as [a' o']. simpl in *. subst o'.
    f_equal. by apply IH. }
  apply Hsim, map_Forall2_empty.
Qed.
End traces.

(** A create, a mutation, its retry, a conflicting mutation, reads and a purge. *)
Definition sample_events : list Event :=
  [Write sample_create; Write (OpMutate 2000 sample_request);
   Write (OpMutate 2500 sample_request); Write (OpMutate 2600 sample_conflicting);
   ReadLatest "app" "chat" "msg-1"; ReadState "app" "chat"; Write (OpPurge 1500 10);
   ReadReplay {| vreplay_app_id := "app"; vreplay_channel := "chat";
                 vreplay_after_delivery_serial := 1; vreplay_limit := 10 |}].

Lemma store_refines_log_witness :
  trace (store_step (H := sample_sonic)) sample_events ∅ =
  trace (log_step (H := sample_sonic)) sample_events ∅.
Proof.
  apply (store_refines_log (H := sample_sonic) sample_events).
  repeat constructor; vm_compute; congruence.
Defined.
