(* ===== verification/HistoryTypes.v ===== *)
(** * Durable history: requests, pages and cursors

    [crates/sockudo-core/src/history/types.rs]: the types of the [HistoryStore] trait,
    the validation of read and purge requests and the encoding of cursors. *)

From Stdlib Require Import ZArith Lia Init.Byte.
From stdpp Require Import base gmap strings list pretty.
From S2P Require Import Prelude Errors.

Definition MAX_HISTORY_CURSOR_ENCODED_BYTES : Z := 16 * 1024.

Inductive HistoryDirection : Type :=
| NewestFirst
| OldestFirst.

#[export] Instance HistoryDirection_eq_dec : EqDecision HistoryDirection.
Proof. solve_decision. Defined.

Definition history_direction_as_str (d : HistoryDirection) : string :=
  match d with
  | NewestFirst => "newest_first"
  | OldestFirst => "oldest_first"
  end.

Record HistoryQueryBounds := {
  hb_start_serial : option Z;
  hb_end_serial : option Z;
  hb_start_time_ms : option Z;
  hb_end_time_ms : option Z;
}.

#[export] Instance HistoryQueryBounds_eq_dec : EqDecision HistoryQueryBounds.
Proof. solve_decision. Defined.

Record HistoryCursor := {
  hc_version : Z;
  hc_app_id : string;
  hc_channel : string;
  hc_stream_id : string;
  hc_serial : Z;
  hc_direction : HistoryDirection;
  hc_bounds : HistoryQueryBounds;
}.

Record HistoryWriteReservation := {
  hw_stream_id : string;
  hw_serial : Z;
}.

Record HistoryRetentionPolicy := {
  rp_retention_window_seconds : Z;
  rp_max_messages_per_channel : option Z;
  rp_max_bytes_per_channel : option Z;
}.

Record HistoryAppendRecord := {
  ha_app_id : string;
  ha_channel : string;
  ha_stream_id : string;
  ha_serial : Z;
  ha_published_at_ms : Z;
  ha_message_id : option string;
  ha_event_name : option string;
  ha_operation_kind : string;
  ha_payload_bytes : list byte;
  ha_retention : HistoryRetentionPolicy;
}.

Record HistoryItem := {
  hi_stream_id : string;
  hi_serial : Z;
  hi_published_at_ms : Z;
  hi_message_id : option string;
  hi_event_name : option string;
  hi_operation_kind : string;
  hi_payload_size_bytes : Z;
  hi_payload_bytes : list byte;
}.

Record HistoryReadRequest := {
  hr_app_id : string;
  hr_channel : string;
  hr_direction : HistoryDirection;
  hr_limit : Z;
  hr_cursor : option HistoryCursor;
  hr_bounds : HistoryQueryBounds;
}.

Record HistoryRetentionStats := {
  hs_stream_id : option string;
  hs_retained_messages : Z;
  hs_retained_bytes : Z;
  hs_oldest_serial : option Z;
  hs_newest_serial : option Z;
  hs_oldest_published_at_ms : option Z;
  hs_newest_published_at_ms : option Z;
}.

(** [HistoryRetentionStats::default()]. *)
Definition default_stats : HistoryRetentionStats := {|
  hs_stream_id := None; hs_retained_messages := 0; hs_retained_bytes := 0;
  hs_oldest_serial := None; hs_newest_serial := None;
  hs_oldest_published_at_ms := None; hs_newest_published_at_ms := None;
|}.

Record HistoryPage := {
  hp_items : list HistoryItem;
  hp_next_cursor : option HistoryCursor;
  hp_retained : HistoryRetentionStats;
  hp_has_more : bool;
  hp_complete : bool;
  hp_truncated_by_retention : bool;
}.

Inductive HistoryDurableState : Type :=
| Healthy
| Degraded
| ResetRequired.

Definition durable_state_as_str (d : HistoryDurableState) : string :=
  match d with
  | Healthy => "healthy"
  | Degraded => "degraded"
  | ResetRequired => "reset_required"
  end.

Definition recovery_allowed (d : HistoryDurableState) : bool :=
  match d with
  | Healthy => true
  | _ => false
  end.

Definition reset_required (d : HistoryDurableState) : bool :=
  match d with
  | ResetRequired => true
  | _ => false
  end.

Record HistoryStreamRuntimeState := {
  hst_app_id : string;
  hst_channel : string;
  hst_stream_id : option string;
  hst_durable_state : HistoryDurableState;
  hst_recovery_allowed : bool;
  hst_reset_required : bool;
  hst_reason : option string;
  hst_node_id : option string;
  hst_last_transition_at_ms : option Z;
  hst_authoritative_source : string;
  hst_observed_source : string;
}.

Definition runtime_state_healthy (app_id channel : string) (stream_id : option string)
    (source : string) : HistoryStreamRuntimeState := {|
  hst_app_id := app_id; hst_channel := channel; hst_stream_id := stream_id;
  hst_durable_state := Healthy; hst_recovery_allowed := true; hst_reset_required := false;
  hst_reason := None; hst_node_id := None; hst_last_transition_at_ms := None;
  hst_authoritative_source := source; hst_observed_source := source;
|}.

Record HistoryStreamInspection := {
  hin_app_id : string;
  hin_channel : string;
  hin_stream_id : option string;
  hin_next_serial : option Z;
  hin_retained : HistoryRetentionStats;
  hin_state : HistoryStreamRuntimeState;
}.

Inductive HistoryPurgeMode : Type :=
| PurgeAll
| PurgeBeforeSerial
| PurgeBeforeTimeMs.

Definition purge_mode_as_str (m : HistoryPurgeMode) : string :=
  match m with
  | PurgeAll => "all"
  | PurgeBeforeSerial => "before_serial"
  | PurgeBeforeTimeMs => "before_time_ms"
  end.

Record HistoryPurgeRequest := {
  hpr_mode : HistoryPurgeMode;
  hpr_before_serial : option Z;
  hpr_before_time_ms : option Z;
  hpr_reason : string;
  hpr_requested_by : option string;
}.

Definition is_some {A} (o : option A) : bool :=
  match o with
  | Some _ => true
  | None => false
  end.

Definition purge_request_validate (req : HistoryPurgeRequest) : result Error unit :=
  if str_is_empty (trim (hpr_reason req)) then
    Err (InvalidMessageFormat "Purge reason must not be empty")
  else
    match hpr_mode req with
    | PurgeAll =>
        if is_some (hpr_before_serial req) || is_some (hpr_before_time_ms req) then
          Err (InvalidMessageFormat "Purge mode 'all' does not accept bounds")
        else Ok tt
    | PurgeBeforeSerial =>
        if negb (is_some (hpr_before_serial req)) || is_some (hpr_before_time_ms req) then
          Err (InvalidMessageFormat "Purge mode 'before_serial' requires before_serial only")
        else Ok tt
    | PurgeBeforeTimeMs =>
        if negb (is_some (hpr_before_time_ms req)) || is_some (hpr_before_serial req) then
          Err (InvalidMessageFormat "Purge mode 'before_time_ms' requires before_time_ms only")
        else Ok tt
    end.

Record HistoryResetResult := {
  hrr_app_id : string;
  hrr_channel : string;
  hrr_previous_stream_id : option string;
  hrr_new_stream_id : string;
  hrr_purged_messages : Z;
  hrr_purged_bytes : Z;
  hrr_inspection : HistoryStreamInspection;
}.

Record HistoryPurgeResult := {
  hpu_app_id : string;
  hpu_channel : string;
  hpu_mode : HistoryPurgeMode;
  hpu_before_serial : option Z;
  hpu_before_time_ms : option Z;
  hpu_purged_messages : Z;
  hpu_purged_bytes : Z;
  hpu_inspection : HistoryStreamInspection;
}.

Record HistoryRuntimeStatus := {
  hru_enabled : bool;
  hru_backend : string;
  hru_state_authority : string;
  hru_degraded_channels : Z;
  hru_reset_required_channels : Z;
  hru_queue_depth : Z;
}.

Definition default_runtime_status : HistoryRuntimeStatus := {|
  hru_enabled := false; hru_backend := "disabled"; hru_state_authority := "disabled";
  hru_degraded_channels := 0; hru_reset_required_channels := 0; hru_queue_depth := 0;
|}.

(** [if let (Some(start), Some(end)) = .. && start > end]. *)
Definition inverted (start stop : option Z) : bool :=
  match start, stop with
  | Some a, Some b => (a >? b)%Z
  | _, _ => false
  end.

Definition history_read_validate (req : HistoryReadRequest) : result Error unit :=
  let bounds := hr_bounds req in
  ensure? negb (hr_limit req =? 0)%Z
    else (InvalidMessageFormat "History limit must be greater than 0") in
  ensure? negb (inverted (hb_start_serial bounds) (hb_end_serial bounds))
    else (InvalidMessageFormat "start_serial must be less than or equal to end_serial") in
  ensure? negb (inverted (hb_start_time_ms bounds) (hb_end_time_ms bounds))
    else (InvalidMessageFormat "start_time_ms must be less than or equal to end_time_ms") in
  match hr_cursor req with
  | None => Ok tt
  | Some cursor =>
      ensure? (hc_version cursor =? 1)%Z
        else (InvalidMessageFormat ("Unsupported history cursor version: "
               +:+ pretty (hc_version cursor))) in
      ensure? bool_decide (hc_app_id cursor = hr_app_id req)
        else (InvalidMessageFormat "History cursor app does not match the request") in
      ensure? bool_decide (hc_channel cursor = hr_channel req)
        else (InvalidMessageFormat "History cursor channel does not match the request") in
      ensure? bool_decide (hc_direction cursor = hr_direction req)
        else (InvalidMessageFormat "History cursor direction does not match the request") in
      ensure? bool_decide (hc_bounds cursor = hr_bounds req)
        else (InvalidMessageFormat "History cursor bounds do not match the request") in
      Ok tt
  end.

(** ** Cursor encoding *)

(** The libraries behind cursors: [sonic_rs] on cursors and the unpadded URL-safe
    base64 engine.  An error is its display text. *)
Class CursorCodec := {
  cursor_to_vec : HistoryCursor → result string (list byte);
  cursor_from_slice : list byte → result string HistoryCursor;
  base64_encode : list byte → string;
  base64_decode : string → result string (list byte);
}.

(** What the code relies on: decoding inverts encoding. *)
Class CursorCodecLaws `{CursorCodec} : Prop := {
  base64_round_trip bytes : base64_decode (base64_encode bytes) = Ok bytes;
  cursor_round_trip c bytes : cursor_to_vec c = Ok bytes → cursor_from_slice bytes = Ok c;
}.

Definition cursor_encode `{CursorCodec} (c : HistoryCursor) : result Error string :=
  match cursor_to_vec c with
  | Ok bytes => Ok (base64_encode bytes)
  | Err e => Err (Serialization ("Failed to encode history cursor: " +:+ e))
  end.

Definition cursor_decode `{CursorCodec} (encoded : string) : result Error HistoryCursor :=
  if (str_len encoded >? MAX_HISTORY_CURSOR_ENCODED_BYTES)%Z then
    Err (InvalidMessageFormat "History cursor exceeds 16 KiB")
  else
    match base64_decode encoded with
    | Err e => Err (InvalidMessageFormat ("Invalid history cursor: " +:+ e))
    | Ok bytes =>
        match cursor_from_slice bytes with
        | Err e => Err (InvalidMessageFormat ("Invalid history cursor: " +:+ e))
        | Ok cursor =>
            if negb (hc_version cursor =? 1)%Z then
              Err (InvalidMessageFormat ("Unsupported history cursor version: "
                     +:+ pretty (hc_version cursor)))
            else Ok cursor
        end
    end.
