(* ===== verification/HistoryStore.v ===== *)
(** * The in-memory history store

    [crates/sockudo-core/src/history/memory.rs] (and the disabled store of [store.rs]).
    Each operation runs under the store's write lock; [config] is the store's
    configuration, [now] the clock it reads and [fresh] the UUID it would draw. *)

From Stdlib Require Import ZArith Lia Init.Byte.
From stdpp Require Import base gmap strings list pretty.
From S2P Require Import Prelude Errors HistoryTypes.

Record MemoryHistoryStoreConfig := {
  mhc_retention_window_secs : Z;
  mhc_max_messages_per_channel : option Z;
  mhc_max_bytes_per_channel : option Z;
}.

Definition default_history_config : MemoryHistoryStoreConfig := {|
  mhc_retention_window_secs := 3600;
  mhc_max_messages_per_channel := None; mhc_max_bytes_per_channel := None;
|}.

Record MemoryHistoryChannel := {
  hch_stream_id : string;
  hch_next_serial : Z;
  hch_retained_bytes : Z;
  hch_records : list HistoryAppendRecord;
  hch_retention : option HistoryRetentionPolicy;
}.

Definition default_history_channel (fresh : string) : MemoryHistoryChannel := {|
  hch_stream_id := fresh; hch_next_serial := 1; hch_retained_bytes := 0;
  hch_records := []; hch_retention := None;
|}.

Notation MemoryHistoryStore := (gmap string MemoryHistoryChannel).

Implicit Types (config : MemoryHistoryStoreConfig) (ch : MemoryHistoryChannel)
  (s : MemoryHistoryStore) (r : HistoryAppendRecord).

Definition history_key (app_id channel : string) : string := app_id +:+ nul +:+ channel.

Definition default_retention config : HistoryRetentionPolicy := {|
  rp_retention_window_seconds := mhc_retention_window_secs config;
  rp_max_messages_per_channel := mhc_max_messages_per_channel config;
  rp_max_bytes_per_channel := mhc_max_bytes_per_channel config;
|}.

Definition payload_len r : Z := Z.of_nat (length (ha_payload_bytes r)).

(** ** Eviction *)

(** [now_ms().saturating_sub((retention_window_seconds * 1000) as i64)]: the product is
    a [u64] product. *)
Definition cutoff_ms (retention : HistoryRetentionPolicy) (now : Z) : Z :=
  i64_saturating_sub now (u64_as_i64 (u64_wrap (rp_retention_window_seconds retention * 1000))).

(** The three loops, on the records and the byte counter. *)
Fixpoint evict_expired (cutoff : Z) (records : list HistoryAppendRecord) (bytes : Z)
    : list HistoryAppendRecord * Z :=
  match records with
  | [] => ([], bytes)
  | front :: rest =>
      if (ha_published_at_ms front <? cutoff)%Z
      then evict_expired cutoff rest (u64_saturating_sub bytes (payload_len front))
      else (records, bytes)
  end.

Fixpoint evict_count (max_messages : Z) (records : list HistoryAppendRecord) (bytes : Z)
    : list HistoryAppendRecord * Z :=
  match records with
  | [] => ([], bytes)
  | front :: rest =>
      if (Z.of_nat (length records) >? max_messages)%Z
      then evict_count max_messages rest (u64_saturating_sub bytes (payload_len front))
      else (records, bytes)
  end.

Fixpoint evict_bytes (max_bytes : Z) (records : list HistoryAppendRecord) (bytes : Z)
    : list HistoryAppendRecord * Z :=
  if (bytes >? max_bytes)%Z then
    match records with
    | front :: rest => evict_bytes max_bytes rest (u64_saturating_sub bytes (payload_len front))
    | [] => ([], bytes)
    end
  else (records, bytes).

Definition evict_channel (retention : HistoryRetentionPolicy) (now : Z) ch
    : MemoryHistoryChannel :=
  let '(records, bytes) :=
    evict_expired (cutoff_ms retention now) (hch_records ch) (hch_retained_bytes ch) in
  let '(records, bytes) :=
    match rp_max_messages_per_channel retention with
    | Some max_messages => evict_count max_messages records bytes
    | None => (records, bytes)
    end in
  let '(records, bytes) :=
    match rp_max_bytes_per_channel retention with
    | Some max_bytes => evict_bytes max_bytes records bytes
    | None => (records, bytes)
    end in
  {| hch_stream_id := hch_stream_id ch; hch_next_serial := hch_next_serial ch;
     hch_retained_bytes := bytes; hch_records := records;
     hch_retention := hch_retention ch |}.

(** The channel's own policy, or the store's; the operations evict under it first. *)
Definition channel_retention config ch : HistoryRetentionPolicy :=
  default (default_retention config) (hch_retention ch).

Definition evict_now config (now : Z) ch : MemoryHistoryChannel :=
  evict_channel (channel_retention config ch) now ch.

Definition retained_from_channel ch : HistoryRetentionStats := {|
  hs_stream_id := Some (hch_stream_id ch);
  hs_retained_messages := Z.of_nat (length (hch_records ch));
  hs_retained_bytes := hch_retained_bytes ch;
  hs_oldest_serial := ha_serial <$> head (hch_records ch);
  hs_newest_serial := ha_serial <$> last (hch_records ch);
  hs_oldest_published_at_ms := ha_published_at_ms <$> head (hch_records ch);
  hs_newest_published_at_ms := ha_published_at_ms <$> last (hch_records ch);
|}.

Definition history_entry (fresh : string) s (key : string) : MemoryHistoryChannel :=
  default (default_history_channel fresh) (s !! key).

(** ** Writes *)

Definition reserve_publish_position (fresh app_id channel : string) s
    : MemoryHistoryStore * result Error HistoryWriteReservation :=
  let key := history_key app_id channel in
  let ch := history_entry fresh s key in
  (<[key := {| hch_stream_id := hch_stream_id ch;
               hch_next_serial := u64_saturating_add (hch_next_serial ch) 1;
               hch_retained_bytes := hch_retained_bytes ch;
               hch_records := hch_records ch; hch_retention := hch_retention ch |}]> s,
   Ok {| hw_stream_id := hch_stream_id ch; hw_serial := hch_next_serial ch |}).

(** The channel after [push_back], before eviction. *)
Definition push_record ch r : MemoryHistoryChannel := {|
  hch_stream_id := ha_stream_id r;
  hch_next_serial := Z.max (hch_next_serial ch) (u64_saturating_add (ha_serial r) 1);
  hch_retained_bytes := u64_saturating_add (hch_retained_bytes ch) (payload_len r);
  hch_records := hch_records ch ++ [r];
  hch_retention := Some (ha_retention r);
|}.

Definition history_append config (fresh : string) (now : Z) r s
    : MemoryHistoryStore * result Error unit :=
  let key := history_key (ha_app_id r) (ha_channel r) in
  let ch := history_entry fresh s key in
  (<[key := evict_now config now (push_record ch r)]> s, Ok tt).

(** ** Reads *)

Definition history_item r : HistoryItem := {|
  hi_stream_id := ha_stream_id r; hi_serial := ha_serial r;
  hi_published_at_ms := ha_published_at_ms r; hi_message_id := ha_message_id r;
  hi_event_name := ha_event_name r; hi_operation_kind := ha_operation_kind r;
  hi_payload_size_bytes := payload_len r; hi_payload_bytes := ha_payload_bytes r;
|}.

Definition is_none_or {A} (o : option A) (f : A → bool) : bool :=
  match o with
  | None => true
  | Some a => f a
  end.

Definition within_bounds (bounds : HistoryQueryBounds) r : bool :=
  is_none_or (hb_start_serial bounds) (λ start, (ha_serial r >=? start)%Z) &&
  is_none_or (hb_end_serial bounds) (λ stop, (ha_serial r <=? stop)%Z) &&
  is_none_or (hb_start_time_ms bounds) (λ start, (ha_published_at_ms r >=? start)%Z) &&
  is_none_or (hb_end_time_ms bounds) (λ stop, (ha_published_at_ms r <=? stop)%Z).

Definition past_cursor (req : HistoryReadRequest) r : bool :=
  is_none_or (hr_cursor req) (λ cursor,
    bool_decide (ha_stream_id r = hc_stream_id cursor) &&
    match hr_direction req with
    | NewestFirst => (ha_serial r <? hc_serial cursor)%Z
    | OldestFirst => (ha_serial r >? hc_serial cursor)%Z
    end).

Definition history_matcher (req : HistoryReadRequest) r : bool :=
  within_bounds (hr_bounds req) r && past_cursor req r.

Definition is_truncated_by_retention (bounds : HistoryQueryBounds)
    (retained : HistoryRetentionStats) : bool :=
  match hb_start_serial bounds, hs_oldest_serial retained with
  | Some start, Some oldest => (start <? oldest)%Z
  | _, _ => false
  end
  || match hb_start_time_ms bounds, hs_oldest_published_at_ms retained with
     | Some start, Some oldest => (start <? oldest)%Z
     | _, _ => false
     end
  || negb (is_some (hb_start_serial bounds)) && negb (is_some (hb_start_time_ms bounds)) &&
     match hs_oldest_serial retained with
     | Some oldest => (oldest >? 1)%Z
     | None => false
     end.

Definition in_direction {A} (d : HistoryDirection) (l : list A) : list A :=
  match d with
  | NewestFirst => reverse l
  | OldestFirst => l
  end.

(** The page of an evicted channel; [limit + 1] is [usize] arithmetic. *)
Definition history_page (req : HistoryReadRequest) ch : HistoryPage :=
  let retained := retained_from_channel ch in
  let collected := take (Z.to_nat (u64_wrap (hr_limit req + 1)))
    (filter (λ r, history_matcher req r = true)
       (in_direction (hr_direction req) (hch_records ch))) in
  let has_more := (Z.of_nat (length collected) >? hr_limit req)%Z in
  let items := history_item <$> take (Z.to_nat (hr_limit req)) collected in
  let truncated := is_truncated_by_retention (hr_bounds req) retained in {|
  hp_items := items;
  hp_next_cursor :=
    if has_more
    then (λ item, {| hc_version := 1; hc_app_id := hr_app_id req;
                     hc_channel := hr_channel req; hc_stream_id := hi_stream_id item;
                     hc_serial := hi_serial item; hc_direction := hr_direction req;
                     hc_bounds := hr_bounds req |}) <$> last items
    else None;
  hp_retained := retained;
  hp_has_more := has_more;
  hp_complete := negb has_more && negb truncated;
  hp_truncated_by_retention := truncated;
|}.

Definition empty_history_page : HistoryPage := {|
  hp_items := []; hp_next_cursor := None; hp_retained := default_stats;
  hp_has_more := false; hp_complete := true; hp_truncated_by_retention := false;
|}.

(** The checks of a cursor against the retained records. *)
Definition cursor_expired (req : HistoryReadRequest) ch : option Error :=
  match hr_cursor req with
  | None => None
  | Some cursor =>
      if bool_decide (hc_stream_id cursor ≠ hch_stream_id ch) then
        Some (InvalidMessageFormat "Expired history cursor: channel stream changed")
      else
        match hs_oldest_serial (retained_from_channel ch) with
        | Some oldest =>
            if (hc_serial cursor <? oldest)%Z then
              Some (InvalidMessageFormat
                "Expired history cursor: cursor points before retained history")
            else None
        | None => None
        end
  end.

Definition read_page config (now : Z) (req : HistoryReadRequest) s
    : MemoryHistoryStore * result Error HistoryPage :=
  match history_read_validate req with
  | Err e => (s, Err e)
  | Ok _ =>
      let key := history_key (hr_app_id req) (hr_channel req) in
      match s !! key with
      | None => (s, Ok empty_history_page)
      | Some ch =>
          let ch := evict_now config now ch in
          (<[key := ch]> s,
           match cursor_expired req ch with
           | Some e => Err e
           | None => Ok (history_page req ch)
           end)
      end
  end.

Definition channel_head config (now : Z) (app_id channel : string) s
    : MemoryHistoryStore * result Error HistoryRetentionStats :=
  let key := history_key app_id channel in
  match s !! key with
  | None => (s, Ok default_stats)
  | Some ch =>
      let ch := evict_now config now ch in
      (<[key := ch]> s, Ok (retained_from_channel ch))
  end.

Definition history_runtime_status : result Error HistoryRuntimeStatus :=
  Ok {| hru_enabled := true; hru_backend := "memory"; hru_state_authority := "in_memory";
        hru_degraded_channels := 0; hru_reset_required_channels := 0; hru_queue_depth := 0 |}.

Definition stream_runtime_state config (fresh : string) (now : Z) (app_id channel : string) s
    : MemoryHistoryStore * result Error HistoryStreamRuntimeState :=
  let key := history_key app_id channel in
  let ch := evict_now config now (history_entry fresh s key) in
  (<[key := ch]> s,
   Ok (runtime_state_healthy app_id channel (Some (hch_stream_id ch)) "in_memory")).

Definition inspect_channel (app_id channel : string) ch : HistoryStreamInspection := {|
  hin_app_id := app_id; hin_channel := channel;
  hin_stream_id := Some (hch_stream_id ch);
  hin_next_serial := Some (hch_next_serial ch);
  hin_retained := retained_from_channel ch;
  hin_state := runtime_state_healthy app_id channel (Some (hch_stream_id ch)) "in_memory";
|}.

Definition stream_inspection config (fresh : string) (now : Z) (app_id channel : string) s
    : MemoryHistoryStore * result Error HistoryStreamInspection :=
  let key := history_key app_id channel in
  let ch := evict_now config now (history_entry fresh s key) in
  (<[key := ch]> s, Ok (inspect_channel app_id channel ch)).

(** ** Administration *)

(** [fresh] is the id of a channel that does not exist yet, [new_id] the reset's id. *)
Definition reset_stream (fresh new_id app_id channel : string) s
    : MemoryHistoryStore * result Error HistoryResetResult :=
  let key := history_key app_id channel in
  let ch := history_entry fresh s key in
  let ch' := {| hch_stream_id := new_id; hch_next_serial := 1; hch_retained_bytes := 0;
                hch_records := []; hch_retention := hch_retention ch |} in
  (<[key := ch']> s,
   Ok {| hrr_app_id := app_id; hrr_channel := channel;
         hrr_previous_stream_id := Some (hch_stream_id ch);
         hrr_new_stream_id := new_id;
         hrr_purged_messages := Z.of_nat (length (hch_records ch));
         hrr_purged_bytes := hch_retained_bytes ch;
         hrr_inspection := inspect_channel app_id channel ch' |}).

(** [iter().map(len as u64).sum()]: a wrapping sum. *)
Definition sum_bytes (records : list HistoryAppendRecord) : Z :=
  foldl (λ acc r, u64_wrap (acc + payload_len r)) 0%Z records.

Definition purge_retained (req : HistoryPurgeRequest) (records : list HistoryAppendRecord)
    : list HistoryAppendRecord :=
  match hpr_mode req with
  | PurgeAll => []
  | PurgeBeforeSerial =>
      filter (λ r, default 0 (hpr_before_serial req) ≤ ha_serial r)%Z records
  | PurgeBeforeTimeMs =>
      filter (λ r, default 0 (hpr_before_time_ms req) ≤ ha_published_at_ms r)%Z records
  end.

Definition purge_stream (fresh app_id channel : string) (req : HistoryPurgeRequest) s
    : MemoryHistoryStore * result Error HistoryPurgeResult :=
  match purge_request_validate req with
  | Err e => (s, Err e)
  | Ok _ =>
      let key := history_key app_id channel in
      let ch := history_entry fresh s key in
      let records := purge_retained req (hch_records ch) in
      let ch' := {| hch_stream_id := hch_stream_id ch; hch_next_serial := hch_next_serial ch;
                    hch_retained_bytes := sum_bytes records; hch_records := records;
                    hch_retention := hch_retention ch |} in
      (<[key := ch']> s,
       Ok {| hpu_app_id := app_id; hpu_channel := channel; hpu_mode := hpr_mode req;
             hpu_before_serial := hpr_before_serial req;
             hpu_before_time_ms := hpr_before_time_ms req;
             hpu_purged_messages :=
               u64_saturating_sub (Z.of_nat (length (hch_records ch)))
                 (Z.of_nat (length records));
             hpu_purged_bytes := u64_saturating_sub (hch_retained_bytes ch) (sum_bytes records);
             hpu_inspection := inspect_channel app_id channel ch' |})
  end.

(** [HistoryStore::purge_before]'s default, which the memory store keeps. *)
Definition history_purge_before (before_ms batch_size : Z) : result Error (Z * bool) :=
  Ok (0%Z, false).

(** ** The disabled store *)

Definition noop_history_error : Error := Configuration "Durable history is not configured".

Definition noop_stream_runtime_state (app_id channel : string)
    : result Error HistoryStreamRuntimeState :=
  Ok {| hst_app_id := app_id; hst_channel := channel; hst_stream_id := None;
        hst_durable_state := ResetRequired; hst_recovery_allowed := false;
        hst_reset_required := true; hst_reason := Some "durable_history_disabled";
        hst_node_id := None; hst_last_transition_at_ms := None;
        hst_authoritative_source := "disabled"; hst_observed_source := "disabled" |}.

Definition noop_stream_inspection (app_id channel : string)
    : result Error HistoryStreamInspection :=
  let? state := noop_stream_runtime_state app_id channel in
  Ok {| hin_app_id := app_id; hin_channel := channel; hin_stream_id := None;
        hin_next_serial := None; hin_retained := default_stats; hin_state := state |}.
