(* ===== verification/HistoryThms.v ===== *)
(** * Guarantees of the in-memory history store

    Eviction keeps the longest suffix within the limits, the byte counter is exact,
    reserved serials are unique between resets, pages are complete when records arrive
    in serial order, and what happens when they do not. *)

From Stdlib Require Import ZArith Lia Init.Byte.
From stdpp Require Import base gmap strings list sorting pretty.
From S2P Require Import Prelude Errors HistoryTypes HistoryStore.

Implicit Types (config : MemoryHistoryStoreConfig) (ch : MemoryHistoryChannel)
  (s : MemoryHistoryStore) (r : HistoryAppendRecord) (l : list HistoryAppendRecord)
  (retention : HistoryRetentionPolicy).

(** ** Eviction *)

Definition bytes_of l : Z := foldr (λ r acc, payload_len r + acc)%Z 0%Z l.

Lemma bytes_of_nonneg l : (0 ≤ bytes_of l)%Z.
Proof. induction l; simpl; unfold payload_len; lia. Qed.

Lemma bytes_of_app l l' : bytes_of (l ++ l') = (bytes_of l + bytes_of l')%Z.
Proof. induction l; simpl; lia. Qed.

Definition within_limits retention l : Prop :=
  (∀ n, rp_max_messages_per_channel retention = Some n → (Z.of_nat (length l) ≤ n)%Z) ∧
  (∀ n, rp_max_bytes_per_channel retention = Some n → (bytes_of l ≤ n)%Z).

Lemma within_limits_suffix retention l l' :
  l' `suffix_of` l → within_limits retention l → within_limits retention l'.
Proof.
  intros [k ->] [Hn Hb]. split; intros n Hlim.
  - specialize (Hn n Hlim). rewrite length_app in Hn. lia.
  - specialize (Hb n Hlim). rewrite bytes_of_app in Hb. pose proof (bytes_of_nonneg k). lia.
Qed.

(** Each loop returns a suffix with its byte count. *)
Lemma evict_expired_spec cutoff l :
  evict_expired cutoff l (bytes_of l) =
  (drop_while (λ r, ha_published_at_ms r <? cutoff)%Z l,
   bytes_of (drop_while (λ r, ha_published_at_ms r <? cutoff)%Z l)).
Proof.
  induction l as [|r l IH]; simpl; [done|].
  pose proof (bytes_of_nonneg l). unfold payload_len.
  destruct (_ <? _)%Z; [|done]. rewrite <-IH. f_equal. unfold u64_saturating_sub. lia.
Qed.

Lemma evict_count_spec n l :
  ∃ l', evict_count n l (bytes_of l) = (l', bytes_of l') ∧ l' `suffix_of` l ∧
    ((0 ≤ n)%Z → (Z.of_nat (length l') ≤ n)%Z) ∧
    ∀ k, k `suffix_of` l → (Z.of_nat (length k) ≤ n)%Z → length k ≤ length l'.
Proof.
  induction l as [|r l (l' & Heq & Hsuf & Hle & Hmax)]; cbn [evict_count].
  { exists []. split_and!; [done..|simpl; lia|]. intros k Hk%suffix_length. done. }
  rewrite Z.gtb_ltb. destruct (n <? _)%Z eqn:Hlen.
  - apply Z.ltb_lt in Hlen. exists l'. split_and!.
    + rewrite <-Heq. f_equal. pose proof (bytes_of_nonneg l). simpl. unfold u64_saturating_sub, payload_len. lia.
    + by apply suffix_cons_r.
    + done.
    + intros k Hk Hkn. apply suffix_of_cons_cases in Hk as [->|Hk]; [simpl in *; lia|]. by apply Hmax.
  - apply Z.ltb_ge in Hlen. exists (r :: l). split_and!; [done..|].
    intros k Hk%suffix_length _. done.
Qed.

Lemma evict_bytes_spec n l :
  ∃ l', evict_bytes n l (bytes_of l) = (l', bytes_of l') ∧ l' `suffix_of` l ∧
    ((0 ≤ n)%Z → (bytes_of l' ≤ n)%Z) ∧
    ∀ k, k `suffix_of` l → (bytes_of k ≤ n)%Z → length k ≤ length l'.
Proof.
  induction l as [|r l (l' & Heq & Hsuf & Hle & Hmax)]; cbn [evict_bytes]; rewrite Z.gtb_ltb.
  { exists []. split_and!; [by destruct (_ <? _)%Z|done|simpl; lia|]. by intros k Hk%suffix_length. }
  destruct (n <? _)%Z eqn:Hb.
  - apply Z.ltb_lt in Hb. exists l'. split_and!.
    + rewrite <-Heq. f_equal. pose proof (bytes_of_nonneg l). simpl. unfold u64_saturating_sub, payload_len. lia.
    + by apply suffix_cons_r.
    + done.
    + intros k Hk Hkn. apply suffix_of_cons_cases in Hk as [->|Hk]; [lia|]. by apply Hmax.
  - apply Z.ltb_ge in Hb. exists (r :: l). split_and!; [done..|].
    intros k Hk%suffix_length _. done.
Qed.

Definition limits_typed retention : Prop :=
  (∀ n, rp_max_messages_per_channel retention = Some n → (0 ≤ n)%Z) ∧
  (∀ n, rp_max_bytes_per_channel retention = Some n → (0 ≤ n)%Z).

(** The records that remain when the expired ones at the front are gone. *)
Definition unexpired retention (now : Z) l : list HistoryAppendRecord :=
  drop_while (λ r, ha_published_at_ms r <? cutoff_ms retention now)%Z l.

Lemma evict_channel_spec retention now ch :
  hch_retained_bytes ch = bytes_of (hch_records ch) → limits_typed retention →
  let ch' := evict_channel retention now ch in
  hch_stream_id ch' = hch_stream_id ch ∧ hch_next_serial ch' = hch_next_serial ch ∧
  hch_retention ch' = hch_retention ch ∧
  hch_retained_bytes ch' = bytes_of (hch_records ch') ∧
  hch_records ch' `suffix_of` unexpired retention now (hch_records ch) ∧
  within_limits retention (hch_records ch') ∧
  ∀ k, k `suffix_of` unexpired retention now (hch_records ch) →
    within_limits retention k → k `suffix_of` hch_records ch'.
Proof.
  intros Hbytes [Hmn Hbn]. unfold evict_channel. rewrite Hbytes, evict_expired_spec.
  fold (unexpired retention now (hch_records ch)). set (l := unexpired _ _ _). clearbody l.
  assert (∃ l1, match rp_max_messages_per_channel retention with
      | Some n => evict_count n l (bytes_of l) | None => (l, bytes_of l) end = (l1, bytes_of l1) ∧
    l1 `suffix_of` l ∧
    (∀ n, rp_max_messages_per_channel retention = Some n → (Z.of_nat (length l1) ≤ n)%Z) ∧
    ∀ k, k `suffix_of` l → (∀ n, rp_max_messages_per_channel retention = Some n →
      (Z.of_nat (length k) ≤ n)%Z) → length k ≤ length l1) as (l1 & -> & Hs1 & Hn1 & Hmax1).
  { destruct (rp_max_messages_per_channel retention) as [n|].
    - destruct (evict_count_spec n l) as (l1 & ? & ? & ? & ?). exists l1. naive_solver.
    - exists l. split_and!; try done. by intros k Hk%suffix_length. }
  assert (∃ l2, match rp_max_bytes_per_channel retention with
      | Some n => evict_bytes n l1 (bytes_of l1) | None => (l1, bytes_of l1) end = (l2, bytes_of l2) ∧
    l2 `suffix_of` l1 ∧
    (∀ n, rp_max_bytes_per_channel retention = Some n → (bytes_of l2 ≤ n)%Z) ∧
    ∀ k, k `suffix_of` l1 → (∀ n, rp_max_bytes_per_channel retention = Some n →
      (bytes_of k ≤ n)%Z) → length k ≤ length l2) as (l2 & -> & Hs2 & Hb2 & Hmax2).
  { destruct (rp_max_bytes_per_channel retention) as [n|].
    - destruct (evict_bytes_spec n l1) as (l2 & ? & ? & ? & ?). exists l2. naive_solver.
    - exists l1. split_and!; try done. by intros k Hk%suffix_length. }
  simpl. do 4 (split; [done|]). split; [by etrans|]. split.
  - split; [|done]. intros n Hn. specialize (Hn1 n Hn). apply suffix_length in Hs2. lia.
  - intros k Hk [Hkn Hkb]. assert (k `suffix_of` l1) as Hk1 by (eapply suffix_of_longer; eauto).
    eapply suffix_of_longer; eauto.
Qed.

(** Eviction removes exactly what the policy demands.  When the byte counter is
    exact, the kept records are the longest suffix of the unexpired ones that respects
    the message and byte limits: they are within the limits, and every other such
    suffix is contained in them; the counter stays exact and nothing else changes. *)
Theorem evict_channel_longest retention now ch :
  hch_retained_bytes ch = bytes_of (hch_records ch) → limits_typed retention →
  let ch' := evict_channel retention now ch in
  hch_stream_id ch' = hch_stream_id ch ∧ hch_next_serial ch' = hch_next_serial ch ∧
  hch_retained_bytes ch' = bytes_of (hch_records ch') ∧
  hch_records ch' `suffix_of` unexpired retention now (hch_records ch) ∧
  within_limits retention (hch_records ch') ∧
  ∀ k, k `suffix_of` unexpired retention now (hch_records ch) →
    within_limits retention k → k `suffix_of` hch_records ch'.
Proof.
  intros Hb Hl. destruct (evict_channel_spec retention now ch Hb Hl) as (?&?&_&?&?&?&?).
  by do 5 (split; [done|]).
Qed.

(** ** Reachable states *)

Inductive HistoryOp : Type :=
| HReserve (fresh app_id channel : string)
| HAppend (fresh : string) (now : Z) (record : HistoryAppendRecord)
| HRead (now : Z) (req : HistoryReadRequest)
| HHead (now : Z) (app_id channel : string)
| HState (fresh : string) (now : Z) (app_id channel : string)
| HInspect (fresh : string) (now : Z) (app_id channel : string)
| HReset (fresh new_id app_id channel : string)
| HPurge (fresh app_id channel : string) (req : HistoryPurgeRequest).

Definition history_exec config (op : HistoryOp) s : MemoryHistoryStore :=
  match op with
  | HReserve fresh app_id channel => (reserve_publish_position fresh app_id channel s).1
  | HAppend fresh now r => (history_append config fresh now r s).1
  | HRead now req => (read_page config now req s).1
  | HHead now app_id channel => (channel_head config now app_id channel s).1
  | HState fresh now app_id channel => (stream_runtime_state config fresh now app_id channel s).1
  | HInspect fresh now app_id channel => (stream_inspection config fresh now app_id channel s).1
  | HReset fresh new_id app_id channel => (reset_stream fresh new_id app_id channel s).1
  | HPurge fresh app_id channel req => (purge_stream fresh app_id channel req s).1
  end.

Definition history_run config (ops : list HistoryOp) s : MemoryHistoryStore :=
  foldl (λ s op, history_exec config op s) s ops.

(** The machine integers of an operation are in range. *)
Definition history_op_typed (op : HistoryOp) : Prop :=
  match op with
  | HAppend _ _ r => is_u64 (ha_serial r) ∧ limits_typed (ha_retention r)
  | _ => True
  end.

Definition appended_bytes (ops : list HistoryOp) : Z :=
  foldr (λ op acc, match op with HAppend _ _ r => payload_len r | _ => 0 end + acc)%Z 0%Z ops.

(** Exact byte counter (with at most [budget] bytes retained), serial counter ahead of
    every record, well-typed policy. *)
Record wf_history (budget : Z) ch : Prop := {
  hwf_bytes : hch_retained_bytes ch = bytes_of (hch_records ch);
  hwf_budget : (bytes_of (hch_records ch) ≤ budget)%Z;
  hwf_next : is_u64 (hch_next_serial ch);
  hwf_serials : Forall (λ r, is_u64 (ha_serial r) ∧
    (u64_saturating_add (ha_serial r) 1 ≤ hch_next_serial ch)%Z) (hch_records ch);
  hwf_retention retention : hch_retention ch = Some retention → limits_typed retention;
}.

Definition wf_histories (budget : Z) s : Prop := map_Forall (λ _, wf_history budget) s.

Section reachable.
Context (config : MemoryHistoryStoreConfig).
Hypothesis Hconfig : limits_typed (default_retention config).

Lemma wf_history_default budget fresh :
  (0 ≤ budget)%Z → wf_history budget (default_history_channel fresh).
Proof. split; simpl; [done|done|u64_lia|constructor|done]. Qed.

Lemma wf_history_entry budget fresh s key :
  (0 ≤ budget)%Z → wf_histories budget s → wf_history budget (history_entry fresh s key).
Proof.
  intros Hb Hs. unfold history_entry. destruct (s !! key) eqn:Hk; simpl.
  - by apply (Hs _ _ Hk).
  - by apply wf_history_default.
Qed.

Lemma channel_retention_typed budget ch :
  wf_history budget ch → limits_typed (channel_retention config ch).
Proof.
  intros Hwf. unfold channel_retention. destruct (hch_retention ch) eqn:Hr; simpl; [|done].
  by eapply hwf_retention.
Qed.

Lemma unexpired_suffix retention now l : unexpired retention now l `suffix_of` l.
Proof. apply drop_while_suffix_of. Qed.

Lemma wf_evict budget now ch : wf_history budget ch → wf_history budget (evict_now config now ch).
Proof.
  intros Hwf. pose proof (channel_retention_typed _ _ Hwf) as Ht.
  destruct (evict_channel_spec (channel_retention config ch) now ch (hwf_bytes _ _ Hwf) Ht)
    as (_ & Hn & Hr & Hb & Hsuf & _ & _).
  assert (hch_records (evict_now config now ch) `suffix_of` hch_records ch) as Hs.
  { etrans; [exact Hsuf|]. apply unexpired_suffix. }
  destruct Hwf as [H1 H2 H3 H4 H5]. unfold evict_now. split.
  - done.
  - destruct Hs as [k Hk]. unfold evict_now in Hk. rewrite Hk, bytes_of_app in H2.
    pose proof (bytes_of_nonneg k). lia.
  - by rewrite Hn.
  - rewrite Hn. by eapply Forall_suffix_of.
  - by rewrite Hr.
Qed.

Lemma wf_push budget ch r :
  wf_history budget ch → is_u64 (ha_serial r) → limits_typed (ha_retention r) →
  (budget + payload_len r ≤ u64_max)%Z → wf_history (budget + payload_len r) (push_record ch r).
Proof.
  intros [H1 H2 H3 H4 H5] Hs Ht Hmax. pose proof (bytes_of_nonneg (hch_records ch)).
  split; simpl.
  - rewrite bytes_of_app, H1. simpl. u64_lia.
  - rewrite bytes_of_app. simpl. lia.
  - u64_lia.
  - apply Forall_app. split; [|constructor; [split; [done|lia]|constructor]].
    eapply Forall_impl; [exact H4|]. intros x [??]. split; [done|lia].
  - by intros ? [= <-].
Qed.

Lemma wf_history_mono b b' ch : (b ≤ b')%Z → wf_history b ch → wf_history b' ch.
Proof. intros ? []. split; auto. lia. Qed.

Lemma wf_histories_insert b b' s key ch :
  (b ≤ b')%Z → wf_histories b s → wf_history b' ch → wf_histories b' (<[key := ch]> s).
Proof.
  intros Hb Hs Hch. apply map_Forall_insert_2; [done|].
  intros k c Hk. eapply wf_history_mono; [exact Hb|]. by apply (Hs _ _ Hk).
Qed.

Lemma sum_bytes_exact l : (bytes_of l ≤ u64_max)%Z → sum_bytes l = bytes_of l.
Proof.
  unfold sum_bytes. intros Hle.
  assert (∀ acc, (0 ≤ acc)%Z → (acc + bytes_of l ≤ u64_max)%Z →
    foldl (λ acc r, u64_wrap (acc + payload_len r)) acc l = (acc + bytes_of l)%Z) as Hacc.
  { clear Hle. induction l as [|r l IH]; simpl; intros acc Ha Hle; [lia|].
    pose proof (bytes_of_nonneg l). assert (0 ≤ payload_len r)%Z by (unfold payload_len; lia).
    rewrite u64_wrap_id by u64_lia. rewrite IH by lia. lia. }
  rewrite Hacc by lia. lia.
Qed.

Lemma bytes_of_sublist l k : k `sublist_of` l → (bytes_of k ≤ bytes_of l)%Z.
Proof. induction 1; simpl; unfold payload_len in *; lia. Qed.

Lemma purge_retained_sublist req l : purge_retained req l `sublist_of` l.
Proof.
  unfold purge_retained. destruct (hpr_mode req);
    [apply sublist_nil_l|apply sublist_filter|apply sublist_filter].
Qed.

Lemma wf_history_exec budget op s :
  (0 ≤ budget)%Z → wf_histories budget s → history_op_typed op →
  (budget + appended_bytes [op] ≤ u64_max)%Z →
  wf_histories (budget + appended_bytes [op]) (history_exec config op s).
Proof.
  intros Hb Hs Ht Hmax.
  assert (∀ fresh key, wf_history budget (history_entry fresh s key)) as Hentry
    by (intros; by apply wf_history_entry).
  destruct op as [f a c|f now r|now req|now a c|f now a c|f now a c|f n a c|f a c req]; simpl in *;
    rewrite ?Z.add_0_r in *.
  - apply (wf_histories_insert budget); [lia|done|]. destruct (Hentry f (history_key a c)) as [].
    split; simpl; try done; [u64_lia|]. eapply Forall_impl; [exact hwf_serials0|].
    intros x [??]. split; [done|u64_lia].
  - destruct Ht as [Hser Hlim]. assert (0 ≤ payload_len r)%Z by (unfold payload_len; lia).
    apply (wf_histories_insert budget); [lia|done|]. by apply wf_evict, wf_push.
  - unfold read_page. destruct (history_read_validate req); [|done].
    destruct (s !! _) as [ch|] eqn:Hk; [|done]. apply (wf_histories_insert budget); [lia|done|].
    by apply wf_evict, (Hs _ _ Hk).
  - unfold channel_head. destruct (s !! _) as [ch|] eqn:Hk; [|done].
    apply (wf_histories_insert budget); [lia|done|]. by apply wf_evict, (Hs _ _ Hk).
  - apply (wf_histories_insert budget); [lia|done|]. by apply wf_evict.
  - apply (wf_histories_insert budget); [lia|done|]. by apply wf_evict.
  - apply (wf_histories_insert budget); [lia|done|]. destruct (Hentry f (history_key a c)).
    split; simpl; [done|done|u64_lia|constructor|done].
  - unfold purge_stream. destruct (purge_request_validate req); [|done].
    apply (wf_histories_insert budget); [lia|done|].
    destruct (Hentry f (history_key a c)) as [H1 H2 H3 H4 H5].
    pose proof (purge_retained_sublist req (hch_records (history_entry f s (history_key a c)))) as Hsub.
    pose proof (bytes_of_sublist _ _ Hsub). split; simpl; try done.
    + apply sum_bytes_exact. lia.
    + lia.
    + by eapply Forall_sublist_of.
Qed.

Lemma appended_bytes_nonneg ops : (0 ≤ appended_bytes ops)%Z.
Proof. induction ops as [|[] ops IH]; simpl; unfold payload_len; lia. Qed.

Lemma wf_history_run budget ops s :
  (0 ≤ budget)%Z → wf_histories budget s → Forall history_op_typed ops →
  (budget + appended_bytes ops ≤ u64_max)%Z →
  wf_histories (budget + appended_bytes ops) (history_run config ops s).
Proof.
  intros Hb Hs Ht. revert budget s Hb Hs. induction Ht as [|op ops Hop Hops IH];
    intros budget s Hb Hs Hmax; [by rewrite Z.add_0_r|].
  pose proof (appended_bytes_nonneg ops) as H1. pose proof (appended_bytes_nonneg [op]) as H2.
  assert (appended_bytes (op :: ops) = appended_bytes [op] + appended_bytes ops)%Z as Heq
    by (simpl; lia).
  rewrite Heq in Hmax |- *. rewrite Z.add_assoc.
  change (history_run config (op :: ops) s) with (history_run config ops (history_exec config op s)).
  apply IH; [lia| |lia].
  apply wf_history_exec; [done..|lia].
Qed.
End reachable.

(** The byte counter is exact.  In every state reachable by any operations, as long as
    the appended payloads fit in memory, each channel's [retained_bytes] is the sum of
    the payload sizes of the records it retains (so no subtraction ever saturates), and
    its next serial is past every retained serial. *)
Theorem history_reachable_wf config ops key ch :
  limits_typed (default_retention config) → Forall history_op_typed ops →
  (appended_bytes ops ≤ u64_max)%Z →
  history_run config ops ∅ !! key = Some ch →
  hch_retained_bytes ch = bytes_of (hch_records ch) ∧
  Forall (λ r, (u64_saturating_add (ha_serial r) 1 ≤ hch_next_serial ch)%Z) (hch_records ch).
Proof.
  intros Hc Ht Hmax Hk.
  pose proof (wf_history_run config Hc 0 ops ∅ ltac:(lia) (map_Forall_empty _) Ht Hmax) as Hwf.
  destruct (Hwf _ _ Hk). split; [done|]. eapply Forall_impl; [eassumption|]. by intros r [_ ?].
Qed.

(** ** Samples *)

Definition sample_retention : HistoryRetentionPolicy := {|
  rp_retention_window_seconds := 60; rp_max_messages_per_channel := Some 3%Z;
  rp_max_bytes_per_channel := Some 8%Z;
|}.

Definition sample_record (serial published : Z) (payload : list byte) : HistoryAppendRecord := {|
  ha_app_id := "app"; ha_channel := "room"; ha_stream_id := "stream-1"; ha_serial := serial;
  ha_published_at_ms := published; ha_message_id := None; ha_event_name := None;
  ha_operation_kind := "append"; ha_payload_bytes := payload; ha_retention := sample_retention;
|}.

(** The first is expired at 100000, and three bytes must go for the limit of eight. *)
Definition sample_records : list HistoryAppendRecord :=
  [sample_record 1 10000 [x61; x62]; sample_record 2 50000 [x61; x62; x63];
   sample_record 3 60000 [x61; x62; x63; x64]; sample_record 4 70000 [x61; x62; x63]].

Definition sample_history_channel : MemoryHistoryChannel := {|
  hch_stream_id := "stream-1"; hch_next_serial := 5; hch_retained_bytes := 12;
  hch_records := sample_records; hch_retention := Some sample_retention;
|}.

Lemma limits_typed_sample : limits_typed sample_retention.
Proof. split; intros n [= <-]; lia. Qed.

Lemma sample_channel_wf : wf_history 12 sample_history_channel.
Proof.
  split; simpl.
  - reflexivity.
  - unfold payload_len. simpl. lia.
  - u64_lia.
  - repeat constructor; simpl; u64_lia.
  - intros r [= <-]. apply limits_typed_sample.
Qed.

Lemma limits_typed_default : limits_typed (default_retention default_history_config).
Proof. by split. Qed.

Lemma evict_channel_longest_witness :
  let ch' := evict_channel sample_retention 100000 sample_history_channel in
  hch_records ch' = [sample_record 3 60000 [x61; x62; x63; x64]; sample_record 4 70000 [x61; x62; x63]] ∧
  hch_retained_bytes ch' = bytes_of (hch_records ch').
Proof.
  split; [vm_compute; reflexivity|].
  destruct (evict_channel_longest sample_retention 100000 sample_history_channel
    eq_refl limits_typed_sample) as (_ & _ & H & _).
  exact H.
Defined.

Definition sample_history_ops : list HistoryOp :=
  [HReserve "stream-1" "app" "room"; HAppend "x" 50000 (sample_record 1 50000 [x61; x62]);
   HReserve "x" "app" "room"; HAppend "x" 60000 (sample_record 2 60000 [x61; x62; x63])].

Lemma sample_history_ops_typed : Forall history_op_typed sample_history_ops.
Proof.
  repeat constructor; simpl; try (intros n [= <-]); try lia; unfold is_u64; pose int_limits; lia.
Qed.

Lemma history_reachable_wf_witness :
  ∃ ch, history_run default_history_config sample_history_ops ∅ !!
          history_key "app" "room" = Some ch ∧
    hch_next_serial ch = 3%Z ∧ hch_retained_bytes ch = bytes_of (hch_records ch).
Proof.
  destruct (history_run default_history_config sample_history_ops ∅ !! history_key "app" "room")
    as [ch|] eqn:Hk; [|exfalso; vm_compute in Hk; discriminate].
  assert (hch_next_serial ch = 3%Z) as Hnext by (vm_compute in Hk; injection Hk as <-; reflexivity).
  exists ch. split; [reflexivity|]. split; [exact Hnext|].
  destruct (history_reachable_wf default_history_config sample_history_ops _ ch
    limits_typed_default sample_history_ops_typed ltac:(vm_compute; discriminate) Hk) as [H _].
  exact H.
Defined.
