(* ===== verification/HistoryPages.v ===== *)
(** * Reading the history page by page

    A client that follows the cursors of [read_page]: when records arrived in serial
    order it sees every matching record exactly once; when two publishers append out of
    order it can miss one. *)

From Stdlib Require Import ZArith Lia Init.Byte.
From stdpp Require Import base gmap strings list sorting pretty.
From S2P Require Import Prelude Errors HistoryTypes HistoryStore HistoryThms.

Implicit Types (config : MemoryHistoryStoreConfig) (ch : MemoryHistoryChannel)
  (s : MemoryHistoryStore) (r : HistoryAppendRecord) (l : list HistoryAppendRecord)
  (req : HistoryReadRequest).

Definition with_history_cursor req (cursor : option HistoryCursor) : HistoryReadRequest := {|
  hr_app_id := hr_app_id req; hr_channel := hr_channel req; hr_direction := hr_direction req;
  hr_limit := hr_limit req; hr_cursor := cursor; hr_bounds := hr_bounds req;
|}.

(** The reading client; every read evicts, so the store is threaded through. *)
Fixpoint history_reader config (now : Z) req (fuel : nat) (cursor : option HistoryCursor) s
    : MemoryHistoryStore * option (result Error (list HistoryItem)) :=
  match fuel with
  | O => (s, None)
  | S fuel =>
      let '(s, out) := read_page config now (with_history_cursor req cursor) s in
      match out with
      | Err e => (s, Some (Err e))
      | Ok page =>
          match hp_next_cursor page with
          | None => (s, Some (Ok (hp_items page)))
          | Some next =>
              let '(s, rest) := history_reader config now req fuel (Some next) s in
              (s, rmap (app (hp_items page)) <$> rest)
          end
      end
  end.

(** The records a request asks for, in its direction. *)
Definition requested req ch : list HistoryAppendRecord :=
  filter (λ r, within_bounds (hr_bounds req) r = true)
    (in_direction (hr_direction req) (hch_records ch)).

Definition serial_lt (d : HistoryDirection) r1 r2 : Prop :=
  match d with
  | OldestFirst => (ha_serial r1 < ha_serial r2)%Z
  | NewestFirst => (ha_serial r2 < ha_serial r1)%Z
  end.

(** Records of the channel's stream in serial order. *)
Definition in_serial_order ch : Prop :=
  StronglySorted (serial_lt OldestFirst) (hch_records ch) ∧
  Forall (λ r, ha_stream_id r = hch_stream_id ch) (hch_records ch).

Definition serial_lt_b (d : HistoryDirection) r1 r2 : bool :=
  match d with
  | OldestFirst => (ha_serial r1 <? ha_serial r2)%Z
  | NewestFirst => (ha_serial r2 <? ha_serial r1)%Z
  end.

Lemma serial_lt_asym d r1 r2 : serial_lt d r1 r2 → ¬ serial_lt d r2 r1.
Proof. destruct d; simpl; lia. Qed.

Lemma requested_sorted req ch :
  in_serial_order ch → StronglySorted (serial_lt (hr_direction req)) (requested req ch).
Proof.
  intros [Hs _]. apply StronglySorted_filter. destruct (hr_direction req); [|done].
  by apply StronglySorted_reverse_flip in Hs.
Qed.

Lemma elem_of_requested req ch r :
  r ∈ requested req ch → r ∈ hch_records ch.
Proof.
  intros [_ Hr]%list_elem_of_filter. destruct (hr_direction req); [|done].
  by apply elem_of_reverse.
Qed.

(** ** Pages of a settled channel *)

Section settled.
Context (req : HistoryReadRequest) (ch : MemoryHistoryChannel).
Hypothesis Hlimit : (0 < hr_limit req < u64_max)%Z.
Hypothesis Hvalid : history_read_validate (with_history_cursor req None) = Ok tt.
Hypothesis Horder : in_serial_order ch.

Definition page_of (cursor : option HistoryCursor)
    : result Error (list HistoryItem * option HistoryCursor) :=
  let req := with_history_cursor req cursor in
  let? _ := history_read_validate req in
  match cursor_expired req ch with
  | Some e => Err e
  | None => Ok (hp_items (history_page req ch), hp_next_cursor (history_page req ch))
  end.

(** A cursor the store issues for the record [x]. *)
Definition cursor_at (c : HistoryCursor) (x : HistoryAppendRecord) : Prop :=
  c = {| hc_version := 1; hc_app_id := hr_app_id req; hc_channel := hr_channel req;
         hc_stream_id := ha_stream_id x; hc_serial := ha_serial x;
         hc_direction := hr_direction req; hc_bounds := hr_bounds req |}.

Definition history_left (cursor : option HistoryCursor) (items : list HistoryItem) : Prop :=
  ∃ rest, items = history_item <$> rest ∧
    match cursor with
    | None => rest = requested req ch
    | Some c => ∃ pre x, requested req ch = pre ++ x :: rest ∧ cursor_at c x
    end.

Lemma history_left_validate cursor items :
  history_left cursor items → history_read_validate (with_history_cursor req cursor) = Ok tt.
Proof.
  intros (rest & _ & Hc). revert Hvalid. unfold history_read_validate. simpl.
  destruct (_ =? 0)%Z; [done|]. simpl. destruct (inverted _ _); [done|]. simpl.
  destruct (inverted _ _); [done|]. simpl. intros _.
  destruct cursor as [c|]; [|done]. destruct Hc as (pre & x & _ & Hcur). unfold cursor_at in Hcur.
  subst c. simpl. by repeat (case_bool_decide; [|done]).
Qed.

Lemma history_left_alive cursor items :
  history_left cursor items → cursor_expired (with_history_cursor req cursor) ch = None.
Proof.
  intros (rest & _ & Hc). destruct cursor as [c|]; [|done].
  destruct Hc as (pre & x & Hreq & Hcur). unfold cursor_at in Hcur. subst c.
  unfold cursor_expired. simpl.
  assert (x ∈ hch_records ch) as Hx.
  { apply (elem_of_requested req). rewrite Hreq. apply elem_of_app. right. left. }
  destruct Horder as [Hs Hst]. rewrite Forall_forall in Hst.
  rewrite bool_decide_false by (rewrite (Hst x Hx); tauto).
  destruct (hch_records ch) as [|h t]; simpl; [done|].
  apply StronglySorted_cons in Hs as [Hh _]. rewrite Forall_forall in Hh.
  apply elem_of_cons in Hx as [->|Hx]; [by rewrite Z.ltb_irrefl|].
  specialize (Hh x Hx). simpl in Hh. by rewrite (proj2 (Z.ltb_ge _ _)) by lia.
Qed.

Lemma history_left_matches cursor rest :
  history_left cursor (history_item <$> rest) →
  ∃ rest', history_item <$> rest' = history_item <$> rest ∧
    filter (λ r, history_matcher (with_history_cursor req cursor) r = true)
      (in_direction (hr_direction req) (hch_records ch)) = rest' ∧
    match cursor with
    | None => rest' = requested req ch
    | Some c => ∃ pre x, requested req ch = pre ++ x :: rest' ∧ cursor_at c x
    end.
Proof.
  intros (rest' & Heq & Hc). exists rest'. split; [done|]. split; [|done].
  transitivity (filter (λ r, past_cursor (with_history_cursor req cursor) r = true)
    (requested req ch)).
  { unfold requested. rewrite list_filter_filter. apply list_filter_ext. intros r _.
    unfold history_matcher. simpl. rewrite andb_true_iff. tauto. }
  destruct cursor as [c|].
  - destruct Hc as (pre & x & Hreq & Hcur). unfold cursor_at in Hcur. subst c.
    pose proof (requested_sorted req ch Horder) as Hs.
    assert (∀ r, r ∈ requested req ch → ha_stream_id r = ha_stream_id x) as Hst.
    { destruct Horder as [_ Hst]. rewrite Forall_forall in Hst. intros r Hr.
      rewrite (Hst r), (Hst x); [done|..]; apply (elem_of_requested req); [|done].
      rewrite Hreq. apply elem_of_app. right. left. }
    rewrite (list_filter_ext _ (λ r, serial_lt_b (hr_direction req) x r = true)).
    + rewrite Hreq in Hs |- *.
      apply (sorted_filter_after (serial_lt (hr_direction req))); [apply serial_lt_asym| |done].
      intros y. destruct (hr_direction req); simpl; lia.
    + intros r Hr. unfold past_cursor. simpl. rewrite bool_decide_true by (by apply Hst).
      destruct (hr_direction req); simpl; lia.
  - rewrite Hc. apply list_filter_all. by apply Forall_forall.
Qed.

Lemma page_of_step cursor items :
  history_left cursor items →
  page_of cursor = Ok (items, None) ∨
  ∃ now rest next, items = now ++ rest ∧ now ≠ [] ∧
    page_of cursor = Ok (now, Some next) ∧ history_left (Some next) rest.
Proof.
  intros Hleft. unfold page_of.
  rewrite (history_left_validate _ _ Hleft), (history_left_alive _ _ Hleft). simpl.
  pose proof Hleft as (rest0 & -> & _).
  destruct (history_left_matches _ _ Hleft) as (rest & <- & Hfil & Hc).
  simpl. rewrite Hfil. rewrite u64_wrap_id by u64_lia.
  rewrite length_take, take_take, Nat.min_l by lia. set (n := Z.to_nat (hr_limit req)).
  rewrite Z.gtb_ltb. destruct (_ <? _)%Z eqn:Hmore.
  - apply Z.ltb_lt in Hmore. right.
    destruct (last (take n rest)) as [x|] eqn:Hlast.
    2: { exfalso. apply last_None, (f_equal length) in Hlast.
         rewrite length_take in Hlast. simpl in Hlast. lia. }
    exists (history_item <$> take n rest), (history_item <$> drop n rest). eexists.
    rewrite <-fmap_app, take_drop. split; [done|].
    split. { intros Hnil%fmap_nil_inv. by rewrite Hnil in Hlast. }
    rewrite fmap_last, Hlast. split; [done|]. exists (drop n rest). split; [done|].
    apply last_Some in Hlast as [pre Hpre].
    assert (rest = pre ++ x :: drop n rest) as Hrest.
    { rewrite <-(take_drop n rest) at 1. by rewrite Hpre, <-app_assoc. }
    destruct cursor as [c|].
    + destruct Hc as (pre' & y & Hreq & _). exists (pre' ++ y :: pre), x. split; [|done].
      rewrite Hreq, Hrest at 1. by rewrite <-app_assoc.
    + exists pre, x. split; [|done]. by rewrite <-Hc.
  - apply Z.ltb_ge in Hmore. left. unfold n. rewrite take_ge by lia. done.
Qed.
End settled.

(** ** The reader *)

(** Records arrived in serial order, with a clock that did not run backwards. *)
Definition arrival_ordered l : Prop :=
  StronglySorted (λ r1 r2, ha_serial r1 < ha_serial r2 ∧
                           ha_published_at_ms r1 ≤ ha_published_at_ms r2)%Z l.

Lemma arrival_ordered_suffix l k : k `suffix_of` l → arrival_ordered l → arrival_ordered k.
Proof. intros [a ->]. apply StronglySorted_app_1_r. Qed.

Lemma unexpired_settled retention now l k :
  arrival_ordered l → k `suffix_of` unexpired retention now l → unexpired retention now k = k.
Proof.
  intros Ho Hk. set (f := λ r, (ha_published_at_ms r <? cutoff_ms retention now)%Z).
  assert (∀ r, r ∈ unexpired retention now l → f r = false) as Hall.
  { unfold unexpired. fold f. clear Hk. induction l as [|x l IH]; simpl; [by intros r ?%elem_of_nil|].
    apply StronglySorted_cons in Ho as [Hx Ho]. destruct (f x) eqn:Hfx; [by apply IH|].
    intros r [->|Hr]%elem_of_cons; [done|]. rewrite Forall_forall in Hx.
    specialize (Hx r Hr). unfold f in *. apply Z.ltb_ge in Hfx. apply Z.ltb_ge. lia. }
  unfold unexpired. fold f. destruct k as [|x k]; [done|]. simpl. rewrite Hall; [done|].
  destruct Hk as [a ->]. apply elem_of_app. right. left.
Qed.

(** Evicting twice at the same time is evicting once. *)
Lemma evict_now_idemp config budget now ch :
  limits_typed (default_retention config) → wf_history budget ch →
  arrival_ordered (hch_records ch) →
  evict_now config now (evict_now config now ch) = evict_now config now ch.
Proof.
  intros Hc Hwf Ho. pose proof (channel_retention_typed config Hc _ _ Hwf) as Ht.
  set (rt := channel_retention config ch) in *.
  destruct (evict_channel_spec rt now ch (hwf_bytes _ _ Hwf) Ht)
    as (_ & _ & Hr & Hb & Hsuf & Hlim & _).
  assert (channel_retention config (evict_now config now ch) = rt) as Hrt.
  { unfold channel_retention, evict_now. fold rt. by rewrite Hr. }
  unfold evict_now at 1. rewrite Hrt. unfold evict_now. fold rt. set (ch1 := evict_channel rt now ch) in *.
  destruct (evict_channel_spec rt now ch1 Hb Ht) as (H1 & H2 & H3 & H4 & H5 & _ & Hmax).
  rewrite (unexpired_settled rt now (hch_records ch) (hch_records ch1) Ho Hsuf) in H5, Hmax.
  specialize (Hmax _ (reflexivity _) Hlim).
  assert (hch_records (evict_channel rt now ch1) = hch_records ch1) as Heq.
  { destruct H5 as [a Ha], Hmax as [b Hb']. pose proof (f_equal length Ha) as Hl.
    apply (f_equal length) in Hb'. rewrite !length_app in Hl, Hb'.
    destruct a; [by rewrite Ha|simpl in Hl; lia]. }
  rewrite Heq, <-Hb in H4.
  destruct (evict_channel rt now ch1), ch1; simpl in *; congruence.
Qed.

Lemma history_reader_settled config now req fuel cursor s ch :
  s !! history_key (hr_app_id req) (hr_channel req) = Some ch → evict_now config now ch = ch →
  history_reader config now req fuel cursor s = (s, collect_pages (page_of req ch) fuel cursor).
Proof.
  intros Hk Hev. revert cursor. induction fuel as [|fuel IH]; intros cursor; [done|].
  cbn [history_reader collect_pages]. unfold read_page, page_of at 1.
  destruct (history_read_validate _); [|done]. cbn [rbind hr_app_id hr_channel with_history_cursor].
  rewrite Hk, Hev, insert_id by done. destruct (cursor_expired _ _); [done|].
  destruct (hp_next_cursor _) as [next|]; [|done]. by rewrite IH.
Qed.


Definition sample_bounds : HistoryQueryBounds := {|
  hb_start_serial := None; hb_end_serial := None; hb_start_time_ms := None; hb_end_time_ms := None;
|}.

Definition sample_read (direction : HistoryDirection) (limit : Z) : HistoryReadRequest := {|
  hr_app_id := "app"; hr_channel := "room"; hr_direction := direction; hr_limit := limit;
  hr_cursor := None; hr_bounds := sample_bounds;
|}.

Lemma sample_channel_ordered : arrival_ordered (hch_records sample_history_channel).
Proof. repeat constructor; simpl; lia. Qed.


(** Two publishers that reserve serials 1 and 2, whose appends arrive in the other order. *)
Definition crossed_appends : list HistoryOp :=
  [HReserve "stream-1" "app" "room"; HReserve "x" "app" "room";
   HAppend "x" 60000 (sample_record 2 60000 [x62]);
   HAppend "x" 60000 (sample_record 1 60000 [x61])].

