(* ===== verification/HistoryWrites.v ===== *)
(** * What a write to the history does

    An appended record is the newest retained one unless a limit forbids it, the bound on
    the retention window this needs, exact purges, and cursors that survive the trip
    through the client. *)

From Stdlib Require Import ZArith Lia Init.Byte.
From stdpp Require Import base gmap strings list sorting pretty.
From S2P Require Import Prelude Errors HistoryTypes HistoryStore HistoryThms.

Implicit Types (config : MemoryHistoryStoreConfig) (ch : MemoryHistoryChannel)
  (s : MemoryHistoryStore) (r : HistoryAppendRecord) (l : list HistoryAppendRecord)
  (retention : HistoryRetentionPolicy).

(** ** Appends *)

(** The windows whose length in milliseconds is an [i64]. *)
Definition window_fits retention : Prop :=
  (0 ≤ rp_retention_window_seconds retention * 1000 ≤ i64_max)%Z.

Lemma cutoff_le_now retention now :
  window_fits retention → is_i64 now → (cutoff_ms retention now ≤ now)%Z.
Proof.
  unfold window_fits, cutoff_ms. intros Hw Hn. rewrite u64_wrap_id by u64_lia.
  unfold u64_as_i64. destruct (Z.leb_spec (rp_retention_window_seconds retention * 1000) i64_max);
    u64_lia.
Qed.

(** Dropping a prefix of a list whose last element stays leaves a list with that last. *)
Lemma drop_while_last {A} (f : A → bool) (l : list A) (x : A) :
  f x = false → [x] `suffix_of` drop_while f (l ++ [x]).
Proof.
  intros Hx. induction l as [|y l IH]; simpl; [by rewrite Hx|].
  destruct (f y); [done|]. by exists (y :: l).
Qed.

(** An append is visible.  A record published now, under a policy that admits at least
    one message of its size and whose window fits an [i64] in milliseconds, is the newest
    record its channel retains once [append] returns, the channel has its stream and
    policy, and the other channels are untouched. *)
Theorem append_visible config budget fresh now r s :
  wf_histories budget s → (0 ≤ budget)%Z → (budget + payload_len r ≤ u64_max)%Z →
  window_fits (ha_retention r) → within_limits (ha_retention r) [r] →
  is_i64 now → (now ≤ ha_published_at_ms r)%Z →
  let key := history_key (ha_app_id r) (ha_channel r) in
  let '(s', out) := history_append config fresh now r s in
  out = Ok tt ∧
  (∃ ch, s' !! key = Some ch ∧ last (hch_records ch) = Some r ∧
     hch_stream_id ch = ha_stream_id r ∧ hch_retention ch = Some (ha_retention r)) ∧
  ∀ k, k ≠ key → s' !! k = s !! k.
Proof.
  intros Hs Hb Hmax Hw Hlim Hnow Hpub key. unfold history_append. fold key.
  set (ch := history_entry fresh s key).
  assert (wf_history budget ch) as [Hbytes Hbud _ _ _] by by apply wf_history_entry.
  split; [done|]. split; [|intros k Hk; by apply lookup_insert_ne].
  eexists. split; [apply lookup_insert_eq|].
  assert (limits_typed (ha_retention r)) as Ht.
  { destruct Hlim as [H1 H2]. split; intros n Hn; [specialize (H1 n Hn)|specialize (H2 n Hn)];
      simpl in *; unfold payload_len in *; lia. }
  assert (hch_retained_bytes (push_record ch r) = bytes_of (hch_records (push_record ch r))) as Hpb.
  { simpl. rewrite bytes_of_app, Hbytes. simpl. pose proof (bytes_of_nonneg (hch_records ch)).
    unfold payload_len in *. u64_lia. }
  destruct (evict_channel_spec (ha_retention r) now (push_record ch r) Hpb Ht)
    as (H1 & _ & H2 & _ & _ & _ & Hlong).
  split; [|split; [exact H1|exact H2]].
  destruct (Hlong [r]) as [k Hk].
  - apply drop_while_last, Z.ltb_ge. pose proof (cutoff_le_now (ha_retention r) now Hw Hnow). lia.
  - done.
  - unfold evict_now, channel_retention. simpl. rewrite Hk. apply last_snoc.
Qed.

Lemma append_visible_witness :
  let '(s', out) := history_append default_history_config "stream-1" 50000
                      (sample_record 1 50000 [x61]) ∅ in
  out = Ok tt ∧
  (∃ ch, s' !! history_key "app" "room" = Some ch ∧
     last (hch_records ch) = Some (sample_record 1 50000 [x61]) ∧
     hch_stream_id ch = "stream-1" ∧ hch_retention ch = Some sample_retention) ∧
  ∀ k, k ≠ history_key "app" "room" → s' !! k = (∅ : MemoryHistoryStore) !! k.
Proof.
  refine (append_visible default_history_config 0 "stream-1" 50000 (sample_record 1 50000 [x61]) ∅
    (map_Forall_empty _) _ _ _ _ _ _).
  - lia.
  - unfold payload_len; simpl; u64_lia.
  - unfold window_fits; simpl; u64_lia.
  - split; intros n [= <-]; unfold bytes_of, payload_len; simpl; lia.
  - u64_lia.
  - simpl; lia.
Defined.

(** The bound on the window is needed.  Seconds are multiplied by 1000 in [u64] and
    cast to [i64]: with the largest window the cutoff lies one second in the future, and
    a record published now is gone when [append] returns, although its policy asks to
    keep it longest and has no other limit. *)
Theorem largest_window_keeps_nothing config fresh now r :
  rp_retention_window_seconds (ha_retention r) = u64_max →
  (0 ≤ now)%Z → (now + 1000 ≤ i64_max)%Z → ha_published_at_ms r = now →
  hch_records <$> (history_append config fresh now r ∅).1 !! history_key (ha_app_id r) (ha_channel r)
  = Some [].
Proof.
  intros Hw Hn Hmax Hp. unfold history_append, history_entry, evict_now, channel_retention.
  rewrite lookup_empty. simpl. rewrite lookup_insert_eq. simpl. unfold evict_channel. simpl.
  assert (cutoff_ms (ha_retention r) now = now + 1000)%Z as ->.
  { unfold cutoff_ms. rewrite Hw.
    replace (u64_as_i64 (u64_wrap (u64_max * 1000))) with (-1000)%Z by (vm_compute; reflexivity).
    u64_lia. }
  rewrite Hp. destruct (Z.ltb_spec now (now + 1000)); [|lia].
  destruct (rp_max_messages_per_channel _) as [n|]; destruct (rp_max_bytes_per_channel _) as [b|];
    simpl; try done; by destruct (_ >? b)%Z.
Qed.

Definition widest_record : HistoryAppendRecord := {|
  ha_app_id := "app"; ha_channel := "room"; ha_stream_id := "stream-1"; ha_serial := 1;
  ha_published_at_ms := 50000; ha_message_id := None; ha_event_name := None;
  ha_operation_kind := "append"; ha_payload_bytes := [x61];
  ha_retention := {| rp_retention_window_seconds := u64_max;
    rp_max_messages_per_channel := None; rp_max_bytes_per_channel := None |};
|}.

Lemma largest_window_keeps_nothing_witness :
  hch_records <$> (history_append default_history_config "stream-1" 50000 widest_record ∅).1
    !! history_key "app" "room" = Some [].
Proof.
  exact (largest_window_keeps_nothing default_history_config "stream-1" 50000 widest_record
    eq_refl ltac:(lia) ltac:(pose proof int_limits; lia) eq_refl).
Defined.

(** ** Purges *)

(** The records a purge request keeps. *)
Definition purge_keeps (req : HistoryPurgeRequest) r : Prop :=
  match hpr_mode req with
  | PurgeAll => False
  | PurgeBeforeSerial => ∃ n, hpr_before_serial req = Some n ∧ (n ≤ ha_serial r)%Z
  | PurgeBeforeTimeMs => ∃ n, hpr_before_time_ms req = Some n ∧ (n ≤ ha_published_at_ms r)%Z
  end.

Lemma purge_retained_elem req l r :
  purge_request_validate req = Ok tt → r ∈ purge_retained req l ↔ r ∈ l ∧ purge_keeps req r.
Proof.
  unfold purge_request_validate, purge_retained, purge_keeps.
  destruct (str_is_empty _); [done|]. destruct (hpr_mode req).
  - intros _. rewrite elem_of_nil. tauto.
  - destruct (hpr_before_serial req) as [n|]; [|done]. intros _.
    rewrite list_elem_of_filter. simpl. naive_solver.
  - destruct (hpr_before_time_ms req) as [n|]; [|done]. intros _.
    rewrite list_elem_of_filter. simpl. naive_solver.
Qed.

(** A purge is exact.  A valid request removes exactly the records it covers, keeps
    the others in order, keeps the stream and the serial counter (so serials are not
    reused), and reports the number of messages and bytes it removed. *)
Theorem purge_stream_exact budget fresh app_id channel req s ch :
  wf_history budget ch → (budget ≤ u64_max)%Z →
  s !! history_key app_id channel = Some ch → purge_request_validate req = Ok tt →
  ∃ ch' res,
    purge_stream fresh app_id channel req s = (<[history_key app_id channel := ch']> s, Ok res) ∧
    hch_records ch' `sublist_of` hch_records ch ∧
    (∀ r, r ∈ hch_records ch' ↔ r ∈ hch_records ch ∧ purge_keeps req r) ∧
    hch_stream_id ch' = hch_stream_id ch ∧ hch_next_serial ch' = hch_next_serial ch ∧
    wf_history budget ch' ∧
    (hpu_purged_messages res + Z.of_nat (length (hch_records ch')))%Z =
      Z.of_nat (length (hch_records ch)) ∧
    (hpu_purged_bytes res + hch_retained_bytes ch')%Z = hch_retained_bytes ch.
Proof.
  intros [H1 H2 H3 H4 H5] Hbud Hk Hv. unfold purge_stream, history_entry. rewrite Hv, Hk. simpl.
  pose proof (purge_retained_sublist req (hch_records ch)) as Hsub.
  set (l := purge_retained req (hch_records ch)) in *.
  pose proof (bytes_of_sublist _ _ Hsub) as Hle. pose proof (sublist_length _ _ Hsub).
  pose proof (bytes_of_nonneg l).
  assert (sum_bytes l = bytes_of l) as Hsum by (apply sum_bytes_exact; lia).
  do 2 eexists. split; [reflexivity|]. cbn [hch_records hch_stream_id hch_next_serial
    hpu_purged_messages hpu_purged_bytes hch_retained_bytes].
  split; [done|]. split; [intros r; by apply purge_retained_elem|]. do 2 (split; [done|]).
  split; [|rewrite Hsum, H1; u64_lia].
  split; simpl; [done|lia|done| |done]. by eapply Forall_sublist_of.
Qed.

Definition sample_purge : HistoryPurgeRequest := {|
  hpr_mode := PurgeBeforeSerial; hpr_before_serial := Some 3%Z; hpr_before_time_ms := None;
  hpr_reason := "cleanup"; hpr_requested_by := None;
|}.

Lemma purge_stream_exact_witness :
  ∃ ch' res,
    purge_stream "x" "app" "room" sample_purge
      {[ history_key "app" "room" := sample_history_channel ]} =
    (<[history_key "app" "room" := ch']> {[ history_key "app" "room" := sample_history_channel ]},
     Ok res) ∧
    hch_next_serial ch' = 5%Z ∧
    (hpu_purged_bytes res + hch_retained_bytes ch')%Z = 12%Z.
Proof.
  destruct (purge_stream_exact 12 "x" "app" "room" sample_purge
    {[ history_key "app" "room" := sample_history_channel ]} sample_history_channel
    sample_channel_wf ltac:(u64_lia) (lookup_singleton_eq _ _) eq_refl)
    as (ch' & res & Heq & _ & _ & _ & Hnext & _ & _ & Hbytes).
  exists ch', res. split; [exact Heq|]. split; [exact Hnext|exact Hbytes].
Defined.

(** ** Cursors *)


(** A codec that obeys the laws: the number of a cursor in binary digits. *)
Module SampleCodec.

#[local] Instance direction_eq_dec : EqDecision HistoryDirection.
Proof. solve_decision. Defined.

#[local] Instance direction_countable : Countable HistoryDirection.
Proof.
  refine (inj_countable' (λ d, match d with OldestFirst => true | NewestFirst => false end)
    (λ b : bool, if b then OldestFirst else NewestFirst) _).
  by intros [].
Defined.

#[local] Instance bounds_eq_dec : EqDecision HistoryQueryBounds.
Proof. solve_decision. Defined.

#[local] Instance bounds_countable : Countable HistoryQueryBounds.
Proof.
  refine (inj_countable'
    (λ b, (hb_start_serial b, hb_end_serial b, hb_start_time_ms b, hb_end_time_ms b))
    (λ '(a, b, c, d), {| hb_start_serial := a; hb_end_serial := b; hb_start_time_ms := c;
                         hb_end_time_ms := d |}) _).
  by intros [].
Defined.

#[local] Instance cursor_eq_dec : EqDecision HistoryCursor.
Proof. solve_decision. Defined.

#[local] Instance cursor_countable : Countable HistoryCursor.
Proof.
  refine (inj_countable'
    (λ c, (hc_version c, hc_app_id c, hc_channel c, hc_stream_id c, hc_serial c,
           hc_direction c, hc_bounds c))
    (λ '(v, a, ch, st, n, d, b), {| hc_version := v; hc_app_id := a; hc_channel := ch;
       hc_stream_id := st; hc_serial := n; hc_direction := d; hc_bounds := b |}) _).
  by intros [].
Defined.

Fixpoint digits (p : positive) : list byte :=
  match p with xH => [] | xO p => x30 :: digits p | xI p => x31 :: digits p end.

Fixpoint undigits (l : list byte) : positive :=
  match l with [] => xH | x30 :: l => xO (undigits l) | _ :: l => xI (undigits l) end.

Lemma undigits_digits p : undigits (digits p) = p.
Proof. induction p; simpl; congruence. Qed.

#[local] Instance sample_codec : CursorCodec := {|
  cursor_to_vec c := Ok (digits (encode c));
  cursor_from_slice bytes :=
    match decode (undigits bytes) with Some c => Ok c | None => Err "not a cursor" end;
  base64_encode := String.string_of_list_byte;
  base64_decode text := Ok (String.list_byte_of_string text);
|}.

#[local] Instance sample_codec_laws : CursorCodecLaws.
Proof.
  split.
  - intros bytes. simpl. by rewrite String.list_byte_of_string_of_list_byte.
  - intros c bytes [= <-]. simpl. by rewrite undigits_digits, decode_encode.
Qed.

Definition sample_cursor : HistoryCursor := {|
  hc_version := 1; hc_app_id := "a"; hc_channel := "c"; hc_stream_id := "s"; hc_serial := 3;
  hc_direction := OldestFirst;
  hc_bounds := {| hb_start_serial := None; hb_end_serial := None; hb_start_time_ms := None;
                  hb_end_time_ms := None |};
|}.


End SampleCodec.
