(* ===== verification/StdSlice.v ===== *)
(** * Slices of the standard library

    [sort], [dedup] and [binary_search] as the filters use them, and the explicit stack
    of the validators that walk a tree without recursion. *)

From Stdlib Require Import ZArith Lia.
From stdpp Require Import base gmap strings list sorting.
From S2P Require Import Prelude.

(** ** Sorting and searching *)

Section slices.
Context {K : Type} `{EqDecision K, !OrdKey K}.
Implicit Types (l : list K) (x y : K).

(** [Vec::dedup]: consecutive repetitions are removed. *)
Fixpoint dedup l : list K :=
  match l with
  | [] => []
  | x :: rest =>
      match rest with
      | [] => [x]
      | y :: _ => if decide (x = y) then dedup rest else x :: dedup rest
      end
  end.

Definition sort_dedup l : list K := dedup (stable_sort key_le l).

(** [slice::binary_search]: halve the range until one element is left. *)
Fixpoint search_range (fuel : nat) l x (base size : nat) : nat :=
  match fuel with
  | O => base
  | S fuel =>
      if (size <=? 1)%nat then base
      else
        let half := Nat.div2 size in
        let mid := base + half in
        let base :=
          match l !! mid with
          | Some y => if key_ltb x y then base else mid
          | None => base
          end in
        search_range fuel l x base (size - half)
  end.

Definition binary_search l x : result nat nat :=
  match l with
  | [] => Err 0
  | _ =>
      let base := search_range (length l) l x 0 (length l) in
      match l !! base with
      | Some y =>
          if decide (y = x) then Ok base
          else Err (if key_ltb y x then S base else base)
      | None => Err base
      end
  end.

Lemma elem_of_dedup l x : x ∈ dedup l ↔ x ∈ l.
Proof.
  induction l as [|a l IH]; [done|]. destruct l as [|b l]; [done|].
  change (dedup (a :: b :: l)) with (if decide (a = b) then dedup (b :: l) else a :: dedup (b :: l)).
  case_decide as Hab.
  - subst. rewrite IH, !elem_of_cons. tauto.
  - rewrite elem_of_cons, IH, (elem_of_cons (b :: l)). done.
Qed.

Lemma dedup_sorted l : StronglySorted key_le l → StronglySorted key_lt (dedup l).
Proof.
  induction l as [|a l IH]; intros Hs; [constructor|].
  destruct l as [|b l]; [by repeat constructor|].
  change (dedup (a :: b :: l)) with (if decide (a = b) then dedup (b :: l) else a :: dedup (b :: l)).
  pose proof Hs as [Ha Hbl]%StronglySorted_cons. specialize (IH Hbl).
  case_decide as Hab; [done|]. constructor; [done|].
  apply Forall_cons in Ha as [Hle _]. assert (key_lt a b) as Hlt by by apply key_le_neq_lt.
  apply Forall_forall. intros x Hx. rewrite elem_of_dedup in Hx. apply elem_of_cons in Hx as [->|Hx]; [done|].
  apply StronglySorted_cons in Hbl as [Hb _]. rewrite Forall_forall in Hb.
  eapply key_lt_le_trans; [exact Hlt|auto].
Qed.

Lemma dedup_id l : StronglySorted key_lt l → dedup l = l.
Proof.
  induction l as [|a l IH]; intros Hs; [done|]. destruct l as [|b l]; [done|].
  change (dedup (a :: b :: l)) with (if decide (a = b) then dedup (b :: l) else a :: dedup (b :: l)).
  apply StronglySorted_cons in Hs as [Ha Hbl]. rewrite (IH Hbl).
  apply Forall_cons in Ha as [Hlt _]. by rewrite decide_False by by apply key_lt_neq.
Qed.

Lemma elem_of_sort_dedup l x : x ∈ sort_dedup l ↔ x ∈ l.
Proof. unfold sort_dedup. by rewrite elem_of_dedup, stable_sort_perm. Qed.

Lemma sort_dedup_sorted l : StronglySorted key_lt (sort_dedup l).
Proof. apply dedup_sorted, stable_sort_sorted; apply _. Qed.

Lemma strictly_sorted_sorted l : StronglySorted key_lt l → StronglySorted key_le l.
Proof. apply StronglySorted_weaken. auto with sockudo. Qed.

Lemma sort_dedup_id l : StronglySorted key_lt l → sort_dedup l = l.
Proof.
  intros Hs. unfold sort_dedup. rewrite stable_sort_id by by apply strictly_sorted_sorted.
  by apply dedup_id.
Qed.

(** A strictly sorted list is determined by its elements. *)
Lemma strictly_sorted_ext l1 l2 :
  StronglySorted key_lt l1 → StronglySorted key_lt l2 → (∀ x, x ∈ l1 ↔ x ∈ l2) → l1 = l2.
Proof.
  revert l2. induction l1 as [|a l1 IH]; intros [|b l2] H1 H2 Heq; [done|..].
  - exfalso. apply (not_elem_of_nil b), Heq. left.
  - exfalso. apply (not_elem_of_nil a), Heq. left.
  - apply StronglySorted_cons in H1 as [Ha H1], H2 as [Hb H2]. rewrite Forall_forall in Ha, Hb.
    assert (a = b) as ->.
    { assert (a ∈ b :: l2) as Hab by (apply Heq; left).
      assert (b ∈ a :: l1) as Hba by (apply Heq; left).
      apply elem_of_cons in Hab as [?|Hab]; [done|]. apply elem_of_cons in Hba as [?|Hba]; [done|].
      destruct (key_lt_asym a b); auto. }
    f_equal. apply IH; [done..|]. intros x. specialize (Heq x). rewrite !elem_of_cons in Heq.
    split; intros Hx; [destruct (proj1 Heq (or_intror Hx)) as [->|]|
                       destruct (proj2 Heq (or_intror Hx)) as [->|]]; try done;
      exfalso; eapply key_lt_irrefl; eauto.
Qed.

Lemma sort_dedup_ext l1 l2 : (∀ x, x ∈ l1 ↔ x ∈ l2) → sort_dedup l1 = sort_dedup l2.
Proof.
  intros Heq. apply strictly_sorted_ext; [apply sort_dedup_sorted..|].
  intros x. by rewrite !elem_of_sort_dedup.
Qed.

Lemma sorted_lookup_le l i j x y :
  StronglySorted key_le l → l !! i = Some x → l !! j = Some y → i ≤ j → key_le x y.
Proof.
  intros Hs. revert i j. induction Hs as [|a l Hs IH Ha]; intros [|i] [|j] Hi Hj Hij;
    simpl in *; simplify_eq; try lia.
  - done.
  - rewrite Forall_forall in Ha. by eapply Ha, list_elem_of_lookup_2.
  - eapply IH; eauto with lia.
Qed.

(** What [search_range] maintains: everything past the range is greater, and the element
    at its base is not, unless the base is still 0. *)
Lemma search_range_spec fuel l x base size :
  StronglySorted key_le l → 0 < size ≤ fuel → base + size ≤ length l →
  (∀ i y, l !! i = Some y → base + size ≤ i → key_lt x y) →
  (base = 0 ∨ ∃ y, l !! base = Some y ∧ key_le y x) →
  let b := search_range fuel l x base size in
  b < length l ∧ (∀ i y, l !! i = Some y → b < i → key_lt x y) ∧
  (b = 0 ∨ ∃ y, l !! b = Some y ∧ key_le y x).
Proof.
  intros Hs. revert base size. induction fuel as [|fuel IH]; intros base size Hsz Hlen Hgt Hle; [lia|].
  simpl. destruct (Nat.leb_spec size 1).
  { assert (size = 1) as -> by lia. split; [lia|]. split; [|done].
    intros i y Hi Hlt. apply (Hgt i); [done|lia]. }
  pose proof (Nat.div2_odd size) as Hodd. set (half := Nat.div2 size) in *.
  assert (0 < half < size) as Hhalf by (destruct (Nat.odd size); simpl in Hodd; lia).
  destruct (lookup_lt_is_Some_2 l (base + half)) as [z Hz]; [lia|]. rewrite Hz.
  destruct (key_ltb x z) eqn:Hxz.
  - apply key_ltb_spec in Hxz. apply IH; [lia|lia| |done].
    intros i y Hi Hge. eapply key_lt_le_trans; [exact Hxz|].
    eapply sorted_lookup_le; [done|exact Hz|exact Hi|]. destruct (Nat.odd size); simpl in Hodd; lia.
  - apply IH; [lia|lia| |].
    + intros i y Hi Hge. apply (Hgt i); [done|lia].
    + right. exists z. split; [done|]. apply not_key_lt_le. intros Hlt%key_ltb_spec. congruence.
Qed.

Lemma binary_search_elem l x :
  StronglySorted key_le l → is_ok (binary_search l x) = bool_decide (x ∈ l).
Proof.
  intros Hs. unfold binary_search. destruct l as [|a l]; [done|]. set (k := a :: l) in *.
  destruct (search_range_spec (length k) k x 0 (length k) Hs) as (Hb & Hgt & Hle).
  { unfold k. simpl. lia. }
  { lia. }
  { intros i y Hi%lookup_lt_Some ?. lia. }
  { by left. }
  set (b := search_range _ _ _ _ _) in *. destruct (lookup_lt_is_Some_2 k b Hb) as [y Hy].
  rewrite Hy. case_decide as Hyx.
  - subst. simpl. symmetry. apply bool_decide_eq_true. by eapply list_elem_of_lookup_2.
  - simpl. symmetry. apply bool_decide_eq_false. intros [i Hi]%list_elem_of_lookup_1.
    destruct (decide (b < i)); [by eapply key_lt_irrefl, Hgt|].
    destruct (decide (i = b)) as [->|]; [congruence|].
    destruct Hle as [->|(y' & Hy' & Hle)]; [lia|]. simplify_eq.
    apply Hyx. apply (anti_symm key_le); [done|]. eapply sorted_lookup_le; eauto with lia.
Qed.
End slices.

(** ** Walking a tree with an explicit stack

    [while let Some((node, depth)) = stack.pop()]: the children of a visited node are
    pushed in order, so the last one is visited next.  The counter and the depth saturate. *)

Section stack_walk.
Context {A E : Type} (children : A → list A) (visit : Z → Z → A → result E unit).

Definition push_children (depth : Z) (node : A) (stack : list (A * Z)) : list (A * Z) :=
  reverse ((λ child, (child, u64_saturating_add depth 1)) <$> children node) ++ stack.

Fixpoint stack_walk (fuel : nat) (count : Z) (stack : list (A * Z)) : option (result E unit) :=
  match stack with
  | [] => Some (Ok tt)
  | (node, depth) :: stack =>
      match fuel with
      | O => None
      | S fuel =>
          let count := u64_saturating_add count 1 in
          match visit count depth node with
          | Err e => Some (Err e)
          | Ok _ => stack_walk fuel count (push_children depth node stack)
          end
      end
  end.

Context (size : A → nat).
Hypothesis Hsize : ∀ node, size node = S (sum_list (size <$> children node)).

Definition stack_size (stack : list (A * Z)) : nat := sum_list (size ∘ fst <$> stack).

Lemma sum_list_app l k : sum_list (l ++ k) = sum_list l + sum_list k.
Proof. induction l; simpl; lia. Qed.

Lemma sum_list_reverse l : sum_list (reverse l) = sum_list l.
Proof. induction l; [done|]. rewrite reverse_cons, sum_list_app, IHl. simpl. lia. Qed.

Lemma push_children_size depth node stack :
  S (stack_size (push_children depth node stack)) = stack_size ((node, depth) :: stack).
Proof.
  unfold stack_size, push_children. simpl. rewrite Hsize, fmap_app, sum_list_app.
  rewrite fmap_reverse, sum_list_reverse, <-list_fmap_compose. simpl.
  reflexivity.
Qed.

(** One unit of fuel per node is enough. *)
Lemma stack_walk_total fuel count stack :
  stack_size stack ≤ fuel → is_Some (stack_walk fuel count stack).
Proof.
  revert count stack. induction fuel as [|fuel IH]; intros count [|[node depth] stack] Hfuel;
    simpl; [done| |done|].
  - unfold stack_size in Hfuel. simpl in Hfuel. rewrite Hsize in Hfuel. lia.
  - destruct (visit _ _ _); [|done]. apply IH.
    pose proof (push_children_size depth node stack). lia.
Qed.

(** The nodes of a tree with their depth. *)
Inductive at_depth (root : A) (d : Z) : A → Z → Prop :=
| at_root : at_depth root d root d
| at_child child node e :
    child ∈ children root → at_depth child (d + 1) node e → at_depth root d node e.

(** When a visit accepts a node iff the counter is within a limit and the node is good at
    its depth, the walk accepts iff there are few enough nodes and all of them are good. *)
Section accepts.
Context (max_count : Z) (good : Z → A → Prop).
Hypothesis Hvisit : ∀ count depth node,
  visit count depth node = Ok tt ↔ (count ≤ max_count)%Z ∧ good depth node.

Lemma stack_walk_accepts fuel count stack :
  (max_count ≤ u64_max)%Z → stack_size stack ≤ fuel →
  (0 ≤ count)%Z → (count + Z.of_nat (stack_size stack) ≤ u64_max)%Z →
  Forall (λ nd, 0 ≤ nd.2 ∧ nd.2 + Z.of_nat (stack_size stack) ≤ u64_max)%Z stack →
  stack_walk fuel count stack = Some (Ok tt) ↔
  (stack = [] ∨ (count + Z.of_nat (stack_size stack) ≤ max_count)%Z) ∧
  ∀ node d x e, (node, d) ∈ stack → at_depth node d x e → good e x.
Proof.
  intros Hmax. revert count stack. induction fuel as [|fuel IH];
    intros count [|[node d] stack] Hfuel Hc Hcount Hdepth.
  1, 3: simpl; split; [|done]; intros _; split; [by left|]; intros ???? ?%elem_of_nil; done.
  { unfold stack_size in Hfuel. simpl in Hfuel. rewrite Hsize in Hfuel. lia. }
  pose proof (push_children_size d node stack) as Hps.
  set (next := push_children d node stack) in *. rewrite <-Hps in *. simpl.
  rewrite Nat2Z.inj_succ in *.
  replace (u64_saturating_add count 1) with (count + 1)%Z by u64_lia.
  apply Forall_cons in Hdepth as [[Hd0 Hd1] Hdepth]. simpl in Hd0, Hd1.
  assert (u64_saturating_add d 1 = d + 1)%Z as Hd by u64_lia.
  assert (∀ n e, (n, e) ∈ next ↔ (n ∈ children node ∧ e = (d + 1)%Z) ∨ (n, e) ∈ stack) as Hnext.
  { intros n e. unfold next, push_children. rewrite Hd, elem_of_app, elem_of_reverse,
      list_elem_of_fmap. naive_solver. }
  destruct (visit (count + 1) d node) as [[]|err] eqn:Hv.
  - apply Hvisit in Hv as [Hle Hgood]. fold next. rewrite IH; [|lia|lia|lia|].
    + split.
      * intros [Hn Hall]. split.
        { right. destruct Hn as [Hn|]; [|lia]. rewrite Hn. unfold stack_size. simpl. lia. }
        intros n' d' x e [[= -> ->]|Hin]%elem_of_cons Hat.
        -- destruct Hat as [|child x e Hch Hat]; [done|]. eapply Hall; [|exact Hat]. apply Hnext. auto.
        -- eapply Hall; [|exact Hat]. apply Hnext. auto.
      * intros [[Hn|Hn] Hall]; [done|]. split; [right; lia|].
        intros n' d' x e [[Hch ->]|Hin]%Hnext Hat.
        -- eapply (Hall node d); [left|]. by eapply at_child.
        -- eapply Hall; [right; exact Hin|done].
    + apply Forall_forall. intros [n e] [[_ ->]|Hin]%Hnext; simpl; [lia|].
      rewrite Forall_forall in Hdepth. specialize (Hdepth _ Hin). simpl in Hdepth. lia.
  - split; [done|]. intros [[Hn|Hn] Hall]; [done|].
    assert (visit (count + 1) d node = Ok tt) as Hok; [|congruence].
    apply Hvisit. split; [lia|]. eapply Hall; [left|constructor].
Qed.
End accepts.

Lemma is_Some_proj_eq {B} (mx : option B) (H : is_Some mx) x : is_Some_proj H = x ↔ mx = Some x.
Proof. destruct H as [y ->]. simpl. naive_solver. Qed.

(** The loop from the root. *)
Definition walk_tree (root : A) : result E unit :=
  is_Some_proj (stack_walk_total (size root) 0 [(root, 1%Z)]
    (eq_ind_r (λ n, n ≤ size root) (le_n (size root)) (Nat.add_0_r (size root)))).

Lemma walk_tree_accepts (max_count : Z) (good : Z → A → Prop) (root : A) :
  (∀ count depth node,
     visit count depth node = Ok tt ↔ (count ≤ max_count)%Z ∧ good depth node) →
  (max_count ≤ u64_max)%Z → (Z.of_nat (size root) < u64_max)%Z →
  walk_tree root = Ok tt ↔
  (Z.of_nat (size root) ≤ max_count)%Z ∧ ∀ x e, at_depth root 1 x e → good e x.
Proof.
  intros Hvisit Hmax Hroot. unfold walk_tree. rewrite is_Some_proj_eq.
  assert (stack_size [(root, 1%Z)] = size root) as Hss by (unfold stack_size; simpl; lia).
  rewrite (stack_walk_accepts max_count good Hvisit); rewrite ?Hss; [|lia|lia|lia|lia|].
  - split.
    + intros [[?|?] Hall]; [done|]. split; [lia|]. intros x e. apply Hall. left.
    + intros [? Hall]. split; [right; lia|]. intros n d x e [[= -> ->]|?%elem_of_nil]%elem_of_cons; [|done].
      apply Hall.
  - repeat constructor; simpl; rewrite ?Hss; lia.
Qed.
End stack_walk.
