(* ===== verification/StdFloat.v ===== *)
(** * [f64] of the standard library

    [str::parse::<f64>] and the comparisons of [f64].  A decimal numeral is read exactly
    and rounded once to binary64, to nearest even; comparisons with NaN are false. *)

From Stdlib Require Import ZArith SpecFloat Ascii String.
From stdpp Require Import base strings list.
From S2P Require Import Prelude.


Notation f64 := spec_float (only parsing).

Definition digit_of (a : ascii) : option Z :=
  let n := Z.of_N (Ascii.N_of_ascii a) in
  if ((48 <=? n) && (n <=? 57))%Z then Some (n - 48)%Z else None.

(** Reads digits into an accumulator; returns it, how many there were, and the rest. *)
Fixpoint read_digits (s : string) (acc : Z) (n : nat) : Z * nat * string :=
  match s with
  | EmptyString => (acc, n, s)
  | String a rest =>
      match digit_of a with
      | Some d => read_digits rest (10 * acc + d)%Z (S n)
      | None => (acc, n, s)
      end
  end.

(** An optional sign. *)
Definition read_sign (s : string) : bool * string :=
  match s with
  | String "-" rest => (true, rest)
  | String "+" rest => (false, rest)
  | _ => (false, s)
  end.

(** [Digit+], [Digit+ . Digit*] or [Digit* . Digit+] with an optional exponent, as an
    integer and a power of ten. *)
Definition parse_number (s : string) : option (Z * Z) :=
  let '(m, n1, rest) := read_digits s 0 0 in
  let '(m, n2, rest) :=
    match rest with
    | String "." rest => read_digits rest m 0
    | _ => (m, O, rest)
    end in
  if (n1 + n2 =? 0)%nat then None
  else
    match rest with
    | EmptyString => Some (m, - Z.of_nat n2)%Z
    | String a rest =>
        if bool_decide (a = "e"%char) || bool_decide (a = "E"%char) then
          let '(neg, rest) := read_sign rest in
          let '(e, n3, rest) := read_digits rest 0 0 in
          if (n3 =? 0)%nat then None
          else
            match rest with
            | EmptyString => Some (m, (if neg then - e else e) - Z.of_nat n2)%Z
            | _ => None
            end
        else None
    end.

(** The binary64 number nearest to [m * 10^e]. *)
Definition round_decimal (neg : bool) (m e : Z) : f64 :=
  match m with
  | Zpos p =>
      match e with
      | Zneg k => SFdiv 53 1024 (S754_finite neg p 0) (S754_finite false (10 ^ k)%positive 0)
      | Z0 => binary_round 53 1024 neg p 0
      | Zpos k => binary_round 53 1024 neg (p * 10 ^ k)%positive 0
      end
  | _ => S754_zero neg
  end.

Definition ascii_lower (a : ascii) : ascii :=
  let n := Ascii.N_of_ascii a in
  if ((65 <=? n) && (n <=? 90))%N then Ascii.ascii_of_N (n + 32) else a.

Fixpoint to_lower (s : string) : string :=
  match s with
  | EmptyString => EmptyString
  | String a rest => String (ascii_lower a) (to_lower rest)
  end.

Definition parse_inf_nan (neg : bool) (s : string) : option f64 :=
  let s := to_lower s in
  if decide (s = "nan") then Some S754_nan
  else if decide (s = "inf") then Some (S754_infinity neg)
  else if decide (s = "infinity") then Some (S754_infinity neg)
  else None.

Definition parse_f64 (s : string) : option f64 :=
  let '(neg, rest) := read_sign s in
  match parse_number rest with
  | Some (m, e) => Some (round_decimal neg m e)
  | None => parse_inf_nan neg rest
  end.

Definition f64_lt (a b : f64) : bool := SFltb a b.
Definition f64_le (a b : f64) : bool := SFleb a b.
Definition f64_gt (a b : f64) : bool := SFltb b a.
Definition f64_ge (a b : f64) : bool := SFleb b a.

(** Decimal forms of one number are one number, 0.1 is the double it should be, and the
    signs of zero compare equal. *)
Example parse_f64_samples :
  parse_f64 "0.1" = Some (S754_finite false 7205759403792794 (-56)) ∧
  parse_f64 "1e1" = parse_f64 "10" ∧ parse_f64 ".5" = parse_f64 "+5E-1" ∧
  parse_f64 "1e400" = Some (S754_infinity false) ∧ parse_f64 "-Inf" = Some (S754_infinity true) ∧
  parse_f64 "1." = parse_f64 "1" ∧ parse_f64 "." = None ∧ parse_f64 "" = None ∧
  parse_f64 "1e" = None ∧ parse_f64 " 1" = None ∧ parse_f64 "0x1" = None.
Proof. vm_compute. repeat split. Qed.
