(* ===== verification/FilterNode.v ===== *)
(** * Tag filters

    The filter tree a subscription carries: operators, nodes, validation, optimisation
    and evaluation against the tags of a publication. *)

From Stdlib Require Import ZArith Lia Ascii.
From stdpp Require Import base gmap strings list sorting pretty.
From S2P Require Import Prelude StdSlice StdFloat.

(** ** Operators *)

Inductive CompareOp : Type :=
| OpEqual | OpNotEqual | OpIn | OpNotIn | OpExists | OpNotExists
| OpStartsWith | OpEndsWith | OpContains
| OpGreaterThan | OpGreaterThanOrEqual | OpLessThan | OpLessThanOrEqual.

#[export] Instance CompareOp_eq_dec : EqDecision CompareOp.
Proof. solve_decision. Defined.

Definition compare_op_parse (s : string) : option CompareOp :=
  if decide (s = "eq") then Some OpEqual
  else if decide (s = "neq") then Some OpNotEqual
  else if decide (s = "in") then Some OpIn
  else if decide (s = "nin") then Some OpNotIn
  else if decide (s = "ex") then Some OpExists
  else if decide (s = "nex") then Some OpNotExists
  else if decide (s = "sw") then Some OpStartsWith
  else if decide (s = "ew") then Some OpEndsWith
  else if decide (s = "ct") then Some OpContains
  else if decide (s = "gt") then Some OpGreaterThan
  else if decide (s = "gte") then Some OpGreaterThanOrEqual
  else if decide (s = "lt") then Some OpLessThan
  else if decide (s = "lte") then Some OpLessThanOrEqual
  else None.

Definition compare_op_as_str (op : CompareOp) : string :=
  match op with
  | OpEqual => "eq" | OpNotEqual => "neq" | OpIn => "in" | OpNotIn => "nin"
  | OpExists => "ex" | OpNotExists => "nex" | OpStartsWith => "sw" | OpEndsWith => "ew"
  | OpContains => "ct" | OpGreaterThan => "gt" | OpGreaterThanOrEqual => "gte"
  | OpLessThan => "lt" | OpLessThanOrEqual => "lte"
  end.

Definition compare_op_from_str (s : string) : result string CompareOp :=
  ok_or (compare_op_parse s) ("Invalid comparison operator: " +:+ s).

Inductive LogicalOp : Type := LAnd | LOr | LNot.

#[export] Instance LogicalOp_eq_dec : EqDecision LogicalOp.
Proof. solve_decision. Defined.

Definition logical_op_parse (s : string) : option LogicalOp :=
  if decide (s = "and") then Some LAnd
  else if decide (s = "or") then Some LOr
  else if decide (s = "not") then Some LNot
  else None.

Definition logical_op_as_str (op : LogicalOp) : string :=
  match op with LAnd => "and" | LOr => "or" | LNot => "not" end.

Definition logical_op_from_str (s : string) : result string LogicalOp :=
  ok_or (logical_op_parse s) ("Invalid logical operator: " +:+ s).

(** Operator names are unambiguous.  A text parses to an operator exactly when it is the
    operator's name, for comparisons and for logical operators, and every other text is an
    error that quotes it. *)
Theorem operator_names (s : string) :
  (∀ op, compare_op_parse s = Some op ↔ s = compare_op_as_str op) ∧
  (∀ op, logical_op_parse s = Some op ↔ s = logical_op_as_str op) ∧
  (∀ e, compare_op_from_str s = Err e →
     e = "Invalid comparison operator: " +:+ s ∧ ∀ op, s ≠ compare_op_as_str op).
Proof.
  assert (∀ op, compare_op_parse s = Some op ↔ s = compare_op_as_str op) as Hc.
  { intros op. split; [|intros ->; by destruct op].
    unfold compare_op_parse. repeat (case_decide; [by intros [= <-]|]). done. }
  split; [exact Hc|]. split.
  - intros op. split; [|intros ->; by destruct op].
    unfold logical_op_parse. repeat (case_decide; [by intros [= <-]|]). done.
  - unfold compare_op_from_str. destruct (compare_op_parse s) as [op'|] eqn:Hp; [done|].
    intros e [= <-]. split; [done|]. intros op Hop%Hc. congruence.
Qed.

(** ** Nodes *)

Inductive FilterNode : Type := mkFilterNode {
  fn_op : option string;
  fn_key : option string;
  fn_cmp : option string;
  fn_val : option string;
  fn_vals : list string;
  fn_nodes : list FilterNode;
  fn_is_sorted : bool;
}.

Definition new_comparison (key : string) (cmp : CompareOp) (val : string) : FilterNode := {|
  fn_op := None; fn_key := Some key; fn_cmp := Some (compare_op_as_str cmp);
  fn_val := Some val; fn_vals := []; fn_nodes := []; fn_is_sorted := false |}.

Definition new_set_comparison (key : string) (cmp : CompareOp) (vals : list string)
    : FilterNode := {|
  fn_op := None; fn_key := Some key; fn_cmp := Some (compare_op_as_str cmp);
  fn_val := None; fn_vals := vals; fn_nodes := []; fn_is_sorted := false |}.

Definition new_existence (key : string) (cmp : CompareOp) : FilterNode := {|
  fn_op := None; fn_key := Some key; fn_cmp := Some (compare_op_as_str cmp);
  fn_val := None; fn_vals := []; fn_nodes := []; fn_is_sorted := false |}.

Definition new_logical (op : LogicalOp) (nodes : list FilterNode) : FilterNode := {|
  fn_op := Some (logical_op_as_str op); fn_key := None; fn_cmp := None;
  fn_val := None; fn_vals := []; fn_nodes := nodes; fn_is_sorted := false |}.

(** [optimize]: sort and deduplicate the values once, here and below. *)
Fixpoint optimize (n : FilterNode) : FilterNode :=
  match n with
  | mkFilterNode op key cmp val vals nodes is_sorted =>
      let go := negb (bool_decide (vals = [])) && negb is_sorted in
      mkFilterNode op key cmp val
        (if go then sort_dedup vals else vals)
        (optimize <$> nodes)
        (if go then true else is_sorted)
  end.

Definition logical_op (n : FilterNode) : option LogicalOp := fn_op n ≫= logical_op_parse.

Definition compare_op (n : FilterNode) : CompareOp :=
  default OpEqual (fn_cmp n ≫= compare_op_parse).

Definition node_key (n : FilterNode) : string := default "" (fn_key n).
Definition node_val (n : FilterNode) : string := default "" (fn_val n).

(** [validate]: the first problem found, if any. *)
Definition leaf_problem (n : FilterNode) : option string :=
  if match fn_key n with Some k => str_is_empty k | None => true end then
    Some "Leaf node requires a non-empty key"
  else
    match fn_cmp n with
    | None => Some "Leaf node requires a comparison operator"
    | Some cmp =>
        match compare_op_parse cmp with
        | None => Some ("unknown comparison operator: " +:+ cmp)
        | Some OpIn | Some OpNotIn =>
            if bool_decide (fn_vals n = [])
            then Some (cmp +:+ " operation requires at least one value in vals") else None
        | Some OpExists | Some OpNotExists => None
        | Some _ =>
            if match fn_val n with Some v => str_is_empty v | None => true end
            then Some (cmp +:+ " operation requires a non-empty val") else None
        end
    end.

Definition arity_problem (op : string) (logical : LogicalOp) (n : FilterNode) : option string :=
  match logical with
  | LAnd | LOr =>
      if bool_decide (fn_nodes n = [])
      then Some (op +:+ " operation requires at least one child node") else None
  | LNot =>
      if negb (length (fn_nodes n) =? 1)%nat
      then Some ("not operation requires exactly one child node, got "
                   +:+ pretty (length (fn_nodes n))) else None
  end.

Fixpoint filter_validate (n : FilterNode) : option string :=
  match fn_op n with
  | Some op =>
      match logical_op_parse op with
      | None => Some ("unknown logical operator: " +:+ op)
      | Some logical =>
          match arity_problem op logical n with
          | Some problem => Some problem
          | None =>
              (fix children (i : nat) (l : list FilterNode) : option string :=
                 match l with
                 | [] => None
                 | child :: l =>
                     match filter_validate child with
                     | Some err => Some ("Child node " +:+ pretty i +:+ ": " +:+ err)
                     | None => children (S i) l
                     end
                 end) 0 (fn_nodes n)
          end
      end
  | None => leaf_problem n
  end.

(** [FilterNodeBuilder]. *)
Module FilterNodeBuilder.
Definition eq (key val : string) : FilterNode := new_comparison key OpEqual val.
Definition neq (key val : string) : FilterNode := new_comparison key OpNotEqual val.
Definition in_set (key : string) (vals : list string) : FilterNode := new_set_comparison key OpIn vals.
Definition nin (key : string) (vals : list string) : FilterNode := new_set_comparison key OpNotIn vals.
Definition exists_ (key : string) : FilterNode := new_existence key OpExists.
Definition not_exists (key : string) : FilterNode := new_existence key OpNotExists.
Definition starts_with (key val : string) : FilterNode := new_comparison key OpStartsWith val.
Definition ends_with (key val : string) : FilterNode := new_comparison key OpEndsWith val.
Definition contains (key val : string) : FilterNode := new_comparison key OpContains val.
Definition gt (key val : string) : FilterNode := new_comparison key OpGreaterThan val.
Definition gte (key val : string) : FilterNode := new_comparison key OpGreaterThanOrEqual val.
Definition lt (key val : string) : FilterNode := new_comparison key OpLessThan val.
Definition lte (key val : string) : FilterNode := new_comparison key OpLessThanOrEqual val.
Definition and (nodes : list FilterNode) : FilterNode := new_logical LAnd nodes.
Definition or (nodes : list FilterNode) : FilterNode := new_logical LOr nodes.
Definition not (node : FilterNode) : FilterNode := new_logical LNot [node].
End FilterNodeBuilder.

(** ** Tags *)

(** The [TagMap] trait. *)
Class TagMap (T : Type) := {
  get_tag : T → string → option string;
  contains_tag : T → string → bool;
}.

Inductive EmptyTagMap : Type := emptyTagMap.

#[export] Instance empty_tag_map : TagMap EmptyTagMap := {|
  get_tag _ _ := None; contains_tag _ _ := false |}.

#[export] Instance option_tag_map {T} `{TagMap T} : TagMap (option T) := {|
  get_tag tags key := tags ≫= λ tags, get_tag tags key;
  contains_tag tags key := match tags with Some tags => contains_tag tags key | None => false end |}.

(** [HashMap<String, String>] and [BTreeMap<String, String>]. *)
#[export] Instance map_tag_map : TagMap (gmap string string) := {|
  get_tag tags key := tags !! key; contains_tag tags key := bool_decide (is_Some (tags !! key)) |}.

(** The instances agree on presence. *)
Class TagMapLaws (T : Type) `{TagMap T} : Prop := {
  contains_tag_get tags key : contains_tag tags key = bool_decide (is_Some (get_tag tags key));
}.

#[export] Instance empty_tag_map_laws : TagMapLaws EmptyTagMap.
Proof. done. Qed.

#[export] Instance map_tag_map_laws : TagMapLaws (gmap string string).
Proof. done. Qed.

#[export] Instance option_tag_map_laws {T} `{TagMapLaws T} : TagMapLaws (option T).
Proof. split. intros [tags|] key; [|done]. simpl. exact (contains_tag_get (T := T) tags key). Qed.

(** ** Evaluation *)

(** The crate memchr: the position of a byte and of a substring. *)
Class Memchr := {
  memchr : ascii → string → option nat;
  memmem_find : string → string → option nat;
}.

(** Documented: a position is returned iff the needle occurs. *)
Class MemchrLaws `{Memchr} : Prop := {
  memchr_occurs a s : is_Some (memchr a s) ↔ ∃ p q, s = p +:+ String a q;
  memmem_occurs s needle : is_Some (memmem_find s needle) ↔ ∃ p q, s = p +:+ needle +:+ q;
}.

Definition some {A} (o : option A) : bool := match o with Some _ => true | None => false end.

(** [starts_with] and [ends_with] on the bytes of a string. *)
Definition starts_with (s pat : string) : bool := String.prefix pat s.

Definition ends_with (s pat : string) : bool :=
  if (String.length s <? String.length pat)%nat then false
  else bool_decide (String.substring (String.length s - String.length pat)
                      (String.length pat) s = pat).

Section evaluate.
Context `{Memchr} {T : Type} `{TagMap T}.

Definition compare_numeric (tag_value : option string) (filter_val : string)
    (cmp : f64 → f64 → bool) : bool :=
  match tag_value with
  | Some val =>
      match parse_f64 val, parse_f64 filter_val with
      | Some a, Some b => cmp a b
      | _, _ => false
      end
  | None => false
  end.

Definition vals_contain (n : FilterNode) (val : string) : bool :=
  if fn_is_sorted n then is_ok (binary_search (fn_vals n) val)
  else existsb (λ v, bool_decide (v = val)) (fn_vals n).

Definition value_contains (val filter_val : string) : bool :=
  match filter_val with
  | EmptyString => true
  | String a EmptyString => some (memchr a val)
  | _ => some (memmem_find val filter_val)
  end.

Definition evaluate_comparison (n : FilterNode) (tags : T) : bool :=
  let tag_value := get_tag tags (node_key n) in
  match compare_op n with
  | OpEqual => match tag_value with Some val => bool_decide (val = node_val n) | None => false end
  | OpNotEqual =>
      match tag_value with Some val => negb (bool_decide (val = node_val n)) | None => true end
  | OpIn => match tag_value with Some val => vals_contain n val | None => false end
  | OpNotIn => match tag_value with Some val => negb (vals_contain n val) | None => true end
  | OpExists => some tag_value
  | OpNotExists => negb (some tag_value)
  | OpStartsWith =>
      match tag_value with Some val => starts_with val (node_val n) | None => false end
  | OpEndsWith =>
      match tag_value with Some val => ends_with val (node_val n) | None => false end
  | OpContains =>
      match tag_value with Some val => value_contains val (node_val n) | None => false end
  | OpGreaterThan => compare_numeric tag_value (node_val n) f64_gt
  | OpGreaterThanOrEqual => compare_numeric tag_value (node_val n) f64_ge
  | OpLessThan => compare_numeric tag_value (node_val n) f64_lt
  | OpLessThanOrEqual => compare_numeric tag_value (node_val n) f64_le
  end.

Fixpoint filter_matches (n : FilterNode) (tags : T) : bool :=
  match logical_op n with
  | Some LAnd => forallb (λ child, filter_matches child tags) (fn_nodes n)
  | Some LOr => existsb (λ child, filter_matches child tags) (fn_nodes n)
  | Some LNot =>
      match fn_nodes n with
      | child :: _ => negb (filter_matches child tags)
      | [] => false
      end
  | None => evaluate_comparison n tags
  end.
End evaluate.
