(* ===== verification/FilterThms.v ===== *)
(** * What tag filters mean

    Evaluation against a declarative reading of the filter, and the optimiser that sorts
    value lists for binary search. *)

From Stdlib Require Import ZArith Lia Ascii.
From stdpp Require Import base gmap strings list sorting pretty.
From S2P Require Import Prelude StdSlice StdFloat FilterNode.

Implicit Types (n : FilterNode) (s p q val : string).

(** Induction with the children as hypotheses. *)
Lemma FilterNode_nested_ind (P : FilterNode → Prop) :
  (∀ n, Forall P (fn_nodes n) → P n) → ∀ n, P n.
Proof.
  intros Hstep. fix IH 1. intros [op key cmp val vals nodes sorted]. apply Hstep. simpl.
  induction nodes as [|child nodes IHn]; constructor; [apply IH|exact IHn].
Qed.

(** ** Strings *)

Lemma starts_with_iff s p : starts_with s p = true ↔ ∃ q, s = p +:+ q.
Proof.
  unfold starts_with. revert s. induction p as [|a p IH]; intros [|b s]; simpl.
  - split; [by exists ""|done].
  - split; [by exists (String b s)|done].
  - split; [done|]. by intros [q ?].
  - destruct (Ascii.ascii_dec a b) as [->|Hab].
    + rewrite IH. split; intros [q Hq]; exists q; [by rewrite Hq|by injection Hq].
    + split; [done|]. intros [q Hq]. by injection Hq as ->.
Qed.

Lemma substring_app_r p q m : String.substring (String.length p) m (p +:+ q) = String.substring 0 m q.
Proof. induction p; [done|]. simpl. done. Qed.

Lemma substring_whole q : String.substring 0 (String.length q) q = q.
Proof. induction q; simpl; congruence. Qed.

Lemma string_length_app p q : String.length (p +:+ q) = String.length p + String.length q.
Proof. induction p as [|a p IH]; [done|]. exact (f_equal S IH). Qed.

Lemma string_split s (k : nat) :
  k ≤ String.length s → ∃ p q, s = p +:+ q ∧ String.length p = k.
Proof.
  revert k. induction s as [|a s IH]; intros k Hk; simpl in Hk.
  - exists "", "". split; [done|simpl; lia].
  - destruct k as [|k]; [by exists "", (String a s)|].
    destruct (IH k) as (p & q & -> & Hp); [lia|]. exists (String a p), q. simpl. by rewrite Hp.
Qed.

Lemma string_app_inj p p' q q' :
  String.length p = String.length p' → p +:+ q = p' +:+ q' → q = q'.
Proof.
  revert p'. induction p as [|a p IH]; intros [|b p'] Hlen Heq; try done; [].
  change (String a (p +:+ q) = String b (p' +:+ q')) in Heq. injection Heq as -> Heq.
  eapply IH; [|exact Heq]. simpl in Hlen. lia.
Qed.

Lemma ends_with_iff s q : ends_with s q = true ↔ ∃ p, s = p +:+ q.
Proof.
  unfold ends_with. destruct (Nat.ltb_spec (String.length s) (String.length q)) as [Hlt|Hle].
  - split; [done|]. intros [p ->]. rewrite string_length_app in Hlt. lia.
  - rewrite bool_decide_eq_true.
    destruct (string_split s (String.length s - String.length q)) as (p & r & -> & Hp); [lia|].
    rewrite <-Hp, substring_app_r, string_length_app in *.
    replace (String.length q) with (String.length r) by lia. rewrite substring_whole.
    split; [by intros ->; exists p|]. intros [p' Heq].
    assert (String.length r = String.length q) as Hrq by lia.
    assert (String.length p = String.length p') as Hpp.
    { apply (f_equal String.length) in Heq. rewrite !string_length_app in Heq. lia. }
    by apply (string_app_inj p p' r q).
Qed.

(** ** The reading of a filter *)

Definition numeric (tag : option string) val (cmp : f64 → f64 → bool) : Prop :=
  ∃ v a b, tag = Some v ∧ parse_f64 v = Some a ∧ parse_f64 val = Some b ∧ cmp a b = true.

Definition leaf_holds (op : CompareOp) (tag : option string) val (vals : list string) : Prop :=
  match op with
  | OpEqual => tag = Some val
  | OpNotEqual => tag ≠ Some val
  | OpIn => ∃ v, tag = Some v ∧ v ∈ vals
  | OpNotIn => ∀ v, tag = Some v → v ∉ vals
  | OpExists => is_Some tag
  | OpNotExists => tag = None
  | OpStartsWith => ∃ q, tag = Some (val +:+ q)
  | OpEndsWith => ∃ p, tag = Some (p +:+ val)
  | OpContains => ∃ p q, tag = Some (p +:+ val +:+ q)
  | OpGreaterThan => numeric tag val f64_gt
  | OpGreaterThanOrEqual => numeric tag val f64_ge
  | OpLessThan => numeric tag val f64_lt
  | OpLessThanOrEqual => numeric tag val f64_le
  end.

Fixpoint satisfies (get : string → option string) n : Prop :=
  match logical_op n with
  | Some LAnd => foldr (λ child P, satisfies get child ∧ P) True (fn_nodes n)
  | Some LOr => foldr (λ child P, satisfies get child ∨ P) False (fn_nodes n)
  | Some LNot => match fn_nodes n with child :: _ => ¬ satisfies get child | [] => False end
  | None => leaf_holds (compare_op n) (get (node_key n)) (node_val n) (fn_vals n)
  end.

(** A node marked sorted is sorted, everywhere.  The marker is not part of the serialized
    form, so nodes that were parsed or built have it unset. *)
Inductive wf_node : FilterNode → Prop :=
| wf_node_intro n :
    (fn_is_sorted n = true → StronglySorted key_lt (fn_vals n)) →
    Forall wf_node (fn_nodes n) → wf_node n.

Lemma existsb_eq_elem val (vals : list string) :
  existsb (λ v, bool_decide (v = val)) vals = bool_decide (val ∈ vals).
Proof.
  induction vals as [|v vals IH]; [done|]. simpl. rewrite IH.
  apply eq_true_iff_eq. rewrite orb_true_iff, !bool_decide_eq_true, elem_of_cons. naive_solver.
Qed.

Lemma vals_contain_elem n val : wf_node n → vals_contain n val = bool_decide (val ∈ fn_vals n).
Proof.
  intros [? Hs _]. unfold vals_contain. destruct (fn_is_sorted _).
  - apply binary_search_elem, strictly_sorted_sorted. auto.
  - apply existsb_eq_elem.
Qed.

Lemma some_is_Some {A} (o : option A) : some o = true ↔ is_Some o.
Proof. destruct o; simpl; naive_solver. Qed.

Lemma compare_numeric_holds (tag : option string) val cmp :
  compare_numeric tag val cmp = true ↔ numeric tag val cmp.
Proof.
  unfold compare_numeric, numeric. destruct tag as [v|]; [|naive_solver].
  destruct (parse_f64 v) eqn:Hv, (parse_f64 val) eqn:Hval; naive_solver.
Qed.

Section meaning.
Context `{MemchrLaws} {T : Type} `{TagMap T}.
Implicit Types (tags : T).

Lemma value_contains_iff s val : value_contains s val = true ↔ ∃ p q, s = p +:+ val +:+ q.
Proof.
  unfold value_contains. destruct val as [|a [|b val]].
  - split; [by exists "", s|done].
  - rewrite some_is_Some, memchr_occurs. done.
  - rewrite some_is_Some, memmem_occurs. done.
Qed.

(** The comparison of one tag, whatever way values are looked up. *)
Lemma evaluate_comparison_holds n tags :
  wf_node n → evaluate_comparison n tags = true ↔
    leaf_holds (compare_op n) (get_tag tags (node_key n)) (node_val n) (fn_vals n).
Proof.
  intros Hwf. unfold evaluate_comparison, leaf_holds. set (tag := get_tag tags (node_key n)).
  destruct (compare_op n); try apply compare_numeric_holds; destruct tag as [v|]; simpl;
    rewrite ?(vals_contain_elem _ _ Hwf), ?negb_true_iff, ?bool_decide_eq_true,
      ?bool_decide_eq_false, ?starts_with_iff, ?ends_with_iff, ?value_contains_iff;
    try naive_solver.
Qed.

Lemma forallb_foldr {A} (f : A → bool) (P : A → Prop) (l : list A) :
  Forall (λ x, f x = true ↔ P x) l → forallb f l = true ↔ foldr (λ x Q, P x ∧ Q) True l.
Proof. induction 1; simpl; [done|]. rewrite andb_true_iff. tauto. Qed.

Lemma existsb_foldr {A} (f : A → bool) (P : A → Prop) (l : list A) :
  Forall (λ x, f x = true ↔ P x) l → existsb f l = true ↔ foldr (λ x Q, P x ∨ Q) False l.
Proof. induction 1; simpl; [done|]. rewrite orb_true_iff. tauto. Qed.

(** Evaluation implements the reading of a filter.  For every filter whose sorted
    marker is truthful, every tag map and every correct substring search, [matches]
    returns true exactly when the filter holds of the tags: conjunction, disjunction and
    negation of the children, and for a leaf equality, membership, presence, prefix,
    suffix, substring or comparison of the decimal values as doubles. *)
Theorem filter_matches_satisfies n tags :
  wf_node n → filter_matches n tags = true ↔ satisfies (get_tag tags) n.
Proof.
  induction n as [n IH] using FilterNode_nested_ind. intros Hwf.
  assert (Forall (λ c, filter_matches c tags = true ↔ satisfies (get_tag tags) c) (fn_nodes n)) as Hc.
  { inversion Hwf as [? _ Hch]; subst. clear Hwf. induction IH; inversion Hch; subst; auto. }
  destruct n as [op key cmp val vals nodes sorted]. simpl in Hc.
  cbn [filter_matches satisfies fn_nodes].
  destruct (logical_op _) as [[]|].
  - by apply forallb_foldr.
  - by apply existsb_foldr.
  - destruct Hc as [|c nodes Hc _]; [done|]. rewrite negb_true_iff, <-Hc.
    destruct (filter_matches c tags); naive_solver.
  - by apply evaluate_comparison_holds.
Qed.
End meaning.

(** ** The optimiser *)

Lemma optimize_nodes n : fn_nodes (optimize n) = optimize <$> fn_nodes n.
Proof. by destruct n. Qed.

Lemma optimize_vals n val : val ∈ fn_vals (optimize n) ↔ val ∈ fn_vals n.
Proof. destruct n; simpl. destruct (_ && _); [apply elem_of_sort_dedup|done]. Qed.

Lemma optimize_vals_nil n : fn_vals (optimize n) = [] ↔ fn_vals n = [].
Proof.
  assert (∀ l k : list string, (∀ x, x ∈ l ↔ x ∈ k) → l = [] → k = []) as Hnil.
  { intros l [|x k] Hlk ->; [done|]. destruct (not_elem_of_nil x). apply Hlk. left. }
  pose proof (optimize_vals n) as Hv. split; apply Hnil; naive_solver.
Qed.

Lemma wf_optimize n : wf_node n → wf_node (optimize n).
Proof.
  induction n as [n IH] using FilterNode_nested_ind. intros Hwf.
  inversion Hwf as [? Hs Hch]; subst. constructor.
  - destruct n as [op key cmp val vals nodes sorted]. simpl in *.
    case_bool_decide; simpl; [done|]. destruct sorted; simpl; [done|]. intros _. apply sort_dedup_sorted.
  - rewrite optimize_nodes. apply Forall_fmap. rewrite Forall_forall in *. intros c Hc. by apply IH, Hch.
Qed.

Lemma optimize_idemp n : optimize (optimize n) = optimize n.
Proof.
  induction n as [n IH] using FilterNode_nested_ind.
  assert (optimize <$> (optimize <$> fn_nodes n) = optimize <$> fn_nodes n) as Hn.
  { rewrite <-list_fmap_compose. by apply Forall_fmap_ext. }
  destruct n as [op key cmp val vals nodes sorted]. cbn [optimize fn_nodes] in *. rewrite Hn.
  destruct (negb (bool_decide (vals = [])) && negb sorted) eqn:Hgo.
  - by rewrite andb_false_r.
  - by rewrite Hgo.
Qed.

(** Validation does not look at the order of values. *)
Lemma filter_validate_optimize n : filter_validate (optimize n) = filter_validate n.
Proof.
  induction n as [n IH] using FilterNode_nested_ind.
  assert (leaf_problem (optimize n) = leaf_problem n) as Hleaf.
  { pose proof (optimize_vals_nil n) as Hv. unfold leaf_problem.
    rewrite (bool_decide_ext _ _ Hv). by destruct n. }
  assert (∀ op logical, arity_problem op logical (optimize n) = arity_problem op logical n) as Har.
  { intros op []; unfold arity_problem; rewrite optimize_nodes, ?length_fmap; [..|done];
      by destruct (fn_nodes n). }
  destruct n as [op key cmp val vals nodes sorted]. cbn [filter_validate optimize fn_op fn_nodes] in *.
  destruct op as [op|]; [|exact Hleaf]. destruct (logical_op_parse op) as [logical|]; [|done].
  rewrite Har. destruct (arity_problem _ _ _); [done|].
  clear Har Hleaf. generalize 0. induction IH as [|child nodes Hc _ IHn]; intros i; simpl; [done|].
  rewrite Hc. destruct (filter_validate child); [done|]. apply IHn.
Qed.

(** Optimising a filter changes its speed only.  On a filter whose sorted marker is
    truthful, the optimised filter's marker is truthful too, it matches the same tags
    (binary search against linear scan) and fails validation with the same message, and
    optimising again changes nothing. *)
Theorem optimize_preserves `{MemchrLaws} {T : Type} `{TagMap T} n :
  wf_node n →
  wf_node (optimize n) ∧ (∀ tags : T, filter_matches (optimize n) tags = filter_matches n tags) ∧
  filter_validate (optimize n) = filter_validate n ∧ optimize (optimize n) = optimize n.
Proof.
  intros Hwf. split; [by apply wf_optimize|].
  split; [|split; [apply filter_validate_optimize|apply optimize_idemp]].
  intros tags. revert Hwf. induction n as [n IH] using FilterNode_nested_ind. intros Hwf.
  assert (Forall (λ c, filter_matches (optimize c) tags = filter_matches c tags) (fn_nodes n)) as Hc.
  { inversion Hwf as [? _ Hch]; subst. clear Hwf. induction IH; inversion Hch; subst; auto. }
  assert (evaluate_comparison (optimize n) tags = evaluate_comparison n tags) as Hleaf.
  { apply eq_true_iff_eq. rewrite !evaluate_comparison_holds by auto using wf_optimize.
    assert (∀ v, v ∈ fn_vals (optimize n) ↔ v ∈ fn_vals n) as Hv by apply optimize_vals.
    destruct n as [op key cmp val vals nodes sorted]. unfold leaf_holds, compare_op, node_key, node_val.
    cbn [fn_cmp fn_key fn_val optimize] in *. destruct (default OpEqual _); try done;
      set (vals' := fn_vals _) in *; set (vals'' := fn_vals _) in *; naive_solver. }
  destruct n as [op key cmp val vals nodes sorted]. cbn [filter_matches optimize fn_nodes] in *.
  unfold logical_op in *. cbn [fn_op] in *. destruct (op ≫= logical_op_parse) as [[]|]; [..|exact Hleaf].
  - clear Hleaf IH Hwf. induction Hc as [|c nodes Hc _ IHc]; simpl; [done|]. rewrite Hc. f_equal. exact IHc.
  - clear Hleaf IH Hwf. induction Hc as [|c nodes Hc _ IHc]; simpl; [done|]. rewrite Hc. f_equal. exact IHc.
  - destruct Hc as [|c nodes Hc _]; simpl; [done|]. by rewrite Hc.
Qed.

(** ** Samples *)

(** A search that obeys the documentation of memchr. *)
Module SampleSearch.
Fixpoint find (needle s : string) : option nat :=
  if String.prefix needle s then Some 0
  else match s with EmptyString => None | String _ rest => S <$> find needle rest end.

Lemma find_occurs needle s : is_Some (find needle s) ↔ ∃ p q, s = p +:+ needle +:+ q.
Proof.
  pose proof (λ s, starts_with_iff s needle) as Hpre. unfold starts_with in Hpre.
  induction s as [|a s IH]; cbn [find].
  - destruct (String.prefix needle "") eqn:Hp.
    + split; [|intros _; by exists 0]. intros _. apply Hpre in Hp as [q Hq]. by exists "", q.
    + split; [by intros [? ?]|]. intros (p & q & Heq). exfalso.
      destruct p; [|discriminate Heq]. assert (String.prefix needle "" = true); [|congruence].
      apply Hpre. by exists q.
  - destruct (String.prefix needle (String a s)) eqn:Hp.
    + split; [|intros _; by exists 0]. intros _. apply Hpre in Hp as [q Hq]. by exists "", q.
    + rewrite fmap_is_Some, IH. split.
      * intros (p & q & ->). by exists (String a p), q.
      * intros ([|b p] & q & Heq).
        { exfalso. assert (String.prefix needle (String a s) = true); [|congruence].
          apply Hpre. by exists q. }
        change (String a s = String b (p +:+ needle +:+ q)) in Heq. injection Heq as _ Heq. eauto.
Qed.

#[export] Instance sample_memchr : Memchr := {|
  memchr a s := find (String a "") s; memmem_find s needle := find needle s |}.

#[export] Instance sample_memchr_laws : MemchrLaws.
Proof. split; intros; apply find_occurs. Qed.
End SampleSearch.

(** An order is large, comes from one of two regions, and is not a test. *)
Definition sample_filter : FilterNode :=
  FilterNodeBuilder.and
    [FilterNodeBuilder.gte "price" "9.5";
     FilterNodeBuilder.in_set "region" ["us"; "eu"; "us"];
     FilterNodeBuilder.not (FilterNodeBuilder.contains "name" "test")].

Definition sample_tags : gmap string string :=
  {[ "price" := "10"; "region" := "eu"; "name" := "order" ]}.

Lemma sample_filter_wf : wf_node sample_filter.
Proof. repeat constructor; done. Qed.

Section witnesses.
Import SampleSearch.

Lemma filter_matches_satisfies_witness :
  filter_matches sample_filter sample_tags = true ∧ satisfies (get_tag sample_tags) sample_filter.
Proof.
  assert (filter_matches sample_filter sample_tags = true) as H by (vm_compute; reflexivity).
  split; [exact H|].
  exact (proj1 (filter_matches_satisfies sample_filter sample_tags sample_filter_wf) H).
Defined.

Lemma optimize_preserves_witness :
  fn_vals <$> fn_nodes (optimize sample_filter) !! 1 = Some ["eu"; "us"] ∧
  filter_matches (optimize sample_filter) sample_tags = filter_matches sample_filter sample_tags.
Proof.
  split; [vm_compute; reflexivity|].
  destruct (optimize_preserves (T := gmap string string) sample_filter sample_filter_wf)
    as (_ & H & _).
  exact (H sample_tags).
Defined.
End witnesses.
