(* ===== verification/FilterIndex.v ===== *)
(** * The inverted index of filters

    [crates/sockudo-adapter/src/filter_index.rs]: the sockets of a channel by what their filter
    asks for, so that a message finds its receivers by its tags.  The concurrent maps and sets
    are finite maps and sets; the hash of a (channel, key, value) is a parameter. *)

From Stdlib Require Import ZArith Lia.
From stdpp Require Import base gmap strings list.
From S2P Require Import Prelude FilterNode.

Record IndexableFilter := {
  ix_key : string;
  ix_values : list string;
}.

(** Equality, set membership, and disjunctions of these on one key. *)
Fixpoint extract_indexable_filter (n : FilterNode) : option IndexableFilter :=
  match logical_op n with
  | Some LOr =>
      (fix children (nodes : list FilterNode) (common_key : option string)
           (all_values : list string) : option IndexableFilter :=
         match nodes with
         | [] => (λ key, {| ix_key := key; ix_values := all_values |}) <$> common_key
         | child :: nodes =>
             match extract_indexable_filter child with
             | None => None
             | Some indexable =>
                 match common_key with
                 | None => children nodes (Some (ix_key indexable)) (all_values ++ ix_values indexable)
                 | Some k =>
                     if bool_decide (k ≠ ix_key indexable) then None
                     else children nodes (Some k) (all_values ++ ix_values indexable)
                 end
             end
         end) (fn_nodes n) None []
  | Some LAnd | Some LNot => None
  | None =>
      match compare_op n with
      | OpEqual =>
          if str_is_empty (node_key n) then None
          else Some {| ix_key := node_key n; ix_values := [node_val n] |}
      | OpIn =>
          if str_is_empty (node_key n) then None
          else if bool_decide (fn_vals n = []) || (500 <? Z.of_nat (length (fn_vals n)))%Z then None
          else Some {| ix_key := node_key n; ix_values := fn_vals n |}
      | _ => None
      end
  end.

Section index.
Context {SocketId : Type} `{Countable SocketId}.
Context (compute_eq_hash : string → string → string → Z).

Record FilterIndex := {
  fi_eq_index : gmap Z (gset SocketId);
  fi_channel_keys : gmap string (gset Z);
  fi_complex_filters : gmap string (gset SocketId);
  fi_no_filter : gmap string (gset SocketId);
}.

Record IndexLookupResult := {
  lr_indexed_matches : list SocketId;
  lr_needs_evaluation : list SocketId;
  lr_no_filter : list SocketId;
}.

Record IndexStats := {
  is_eq_entries : nat;
  is_eq_sockets : nat;
  is_complex_filters : nat;
  is_no_filter : nat;
}.

Implicit Types (i : FilterIndex) (channel : string) (socket_id : SocketId).

Definition filter_index_new : FilterIndex := {|
  fi_eq_index := ∅; fi_channel_keys := ∅; fi_complex_filters := ∅; fi_no_filter := ∅ |}.

(** [entry(k).or_insert_with(..).insert(x)] and [if let Some(set) = get(k) { set.remove(x) }]. *)
Definition set_insert {K} `{Countable K} {V} `{Countable V} (k : K) (x : V) (m : gmap K (gset V))
    : gmap K (gset V) := <[k := {[x]} ∪ default ∅ (m !! k)]> m.

Definition set_remove {K} `{Countable K} {V} `{Countable V} (k : K) (x : V) (m : gmap K (gset V))
    : gmap K (gset V) := alter (.∖ {[x]}) k m.

Definition add_to_eq_index channel socket_id (indexable : IndexableFilter) i : FilterIndex :=
  let hashes := compute_eq_hash channel (ix_key indexable) <$> ix_values indexable in {|
  fi_eq_index := foldl (λ m h, set_insert h socket_id m) (fi_eq_index i) hashes;
  fi_channel_keys :=
    <[channel := list_to_set hashes ∪ default ∅ (fi_channel_keys i !! channel)]> (fi_channel_keys i);
  fi_complex_filters := fi_complex_filters i;
  fi_no_filter := fi_no_filter i |}.

Definition remove_from_eq_index channel socket_id (indexable : IndexableFilter) i : FilterIndex := {|
  fi_eq_index := foldl (λ m v, set_remove (compute_eq_hash channel (ix_key indexable) v) socket_id m)
                   (fi_eq_index i) (ix_values indexable);
  fi_channel_keys := fi_channel_keys i;
  fi_complex_filters := fi_complex_filters i;
  fi_no_filter := fi_no_filter i |}.

Definition remove_socket_from_all_indexes channel socket_id i : FilterIndex := {|
  fi_eq_index := fi_eq_index i;
  fi_channel_keys := fi_channel_keys i;
  fi_complex_filters := set_remove channel socket_id (fi_complex_filters i);
  fi_no_filter := set_remove channel socket_id (fi_no_filter i) |}.

Definition add_socket_filter channel socket_id (filter : option FilterNode) i : FilterIndex :=
  let i := remove_socket_from_all_indexes channel socket_id i in
  match filter with
  | None => {|
      fi_eq_index := fi_eq_index i; fi_channel_keys := fi_channel_keys i;
      fi_complex_filters := fi_complex_filters i;
      fi_no_filter := set_insert channel socket_id (fi_no_filter i) |}
  | Some filter_node =>
      match extract_indexable_filter filter_node with
      | Some indexable => add_to_eq_index channel socket_id indexable i
      | None => {|
          fi_eq_index := fi_eq_index i; fi_channel_keys := fi_channel_keys i;
          fi_complex_filters := set_insert channel socket_id (fi_complex_filters i);
          fi_no_filter := fi_no_filter i |}
      end
  end.

Definition remove_socket_filter channel socket_id (filter : option FilterNode) i : FilterIndex :=
  let i := {|
    fi_eq_index := fi_eq_index i; fi_channel_keys := fi_channel_keys i;
    fi_complex_filters := set_remove channel socket_id (fi_complex_filters i);
    fi_no_filter := set_remove channel socket_id (fi_no_filter i) |} in
  match filter ≫= extract_indexable_filter with
  | Some indexable => remove_from_eq_index channel socket_id indexable i
  | None => i
  end.

Definition remove_socket_all_filters channel socket_id i : FilterIndex := {|
  fi_eq_index :=
    match fi_channel_keys i !! channel with
    | Some hashes =>
        foldl (λ m h, set_remove h socket_id m) (fi_eq_index i) (elements hashes)
    | None => fi_eq_index i
    end;
  fi_channel_keys := fi_channel_keys i;
  fi_complex_filters := set_remove channel socket_id (fi_complex_filters i);
  fi_no_filter := set_remove channel socket_id (fi_no_filter i) |}.

Definition lookup_eq_index channel (tags : gmap string string) i : list SocketId :=
  if bool_decide (tags = ∅) then []
  else
    let matching_hashes :=
      filter (λ h, is_Some (fi_eq_index i !! h))
        ((λ kv, compute_eq_hash channel kv.1 kv.2) <$> btree_list tags) in
    match matching_hashes with
    | [] => []
    | [h] => elements (default ∅ (fi_eq_index i !! h))
    | hs => elements (foldl (λ dedup h, default ∅ (fi_eq_index i !! h) ∪ dedup) ∅ hs)
    end.

Definition index_lookup channel (tags : gmap string string) i : IndexLookupResult := {|
  lr_indexed_matches := lookup_eq_index channel tags i;
  lr_needs_evaluation := elements (default ∅ (fi_complex_filters i !! channel));
  lr_no_filter := elements (default ∅ (fi_no_filter i !! channel)) |}.

Definition index_stats channel i : IndexStats :=
  let sets := omap (λ h, fi_eq_index i !! h) (elements (default ∅ (fi_channel_keys i !! channel))) in {|
  is_eq_entries := length sets;
  is_eq_sockets := sum_list (size <$> sets);
  is_complex_filters := size (default ∅ (fi_complex_filters i !! channel));
  is_no_filter := size (default ∅ (fi_no_filter i !! channel)) |}.

Definition clear_channel channel i : FilterIndex := {|
  fi_eq_index :=
    match fi_channel_keys i !! channel with
    | Some hashes => foldl (λ m h, delete h m) (fi_eq_index i) (elements hashes)
    | None => fi_eq_index i
    end;
  fi_channel_keys := delete channel (fi_channel_keys i);
  fi_complex_filters := delete channel (fi_complex_filters i);
  fi_no_filter := delete channel (fi_no_filter i) |}.
End index.

Arguments FilterIndex _ {_ _}.
Arguments IndexLookupResult _ : clear implicits.
