(* ===== verification/FilterIndexThms.v ===== *)
(** * The index finds exactly the receivers

    The sockets that a lookup finds, after the sockets with complex filters are evaluated, are
    exactly those whose filter matches, each once; provided a socket whose filter is indexed is
    removed before it is added with another one. *)

From Stdlib Require Import ZArith Lia.
From stdpp Require Import base gmap strings list relations.
From S2P Require Import Prelude StdSlice FilterNode FilterThms FilterIndex.

(** ** Maps of sets *)

Section sets.
Context {K V : Type} `{Countable K} `{Countable V}.
Implicit Types (m : gmap K (gset V)) (k : K) (x : V).

Definition members m k : gset V := default ∅ (m !! k).

Lemma elem_of_set_insert k x m k' x' :
  x' ∈ members (set_insert k x m) k' ↔ x' ∈ members m k' ∨ (x' = x ∧ k' = k).
Proof.
  unfold members, set_insert. rewrite lookup_insert. case_decide; subst; simpl; set_solver.
Qed.

Lemma elem_of_set_remove k x m k' x' :
  x' ∈ members (set_remove k x m) k' ↔ x' ∈ members m k' ∧ ¬ (x' = x ∧ k' = k).
Proof.
  unfold members, set_remove. rewrite lookup_alter. case_decide; subst; [|naive_solver].
  destruct (m !! k') as [X|]; simpl; set_solver.
Qed.

Lemma elem_of_insert_all x ks m k' x' :
  x' ∈ members (foldl (λ m k, set_insert k x m) m ks) k'
  ↔ x' ∈ members m k' ∨ (x' = x ∧ k' ∈ ks).
Proof.
  revert m. induction ks as [|k ks IH]; intros m; cbn [foldl]; [set_solver|].
  rewrite IH, elem_of_set_insert, elem_of_cons. naive_solver.
Qed.

Lemma elem_of_remove_all x ks m k' x' :
  x' ∈ members (foldl (λ m k, set_remove k x m) m ks) k'
  ↔ x' ∈ members m k' ∧ ¬ (x' = x ∧ k' ∈ ks).
Proof.
  revert m. induction ks as [|k ks IH]; intros m; cbn [foldl]; [set_solver|].
  rewrite IH, elem_of_set_remove, elem_of_cons. naive_solver.
Qed.

Lemma elem_of_delete_all ks m k' x' :
  x' ∈ members (foldl (λ m k, delete k m) m ks) k' ↔ x' ∈ members m k' ∧ k' ∉ ks.
Proof.
  revert m. induction ks as [|k ks IH]; intros m; cbn [foldl]; [set_solver|].
  rewrite IH, not_elem_of_cons. unfold members. rewrite lookup_delete.
  case_decide; subst; simpl; set_solver.
Qed.
End sets.

(** ** What is indexed *)

(** The tag asked for, and the values it may have. *)
Definition asks (ix : IndexableFilter) (tags : gmap string string) : bool :=
  match tags !! ix_key ix with
  | Some v => bool_decide (v ∈ ix_values ix)
  | None => false
  end.

Section extract.
Context `{Memchr}.

Lemma extract_leaf n ix (tags : gmap string string) :
  wf_node n → logical_op n = None → extract_indexable_filter n = Some ix →
  evaluate_comparison n tags = asks ix tags.
Proof.
  intros Hwf Hlog. destruct n as [op key cmp val vals nodes sorted] eqn:Hn.
  cbn [extract_indexable_filter]. rewrite <-Hn in *. rewrite Hlog.
  unfold evaluate_comparison, asks. cbn [get_tag map_tag_map].
  destruct (compare_op n); try done; destruct (str_is_empty (node_key n)); try done.
  - intros [= <-]. cbn [ix_key ix_values]. destruct (tags !! node_key n); [|done].
    apply bool_decide_ext. set_solver.
  - destruct (_ || _); [done|]. intros [= <-]. cbn [ix_key ix_values].
    destruct (tags !! node_key n); [|done]. by apply vals_contain_elem.
Qed.
(** The loop over the children of a disjunction. *)
Fixpoint extract_children (nodes : list FilterNode) (common_key : option string)
    (all_values : list string) : option IndexableFilter :=
  match nodes with
  | [] => (λ key, {| ix_key := key; ix_values := all_values |}) <$> common_key
  | child :: nodes =>
      ix ← extract_indexable_filter child;
      match common_key with
      | None => extract_children nodes (Some (ix_key ix)) (all_values ++ ix_values ix)
      | Some k =>
          if bool_decide (k ≠ ix_key ix) then None
          else extract_children nodes (Some k) (all_values ++ ix_values ix)
      end
  end.

Lemma extract_or n :
  logical_op n = Some LOr → extract_indexable_filter n = extract_children (fn_nodes n) None [].
Proof.
  intros Hlog. destruct n as [op key cmp val vals nodes sorted] eqn:Hn.
  cbn [extract_indexable_filter]. rewrite <-Hn in Hlog |- *. rewrite Hlog. subst n. cbn [fn_nodes].
  clear Hlog. generalize (@None string) (@nil string).
  induction nodes as [|child nodes IH]; intros common all; [done|]. cbn [extract_children].
  destruct (extract_indexable_filter child) as [ix|]; [|done]. cbn [mbind option_bind].
  destruct common; [destruct (bool_decide _); [done|]|]; apply IH.
Qed.

Lemma asks_app k vs ws tags :
  asks {| ix_key := k; ix_values := vs ++ ws |} tags
  = asks {| ix_key := k; ix_values := vs |} tags || asks {| ix_key := k; ix_values := ws |} tags.
Proof.
  unfold asks. cbn [ix_key ix_values]. destruct (tags !! k); [|done].
  apply eq_true_iff_eq. rewrite orb_true_iff, !bool_decide_eq_true. set_solver.
Qed.

Lemma extract_children_matches nodes (tags : gmap string string) :
  Forall (λ n, ∀ ix, extract_indexable_filter n = Some ix → filter_matches n tags = asks ix tags) nodes →
  ∀ k all ix, extract_children nodes (Some k) all = Some ix →
    asks {| ix_key := k; ix_values := all |} tags || existsb (λ n, filter_matches n tags) nodes
    = asks ix tags.
Proof.
  induction 1 as [|n nodes Hn _ IH]; intros k all ix; cbn [extract_children existsb].
  { intros [= <-]. apply orb_false_r. }
  destruct (extract_indexable_filter n) as [ix'|] eqn:Hex; [|done]. cbn [mbind option_bind].
  case_bool_decide as Hk; [done|]. intros Hrec.
  rewrite <-(IH _ _ _ Hrec), asks_app, (Hn ix' eq_refl), Hk.
  destruct ix' as [k' vs]. cbn [ix_key ix_values]. by rewrite orb_assoc.
Qed.

(** An indexed filter matches when the tag has one of the values. *)
Lemma extract_matches n (tags : gmap string string) :
  wf_node n → ∀ ix, extract_indexable_filter n = Some ix → filter_matches n tags = asks ix tags.
Proof.
  induction n as [n IH] using FilterNode_nested_ind. intros Hwf ix Hex.
  destruct (logical_op n) as [[]|] eqn:Hlog.
  - destruct n. cbn [extract_indexable_filter] in Hex. by rewrite Hlog in Hex.
  - rewrite (extract_or n Hlog) in Hex.
    assert (Hc : Forall (λ c, ∀ ix, extract_indexable_filter c = Some ix →
      filter_matches c tags = asks ix tags) (fn_nodes n)).
    { inversion Hwf as [? _ Hch]; subst. clear - IH Hch. induction IH; inversion Hch; subst; auto. }
    assert (filter_matches n tags = existsb (λ c, filter_matches c tags) (fn_nodes n)) as ->.
    { destruct n. cbn [filter_matches]. by rewrite Hlog. }
    destruct Hc as [|c nodes Hfirst Hrest]; [done|]. cbn [extract_children existsb] in *.
    destruct (extract_indexable_filter c) as [ix'|]; [|done]. cbn [mbind option_bind] in Hex.
    rewrite (Hfirst ix' eq_refl), <-(extract_children_matches nodes tags Hrest _ _ _ Hex).
    by destruct ix'.
  - destruct n. cbn [extract_indexable_filter] in Hex. by rewrite Hlog in Hex.
  - assert (filter_matches n tags = evaluate_comparison n tags) as ->.
    { destruct n. cbn [filter_matches]. by rewrite Hlog. }
    by apply extract_leaf.
Qed.
End extract.

(** ** The index and the subscriptions *)

Section index.
Context `{Memchr} {SocketId : Type} `{Countable SocketId}.
Context (hash : string → string → string → Z).

(** The (channel, key, value) of which the index ever hears do not collide. *)
Context (heard : string → string → string → Prop).
Context (hash_inj : ∀ c k v c' k' v', heard c k v → heard c' k' v' →
  hash c k v = hash c' k' v' → c = c' ∧ k = k' ∧ v = v').

Notation Index := (FilterIndex SocketId).
Notation Subs := (gmap (string * SocketId) (option FilterNode)).
Implicit Types (i : Index) (subs : Subs) (c k v : string) (s : SocketId) (n : FilterNode).

(** The socket's filter is indexed under this key and value. *)
Definition indexed_under subs c s k v : Prop :=
  ∃ n ix, subs !! (c, s) = Some (Some n) ∧ extract_indexable_filter n = Some ix
          ∧ ix_key ix = k ∧ v ∈ ix_values ix.

Record index_inv i subs : Prop := {
  inv_none c s : s ∈ members (fi_no_filter i) c ↔ subs !! (c, s) = Some None;
  inv_complex c s : s ∈ members (fi_complex_filters i) c ↔
    ∃ n, subs !! (c, s) = Some (Some n) ∧ extract_indexable_filter n = None;
  inv_eq c s k v : heard c k v →
    s ∈ members (fi_eq_index i) (hash c k v) ↔ indexed_under subs c s k v;
  inv_keys c h : h ∈ members (fi_channel_keys i) c → ∃ k v, heard c k v ∧ h = hash c k v;
  inv_tracked c s k v : indexed_under subs c s k v →
    heard c k v ∧ hash c k v ∈ members (fi_channel_keys i) c;
  inv_filters c s n : subs !! (c, s) = Some (Some n) → wf_node n;
}.

(** A filter the index may hear of. *)
Definition admissible c (f : option FilterNode) : Prop :=
  ∀ n, f = Some n → wf_node n ∧
    ∀ ix v, extract_indexable_filter n = Some ix → v ∈ ix_values ix → heard c (ix_key ix) v.

(** What happens to the index of a node.  A socket with an indexed filter is removed before it
    is added again, and removed with the filter it was added with. *)
Inductive index_step : relation (Index * Subs) :=
  | ix_add c s f i subs :
      admissible c f →
      (∀ n, subs !! (c, s) = Some (Some n) → extract_indexable_filter n = None) →
      index_step (i, subs) (add_socket_filter hash c s f i, <[(c, s) := f]> subs)
  | ix_remove c s f i subs :
      subs !! (c, s) = Some f →
      index_step (i, subs) (remove_socket_filter hash c s f i, delete (c, s) subs)
  | ix_remove_all c s i subs :
      index_step (i, subs) (remove_socket_all_filters c s i, delete (c, s) subs)
  | ix_clear c i subs :
      index_step (i, subs) (clear_channel c i, filter (λ x, x.1.1 ≠ c) subs).

Lemma index_inv_new : index_inv filter_index_new ∅.
Proof.
  constructor; unfold members, indexed_under; cbn -[lookup]; intros *;
    rewrite ?lookup_empty; simpl; set_solver.
Qed.
(** A socket is gone from its channel. *)
Lemma index_inv_gone i i' subs c s :
  index_inv i subs →
  fi_no_filter i' = set_remove c s (fi_no_filter i) →
  fi_complex_filters i' = set_remove c s (fi_complex_filters i) →
  fi_channel_keys i' = fi_channel_keys i →
  (∀ c' s' k v, heard c' k v →
     s' ∈ members (fi_eq_index i') (hash c' k v)
     ↔ s' ∈ members (fi_eq_index i) (hash c' k v) ∧ ¬ (c' = c ∧ s' = s)) →
  index_inv i' (delete (c, s) subs).
Proof.
  intros [Hn Hc He Hk Ht Hf] Hnone Hcomplex Hkeys Heq.
  assert (Hsub : ∀ c' s' (x : option FilterNode),
    delete (c, s) subs !! (c', s') = Some x ↔ subs !! (c', s') = Some x ∧ ¬ (c' = c ∧ s' = s)).
  { intros c' s' x. rewrite lookup_delete_Some. split; [|by intros [? ?]; split; [intros [= -> ->]|]; auto].
    intros [Hne ?]. split; [done|]. by intros [-> ->]. }
  assert (Hind : ∀ c' s' k v, indexed_under (delete (c, s) subs) c' s' k v
    ↔ indexed_under subs c' s' k v ∧ ¬ (c' = c ∧ s' = s)).
  { intros c' s' k v. unfold indexed_under. setoid_rewrite Hsub. naive_solver. }
  constructor.
  - intros c' s'. rewrite Hnone, elem_of_set_remove, Hn, Hsub. naive_solver.
  - intros c' s'. rewrite Hcomplex, elem_of_set_remove, Hc. setoid_rewrite Hsub. naive_solver.
  - intros c' s' k v Hh. by rewrite Heq, He, Hind.
  - intros c' h. rewrite Hkeys. apply Hk.
  - intros c' s' k v [? _]%Hind. rewrite Hkeys. by apply (Ht c' s').
  - intros c' s' n [? _]%Hsub. by eapply Hf.
Qed.

Lemma index_inv_clear i subs c :
  index_inv i subs → index_inv (clear_channel c i) (filter (λ x, x.1.1 ≠ c) subs).
Proof.
  intros [Hn Hc He Hk Ht Hf].
  assert (Hsub : ∀ c' s' (x : option FilterNode), filter (λ x, x.1.1 ≠ c) subs !! (c', s') = Some x
    ↔ subs !! (c', s') = Some x ∧ c' ≠ c).
  { intros c' s' x. by rewrite map_lookup_filter_Some. }
  assert (Hind : ∀ c' s' k v, indexed_under (filter (λ x, x.1.1 ≠ c) subs) c' s' k v
    ↔ indexed_under subs c' s' k v ∧ c' ≠ c).
  { intros c' s' k v. unfold indexed_under. setoid_rewrite Hsub. naive_solver. }
  assert (Hdel : ∀ {V} `{Countable V} (m : gmap string (gset V)) c' (x : V),
    x ∈ members (delete c m) c' ↔ x ∈ members m c' ∧ c' ≠ c).
  { intros V ? ? m c' x. unfold members. rewrite lookup_delete.
    case_decide; subst; simpl; set_solver. }
  constructor; cbn [clear_channel fi_no_filter fi_complex_filters fi_channel_keys fi_eq_index].
  - intros c' s'. by rewrite Hdel, Hn, Hsub.
  - intros c' s'. rewrite Hdel, Hc. setoid_rewrite Hsub. naive_solver.
  - intros c' s' k v Hh. rewrite Hind, <-(He c' s' k v Hh).
    assert (Hin : hash c' k v ∈ members (fi_channel_keys i) c → c' = c).
    { intros (k' & v' & Hh' & Heq)%Hk. by apply hash_inj in Heq as (-> & _). }
    destruct (fi_channel_keys i !! c) as [hs|] eqn:Hhs.
    + rewrite elem_of_delete_all, elem_of_elements.
      unfold members in Hin. rewrite Hhs in Hin. simpl in Hin. split; [|naive_solver].
      intros [Hs Hnot]. split; [done|]. intros ->. apply Hnot.
      apply He, Ht in Hs as [_ Hs]; [|done]. unfold members in Hs. by rewrite Hhs in Hs.
    + split; [|naive_solver]. intros Hs. split; [done|]. intros ->.
      apply He, Ht in Hs as [_ Hs]; [|done]. unfold members in Hs. rewrite Hhs in Hs.
      by apply elem_of_empty in Hs.
  - intros c' h [? _]%Hdel. by apply Hk.
  - intros c' s' k v [? ?]%Hind. rewrite Hdel. by destruct (Ht c' s' k v).
  - intros c' s' n [? _]%Hsub. by eapply Hf.
Qed.
Lemma elem_of_hashes c ix h :
  h ∈ hash c (ix_key ix) <$> ix_values ix ↔ ∃ v, h = hash c (ix_key ix) v ∧ v ∈ ix_values ix.
Proof. apply list_elem_of_fmap. Qed.

(** A new socket of a channel. *)
Lemma index_inv_fresh i subs c s f :
  index_inv i subs → subs !! (c, s) = None → admissible c f →
  index_inv
    match f with
    | None => {|
        fi_eq_index := fi_eq_index i; fi_channel_keys := fi_channel_keys i;
        fi_complex_filters := fi_complex_filters i;
        fi_no_filter := set_insert c s (fi_no_filter i) |}
    | Some n =>
        match extract_indexable_filter n with
        | Some ix => add_to_eq_index hash c s ix i
        | None => {|
            fi_eq_index := fi_eq_index i; fi_channel_keys := fi_channel_keys i;
            fi_complex_filters := set_insert c s (fi_complex_filters i);
            fi_no_filter := fi_no_filter i |}
        end
    end (<[(c, s) := f]> subs).
Proof.
  intros [Hn Hc He Hk Ht Hf] Hfresh Hadm.
  assert (Hsub : ∀ c' s' (x : option FilterNode), <[(c, s) := f]> subs !! (c', s') = Some x
    ↔ subs !! (c', s') = Some x ∨ (c' = c ∧ s' = s ∧ f = x)).
  { intros c' s' x. rewrite lookup_insert_Some. split; [naive_solver|].
    intros [Hx|(-> & -> & <-)]; [right|by left]. split; [|done]. intros [= -> ->]. congruence. }
  assert (Hwf : ∀ c' s' n, <[(c, s) := f]> subs !! (c', s') = Some (Some n) → wf_node n).
  { intros c' s' n [?|(_ & _ & Hfn)]%Hsub; [by eapply Hf|]. by apply Hadm in Hfn as [? _]. }
  assert (Hind : ∀ c' s' k v, indexed_under (<[(c, s) := f]> subs) c' s' k v
    ↔ indexed_under subs c' s' k v ∨ (c' = c ∧ s' = s ∧
        ∃ n ix, f = Some n ∧ extract_indexable_filter n = Some ix ∧ ix_key ix = k ∧ v ∈ ix_values ix)).
  { intros c' s' k v. unfold indexed_under. setoid_rewrite Hsub. naive_solver. }
  destruct f as [n|]; [destruct (extract_indexable_filter n) as [ix|] eqn:Hex|];
    (constructor; [..|exact Hwf]);
    cbn [add_to_eq_index fi_no_filter fi_complex_filters fi_channel_keys fi_eq_index].
  - intros c' s'. rewrite Hn, Hsub. naive_solver.
  - intros c' s'. rewrite Hc. setoid_rewrite Hsub. naive_solver.
  - intros c' s' k v Hh. rewrite elem_of_insert_all, elem_of_hashes, Hind, (He c' s' k v Hh).
    split; [|naive_solver]. intros [?|(-> & v' & Heq & Hv')]; [by left|right].
    apply hash_inj in Heq as (-> & -> & ->); [naive_solver|done|].
    by eapply Hadm.
  - intros c' h. unfold members. rewrite lookup_insert. case_decide as Hcc; [|apply Hk].
    subst c'. simpl. rewrite elem_of_union, elem_of_list_to_set, elem_of_hashes.
    intros [(v & -> & Hv)|?]; [|by apply Hk]. exists (ix_key ix), v. split; [by eapply Hadm|done].
  - intros c' s' k v. rewrite Hind. unfold members. rewrite lookup_insert.
    intros [[Hh Hin]%Ht|(-> & -> & n' & ix' & [= <-] & Hex' & <- & Hv)].
    + split; [done|]. case_decide; [|done]. subst. simpl. set_solver.
    + replace ix' with ix by congruence. replace ix' with ix in Hv by congruence.
      split; [by eapply Hadm|]. rewrite decide_True by done. simpl.
      rewrite elem_of_union, elem_of_list_to_set, elem_of_hashes. left. by exists v.
  - intros c' s'. rewrite Hn, Hsub. naive_solver.
  - intros c' s'. rewrite elem_of_set_insert, Hc. setoid_rewrite Hsub. naive_solver.
  - intros c' s' k v Hh. rewrite Hind, (He c' s' k v Hh). naive_solver.
  - exact Hk.
  - intros c' s' k v [?|(_ & _ & ? & ? & [= <-] & ? & _)]%Hind; [by eapply Ht|congruence].
  - intros c' s'. rewrite elem_of_set_insert, Hn, Hsub. naive_solver.
  - intros c' s'. rewrite Hc. setoid_rewrite Hsub. naive_solver.
  - intros c' s' k v Hh. rewrite Hind, (He c' s' k v Hh). naive_solver.
  - exact Hk.
  - intros c' s' k v [?|(_ & _ & ? & ? & ? & _)]%Hind; [by eapply Ht|done].
Qed.

Lemma remove_from_eq_index_hashes c s ix i :
  fi_eq_index (remove_from_eq_index hash c s ix i)
  = foldl (λ m h, set_remove h s m) (fi_eq_index i) (hash c (ix_key ix) <$> ix_values ix).
Proof.
  cbn [remove_from_eq_index fi_eq_index]. generalize (fi_eq_index i).
  induction (ix_values ix) as [|v vs IH]; intros m; [done|]. apply IH.
Qed.

Lemma index_inv_step x y : index_step x y → index_inv x.1 x.2 → index_inv y.1 y.2.
Proof.
  destruct 1 as [c s f i subs Hadm Hold|c s f i subs Hs|c s i subs|c i subs]; simpl; intros Hinv.
  - assert (Hgone : index_inv (remove_socket_from_all_indexes c s i) (delete (c, s) subs)).
    { apply (index_inv_gone i); [done|done|done|done|]. intros c' s' k v Hh. simpl.
      split; [|naive_solver]. intros Hs. split; [done|]. intros [-> ->].
      apply (inv_eq _ _ Hinv) in Hs as (n & ix & Hn & Hex & _); [|done].
      apply Hold in Hn. congruence. }
    rewrite <-(insert_delete_eq subs (c, s)).
    apply (index_inv_fresh (remove_socket_from_all_indexes c s i)); [done|apply lookup_delete_eq|done].
  - unfold remove_socket_filter. destruct (f ≫= extract_indexable_filter) as [ix|] eqn:Hex.
    + apply (index_inv_gone i); [done|done|done|done|]. intros c' s' k v Hh.
      rewrite remove_from_eq_index_hashes, elem_of_remove_all, elem_of_hashes. cbn [fi_eq_index].
      destruct f as [n|]; [|done]. simpl in Hex.
      split; intros [Hin Hnot]; (split; [done|]).
      * intros [-> ->]. apply Hnot. split; [done|].
        apply (inv_eq _ _ Hinv) in Hin as (n' & ix' & Hn & Hex' & <- & Hv); [|done].
        rewrite Hs in Hn. injection Hn as <-. rewrite Hex in Hex'. injection Hex' as <-. by exists v.
      * intros (-> & v' & Heq & Hv'). apply Hnot. split; [|done].
        destruct (inv_tracked _ _ Hinv c s (ix_key ix) v') as [Hh' _]; [by exists n, ix|].
        by apply hash_inj in Heq as (-> & _).
    + apply (index_inv_gone i); [done|done|done|done|]. intros c' s' k v Hh. simpl.
      split; [|naive_solver]. intros Hin. split; [done|]. intros [-> ->].
      apply (inv_eq _ _ Hinv) in Hin as (n & ix & Hn & Hex' & _); [|done].
      rewrite Hs in Hn. injection Hn as ->. simpl in Hex. congruence.
  - apply (index_inv_gone i); [done|done|done|done|]. intros c' s' k v Hh.
    cbn [remove_socket_all_filters fi_eq_index].
    pose proof (inv_keys _ _ Hinv c (hash c' k v)) as Hkeys.
    assert (Htr : c' = c → s' ∈ members (fi_eq_index i) (hash c' k v) →
      hash c' k v ∈ members (fi_channel_keys i) c).
    { intros -> Hin. apply (inv_eq _ _ Hinv) in Hin; [|done].
      by apply (inv_tracked _ _ Hinv) in Hin as [_ ?]. }
    unfold members in Hkeys, Htr at 2.
    destruct (fi_channel_keys i !! c) as [hs|]; simpl in Hkeys, Htr.
    + rewrite elem_of_remove_all, elem_of_elements.
      split; intros [Hin Hnot]; (split; [done|]); [by intros [-> ->]; apply Hnot; auto|].
      intros [-> (k' & v' & Hh' & Heq)%Hkeys]. apply Hnot. split; [|done].
      by apply hash_inj in Heq as (-> & _).
    + split; [|naive_solver]. intros Hin. split; [done|]. intros [Hc _].
      by destruct (not_elem_of_empty (C := gset Z) (hash c' k v)); auto.
  - by apply index_inv_clear.
Qed.
(** ** Lookups *)

Lemma elem_of_set_dedup (m : gmap Z (gset SocketId)) hs s X :
  s ∈ foldl (λ dedup h, default ∅ (m !! h) ∪ dedup) X hs ↔ s ∈ X ∨ ∃ h, h ∈ hs ∧ s ∈ members m h.
Proof.
  revert X. induction hs as [|h hs IH]; intros X; cbn [foldl]; [set_solver|].
  rewrite IH, elem_of_union. setoid_rewrite elem_of_cons. unfold members. naive_solver.
Qed.

Lemma elem_of_lookup_eq c tags i s :
  s ∈ lookup_eq_index hash c tags i ↔
  ∃ k v, tags !! k = Some v ∧ s ∈ members (fi_eq_index i) (hash c k v).
Proof.
  unfold lookup_eq_index. case_bool_decide as Ht.
  { subst. split; [by intros ?%not_elem_of_nil|]. intros (k & v & Hk & _). by rewrite lookup_empty in Hk. }
  set (hs := filter _ _).
  assert (Hhs : (∃ k v, tags !! k = Some v ∧ s ∈ members (fi_eq_index i) (hash c k v))
    ↔ ∃ h, h ∈ hs ∧ s ∈ members (fi_eq_index i) h).
  { unfold hs. setoid_rewrite list_elem_of_filter. setoid_rewrite list_elem_of_fmap. split.
    - intros (k & v & Hk & Hs). exists (hash c k v). split; [|done]. split.
      + unfold members in Hs. destruct (fi_eq_index i !! hash c k v); [done|set_solver].
      + exists (k, v). split; [done|]. by apply elem_of_btree_list.
    - intros (h & [_ ([k v] & -> & Hk)] & Hs). exists k, v. split; [|done]. by apply elem_of_btree_list. }
  rewrite Hhs. destruct hs as [|h [|h' hs]].
  - set_solver.
  - rewrite elem_of_elements. fold (members (fi_eq_index i) h). split; [by exists h; split; [left|]|].
    by intros (h' & ->%list_elem_of_singleton & ?).
  - rewrite elem_of_elements, elem_of_set_dedup. split; [|by right]. intros [?|?]; [set_solver|done].
Qed.

Lemma lookup_eq_nodup c tags i : NoDup (lookup_eq_index hash c tags i).
Proof.
  unfold lookup_eq_index. case_bool_decide; [constructor|].
  destruct (filter _ _) as [|h [|h' hs]]; [constructor|apply NoDup_elements..].
Qed.

(** The sockets a message goes to: those of the lookup, with the complex filters evaluated. *)
Definition receivers c tags i subs : list SocketId :=
  let r := index_lookup hash c tags i in
  lr_indexed_matches r
  ++ filter (λ s, (f ← subs !! (c, s); n ← f; Some (filter_matches n tags)) = Some true)
       (lr_needs_evaluation r)
  ++ lr_no_filter r.

Definition filter_accepts (f : option FilterNode) (tags : gmap string string) : bool :=
  match f with
  | None => true
  | Some n => filter_matches n tags
  end.

Lemma receivers_exact c tags i subs :
  index_inv i subs → (∀ k v, tags !! k = Some v → heard c k v) →
  NoDup (receivers c tags i subs)
  ∧ ∀ s, s ∈ receivers c tags i subs ↔ ∃ f, subs !! (c, s) = Some f ∧ filter_accepts f tags = true.
Proof.
  intros [Hn Hc He _ _ Hf] Hheard. unfold receivers. cbn [index_lookup lr_indexed_matches
    lr_needs_evaluation lr_no_filter].
  fold (members (fi_complex_filters i) c) (members (fi_no_filter i) c).
  assert (Heq : ∀ s, s ∈ lookup_eq_index hash c tags i ↔
    ∃ n ix, subs !! (c, s) = Some (Some n) ∧ extract_indexable_filter n = Some ix
            ∧ filter_matches n tags = true).
  { intros s. rewrite elem_of_lookup_eq. split.
    - intros (k & v & Hk & Hs). apply He in Hs as (n & ix & Hsub & Hex & <- & Hv); [|auto].
      exists n, ix. split_and!; try done. rewrite (extract_matches n tags (Hf _ _ _ Hsub) ix Hex).
      unfold asks. rewrite Hk. by apply bool_decide_eq_true.
    - intros (n & ix & Hsub & Hex & Hm). rewrite (extract_matches n tags (Hf _ _ _ Hsub) ix Hex) in Hm.
      unfold asks in Hm. destruct (tags !! ix_key ix) as [v|] eqn:Hk; [|done].
      apply bool_decide_eq_true in Hm. exists (ix_key ix), v. split; [done|]. apply He; [auto|].
      by exists n, ix. }
  split.
  - apply NoDup_app. split_and!; [apply lookup_eq_nodup| |].
    + intros s (n & ix & Hs & Hex & _)%Heq [[_ Hin]%list_elem_of_filter|Hin]%elem_of_app;
        rewrite elem_of_elements in Hin; [apply Hc in Hin as (n' & Hs' & Hex')|apply Hn in Hin];
        congruence.
    + apply NoDup_app. split_and!; [apply NoDup_filter, NoDup_elements| |apply NoDup_elements].
      intros s [_ Hin]%list_elem_of_filter Hin'. rewrite elem_of_elements in Hin, Hin'.
      apply Hc in Hin as (n & Hs & _). apply Hn in Hin'. congruence.
  - intros s. rewrite !elem_of_app, list_elem_of_filter, !elem_of_elements, Heq, Hc, Hn. split.
    + intros [(n & ix & Hs & _ & Hm)|[[Hm (n & Hs & _)]|Hs]]; [by exists (Some n)| |by exists None].
      exists (Some n). split; [done|]. rewrite Hs in Hm. simpl in Hm. by injection Hm.
    + intros ([n|] & Hs & Hm); [|by right; right]. simpl in Hm.
      destruct (extract_indexable_filter n) as [ix|] eqn:Hex; [left; by exists n, ix|].
      right. left. rewrite Hs. simpl. rewrite Hm. split; [done|]. by exists n.
Qed.

(** C17: the index agrees with evaluating every filter.  After any sequence of subscriptions,
    unsubscriptions, disconnections and cleared channels, in which no socket is added over an
    indexed filter of its own, the sockets found for a message are those subscribed to the
    channel whose filter matches the message's tags, and each is found once; as long as the
    hashes of what the index heard of do not collide. *)
Theorem index_finds_receivers c tags i subs :
  rtc index_step (filter_index_new, ∅) (i, subs) →
  (∀ k v, tags !! k = Some v → heard c k v) →
  NoDup (receivers c tags i subs)
  ∧ ∀ s, s ∈ receivers c tags i subs ↔ ∃ f, subs !! (c, s) = Some f ∧ filter_accepts f tags = true.
Proof.
  intros Hreach. apply receivers_exact. change (index_inv (i, subs).1 (i, subs).2).
  refine (rtc_ind_r (λ x, index_inv x.1 x.2) (filter_index_new, ∅) index_inv_new _ _ Hreach).
  intros x y _ Hstep. by apply index_inv_step.
Qed.
End index.

(** ** A run *)

Section run.
Import SampleSearch.

(** A channel of trades, filtered by item; the hash is the first byte of the value. *)
Definition trade_hash (c k v : string) : Z :=
  match v with String a _ => Z.of_nat (Ascii.nat_of_ascii a) | EmptyString => 0 end.

Definition trade_heard (c k v : string) : Prop :=
  c = "trades" ∧ k = "item" ∧ (v = "1" ∨ v = "2").

Lemma trade_hash_inj c k v c' k' v' :
  trade_heard c k v → trade_heard c' k' v' → trade_hash c k v = trade_hash c' k' v' →
  c = c' ∧ k = k' ∧ v = v'.
Proof. intros (-> & -> & [->| ->]) (-> & -> & [->| ->]); done. Qed.

Definition item (v : string) : FilterNode := FilterNodeBuilder.eq "item" v.
Definition not_item (v : string) : FilterNode := FilterNodeBuilder.neq "item" v.

(** Socket 1 wants item 1, socket 2 everything, socket 3 anything but item 1. *)
Definition trade_index : FilterIndex nat :=
  add_socket_filter trade_hash "trades" 3 (Some (not_item "1"))
    (add_socket_filter trade_hash "trades" 2 None
       (add_socket_filter trade_hash "trades" 1 (Some (item "1")) filter_index_new)).

Definition trade_subs : gmap (string * nat) (option FilterNode) :=
  <[("trades", 3) := Some (not_item "1")]>
    (<[("trades", 2) := None]> (<[("trades", 1) := Some (item "1")]> ∅)).

Lemma index_finds_receivers_witness :
  NoDup (receivers trade_hash "trades" {[ "item" := "1" ]} trade_index trade_subs)
  ∧ 1 ∈ receivers trade_hash "trades" {[ "item" := "1" ]} trade_index trade_subs
  ∧ 3 ∉ receivers trade_hash "trades" {[ "item" := "1" ]} trade_index trade_subs.
Proof.
  destruct (index_finds_receivers trade_hash trade_heard trade_hash_inj "trades"
    {[ "item" := "1" ]} trade_index trade_subs) as [Hnd Hin].
  - eapply rtc_l; [|eapply rtc_l; [|eapply rtc_once]]; apply ix_add;
      try (intros n; rewrite ?lookup_insert_ne, ?lookup_empty by done; discriminate).
    + intros n [= <-]. split; [repeat constructor; done|].
      intros ix v. vm_compute. intros [= <-] ->%list_elem_of_singleton. by split_and!; auto.
    + intros n [= <-]. split; [repeat constructor; done|]. intros ix v. done.
  - intros k v Hk. apply lookup_singleton_Some in Hk as [<- <-]. split_and!; auto.
  - split_and!; [exact Hnd|apply Hin; by exists (Some (item "1"))|].
    intros (f & Hf & Hm)%Hin. vm_compute in Hf. injection Hf as <-. vm_compute in Hm. done.
Defined.

(** Socket 1 changes its mind to item 2 without being removed first: a trade of item 1 still
    finds it. *)
Lemma stale_index_entry :
  lr_indexed_matches (index_lookup trade_hash "trades" {[ "item" := "1" ]}
    (add_socket_filter trade_hash "trades" 1 (Some (item "2")) trade_index)) = [1]
  ∧ filter_matches (item "2") ({[ "item" := "1" ]} : gmap string string) = false.
Proof. vm_compute. done. Qed.
End run.
