(* ===== verification/Predicate.v ===== *)
(** * Subscription predicates

    Bounded, compile-once predicates: limits, validation of events, tags and JMESPath
    expressions, compilation, the stable identity and matching. *)

From Stdlib Require Import ZArith Lia Ascii.
From stdpp Require Import base gmap strings list sorting pretty.
From S2P Require Import Prelude StdSlice StdFloat FilterNode.

Record PredicateLimits := {
  max_events : Z;
  max_event_bytes : Z;
  max_tag_nodes : Z;
  max_tag_depth : Z;
  max_tag_key_bytes : Z;
  max_tag_value_bytes : Z;
  max_tag_values_per_node : Z;
  max_expression_bytes : Z;
  max_expression_nodes : Z;
  max_expression_depth : Z;
}.

Definition default_predicate_limits : PredicateLimits := {|
  max_events := 64; max_event_bytes := 256; max_tag_nodes := 128; max_tag_depth := 16;
  max_tag_key_bytes := 256; max_tag_value_bytes := 1024; max_tag_values_per_node := 128;
  max_expression_bytes := 4096; max_expression_nodes := 256; max_expression_depth := 32;
|}.

Record SubscriptionView := {
  sv_events : list string;
  sv_tags : option FilterNode;
  sv_expression : option string;
}.

Inductive PredicateCompileError : Type :=
| TooManyEvents (limit : Z)
| EmptyEvent (index : Z)
| EventTooLong (index limit : Z)
| TooManyTagNodes (limit : Z)
| TagTreeTooDeep (limit : Z)
| TagKeyTooLong (limit : Z)
| TagValueTooLong (limit : Z)
| TooManyTagValues (limit : Z)
| InvalidTagFilter (reason : string)
| EmptyExpression
| ExpressionTooLong (limit : Z)
| InvalidExpression (reason : string)
| TooManyExpressionNodes (limit : Z)
| ExpressionTooDeep (limit : Z).

(** The text of an evaluation error; [Display] puts "JMESPath evaluation failed: " before it. *)
Record PredicateEvaluationError := { pe_message : string }.

Definition missing_document : PredicateEvaluationError :=
  {| pe_message := "predicate requires a projected document" |}.

Definition from_jmespath (error : string) : PredicateEvaluationError := {| pe_message := error |}.

(** ** The identity hash *)

Definition fnv_offset : Z := 14695981039346656037.

(** [PredicateIdHasher::write]. *)
Definition fnv_write (h : Z) (bytes : list Z) : Z :=
  foldl (λ h b, u64_wrap (Z.lxor h b * 1099511628211)) h bytes.

(** What the standard library feeds a hasher, on a 64-bit little-endian machine: integers
    of machine size as eight bytes, strings as their bytes and 255, sequences with their
    length, enums with the index of the variant first. *)
Fixpoint le_bytes (k : nat) (z : Z) : list Z :=
  match k with O => [] | S k => (z mod 256)%Z :: le_bytes k (z / 256) end.

Definition hash_usize (z : Z) : list Z := le_bytes 8 z.

Fixpoint string_bytes (s : string) : list Z :=
  match s with
  | EmptyString => []
  | String a rest => Z.of_N (Ascii.N_of_ascii a) :: string_bytes rest
  end.

Definition hash_str (s : string) : list Z := string_bytes s ++ [255%Z].

Definition hash_list {A} (f : A → list Z) (l : list A) : list Z :=
  hash_usize (Z.of_nat (length l)) ++ concat (f <$> l).

Definition hash_option {A} (f : A → list Z) (o : option A) : list Z :=
  match o with None => hash_usize 0 | Some x => hash_usize 1 ++ f x end.

Definition logical_op_index (op : LogicalOp) : Z :=
  match op with LAnd => 0 | LOr => 1 | LNot => 2 end.

Definition compare_op_index (op : CompareOp) : Z :=
  match op with
  | OpEqual => 0 | OpNotEqual => 1 | OpIn => 2 | OpNotIn => 3 | OpExists => 4 | OpNotExists => 5
  | OpStartsWith => 6 | OpEndsWith => 7 | OpContains => 8 | OpGreaterThan => 9
  | OpGreaterThanOrEqual => 10 | OpLessThan => 11 | OpLessThanOrEqual => 12
  end.

(** ** Compiled tag filters *)

Inductive CompiledTagNode : Type :=
| CLogical (op : LogicalOp) (nodes : list CompiledTagNode)
| CComparison (key : string) (op : CompareOp) (val : option string) (vals : list string).

Fixpoint hash_tag_node (n : CompiledTagNode) : list Z :=
  match n with
  | CLogical op nodes =>
      hash_usize 0 ++ hash_usize (logical_op_index op) ++
      hash_usize (Z.of_nat (length nodes)) ++ concat (hash_tag_node <$> nodes)
  | CComparison key op val vals =>
      hash_usize 1 ++ hash_str key ++ hash_usize (compare_op_index op) ++
      hash_option hash_str val ++ hash_list hash_str vals
  end.

Fixpoint compile_tags (n : FilterNode) : result PredicateCompileError CompiledTagNode :=
  match fn_op n with
  | Some op =>
      let? op := ok_or (logical_op_parse op) (InvalidTagFilter "unknown logical operator") in
      let? nodes := rmapM compile_tags (fn_nodes n) in
      Ok (CLogical op nodes)
  | None =>
      let? key := ok_or (fn_key n) (InvalidTagFilter "leaf node requires a key") in
      let? op_source := ok_or (fn_cmp n) (InvalidTagFilter "leaf node requires an operator") in
      let? op := ok_or (compare_op_parse op_source)
                   (InvalidTagFilter "unknown comparison operator") in
      Ok (CComparison key op (fn_val n) (sort_dedup (fn_vals n)))
  end.

(** ** Validation *)

Fixpoint validate_event_list (index : Z) (events : list string) (limits : PredicateLimits)
    : result PredicateCompileError unit :=
  match events with
  | [] => Ok tt
  | event :: events =>
      if str_is_empty event then Err (EmptyEvent index)
      else if (str_len event >? max_event_bytes limits)%Z
      then Err (EventTooLong index (max_event_bytes limits))
      else validate_event_list (index + 1) events limits
  end.

Definition validate_events (events : list string) (limits : PredicateLimits)
    : result PredicateCompileError unit :=
  if (Z.of_nat (length events) >? max_events limits)%Z
  then Err (TooManyEvents (max_events limits))
  else validate_event_list 0 events limits.

Definition validate_tag_shape (n : FilterNode) : result PredicateCompileError unit :=
  match fn_op n with
  | Some op =>
      let? logical := ok_or (logical_op_parse op)
                        (InvalidTagFilter ("unknown logical operator: " +:+ op)) in
      if some (fn_key n) || some (fn_cmp n) || some (fn_val n)
         || negb (bool_decide (fn_vals n = []))
      then Err (InvalidTagFilter "logical node contains comparison fields")
      else
        let valid_arity :=
          match logical with
          | LAnd | LOr => negb (bool_decide (fn_nodes n = []))
          | LNot => (length (fn_nodes n) =? 1)%nat
          end in
        if negb valid_arity then Err (InvalidTagFilter ("invalid child count for " +:+ op))
        else Ok tt
  | None =>
      if negb (bool_decide (fn_nodes n = []))
      then Err (InvalidTagFilter "comparison node contains child nodes")
      else
        let? key := ok_or (fn_key n) (InvalidTagFilter "leaf node requires a key") in
        if str_is_empty key then Err (InvalidTagFilter "leaf node requires a non-empty key")
        else
          let? op_source := ok_or (fn_cmp n) (InvalidTagFilter "leaf node requires an operator") in
          let? op := ok_or (compare_op_parse op_source)
                       (InvalidTagFilter ("unknown comparison operator: " +:+ op_source)) in
          match op with
          | OpIn | OpNotIn =>
              if bool_decide (fn_vals n = [])
              then Err (InvalidTagFilter "set comparison requires values") else Ok tt
          | OpExists | OpNotExists => Ok tt
          | _ =>
              if match fn_val n with Some v => str_is_empty v | None => true end
              then Err (InvalidTagFilter "comparison requires a value") else Ok tt
          end
  end.

(** One turn of the loop of [validate_tags]. *)
Definition visit_tag_node (limits : PredicateLimits) (count depth : Z) (n : FilterNode)
    : result PredicateCompileError unit :=
  if (count >? max_tag_nodes limits)%Z then Err (TooManyTagNodes (max_tag_nodes limits))
  else if (depth >? max_tag_depth limits)%Z then Err (TagTreeTooDeep (max_tag_depth limits))
  else if match fn_key n with
          | Some key => (str_len key >? max_tag_key_bytes limits)%Z
          | None => false
          end then Err (TagKeyTooLong (max_tag_key_bytes limits))
  else if match fn_val n with
          | Some value => (str_len value >? max_tag_value_bytes limits)%Z
          | None => false
          end || existsb (λ value, str_len value >? max_tag_value_bytes limits)%Z (fn_vals n)
  then Err (TagValueTooLong (max_tag_value_bytes limits))
  else if (Z.of_nat (length (fn_vals n)) >? max_tag_values_per_node limits)%Z
  then Err (TooManyTagValues (max_tag_values_per_node limits))
  else validate_tag_shape n.

Fixpoint tag_count (n : FilterNode) : nat := S (sum_list (tag_count <$> fn_nodes n)).

Lemma tag_count_eq n : tag_count n = S (sum_list (tag_count <$> fn_nodes n)).
Proof. by destruct n. Qed.

Definition validate_tags (root : FilterNode) (limits : PredicateLimits)
    : result PredicateCompileError unit :=
  let? _ := walk_tree fn_nodes (visit_tag_node limits) tag_count tag_count_eq root in
  match filter_validate root with
  | Some error => Err (InvalidTagFilter error)
  | None => Ok tt
  end.

(** ** Expressions

    The variants of the JMESPath syntax tree, with the children the validator visits. *)

Inductive Ast : Type :=
| AstComparison (lhs rhs : Ast)
| AstProjection (lhs rhs : Ast)
| AstAnd (lhs rhs : Ast)
| AstOr (lhs rhs : Ast)
| AstSubexpr (lhs rhs : Ast)
| AstCondition (predicate then_ : Ast)
| AstExpref (ast : Ast)
| AstFlatten (node : Ast)
| AstNot (node : Ast)
| AstObjectValues (node : Ast)
| AstFunction (args : list Ast)
| AstMultiList (elements : list Ast)
| AstMultiHash (elements : list (string * Ast))
| AstIdentity | AstField | AstIndex | AstLiteral | AstSlice.

(** The nodes pushed for a node, in order. *)
Definition ast_children (a : Ast) : list Ast :=
  match a with
  | AstComparison lhs rhs | AstProjection lhs rhs | AstAnd lhs rhs | AstOr lhs rhs
  | AstSubexpr lhs rhs => [lhs; rhs]
  | AstCondition predicate then_ => [predicate; then_]
  | AstExpref ast => [ast]
  | AstFlatten node | AstNot node | AstObjectValues node => [node]
  | AstFunction args => args
  | AstMultiList elements => elements
  | AstMultiHash elements => elements.*2
  | AstIdentity | AstField | AstIndex | AstLiteral | AstSlice => []
  end.

Fixpoint ast_count (a : Ast) : nat :=
  S match a with
    | AstComparison lhs rhs | AstProjection lhs rhs | AstAnd lhs rhs | AstOr lhs rhs
    | AstSubexpr lhs rhs => ast_count lhs + ast_count rhs
    | AstCondition predicate then_ => ast_count predicate + ast_count then_
    | AstExpref ast => ast_count ast
    | AstFlatten node | AstNot node | AstObjectValues node => ast_count node
    | AstFunction args => sum_list (ast_count <$> args)
    | AstMultiList elements => sum_list (ast_count <$> elements)
    | AstMultiHash elements => sum_list ((λ pair, ast_count pair.2) <$> elements)
    | AstIdentity | AstField | AstIndex | AstLiteral | AstSlice => 0
    end.

Lemma ast_count_eq a : ast_count a = S (sum_list (ast_count <$> ast_children a)).
Proof.
  destruct a; simpl; try lia.
  by rewrite <-list_fmap_compose.
Qed.

Definition visit_ast (limits : PredicateLimits) (count depth : Z) (_ : Ast)
    : result PredicateCompileError unit :=
  if (count >? max_expression_nodes limits)%Z
  then Err (TooManyExpressionNodes (max_expression_nodes limits))
  else if (depth >? max_expression_depth limits)%Z
  then Err (ExpressionTooDeep (max_expression_depth limits))
  else Ok tt.

Definition validate_expression_ast (root : Ast) (limits : PredicateLimits)
    : result PredicateCompileError unit :=
  walk_tree ast_children (visit_ast limits) ast_count ast_count_eq root.

(** The crate jmespath: compiled expressions, projected documents, search. *)
Class Jmespath := {
  Expression : Type;
  JmesValue : Type;
  jmes_compile : string → result string Expression;
  jmes_as_str : Expression → string;
  jmes_as_ast : Expression → Ast;
  jmes_search : Expression → JmesValue → result string JmesValue;
  jmes_is_truthy : JmesValue → bool;
}.

(** Serializing a document of type [D] to a JMESPath value. *)
Class ToJmespath `{Jmespath} (D : Type) := { to_jmespath : D → result string JmesValue }.

Section predicate.
Context `{Memchr, Jmespath}.

Definition compile_expression (source : string) (limits : PredicateLimits)
    : result PredicateCompileError Expression :=
  if str_is_empty source then Err EmptyExpression
  else if (str_len source >? max_expression_bytes limits)%Z
  then Err (ExpressionTooLong (max_expression_bytes limits))
  else
    let? expression :=
      match jmes_compile source with
      | Ok expression => Ok expression
      | Err error => Err (InvalidExpression error)
      end in
    let? _ := validate_expression_ast (jmes_as_ast expression) limits in
    Ok expression.

Record MessagePredicate := {
  mp_events : list string;
  mp_tags : option CompiledTagNode;
  mp_expression : option Expression;
  mp_id : Z;
}.

(** The bytes hashed for the identity. *)
Definition predicate_hash (events : list string) (tags : option CompiledTagNode)
    (expression : option Expression) : Z :=
  fnv_write fnv_offset
    (hash_list hash_str events ++ hash_option hash_tag_node tags ++
     hash_option hash_str (jmes_as_str <$> expression)).

Definition transpose {E A} (o : option (result E A)) : result E (option A) :=
  match o with
  | None => Ok None
  | Some (Ok x) => Ok (Some x)
  | Some (Err e) => Err e
  end.

Definition compile_with_limits (view : SubscriptionView) (limits : PredicateLimits)
    : result PredicateCompileError MessagePredicate :=
  let? _ := validate_events (sv_events view) limits in
  let events := sort_dedup (sv_events view) in
  let? tags :=
    match sv_tags view with
    | Some tags =>
        let? _ := validate_tags tags limits in
        let? compiled := compile_tags tags in
        Ok (Some compiled)
    | None => Ok None
    end in
  let? expression :=
    transpose ((λ source, compile_expression source limits) <$> sv_expression view) in
  Ok {| mp_events := events; mp_tags := tags; mp_expression := expression;
        mp_id := predicate_hash events tags expression |}.

Definition compile (view : SubscriptionView) : result PredicateCompileError MessagePredicate :=
  compile_with_limits view default_predicate_limits.

(** ** Matching *)

Section tags.
Context {T : Type} `{TagMap T}.

Definition compare_number (actual : option string) (expected : string)
    (compare : f64 → f64 → bool) : bool :=
  match actual ≫= parse_f64, parse_f64 expected with
  | Some a, Some b => compare a b
  | _, _ => false
  end.

Definition some_and {A} (o : option A) (f : A → bool) : bool :=
  match o with Some x => f x | None => false end.

Definition none_or {A} (o : option A) (f : A → bool) : bool :=
  match o with Some x => f x | None => true end.

Fixpoint tag_node_matches (n : CompiledTagNode) (tags : T) : bool :=
  match n with
  | CLogical LAnd nodes => forallb (λ node, tag_node_matches node tags) nodes
  | CLogical LOr nodes => existsb (λ node, tag_node_matches node tags) nodes
  | CLogical LNot nodes =>
      match nodes with node :: _ => negb (tag_node_matches node tags) | [] => false end
  | CComparison key op val vals =>
      let actual := get_tag tags key in
      let expected := default "" val in
      match op with
      | OpEqual => some_and actual (λ value, bool_decide (value = expected))
      | OpNotEqual => none_or actual (λ value, negb (bool_decide (value = expected)))
      | OpIn => some_and actual (λ value, is_ok (binary_search vals value))
      | OpNotIn => none_or actual (λ value, negb (is_ok (binary_search vals value)))
      | OpExists => some actual
      | OpNotExists => negb (some actual)
      | OpStartsWith => some_and actual (λ value, starts_with value expected)
      | OpEndsWith => some_and actual (λ value, ends_with value expected)
      | OpContains =>
          some_and actual (λ value,
            match expected with
            | String a EmptyString => some (memchr a value)
            | _ => some (memmem_find value expected)
            end)
      | OpGreaterThan => compare_number actual expected f64_gt
      | OpGreaterThanOrEqual => compare_number actual expected f64_ge
      | OpLessThan => compare_number actual expected f64_lt
      | OpLessThanOrEqual => compare_number actual expected f64_le
      end
  end.

Definition matches_cheap (p : MessagePredicate) (event : option string) (tags : T) : bool :=
  if negb (bool_decide (mp_events p = []))
     && none_or event (λ event, negb (is_ok (binary_search (mp_events p) event)))
  then false
  else negb (some_and (mp_tags p) (λ filter, negb (tag_node_matches filter tags))).

Definition matches_projected (p : MessagePredicate) (event : option string) (tags : T)
    (document : option JmesValue) : result PredicateEvaluationError bool :=
  if negb (matches_cheap p event tags) then Ok false
  else
    match mp_expression p with
    | None => Ok true
    | Some expression =>
        let? document := ok_or document missing_document in
        match jmes_search expression document with
        | Ok value => Ok (jmes_is_truthy value)
        | Err error => Err (from_jmespath error)
        end
    end.

(** [ProjectedDocument::new]. *)
Definition projected_document_new {D} `{!ToJmespath D} (document : D)
    : result PredicateEvaluationError JmesValue :=
  match to_jmespath document with
  | Ok value => Ok value
  | Err error => Err (from_jmespath error)
  end.

Definition predicate_matches {D} `{!ToJmespath D} (p : MessagePredicate) (event : option string)
    (tags : T) (document : D) : result PredicateEvaluationError bool :=
  if negb (matches_cheap p event tags) then Ok false
  else
    match mp_expression p with
    | None => Ok true
    | Some expression =>
        let? projected := projected_document_new document in
        match jmes_search expression projected with
        | Ok value => Ok (jmes_is_truthy value)
        | Err error => Err (from_jmespath error)
        end
    end.
End tags.

Definition is_match_all (p : MessagePredicate) : bool :=
  bool_decide (mp_events p = []) && negb (some (mp_tags p)) && negb (some (mp_expression p)).

Definition requires_document (p : MessagePredicate) : bool := some (mp_expression p).

Definition expression_source (p : MessagePredicate) : option string :=
  jmes_as_str <$> mp_expression p.
End predicate.

(** ** The bounded buffer of a projection *)

Record BoundedWriter := {
  bw_bytes : list Z;
  bw_limit : Z;
  bw_exceeded : bool;
}.

Definition bounded_writer_new (limit : Z) : BoundedWriter :=
  {| bw_bytes := []; bw_limit := limit; bw_exceeded := false |}.

(** [Write::write]; [checked_add] on the lengths fails past [usize::MAX]. *)
Definition bounded_write (w : BoundedWriter) (bytes : list Z) : BoundedWriter * result string Z :=
  let refuse :=
    ({| bw_bytes := bw_bytes w; bw_limit := bw_limit w; bw_exceeded := true |},
     Err "projection byte limit exceeded") in
  let end_ := (Z.of_nat (length (bw_bytes w)) + Z.of_nat (length bytes))%Z in
  if (end_ >? u64_max)%Z then refuse
  else if (end_ >? bw_limit w)%Z then refuse
  else
    ({| bw_bytes := bw_bytes w ++ bytes; bw_limit := bw_limit w; bw_exceeded := bw_exceeded w |},
     Ok (Z.of_nat (length bytes))).
