(* ===== verification/PredicateThms.v ===== *)
(** * What compiled predicates guarantee

    Validation accepts exactly the trees within the limits, compilation of a validated
    view cannot fail, a compiled predicate decides like the interpreter of its source,
    and its identity depends on the meaning of the view only. *)

From Stdlib Require Import ZArith Lia Ascii.
From stdpp Require Import base gmap strings list sorting pretty.
From S2P Require Import Prelude StdSlice StdFloat FilterNode FilterThms Predicate.

Implicit Types (n : FilterNode) (limits : PredicateLimits) (view : SubscriptionView).

(** ** Limits *)

(** The limits on the texts of one node. *)
Definition node_within limits n : Prop :=
  (∀ key, fn_key n = Some key → (str_len key ≤ max_tag_key_bytes limits)%Z) ∧
  (∀ val, fn_val n = Some val → (str_len val ≤ max_tag_value_bytes limits)%Z) ∧
  Forall (λ val, (str_len val ≤ max_tag_value_bytes limits)%Z) (fn_vals n) ∧
  (Z.of_nat (length (fn_vals n)) ≤ max_tag_values_per_node limits)%Z.

Lemma option_gtb (o : option string) (bound : Z) :
  match o with Some s => (str_len s >? bound)%Z | None => false end = false ↔
  ∀ s, o = Some s → (str_len s ≤ bound)%Z.
Proof. destruct o as [s|]; [|naive_solver]. rewrite Z.gtb_ltb, Z.ltb_ge. naive_solver. Qed.

Lemma existsb_gtb (l : list string) (bound : Z) :
  existsb (λ s, str_len s >? bound)%Z l = false ↔ Forall (λ s, (str_len s ≤ bound)%Z) l.
Proof.
  induction l as [|s l IH]; simpl; [by split|].
  rewrite orb_false_iff, IH, Z.gtb_ltb, Z.ltb_ge, Forall_cons. done.
Qed.

Lemma visit_tag_node_Ok limits count depth n :
  visit_tag_node limits count depth n = Ok tt ↔
  (count ≤ max_tag_nodes limits)%Z ∧
  ((depth ≤ max_tag_depth limits)%Z ∧ node_within limits n ∧ validate_tag_shape n = Ok tt).
Proof.
  unfold visit_tag_node, node_within.
  rewrite <-!option_gtb, <-existsb_gtb.
  rewrite !Z.gtb_ltb.
  destruct (Z.ltb_spec (max_tag_nodes limits) count); [split; [done|lia]|].
  destruct (Z.ltb_spec (max_tag_depth limits) depth); [split; [done|lia]|].
  destruct (match fn_key n with Some _ => _ | None => _ end); [naive_solver|].
  destruct (match fn_val n with Some _ => _ | None => _ end); [naive_solver|].
  destruct (existsb _ _); [naive_solver|]. simpl.
  destruct (Z.ltb_spec (max_tag_values_per_node limits) (Z.of_nat (length (fn_vals n)))).
  - split; [done|]. lia.
  - naive_solver.
Qed.

(** ** Shape *)

Lemma shape_leaf_problem n :
  fn_op n = None → validate_tag_shape n = Ok tt → leaf_problem n = None.
Proof.
  intros Hop. unfold validate_tag_shape, leaf_problem. rewrite Hop.
  case_bool_decide; [|done]. simpl. destruct (fn_key n) as [key|]; [|done]. simpl.
  destruct (str_is_empty key); [done|]. destruct (fn_cmp n) as [cmp|]; [|done]. simpl.
  destruct (compare_op_parse cmp) as [[]|]; simpl; try done;
    try (by destruct (bool_decide (fn_vals n = [])));
    destruct (fn_val n) as [v|]; simpl; try done; by destruct (str_is_empty v).
Qed.

Lemma shape_arity_problem n op :
  fn_op n = Some op → validate_tag_shape n = Ok tt →
  ∃ logical, logical_op_parse op = Some logical ∧ arity_problem op logical n = None.
Proof.
  intros Hop. unfold validate_tag_shape, arity_problem. rewrite Hop.
  destruct (logical_op_parse op) as [logical|]; [|done]. simpl.
  destruct (_ || _); [done|]. intros Har. exists logical. split; [done|]. revert Har.
  destruct logical; [by case_bool_decide..|]. by destruct (_ =? _)%nat.
Qed.

(** The nodes of a tree, in the sense of the loop and of the recursion. *)
Lemma at_depth_child (P : FilterNode → Prop) n d :
  (∀ x e, at_depth fn_nodes n d x e → P x) ↔
  P n ∧ Forall (λ c, ∀ x e, at_depth fn_nodes c (d + 1) x e → P x) (fn_nodes n).
Proof.
  split.
  - intros Hall. split; [eapply Hall, at_root|]. apply Forall_forall. intros c Hc x e Hat.
    by eapply Hall, at_child.
  - intros [Hn Hch] x e Hat. destruct Hat as [|c x e Hc Hat]; [done|].
    rewrite Forall_forall in Hch. by eapply Hch.
Qed.

(** The recursive validation finds nothing the loop has not found. *)
Lemma shape_filter_validate n d :
  (∀ x e, at_depth fn_nodes n d x e → validate_tag_shape x = Ok tt) → filter_validate n = None.
Proof.
  revert d. induction n as [n IH] using FilterNode_nested_ind. intros d Hall.
  apply at_depth_child in Hall as [Hn Hch].
  destruct (fn_op n) as [op|] eqn:Hop.
  - destruct (shape_arity_problem n op Hop Hn) as (logical & Hl & Har).
    destruct n as [nop key cmp val vals nodes sorted].
    cbn [filter_validate fn_op fn_nodes] in *. subst nop. rewrite Hl, Har. clear Har Hn.
    generalize 0. induction Hch as [|c nodes Hc _ IHn]; intros i; [done|].
    apply Forall_cons in IH as [IHc IH]. simpl. rewrite (IHc _ Hc). by apply IHn.
  - pose proof (shape_leaf_problem n Hop Hn). destruct n as [nop nkey ncmp nval nvals nnodes nsorted]. cbn [filter_validate fn_op] in *.
    by rewrite Hop.
Qed.

(** Validation accepts exactly the trees within the limits.  The loop over an explicit
    stack terminates and accepts a filter if and only if it has at most [max_tag_nodes]
    nodes, none of them deeper than [max_tag_depth], the texts of each node are within
    their limits and each node is well shaped; the recursive validation at the end never
    rejects what the loop accepted. *)
Theorem validate_tags_iff root limits :
  (max_tag_nodes limits ≤ u64_max)%Z → (Z.of_nat (tag_count root) < u64_max)%Z →
  validate_tags root limits = Ok tt ↔
  (Z.of_nat (tag_count root) ≤ max_tag_nodes limits)%Z ∧
  ∀ x depth, at_depth fn_nodes root 1 x depth →
    (depth ≤ max_tag_depth limits)%Z ∧ node_within limits x ∧ validate_tag_shape x = Ok tt.
Proof.
  intros Hmax Hroot. unfold validate_tags.
  pose proof (walk_tree_accepts fn_nodes (visit_tag_node limits) tag_count tag_count_eq
    (max_tag_nodes limits) _ root (visit_tag_node_Ok limits) Hmax Hroot) as Hwalk.
  destruct (walk_tree _ _ _ _ _) as [[]|e]; simpl.
  - assert (filter_validate root = None) as ->; [|done].
    apply (shape_filter_validate root 1). intros x d Hat. by apply Hwalk in Hat as (_ & _ & ?).
  - split; [done|]. intros Hok%Hwalk. done.
Qed.

(** ** Compilation *)

Lemma shape_leaf_parses n :
  fn_op n = None → validate_tag_shape n = Ok tt →
  ∃ key cmp op, fn_key n = Some key ∧ fn_cmp n = Some cmp ∧ compare_op_parse cmp = Some op.
Proof.
  intros Hop. unfold validate_tag_shape. rewrite Hop. case_bool_decide; [|done]. simpl.
  destruct (fn_key n) as [key|]; [|done]. simpl. destruct (str_is_empty key); [done|].
  destruct (fn_cmp n) as [cmp|]; [|done]. simpl. destruct (compare_op_parse cmp) eqn:Hc; [|done]. intros _. eauto 10.
Qed.

Lemma shape_compile_tags n d :
  (∀ x e, at_depth fn_nodes n d x e → validate_tag_shape x = Ok tt) →
  ∃ c, compile_tags n = Ok c.
Proof.
  revert d. induction n as [n IH] using FilterNode_nested_ind. intros d Hall.
  apply at_depth_child in Hall as [Hn Hch].
  assert (∃ cs, rmapM compile_tags (fn_nodes n) = Ok cs) as [cs Hcs].
  { clear Hn. induction Hch as [|c nodes Hc _ IHn]; [by exists []|].
    apply Forall_cons in IH as [IHc IH]. destruct (IHc _ Hc) as [c' Hc'], (IHn IH) as [cs Hcs].
    exists (c' :: cs). simpl. by rewrite Hc', Hcs. }
  destruct (fn_op n) as [op|] eqn:Hop.
  - destruct (shape_arity_problem n op Hop Hn) as (logical & Hl & _). exists (CLogical logical cs).
    destruct n as [nop nkey ncmp nval nvals nnodes nsorted]. cbn [compile_tags fn_op fn_nodes] in *. rewrite Hop, Hl. simpl. by rewrite Hcs.
  - destruct (shape_leaf_parses n Hop Hn) as (key & cmp & op & Hk & Hc & Ho).
    destruct n as [nop nkey ncmp nval nvals nnodes nsorted]. cbn [compile_tags fn_op fn_key fn_cmp] in *. rewrite Hop, Hk, Hc. simpl. rewrite Ho.
    simpl. eauto.
Qed.

(** ** Compiled against interpreted *)

Section equivalence.
Context `{MemchrLaws} {T : Type} `{TagMap T}.
Implicit Types (tags : T).

Lemma compare_number_holds (tag : option string) val cmp :
  compare_number tag val cmp = true ↔ numeric tag val cmp.
Proof.
  unfold compare_number, numeric. destruct tag as [v|]; simpl; [|naive_solver].
  destruct (parse_f64 v) eqn:Hv, (parse_f64 val) eqn:Hval; naive_solver.
Qed.

Lemma compiled_contains s val :
  match val with
  | String a EmptyString => some (memchr a s)
  | _ => some (memmem_find s val)
  end = value_contains s val.
Proof.
  destruct val as [|a [|b val]]; [|done..]. simpl. apply some_is_Some, memmem_occurs.
  by exists "", s.
Qed.

Lemma compiled_leaf_holds key op val vals tags :
  tag_node_matches (CComparison key op val (sort_dedup vals)) tags = true ↔
  leaf_holds op (get_tag tags key) (default "" val) vals.
Proof.
  assert (∀ v, is_ok (binary_search (sort_dedup vals) v) = bool_decide (v ∈ vals)) as Hb.
  { intros v. rewrite binary_search_elem by apply strictly_sorted_sorted, sort_dedup_sorted.
    apply bool_decide_ext, elem_of_sort_dedup. }
  unfold leaf_holds. cbn [tag_node_matches]. set (tag := get_tag tags key). set (x := default "" val).
  destruct op; try apply compare_number_holds; destruct tag as [v|]; cbn [some_and none_or some negb];
    rewrite ?Hb, ?compiled_contains, ?negb_true_iff, ?bool_decide_eq_true, ?bool_decide_eq_false,
      ?starts_with_iff, ?ends_with_iff, ?value_contains_iff; try naive_solver.
Qed.

Lemma compile_tags_matches n c tags :
  wf_node n → compile_tags n = Ok c → tag_node_matches c tags = filter_matches n tags.
Proof.
  revert c. induction n as [n IH] using FilterNode_nested_ind. intros c Hwf Hc.
  assert (∀ cs, rmapM compile_tags (fn_nodes n) = Ok cs →
    Forall2 (λ c n, tag_node_matches c tags = filter_matches n tags) cs (fn_nodes n)) as Hch.
  { inversion Hwf as [? _ Hw]; subst. clear Hwf Hc.
    intros cs Hcs%rmapM_Ok_iff. apply Forall2_flip. revert IH Hw.
    induction Hcs as [|n' c' ns cs Hc' _ IHcs]; constructor.
    - apply Forall_cons in IH as [IH _], Hw as [Hw _]. by apply IH.
    - apply Forall_cons in IH as [_ IH], Hw as [_ Hw]. by apply IHcs. }
  destruct (fn_op n) as [op|] eqn:Hop.
  - destruct n as [nop nkey ncmp nval nvals nnodes nsorted].
    cbn [compile_tags filter_matches fn_op fn_nodes] in *. unfold logical_op. cbn [fn_op].
    rewrite Hop in *. cbn [mbind option_bind] in *.
    destruct (logical_op_parse op) as [logical|]; [|done]. cbn [rbind ok_or] in Hc.
    destruct (rmapM compile_tags nnodes) as [cs|]; [|done]. injection Hc as <-.
    specialize (Hch cs eq_refl). cbn [tag_node_matches]. destruct logical.
    + clear -Hch. induction Hch as [|? ? ? ? Hc _ IHl]; simpl; [done|]. rewrite Hc. f_equal. exact IHl.
    + clear -Hch. induction Hch as [|? ? ? ? Hc _ IHl]; simpl; [done|]. rewrite Hc. f_equal. exact IHl.
    + destruct Hch as [|? ? ? ? Hc _]; [done|]. by rewrite Hc.
  - pose proof (evaluate_comparison_holds n tags Hwf) as Hleaf.
    destruct n as [nop nkey ncmp nval nvals nnodes nsorted].
    cbn [compile_tags filter_matches fn_op fn_nodes] in *. unfold logical_op. cbn [fn_op].
    rewrite Hop in *. cbn [mbind option_bind fn_key fn_cmp fn_val fn_vals] in *.
    destruct nkey as [key|]; [|done]. destruct ncmp as [cmp|]; [|done]. cbn [rbind ok_or] in Hc.
    destruct (compare_op_parse cmp) as [op|] eqn:Hcmp; [|done]. cbn [rbind ok_or] in Hc.
    injection Hc as <-. apply eq_true_iff_eq. rewrite compiled_leaf_holds, Hleaf.
    unfold compare_op. cbn [fn_cmp mbind option_bind]. by rewrite Hcmp.
Qed.
End equivalence.

Section compiled.
Context `{MemchrLaws, Jmespath}.
Implicit Types (p : MessagePredicate).

Lemma compile_inv view limits p :
  compile_with_limits view limits = Ok p →
  validate_events (sv_events view) limits = Ok tt ∧
  mp_events p = sort_dedup (sv_events view) ∧
  match sv_tags view with
  | Some tags => validate_tags tags limits = Ok tt ∧
                 ∃ c, compile_tags tags = Ok c ∧ mp_tags p = Some c
  | None => mp_tags p = None
  end ∧
  match sv_expression view with
  | Some source => ∃ e, compile_expression source limits = Ok e ∧ mp_expression p = Some e
  | None => mp_expression p = None
  end ∧
  mp_id p = predicate_hash (mp_events p) (mp_tags p) (mp_expression p).
Proof.
  unfold compile_with_limits. destruct (validate_events _ _) as [[]|]; [|done].
  destruct (sv_tags view) as [tags|]; simpl.
  - destruct (validate_tags tags limits) as [[]|]; [|done]. simpl.
    destruct (compile_tags tags) as [c|]; [|done]. simpl.
    destruct (sv_expression view) as [source|]; simpl;
      [destruct (compile_expression source limits) as [e|]; [|done]; simpl|]; intros [= <-]; simpl; eauto 10.
  - destruct (sv_expression view) as [source|]; simpl;
      [destruct (compile_expression source limits) as [e|]; [|done]; simpl|]; intros [= <-]; simpl; eauto 10.
Qed.

(** The meaning of a view on events and tags, by the interpreter. *)
Definition view_accepts {T} `{TagMap T} view (event : option string) (tags : T) : Prop :=
  (sv_events view = [] ∨ ∃ e, event = Some e ∧ e ∈ sv_events view) ∧
  ∀ filter, sv_tags view = Some filter → filter_matches filter tags = true.

(** C22: a compiled predicate decides like its source.  Whatever view compiles, the cheap
    part of matching (binary search in the sorted events, compiled tag tree) accepts an
    event and tags exactly when the event is listed, or no events are, and the
    interpreter of tag filters accepts the tags. *)
Theorem compile_decides {T} `{TagMap T} view limits p event (tags : T) :
  compile_with_limits view limits = Ok p →
  (∀ filter, sv_tags view = Some filter → wf_node filter) →
  matches_cheap p event tags = true ↔ view_accepts view event tags.
Proof.
  intros (_ & Hev & Htags & _)%compile_inv Hwf. unfold matches_cheap, view_accepts. rewrite Hev.
  assert (sort_dedup (sv_events view) = [] ↔ sv_events view = []) as Hnil.
  { split; [|by intros ->]. destruct (sv_events view) as [|e l] eqn:Hl; [done|]. intros Hn.
    exfalso. apply (not_elem_of_nil e). rewrite <-Hn. apply elem_of_sort_dedup. left. }
  set (cheap := negb (some_and (mp_tags p) _)).
  assert (cheap = true ↔
    ∀ filter, sv_tags view = Some filter → filter_matches filter tags = true) as <-.
  { destruct (sv_tags view) as [filter|].
    - unfold cheap. destruct Htags as (_ & c & Hc & ->). simpl.
      rewrite (compile_tags_matches filter c tags (Hwf filter eq_refl) Hc), negb_involutive.
      naive_solver.
    - unfold cheap. rewrite Htags. simpl. naive_solver. }
  clearbody cheap. rewrite (bool_decide_ext _ _ Hnil). case_bool_decide as He; simpl; [naive_solver|].
  destruct event as [e|]; simpl; [|naive_solver].
  rewrite binary_search_elem by apply strictly_sorted_sorted, sort_dedup_sorted.
  rewrite (bool_decide_ext _ _ (elem_of_sort_dedup _ _)). case_bool_decide; simpl; naive_solver.
Qed.

(** Compilation fails for the documented reasons only.  An error of
    [compile_with_limits] is an error of the event list, of the tag limits and shape, or
    of the expression: once the tags are validated, building the compiled tree succeeds. *)
Theorem compile_errors view limits e :
  (max_tag_nodes limits ≤ u64_max)%Z →
  (∀ filter, sv_tags view = Some filter → (Z.of_nat (tag_count filter) < u64_max)%Z) →
  compile_with_limits view limits = Err e →
  validate_events (sv_events view) limits = Err e ∨
  (∃ filter, sv_tags view = Some filter ∧ validate_tags filter limits = Err e) ∨
  (∃ source, sv_expression view = Some source ∧ compile_expression source limits = Err e).
Proof.
  intros Hmax Hcount. unfold compile_with_limits.
  destruct (validate_events _ _) as [[]|e'] eqn:Hev; [|intros [= <-]; by left]. simpl.
  assert (∀ r : result PredicateCompileError (option CompiledTagNode), is_ok r = true →
    (let? tags := r in
     let? expression :=
       transpose ((λ source, compile_expression source limits) <$> sv_expression view) in
     Ok {| mp_events := sort_dedup (sv_events view); mp_tags := tags; mp_expression := expression;
           mp_id := predicate_hash (sort_dedup (sv_events view)) tags expression |}) = Err e →
    ∃ source, sv_expression view = Some source ∧ compile_expression source limits = Err e) as Hexpr.
  { intros [tags|]; [|done]. intros _. simpl. destruct (sv_expression view) as [source|]; simpl; [|done].
    destruct (compile_expression source limits) as [x|x] eqn:Hs; simpl; [done|].
    intros [= <-]. eauto. }
  destruct (sv_tags view) as [filter|] eqn:Ht; [|intros He; right; right; exact (Hexpr (Ok None) eq_refl He)].
  destruct (validate_tags filter limits) as [[]|e'] eqn:Hv; simpl.
  - apply validate_tags_iff in Hv as [_ Hv]; [|done|by apply Hcount].
    destruct (shape_compile_tags filter 1) as [c Hc]; [intros x d Hx; by apply Hv in Hx as (_ & _ & ?)|].
    rewrite Hc. intros He. right. right. exact (Hexpr (Ok (Some c)) eq_refl He).
  - intros [= <-]. right. left. eauto.
Qed.

(** ** Identity *)

(** Filters that differ in the order and repetition of values, and in the marker, only. *)
Inductive same_filter : FilterNode → FilterNode → Prop :=
| same_filter_intro n n' :
    fn_op n = fn_op n' → fn_key n = fn_key n' → fn_cmp n = fn_cmp n' → fn_val n = fn_val n' →
    (∀ v, v ∈ fn_vals n ↔ v ∈ fn_vals n') → Forall2 same_filter (fn_nodes n) (fn_nodes n') →
    same_filter n n'.

Lemma same_filter_optimize n : same_filter n (optimize n).
Proof.
  induction n as [n IH] using FilterNode_nested_ind. constructor; try (by destruct n).
  - intros v. symmetry. apply optimize_vals.
  - rewrite optimize_nodes. by apply Forall2_fmap_r, Forall_Forall2_diag.
Qed.

Lemma same_filter_compile n n' : same_filter n n' → compile_tags n = compile_tags n'.
Proof.
  revert n'. induction n as [n IH] using FilterNode_nested_ind. intros n' Hsame.
  inversion Hsame as [? ? Ho Hk Hc Hv Hvals Hn]; subst.
  assert (rmapM compile_tags (fn_nodes n) = rmapM compile_tags (fn_nodes n')) as Hnodes.
  { clear -IH Hn. induction Hn as [|x y l k Hxy _ IHn]; [done|]. apply Forall_cons in IH as [IHx IH].
    simpl. by rewrite (IHx y Hxy), IHn. }
  destruct n as [o k c v vs ns so], n' as [o' k' c' v' vs' ns' so'].
  cbn [compile_tags fn_op fn_key fn_cmp fn_val fn_vals fn_nodes] in *. subst.
  by rewrite Hnodes, (sort_dedup_ext vs vs' Hvals).
Qed.

Lemma compile_expression_Ok source limits e :
  compile_expression source limits = Ok e → jmes_compile source = Ok e.
Proof.
  unfold compile_expression. destruct (str_is_empty source); [done|].
  destruct (_ >? _)%Z; [done|]. destruct (jmes_compile source); [|done]. simpl.
  destruct (validate_expression_ast _ _); [|done]. by intros [= <-].
Qed.

(** The identity is canonical.  Two views with the same set of events, filters that
    differ in order and repetition of values only and the same expression compile, when
    both are within limits, to the same predicate, identity included. *)
Theorem compile_canonical view1 view2 limits1 limits2 p1 p2 :
  (∀ e, e ∈ sv_events view1 ↔ e ∈ sv_events view2) →
  option_Forall2 same_filter (sv_tags view1) (sv_tags view2) →
  sv_expression view1 = sv_expression view2 →
  compile_with_limits view1 limits1 = Ok p1 → compile_with_limits view2 limits2 = Ok p2 →
  p1 = p2.
Proof.
  intros Hev Htags Hexp (_ & He1 & Ht1 & Hx1 & Hi1)%compile_inv (_ & He2 & Ht2 & Hx2 & Hi2)%compile_inv.
  assert (mp_events p1 = mp_events p2) as E1.
  { rewrite He1, He2. by apply sort_dedup_ext. }
  assert (mp_tags p1 = mp_tags p2) as E2.
  { destruct Htags as [n n' Hsame|]; [|congruence].
    destruct Ht1 as (_ & c1 & Hc1 & ->), Ht2 as (_ & c2 & Hc2 & ->).
    rewrite (same_filter_compile _ _ Hsame) in Hc1. congruence. }
  assert (mp_expression p1 = mp_expression p2) as E3.
  { rewrite Hexp in Hx1. destruct (sv_expression view2) as [source|]; [|congruence].
    destruct Hx1 as (e1 & Hj1%compile_expression_Ok & ->), Hx2 as (e2 & Hj2%compile_expression_Ok & ->).
    congruence. }
  destruct p1, p2. simpl in *. congruence.
Qed.

(** ** Expressions and documents *)

(** An expression is accepted within its limits only.  [compile_expression] succeeds
    exactly for a non-empty source within the byte limit that the parser accepts, whose
    syntax tree has at most [max_expression_nodes] nodes, none deeper than
    [max_expression_depth]; the loop over the explicit stack terminates. *)
Theorem compile_expression_iff source limits e :
  (max_expression_nodes limits ≤ u64_max)%Z →
  (∀ e', jmes_compile source = Ok e' → (Z.of_nat (ast_count (jmes_as_ast e')) < u64_max)%Z) →
  compile_expression source limits = Ok e ↔
  source ≠ "" ∧ (str_len source ≤ max_expression_bytes limits)%Z ∧ jmes_compile source = Ok e ∧
  (Z.of_nat (ast_count (jmes_as_ast e)) ≤ max_expression_nodes limits)%Z ∧
  ∀ x depth, at_depth ast_children (jmes_as_ast e) 1 x depth →
    (depth ≤ max_expression_depth limits)%Z.
Proof.
  intros Hmax Hsize.
  assert (∀ count depth a, visit_ast limits count depth a = Ok tt ↔
    (count ≤ max_expression_nodes limits)%Z ∧ (depth ≤ max_expression_depth limits)%Z) as Hvisit.
  { intros count depth a. unfold visit_ast. rewrite !Z.gtb_ltb.
    destruct (Z.ltb_spec (max_expression_nodes limits) count); [split; [done|lia]|].
    destruct (Z.ltb_spec (max_expression_depth limits) depth); split; (done || lia). }
  pose proof (λ a, walk_tree_accepts ast_children (visit_ast limits) ast_count ast_count_eq
    (max_expression_nodes limits) (λ d _, (d ≤ max_expression_depth limits)%Z) a Hvisit Hmax) as Hwalk.
  unfold compile_expression, validate_expression_ast. rewrite Z.gtb_ltb.
  destruct source as [|a source]; [naive_solver|]. cbn [str_is_empty].
  destruct (Z.ltb_spec (max_expression_bytes limits) (str_len (String a source)));
    [split; [done|lia]|].
  destruct (jmes_compile (String a source)) as [e'|]; [|naive_solver]. cbn [rbind].
  specialize (Hwalk (jmes_as_ast e') (Hsize e' eq_refl)).
  destruct (walk_tree _ _ _ _ _) as [[]|err]; cbn [rbind].
  - split; [|naive_solver]. intros [= ->]. destruct (proj1 Hwalk eq_refl). naive_solver.
  - split; [done|]. intros (_ & _ & [= ->] & Hc & Hd).
    discriminate (proj2 Hwalk (conj Hc Hd)).
Qed.

(** Both ways of matching agree and fail closed.  Matching a document is matching its
    projection; a predicate without an expression never needs one; a missing or failing
    projection or search is an error and never an acceptance; and [Ok true] is returned
    only if the cheap part accepts and the expression, if any, is truthy. *)
Theorem matching_modes {T D} `{TagMap T, !ToJmespath D} p event (tags : T) (document : D) :
  (∀ v, to_jmespath document = Ok v →
     predicate_matches p event tags document = matches_projected p event tags (Some v)) ∧
  (requires_document p = false → ∀ d,
     matches_projected p event tags d = Ok (matches_cheap p event tags) ∧
     predicate_matches p event tags document = Ok (matches_cheap p event tags)) ∧
  (requires_document p = true → matches_cheap p event tags = true →
     matches_projected p event tags None = Err missing_document) ∧
  (∀ d, matches_projected p event tags d = Ok true ↔
     matches_cheap p event tags = true ∧
     ∀ x, mp_expression p = Some x →
       ∃ v r, d = Some v ∧ jmes_search x v = Ok r ∧ jmes_is_truthy r = true).
Proof.
  unfold predicate_matches, matches_projected, projected_document_new, requires_document.
  destruct (matches_cheap p event tags), (mp_expression p) as [x|]; simpl;
    (split; [|split; [|split]]); try naive_solver.
  - by intros v ->.
  - intros [v|]; simpl.
    + split.
      * destruct (jmes_search x v) as [r|] eqn:Hs; [|done]. intros [= Ht]. split; [done|].
        intros x' [= <-]. by exists v, r.
      * intros [_ Hx]. destruct (Hx x eq_refl) as (v' & r & [= <-] & -> & ->). done.
    + split; [done|]. intros [_ Hx]. by destruct (Hx x eq_refl) as (v' & r & ? & _).
Qed.
End compiled.

(** ** The bounded buffer *)

Definition write_chunks (w : BoundedWriter) (chunks : list (list Z)) : BoundedWriter :=
  foldl (λ w chunk, (bounded_write w chunk).1) w chunks.

Lemma write_chunks_spec limit chunks :
  (0 ≤ limit ≤ u64_max)%Z →
  let w := write_chunks (bounded_writer_new limit) chunks in
  bw_limit w = limit ∧ (Z.of_nat (length (bw_bytes w)) ≤ limit)%Z ∧
  (bw_exceeded w = false → bw_bytes w = concat chunks) ∧
  ((Z.of_nat (length (concat chunks)) ≤ limit)%Z → bw_exceeded w = false).
Proof.
  intros Hlim. induction chunks as [|chunk chunks IH] using rev_ind; simpl.
  { split_and!; [done|lia|done|done]. }
  unfold write_chunks in *. rewrite foldl_app. simpl.
  set (w := foldl _ _ chunks) in *. destruct IH as (Hl & Hlen & Hbytes & Hfits).
  rewrite concat_app. simpl. rewrite app_nil_r, length_app. unfold bounded_write.
  rewrite !Z.gtb_ltb, Hl.
  destruct (Z.ltb_spec u64_max (Z.of_nat (length (bw_bytes w)) + Z.of_nat (length chunk))); simpl;
    [|destruct (Z.ltb_spec limit (Z.of_nat (length (bw_bytes w)) + Z.of_nat (length chunk))); simpl].
  3: { rewrite length_app. split; [done|]. split; [lia|].
       split; [intros He; by rewrite (Hbytes He)|]. intros ?. apply Hfits. lia. }
  all: split; [done|]; split; [done|]; split; [done|]; intros Htot;
    pose proof (f_equal length (Hbytes (Hfits ltac:(lia)))); lia.
Qed.

(** A projection never buffers more than its limit.  Whatever chunks a serializer
    writes, the buffer stays within the limit; it is marked exceeded exactly when the
    chunks together are longer than the limit, and otherwise it holds their concatenation. *)
Theorem bounded_writer_exact limit chunks :
  (0 ≤ limit ≤ u64_max)%Z →
  let w := write_chunks (bounded_writer_new limit) chunks in
  (Z.of_nat (length (bw_bytes w)) ≤ limit)%Z ∧
  (bw_exceeded w = false ↔ (Z.of_nat (length (concat chunks)) ≤ limit)%Z) ∧
  (bw_exceeded w = false → bw_bytes w = concat chunks).
Proof.
  intros Hlim. destruct (write_chunks_spec limit chunks Hlim) as (_ & Hlen & Hb & Hf).
  split; [done|]. split; [|done]. split; [|done]. intros He. by rewrite <-(Hb He).
Qed.

Lemma bounded_writer_exact_witness :
  bw_exceeded (write_chunks (bounded_writer_new 4) [[1; 2]%Z; [3; 4; 5]%Z; [6]%Z]) = true ∧
  (Z.of_nat (length (bw_bytes (write_chunks (bounded_writer_new 4) [[1; 2]; [3; 4; 5]; [6]]%Z))) ≤ 4)%Z.
Proof.
  split; [reflexivity|].
  destruct (bounded_writer_exact 4 [[1; 2]; [3; 4; 5]; [6]]%Z ltac:(u64_lia)) as [H _].
  exact H.
Defined.

(** ** Samples *)

Lemma validate_tags_iff_witness :
  validate_tags sample_filter default_predicate_limits = Ok tt ∧
  (Z.of_nat (tag_count sample_filter) ≤ 128)%Z.
Proof.
  assert (validate_tags sample_filter default_predicate_limits = Ok tt) as H
    by (vm_compute; reflexivity).
  split; [exact H|].
  destruct (proj1 (validate_tags_iff sample_filter default_predicate_limits
    ltac:(simpl; u64_lia) ltac:(vm_compute; reflexivity)) H) as [Hc _].
  exact Hc.
Defined.

(** A search language of one field: an expression is a text without spaces at its ends. *)
Module SampleJmespath.
#[export] Instance sample_jmespath : Jmespath := {|
  Expression := string; JmesValue := bool;
  jmes_compile source := if decide (trim source = source) then Ok source else Err "unexpected space";
  jmes_as_str e := e; jmes_as_ast e := AstNot AstField;
  jmes_search e v := Ok v; jmes_is_truthy v := v;
|}.
End SampleJmespath.

Definition sample_view : SubscriptionView := {|
  sv_events := ["paid"; "created"; "paid"]; sv_tags := Some sample_filter; sv_expression := Some "ok" |}.

Definition sample_view' : SubscriptionView := {|
  sv_events := ["created"; "paid"]; sv_tags := Some (optimize sample_filter);
  sv_expression := Some "ok" |}.

Definition unknown_tag_operator : SubscriptionView := {|
  sv_events := []; sv_expression := None;
  sv_tags := Some {| fn_op := Some "xor"; fn_key := None; fn_cmp := None; fn_val := None;
                     fn_vals := []; fn_nodes := []; fn_is_sorted := false |} |}.

Section witnesses.
Import SampleSearch SampleJmespath.

Lemma sample_compiles (view : SubscriptionView) :
  is_ok (compile view) = true → ∃ p, compile_with_limits view default_predicate_limits = Ok p.
Proof. unfold compile. destruct (compile_with_limits _ _) as [p|]; [by exists p|done]. Qed.

Lemma sample_view_wf filter : sv_tags sample_view = Some filter → wf_node filter.
Proof. intros [= <-]. apply sample_filter_wf. Qed.

Lemma compile_decides_witness :
  ∃ p, compile_with_limits sample_view default_predicate_limits = Ok p ∧
    matches_cheap p (Some "paid") sample_tags = true ∧
    view_accepts sample_view (Some "paid") sample_tags.
Proof.
  destruct (sample_compiles sample_view ltac:(vm_compute; reflexivity)) as [p Hp].
  exists p. split; [exact Hp|].
  assert (matches_cheap p (Some "paid") sample_tags = true) as Hm
    by (vm_compute in Hp; injection Hp as <-; vm_compute; reflexivity).
  split; [exact Hm|].
  exact (proj1 (compile_decides sample_view default_predicate_limits p (Some "paid") sample_tags Hp
    sample_view_wf) Hm).
Defined.

Lemma compile_errors_witness :
  ∃ e, compile_with_limits unknown_tag_operator default_predicate_limits = Err e ∧
    (validate_events [] default_predicate_limits = Err e ∨
     (∃ filter, sv_tags unknown_tag_operator = Some filter ∧
        validate_tags filter default_predicate_limits = Err e) ∨
     (∃ source, sv_expression unknown_tag_operator = Some source ∧
        compile_expression source default_predicate_limits = Err e)).
Proof.
  exists (InvalidTagFilter "unknown logical operator: xor").
  assert (compile_with_limits unknown_tag_operator default_predicate_limits =
    Err (InvalidTagFilter "unknown logical operator: xor")) as He by (vm_compute; reflexivity).
  split; [exact He|].
  refine (compile_errors unknown_tag_operator default_predicate_limits _ _ _ He).
  - simpl; u64_lia.
  - intros filter [= <-]. simpl. u64_lia.
Defined.

Lemma compile_canonical_witness :
  ∃ p1 p2, compile_with_limits sample_view default_predicate_limits = Ok p1 ∧
    compile_with_limits sample_view' default_predicate_limits = Ok p2 ∧ p1 = p2.
Proof.
  destruct (sample_compiles sample_view ltac:(vm_compute; reflexivity)) as [p1 H1].
  destruct (sample_compiles sample_view' ltac:(vm_compute; reflexivity)) as [p2 H2].
  exists p1, p2. split; [exact H1|]. split; [exact H2|].
  refine (compile_canonical sample_view sample_view' _ _ p1 p2 _ _ eq_refl H1 H2).
  - intros e. simpl. rewrite !elem_of_cons. tauto.
  - constructor. apply same_filter_optimize.
Defined.

Lemma compile_expression_iff_witness :
  compile_expression "ok" default_predicate_limits = Ok "ok" ∧
  (Z.of_nat (ast_count (jmes_as_ast "ok")) ≤ 256)%Z.
Proof.
  assert (compile_expression "ok" default_predicate_limits = Ok "ok") as H
    by (vm_compute; reflexivity).
  split; [exact H|].
  destruct (proj1 (compile_expression_iff "ok" default_predicate_limits ("ok" : @Expression sample_jmespath)
    ltac:(simpl; u64_lia) ltac:(intros e' _; vm_compute; reflexivity)) H) as (_ & _ & _ & Hc & _).
  exact Hc.
Defined.
End witnesses.
