(* ===== verification/ReplayBuffer.v ===== *)
(** * The replay buffer for connection recovery

    Serials are minted per channel, broadcast messages are kept in a bounded, time-limited
    deque, and a reconnecting client asks for everything after the last serial it saw.
    Every operation holds the entry of its channel and the lock of its state, so it is one
    step on the map.  Instants and durations are [Z]; [now] and fresh identifiers are
    arguments. *)

From Stdlib Require Import ZArith Lia Init.Byte.
From stdpp Require Import base gmap strings list sorting list_numbers.
From S2P Require Import Prelude.

Record ReplayPosition := {
  rpos_stream_id : string;
  rpos_serial : Z;
}.

Record ReplayPositionConflict := {
  rpc_requested_stream_id : string;
  rpc_requested_serial : Z;
  rpc_current_stream_id : option string;
  rpc_newest_serial : option Z;
}.

Record BufferedMessage := {
  bm_stream_id : option string;
  bm_serial : Z;
  bm_message_bytes : list byte;
  bm_timestamp : Z;
}.

(** [ChannelBufferState] and the atomic counter beside it. *)
Record ChannelBuffer := {
  cb_messages : list BufferedMessage;
  cb_current_stream_id : option string;
  cb_last_touched : Z;
  cb_next_serial : Z;
}.

Inductive ReplayLookup : Type :=
| Recovered (messages : list (list byte))
| Expired
| StreamReset (current_stream_id : option string)
| Ahead (newest_serial : Z)
| ContinuityGap (expected_serial observed_serial : Z).

Notation BufferMap := (gmap string ChannelBuffer).

(** The configuration of a [ReplayBuffer]. *)
Record ReplayConfig := {
  rbc_max_buffer_size : Z;
  rbc_buffer_ttl : Z;
}.

Implicit Types (s : BufferMap) (b : ChannelBuffer) (m : BufferedMessage)
  (l : list BufferedMessage) (cfg : ReplayConfig).

Definition buffer_key (app_id channel : string) : string := app_id +:+ nul +:+ channel.

Definition new_channel_buffer (stream_id : option string) (next_serial now : Z)
    : ChannelBuffer := {|
  cb_messages := []; cb_current_stream_id := stream_id; cb_last_touched := now;
  cb_next_serial := next_serial;
|}.

(** [Instant::duration_since] saturates at zero. *)
Definition duration_since (now earlier : Z) : Z := Z.max 0 (now - earlier).

(** The compare-and-swap loop of [raise_next_serial] raises the counter to at least the
    given value. *)
Definition raise_next_serial b (next_serial : Z) : ChannelBuffer := {|
  cb_messages := cb_messages b; cb_current_stream_id := cb_current_stream_id b;
  cb_last_touched := cb_last_touched b;
  cb_next_serial := if (cb_next_serial b <? next_serial)%Z then next_serial else cb_next_serial b;
|}.

Definition prune_expired_locked (buffer_ttl now : Z) l : list BufferedMessage :=
  drop_while (λ m, duration_since now (bm_timestamp m) >=? buffer_ttl)%Z l.

Definition with_state b l (stream_id : option string) (touched : Z) : ChannelBuffer := {|
  cb_messages := l; cb_current_stream_id := stream_id; cb_last_touched := touched;
  cb_next_serial := cb_next_serial b;
|}.

(** [entry(key).or_insert_with(..)]. *)
Definition buffer_entry s (key : string) (fresh : ChannelBuffer) : ChannelBuffer :=
  default fresh (s !! key).

(** ** Positions *)

Definition current_position (fresh : string) (now : Z) (app_id channel : string) s
    : BufferMap * ReplayPosition :=
  let key := buffer_key app_id channel in
  let b := buffer_entry s key (new_channel_buffer (Some fresh) 1 now) in
  let stream_id := default fresh (cb_current_stream_id b) in
  (<[key := with_state b (cb_messages b) (Some stream_id) now]> s,
   {| rpos_stream_id := stream_id; rpos_serial := u64_saturating_sub (cb_next_serial b) 1 |}).

(** [max_by_key] keeps the last of the greatest. *)
Definition max_by_serial l : option BufferedMessage :=
  foldl (λ best m,
    match best with
    | None => Some m
    | Some x => if (bm_serial m >=? bm_serial x)%Z then Some m else best
    end) None l.

Definition latest_stored_position (app_id channel : string) s : option ReplayPosition :=
  b ← s !! buffer_key app_id channel;
  m ← max_by_serial (cb_messages b);
  stream_id ← bm_stream_id m;
  Some {| rpos_stream_id := stream_id; rpos_serial := bm_serial m |}.

(** Adopt the stream when the buffer has none or no messages. *)
Definition adopt_stream b (stream_id : string) (now : Z) : ChannelBuffer :=
  with_state b (cb_messages b)
    (if bool_decide (cb_messages b = []) || bool_decide (cb_current_stream_id b = None)
     then Some stream_id else cb_current_stream_id b) now.

Definition ensure_position (now : Z) (app_id channel stream_id : string) (serial : Z) s
    : BufferMap * ReplayPosition :=
  let key := buffer_key app_id channel in
  let next_serial := u64_saturating_add serial 1 in
  let b := buffer_entry s key (new_channel_buffer (Some stream_id) next_serial now) in
  (<[key := raise_next_serial (adopt_stream b stream_id now) next_serial]> s,
   {| rpos_stream_id := stream_id; rpos_serial := serial |}).

Definition try_ensure_position (now : Z) (app_id channel stream_id : string) (serial : Z) s
    : BufferMap * result ReplayPositionConflict ReplayPosition :=
  let key := buffer_key app_id channel in
  let next_serial := u64_saturating_add serial 1 in
  let b := buffer_entry s key (new_channel_buffer (Some stream_id) next_serial now) in
  let newest_serial := bm_serial <$> last (cb_messages b) in
  let populated_stream_mismatch :=
    negb (bool_decide (cb_messages b = [])) &&
    negb (bool_decide (cb_current_stream_id b = Some stream_id)) in
  let out_of_order := match newest_serial with Some n => (serial <=? n)%Z | None => false end in
  if populated_stream_mismatch || out_of_order then
    (<[key := b]> s,
     Err {| rpc_requested_stream_id := stream_id; rpc_requested_serial := serial;
            rpc_current_stream_id := cb_current_stream_id b;
            rpc_newest_serial := newest_serial |})
  else
    (<[key := raise_next_serial (adopt_stream b stream_id now) next_serial]> s,
     Ok {| rpos_stream_id := stream_id; rpos_serial := serial |}).

Definition next_position (fresh : string) (now : Z) (app_id channel : string) s
    : BufferMap * ReplayPosition :=
  let key := buffer_key app_id channel in
  let b := buffer_entry s key (new_channel_buffer (Some fresh) 1 now) in
  let stream_id := default fresh (cb_current_stream_id b) in
  (<[key := {| cb_messages := cb_messages b; cb_current_stream_id := Some stream_id;
               cb_last_touched := now; cb_next_serial := u64_wrap (cb_next_serial b + 1) |}]> s,
   {| rpos_stream_id := stream_id; rpos_serial := cb_next_serial b |}).

Definition next_serial (fresh : string) (now : Z) (app_id channel : string) s : BufferMap * Z :=
  let '(s, position) := next_position fresh now app_id channel s in (s, rpos_serial position).

(** ** Storing *)

(** [while len >= max { pop_front() }]; out of fuel means the loop has not ended. *)
Fixpoint evict_to_capacity (fuel : nat) (max_buffer_size : Z) l : option (list BufferedMessage) :=
  match fuel with
  | O => None
  | S fuel =>
      if (Z.of_nat (length l) >=? max_buffer_size)%Z
      then evict_to_capacity fuel max_buffer_size (tail l)
      else Some l
  end.

Definition buffer_store cfg (now : Z) (app_id channel : string) (stream_id : option string) (serial : Z)
    (message_bytes : list byte) s : option BufferMap :=
  let key := buffer_key app_id channel in
  let b := buffer_entry s key (new_channel_buffer stream_id (u64_saturating_add serial 1) now) in
  let messages :=
    if bool_decide (cb_current_stream_id b = stream_id) then cb_messages b else [] in
  let b := raise_next_serial b (u64_saturating_add serial 1) in
  messages ← evict_to_capacity (S (length messages)) (rbc_max_buffer_size cfg) messages;
  Some (<[key := with_state b
    (messages ++ [{| bm_stream_id := stream_id; bm_serial := serial;
                     bm_message_bytes := message_bytes; bm_timestamp := now |}])
    stream_id now]> s).

(** ** Recovery *)

Definition serial_le m1 m2 : Prop := (bm_serial m1 ≤ bm_serial m2)%Z.

#[export] Instance serial_le_dec : RelDecision serial_le.
Proof. intros m1 m2. unfold serial_le. apply _. Defined.

#[export] Instance serial_le_trans : Transitive serial_le.
Proof. intros a b c. unfold serial_le. lia. Qed.

#[export] Instance serial_le_total : Total serial_le.
Proof. intros a b. unfold serial_le. lia. Qed.

Fixpoint replay_candidates (current : option string) (expected : Z) (candidates : list BufferedMessage)
    : result ReplayLookup (list (list byte) * Z) :=
  match candidates with
  | [] => Ok ([], expected)
  | m :: candidates =>
      if negb (bool_decide (bm_stream_id m = current)) || negb (bm_serial m =? expected)%Z
      then Err (ContinuityGap expected (bm_serial m))
      else
        let? '(messages, expected) :=
          replay_candidates current (u64_saturating_add expected 1) candidates in
        Ok (bm_message_bytes m :: messages, expected)
  end.

Definition min_serial l : option Z :=
  foldl (λ best m,
    match best with None => Some (bm_serial m) | Some x => Some (Z.min x (bm_serial m)) end) None l.

(** The answer from the pruned messages. *)
Definition replay_lookup b (last_serial : Z) : ReplayLookup :=
  let newest_serial := u64_saturating_sub (cb_next_serial b) 1 in
  if (last_serial >? newest_serial)%Z then Ahead newest_serial
  else if (last_serial =? newest_serial)%Z then Recovered []
  else if bool_decide (cb_messages b = []) then Expired
  else
    let oldest_serial := default newest_serial (min_serial (cb_messages b)) in
    if (u64_saturating_add last_serial 1 <? oldest_serial)%Z then Expired
    else
      let candidates :=
        stable_sort serial_le (filter (λ m, last_serial < bm_serial m)%Z (cb_messages b)) in
      match replay_candidates (cb_current_stream_id b) (u64_saturating_add last_serial 1) candidates with
      | Err gap => gap
      | Ok (messages, expected_serial) =>
          if (expected_serial <=? newest_serial)%Z
          then ContinuityGap expected_serial newest_serial
          else Recovered messages
      end.

Definition get_messages_after_position cfg (now : Z) (app_id channel : string)
    (stream_id : option string) (last_serial : Z) s : BufferMap * ReplayLookup :=
  let key := buffer_key app_id channel in
  match s !! key with
  | None => (s, Expired)
  | Some b =>
      if match stream_id with
         | Some expected => negb (bool_decide (cb_current_stream_id b = Some expected))
         | None => false
         end then (s, StreamReset (cb_current_stream_id b))
      else
        let b := with_state b (prune_expired_locked (rbc_buffer_ttl cfg) now (cb_messages b))
                   (cb_current_stream_id b) (cb_last_touched b) in
        (<[key := b]> s, replay_lookup b last_serial)
  end.

Definition get_messages_after cfg (now : Z) (app_id channel : string) (last_serial : Z) s
    : BufferMap * option (list (list byte)) :=
  let '(s, lookup) := get_messages_after_position cfg now app_id channel None last_serial s in
  (s, match lookup with Recovered messages => Some messages | _ => None end).

(** ** Expiry *)

Definition buffer_dead cfg (now : Z) b : bool :=
  bool_decide (cb_messages b = []) &&
  (duration_since now (cb_last_touched b) >=? rbc_buffer_ttl cfg)%Z.

(** The scan prunes every buffer and collects the empty ones; each is then removed if it is
    still empty. *)
Definition evict_scan cfg (now : Z) s : BufferMap * list string :=
  let s := (λ b, with_state b (prune_expired_locked (rbc_buffer_ttl cfg) now (cb_messages b))
                   (cb_current_stream_id b) (cb_last_touched b)) <$> s in
  (s, (filter (λ kb, buffer_dead cfg now kb.2 = true) (map_to_list s)).*1).

Definition evict_remove cfg (now : Z) s (key : string) : BufferMap :=
  match s !! key with
  | Some b => if buffer_dead cfg now b then delete key s else s
  | None => s
  end.

Definition evict_expired_buffers cfg (now : Z) s : BufferMap :=
  let '(s, empty_keys) := evict_scan cfg now s in
  foldl (evict_remove cfg now) s empty_keys.
