(* ===== verification/ReplayThms.v ===== *)
(** * What connection recovery guarantees

    A recovery answers exactly the messages the client has not seen, in order and without
    a gap, or says that it cannot; and it can whenever the messages fit the buffer. *)

From Stdlib Require Import ZArith Lia Init.Byte.
From stdpp Require Import base gmap strings list sorting list_numbers.
From S2P Require Import Prelude ReplayBuffer.

Implicit Types (s : BufferMap) (b : ChannelBuffer) (m : BufferedMessage)
  (l : list BufferedMessage) (cfg : ReplayConfig).

(** The counter is ahead of every buffered serial, and at most [bound]. *)
Record wf_buffer (bound : Z) b : Prop := {
  wfb_next : (1 ≤ cb_next_serial b ≤ bound)%Z;
  wfb_serials : Forall (λ m, (0 ≤ bm_serial m < cb_next_serial b)%Z) (cb_messages b);
}.

Definition wf_buffers (bound : Z) s : Prop := map_Forall (λ _, wf_buffer bound) s.

(** ** The loop over the candidates *)

Lemma replay_candidates_Ok current bound expected l messages e :
  Forall (λ m, (bm_serial m < bound)%Z) l → (bound ≤ u64_max)%Z →
  replay_candidates current expected l = Ok (messages, e) ↔
  bm_serial <$> l = seqZ expected (Z.of_nat (length l)) ∧
  Forall (λ m, bm_stream_id m = current) l ∧ messages = bm_message_bytes <$> l ∧
  e = (expected + Z.of_nat (length l))%Z.
Proof.
  intros Hall Hbound. revert expected messages e.
  induction Hall as [|m l Hm Hl IH]; intros expected messages e; cbn [replay_candidates].
  { simpl. rewrite Z.add_0_r. split.
    - by intros [= <- <-].
    - by intros (_ & _ & -> & ->). }
  cbn [length fmap list_fmap]. rewrite Nat2Z.inj_succ, seqZ_cons, Z.pred_succ by lia.
  case_bool_decide as Hs; simpl.
  2: { split; [done|]. intros (_ & [? _]%Forall_cons & _). done. }
  destruct (Z.eqb_spec (bm_serial m) expected) as [He|Hne]; simpl.
  2: { split; [done|]. intros ([= ? _] & _). done. }
  simpl in Hm.
  replace (u64_saturating_add expected 1) with (expected + 1)%Z by u64_lia. specialize (IH (expected + 1)%Z).
  destruct (replay_candidates current (expected + 1) l) as [[ms e']|] eqn:Hr; simpl.
  - destruct (proj1 (IH ms e')) as (H1 & H2 & -> & ->); [done|]. split.
    + intros [= <- <-]. rewrite H1, He. split; [by rewrite Z.add_1_r|]. split; [by constructor|].
      split; [done|lia].
    + intros (_ & _ & -> & ->). f_equal. f_equal. lia.
  - split; [done|]. intros ([= _ H1] & [_ H2]%Forall_cons & -> & ->).
    discriminate (proj2 (IH (bm_message_bytes <$> l) (expected + 1 + Z.of_nat (length l))%Z)). rewrite Z.add_1_r. split; [done|]. split; [done|]. split; [done|lia].
Qed.

Lemma replay_candidates_Err current expected l gap :
  replay_candidates current expected l = Err gap → ∃ x y, gap = ContinuityGap x y.
Proof.
  revert expected. induction l as [|m l IH]; intros expected; simpl; [done|].
  destruct (_ || _); [intros [= <-]; eauto|].
  destruct (replay_candidates _ _ l) as [[]|] eqn:Hr; simpl; [done|]. intros [= <-]. eauto.
Qed.

Lemma min_serial_le l m d : m ∈ l → (default d (min_serial l) ≤ bm_serial m)%Z.
Proof.
  unfold min_serial.
  assert (∀ best, (m ∈ l ∨ ∃ x, best = Some x ∧ x ≤ bm_serial m)%Z →
    ∃ x, foldl (λ best m, match best with None => Some (bm_serial m)
      | Some x => Some (Z.min x (bm_serial m)) end) best l = Some x ∧ (x ≤ bm_serial m)%Z) as Hfold.
  { induction l as [|y l IH]; intros best; simpl.
    - intros [?%elem_of_nil|?]; done.
    - intros [[->|Hin]%elem_of_cons|(x & -> & Hx)]; apply IH.
      + right. destruct best as [x|]; eexists; (split; [reflexivity|lia]).
      + by left.
      + right. eexists. split; [reflexivity|]. lia. }
  intros Hin. destruct (Hfold None) as (x & -> & Hx); [by left|]. done.
Qed.

Lemma seqZ_sorted a n : StronglySorted Z.lt (seqZ a n).
Proof.
  destruct (decide (0 ≤ n)%Z) as [Hn|]; [|rewrite seqZ_nil by lia; constructor].
  rewrite <-(Z2Nat.id n Hn). generalize (Z.to_nat n). intros k. revert a. clear n Hn.
  induction k as [|k IH]; intros a; [constructor|].
  rewrite seqZ_cons, Nat2Z.inj_succ, Z.pred_succ by lia. constructor; [apply IH|].
  apply Forall_forall. intros x Hx%elem_of_seqZ. lia.
Qed.

Lemma fmap_StronglySorted {A B} (f : A → B) (R : relation B) (k : list A) :
  StronglySorted R (f <$> k) → StronglySorted (λ x y, R (f x) (f y)) k.
Proof.
  induction k as [|x k IH]; [constructor|]. simpl. intros [Hx Hs]%StronglySorted_cons.
  constructor; [by apply IH|]. rewrite Forall_fmap in Hx. exact Hx.
Qed.

(** A list whose serials are consecutive is the sorted form of its permutations. *)
Lemma consecutive_sort l ms a n :
  ms ≡ₚ l → bm_serial <$> ms = seqZ a n → stable_sort serial_le l = ms.
Proof.
  intros Hp Hseq. apply (StronglySorted_unique_strong serial_le).
  - assert (NoDup (bm_serial <$> ms)) as Hnd by (rewrite Hseq; apply NoDup_seqZ).
    intros x y Hx Hy Hxy Hyx. rewrite stable_sort_perm, <-Hp in Hx.
    assert (bm_serial x = bm_serial y) as Heq by (unfold serial_le in *; lia).
    apply list_elem_of_lookup_1 in Hx as [i Hi], Hy as [j Hj].
    assert (i = j) as ->; [|congruence]. eapply (NoDup_lookup (bm_serial <$> ms) i j (bm_serial x));
      [done|by rewrite list_lookup_fmap, Hi|by rewrite list_lookup_fmap, Hj, Heq].
  - apply stable_sort_sorted; apply _.
  - pose proof (seqZ_sorted a n) as Hs. rewrite <-Hseq in Hs. apply fmap_StronglySorted in Hs.
    eapply StronglySorted_weaken; [|exact Hs]. unfold serial_le. simpl. lia.
  - by rewrite stable_sort_perm, Hp.
Qed.

(** ** The answer *)

(** The messages a client at [last] is owed: one for each serial up to the newest, of the
    current stream. *)
Definition owed b (last : Z) (ms : list BufferedMessage) : Prop :=
  ms ≡ₚ filter (λ m, last < bm_serial m)%Z (cb_messages b) ∧
  bm_serial <$> ms = seqZ (last + 1) (cb_next_serial b - 1 - last) ∧
  Forall (λ m, bm_stream_id m = cb_current_stream_id b) ms.

Lemma replay_lookup_iff b last messages :
  wf_buffer u64_max b → (0 ≤ last)%Z →
  replay_lookup b last = Recovered messages ↔
  (last < cb_next_serial b)%Z ∧ ∃ ms, owed b last ms ∧ messages = bm_message_bytes <$> ms.
Proof.
  intros [Hn Hser] Hlast. unfold replay_lookup, owed.
  replace (u64_saturating_sub (cb_next_serial b) 1) with (cb_next_serial b - 1)%Z by u64_lia.
  rewrite Z.gtb_ltb. destruct (Z.ltb_spec (cb_next_serial b - 1) last); [split; [done|lia]|].
  destruct (Z.eqb_spec last (cb_next_serial b - 1)) as [->|Hne].
  { assert (filter (λ m, cb_next_serial b - 1 < bm_serial m)%Z (cb_messages b) = []) as ->.
    { apply list_filter_none. eapply Forall_impl; [exact Hser|]. simpl. lia. }
    rewrite (seqZ_nil _ (_ - _)) by lia. split.
    - intros [= <-]. split; [lia|]. exists []. by repeat split.
    - intros (_ & ms & (Hp%Permutation_nil_r & _) & ->). by rewrite Hp. }
  replace (u64_saturating_add last 1) with (last + 1)%Z by u64_lia.
  set (cands := filter _ (cb_messages b)).
  assert (Forall (λ m, (bm_serial m < cb_next_serial b)%Z) (stable_sort serial_le cands)) as Hb.
  { apply Forall_forall. intros m Hm. rewrite stable_sort_perm in Hm.
    apply list_elem_of_filter in Hm as [_ Hm]. rewrite Forall_forall in Hser. apply Hser in Hm. lia. }
  pose proof (λ messages e, replay_candidates_Ok (cb_current_stream_id b) (cb_next_serial b) (last + 1)
    (stable_sort serial_le cands) messages e Hb ltac:(lia)) as Hok.
  assert (∀ ms, owed b last ms → stable_sort serial_le cands = ms ∧
    Z.of_nat (length ms) = (cb_next_serial b - 1 - last)%Z) as Howed.
  { intros ms (Hp & Hseq & _). split; [by eapply consecutive_sort|].
    apply (f_equal length) in Hseq. rewrite length_fmap, length_seqZ in Hseq. lia. }
  split.
  - case_bool_decide; [done|]. destruct (_ <? _)%Z; [done|].
    destruct (replay_candidates _ _ _) as [[msgs e]|gap] eqn:Hr.
    + destruct (proj1 (Hok msgs e) eq_refl) as (Hseq & Hst & -> & ->).
      destruct (Z.leb_spec (last + 1 + Z.of_nat (length (stable_sort serial_le cands)))
        (cb_next_serial b - 1)) as [|Hgt]; [done|]. intros [= <-]. split; [lia|].
      exists (stable_sort serial_le cands). split; [|done]. split; [apply stable_sort_perm|].
      split; [|done]. rewrite Hseq. f_equal.
      set (k := stable_sort serial_le cands) in *.
      assert ((last + Z.of_nat (length k))%Z ∈ bm_serial <$> k) as Hin.
      { rewrite Hseq. apply elem_of_seqZ. lia. }
      apply list_elem_of_fmap in Hin as (m & Hm & Hin). rewrite Forall_forall in Hb.
      apply Hb in Hin. lia.
    + destruct (replay_candidates_Err _ _ _ _ Hr) as (x & y & ->). done.
  - intros (_ & ms & Hms & ->). destruct (Howed ms Hms) as [Hsort Hlen].
    destruct Hms as (Hp & Hseq & Hst).
    assert (∃ m, m ∈ cb_messages b ∧ bm_serial m = (last + 1)%Z) as (m & Hin & Hm).
    { assert ((last + 1)%Z ∈ bm_serial <$> ms) as Hin by (rewrite Hseq; apply elem_of_seqZ; lia).
      apply list_elem_of_fmap in Hin as (m & Hm & Hin). rewrite Hp in Hin.
      apply list_elem_of_filter in Hin as [_ Hin]. eauto. }
    rewrite bool_decide_false by (intros Hnil; rewrite Hnil in Hin; by apply elem_of_nil in Hin).
    pose proof (min_serial_le _ m (cb_next_serial b - 1) Hin).
    destruct (Z.ltb_spec (last + 1) (default (cb_next_serial b - 1)%Z (min_serial (cb_messages b))));
      [lia|].
    rewrite Hsort in *. rewrite (proj2 (Hok (bm_message_bytes <$> ms) (last + 1 + Z.of_nat (length ms))%Z)).
    + destruct (Z.leb_spec (last + 1 + Z.of_nat (length ms)) (cb_next_serial b - 1)); [lia|done].
    + rewrite Hseq, Hlen. done.
Qed.

(** ** Reachable buffers *)

Lemma evict_to_capacity_spec (max_size : Z) l :
  (0 < max_size)%Z →
  evict_to_capacity (S (length l)) max_size l =
  Some (drop (length l - (Z.to_nat max_size - 1)) l).
Proof.
  intros Hmax. induction l as [|m l IH].
  - cbn [evict_to_capacity]. rewrite Z.geb_leb.
    destruct (Z.leb_spec max_size (Z.of_nat (length (@nil BufferedMessage)))); simpl in *; [lia|].
    done.
  - cbn [evict_to_capacity]. rewrite Z.geb_leb.
    destruct (Z.leb_spec max_size (Z.of_nat (length (m :: l)))) as [Hle|Hgt].
    + cbn [tail]. change (S (length l)) with (S (length l)). cbn [length] in *. rewrite IH.
      replace (S (length l) - (Z.to_nat max_size - 1)) with (S (length l - (Z.to_nat max_size - 1))) by lia.
      done.
    + replace (length (m :: l) - (Z.to_nat max_size - 1)) with 0 by (cbn [length] in *; lia). done.
Qed.

(** Without room for one message the loop pops an empty deque for ever. *)
Lemma evict_to_capacity_zero fuel l : evict_to_capacity fuel 0 l = None.
Proof.
  revert l. induction fuel as [|fuel IH]; intros l; [done|]. simpl.
  rewrite Z.geb_leb. destruct (Z.leb_spec 0 (Z.of_nat (length l))); [apply IH|lia].
Qed.

Lemma evict_to_capacity_sublist fuel max_size l l' :
  evict_to_capacity fuel max_size l = Some l' → l' `sublist_of` l.
Proof.
  revert l. induction fuel as [|fuel IH]; intros l; simpl; [done|].
  destruct (_ >=? _)%Z; [|by intros [= <-]]. intros Hl%IH. etrans; [exact Hl|].
  destruct l; [done|]. by apply sublist_cons.
Qed.

Inductive ReplayOp : Type :=
| RCurrent (fresh : string) (now : Z) (app_id channel : string)
| REnsure (now : Z) (app_id channel stream_id : string) (serial : Z)
| RTryEnsure (now : Z) (app_id channel stream_id : string) (serial : Z)
| RNext (fresh : string) (now : Z) (app_id channel : string)
| RStore (now : Z) (app_id channel : string) (stream_id : option string) (serial : Z)
    (message_bytes : list byte)
| RLookup (now : Z) (app_id channel : string) (stream_id : option string) (last_serial : Z)
| REvictScan (now : Z)
| REvictRemove (now : Z) (key : string).

Definition replay_exec cfg (op : ReplayOp) s : option BufferMap :=
  match op with
  | RCurrent fresh now a c => Some (current_position fresh now a c s).1
  | REnsure now a c stream serial => Some (ensure_position now a c stream serial s).1
  | RTryEnsure now a c stream serial => Some (try_ensure_position now a c stream serial s).1
  | RNext fresh now a c => Some (next_position fresh now a c s).1
  | RStore now a c stream serial bytes => buffer_store cfg now a c stream serial bytes s
  | RLookup now a c stream last => Some (get_messages_after_position cfg now a c stream last s).1
  | REvictScan now => Some (evict_scan cfg now s).1
  | REvictRemove now key => Some (evict_remove cfg now s key)
  end.

Fixpoint replay_run cfg (ops : list ReplayOp) s : option BufferMap :=
  match ops with
  | [] => Some s
  | op :: ops => s ← replay_exec cfg op s; replay_run cfg ops s
  end.

(** Serials from outside are below [bound]. *)
Definition replay_op_typed (bound : Z) (op : ReplayOp) : Prop :=
  match op with
  | REnsure _ _ _ _ serial | RTryEnsure _ _ _ _ serial | RStore _ _ _ _ serial _ =>
      (0 ≤ serial < bound)%Z
  | _ => True
  end.

Lemma wf_buffer_mono bound bound' b :
  (bound ≤ bound')%Z → wf_buffer bound b → wf_buffer bound' b.
Proof. intros ? []. split; [lia|done]. Qed.

Lemma wf_buffer_with_state bound b l stream touched :
  wf_buffer bound b → l `sublist_of` cb_messages b → wf_buffer bound (with_state b l stream touched).
Proof. intros [Hn Hs] Hl. split; [done|]. simpl. by eapply Forall_sublist_of. Qed.

Lemma wf_buffer_raise bound b next :
  wf_buffer bound b → (next ≤ bound)%Z → wf_buffer bound (raise_next_serial b next).
Proof.
  intros [Hn Hs] Hle. split; simpl; destruct (Z.ltb_spec (cb_next_serial b) next); try lia; [|done].
  eapply Forall_impl; [exact Hs|]. simpl. lia.
Qed.

Lemma wf_buffer_new bound stream next now :
  (1 ≤ next ≤ bound)%Z → wf_buffer bound (new_channel_buffer stream next now).
Proof. intros ?. split; simpl; [lia|constructor]. Qed.

Lemma wf_buffer_entry bound s key fresh :
  wf_buffers bound s → wf_buffer bound fresh → wf_buffer bound (buffer_entry s key fresh).
Proof. intros Hs Hf. unfold buffer_entry. destruct (s !! key) eqn:Hk; simpl; [by apply (Hs _ _ Hk)|done]. Qed.

Lemma drop_sublist {A} n (l : list A) : drop n l `sublist_of` l.
Proof. rewrite <-(take_drop n l) at 2. apply sublist_inserts_l. done. Qed.

Lemma prune_sublist ttl now l : prune_expired_locked ttl now l `sublist_of` l.
Proof.
  unfold prune_expired_locked. destruct (drop_while_suffix_of
    (λ m, duration_since now (bm_timestamp m) >=? ttl)%Z l) as [k Hk].
  rewrite Hk at 2. by apply sublist_inserts_l.
Qed.

Lemma wf_buffer_push bound b stream serial bytes now l :
  wf_buffer bound b → (0 ≤ serial < bound)%Z → (bound ≤ u64_max)%Z → l `sublist_of` cb_messages b →
  wf_buffer bound (with_state (raise_next_serial b (u64_saturating_add serial 1))
    (l ++ [{| bm_stream_id := stream; bm_serial := serial; bm_message_bytes := bytes;
              bm_timestamp := now |}]) stream now).
Proof.
  intros Hwf Hser Hmax Hl.
  replace (u64_saturating_add serial 1) with (serial + 1)%Z by u64_lia.
  destruct (wf_buffer_raise bound b (serial + 1) Hwf) as [Hn Hs]; [lia|]. split; [done|]. simpl in *.
  apply Forall_app. split; [by eapply Forall_sublist_of|]. repeat constructor; simpl; [lia|].
  destruct (Z.ltb_spec (cb_next_serial b) (serial + 1)); lia.
Qed.

Lemma wf_replay_exec cfg bound op s s' :
  (1 ≤ bound)%Z → (bound + 1 ≤ u64_max)%Z → wf_buffers bound s → replay_op_typed bound op →
  replay_exec cfg op s = Some s' → wf_buffers (bound + 1) s'.
Proof.
  intros Hb Hmax Hs Ht.
  assert (wf_buffers (bound + 1) s) as Hs1.
  { intros k b Hk. eapply wf_buffer_mono; [|by apply (Hs _ _ Hk)]. lia. }
  assert (∀ key b, wf_buffer (bound + 1) b → wf_buffers (bound + 1) (<[key := b]> s)) as Hins
    by (intros; by apply map_Forall_insert_2).
  assert (∀ key stream next now, (1 ≤ next ≤ bound + 1)%Z →
    wf_buffer (bound + 1) (buffer_entry s key (new_channel_buffer stream next now))) as Hentry
    by (intros; apply wf_buffer_entry; auto using wf_buffer_new).
  destruct op as [f now a c|now a c st n|now a c st n|f now a c|now a c st n bytes|now a c st n|now|now key];
    simpl in *; try (replace (u64_saturating_add n 1) with (n + 1)%Z by u64_lia).
  - intros [= <-]. apply Hins, wf_buffer_with_state; [|done]. apply Hentry. lia.
  - intros [= <-]. apply Hins, wf_buffer_raise; [|lia]. apply wf_buffer_with_state; [|done]. apply Hentry. lia.
  - unfold try_ensure_position. replace (u64_saturating_add n 1) with (n + 1)%Z by u64_lia.
    intros [= <-]. destruct (_ || _); simpl; apply Hins; [apply Hentry; lia|].
    apply wf_buffer_raise; [|lia]. apply wf_buffer_with_state; [|done]. apply Hentry. lia.
  - intros [= <-]. apply Hins.
    assert (wf_buffer bound (buffer_entry s (buffer_key a c) (new_channel_buffer (Some f) 1 now))) as [Hn Hser].
    { apply wf_buffer_entry; [done|]. apply wf_buffer_new. lia. }
    split; simpl; rewrite u64_wrap_id by u64_lia; [lia|]. eapply Forall_impl; [exact Hser|]. simpl. lia.
  - unfold buffer_store. set (b0 := buffer_entry _ _ _).
    assert (wf_buffer (bound + 1) b0) as Hb0
      by (apply Hentry; u64_lia).
    set (ms := if bool_decide _ then _ else _).
    assert (ms `sublist_of` cb_messages b0) as Hms by (subst ms; case_bool_decide; [done|apply sublist_nil_l]).
    destruct (evict_to_capacity _ _ ms) as [l|] eqn:Hev; simpl; [|done]. intros [= <-]. apply Hins.
    apply wf_buffer_push; [done|lia|lia|]. etrans; [|exact Hms]. by eapply evict_to_capacity_sublist.
  - unfold get_messages_after_position. destruct (s !! buffer_key a c) as [b0|] eqn:Hk; [|by intros [= <-]].
    destruct (match st with Some _ => _ | None => _ end); intros [= <-]; [done|]. simpl.
    apply Hins, wf_buffer_with_state; [|apply prune_sublist]. by apply (Hs1 _ _ Hk).
  - intros [= <-]. intros k b. rewrite lookup_fmap. destruct (s !! k) as [b0|] eqn:Hk; [|done].
    intros [= <-]. apply wf_buffer_with_state; [|apply prune_sublist]. by apply (Hs1 _ _ Hk).
  - intros [= <-]. unfold evict_remove. destruct (s !! key); [|done]. destruct (buffer_dead _ _ _); [|done].
    by apply map_Forall_delete.
Qed.

Lemma wf_replay_run cfg bound ops s s' :
  (1 ≤ bound)%Z → (bound + Z.of_nat (length ops) ≤ u64_max)%Z → wf_buffers bound s →
  Forall (replay_op_typed bound) ops → replay_run cfg ops s = Some s' →
  wf_buffers (bound + Z.of_nat (length ops)) s'.
Proof.
  revert bound s. induction ops as [|op ops IH]; intros bound s Hb Hmax Hs Ht; simpl.
  { rewrite Z.add_0_r. by intros [= <-]. }
  apply Forall_cons in Ht as [Hop Ht]. destruct (replay_exec cfg op s) as [s1|] eqn:He; simpl; [|done].
  intros Hrun. cbn [length] in Hmax.
  replace (bound + Z.of_nat (S (length ops)))%Z with (bound + 1 + Z.of_nat (length ops))%Z by lia.
  eapply IH; [lia|lia|eapply wf_replay_exec; eauto; lia| |exact Hrun].
  eapply Forall_impl; [exact Ht|]. intros []; simpl; lia.
Qed.

(** The buffer a lookup answers from. *)
Definition pruned cfg (now : Z) b : ChannelBuffer :=
  with_state b (prune_expired_locked (rbc_buffer_ttl cfg) now (cb_messages b))
    (cb_current_stream_id b) (cb_last_touched b).

Lemma lookup_recovered_iff cfg now app_id channel stream last s b messages :
  s !! buffer_key app_id channel = Some b → wf_buffer u64_max b → (0 ≤ last)%Z →
  (get_messages_after_position cfg now app_id channel stream last s).2 = Recovered messages ↔
  (∀ e, stream = Some e → cb_current_stream_id b = Some e) ∧ (last < cb_next_serial b)%Z ∧
  ∃ ms, owed (pruned cfg now b) last ms ∧ messages = bm_message_bytes <$> ms.
Proof.
  intros Hk Hwf Hlast. unfold get_messages_after_position. rewrite Hk. fold (pruned cfg now b).
  assert (wf_buffer u64_max (pruned cfg now b)) as Hp
    by (apply wf_buffer_with_state; [done|apply prune_sublist]).
  pose proof (replay_lookup_iff (pruned cfg now b) last messages Hp Hlast) as Hl.
  destruct stream as [e|]; simpl.
  - case_bool_decide as He; simpl.
    + rewrite Hl. naive_solver.
    + split; [done|]. intros [Hs _]. by destruct He; apply Hs.
  - rewrite Hl. naive_solver.
Qed.

(** C13: a recovery is exact.  In every state reachable by positions, stores in any order,
    lookups and expiry, a lookup answers [Recovered] if and only if the channel has a
    buffer of the requested stream and the unexpired messages past the client's position
    are, once sorted, one message of the current stream for every serial up to the newest;
    it then returns their payloads in serial order.  So a recovered client has missed and
    repeated nothing, and every other situation is refused. *)
Theorem recovery_exact cfg bound ops s now app_id channel stream last messages :
  (1 ≤ bound)%Z → (bound + Z.of_nat (length ops) ≤ u64_max)%Z →
  Forall (replay_op_typed bound) ops → replay_run cfg ops ∅ = Some s → (0 ≤ last)%Z →
  (get_messages_after_position cfg now app_id channel stream last s).2 = Recovered messages ↔
  ∃ b ms, s !! buffer_key app_id channel = Some b ∧
    (∀ e, stream = Some e → cb_current_stream_id b = Some e) ∧ (last < cb_next_serial b)%Z ∧
    owed (pruned cfg now b) last ms ∧ messages = bm_message_bytes <$> ms.
Proof.
  intros Hb Hmax Ht Hrun Hlast.
  pose proof (wf_replay_run cfg bound ops ∅ s Hb Hmax (map_Forall_empty _) Ht Hrun) as Hwf.
  destruct (s !! buffer_key app_id channel) as [b|] eqn:Hk.
  - assert (wf_buffer u64_max b) as Hwb
      by (eapply wf_buffer_mono; [exact Hmax|]; by apply (Hwf _ _ Hk)).
    rewrite (lookup_recovered_iff cfg now app_id channel stream last s b messages Hk Hwb Hlast).
    split; [|naive_solver]. intros (H1 & H2 & ms & H3 & H4). by exists b, ms.
  - unfold get_messages_after_position. rewrite Hk. split; [done|]. by intros (b & ms & ? & _).
Qed.

(** ** Completeness *)

(** [k] publishers reserve positions. *)
Fixpoint reserve_many (fresh : string) (now : Z) (app_id channel : string) (k : nat) s
    : BufferMap * list Z :=
  match k with
  | O => (s, [])
  | S k =>
      let '(s, position) := next_position fresh now app_id channel s in
      let '(s, serials) := reserve_many fresh now app_id channel k s in
      (s, rpos_serial position :: serials)
  end.

(** They store their messages, each with its own time, in some order. *)
Fixpoint store_many cfg (app_id channel stream_id : string) (payload : Z → list byte)
    (events : list (Z * Z)) s : option BufferMap :=
  match events with
  | [] => Some s
  | (now, serial) :: events =>
      s ← buffer_store cfg now app_id channel (Some stream_id) serial (payload serial) s;
      store_many cfg app_id channel stream_id payload events s
  end.

Lemma reserve_many_spec fresh now app_id channel k s b stream :
  let key := buffer_key app_id channel in
  s !! key = Some b → cb_current_stream_id b = Some stream →
  (0 ≤ cb_next_serial b)%Z → (cb_next_serial b + Z.of_nat k ≤ u64_max)%Z →
  ∃ b', (reserve_many fresh now app_id channel k s).1 !! key = Some b' ∧
    (reserve_many fresh now app_id channel k s).2 = seqZ (cb_next_serial b) (Z.of_nat k) ∧
    cb_messages b' = cb_messages b ∧ cb_current_stream_id b' = Some stream ∧
    cb_next_serial b' = (cb_next_serial b + Z.of_nat k)%Z.
Proof.
  intros key. revert s b. induction k as [|k IH]; intros s b Hk Hst Hpos Hmax.
  { exists b. simpl. rewrite Z.add_0_r. done. }
  cbn [reserve_many]. unfold next_position. fold key. unfold buffer_entry. rewrite Hk. simpl default.
  set (b1 := {| cb_messages := _ |}).
  destruct (IH (<[key := b1]> s) b1) as (b' & H1 & H2 & H3 & H4 & H5).
  { apply lookup_insert_eq. }
  { unfold b1. simpl. by rewrite Hst. }
  { unfold b1. simpl. rewrite u64_wrap_id by u64_lia. lia. }
  { unfold b1. simpl. rewrite u64_wrap_id by u64_lia. lia. }
  destruct (reserve_many _ _ _ _ k _) as [s' serials]. simpl in *. rewrite u64_wrap_id in * by u64_lia.
  exists b'. split; [done|]. split.
  - rewrite H2, (seqZ_cons (cb_next_serial b)) by lia. f_equal. f_equal; lia.
  - split; [done|]. split; [done|lia].
Qed.

Definition stored (stream : string) (payload : Z → list byte) (event : Z * Z) : BufferedMessage := {|
  bm_stream_id := Some stream; bm_serial := event.2; bm_message_bytes := payload event.2;
  bm_timestamp := event.1;
|}.

Lemma store_many_spec cfg app_id channel stream payload (events : list (Z * Z)) s b old done_ :
  let key := buffer_key app_id channel in
  s !! key = Some b → cb_current_stream_id b = Some stream →
  cb_messages b = old ++ (stored stream payload <$> done_) →
  Forall (λ e, 0 ≤ e.2 < cb_next_serial b)%Z events → (cb_next_serial b ≤ u64_max)%Z →
  (Z.of_nat (length done_ + length events) ≤ rbc_max_buffer_size cfg)%Z →
  ∃ s' b' old', store_many cfg app_id channel stream payload events s = Some s' ∧
    s' !! key = Some b' ∧ cb_current_stream_id b' = Some stream ∧
    cb_next_serial b' = cb_next_serial b ∧ old' `suffix_of` old ∧
    cb_messages b' = old' ++ (stored stream payload <$> done_ ++ events).
Proof.
  intros key. revert s b old done_.
  induction events as [|[now serial] events IH]; intros s b old done_ Hk Hst Hms Hser Hmax Hcap.
  { exists s, b, old. rewrite app_nil_r. by repeat split. }
  apply Forall_cons in Hser as [Hn Hser]. cbn [length] in Hcap. simpl in Hn.
  cbn [store_many]. unfold buffer_store. fold key. unfold buffer_entry. rewrite Hk. simpl default.
  rewrite bool_decide_true by done. rewrite evict_to_capacity_spec by lia. simpl.
  replace (u64_saturating_add serial 1) with (serial + 1)%Z by u64_lia.
  set (d := length (cb_messages b) - (Z.to_nat (rbc_max_buffer_size cfg) - 1)).
  assert (drop d (cb_messages b) = drop d old ++ (stored stream payload <$> done_)) as Hdrop.
  { rewrite Hms. apply drop_app_le. unfold d. rewrite Hms, length_app, length_fmap. lia. }
  set (b1 := with_state _ _ _ _).
  assert (cb_next_serial b1 = cb_next_serial b) as Hnext.
  { unfold b1. simpl. destruct (Z.ltb_spec (cb_next_serial b) (serial + 1)); [lia|done]. }
  destruct (IH (<[key := b1]> s) b1 (drop d old) (done_ ++ [(now, serial)]))
    as (s' & b' & old' & H1 & H2 & H3 & H4 & H5 & H6).
  { apply lookup_insert_eq. }
  { done. }
  { unfold b1. cbn [with_state cb_messages]. by rewrite Hdrop, fmap_app, <-app_assoc. }
  { by rewrite Hnext. }
  { by rewrite Hnext. }
  { rewrite length_app. simpl. lia. }
  exists s', b', old'. split; [done|]. split; [done|]. split; [done|].
  split; [congruence|]. split; [|by rewrite <-app_assoc in H6].
  etrans; [exact H5|]. exists (take d old). by rewrite take_drop.
Qed.

Lemma drop_while_app_keep {A} (f : A → bool) (l k : list A) :
  Forall (λ x, f x = false) k → drop_while f (l ++ k) = drop_while f l ++ k.
Proof.
  intros Hk. induction l as [|x l IH]; simpl.
  - destruct Hk as [|y k Hy _]; simpl; [done|]. by rewrite Hy.
  - destruct (f x); [done|]. done.
Qed.

(** The new messages, whatever their order, are what the client is owed. *)
Lemma owed_stored cfg now b stream payload old (events : list (Z * Z)) last k :
  cb_messages b = old ++ (stored stream payload <$> events) → cb_current_stream_id b = Some stream →
  cb_next_serial b = (last + 1 + Z.of_nat k)%Z → Forall (λ m, (bm_serial m ≤ last)%Z) old →
  events.*2 ≡ₚ seqZ (last + 1) (Z.of_nat k) →
  (0 < rbc_buffer_ttl cfg)%Z → Forall (λ e, (now - e.1 < rbc_buffer_ttl cfg)%Z) events →
  ∃ ms, owed (pruned cfg now b) last ms ∧
    bm_message_bytes <$> ms = payload <$> seqZ (last + 1) (Z.of_nat k).
Proof.
  intros Hms Hst Hnext Hold Hperm Httl Hfresh. set (new := stored stream payload <$> events).
  exists (stable_sort serial_le new).
  assert (filter (λ m, last < bm_serial m)%Z (cb_messages (pruned cfg now b)) = new) as Hfil.
  { simpl. unfold prune_expired_locked. rewrite Hms, drop_while_app_keep.
    - rewrite filter_app, list_filter_none, list_filter_all; [done| |].
      + unfold new. apply Forall_fmap, Forall_forall. intros e He. simpl.
        assert (e.2 ∈ events.*2) as Hin by by apply list_elem_of_fmap_2.
        rewrite Hperm in Hin. apply elem_of_seqZ in Hin. lia.
      + eapply Forall_suffix_of; [apply drop_while_suffix_of|].
        eapply Forall_impl; [exact Hold|]. simpl. lia.
    - apply Forall_fmap. eapply Forall_impl; [exact Hfresh|]. intros e He. simpl in *. unfold duration_since.
      rewrite Z.geb_leb. apply Z.leb_gt. lia. }
  assert (bm_serial <$> stable_sort serial_le new = seqZ (last + 1) (Z.of_nat k)) as Hser.
  { apply (StronglySorted_unique Z.le).
    - assert (StronglySorted serial_le (stable_sort serial_le new)) as Hs by (apply stable_sort_sorted; apply _).
      induction Hs as [|m l Hs IHs Hm]; constructor; [done|]. apply Forall_fmap. exact Hm.
    - eapply StronglySorted_weaken; [|apply seqZ_sorted]. lia.
    - rewrite stable_sort_perm. unfold new. rewrite <-list_fmap_compose, <-Hperm. done. }
  split.
  - split; [by rewrite Hfil, stable_sort_perm|]. simpl. rewrite Hst, Hnext. split.
    + rewrite Hser. f_equal. lia.
    + apply Forall_forall. intros m Hm. rewrite stable_sort_perm in Hm. unfold new in Hm.
      by apply list_elem_of_fmap in Hm as (e & -> & _).
  - rewrite <-Hser, <-list_fmap_compose. apply Forall_fmap_ext, Forall_forall. intros m Hm.
    rewrite stable_sort_perm in Hm. unfold new in Hm. by apply list_elem_of_fmap in Hm as (e & -> & _).
Qed.

(** Recovery succeeds whenever it can.  A client notes the current position; then [k]
    publishers reserve positions and store their messages in any order, [k] at most the
    buffer size.  Every store returns, and as long as none of the messages is older than
    the time to live, a lookup from the noted position recovers exactly the [k] payloads
    in serial order. *)
Theorem recovery_complete cfg bound fresh t0 app_id channel s k (events : list (Z * Z)) payload now :
  wf_buffers bound s → (1 ≤ bound)%Z → (bound + Z.of_nat k ≤ u64_max)%Z →
  (Z.of_nat k ≤ rbc_max_buffer_size cfg)%Z → (0 < rbc_buffer_ttl cfg)%Z →
  let '(s0, position) := current_position fresh t0 app_id channel s in
  let '(s1, serials) := reserve_many fresh t0 app_id channel k s0 in
  events.*2 ≡ₚ serials → Forall (λ e, (now - e.1 < rbc_buffer_ttl cfg)%Z) events →
  ∃ s2, store_many cfg app_id channel (rpos_stream_id position) payload events s1 = Some s2 ∧
    (get_messages_after_position cfg now app_id channel (Some (rpos_stream_id position))
       (rpos_serial position) s2).2 =
    Recovered (payload <$> seqZ (rpos_serial position + 1) (Z.of_nat k)).
Proof.
  intros Hs Hb Hmax Hcap Httl. unfold current_position.
  set (key := buffer_key app_id channel).
  set (b := buffer_entry s key (new_channel_buffer (Some fresh) 1 t0)).
  assert (wf_buffer bound b) as [Hn Hser] by (apply wf_buffer_entry; [done|]; apply wf_buffer_new; lia).
  set (stream := default fresh (cb_current_stream_id b)).
  set (b0 := with_state b (cb_messages b) (Some stream) t0).
  replace (u64_saturating_sub (cb_next_serial b) 1) with (cb_next_serial b - 1)%Z by u64_lia.
  destruct (reserve_many_spec fresh t0 app_id channel k (<[key := b0]> s) b0 stream)
    as (b1 & Hk1 & Hserials & Hm1 & Hst1 & Hn1); [apply lookup_insert_eq|done|simpl; lia|simpl; lia|].
  destruct (reserve_many fresh t0 app_id channel k _) as [s1 serials]. simpl in Hk1, Hserials. subst serials.
  change (cb_next_serial b0) with (cb_next_serial b) in *.
  cbn [rpos_stream_id rpos_serial].
  intros Hperm Hfresh.
  assert (length events = k) as Hlen.
  { apply Permutation_length in Hperm. rewrite length_fmap, length_seqZ in Hperm. lia. }
  destruct (store_many_spec cfg app_id channel stream payload events s1 b1 (cb_messages b) [])
    as (s2 & b2 & old & Hs2 & Hk2 & Hst2 & Hn2 & Hold & Hm2).
  { done. } { done. } { by rewrite app_nil_r. }
  { apply Forall_forall. intros e He. assert (e.2 ∈ events.*2) as Hin by by apply list_elem_of_fmap_2.
    rewrite Hperm in Hin. apply elem_of_seqZ in Hin. lia. }
  { lia. } { simpl. lia. }
  exists s2. split; [done|].
  assert (Forall (λ m, (0 ≤ bm_serial m < cb_next_serial b)%Z) old) as Holds by by eapply Forall_suffix_of.
  destruct (owed_stored cfg now b2 stream payload old events (cb_next_serial b - 1) k)
    as (ms & Howed & Hpay); [done|done|lia| |by rewrite Z.sub_add|done|done|].
  { eapply Forall_impl; [exact Holds|]. simpl. lia. }
  apply (lookup_recovered_iff cfg now app_id channel _ _ s2 b2).
  - done.
  - split; [lia|]. rewrite Hm2. apply Forall_app. split.
    + eapply Forall_impl; [exact Holds|]. simpl. lia.
    + apply Forall_fmap, Forall_forall. intros e He. simpl.
      assert (e.2 ∈ events.*2) as Hin by by apply list_elem_of_fmap_2.
      rewrite Hperm in Hin. apply elem_of_seqZ in Hin. lia.
  - lia.
  - split; [by intros e [= <-]|]. split; [lia|]. exists ms. by rewrite Hpay.
Qed.

(** ** Samples *)

Definition sample_replay_config : ReplayConfig := {| rbc_max_buffer_size := 2; rbc_buffer_ttl := 100 |}.

(** Three publishes, the last two stored out of order; the first is pushed out. *)
Definition sample_replay_ops : list ReplayOp :=
  [RNext "s1" 0 "app" "room"; RStore 0 "app" "room" (Some "s1") 1 [x61];
   RNext "x" 1 "app" "room"; RNext "x" 1 "app" "room";
   RStore 2 "app" "room" (Some "s1") 3 [x63]; RStore 3 "app" "room" (Some "s1") 2 [x62]].

Lemma recovery_exact_witness :
  ∃ s, replay_run sample_replay_config sample_replay_ops ∅ = Some s ∧
    (get_messages_after_position sample_replay_config 50 "app" "room" (Some "s1") 1 s).2 =
      Recovered [[x62]; [x63]] ∧
    ∃ b ms, s !! buffer_key "app" "room" = Some b ∧
      owed (pruned sample_replay_config 50 b) 1 ms ∧ [[x62]; [x63]] = bm_message_bytes <$> ms.
Proof.
  destruct (replay_run sample_replay_config sample_replay_ops ∅) as [s|] eqn:Hrun;
    [|exfalso; vm_compute in Hrun; discriminate].
  exists s. split; [reflexivity|].
  assert ((get_messages_after_position sample_replay_config 50 "app" "room" (Some "s1") 1 s).2 =
    Recovered [[x62]; [x63]]) as Hl by (vm_compute in Hrun; injection Hrun as <-; vm_compute; reflexivity).
  split; [exact Hl|].
  destruct (proj1 (recovery_exact sample_replay_config 10 sample_replay_ops s 50 "app" "room"
    (Some "s1") 1 [[x62]; [x63]] ltac:(lia) ltac:(simpl; u64_lia)
    ltac:(repeat constructor; simpl; lia) Hrun ltac:(lia)) Hl) as (b & ms & Hb & _ & _ & Ho & Hm).
  exists b, ms. split; [exact Hb|]. split; [exact Ho|exact Hm].
Defined.

Lemma recovery_complete_witness :
  let '(s0, position) := current_position "s1" 0 "app" "room" ∅ in
  let '(s1, serials) := reserve_many "s1" 0 "app" "room" 2 s0 in
  ∃ s2, store_many sample_replay_config "app" "room" (rpos_stream_id position) (λ _, [x61])
          [(5, 2); (6, 1)]%Z s1 = Some s2 ∧
    (get_messages_after_position sample_replay_config 50 "app" "room"
       (Some (rpos_stream_id position)) (rpos_serial position) s2).2 = Recovered [[x61]; [x61]].
Proof.
  refine (recovery_complete sample_replay_config 1 "s1" 0 "app" "room" ∅ 2 [(5, 2); (6, 1)]%Z
    (λ _, [x61]) 50 (map_Forall_empty _) _ _ _ _ _ _).
  - lia.
  - u64_lia.
  - simpl; lia.
  - simpl; lia.
  - apply Permutation_swap.
  - repeat constructor; simpl; lia.
Defined.
