(* ===== verification/LeasedStore.v ===== *)
(** * The leased version store

    A wrapper that caches blocks of delivery positions from an underlying store.  Its state
    is a lease per channel and a table of reservations in flight, each operation on it one
    step under the mutex; a caller is a thread that moves through the loop of
    [reserve_delivery_position] or [reserve_delivery_position_after], and any number of
    threads interleave with each other and with the other writers of the inner store. *)

From Stdlib Require Import ZArith Lia.
From stdpp Require Import base gmap strings list pretty.
From S2P Require Import Prelude Errors VersionTypes.

(** [LeaseKey]: application and channel. *)
Notation LeaseKey := (string * string)%type.

Record LeaseCursor := {
  lc_stream_id : string;
  lc_next_delivery_serial : Z;
  lc_end_exclusive : Z;
}.

Definition from_block (block : VersionWriteReservationBlock) : LeaseCursor := {|
  lc_stream_id := blk_stream_id block;
  lc_next_delivery_serial := blk_start_delivery_serial block;
  lc_end_exclusive := u64_saturating_add (blk_start_delivery_serial block) (blk_len block);
|}.

Definition exhausted (c : LeaseCursor) : bool :=
  (lc_next_delivery_serial c >=? lc_end_exclusive c)%Z.

Definition take_next (c : LeaseCursor) : LeaseCursor * option VersionWriteReservation :=
  if exhausted c then (c, None)
  else
    ({| lc_stream_id := lc_stream_id c;
        lc_next_delivery_serial := u64_saturating_add (lc_next_delivery_serial c) 1;
        lc_end_exclusive := lc_end_exclusive c |},
     Some {| res_stream_id := lc_stream_id c; res_delivery_serial := lc_next_delivery_serial c |}).

(** The leases, and the waiters of each reservation in flight: the sender of a oneshot
    channel is known by the thread that holds its receiver. *)
Record LeaseState := {
  ls_leases : gmap LeaseKey LeaseCursor;
  ls_in_flight : gmap LeaseKey (list nat);
}.

Definition empty_leases : LeaseState := {| ls_leases := ∅; ls_in_flight := ∅ |}.

Implicit Types (key : LeaseKey) (st : LeaseState) (c : LeaseCursor).

(** A cursor is put back unless it is used up. *)
Definition put_cursor st key c : LeaseState := {|
  ls_leases := if exhausted c then delete key (ls_leases st) else <[key := c]> (ls_leases st);
  ls_in_flight := ls_in_flight st;
|}.

Definition take_cached st key : LeaseState * option VersionWriteReservation :=
  match ls_leases st !! key with
  | None => (st, None)
  | Some c => let '(c, reservation) := take_next c in (put_cursor st key c, reservation)
  end.

Definition take_cached_after st key (after : Z) : LeaseState * option VersionWriteReservation :=
  match ls_leases st !! key with
  | None => (st, None)
  | Some c =>
      let next_after := u64_saturating_add after 1 in
      if (lc_next_delivery_serial c <=? after)%Z then
        if (next_after >=? lc_end_exclusive c)%Z then
          ({| ls_leases := delete key (ls_leases st); ls_in_flight := ls_in_flight st |}, None)
        else
          let '(c, reservation) :=
            take_next {| lc_stream_id := lc_stream_id c; lc_next_delivery_serial := next_after;
                         lc_end_exclusive := lc_end_exclusive c |} in
          (put_cursor st key c, reservation)
      else let '(c, reservation) := take_next c in (put_cursor st key c, reservation)
  end.

(** True when the thread joined a reservation in flight, false when it owns a new one. *)
Definition start_or_join_reservation st key (thread : nat) : LeaseState * bool :=
  match ls_in_flight st !! key with
  | Some waiters =>
      ({| ls_leases := ls_leases st;
          ls_in_flight := <[key := waiters ++ [thread]]> (ls_in_flight st) |}, true)
  | None =>
      ({| ls_leases := ls_leases st; ls_in_flight := <[key := []]> (ls_in_flight st) |}, false)
  end.

(** The new state and the waiters to signal. *)
Definition finish_reservation st key (block : VersionWriteReservationBlock)
    : LeaseState * list nat :=
  ({| ls_leases := <[key := from_block block]> (ls_leases st);
      ls_in_flight := delete key (ls_in_flight st) |},
   default [] (ls_in_flight st !! key)).

Definition fail_reservation st key : LeaseState * list nat :=
  ({| ls_leases := ls_leases st; ls_in_flight := delete key (ls_in_flight st) |},
   default [] (ls_in_flight st !! key)).

(** [LeasedVersionStore::new] keeps at least one position per block. *)
Definition lease_block_size (block_size : Z) : Z := Z.max block_size 1.

(** ** Callers *)

Inductive LeaseCall : Type :=
| CallReserve
| CallAfter (after : Z) (attempts_left : nat).

(** [reserve_delivery_position_after] tries [max_attempts] times. *)
Definition max_attempts (block_size : Z) : Z :=
  Z.max (Z.min (block_size * 2) u64_max) 64.

Definition after_error (after : Z) : Error :=
  Internal ("leased version store could not reserve delivery_serial greater than "
              +:+ pretty after).

Inductive LeasePc : Type :=
| AtDirect
| AtLoop
| AtStart
| Waiting
| Owner
| Finishing (block : VersionWriteReservationBlock)
| Failing (error : Error)
| Dropped
| Returned (out : result Error VersionWriteReservation).

Record LeaseThread := {
  lt_key : LeaseKey;
  lt_call : LeaseCall;
  lt_pc : LeasePc;
}.

Implicit Types (t : LeaseThread).

Definition at_pc t (pc : LeasePc) : LeaseThread :=
  {| lt_key := lt_key t; lt_call := lt_call t; lt_pc := pc |}.

(** Back to the head of the loop; the bounded loop has one attempt less. *)
Definition next_attempt t : LeaseThread := {|
  lt_key := lt_key t;
  lt_call := match lt_call t with
             | CallReserve => CallReserve
             | CallAfter after n => CallAfter after (pred n)
             end;
  lt_pc := AtLoop;
|}.

(** A block of one is not cached by [reserve_delivery_position]. *)
Definition spawned (block_size : Z) key (call : LeaseCall) : LeaseThread := {|
  lt_key := key; lt_call := call;
  lt_pc := match call with
           | CallReserve => if (block_size =? 1)%Z then AtDirect else AtLoop
           | CallAfter _ _ => AtLoop
           end;
|}.

Definition take (call : LeaseCall) st key : LeaseState * option VersionWriteReservation :=
  match call with
  | CallReserve => take_cached st key
  | CallAfter after _ => take_cached_after st key after
  end.

Definition wake1 t : LeaseThread :=
  match lt_pc t with Waiting => next_attempt t | _ => t end.

Definition wake (waiters : list nat) (threads : gmap nat LeaseThread) : gmap nat LeaseThread :=
  foldr (alter wake1) threads waiters.

(** ** The inner store *)

(** What the wrapper calls on the inner store, and the counter below which positions of a
    channel have been handed out.  [vb_commit] is any other operation of the inner store,
    with the position it hands out, if any. *)
Class VersionBackend (St : Type) := {
  vb_wf : St → Prop;
  vb_next : St → LeaseKey → Z;
  vb_reserve_block : string → LeaseKey → Z → St → St * result Error VersionWriteReservationBlock;
  vb_reserve_one : string → LeaseKey → St → St * result Error VersionWriteReservation;
  vb_commit : St → St → option (LeaseKey * Z) → Prop;
}.

(** Its contract: counters never go back, and what is handed out starts at the counter,
    which moves past it. *)
Class VersionBackendLaws (St : Type) `{VersionBackend St} : Prop := {
  vb_next_nonneg s key : vb_wf s → (0 ≤ vb_next s key)%Z;
  vb_block_law fresh key n s s' out :
    vb_wf s → is_u64 n → vb_reserve_block fresh key n s = (s', out) →
    vb_wf s' ∧ (∀ k, (vb_next s k ≤ vb_next s' k)%Z) ∧
    ∀ block, out = Ok block → blk_start_delivery_serial block = vb_next s key ∧
      vb_next s' key = u64_saturating_add (blk_start_delivery_serial block) (blk_len block);
  vb_one_law fresh key s s' out :
    vb_wf s → vb_reserve_one fresh key s = (s', out) →
    vb_wf s' ∧ (∀ k, (vb_next s k ≤ vb_next s' k)%Z) ∧
    ∀ r, out = Ok r → res_delivery_serial r = vb_next s key ∧
      vb_next s' key = u64_saturating_add (res_delivery_serial r) 1;
  vb_commit_law s s' o :
    vb_wf s → vb_commit s s' o →
    vb_wf s' ∧ (∀ k, (vb_next s k ≤ vb_next s' k)%Z) ∧
    ∀ key p, o = Some (key, p) → p = vb_next s key ∧ vb_next s' key = u64_saturating_add p 1;
}.

(** ** The system *)

Section system.
Context {St : Type} `{VersionBackend St} (block_size : Z).

Record LeaseSystem := {
  sy_inner : St;
  sy_state : LeaseState;
  sy_threads : gmap nat LeaseThread;
  (** every position handed out so far, to callers and to commits *)
  sy_issued : list (LeaseKey * Z);
}.

Implicit Types (y : LeaseSystem).

Definition with_thread y (i : nat) t : LeaseSystem := {|
  sy_inner := sy_inner y; sy_state := sy_state y;
  sy_threads := <[i := t]> (sy_threads y); sy_issued := sy_issued y |}.

Definition with_lease y st (threads : gmap nat LeaseThread) : LeaseSystem := {|
  sy_inner := sy_inner y; sy_state := st; sy_threads := threads; sy_issued := sy_issued y |}.

Definition with_inner y (s : St) (threads : gmap nat LeaseThread) (new : list (LeaseKey * Z))
    : LeaseSystem := {|
  sy_inner := s; sy_state := sy_state y; sy_threads := threads; sy_issued := new ++ sy_issued y |}.

Definition issue y key (reservation : VersionWriteReservation) : LeaseSystem := {|
  sy_inner := sy_inner y; sy_state := sy_state y; sy_threads := sy_threads y;
  sy_issued := (key, res_delivery_serial reservation) :: sy_issued y |}.

(** One step of thread [i] from its current point. *)
Inductive thread_step (y : LeaseSystem) (i : nat) (t : LeaseThread) : LeaseSystem → Prop :=
| step_exhausted after :
    lt_pc t = AtLoop → lt_call t = CallAfter after 0 →
    thread_step y i t (with_thread y i (at_pc t (Returned (Err (after_error after)))))
| step_hit st reservation :
    lt_pc t = AtLoop → (∀ after, lt_call t ≠ CallAfter after 0) →
    take (lt_call t) (sy_state y) (lt_key t) = (st, Some reservation) →
    thread_step y i t
      (issue (with_lease y st (<[i := at_pc t (Returned (Ok reservation))]> (sy_threads y)))
         (lt_key t) reservation)
| step_miss st :
    lt_pc t = AtLoop → (∀ after, lt_call t ≠ CallAfter after 0) →
    take (lt_call t) (sy_state y) (lt_key t) = (st, None) →
    thread_step y i t (with_lease y st (<[i := at_pc t AtStart]> (sy_threads y)))
| step_start st joined :
    lt_pc t = AtStart →
    start_or_join_reservation (sy_state y) (lt_key t) i = (st, joined) →
    thread_step y i t
      (with_lease y st (<[i := at_pc t (if joined then Waiting else Owner)]> (sy_threads y)))
| step_fetch fresh s out :
    lt_pc t = Owner →
    vb_reserve_block fresh (lt_key t) block_size (sy_inner y) = (s, out) →
    thread_step y i t
      (with_inner y s
         (<[i := at_pc t (match out with Ok block => Finishing block | Err e => Failing e end)]>
            (sy_threads y)) [])
| step_finish block st waiters :
    lt_pc t = Finishing block →
    finish_reservation (sy_state y) (lt_key t) block = (st, waiters) →
    thread_step y i t
      (with_lease y st (wake waiters (<[i := next_attempt t]> (sy_threads y))))
| step_fail e st waiters :
    lt_pc t = Failing e →
    fail_reservation (sy_state y) (lt_key t) = (st, waiters) →
    thread_step y i t
      (with_lease y st (wake waiters (<[i := at_pc t (Returned (Err e))]> (sy_threads y))))
| step_direct fresh s out :
    lt_pc t = AtDirect →
    vb_reserve_one fresh (lt_key t) (sy_inner y) = (s, out) →
    thread_step y i t
      (with_inner y s (<[i := at_pc t (Returned out)]> (sy_threads y))
         (match out with Ok r => [(lt_key t, res_delivery_serial r)] | Err _ => [] end)).

(** The points where a caller awaits, and so where its future can be dropped: the inner
    store may by then have answered. *)
Definition awaiting (pc : LeasePc) : bool :=
  match pc with
  | AtDirect | Waiting | Owner | Finishing _ | Failing _ => true
  | AtLoop | AtStart | Dropped | Returned _ => false
  end.

(** The two calls. *)
Definition admissible (call : LeaseCall) : Prop :=
  match call with
  | CallReserve => True
  | CallAfter after n => is_u64 after ∧ n = Z.to_nat (max_attempts block_size)
  end.

(** The system: threads come, move, and, when [cancel] is set, may be dropped while they
    await; other operations commit to the inner store. *)
Inductive lease_step (cancel : bool) (y : LeaseSystem) : LeaseSystem → Prop :=
| lease_spawn i key call :
    sy_threads y !! i = None → admissible call →
    lease_step cancel y (with_thread y i (spawned block_size key call))
| lease_thread i t y' :
    sy_threads y !! i = Some t → thread_step y i t y' → lease_step cancel y y'
| lease_commit s o :
    vb_commit (sy_inner y) s o →
    lease_step cancel y (with_inner y s (sy_threads y) (match o with Some kp => [kp] | None => [] end))
| lease_cancel i t :
    cancel = true → sy_threads y !! i = Some t → awaiting (lt_pc t) = true →
    lease_step cancel y (with_thread y i (at_pc t Dropped)).

Definition lease_init (s : St) : LeaseSystem := {|
  sy_inner := s; sy_state := empty_leases; sy_threads := ∅; sy_issued := [] |}.
End system.

(** ** Blocks from the wrapper *)

(** [reserve_delivery_positions], on the answers its calls of
    [reserve_delivery_position] get. *)
Fixpoint contiguous_rest (first : VersionWriteReservation) (expected_next : Z)
    (answers : list (result Error VersionWriteReservation)) : result Error unit :=
  match answers with
  | [] => Ok tt
  | answer :: answers =>
      let? next := answer in
      if negb (bool_decide (res_stream_id next = res_stream_id first)) ||
         negb (res_delivery_serial next =? expected_next)%Z
      then Err (Internal "leased version store returned a non-contiguous reservation block")
      else contiguous_rest first (u64_saturating_add expected_next 1) answers
  end.

Definition leased_block (block_size : Z) (answer : result Error VersionWriteReservation)
    (answers : list (result Error VersionWriteReservation))
    : result Error VersionWriteReservationBlock :=
  let? _ := block_validate block_size in
  let? first := answer in
  let? _ := contiguous_rest first (u64_saturating_add (res_delivery_serial first) 1) answers in
  Ok {| blk_stream_id := res_stream_id first;
        blk_start_delivery_serial := res_delivery_serial first; blk_len := block_size |}.
