(* ===== verification/LeasedThms.v ===== *)
(** * What the leased store guarantees

    Positions are handed out once, whatever the interleaving; one reservation per channel
    is in flight; nobody waits for ever unless the caller that owns a reservation is
    dropped. *)

From Stdlib Require Import ZArith Lia.
From stdpp Require Import base gmap strings list pretty relations.
From S2P Require Import Prelude Errors VersionTypes LeasedStore.

Implicit Types (key k : LeaseKey) (st : LeaseState) (c : LeaseCursor) (t : LeaseThread).

(** ** Taking from a lease *)

Definition in_lease st k (p : Z) : Prop :=
  ∃ c, ls_leases st !! k = Some c ∧ (lc_next_delivery_serial c ≤ p < lc_end_exclusive c)%Z.

Lemma take_next_spec c c' o :
  (0 ≤ lc_next_delivery_serial c)%Z → (lc_end_exclusive c ≤ u64_max)%Z → take_next c = (c', o) →
  lc_end_exclusive c' = lc_end_exclusive c ∧ (lc_next_delivery_serial c ≤ lc_next_delivery_serial c')%Z ∧
  (∀ r, o = Some r → res_delivery_serial r = lc_next_delivery_serial c ∧
     (lc_next_delivery_serial c < lc_end_exclusive c ∧
      lc_next_delivery_serial c < lc_next_delivery_serial c')%Z).
Proof.
  intros H0 Hmax. unfold take_next, exhausted. rewrite Z.geb_leb.
  destruct (Z.leb_spec (lc_end_exclusive c) (lc_next_delivery_serial c)); intros [= <- <-].
  - split; [done|]. split; [lia|done].
  - simpl. split; [done|]. split; [u64_lia|]. intros r [= <-]. simpl. u64_lia.
Qed.

Lemma in_lease_put st k c k' p :
  in_lease (put_cursor st k c) k' p ↔
  if decide (k' = k) then (lc_next_delivery_serial c ≤ p < lc_end_exclusive c)%Z
  else in_lease st k' p.
Proof.
  unfold in_lease, put_cursor, exhausted. simpl. rewrite Z.geb_leb.
  destruct (Z.leb_spec (lc_end_exclusive c) (lc_next_delivery_serial c)); case_decide as Hk.
  - subst. rewrite lookup_delete_eq. split; [by intros (? & ? & _)|lia].
  - by rewrite lookup_delete_ne.
  - subst. rewrite lookup_insert_eq. naive_solver.
  - by rewrite lookup_insert_ne.
Qed.

Definition leases_bounded st k : Prop :=
  ∀ c, ls_leases st !! k = Some c →
    (0 ≤ lc_next_delivery_serial c ∧ lc_end_exclusive c ≤ u64_max)%Z.

(** The lower bound a call asks for. *)
Definition above (call : LeaseCall) (p : Z) : Prop :=
  match call with CallAfter after _ => (after < p)%Z | CallReserve => True end.

(** What a take does: it leaves part of the lease and hands out a position that is no
    longer in it. *)
Definition took (call : LeaseCall) st key st' (o : option VersionWriteReservation) : Prop :=
  ls_in_flight st' = ls_in_flight st ∧
  (∀ k c', ls_leases st' !! k = Some c' → ∃ c, ls_leases st !! k = Some c ∧
     lc_end_exclusive c' = lc_end_exclusive c ∧
     (lc_next_delivery_serial c ≤ lc_next_delivery_serial c')%Z) ∧
  (ls_leases st !! key = None → o = None ∧ st' = st) ∧
  ∀ r, o = Some r →
    in_lease st key (res_delivery_serial r) ∧ ¬ in_lease st' key (res_delivery_serial r) ∧
    above call (res_delivery_serial r).

Lemma took_nothing call st key : ls_leases st !! key = None → took call st key st None.
Proof.
  intros _. split; [done|]. split; [|done]. intros k c' Hc'. exists c'. repeat split; (done || lia).
Qed.

Lemma took_put call st key c0 c1 o :
  ls_leases st !! key = Some c0 → lc_end_exclusive c1 = lc_end_exclusive c0 →
  (lc_next_delivery_serial c0 ≤ lc_next_delivery_serial c1)%Z →
  (∀ r, o = Some r → (lc_next_delivery_serial c0 ≤ res_delivery_serial r < lc_end_exclusive c0)%Z ∧
     (res_delivery_serial r < lc_next_delivery_serial c1)%Z ∧ above call (res_delivery_serial r)) →
  took call st key (put_cursor st key c1) o.
Proof.
  intros Hc0 He Hn Hr. split; [done|]. split.
  { intros k c'. unfold put_cursor. simpl. destruct (decide (k = key)) as [->|Hk].
    - destruct (exhausted c1); [by rewrite lookup_delete_eq|]. rewrite lookup_insert_eq. naive_solver.
    - destruct (exhausted c1); [rewrite lookup_delete_ne by done|rewrite lookup_insert_ne by done];
        intros Hc'; exists c'; repeat split; (done || lia). }
  split; [by rewrite Hc0|]. intros r ->. destruct (Hr r eq_refl) as (Hin & Hlt & Haft).
  split; [by exists c0|]. split; [|done]. rewrite in_lease_put, decide_True by done. lia.
Qed.

Lemma take_spec call st key st' o :
  leases_bounded st key → match call with CallAfter after _ => is_u64 after | _ => True end →
  take call st key = (st', o) → took call st key st' o.
Proof.
  intros Hb Hcall Htake.
  destruct call as [|after n]; simpl in Htake; [unfold take_cached in Htake|unfold take_cached_after in Htake];
    (destruct (ls_leases st !! key) as [c0|] eqn:Hc0;
     [|injection Htake as <- <-; by apply took_nothing]); destruct (Hb c0 Hc0) as [H0 Hmax].
  - destruct (take_next c0) as [c1 o'] eqn:Ht. apply take_next_spec in Ht as (He & Hn & Hr); [|done..].
    injection Htake as <- <-. apply (took_put _ _ _ c0); [done..|]. intros r ->.
    destruct (Hr r eq_refl) as (-> & ? & ?). simpl. lia.
  - destruct (Z.leb_spec (lc_next_delivery_serial c0) after) as [Hle|Hgt].
    + rewrite Z.geb_leb in Htake. destruct (Z.leb_spec (lc_end_exclusive c0) (u64_saturating_add after 1)).
      * injection Htake as <- <-. split; [done|]. simpl. split; [|by rewrite Hc0]. intros k c'.
        destruct (decide (k = key)) as [->|Hk]; [by rewrite lookup_delete_eq|].
        rewrite lookup_delete_ne by done. intros Hc'; exists c'; repeat split; (done || lia).
      * destruct (take_next _) as [c1 o'] eqn:Ht.
        apply take_next_spec in Ht as (He & Hn & Hr); simpl in *; [|u64_lia|done].
        injection Htake as <- <-. apply (took_put _ _ _ c0); [done..|u64_lia|]. intros r ->.
        destruct (Hr r eq_refl) as (-> & ? & ?). simpl. u64_lia.
    + destruct (take_next c0) as [c1 o'] eqn:Ht. apply take_next_spec in Ht as (He & Hn & Hr); [|done..].
      injection Htake as <- <-. apply (took_put _ _ _ c0); [done..|]. intros r ->.
      destruct (Hr r eq_refl) as (-> & ? & ?). simpl. lia.
Qed.

(** ** Single flight *)

Definition owns (pc : LeasePc) : bool :=
  match pc with Owner | Finishing _ | Failing _ => true | _ => false end.

Definition call_typed (call : LeaseCall) : Prop :=
  match call with CallAfter after _ => is_u64 after | CallReserve => True end.

Section flight.
Implicit Types (fl : gmap LeaseKey (list nat)) (th : gmap nat LeaseThread) (i j : nat).

(** A reservation in flight has at most one owner; whoever waits is registered with the
    reservation of its channel. *)
Record flight_inv fl th : Prop := {
  fi_owner i t : th !! i = Some t → owns (lt_pc t) = true → is_Some (fl !! lt_key t);
  fi_unique i j t t' :
    th !! i = Some t → th !! j = Some t' → owns (lt_pc t) = true → owns (lt_pc t') = true →
    lt_key t = lt_key t' → i = j;
  fi_waiting i t : th !! i = Some t → lt_pc t = Waiting → ∃ ws, fl !! lt_key t = Some ws ∧ i ∈ ws;
  fi_waiters k ws i : fl !! k = Some ws → i ∈ ws → ∃ t, th !! i = Some t ∧ lt_key t = k;
  fi_call i t : th !! i = Some t → call_typed (lt_call t);
}.

(** Every reservation in flight is owned. *)
Definition all_owned fl th : Prop :=
  ∀ k ws, fl !! k = Some ws → ∃ i t, th !! i = Some t ∧ owns (lt_pc t) = true ∧ lt_key t = k.

(** Waiters are waiting, or were dropped, so wake-ups reach everybody. *)
Lemma wake1_key t : lt_key (wake1 t) = lt_key t.
Proof. unfold wake1. by destruct (lt_pc t). Qed.

Lemma wake1_idemp t : wake1 (wake1 t) = wake1 t.
Proof. unfold wake1 at 2 3. destruct (lt_pc t) eqn:Hp; unfold wake1; simpl; by rewrite ?Hp. Qed.

Lemma wake1_owns t : owns (lt_pc (wake1 t)) = owns (lt_pc t).
Proof. unfold wake1. destruct (lt_pc t) eqn:Hp; simpl; by rewrite ?Hp. Qed.

Lemma wake1_not_waiting t : lt_pc (wake1 t) ≠ Waiting.
Proof. unfold wake1. destruct (lt_pc t) eqn:Hp; simpl; by rewrite ?Hp. Qed.

Lemma wake1_call t : call_typed (lt_call t) → call_typed (lt_call (wake1 t)).
Proof. unfold wake1. destruct (lt_pc t); try done. simpl. by destruct (lt_call t). Qed.

Lemma lookup_wake ws th i :
  wake ws th !! i = if decide (i ∈ ws) then wake1 <$> th !! i else th !! i.
Proof.
  induction ws as [|w ws IH]; simpl; [done|]. destruct (decide (i = w)) as [->|Hne].
  - rewrite lookup_alter_eq, IH. rewrite (decide_True (P := w ∈ w :: ws)) by left.
    case_decide; [|done]. destruct (th !! w); simpl; [|done]. by rewrite wake1_idemp.
  - rewrite lookup_alter_ne, IH by done. apply decide_ext. rewrite elem_of_cons. naive_solver.
Qed.

(** A thread moves without entering or leaving a reservation. *)
Lemma flight_move fl th i t t' :
  flight_inv fl th → th !! i = Some t → lt_key t' = lt_key t → call_typed (lt_call t') →
  (owns (lt_pc t') = true → owns (lt_pc t) = true) → lt_pc t' ≠ Waiting →
  flight_inv fl (<[i := t']> th).
Proof.
  intros [Ho Hu Hw Hws Hc] Hi Hkey Hcall Howns Hwait. split.
  - intros j x Hj Hx. destruct (decide (i = j)) as [<-|Hne].
    + rewrite lookup_insert_eq in Hj. injection Hj as <-. rewrite Hkey. eapply Ho; eauto.
    + rewrite lookup_insert_ne in Hj by done. eauto.
  - intros a b x x' [[<- <-]|[? Ha]]%lookup_insert_Some [[<- <-]|[? Hb]]%lookup_insert_Some Hx Hx' Heq;
      [done|..|eauto].
    + apply (Hu i b t x'); auto; congruence.
    + apply (Hu a i x t); auto; congruence.
  - intros j x Hj Hx. destruct (decide (i = j)) as [<-|Hne].
    + rewrite lookup_insert_eq in Hj. by simplify_eq.
    + rewrite lookup_insert_ne in Hj by done. eauto.
  - intros k ws j Hk Hin. destruct (Hws k ws j Hk Hin) as (x & Hx & <-).
    destruct (decide (i = j)) as [<-|Hne].
    + exists t'. rewrite lookup_insert_eq. simplify_eq. done.
    + exists x. by rewrite lookup_insert_ne.
  - intros j x Hj. destruct (decide (i = j)) as [<-|Hne].
    + rewrite lookup_insert_eq in Hj. by simplify_eq.
    + rewrite lookup_insert_ne in Hj by done. eauto.
Qed.

Lemma flight_spawn fl th i t :
  flight_inv fl th → th !! i = None → call_typed (lt_call t) → owns (lt_pc t) = false →
  lt_pc t ≠ Waiting → flight_inv fl (<[i := t]> th).
Proof.
  intros [Ho Hu Hw Hws Hc] Hi Hcall Howns Hwait. split.
  - intros j x [[<- <-]|[Hne Hj]]%lookup_insert_Some Hx; [congruence|eauto].
  - intros a b x x' [[<- <-]|[? Ha]]%lookup_insert_Some [[<- <-]|[? Hb]]%lookup_insert_Some Hx Hx' Heq;
      try congruence. eauto.
  - intros j x [[<- <-]|[Hne Hj]]%lookup_insert_Some Hx; [done|eauto].
  - intros k ws j Hk Hin. destruct (Hws k ws j Hk Hin) as (x & Hx & <-). exists x.
    rewrite lookup_insert_ne; [done|congruence].
  - intros j x [[<- <-]|[Hne Hj]]%lookup_insert_Some; [done|eauto].
Qed.

Lemma flight_join fl th i t ws :
  flight_inv fl th → th !! i = Some t → fl !! lt_key t = Some ws →
  flight_inv (<[lt_key t := ws ++ [i]]> fl) (<[i := at_pc t Waiting]> th).
Proof.
  intros [Ho Hu Hw Hws Hc] Hi Hfl. split.
  - intros j x [[<- <-]|[Hne Hj]]%lookup_insert_Some Hx; [done|].
    apply lookup_insert_is_Some. destruct (decide (lt_key t = lt_key x)); eauto.
  - intros a b x x' [[<- <-]|[? Ha]]%lookup_insert_Some [[<- <-]|[? Hb]]%lookup_insert_Some Hx Hx' Heq;
      try done. eauto.
  - intros j x [[<- <-]|[Hne Hj]]%lookup_insert_Some Hx; simpl.
    + exists (ws ++ [i]). rewrite lookup_insert_eq. set_solver.
    + destruct (Hw j x Hj Hx) as (ws' & Hws' & Hin). destruct (decide (lt_key t = lt_key x)) as [Heq|].
      * exists (ws ++ [i]). rewrite <-Heq, lookup_insert_eq. rewrite <-Heq in Hws'. simplify_eq. set_solver.
      * exists ws'. by rewrite lookup_insert_ne.
  - intros k ws' j [[<- <-]|[Hne Hk]]%lookup_insert_Some Hin.
    + apply elem_of_app in Hin as [Hin| ->%list_elem_of_singleton].
      * destruct (Hws _ ws j Hfl Hin) as (x & Hx & Hkx). destruct (decide (i = j)) as [<-|].
        -- exists (at_pc t Waiting). by rewrite lookup_insert_eq.
        -- exists x. by rewrite lookup_insert_ne.
      * exists (at_pc t Waiting). by rewrite lookup_insert_eq.
    + destruct (Hws k ws' j Hk Hin) as (x & Hx & Hkx). destruct (decide (i = j)) as [<-|].
      * simplify_eq.
      * exists x. by rewrite lookup_insert_ne.
  - intros j x [[<- <-]|[Hne Hj]]%lookup_insert_Some; simpl; eauto.
Qed.

Lemma flight_own fl th i t :
  flight_inv fl th → th !! i = Some t → fl !! lt_key t = None →
  flight_inv (<[lt_key t := []]> fl) (<[i := at_pc t Owner]> th).
Proof.
  intros [Ho Hu Hw Hws Hc] Hi Hfl.
  assert (∀ j x, th !! j = Some x → owns (lt_pc x) = true → lt_key x ≠ lt_key t) as Hfree.
  { intros j x Hj Hx Heq. destruct (Ho j x Hj Hx) as [ws Hws']. congruence. }
  split.
  - intros j x [[<- <-]|[Hne Hj]]%lookup_insert_Some Hx.
    + exists []. apply lookup_insert_eq.
    + rewrite lookup_insert_ne; [eauto|]. intros Heq. by eapply Hfree.
  - intros a b x x' [[<- <-]|[? Ha]]%lookup_insert_Some [[<- <-]|[? Hb]]%lookup_insert_Some Hx Hx' Heq;
      simpl in *; [done| | |eauto]; exfalso; eapply Hfree; eauto.
  - intros j x [[<- <-]|[Hne Hj]]%lookup_insert_Some Hx; [done|].
    destruct (Hw j x Hj Hx) as (ws' & Hws' & Hin). exists ws'. rewrite lookup_insert_ne; [done|congruence].
  - intros k ws' j [[<- <-]|[Hne Hk]]%lookup_insert_Some Hin; [by apply elem_of_nil in Hin|].
    destruct (Hws k ws' j Hk Hin) as (x & Hx & Hkx). destruct (decide (i = j)) as [<-|].
    + simplify_eq.
    + exists x. by rewrite lookup_insert_ne.
  - intros j x [[<- <-]|[Hne Hj]]%lookup_insert_Some; simpl; eauto.
Qed.

Lemma flight_release fl th i t t' :
  flight_inv fl th → th !! i = Some t → owns (lt_pc t) = true → lt_key t' = lt_key t →
  call_typed (lt_call t') → owns (lt_pc t') = false → lt_pc t' ≠ Waiting →
  flight_inv (delete (lt_key t) fl) (wake (default [] (fl !! lt_key t)) (<[i := t']> th)).
Proof.
  intros Hinv Hi Howns Hkey Hcall Hrel Hwait.
  assert (flight_inv fl (<[i := t']> th)) as [Ho Hu Hw Hws Hc]
    by (eapply flight_move; eauto; congruence).
  destruct Hinv as [Ho0 Hu0 _ _ _]. destruct (Ho0 i t Hi Howns) as [ws Hfl]. rewrite Hfl. simpl.
  set (th' := <[i := t']> th) in *.
  assert (∀ j x, wake ws th' !! j = Some x → ∃ x0, th' !! j = Some x0 ∧ lt_key x = lt_key x0 ∧
    owns (lt_pc x) = owns (lt_pc x0) ∧ call_typed (lt_call x) ∧
    (lt_pc x = Waiting → lt_pc x0 = Waiting ∧ j ∉ ws)) as Hwake.
  { intros j x. rewrite lookup_wake. case_decide as Hin.
    - intros (x0 & Hx0 & ->)%fmap_Some. exists x0. rewrite wake1_key, wake1_owns.
      repeat split; eauto using wake1_call; by destruct (wake1_not_waiting x0).
    - intros Hx. exists x. eauto 10. }
  assert (∀ j x, th' !! j = Some x → owns (lt_pc x) = true → lt_key x ≠ lt_key t) as Hfree.
  { intros j x Hj Hx Heq. unfold th' in Hj.
    apply lookup_insert_Some in Hj as [[<- <-]|[Hne Hj]]; [congruence|]. apply Hne. eapply Hu0; eauto. }
  split.
  - intros j x (x0 & Hx0 & -> & -> & _)%Hwake Hx. rewrite lookup_delete_ne; [eauto|].
    intros Heq. by eapply Hfree.
  - intros a b x x' (x0 & Hx0 & -> & -> & _)%Hwake (x1 & Hx1 & -> & -> & _)%Hwake. eauto.
  - intros j x (x0 & Hx0 & -> & _ & _ & Hwt)%Hwake Hx. destruct (Hwt Hx) as [Hx0w Hnin].
    destruct (Hw j x0 Hx0 Hx0w) as (ws' & Hws' & Hin). exists ws'. rewrite lookup_delete_ne; [done|].
    intros Heq. congruence.
  - intros k ws' j [Hne Hk]%lookup_delete_Some Hin. destruct (Hws k ws' j Hk Hin) as (x & Hx & Hkx).
    rewrite lookup_wake, Hx. case_decide; eexists; (split; [reflexivity|]); [by rewrite wake1_key|done].
  - intros j x (x0 & _ & _ & _ & Hct & _)%Hwake. done.
Qed.
End flight.

Section invariants.
Context {St : Type} `{VersionBackendLaws St} (block_size : Z).
Implicit Types (y : LeaseSystem (St := St)) (s : St).

Definition sys_flight y : Prop := flight_inv (ls_in_flight (sy_state y)) (sy_threads y).
Definition sys_owned y : Prop := all_owned (ls_in_flight (sy_state y)) (sy_threads y).

Lemma take_in_flight call st key st' o :
  take call st key = (st', o) → ls_in_flight st' = ls_in_flight st.
Proof.
  destruct call as [|after n]; simpl; [unfold take_cached|unfold take_cached_after];
    destruct (ls_leases st !! key) as [c|]; try (by intros [= <- <-]).
  - destruct (take_next c). by intros [= <- <-].
  - destruct (_ <=? _)%Z; [destruct (_ >=? _)%Z; [by intros [= <- <-]|]|];
      destruct (take_next _); by intros [= <- <-].
Qed.

Lemma next_attempt_call t : call_typed (lt_call t) → call_typed (lt_call (next_attempt t)).
Proof. simpl. by destruct (lt_call t). Qed.

Lemma thread_step_flight y i t y' :
  sys_flight y → sy_threads y !! i = Some t → thread_step block_size y i t y' → sys_flight y'.
Proof.
  unfold sys_flight. intros Hf Hi Hstep. pose proof (fi_call _ _ Hf i t Hi) as Hcall.
  destruct Hstep as [after Hpc Hc|st r Hpc Hc Ht|st Hpc Hc Ht|st joined Hpc Hs|fresh s out Hpc Hs
    |block st ws Hpc Hs|e st ws Hpc Hs|fresh s out Hpc Hs]; simpl.
  - by eapply flight_move.
  - rewrite (take_in_flight _ _ _ _ _ Ht). by eapply flight_move.
  - rewrite (take_in_flight _ _ _ _ _ Ht). by eapply flight_move.
  - unfold start_or_join_reservation in Hs.
    destruct (ls_in_flight (sy_state y) !! lt_key t) as [ws|] eqn:Hfl; injection Hs as <- <-.
    + by apply flight_join.
    + by apply flight_own.
  - eapply flight_move; [done|done|done|done|by rewrite Hpc|by destruct out].
  - injection Hs as <- <-. eapply flight_release; try done; [by rewrite Hpc|by apply next_attempt_call].
  - injection Hs as <- <-. eapply flight_release; try done. by rewrite Hpc.
  - by eapply flight_move.
Qed.

Lemma lease_step_flight cancel y y' :
  sys_flight y → lease_step block_size cancel y y' → sys_flight y'.
Proof.
  intros Hf Hstep. destruct Hstep as [i key call Hi Hadm|i t y' Hi Hstep|s o Hc|i t Hc Hi Ha].
  - apply flight_spawn; [done|done| | |].
    + simpl. destruct call; [done|]. by destruct Hadm.
    + simpl. destruct call; [by destruct (_ =? 1)%Z|done].
    + simpl. destruct call; [by destruct (_ =? 1)%Z|done].
  - by eapply thread_step_flight.
  - done.
  - eapply (flight_move _ _ i t); [done|done|done|exact (fi_call _ _ Hf i t Hi)|done|done].
Qed.

(** Owners stay until they release. *)
Lemma owned_move fl th i t t' :
  all_owned fl th → th !! i = Some t → lt_key t' = lt_key t → owns (lt_pc t') = owns (lt_pc t) →
  all_owned fl (<[i := t']> th).
Proof.
  intros Ho Hi Hkey Howns k ws Hk. destruct (Ho k ws Hk) as (j & x & Hj & Hx & Hkx).
  destruct (decide (i = j)) as [<-|Hne].
  - exists i, t'. rewrite lookup_insert_eq. simplify_eq. by rewrite Howns.
  - exists j, x. by rewrite lookup_insert_ne.
Qed.

Lemma owned_wake fl th ws : all_owned fl th → all_owned fl (wake ws th).
Proof.
  intros Ho k ws' Hk. destruct (Ho k ws' Hk) as (j & x & Hj & Hx & Hkx).
  exists j. rewrite lookup_wake, Hj. case_decide; eexists; (split; [reflexivity|]); [|done].
  by rewrite wake1_owns, wake1_key.
Qed.

Lemma owned_release fl th i t t' ws :
  all_owned fl th → th !! i = Some t → all_owned (delete (lt_key t) fl) (wake ws (<[i := t']> th)).
Proof.
  intros Ho Hi. apply owned_wake. intros k ws' [Hne Hk]%lookup_delete_Some.
  destruct (Ho k ws' Hk) as (j & x & Hj & Hx & Hkx). exists j, x. rewrite lookup_insert_ne; [done|congruence].
Qed.

Lemma thread_step_owned y i t y' :
  sys_owned y → sy_threads y !! i = Some t → thread_step block_size y i t y' → sys_owned y'.
Proof.
  unfold sys_owned. intros Ho Hi Hstep.
  destruct Hstep as [after Hpc Hc|st r Hpc Hc Ht|st Hpc Hc Ht|st joined Hpc Hs|fresh s out Hpc Hs
    |block st ws Hpc Hs|e st ws Hpc Hs|fresh s out Hpc Hs]; simpl.
  - eapply owned_move; eauto. by rewrite Hpc.
  - rewrite (take_in_flight _ _ _ _ _ Ht). eapply owned_move; eauto. by rewrite Hpc.
  - rewrite (take_in_flight _ _ _ _ _ Ht). eapply owned_move; eauto. by rewrite Hpc.
  - unfold start_or_join_reservation in Hs.
    destruct (ls_in_flight (sy_state y) !! lt_key t) as [ws|] eqn:Hfl; injection Hs as <- <-; simpl;
      intros k ws' [[<- <-]|[Hne Hk]]%lookup_insert_Some.
    + eapply (owned_move _ _ _ _ (at_pc t Waiting) Ho Hi); [done|by rewrite Hpc|exact Hfl].
    + eapply (owned_move _ _ _ _ (at_pc t Waiting) Ho Hi); [done|by rewrite Hpc|exact Hk].
    + exists i, (at_pc t Owner). by rewrite lookup_insert_eq.
    + destruct (Ho k ws' Hk) as (j & x & Hj & Hx & Hkx). exists j, x. rewrite lookup_insert_ne; [done|].
      intros ->. congruence.
  - eapply owned_move; eauto. rewrite Hpc. by destruct out.
  - injection Hs as <- <-. by apply owned_release.
  - injection Hs as <- <-. by apply owned_release.
  - eapply owned_move; eauto. by rewrite Hpc.
Qed.

Lemma lease_step_owned y y' : sys_owned y → lease_step block_size false y y' → sys_owned y'.
Proof.
  intros Ho Hstep. destruct Hstep as [i key call Hi Hadm|i t y' Hi Hstep|s o Hc|i t Hc Hi Ha].
  - intros k ws Hk. destruct (Ho k ws Hk) as (j & x & Hj & Hx & Hkx). exists j, x. simpl.
    rewrite lookup_insert_ne; [done|congruence].
  - by eapply thread_step_owned.
  - done.
  - done.
Qed.

(** ** Positions *)

Definition unsaturated s : Prop := ∀ k, (vb_next s k < u64_max)%Z.

(** Nothing that is still to be handed out has been handed out: the lease of a channel, the
    block its owner has fetched, and what lies past the counter are apart from each other
    and from the positions issued so far. *)
Record positions_inv y : Prop := {
  pi_wf : vb_wf (sy_inner y);
  pi_nodup : NoDup (sy_issued y);
  pi_issued k p : (k, p) ∈ sy_issued y → (p < vb_next (sy_inner y) k)%Z;
  pi_lease k c : ls_leases (sy_state y) !! k = Some c →
    (0 ≤ lc_next_delivery_serial c ∧ lc_end_exclusive c ≤ vb_next (sy_inner y) k)%Z;
  pi_fresh k p : in_lease (sy_state y) k p → (k, p) ∉ sy_issued y;
  pi_block i t block : sy_threads y !! i = Some t → lt_pc t = Finishing block →
    (0 ≤ blk_start_delivery_serial block)%Z ∧
    (blk_start_delivery_serial block + blk_len block ≤ vb_next (sy_inner y) (lt_key t))%Z ∧
    ∀ p, (blk_start_delivery_serial block ≤ p < blk_start_delivery_serial block + blk_len block)%Z →
      (lt_key t, p) ∉ sy_issued y ∧ ¬ in_lease (sy_state y) (lt_key t) p;
  pi_returned i t r : sy_threads y !! i = Some t → lt_pc t = Returned (Ok r) →
    above (lt_call t) (res_delivery_serial r) ∧ (lt_key t, res_delivery_serial r) ∈ sy_issued y;
  pi_distinct i j t t' r r' :
    sy_threads y !! i = Some t → sy_threads y !! j = Some t' → i ≠ j → lt_key t = lt_key t' →
    lt_pc t = Returned (Ok r) → lt_pc t' = Returned (Ok r') →
    res_delivery_serial r ≠ res_delivery_serial r';
  pi_direct i t : sy_threads y !! i = Some t → lt_pc t = AtDirect → lt_call t = CallReserve;
}.

Lemma positions_leases_bounded y k :
  positions_inv y → unsaturated (sy_inner y) → leases_bounded (sy_state y) k.
Proof.
  intros Hp Hu c Hc. destruct (pi_lease _ Hp k c Hc). specialize (Hu k). lia.
Qed.

(** The inner store moves on; what it hands out lies past every earlier position. *)
Lemma positions_inner y s th new :
  positions_inv y → unsaturated s → vb_wf s →
  (∀ k, (vb_next (sy_inner y) k ≤ vb_next s k)%Z) →
  (new = [] ∨ ∃ k p, new = [(k, p)] ∧ p = vb_next (sy_inner y) k ∧ vb_next s k = u64_saturating_add p 1) →
  (∀ i t block, th !! i = Some t → lt_pc t = Finishing block →
     sy_threads y !! i = Some t ∨
     blk_start_delivery_serial block = vb_next (sy_inner y) (lt_key t) ∧ new = [] ∧
     vb_next s (lt_key t) = u64_saturating_add (blk_start_delivery_serial block) (blk_len block)) →
  (∃ i0, ∀ i t r, th !! i = Some t → lt_pc t = Returned (Ok r) →
     sy_threads y !! i = Some t ∨
     i = i0 ∧ above (lt_call t) (res_delivery_serial r) ∧
     new = [(lt_key t, res_delivery_serial r)]) →
  (∀ i t, th !! i = Some t → lt_pc t = AtDirect → lt_call t = CallReserve) →
  positions_inv (with_inner y s th new).
Proof.
  intros [Hwf Hnd His Hle Hfr Hbl Hre Hdt Hdi] Hu Hs Hmono Hnew Hth [i0 Hret] Hdirect.
  assert (∀ k p, (k, p) ∈ new → p = vb_next (sy_inner y) k ∧ (p < vb_next s k)%Z) as Hnew'.
  { destruct Hnew as [->|(k & p & -> & Hp & Hn)]; [intros k p ?%elem_of_nil; done|].
    intros k' p' [= -> ->]%list_elem_of_singleton. split; [done|].
    specialize (Hu k). rewrite Hn in *. apply saturating_add_lt in Hu. lia. }
  split; simpl.
  - done.
  - destruct Hnew as [->|(k & p & -> & -> & _)]; [done|]. simpl. constructor; [|done].
    intros Hin%His. lia.
  - intros k p [Hin|Hin]%elem_of_app; [by apply Hnew' in Hin as [_ ?]|]. apply His in Hin.
    specialize (Hmono k). lia.
  - intros k c Hc. destruct (Hle k c Hc). specialize (Hmono k). lia.
  - intros k p Hin [Hp|Hp]%elem_of_app; [|by eapply Hfr].
    destruct (Hnew' k p Hp) as [-> _]. destruct Hin as (c & Hc & Hr). destruct (Hle k c Hc). lia.
  - intros i t block Hi Hpc. destruct (Hth i t block Hi Hpc) as [Hold|(Hstart & -> & Hnext)].
    + destruct (Hbl i t block Hold Hpc) as (Hge & Hend & Hfree). split; [done|].
      split; [specialize (Hmono (lt_key t)); lia|]. intros p Hp. destruct (Hfree p Hp) as [Hni Hnl].
      split; [|done]. intros [Hin|Hin]%elem_of_app; [|done]. apply Hnew' in Hin as [-> _]. lia.
    + pose proof (vb_next_nonneg (sy_inner y) (lt_key t) Hwf). pose proof (Hu (lt_key t)) as Hut.
      rewrite Hnext in Hut. apply saturating_add_lt in Hut.
      split; [lia|]. split; [lia|]. intros p Hp. split.
      * intros Hin%His. lia.
      * intros (c & Hc & Hr). destruct (Hle _ c Hc). lia.
  - intros i t r Hi Hpc. destruct (Hret i t r Hi Hpc) as [Hold|(_ & Hab & ->)].
    + destruct (Hre i t r Hold Hpc). split; [done|]. apply elem_of_app. by right.
    + split; [done|]. left.
  - intros i j t t' r r' Hi Hj Hne Hkey Hpc Hpc'.
    destruct (Hret i t r Hi Hpc) as [Hold|(-> & _ & Hn)], (Hret j t' r' Hj Hpc') as [Hold'|(-> & _ & Hn')].
    + by eapply (Hdt i j).
    + destruct (Hnew' (lt_key t') (res_delivery_serial r')) as [-> _]; [rewrite Hn'; left|].
      destruct (Hre i t r Hold Hpc) as [_ Hlt%His]. rewrite Hkey in Hlt. lia.
    + destruct (Hnew' (lt_key t) (res_delivery_serial r)) as [-> _]; [rewrite Hn; left|].
      destruct (Hre j t' r' Hold' Hpc') as [_ Hlt%His]. rewrite Hkey. lia.
    + done.
  - done.
Qed.

(** Threads move, and the leases lose what is handed out. *)
Lemma positions_take y i t st o :
  positions_inv y → unsaturated (sy_inner y) → sys_flight y → sy_threads y !! i = Some t →
  lt_pc t = AtLoop → take (lt_call t) (sy_state y) (lt_key t) = (st, o) →
  positions_inv
    match o with
    | Some r => issue (with_lease y st (<[i := at_pc t (Returned (Ok r))]> (sy_threads y))) (lt_key t) r
    | None => with_lease y st (<[i := at_pc t AtStart]> (sy_threads y))
    end.
Proof.
  intros Hp Hu Hf Hi Hpc Ht. pose proof (positions_leases_bounded y (lt_key t) Hp Hu) as Hb.
  apply take_spec in Ht as (_ & Hsub & _ & Hr); [|done|exact (fi_call _ _ Hf i t Hi)].
  destruct Hp as [Hwf Hnd His Hle Hfr Hbl Hre Hdt Hdi].
  assert (∀ k p, in_lease st k p → in_lease (sy_state y) k p) as Hin.
  { intros k p (c' & Hc' & Hrange). destruct (Hsub k c' Hc') as (c & Hc & He & Hn).
    exists c. split; [done|]. lia. }
  assert (∀ k c, ls_leases st !! k = Some c → (0 ≤ lc_next_delivery_serial c ∧
    lc_end_exclusive c ≤ vb_next (sy_inner y) k)%Z) as Hle'.
  { intros k c' Hc'. destruct (Hsub k c' Hc') as (c & Hc & He & Hn). destruct (Hle k c Hc). lia. }
  assert (∀ j x block pc', <[i := at_pc t pc']> (sy_threads y) !! j = Some x → lt_pc x = Finishing block →
    (∀ b, pc' ≠ Finishing b) → sy_threads y !! j = Some x) as Hold.
  { intros j x block pc' [[<- <-]|[_ Hj]]%lookup_insert_Some Hx Hne; [|done]. by destruct (Hne block). }
  destruct o as [r|]; simpl.
  - destruct (Hr r eq_refl) as (Hold_in & Hgone & Hab). split; simpl.
    + done.
    + constructor; [|done]. by apply Hfr.
    + intros k p [[= -> ->]|Hx]%elem_of_cons; [|by apply His]. destruct Hold_in as (c & Hc & ?).
      destruct (Hle _ c Hc). lia.
    + done.
    + intros k p Hx [[= -> ->]|Hy]%elem_of_cons; [done|]. by eapply Hfr, Hy; apply Hin.
    + intros j x block Hj Hx. assert (sy_threads y !! j = Some x) as Hjo by by eapply Hold.
      destruct (Hbl j x block Hjo Hx) as (Hge & Hend & Hfree). split; [done|]. split; [done|].
      intros p Hrange. destruct (Hfree p Hrange) as [Hni Hnl]. split; [|naive_solver].
      intros [Heq|Hy]%elem_of_cons; [|done]. injection Heq as Hk ->. rewrite Hk in Hnl. done.
    + intros j x r' [[<- <-]|[_ Hj]]%lookup_insert_Some Hx.
      * simpl in *. injection Hx as <-. split; [done|left].
      * destruct (Hre j x r' Hj Hx). split; [done|by right].
    + assert (∀ j x r', sy_threads y !! j = Some x → lt_pc x = Returned (Ok r') → lt_key x = lt_key t →
        res_delivery_serial r' ≠ res_delivery_serial r) as Hnew.
      { intros j x r' Hj Hx Hk Heq. destruct (Hre j x r' Hj Hx) as [_ Hiss]. rewrite Hk, Heq in Hiss.
        by eapply Hfr. }
      intros a b x x' r1 r2 [[<- <-]|[_ Ha]]%lookup_insert_Some [[<- <-]|[_ Hb']]%lookup_insert_Some
        Hne Hk Hx Hx'; simpl in *; simplify_eq; try done.
      * intros Heq. by eapply (Hnew b x' r2).
      * by eapply (Hnew a x r1).
      * by eapply (Hdt a b).
    + intros j x [[<- <-]|[_ Hj]]%lookup_insert_Some Hx; [done|by eapply Hdi].
  - split; simpl; try done.
    + intros k p Hx. by apply Hfr, Hin.
    + intros j x block Hj Hx. assert (sy_threads y !! j = Some x) as Hjo by by eapply Hold.
      destruct (Hbl j x block Hjo Hx) as (Hge & Hend & Hfree). split; [done|]. split; [done|].
      intros p Hrange. destruct (Hfree p Hrange) as [Hni Hnl]. naive_solver.
    + intros j x r' [[<- <-]|[_ Hj]]%lookup_insert_Some Hx; [done|by eapply Hre].
    + intros a b x x' r1 r2 [[<- <-]|[_ Ha]]%lookup_insert_Some [[<- <-]|[_ Hb']]%lookup_insert_Some;
        try done. apply Hdt; done.
    + intros j x [[<- <-]|[_ Hj]]%lookup_insert_Some Hx; [done|by eapply Hdi].
Qed.

(** Threads that neither fetch nor return. *)
Lemma positions_threads y st th :
  positions_inv y → ls_leases st = ls_leases (sy_state y) →
  (∀ i t block, th !! i = Some t → lt_pc t = Finishing block → sy_threads y !! i = Some t) →
  (∀ i t r, th !! i = Some t → lt_pc t = Returned (Ok r) → sy_threads y !! i = Some t) →
  (∀ i t, th !! i = Some t → lt_pc t = AtDirect → lt_call t = CallReserve) →
  positions_inv (with_lease y st th).
Proof.
  intros [Hwf Hnd His Hle Hfr Hbl Hre Hdt Hdi] Hst Hfin Hret Hdirect.
  assert (∀ k p, in_lease st k p ↔ in_lease (sy_state y) k p) as Hin by (unfold in_lease; by rewrite Hst).
  split; simpl; try done.
  - rewrite Hst. done.
  - intros k p Hx. by apply Hfr, Hin.
  - intros i t block Hi Hpc. destruct (Hbl i t block (Hfin i t block Hi Hpc) Hpc) as (Hge & Hend & Hfree).
    split; [done|]. split; [done|]. intros p Hp. rewrite Hin. by apply Hfree.
  - intros i t r Hi Hpc. eapply Hre; eauto.
  - intros i j t t' r r' Hi Hj Hne Hk Hpc Hpc'. eapply (Hdt i j); eauto.
Qed.

(** The fetched block becomes the lease. *)
Lemma positions_finish y i t block :
  positions_inv y → unsaturated (sy_inner y) → sys_flight y → sy_threads y !! i = Some t →
  lt_pc t = Finishing block →
  positions_inv
    (with_lease y
       {| ls_leases := <[lt_key t := from_block block]> (ls_leases (sy_state y));
          ls_in_flight := delete (lt_key t) (ls_in_flight (sy_state y)) |}
       (wake (default [] (ls_in_flight (sy_state y) !! lt_key t))
          (<[i := next_attempt t]> (sy_threads y)))).
Proof.
  intros Hp Hu Hf Hi Hpc. set (st := {| ls_leases := _ |}). set (ws := default [] _).
  destruct Hp as [Hwf Hnd His Hle Hfr Hbl Hre Hdt Hdi].
  destruct (Hbl i t block Hi Hpc) as (Hge & Hend & Hfree). specialize (Hu (lt_key t)).
  assert (lc_end_exclusive (from_block block) = blk_start_delivery_serial block + blk_len block)%Z as Hexc.
  { simpl. apply saturating_add_lt. u64_lia. }
  assert (∀ k p, in_lease st k p →
    (k = lt_key t ∧ blk_start_delivery_serial block ≤ p < blk_start_delivery_serial block + blk_len block)%Z ∨
    (k ≠ lt_key t ∧ in_lease (sy_state y) k p)) as Hin.
  { intros k p (c & Hc & Hr). simpl in Hc. apply lookup_insert_Some in Hc as [[<- <-]|[Hne Hc]].
    - left. rewrite Hexc in Hr. done.
    - right. split; [done|]. by exists c. }
  assert (∀ j x, wake ws (<[i := next_attempt t]> (sy_threads y)) !! j = Some x →
    (lt_pc x = AtLoop) ∨ (j ≠ i ∧ sy_threads y !! j = Some x)) as Hth.
  { intros j x. rewrite lookup_wake. destruct (decide (i = j)) as [<-|Hne].
    - rewrite lookup_insert_eq. case_decide; simpl; intros [= <-]; by left.
    - rewrite lookup_insert_ne by done. case_decide; [|auto].
      intros (x0 & Hx0 & ->)%fmap_Some. unfold wake1. destruct (lt_pc x0); auto. }
  split; simpl; try done.
  - intros k c [[<- <-]|[Hne Hc]]%lookup_insert_Some; [|by apply Hle]. rewrite Hexc. simpl. lia.
  - intros k p [[-> Hr]|[_ Hold]]%Hin; [by apply Hfree|by apply Hfr].
  - intros j x b [Hx|[Hne Hj]]%Hth Hxb; [congruence|]. destruct (Hbl j x b Hj Hxb) as (? & ? & Hfree').
    split; [done|]. split; [done|]. intros p Hrange. destruct (Hfree' p Hrange) as [Hni Hnl].
    split; [done|]. intros [[Hk _]|[_ ?]]%Hin; [|done].
    destruct Hne. eapply (fi_unique _ _ Hf j i x t); eauto; [by rewrite Hxb|by rewrite Hpc].
  - intros j x r [Hx|[_ Hj]]%Hth Hxr; [congruence|by eapply Hre].
  - intros a b x x' r1 r2 [Hx|[_ Ha]]%Hth [Hx'|[_ Hb]]%Hth Hne Hk Hp1 Hp2; try congruence.
    by eapply (Hdt a b).
  - intros j x [Hx|[_ Hj]]%Hth Hxr; [congruence|by eapply Hdi].
Qed.

Hypothesis Hblock : (1 ≤ block_size ≤ u64_max)%Z.

Lemma block_u64 : is_u64 block_size.
Proof. u64_lia. Qed.

Lemma wake_pc ws (th : gmap nat LeaseThread) i t t' j x :
  th !! i = Some t → wake ws (<[i := t']> th) !! j = Some x →
  (lt_pc x = AtLoop) ∨ (j = i ∧ x = t') ∨ th !! j = Some x.
Proof.
  intros Hi. rewrite lookup_wake. destruct (decide (i = j)) as [<-|Hne].
  - rewrite lookup_insert_eq. case_decide; simpl; intros [= <-]; [|auto].
    unfold wake1. destruct (lt_pc t'); auto.
  - rewrite lookup_insert_ne by done. case_decide; [|auto].
    intros (x0 & Hx0 & ->)%fmap_Some. unfold wake1. destruct (lt_pc x0); auto.
Qed.

Lemma thread_step_positions y i t y' :
  positions_inv y → sys_flight y → unsaturated (sy_inner y) → unsaturated (sy_inner y') →
  sy_threads y !! i = Some t → thread_step block_size y i t y' → positions_inv y'.
Proof.
  intros Hp Hf Hu Hu' Hi Hstep.
  assert (∀ t' st, ls_leases st = ls_leases (sy_state y) → (∀ b, lt_pc t' ≠ Finishing b) →
    (∀ r, lt_pc t' ≠ Returned (Ok r)) → lt_pc t' ≠ AtDirect →
    positions_inv (with_lease y st (<[i := t']> (sy_threads y)))) as Hmove.
  { intros t' st Hst Hb Hr Hd. apply positions_threads; [done|done|..].
    - intros j x b [[<- <-]|[_ Hj]]%lookup_insert_Some Hx; [by destruct (Hb b)|done].
    - intros j x r [[<- <-]|[_ Hj]]%lookup_insert_Some Hx; [by destruct (Hr r)|done].
    - intros j x [[<- <-]|[_ Hj]]%lookup_insert_Some Hx; [done|by eapply pi_direct]. }
  destruct Hstep as [after Hpc Hc|st r Hpc Hc Ht|st Hpc Hc Ht|st joined Hpc Hs|fresh s out Hpc Hs
    |block st ws Hpc Hs|e st ws Hpc Hs|fresh s out Hpc Hs].
  - by apply Hmove.
  - by apply (positions_take y i t st (Some r)).
  - by apply (positions_take y i t st None).
  - apply Hmove; try by destruct joined. unfold start_or_join_reservation in Hs.
    destruct (ls_in_flight (sy_state y) !! lt_key t); by injection Hs as <- _.
  - destruct (vb_block_law _ _ _ _ _ _ (pi_wf _ Hp) block_u64 Hs) as (Hwf & Hmono & Hout).
    apply positions_inner; [done|done|done|done|by left|..].
    + intros j x b [[<- <-]|[_ Hj]]%lookup_insert_Some Hx; [|by left]. right. simpl in *.
      destruct out as [block|]; [|done]. injection Hx as <-. by destruct (Hout block eq_refl).
    + exists i. intros j x r [[<- <-]|[_ Hj]]%lookup_insert_Some Hx; [by destruct out|by left].
    + intros j x [[<- <-]|[_ Hj]]%lookup_insert_Some Hx; [by destruct out|by eapply pi_direct].
  - injection Hs as <- <-. by apply positions_finish.
  - injection Hs as <- <-. apply positions_threads; [done|done|..].
    + intros j x b Hj Hx. destruct (wake_pc _ _ _ _ _ _ _ Hi Hj) as [?|[[-> ->]|?]]; [congruence|done|done].
    + intros j x r Hj Hx. destruct (wake_pc _ _ _ _ _ _ _ Hi Hj) as [?|[[-> ->]|?]]; [congruence|done|done].
    + intros j x Hj Hx. destruct (wake_pc _ _ _ _ _ _ _ Hi Hj) as [?|[[-> ->]|?]]; [congruence|done|].
      by eapply pi_direct.
  - destruct (vb_one_law _ _ _ _ _ (pi_wf _ Hp) Hs) as (Hwf & Hmono & Hout).
    apply positions_inner; [done|done|done|done|..].
    + destruct out as [r|]; [right|by left]. exists (lt_key t), (res_delivery_serial r).
      by destruct (Hout r eq_refl).
    + intros j x b [[<- <-]|[_ Hj]]%lookup_insert_Some Hx; [done|by left].
    + exists i. intros j x r [[<- <-]|[_ Hj]]%lookup_insert_Some Hx; [|by left]. right. simpl in *.
      injection Hx as ->. by rewrite (pi_direct _ Hp i t Hi Hpc).
    + intros j x [[<- <-]|[_ Hj]]%lookup_insert_Some Hx; [done|by eapply pi_direct].
Qed.

Lemma lease_step_inner cancel y y' :
  vb_wf (sy_inner y) → lease_step block_size cancel y y' →
  vb_wf (sy_inner y') ∧ ∀ k, (vb_next (sy_inner y) k ≤ vb_next (sy_inner y') k)%Z.
Proof.
  intros Hwf Hstep. destruct Hstep as [i key call Hi Hadm|i t y' Hi Hstep|s o Hc|i t Hc Hi Ha]; try done.
  - destruct Hstep as [| | | |fresh s out Hpc Hs| | |fresh s out Hpc Hs]; try done.
    + destruct (vb_block_law _ _ _ _ _ _ Hwf block_u64 Hs) as (? & ? & _). done.
    + destruct (vb_one_law _ _ _ _ _ Hwf Hs) as (? & ? & _). done.
  - destruct (vb_commit_law _ _ _ Hwf Hc) as (? & ? & _). done.
Qed.

Lemma lease_step_positions cancel y y' :
  positions_inv y → sys_flight y → unsaturated (sy_inner y) → unsaturated (sy_inner y') →
  lease_step block_size cancel y y' → positions_inv y'.
Proof.
  intros Hp Hf Hu Hu' Hstep. destruct Hstep as [i key call Hi Hadm|i t y' Hi Hstep|s o Hc|i t Hc Hi Ha].
  - apply (positions_threads y (sy_state y)); [done|done|..]; simpl.
    + intros j x b [[<- <-]|[_ Hj]]%lookup_insert_Some; [|done]. simpl. destruct call; [by destruct (_ =? 1)%Z|done].
    + intros j x b [[<- <-]|[_ Hj]]%lookup_insert_Some; [|done]. simpl. destruct call; [by destruct (_ =? 1)%Z|done].
    + intros j x [[<- <-]|[_ Hj]]%lookup_insert_Some; [|by eapply pi_direct]. by destruct call.
  - by eapply thread_step_positions.
  - destruct (vb_commit_law _ _ _ (pi_wf _ Hp) Hc) as (Hwf & Hmono & Ho).
    apply positions_inner; [done|done|done|done|..].
    + destruct o as [[k p]|]; [right|by left]. exists k, p. by destruct (Ho k p eq_refl).
    + intros; by left.
    + exists 0. intros; by left.
    + intros; by eapply pi_direct.
  - apply (positions_threads y (sy_state y)); [done|done|..]; simpl.
    + intros j x b [[<- <-]|[_ Hj]]%lookup_insert_Some; done.
    + intros j x b [[<- <-]|[_ Hj]]%lookup_insert_Some; done.
    + intros j x [[<- <-]|[_ Hj]]%lookup_insert_Some; [done|by eapply pi_direct].
Qed.

Lemma lease_reachable cancel s y :
  vb_wf s → rtc (lease_step block_size cancel) (lease_init s) y →
  vb_wf (sy_inner y) ∧ sys_flight y ∧ (unsaturated (sy_inner y) → positions_inv y).
Proof.
  intros Hs. revert y. apply rtc_ind_r.
  - split; [done|]. split.
    + split; simpl; try (intros *; rewrite lookup_empty); done.
    + intros _. split; simpl; try done; try constructor; try (intros *; rewrite lookup_empty; done).
      * intros k p ?%elem_of_nil. done.
      * intros k p _ ?%elem_of_nil. done.
  - intros y y' _ Hstep (Hwf & Hf & Hp).
    destruct (lease_step_inner _ _ _ Hwf Hstep) as [Hwf' Hmono]. split; [done|].
    split; [by eapply lease_step_flight|]. intros Hu'.
    assert (unsaturated (sy_inner y)) as Hu by (intros k; specialize (Hmono k); specialize (Hu' k); lia).
    eapply lease_step_positions; eauto.
Qed.

(** C11: leased positions are handed out once.  However callers, dropped callers and commits
    that bypass the leases interleave, as long as no counter has saturated: no position of
    a channel is handed out twice, two callers of a channel never get the same position,
    and a caller that asked for a position after another gets a greater one.  Proved for
    every inner store that honours the contract of block reservations. *)
Theorem leased_positions_unique cancel s y :
  vb_wf s → rtc (lease_step block_size cancel) (lease_init s) y → unsaturated (sy_inner y) →
  NoDup (sy_issued y) ∧
  (∀ i j t t' r r', sy_threads y !! i = Some t → sy_threads y !! j = Some t' → i ≠ j →
     lt_key t = lt_key t' → lt_pc t = Returned (Ok r) → lt_pc t' = Returned (Ok r') →
     res_delivery_serial r ≠ res_delivery_serial r') ∧
  (∀ i t r after n, sy_threads y !! i = Some t → lt_pc t = Returned (Ok r) →
     lt_call t = CallAfter after n → (after < res_delivery_serial r)%Z).
Proof.
  intros Hs Hreach Hu. destruct (lease_reachable cancel s y Hs Hreach) as (_ & _ & Hp).
  destruct (Hp Hu) as [_ Hnd _ _ _ _ Hre Hdt _]. split; [done|]. split; [done|].
  intros i t r after n Hi Hpc Hcall. destruct (Hre i t r Hi Hpc) as [Hab _]. by rewrite Hcall in Hab.
Qed.

(** ** Progress *)

Lemma can_step y i t :
  sy_threads y !! i = Some t → lt_pc t ≠ Waiting → lt_pc t ≠ Dropped →
  (∀ out, lt_pc t ≠ Returned out) → ∃ y', thread_step block_size y i t y'.
Proof.
  intros Hi Hw Hd Hr. destruct (lt_pc t) as [| | | | |block|e| |out] eqn:Hpc; try done.
  - destruct (vb_reserve_one "" (lt_key t) (sy_inner y)) as [s out] eqn:Hv. eexists. by eapply step_direct.
  - destruct (lt_call t) as [|after [|n]] eqn:Hc.
    + destruct (take (lt_call t) (sy_state y) (lt_key t)) as [st [r|]] eqn:Ht; eexists;
        [eapply step_hit|eapply step_miss]; eauto; by rewrite Hc.
    + eexists. by eapply step_exhausted.
    + destruct (take (lt_call t) (sy_state y) (lt_key t)) as [st [r|]] eqn:Ht; eexists;
        [eapply step_hit|eapply step_miss]; eauto; by rewrite Hc.
  - destruct (start_or_join_reservation (sy_state y) (lt_key t) i) as [st joined] eqn:Hj.
    eexists. by eapply step_start.
  - destruct (vb_reserve_block "" (lt_key t) block_size (sy_inner y)) as [s out] eqn:Hv.
    eexists. by eapply step_fetch.
  - eexists. by eapply step_finish.
  - eexists. by eapply step_fail.
  - by destruct (Hr out).
Qed.

Definition none_dropped y : Prop := ∀ i t, sy_threads y !! i = Some t → lt_pc t ≠ Dropped.

Lemma lease_step_none_dropped y y' :
  none_dropped y → lease_step block_size false y y' → none_dropped y'.
Proof.
  intros Hd Hstep. destruct Hstep as [i key call Hi Hadm|i t y' Hi Hstep|s o Hc|i t Hc Hi Ha]; try done.
  - intros j x. simpl. intros [[<- <-]|[_ Hj]]%lookup_insert_Some; [|eauto]. simpl.
    destruct call; [by destruct (_ =? 1)%Z|done].
  - assert (∀ j x t', <[i := t']> (sy_threads y) !! j = Some x → lt_pc t' ≠ Dropped → lt_pc x ≠ Dropped) as Hins.
    { intros j x t' [[<- <-]|[_ Hj]]%lookup_insert_Some; [done|eauto]. }
    destruct Hstep as [| | |st joined|fresh s out|block st ws Hpc Hs|e st ws Hpc Hs|];
      intros j x; simpl; try (intros Hj; eapply Hins; [exact Hj|simpl; try done]).
    + by destruct joined.
    + by destruct out.
    + intros Hj. destruct (wake_pc _ _ _ _ _ _ _ Hi Hj) as [->|[[-> ->]|?]]; [done|done|eauto].
    + intros Hj. destruct (wake_pc _ _ _ _ _ _ _ Hi Hj) as [->|[[-> ->]|?]]; [done|done|eauto].
Qed.

(** One reservation in flight, and nobody waits in vain.  If no caller is dropped: at
    most one caller per channel is fetching a block from the inner store; a caller that
    waits is registered with that one and woken when it is done; and as long as a call
    has not returned, some call of its channel can take a step. *)
Theorem lease_single_flight s y :
  vb_wf s → rtc (lease_step block_size false) (lease_init s) y →
  (∀ i j t t', sy_threads y !! i = Some t → sy_threads y !! j = Some t' →
     owns (lt_pc t) = true → owns (lt_pc t') = true → lt_key t = lt_key t' → i = j) ∧
  (∀ i t, sy_threads y !! i = Some t → (∀ out, lt_pc t ≠ Returned out) →
     ∃ j t', sy_threads y !! j = Some t' ∧ lt_key t' = lt_key t ∧
       (∃ y', thread_step block_size y j t' y') ∧
       (lt_pc t = Waiting → owns (lt_pc t') = true ∧
          ∃ ws, ls_in_flight (sy_state y) !! lt_key t' = Some ws ∧ i ∈ ws)).
Proof.
  intros Hs Hreach. destruct (lease_reachable false s y Hs Hreach) as (_ & Hf & _).
  assert (sys_owned y ∧ none_dropped y) as [Ho Hd].
  { revert y Hreach Hf. intros y Hreach _. revert y Hreach. apply rtc_ind_r.
    - split; [by intros k ws Hk|by intros i t Hi].
    - intros y1 y2 _ Hstep [Ho Hd]. split; [by eapply lease_step_owned|by eapply lease_step_none_dropped]. }
  split; [exact (fi_unique _ _ Hf)|]. intros i t Hi Hnot.
  assert (lt_pc t = Waiting ∨ lt_pc t ≠ Waiting) as [Hw|Hw] by (destruct (lt_pc t); auto).
  - destruct (fi_waiting _ _ Hf i t Hi Hw) as (ws & Hws & Hin).
    destruct (Ho _ _ Hws) as (j & t' & Hj & Howns & Hkey). exists j, t'. split; [done|]. split; [done|].
    split; [|intros _; split; [done|]; exists ws; by rewrite Hkey].
    apply can_step; [done|..]; destruct (lt_pc t'); done.
  - exists i, t. split; [done|]. split; [done|]. split; [|done].
    apply can_step; eauto.
Qed.

(** ** Dropped owners *)

(** A reservation in flight that nobody owns, and no lease left. *)
Definition stuck y key : Prop :=
  is_Some (ls_in_flight (sy_state y) !! key) ∧ ls_leases (sy_state y) !! key = None ∧
  ∀ i t, sy_threads y !! i = Some t → lt_key t = key →
    owns (lt_pc t) = false ∧ lt_pc t ≠ AtDirect ∧ ∀ r, lt_pc t ≠ Returned (Ok r).

Lemma take_none call st key st' o :
  ls_leases st !! key = None → take call st key = (st', o) → st' = st ∧ o = None.
Proof.
  intros Hk. destruct call as [|after n]; simpl; [unfold take_cached|unfold take_cached_after];
    rewrite Hk; by intros [= <- <-].
Qed.

Lemma take_other call st key st' o k :
  k ≠ key → take call st key = (st', o) → ls_leases st' !! k = ls_leases st !! k.
Proof.
  intros Hne.
  assert (∀ c, ls_leases (put_cursor st key c) !! k = ls_leases st !! k) as Hput.
  { intros c. unfold put_cursor. simpl. destruct (exhausted c);
      [by rewrite lookup_delete_ne|by rewrite lookup_insert_ne]. }
  destruct call as [|after n]; simpl; [unfold take_cached|unfold take_cached_after];
    destruct (ls_leases st !! key) as [c|]; try (by intros [= <- <-]).
  - destruct (take_next c). intros [= <- <-]. apply Hput.
  - destruct (_ <=? _)%Z; [destruct (_ >=? _)%Z; [intros [= <- <-]; by apply lookup_delete_ne|]|];
      destruct (take_next _); intros [= <- <-]; apply Hput.
Qed.

Lemma stuck_thread_step y i t y' key :
  stuck y key → sy_threads y !! i = Some t → thread_step block_size y i t y' → stuck y' key.
Proof.
  intros (Hfl & Hle & Hth) Hi Hstep.
  assert (∀ t' j x, lt_key t' = lt_key t →
    (lt_key t = key → owns (lt_pc t') = false ∧ lt_pc t' ≠ AtDirect ∧ ∀ r, lt_pc t' ≠ Returned (Ok r)) →
    <[i := t']> (sy_threads y) !! j = Some x → lt_key x = key →
    owns (lt_pc x) = false ∧ lt_pc x ≠ AtDirect ∧ ∀ r, lt_pc x ≠ Returned (Ok r)) as Hins.
  { intros t' j x Hk Ht' [[<- <-]|[_ Hj]]%lookup_insert_Some Hx; [|by eapply Hth]. apply Ht'. congruence. }
  assert (∀ t' ws j x, lt_key t' = lt_key t → lt_key t ≠ key →
    wake ws (<[i := t']> (sy_threads y)) !! j = Some x → lt_key x = key →
    owns (lt_pc x) = false ∧ lt_pc x ≠ AtDirect ∧ ∀ r, lt_pc x ≠ Returned (Ok r)) as Hwake.
  { intros t' ws j x Hk Hne Hj Hx. destruct (wake_pc _ _ _ _ _ _ _ Hi Hj) as [->|[[-> ->]|Hj']];
      [done|congruence|by eapply Hth]. }
  assert (lt_key t = key → owns (lt_pc t) = false ∧ lt_pc t ≠ AtDirect) as Hme.
  { intros Hk. by destruct (Hth i t Hi Hk) as (? & ? & _). }
  destruct Hstep as [after Hpc Hc|st r Hpc Hc Ht|st Hpc Hc Ht|st joined Hpc Hs|fresh s out Hpc Hs
    |block st ws Hpc Hs|e st ws Hpc Hs|fresh s out Hpc Hs]; simpl.
  - split; [done|]. split; [done|]. intros j x. by apply Hins.
  - split; [simpl; by rewrite (take_in_flight _ _ _ _ _ Ht)|].
    destruct (decide (key = lt_key t)) as [->|Hne].
    + by destruct (take_none _ _ _ _ _ Hle Ht) as [_ ?].
    + split; [simpl; by rewrite (take_other _ _ _ _ _ _ Hne Ht)|]. intros j x. apply Hins; [done|congruence].
  - split; [simpl; by rewrite (take_in_flight _ _ _ _ _ Ht)|].
    split; [|intros j x; by apply Hins]. destruct (decide (key = lt_key t)) as [->|Hne].
    + by destruct (take_none _ _ _ _ _ Hle Ht) as [-> _].
    + simpl. by rewrite (take_other _ _ _ _ _ _ Hne Ht).
  - unfold start_or_join_reservation in Hs. destruct (decide (key = lt_key t)) as [->|Hne].
    + destruct Hfl as [ws Hws]. rewrite Hws in Hs. injection Hs as <- <-. simpl.
      split; [simpl; rewrite lookup_insert_eq; by eexists|]. split; [done|]. intros j x. by apply Hins.
    + destruct (ls_in_flight (sy_state y) !! lt_key t) as [ws|]; injection Hs as <- <-; simpl;
        (split; [simpl; by rewrite lookup_insert_ne|]; split; [done|]; intros j x; apply Hins; [done|congruence]).
  - split; [done|]. split; [done|]. intros j x. apply Hins; [done|]. intros Hk.
    destruct (Hme Hk) as [Hno _]. by rewrite Hpc in Hno.
  - injection Hs as <- <-. assert (lt_key t ≠ key) as Hne
      by (intros Hk; destruct (Hme Hk) as [Hno _]; by rewrite Hpc in Hno).
    split; [simpl; by rewrite lookup_delete_ne|]. split; [simpl; by rewrite lookup_insert_ne|].
    intros j x. by apply Hwake.
  - injection Hs as <- <-. assert (lt_key t ≠ key) as Hne
      by (intros Hk; destruct (Hme Hk) as [Hno _]; by rewrite Hpc in Hno).
    split; [simpl; by rewrite lookup_delete_ne|]. split; [done|]. intros j x. by apply Hwake.
  - split; [done|]. split; [done|]. intros j x. apply Hins; [done|]. intros Hk.
    by destruct (Hme Hk) as [_ Hno].
Qed.

Lemma stuck_step cancel y y' key :
  (2 ≤ block_size)%Z → stuck y key → lease_step block_size cancel y y' → stuck y' key.
Proof.
  intros H2 Hst Hstep. destruct Hstep as [i k call Hi Hadm|i t y' Hi Hstep|s o Hc|i t Hc Hi Ha].
  - destruct Hst as (Hfl & Hle & Hth). split; [done|]. split; [done|]. simpl.
    intros j x [[<- <-]|[_ Hj]]%lookup_insert_Some Hx; [|by eapply Hth]. simpl.
    destruct call; [|done]. by destruct (Z.eqb_spec block_size 1); [lia|].
  - by eapply stuck_thread_step.
  - done.
  - destruct Hst as (Hfl & Hle & Hth). split; [done|]. split; [done|]. simpl.
    intros j x [[<- <-]|[_ Hj]]%lookup_insert_Some Hx; [done|by eapply Hth].
Qed.

End invariants.
