(* ===== verification/LeasedMemory.v ===== *)
(** * The in-memory store behind the leases

    [MemoryVersionStore] honours the contract the leased store is verified against, so its
    guarantees hold of the two together; and concrete runs of the combination. *)

From Stdlib Require Import ZArith Lia.
From stdpp Require Import base gmap strings list pretty relations.
From S2P Require Import Prelude Errors Messages VersionedMessages VersionTypes VersionStore.
From S2P Require Import VersionChains VersionStoreInv VersionStoreSteps VersionStoreThms.
From S2P Require Import LeasedStore LeasedThms.

(** Operations that reach the inner store directly; reservations go through the leases. *)
Definition bypasses (op : StoreOp) : bool :=
  match op with OpReserve _ _ _ | OpReserveBlock _ _ _ _ => false | _ => true end.

Section backend.
Context `{SonicRs}.

#[export] Instance memory_backend : VersionBackend MemoryVersionStore := {|
  vb_wf := wf_store;
  vb_next s key := next_serial s (channel_key key.1 key.2);
  vb_reserve_block fresh key n s := reserve_delivery_positions fresh key.1 key.2 n s;
  vb_reserve_one fresh key s := reserve_delivery_position fresh key.1 key.2 s;
  vb_commit s s' o :=
    ∃ op, bypasses op = true ∧ op_typed op ∧ s' = exec_op op s ∧
      match issued op s with
      | Some (key, (start, _)) =>
          ∃ app_id channel, key = channel_key app_id channel ∧ o = Some ((app_id, channel), start)
      | None => o = None
      end;
|}.

Lemma issued_bypass op s key start n :
  bypasses op = true → issued op s = Some (key, (start, n)) → n = 1%Z.
Proof.
  destruct op as [f a c|f a c|f a c m|f now r|f now req|now req|b m]; simpl; try done; intros _.
  - destruct (commit_create f now req s).2 as [[]|]; naive_solver.
  - destruct (compare_and_apply now req s).2 as [[]|]; naive_solver.
Qed.

#[export] Instance memory_backend_laws : VersionBackendLaws MemoryVersionStore.
Proof.
  split; simpl.
  - intros s key Hs. unfold next_serial. destruct (s !! _) as [ch|] eqn:Hk; [|lia].
    pose proof (wf_next_u64 _ _ (Hs _ _ Hk)). u64_lia.
  - intros fresh key n s s' out Hs Hn Heq.
    assert (s' = exec_op (OpReserveBlock fresh key.1 key.2 n) s) as -> by (unfold exec_op; by rewrite Heq).
    split; [by apply wf_exec_op|]. split; [intros k; by apply next_serial_mono|]. intros block ->.
    destruct (issued_exec (OpReserveBlock fresh key.1 key.2 n) s (channel_key key.1 key.2)
      (blk_start_delivery_serial block) (blk_len block)) as (? & _ & ?); [done|done| |done].
    unfold issued. by rewrite Heq.
  - intros fresh key s s' out Hs Heq.
    assert (s' = exec_op (OpReserve fresh key.1 key.2) s) as -> by (unfold exec_op; by rewrite Heq).
    split; [by apply wf_exec_op|]. split; [intros k; by apply next_serial_mono|]. intros r ->.
    destruct (issued_exec (OpReserve fresh key.1 key.2) s (channel_key key.1 key.2)
      (res_delivery_serial r) 1) as (? & _ & ?); [done|done| |done].
    unfold issued. by rewrite Heq.
  - intros s s' o Hs (op & Hby & Hop & -> & Ho).
    split; [by apply wf_exec_op|]. split; [intros k; by apply next_serial_mono|].
    intros key p ->. destruct (issued op s) as [[k [start n]]|] eqn:Hi; [|done].
    destruct Ho as (a & c & -> & [= -> ->]).
    pose proof (issued_bypass _ _ _ _ _ Hby Hi) as ->.
    by destruct (issued_exec op s _ _ _ Hs Hop Hi) as (? & _ & ?).
Qed.
End backend.

(** ** Samples *)

Section samples.
#[local] Existing Instance sample_sonic.

Definition room : LeaseKey := ("app", "room").

Definition lease_thread_at (pc : LeasePc) : LeaseThread :=
  {| lt_key := room; lt_call := CallReserve; lt_pc := pc |}.

(** The block a first caller fetches, and the store after it. *)
Definition room_block : VersionWriteReservationBlock :=
  {| blk_stream_id := "stream-1"; blk_start_delivery_serial := 1; blk_len := 2 |}.

Definition after_block : MemoryVersionStore :=
  (reserve_delivery_positions "stream-1" "app" "room" 2 ∅).1.

(** A caller that misses, owns the reservation, fetches a block of two and takes its first
    position. *)
Definition lease_done : LeaseSystem := {|
  sy_inner := after_block;
  sy_state := {| ls_leases := {[ room := {| lc_stream_id := "stream-1"; lc_next_delivery_serial := 2;
                                            lc_end_exclusive := 3 |} ]};
                 ls_in_flight := ∅ |};
  sy_threads := {[ 0 := lease_thread_at (Returned (Ok {| res_stream_id := "stream-1";
                                                         res_delivery_serial := 1 |})) ]};
  sy_issued := [(room, 1%Z)];
|}.

Lemma lease_run_done cancel : rtc (lease_step 2 cancel) (lease_init (∅ : MemoryVersionStore)) lease_done.
Proof.
  set (y0 := lease_init (∅ : MemoryVersionStore)).
  set (y1 := with_thread y0 0 (lease_thread_at AtLoop)).
  set (y2 := with_lease y1 empty_leases (<[0 := lease_thread_at AtStart]> (sy_threads y1))).
  set (y3 := with_lease y2 {| ls_leases := ∅; ls_in_flight := {[ room := [] ]} |}
               (<[0 := lease_thread_at Owner]> (sy_threads y2))).
  set (y4 := with_inner y3 after_block (<[0 := lease_thread_at (Finishing room_block)]> (sy_threads y3)) []).
  set (y5 := with_lease y4 {| ls_leases := {[ room := from_block room_block ]}; ls_in_flight := ∅ |}
               (<[0 := lease_thread_at AtLoop]> (sy_threads y4))).
  eapply rtc_l; [by apply (lease_spawn 2 cancel y0 0 room CallReserve)|].
  eapply rtc_l; [apply (lease_thread 2 cancel y1 0 (lease_thread_at AtLoop) y2); [done|];
    by apply (step_miss 2 y1 0 (lease_thread_at AtLoop) empty_leases)|].
  eapply rtc_l; [apply (lease_thread 2 cancel y2 0 (lease_thread_at AtStart) y3); [done|];
    by apply (step_start 2 y2 0 (lease_thread_at AtStart) {| ls_leases := ∅; ls_in_flight := {[ room := [] ]} |} false)|].
  eapply rtc_l; [apply (lease_thread 2 cancel y3 0 (lease_thread_at Owner) y4); [done|];
    by apply (step_fetch 2 y3 0 (lease_thread_at Owner) "stream-1" after_block (Ok room_block))|].
  eapply rtc_l; [apply (lease_thread 2 cancel y4 0 (lease_thread_at (Finishing room_block)) y5); [done|];
    by apply (step_finish 2 y4 0 (lease_thread_at (Finishing room_block)) room_block
      {| ls_leases := {[ room := from_block room_block ]}; ls_in_flight := ∅ |} [])|].
  apply rtc_once. apply (lease_thread 2 cancel y5 0 (lease_thread_at AtLoop)); [done|].
  by apply (step_hit 2 y5 0 (lease_thread_at AtLoop) (sy_state lease_done)
    {| res_stream_id := "stream-1"; res_delivery_serial := 1 |}).
Qed.

Lemma lease_done_unsaturated : unsaturated (sy_inner lease_done).
Proof.
  intros k. simpl. unfold next_serial, after_block. simpl.
  destruct (decide (channel_key k.1 k.2 = channel_key "app" "room")) as [->|Hne].
  - rewrite lookup_insert_eq. vm_compute. reflexivity.
  - rewrite lookup_insert_ne by done. rewrite lookup_empty. u64_lia.
Qed.

Lemma leased_positions_unique_witness :
  rtc (lease_step 2 true) (lease_init (∅ : MemoryVersionStore)) lease_done ∧ NoDup (sy_issued lease_done).
Proof.
  split; [exact (lease_run_done true)|].
  destruct (leased_positions_unique 2 ltac:(u64_lia) true ∅ lease_done (map_Forall_empty _)
    (lease_run_done true) lease_done_unsaturated) as [Hnd _].
  exact Hnd.
Defined.

(** One caller fetches while another waits. *)
Definition lease_waiting : LeaseSystem := {|
  sy_inner := (∅ : MemoryVersionStore);
  sy_state := {| ls_leases := ∅; ls_in_flight := {[ room := [1] ]} |};
  sy_threads := {[ 0 := lease_thread_at Owner; 1 := lease_thread_at Waiting ]};
  sy_issued := [];
|}.

Lemma lease_run_waiting : rtc (lease_step 2 false) (lease_init (∅ : MemoryVersionStore)) lease_waiting.
Proof.
  set (y0 := lease_init (∅ : MemoryVersionStore)).
  set (y1 := with_thread y0 0 (lease_thread_at AtLoop)).
  set (y2 := with_lease y1 empty_leases (<[0 := lease_thread_at AtStart]> (sy_threads y1))).
  set (y3 := with_lease y2 {| ls_leases := ∅; ls_in_flight := {[ room := [] ]} |}
               (<[0 := lease_thread_at Owner]> (sy_threads y2))).
  set (y4 := with_thread y3 1 (lease_thread_at AtLoop)).
  set (y5 := with_lease y4 (sy_state y3) (<[1 := lease_thread_at AtStart]> (sy_threads y4))).
  eapply rtc_l; [by apply (lease_spawn 2 false y0 0 room CallReserve)|].
  eapply rtc_l; [apply (lease_thread 2 false y1 0 (lease_thread_at AtLoop) y2); [done|];
    by apply (step_miss 2 y1 0 (lease_thread_at AtLoop) empty_leases)|].
  eapply rtc_l; [apply (lease_thread 2 false y2 0 (lease_thread_at AtStart) y3); [done|];
    by apply (step_start 2 y2 0 (lease_thread_at AtStart) {| ls_leases := ∅; ls_in_flight := {[ room := [] ]} |} false)|].
  eapply rtc_l; [by apply (lease_spawn 2 false y3 1 room CallReserve)|].
  eapply rtc_l; [apply (lease_thread 2 false y4 1 (lease_thread_at AtLoop) y5); [done|];
    by apply (step_miss 2 y4 1 (lease_thread_at AtLoop) (sy_state y3))|].
  apply rtc_once. apply (lease_thread 2 false y5 1 (lease_thread_at AtStart)); [done|].
  by apply (step_start 2 y5 1 (lease_thread_at AtStart) (sy_state lease_waiting) true).
Qed.

Lemma lease_single_flight_witness :
  rtc (lease_step 2 false) (lease_init (∅ : MemoryVersionStore)) lease_waiting ∧
  ∃ j t', sy_threads lease_waiting !! j = Some t' ∧ owns (lt_pc t') = true ∧
    ∃ y', thread_step 2 lease_waiting j t' y'.
Proof.
  split; [exact lease_run_waiting|].
  destruct (lease_single_flight 2 ltac:(u64_lia) ∅ lease_waiting (map_Forall_empty _) lease_run_waiting)
    as [_ Hprog].
  destruct (Hprog 1 (lease_thread_at Waiting) eq_refl ltac:(discriminate))
    as (j & t' & Hj & _ & Hstep & Hown).
  exists j, t'. split; [exact Hj|]. split; [exact (proj1 (Hown eq_refl))|exact Hstep].
Defined.

End samples.
