(* ===== verification/AnnotationTypes.v ===== *)
(** * Annotations: events, types, summaries and requests

    [crates/sockudo-core/src/annotations/types.rs] without the projection loop
    ([Projection.v]): the annotation events, the grammar of annotation types, the
    validators, the summaries and the requests of the annotation store. *)

From Stdlib Require Import Ascii ZArith Lia.
From stdpp Require Import base gmap strings list pretty.
From S2P Require Import Prelude Errors Messages VersionedMessages.

(** ** Strings of the standard library *)

(** [str::split_once] with a character: around its first occurrence. *)
Fixpoint split_once (c : ascii) (s : string) : option (string * string) :=
  match s with
  | EmptyString => None
  | String a s =>
      if bool_decide (a = c) then Some (EmptyString, s)
      else (λ lr, (String a lr.1, lr.2)) <$> split_once c s
  end.

(** [str::rsplit_once] with a non-empty string: around its last occurrence. *)
Fixpoint rsplit_once (p s : string) : option (string * string) :=
  match s with
  | EmptyString => None
  | String a s' =>
      match rsplit_once p s' with
      | Some (l, r) => Some (String a l, r)
      | None => (λ r, (EmptyString, r)) <$> strip_prefix p s
      end
  end.

Definition u16_max : Z := 65535.

(** The digits of an unsigned number, refusing what does not fit. *)
Fixpoint parse_digits (max acc : Z) (s : string) : option Z :=
  match s with
  | EmptyString => Some acc
  | String a s =>
      if byte_in 48 57 a then
        let acc := (acc * 10 + (Z.of_N (N_of_ascii a) - 48))%Z in
        if (acc <=? max)%Z then parse_digits max acc s else None
      else None
  end.

(** [str::parse::<u16>]: an optional plus sign and at least one digit. *)
Definition parse_u16 (s : string) : option Z :=
  let digits := default s (strip_prefix "+" s) in
  if str_is_empty digits then None else parse_digits u16_max 0 digits.

(** ** Validators *)

Definition MAX_ANNOTATION_TYPE_LENGTH : Z := 256.

Definition validate_identifier (label value : string) (max_len : Z) : result Error unit :=
  ensure? negb (str_is_empty (trim value))
    else (InvalidMessageFormat (label +:+ " must not be empty")) in
  ensure? negb (existsb char_is_whitespace (chars value))
    else (InvalidMessageFormat (label +:+ " must not contain whitespace")) in
  ensure? negb (str_len value >? max_len)%Z
    else (InvalidMessageFormat (label +:+ " must be at most " +:+ pretty max_len +:+ " bytes")) in
  Ok tt.

Definition validate_required_text (label : string) (value : option string) : result Error unit :=
  match value with
  | Some v =>
      if str_is_empty (trim v)
      then Err (InvalidMessageFormat (label +:+ " is required for this annotation type"))
      else Ok tt
  | None => Err (InvalidMessageFormat (label +:+ " is required for this annotation type"))
  end.

(** An [AnnotationId], an [AnnotationSerial] and an [AnnotationType] wrap a string that
    passed these checks. *)
Definition annotation_id_new (value : string) : result Error string :=
  let? _ := validate_identifier "annotation id" value MAX_VERSIONED_SERIAL_LENGTH in Ok value.

Definition annotation_serial_new (value : string) : result Error string :=
  let? _ := validate_identifier "annotation serial" value MAX_VERSIONED_SERIAL_LENGTH in Ok value.

(** ** Annotation types *)

Inductive AnnotationSummarizer : Type :=
| Total
| Flag
| Distinct
| Unique
| Multiple.

#[export] Instance AnnotationSummarizer_eq_dec : EqDecision AnnotationSummarizer.
Proof. solve_decision. Defined.

Definition summarizer_as_str (s : AnnotationSummarizer) : string :=
  match s with
  | Total => "total"
  | Flag => "flag"
  | Distinct => "distinct"
  | Unique => "unique"
  | Multiple => "multiple"
  end.

Record ParsedAnnotationType := {
  pt_namespace : string;
  pt_summarizer : AnnotationSummarizer;
  pt_version : Z;
}.

Definition summarizer_of (s : string) : result Error AnnotationSummarizer :=
  if bool_decide (s = "total") then Ok Total
  else if bool_decide (s = "flag") then Ok Flag
  else if bool_decide (s = "distinct") then Ok Distinct
  else if bool_decide (s = "unique") then Ok Unique
  else if bool_decide (s = "multiple") then Ok Multiple
  else Err (InvalidMessageFormat ("unsupported annotation summarizer: " +:+ s)).

Definition type_shape_error : Error :=
  InvalidMessageFormat "annotation type must use namespace:summarizer.version".

Definition parse_annotation_type (value : string) : result Error ParsedAnnotationType :=
  let? _ := validate_identifier "annotation type" value MAX_ANNOTATION_TYPE_LENGTH in
  let? nr := ok_or (split_once ":" value) type_shape_error in
  let? _ := validate_identifier "annotation namespace" nr.1 MAX_ANNOTATION_TYPE_LENGTH in
  let? sv := ok_or (rsplit_once ".v" nr.2) type_shape_error in
  let? summarizer := summarizer_of sv.1 in
  let? version := ok_or (parse_u16 sv.2)
    (InvalidMessageFormat ("invalid annotation summarizer version: " +:+ sv.2)) in
  ensure? (version =? 1)%Z
    else (InvalidMessageFormat ("unsupported annotation summarizer version: " +:+ pretty version)) in
  Ok {| pt_namespace := nr.1; pt_summarizer := summarizer; pt_version := version |}.

Definition annotation_type_new (value : string) : result Error string :=
  let? _ := parse_annotation_type value in Ok value.

(** [AnnotationType::namespace], [summarizer] and [version]. *)
Definition type_namespace (t : string) : result Error string :=
  let? p := parse_annotation_type t in Ok (pt_namespace p).
Definition type_summarizer (t : string) : result Error AnnotationSummarizer :=
  let? p := parse_annotation_type t in Ok (pt_summarizer p).
Definition type_version (t : string) : result Error Z :=
  let? p := parse_annotation_type t in Ok (pt_version p).

(** ** Events *)

Inductive AnnotationAction : Type :=
| AnnCreate
| AnnDelete.

#[export] Instance AnnotationAction_eq_dec : EqDecision AnnotationAction.
Proof. solve_decision. Defined.

Definition annotation_action_as_str (a : AnnotationAction) : string :=
  match a with
  | AnnCreate => "annotation.create"
  | AnnDelete => "annotation.delete"
  end.

Record Annotation := {
  an_id : string;
  an_action : AnnotationAction;
  an_serial : string;
  an_message_serial : string;
  an_annotation_type : string;
  an_name : option string;
  an_client_id : option string;
  an_count : option Z;
  an_data : option Json;
  an_encoding : option string;
  an_timestamp : Z;
}.

Implicit Types (e : Annotation).

Definition needs_name (s : AnnotationSummarizer) : bool :=
  match s with Distinct | Unique | Multiple => true | Total | Flag => false end.

Definition needs_client_id (s : AnnotationSummarizer) : bool :=
  match s with Flag | Distinct | Unique => true | Total | Multiple => false end.

Definition annotation_validate e : result Error unit :=
  let? _ := validate_identifier "annotation id" (an_id e) MAX_VERSIONED_SERIAL_LENGTH in
  let? _ := validate_identifier "annotation serial" (an_serial e) MAX_VERSIONED_SERIAL_LENGTH in
  let? summarizer := type_summarizer (an_annotation_type e) in
  let? _ := (if needs_name summarizer
             then validate_required_text "annotation name" (an_name e) else Ok tt) in
  let? _ := (if needs_client_id summarizer
             then validate_required_text "annotation client_id" (an_client_id e) else Ok tt) in
  ensure? negb (bool_decide (an_count e = Some 0%Z))
    else (InvalidMessageFormat "annotation count must be greater than 0") in
  Ok tt.

Definition effective_count e : Z := default 1%Z (an_count e).

Definition validate_event_key e (message_serial annotation_type : string) : result Error unit :=
  let? _ := annotation_validate e in
  ensure? bool_decide (an_message_serial e = message_serial)
    else (InvalidMessageFormat ("annotation event messageSerial " +:+ an_message_serial e
            +:+ " does not match projection messageSerial " +:+ message_serial)) in
  ensure? bool_decide (an_annotation_type e = annotation_type)
    else (InvalidMessageFormat ("annotation event type " +:+ an_annotation_type e
            +:+ " does not match projection type " +:+ annotation_type)) in
  Ok tt.

(** ** Summaries *)

(** [TotalAnnotationSummary] is its one field, in [SummaryTotal]. *)
Record IdentifiedAnnotationSummary := {
  is_total : Z;
  is_client_ids : list string;
  is_clipped : bool;
}.

Record MultipleAnnotationSummary := {
  ms_total : Z;
  ms_client_counts : gmap string Z;
  ms_total_unidentified : Z;
  ms_clipped : bool;
  ms_total_client_ids : Z;
}.

Inductive AnnotationSummary : Type :=
| SummaryTotal (total : Z)
| SummaryFlag (summary : IdentifiedAnnotationSummary)
| SummaryDistinct (names : gmap string IdentifiedAnnotationSummary)
| SummaryUnique (names : gmap string IdentifiedAnnotationSummary)
| SummaryMultiple (names : gmap string MultipleAnnotationSummary).

#[export] Instance IdentifiedAnnotationSummary_eq_dec : EqDecision IdentifiedAnnotationSummary.
Proof. solve_decision. Defined.
#[export] Instance MultipleAnnotationSummary_eq_dec : EqDecision MultipleAnnotationSummary.
Proof. solve_decision. Defined.
#[export] Instance AnnotationSummary_eq_dec : EqDecision AnnotationSummary.
Proof. solve_decision. Defined.

(** [AnnotationProjectionOptions], its default no limit. *)
Record AnnotationProjectionOptions := {
  client_id_limit : option Z;
}.

Definition default_options : AnnotationProjectionOptions := {| client_id_limit := None |}.

Record AnnotationProjectionKey := {
  apk_channel_id : string;
  apk_message_serial : string;
  apk_annotation_type : string;
}.

Record AnnotationProjection := {
  ap_key : AnnotationProjectionKey;
  ap_summary : AnnotationSummary;
  ap_last_serial : option string;
  ap_applied_events : Z;
}.

(** ** Stored records and requests *)

Record StoredAnnotationEvent := {
  se_app_id : string;
  se_channel_id : string;
  se_annotation : Annotation;
  se_stored_at_ms : Z;
}.

Definition se_message_serial (r : StoredAnnotationEvent) : string := an_message_serial (se_annotation r).
Definition se_annotation_serial (r : StoredAnnotationEvent) : string := an_serial (se_annotation r).
Definition se_annotation_type (r : StoredAnnotationEvent) : string := an_annotation_type (se_annotation r).

(** The two texts every request and record carries. *)
Definition validate_scope (app_id channel_id : string) : result Error unit :=
  let? _ := validate_required_text "annotation app_id" (Some app_id) in
  validate_required_text "annotation channel_id" (Some channel_id).

Definition stored_event_validate (r : StoredAnnotationEvent) : result Error unit :=
  let? _ := validate_scope (se_app_id r) (se_channel_id r) in
  annotation_validate (se_annotation r).

(** [AnnotationProjectionRequest]; [AnnotationEventsRequest] has the same fields and the
    same validator. *)
Record AnnotationProjectionRequest := {
  apr_app_id : string;
  apr_channel_id : string;
  apr_message_serial : string;
  apr_annotation_type : string;
}.

Definition projection_request_validate (req : AnnotationProjectionRequest) : result Error unit :=
  let? _ := validate_scope (apr_app_id req) (apr_channel_id req) in
  let? _ := type_summarizer (apr_annotation_type req) in
  Ok tt.

Record RawAnnotationReplayRequest := {
  rar_app_id : string;
  rar_channel_id : string;
  rar_message_serial : option string;
  rar_after_annotation_serial : option string;
  rar_limit : Z;
}.

Definition raw_replay_validate (req : RawAnnotationReplayRequest) : result Error unit :=
  let? _ := validate_scope (rar_app_id req) (rar_channel_id req) in
  ensure? negb (rar_limit req =? 0)%Z
    else (InvalidMessageFormat "annotation replay limit must be greater than 0") in
  Ok tt.

Record AnnotationEventLookupRequest := {
  ael_app_id : string;
  ael_channel_id : string;
  ael_annotation_serial : string;
}.

Definition event_lookup_validate (req : AnnotationEventLookupRequest) : result Error unit :=
  validate_scope (ael_app_id req) (ael_channel_id req).

Record AnnotationProjectionsForChannelRequest := {
  apc_app_id : string;
  apc_channel_id : string;
}.

Definition channel_projections_validate (req : AnnotationProjectionsForChannelRequest)
    : result Error unit :=
  validate_scope (apc_app_id req) (apc_channel_id req).

Record StoredAnnotationProjection := {
  sp_app_id : string;
  sp_channel_id : string;
  sp_message_serial : string;
  sp_annotation_type : string;
  sp_summary : AnnotationSummary;
  sp_last_annotation_serial : option string;
  sp_updated_at_ms : Z;
}.

#[export] Instance StoredAnnotationProjection_eq_dec : EqDecision StoredAnnotationProjection.
Proof. solve_decision. Defined.

Definition from_projection (now : Z) (app_id : string) (p : AnnotationProjection)
    : StoredAnnotationProjection := {|
  sp_app_id := app_id;
  sp_channel_id := apk_channel_id (ap_key p);
  sp_message_serial := apk_message_serial (ap_key p);
  sp_annotation_type := apk_annotation_type (ap_key p);
  sp_summary := ap_summary p;
  sp_last_annotation_serial := ap_last_serial p;
  sp_updated_at_ms := now;
|}.

Definition projection_key_of (p : StoredAnnotationProjection) : AnnotationProjectionRequest := {|
  apr_app_id := sp_app_id p;
  apr_channel_id := sp_channel_id p;
  apr_message_serial := sp_message_serial p;
  apr_annotation_type := sp_annotation_type p;
|}.

Record AnnotationAppendOutcome := {
  ao_projection : StoredAnnotationProjection;
  ao_canonical_serial : string;
  ao_inserted : bool;
}.

(** ** The grammar of annotation types *)

Lemma split_once_Some c s l r :
  split_once c s = Some (l, r) → s = (l +:+ String c r)%string.
Proof.
  revert l. induction s as [|a s IH]; intros l; simpl; [done|].
  case_bool_decide; subst; [by intros [= <- <-]|].
  destruct (split_once c s) as [[l' r']|]; simpl; [|done]. intros [= <- <-].
  by rewrite (IH l' eq_refl).
Qed.

Lemma rsplit_once_Some p s l r :
  rsplit_once p s = Some (l, r) → s = (l +:+ p +:+ r)%string.
Proof.
  revert l. induction s as [|a s IH]; intros l; simpl; [done|].
  destruct (rsplit_once p s) as [[l' r']|].
  - intros [= <- <-]. by rewrite (IH l' eq_refl).
  - destruct (strip_prefix p (String a s)) as [r'|] eqn:Hp; simpl; [|done]. intros [= <- <-].
    by apply strip_prefix_Some in Hp.
Qed.

Lemma summarizer_of_Ok s k : summarizer_of s = Ok k → s = summarizer_as_str k.
Proof. unfold summarizer_of. repeat case_bool_decide; intros [= <-]; done. Qed.

(** An accepted type is its namespace, a colon, its summarizer and a spelling of 1. *)
Lemma parse_annotation_type_Ok t p :
  parse_annotation_type t = Ok p →
  ∃ v, t = (pt_namespace p +:+ ":" +:+ summarizer_as_str (pt_summarizer p) +:+ ".v" +:+ v)%string ∧
    parse_u16 v = Some 1%Z ∧ pt_version p = 1%Z.
Proof.
  unfold parse_annotation_type. intros Ht.
  apply rbind_Ok_inv in Ht as (? & _ & Ht).
  apply rbind_Ok_inv in Ht as ([n r] & Hs & Ht).
  apply rbind_Ok_inv in Ht as (? & _ & Ht).
  apply rbind_Ok_inv in Ht as ([k v] & Hr & Ht).
  apply rbind_Ok_inv in Ht as (s & Hk & Ht).
  apply rbind_Ok_inv in Ht as (ver & Hv & Ht).
  destruct (Z.eqb_spec ver 1) as [->|]; [|done]. simplify_eq/=.
  destruct (split_once ":" t) as [[n' r']|] eqn:Hs'; simplify_eq/=.
  destruct (rsplit_once ".v" r) as [[k' v']|] eqn:Hr'; simplify_eq/=.
  destruct (parse_u16 v) as [u|] eqn:Hv'; simplify_eq/=.
  apply split_once_Some in Hs'. apply rsplit_once_Some in Hr'. apply summarizer_of_Ok in Hk.
  exists v. split; [|done]. by subst.
Qed.
