(* ===== verification/Projection.v ===== *)
(** * Annotation summarizers and projections

    The engines of [crates/sockudo-core/src/annotation_summarizers.rs], which fold
    annotation events into a summary, and the loop of [AnnotationProjection::rebuild] in
    [crates/sockudo-core/src/annotations/types.rs], which sorts the events of one message
    and type, drops repeated serials and tombstoned creates, and runs an engine on the
    rest.  A [BTreeSet] or [HashSet] is a [gset]. *)

From Stdlib Require Import ZArith Lia.
From stdpp Require Import base gmap strings list pretty.
From S2P Require Import Prelude Errors AnnotationTypes.

Implicit Types (e : Annotation) (options : AnnotationProjectionOptions).
Implicit Types (names : gmap string (gset string)) (clients : gset string).

(** The iterator of a [BTreeSet]. *)
Definition bset_list (X : gset string) : list string := stable_sort key_le (elements X).

Definition set_len (X : gset string) : Z := Z.of_nat (size X).

(** [limit.is_some_and(|limit| len > limit)]. *)
Definition over_limit options (len : Z) : bool :=
  match client_id_limit options with
  | Some limit => (len >? limit)%Z
  | None => false
  end.

Definition take_limit {A} options (l : list A) : list A :=
  match client_id_limit options with
  | Some limit => firstn (Z.to_nat limit) l
  | None => l
  end.

Definition identified_summary clients options : IdentifiedAnnotationSummary := {|
  is_total := set_len clients;
  is_client_ids := take_limit options (bset_list clients);
  is_clipped := over_limit options (set_len clients);
|}.

Definition remove_client_from_name names (name client_id : string) : gmap string (gset string) :=
  match names !! name with
  | Some clients =>
      let clients := clients ∖ {[client_id]} in
      if decide (clients = ∅) then delete name names else <[name := clients]> names
  | None => names
  end.

(** [names.entry(name).or_default().insert(client_id)]. *)
Definition add_client names (name client_id : string) : gmap string (gset string) :=
  <[name := {[client_id]} ∪ default ∅ (names !! name)]> names.

Definition required_name e : result Error string :=
  let? _ := validate_required_text "annotation name" (an_name e) in
  Ok (default EmptyString (an_name e)).

Definition required_client_id e : result Error string :=
  let? _ := validate_required_text "annotation client_id" (an_client_id e) in
  Ok (default EmptyString (an_client_id e)).

(** ** The engines *)

Definition total_apply (total : Z) e : result Error Z :=
  Ok (match an_action e with
      | AnnCreate => u64_saturating_add total 1
      | AnnDelete => u64_saturating_sub total 1
      end).

Definition flag_apply clients e : result Error (gset string) :=
  let? client_id := required_client_id e in
  Ok (match an_action e with
      | AnnCreate => {[client_id]} ∪ clients
      | AnnDelete => clients ∖ {[client_id]}
      end).

Definition distinct_apply names e : result Error (gmap string (gset string)) :=
  let? name := required_name e in
  let? client_id := required_client_id e in
  Ok (match an_action e with
      | AnnCreate => add_client names name client_id
      | AnnDelete => remove_client_from_name names name client_id
      end).

Record UniqueSummarizer := {
  us_names : gmap string (gset string);
  us_client_names : gmap string string;
}.

Definition unique_apply (u : UniqueSummarizer) e : result Error UniqueSummarizer :=
  let? name := required_name e in
  let? client_id := required_client_id e in
  Ok (match an_action e with
      | AnnCreate =>
          let names :=
            match us_client_names u !! client_id with
            | Some previous_name =>
                if bool_decide (previous_name = name) then us_names u
                else remove_client_from_name (us_names u) previous_name client_id
            | None => us_names u
            end in
          {| us_names := add_client names name client_id;
             us_client_names := <[client_id := name]> (us_client_names u) |}
      | AnnDelete =>
          match us_client_names u !! client_id with
          | Some active_name =>
              {| us_names := remove_client_from_name (us_names u) active_name client_id;
                 us_client_names := delete client_id (us_client_names u) |}
          | None => u
          end
      end).

Record MultipleBucketState := {
  mb_client_counts : gmap string Z;
  mb_total_unidentified : Z;
}.

Definition empty_bucket : MultipleBucketState :=
  {| mb_client_counts := ∅; mb_total_unidentified := 0 |}.

Definition bucket_apply (bucket : MultipleBucketState) e : result Error MultipleBucketState :=
  match an_action e, an_client_id e with
  | AnnCreate, Some client_id =>
      let? _ := validate_required_text "annotation client_id" (Some client_id) in
      let current := default 0%Z (mb_client_counts bucket !! client_id) in
      Ok {| mb_client_counts :=
              <[client_id := u64_saturating_add current (effective_count e)]>
                (mb_client_counts bucket);
            mb_total_unidentified := mb_total_unidentified bucket |}
  | AnnCreate, None =>
      Ok {| mb_client_counts := mb_client_counts bucket;
            mb_total_unidentified :=
              u64_saturating_add (mb_total_unidentified bucket) (effective_count e) |}
  | AnnDelete, Some client_id =>
      Ok {| mb_client_counts := delete client_id (mb_client_counts bucket);
            mb_total_unidentified := mb_total_unidentified bucket |}
  | AnnDelete, None => Ok bucket
  end.

Definition multiple_apply (names : gmap string MultipleBucketState) e
    : result Error (gmap string MultipleBucketState) :=
  let? name := required_name e in
  let? bucket := bucket_apply (default empty_bucket (names !! name)) e in
  Ok (<[name := bucket]> names).

(** [Iterator::sum::<u64>], which wraps as [+] does. *)
Definition u64_sum (l : list Z) : Z := foldl (λ acc x, u64_wrap (acc + x)) 0%Z l.

Definition multiple_summary (bucket : MultipleBucketState) options : MultipleAnnotationSummary :=
  let counts := mb_client_counts bucket in
  let len := Z.of_nat (size counts) in
  {| ms_total := u64_saturating_add (u64_sum (btree_values counts)) (mb_total_unidentified bucket);
     ms_client_counts := list_to_map (take_limit options (btree_list counts));
     ms_total_unidentified := mb_total_unidentified bucket;
     ms_clipped := over_limit options len;
     ms_total_client_ids := len |}.

(** [Box<dyn AnnotationSummarizerEngine>]. *)
Inductive Engine : Type :=
| EngineTotal (total : Z)
| EngineFlag (clients : gset string) (options : AnnotationProjectionOptions)
| EngineDistinct (names : gmap string (gset string)) (options : AnnotationProjectionOptions)
| EngineUnique (state : UniqueSummarizer) (options : AnnotationProjectionOptions)
| EngineMultiple (names : gmap string MultipleBucketState) (options : AnnotationProjectionOptions).

Definition new_engine (summarizer : AnnotationSummarizer) options : Engine :=
  match summarizer with
  | Total => EngineTotal 0
  | Flag => EngineFlag ∅ options
  | Distinct => EngineDistinct ∅ options
  | Unique => EngineUnique {| us_names := ∅; us_client_names := ∅ |} options
  | Multiple => EngineMultiple ∅ options
  end.

Definition engine_apply (engine : Engine) e : result Error Engine :=
  match engine with
  | EngineTotal total => rmap EngineTotal (total_apply total e)
  | EngineFlag clients options => rmap (λ c, EngineFlag c options) (flag_apply clients e)
  | EngineDistinct names options => rmap (λ n, EngineDistinct n options) (distinct_apply names e)
  | EngineUnique u options => rmap (λ u, EngineUnique u options) (unique_apply u e)
  | EngineMultiple names options => rmap (λ n, EngineMultiple n options) (multiple_apply names e)
  end.

Definition engine_finish (engine : Engine) : AnnotationSummary :=
  match engine with
  | EngineTotal total => SummaryTotal total
  | EngineFlag clients options => SummaryFlag (identified_summary clients options)
  | EngineDistinct names options =>
      SummaryDistinct ((λ clients, identified_summary clients options) <$> names)
  | EngineUnique u options =>
      SummaryUnique ((λ clients, identified_summary clients options) <$> us_names u)
  | EngineMultiple names options =>
      SummaryMultiple ((λ bucket, multiple_summary bucket options) <$> names)
  end.

(** ** Rebuilding a projection *)

Record RebuildState := {
  rs_engine : Engine;
  rs_seen_serials : gset string;
  rs_seen_create_ids : gset string;
  rs_deleted_create_ids : gset string;
  rs_last_serial : option string;
  rs_applied_events : Z;
}.

Implicit Types (st : RebuildState).

Definition start_rebuild (engine : Engine) : RebuildState := {|
  rs_engine := engine; rs_seen_serials := ∅; rs_seen_create_ids := ∅;
  rs_deleted_create_ids := ∅; rs_last_serial := None; rs_applied_events := 0;
|}.

(** The bookkeeping of one new serial: the sets after it, and whether the engine sees
    the event. *)
Definition admit_event (create_ids : gset string) st e : RebuildState * bool :=
  let '(seen, deleted, applied) :=
    match an_action e with
    | AnnCreate =>
        if decide (an_id e ∈ rs_deleted_create_ids st)
        then (rs_seen_create_ids st, rs_deleted_create_ids st, false)
        else ({[an_id e]} ∪ rs_seen_create_ids st, rs_deleted_create_ids st, true)
    | AnnDelete =>
        if decide (an_id e ∈ create_ids)
        then (rs_seen_create_ids st, {[an_id e]} ∪ rs_deleted_create_ids st,
              bool_decide (an_id e ∈ rs_seen_create_ids st))
        else (rs_seen_create_ids st, rs_deleted_create_ids st, true)
    end in
  ({| rs_engine := rs_engine st;
      rs_seen_serials := {[an_serial e]} ∪ rs_seen_serials st;
      rs_seen_create_ids := seen;
      rs_deleted_create_ids := deleted;
      rs_last_serial := Some (an_serial e);
      rs_applied_events := rs_applied_events st |}, applied).

Definition with_engine st (engine : Engine) : RebuildState := {|
  rs_engine := engine;
  rs_seen_serials := rs_seen_serials st;
  rs_seen_create_ids := rs_seen_create_ids st;
  rs_deleted_create_ids := rs_deleted_create_ids st;
  rs_last_serial := rs_last_serial st;
  rs_applied_events := u64_wrap (rs_applied_events st + 1);
|}.

(** One turn of the loop. *)
Definition rebuild_event (create_ids : gset string) (message_serial annotation_type : string) st e
    : result Error RebuildState :=
  let? _ := validate_event_key e message_serial annotation_type in
  if decide (an_serial e ∈ rs_seen_serials st) then Ok st
  else
    let '(st, applied) := admit_event create_ids st e in
    if applied : bool then
      let? engine := engine_apply (rs_engine st) e in Ok (with_engine st engine)
    else Ok st.

Fixpoint rebuild_loop (create_ids : gset string) (message_serial annotation_type : string) st
    (events : list Annotation) : result Error RebuildState :=
  match events with
  | [] => Ok st
  | e :: events =>
      let? st := rebuild_event create_ids message_serial annotation_type st e in
      rebuild_loop create_ids message_serial annotation_type st events
  end.

Definition create_ids_of (events : list Annotation) : gset string :=
  list_to_set (an_id <$> filter (λ e, an_action e = AnnCreate) events).

Definition rebuild_sorted (channel_id message_serial annotation_type : string)
    (sorted_events : list Annotation) options : result Error AnnotationProjection :=
  let? summarizer := type_summarizer annotation_type in
  let? st := rebuild_loop (create_ids_of sorted_events) message_serial annotation_type
               (start_rebuild (new_engine summarizer options)) sorted_events in
  Ok {| ap_key := {| apk_channel_id := channel_id;
                     apk_message_serial := message_serial;
                     apk_annotation_type := annotation_type |};
        ap_summary := engine_finish (rs_engine st);
        ap_last_serial := rs_last_serial st;
        ap_applied_events := rs_applied_events st |}.

Definition annotation_le e e' : Prop := key_le (an_serial e) (an_serial e').

#[export] Instance annotation_le_dec : RelDecision annotation_le.
Proof. intros x y. unfold annotation_le. apply _. Defined.

(** [rebuild_with_options] and [rebuild_from_refs_with_options]: the sort is stable. *)
Definition rebuild_with_options (channel_id message_serial annotation_type : string)
    (events : list Annotation) options : result Error AnnotationProjection :=
  rebuild_sorted channel_id message_serial annotation_type
    (stable_sort annotation_le events) options.

Definition rebuild (channel_id message_serial annotation_type : string)
    (events : list Annotation) : result Error AnnotationProjection :=
  rebuild_with_options channel_id message_serial annotation_type events default_options.
