(* ===== verification/ProjectionThms.v ===== *)
(** * What a projection shows

    A projection depends on the set of its events alone, and its summary is what a
    reader of the event log would compute: for each client (and name) the last event
    that counts decides, where the first delete of an annotation ends it for good. *)

From Stdlib Require Import ZArith Lia.
From stdpp Require Import base gmap strings list sorting pretty.
From S2P Require Import Prelude Errors AnnotationTypes Projection.

Implicit Types (e d : Annotation) (options : AnnotationProjectionOptions) (st : RebuildState).
Implicit Types (names : gmap string (gset string)) (clients X : gset string).
Implicit Types (l pre post vis : list Annotation).

(** ** Order and repetition *)

#[local] Instance annotation_le_trans : Transitive annotation_le.
Proof. intros x y z ??. unfold annotation_le in *. by trans (an_serial y). Qed.
#[local] Instance annotation_le_total : base.Total annotation_le.
Proof. intros x y. apply (total key_le). Qed.

(** Adjacent repetitions of a serial, dropped. *)
Fixpoint squeeze l : list Annotation :=
  match l with
  | [] => []
  | e :: l =>
      match squeeze l with
      | [] => [e]
      | d :: l' => if decide (an_serial e = an_serial d) then d :: l' else e :: d :: l'
      end
  end.

(** Events with equal serials are equal. *)
Definition serials_agree l : Prop :=
  ∀ e d, e ∈ l → d ∈ l → an_serial e = an_serial d → e = d.

Lemma serials_agree_cons e l : serials_agree (e :: l) → serials_agree l.
Proof. intros H x y Hx Hy. apply H; by right. Qed.

Lemma elem_of_squeeze l e : serials_agree l → e ∈ squeeze l ↔ e ∈ l.
Proof.
  revert e. induction l as [|x l IH]; intros e Ha; [done|]. simpl.
  pose proof (IH e (serials_agree_cons _ _ Ha)) as He.
  destruct (squeeze l) as [|d l'] eqn:Hs.
  - rewrite !elem_of_cons, <-He, elem_of_nil. done.
  - assert (d ∈ l) as Hd by (apply (IH d (serials_agree_cons _ _ Ha)); left).
    case_decide as Heq; rewrite !(elem_of_cons l _ _), <-He; [|rewrite (elem_of_cons (d :: l')); done].
    assert (x = d) as -> by (apply Ha; [left|by right|done]).
    rewrite elem_of_cons. naive_solver.
Qed.

Lemma squeeze_sorted l :
  serials_agree l → StronglySorted annotation_le l →
  StronglySorted (λ x y, key_lt (an_serial x) (an_serial y)) (squeeze l).
Proof.
  intros Ha. induction 1 as [|x l Hl IH Hx]; simpl; [constructor|].
  specialize (IH (serials_agree_cons _ _ Ha)).
  destruct (squeeze l) as [|d l'] eqn:Hs; [repeat constructor|].
  case_decide as Heq; [done|]. constructor; [done|].
  assert (d ∈ l) as Hd.
  { apply elem_of_squeeze; [by eapply serials_agree_cons|]. rewrite Hs. left. }
  rewrite Forall_forall in Hx.
  assert (key_lt (an_serial x) (an_serial d)) as Hlt by (apply key_le_neq_lt; [by apply Hx|done]).
  constructor; [done|]. apply StronglySorted_cons in IH as [IH _].
  eapply Forall_impl; [exact IH|]. intros y ?. by trans (an_serial d).
Qed.

Section loop.
Context (create_ids : gset string) (message_serial annotation_type : string).
Notation event := (rebuild_event create_ids message_serial annotation_type).
Notation loop := (rebuild_loop create_ids message_serial annotation_type).

Lemma rebuild_event_seen st st' e :
  event st e = Ok st' → an_serial e ∈ rs_seen_serials st'.
Proof.
  unfold rebuild_event. intros (? & _ & H)%rbind_Ok_inv. case_decide; [by simplify_eq|].
  unfold admit_event in H. destruct (an_action e); [case_decide|case_decide; [case_bool_decide|]];
    (try apply rbind_Ok_inv in H as (? & _ & H)); simplify_eq/=; set_solver.
Qed.

Lemma rebuild_event_again st e : rbind (event st e) (λ st, event st e) = event st e.
Proof.
  destruct (event st e) as [st'|err] eqn:He; [|done]. simpl.
  pose proof (rebuild_event_seen st st' e He) as Hin.
  unfold rebuild_event in He |- *. apply rbind_Ok_inv in He as ([] & -> & _). simpl.
  by rewrite decide_True.
Qed.

(** The loop does not see the repetitions. *)
Lemma rebuild_loop_squeeze l st :
  serials_agree l → loop st (squeeze l) = loop st l.
Proof.
  revert st. induction l as [|x l IH]; intros st Ha; [done|]. simpl.
  assert (∀ st, loop st (squeeze l) = loop st l) as IH' by (intros; apply IH; by eapply serials_agree_cons).
  destruct (squeeze l) as [|d l'] eqn:Hs.
  - simpl. destruct (event st x) as [st'|]; simpl; [|done]. by rewrite <-(IH' st').
  - case_decide as Heq.
    + assert (x = d) as ->.
      { apply Ha; [left| |done]. right. apply elem_of_squeeze; [by eapply serials_agree_cons|].
        rewrite Hs. left. }
      pose proof (rebuild_event_again st d) as Hagain. simpl.
      destruct (event st d) as [st'|]; [|done]. simpl in *. rewrite <-(IH' st'). simpl.
      by rewrite Hagain.
    + change (loop st (x :: d :: l')) with (rbind (event st x) (λ st, loop st (d :: l'))).
      destruct (event st x) as [st'|]; [|done]. simpl. by rewrite <-(IH' st').
Qed.
End loop.

Lemma create_ids_of_ext l l' :
  (∀ e, e ∈ l ↔ e ∈ l') → create_ids_of l = create_ids_of l'.
Proof.
  intros Hl. apply set_eq. intros i. unfold create_ids_of.
  rewrite !elem_of_list_to_set, !list_elem_of_fmap.
  by setoid_rewrite list_elem_of_filter; setoid_rewrite Hl.
Qed.

Lemma squeeze_unique l l' :
  serials_agree l → (∀ e, e ∈ l ↔ e ∈ l') →
  squeeze (stable_sort annotation_le l) = squeeze (stable_sort annotation_le l').
Proof.
  intros Ha Hl.
  assert (∀ k, (∀ e, e ∈ k ↔ e ∈ l) →
            serials_agree (stable_sort annotation_le k) ∧
            StronglySorted (λ x y, key_lt (an_serial x) (an_serial y)) (squeeze (stable_sort annotation_le k)) ∧
            ∀ e, e ∈ squeeze (stable_sort annotation_le k) ↔ e ∈ l) as Hk.
  { intros k Hk. assert (serials_agree (stable_sort annotation_le k)) as Hak.
    { intros x y. rewrite !stable_sort_perm, !Hk. apply Ha. }
    split; [done|]. split; [apply squeeze_sorted; [done|]; by apply stable_sort_sorted; apply _|].
    intros e. rewrite elem_of_squeeze by done. by rewrite stable_sort_perm, Hk. }
  destruct (Hk l) as (_ & S1 & E1); [done|]. destruct (Hk l') as (_ & S2 & E2); [naive_solver|].
  assert (∀ k, StronglySorted (λ x y, key_lt (an_serial x) (an_serial y)) k → NoDup k) as Hnd.
  { induction 1 as [|x k _ IH Hx]; constructor; [|done]. intros Hin.
    rewrite Forall_forall in Hx. by apply (key_lt_irrefl (an_serial x)), Hx. }
  eapply StronglySorted_unique_strong; [|exact S1|exact S2|].
  - intros x y _ _ Hxy Hyx. by apply key_lt_asym in Hxy.
  - apply NoDup_Permutation; [by apply Hnd..|]. intros e. by rewrite E1, E2.
Qed.


(** ** The events that count *)

Definition has_action (a : AnnotationAction) (id : string) l : bool :=
  existsb (λ d, bool_decide (an_action d = a) && bool_decide (an_id d = id)) l.

(** The first event of an annotation. *)
Definition first_action (id : string) l : option AnnotationAction :=
  an_action <$> head (filter (λ d, an_id d = id) l).

(** A create counts unless its annotation was deleted before.  A delete counts when the
    annotation started with a create, or when its create is unknown. *)
Definition counts all pre e : bool :=
  match an_action e with
  | AnnCreate => negb (has_action AnnDelete (an_id e) pre)
  | AnnDelete => negb (has_action AnnCreate (an_id e) all)
                 || bool_decide (first_action (an_id e) pre = Some AnnCreate)
  end.

Fixpoint counting all pre post : list Annotation :=
  match post with
  | [] => []
  | e :: post => (if counts all pre e then [e] else []) ++ counting all (pre ++ [e]) post
  end.

Lemma has_action_true a id l :
  has_action a id l = true ↔ ∃ d, d ∈ l ∧ an_action d = a ∧ an_id d = id.
Proof.
  unfold has_action. rewrite existsb_exists. split.
  - intros (d & Hd%list_elem_of_In & [H1%bool_decide_eq_true H2%bool_decide_eq_true]%andb_true_iff).
    by exists d.
  - intros (d & Hd & H1 & H2). exists d. split; [by apply list_elem_of_In|].
    by rewrite !bool_decide_true.
Qed.

Lemma has_action_snoc a id l e :
  has_action a id (l ++ [e]) =
  has_action a id l || bool_decide (an_action e = a) && bool_decide (an_id e = id).
Proof. unfold has_action. rewrite existsb_app. simpl. by rewrite orb_false_r. Qed.

Lemma first_action_snoc id l e :
  first_action id (l ++ [e]) =
  match first_action id l with
  | Some a => Some a
  | None => if decide (an_id e = id) then Some (an_action e) else None
  end.
Proof.
  unfold first_action. rewrite filter_app, filter_cons, filter_nil.
  destruct (filter _ l); simpl; [|done]. by case_decide.
Qed.

Lemma first_action_None id l a : first_action id l = None → has_action a id l = false.
Proof.
  unfold first_action. intros H. apply not_true_iff_false. intros (d & Hd & _ & Hid)%has_action_true.
  assert (d ∈ filter (λ d, an_id d = id) l) as Hin by (by apply list_elem_of_filter).
  destruct (filter _ l); [by apply elem_of_nil in Hin|done].
Qed.

Lemma first_action_has id l a : first_action id l = Some a → has_action a id l = true.
Proof.
  unfold first_action. intros H. apply has_action_true.
  destruct (filter _ l) as [|d k] eqn:Hf; simplify_eq/=. exists d.
  assert (d ∈ filter (λ d, an_id d = id) l) as [? ?]%list_elem_of_filter by (rewrite Hf; left).
  done.
Qed.

Lemma elem_of_create_ids id l : id ∈ create_ids_of l ↔ has_action AnnCreate id l = true.
Proof.
  unfold create_ids_of. rewrite elem_of_list_to_set, list_elem_of_fmap, has_action_true.
  setoid_rewrite list_elem_of_filter. naive_solver.
Qed.

(** ** The engine on the events that count *)

Fixpoint engine_run (engine : Engine) vis : result Error Engine :=
  match vis with
  | [] => Ok engine
  | e :: vis => let? engine := engine_apply engine e in engine_run engine vis
  end.

Record tracks all pre st : Prop := {
  tr_serials : rs_seen_serials st = list_to_set (an_serial <$> pre);
  tr_seen id : id ∈ rs_seen_create_ids st ↔ first_action id pre = Some AnnCreate;
  tr_deleted id : id ∈ rs_deleted_create_ids st ↔
    has_action AnnDelete id pre = true ∧ has_action AnnCreate id all = true;
  tr_last : rs_last_serial st = an_serial <$> last pre;
}.

Lemma admit_event_tracks all pre post st e :
  all = pre ++ e :: post → tracks all pre st →
  let '(st', applied) := admit_event (create_ids_of all) st e in
  tracks all (pre ++ [e]) st' ∧ applied = counts all pre e ∧
  rs_engine st' = rs_engine st ∧ rs_applied_events st' = rs_applied_events st.
Proof.
  intros Hall [Hser Hseen Hdel Hlast]. unfold admit_event, counts.
  assert (an_action e = AnnCreate → has_action AnnCreate (an_id e) all = true) as Hown.
  { intros Ha. apply has_action_true. exists e. split; [|done]. rewrite Hall. set_solver. }
  assert (∀ ss ds, (∀ id, id ∈ ss ↔ first_action id (pre ++ [e]) = Some AnnCreate) →
    (∀ id, id ∈ ds ↔ has_action AnnDelete id (pre ++ [e]) = true ∧ has_action AnnCreate id all = true) →
    tracks all (pre ++ [e])
      {| rs_engine := rs_engine st; rs_seen_serials := {[an_serial e]} ∪ rs_seen_serials st;
         rs_seen_create_ids := ss; rs_deleted_create_ids := ds;
         rs_last_serial := Some (an_serial e); rs_applied_events := rs_applied_events st |}) as Hmk.
  { intros ss ds H1 H2. split; simpl; [|done|done|by rewrite last_snoc].
    rewrite Hser, fmap_app, list_to_set_app_L. simpl. set_solver. }
  destruct (an_action e) eqn:Hact.
  - case_decide as Hd; simpl; (split; [apply Hmk|split; [|done]]).
    + intros id. rewrite Hseen, first_action_snoc, Hact. apply Hdel in Hd as [Hd _].
      destruct (first_action id pre) eqn:Hf; [done|]. case_decide as Hid; [|done]. subst id.
      by rewrite (first_action_None _ _ AnnDelete Hf) in Hd.
    + intros id. rewrite Hdel, has_action_snoc, Hact. simpl. by rewrite orb_false_r.
    + apply Hdel in Hd as [-> _]. done.
    + intros id. rewrite elem_of_union, elem_of_singleton, Hseen, first_action_snoc, Hact.
      destruct (first_action id pre) as [[]|] eqn:Hf; [naive_solver| |case_decide; naive_solver].
      split; [|done]. intros [->|?]; [|done]. destruct Hd. apply Hdel.
      split; [by apply first_action_has|by apply Hown].
    + intros id. rewrite Hdel, has_action_snoc, Hact. simpl. by rewrite orb_false_r.
    + destruct (has_action AnnDelete (an_id e) pre) eqn:Hh; [|done]. destruct Hd. apply Hdel. auto.
  - case_decide as Hd; simpl; rewrite elem_of_create_ids in Hd; (split; [apply Hmk|split; [|done]]).
    + intros id. rewrite Hseen, first_action_snoc, Hact.
      destruct (first_action id pre); [done|]. by case_decide.
    + intros id. rewrite elem_of_union, elem_of_singleton, Hdel, has_action_snoc, Hact. simpl.
      rewrite orb_true_iff, bool_decide_eq_true. naive_solver.
    + rewrite Hd. simpl. apply bool_decide_ext, Hseen.
    + intros id. rewrite Hseen, first_action_snoc, Hact.
      destruct (first_action id pre); [done|]. by case_decide.
    + intros id. rewrite Hdel, has_action_snoc, Hact. simpl.
      rewrite orb_true_iff, bool_decide_eq_true. naive_solver.
    + by rewrite (proj1 (not_true_iff_false _) Hd).
Qed.

(** On events with distinct serials the loop runs the engine on those that count. *)
Lemma rebuild_loop_counting all pre post message_serial annotation_type st st' :
  all = pre ++ post → NoDup (an_serial <$> all) → tracks all pre st →
  rebuild_loop (create_ids_of all) message_serial annotation_type st post = Ok st' →
  engine_run (rs_engine st) (counting all pre post) = Ok (rs_engine st') ∧
  rs_last_serial st' = an_serial <$> last all ∧
  Forall (λ e, validate_event_key e message_serial annotation_type = Ok tt) post.
Proof.
  revert pre st. induction post as [|e post IH]; intros pre st Hall Hnd Htr Hloop; simpl in *.
  { simplify_eq. rewrite app_nil_r in *. split; [done|]. by destruct Htr as [_ _ _ ->]. }
  apply rbind_Ok_inv in Hloop as (st1 & He & Hloop).
  unfold rebuild_event in He. apply rbind_Ok_inv in He as ([] & Hval & He).
  rewrite decide_False in He.
  2:{ rewrite (tr_serials _ _ _ Htr), elem_of_list_to_set. subst all.
      rewrite fmap_app in Hnd. apply NoDup_app in Hnd as (_ & Hnd & _).
      intros Hin. apply (Hnd _ Hin). simpl. left. }
  pose proof (admit_event_tracks all pre post st e Hall Htr) as Hadm.
  destruct (admit_event _ st e) as [st2 applied] eqn:Ha.
  destruct Hadm as (Htr2 & -> & Heng & _).
  destruct (counts all pre e).
  - apply rbind_Ok_inv in He as (engine & Happ & He). simplify_eq/=.
    rewrite Heng in Happ. rewrite Happ. simpl.
    destruct (IH (pre ++ [e]) (with_engine st2 engine)) as (H1 & H2 & H3);
      [by rewrite <-app_assoc|done|by destruct Htr2; split|done|]. naive_solver.
  - simplify_eq/=.
    destruct (IH (pre ++ [e]) st1) as (H1 & H2 & H3); [by rewrite <-app_assoc|done|done|done|].
    rewrite Heng in H1. naive_solver.
Qed.

(** ** What each engine holds *)

(** The last event of [vis] that satisfies [P]. *)
Definition latest (P : Annotation → Prop) `{!∀ e, Decision (P e)} vis : option Annotation :=
  last (filter P vis).

Lemma latest_snoc (P : Annotation → Prop) `{!∀ e, Decision (P e)} vis e :
  latest P (vis ++ [e]) = if decide (P e) then Some e else latest P vis.
Proof.
  unfold latest. rewrite filter_app, filter_cons, filter_nil.
  case_decide; [by rewrite last_snoc|by rewrite app_nil_r].
Qed.

(** The latest event of the client (under the name) is a create. *)
Definition flagged vis (c : string) : Prop :=
  an_action <$> latest (λ e, an_client_id e = Some c) vis = Some AnnCreate.

Definition listed vis (name c : string) : Prop :=
  an_action <$> latest (λ e, an_name e = Some name ∧ an_client_id e = Some c) vis = Some AnnCreate.

(** The name the client chose last, unless it withdrew since. *)
Definition choice vis (c : string) : option string :=
  e ← latest (λ e, an_client_id e = Some c) vis;
  match an_action e with AnnCreate => an_name e | AnnDelete => None end.

(** The counts of the creates since the last delete. *)
Definition standing (P : Annotation → Prop) `{!∀ e, Decision (P e)} vis : list Z :=
  foldl (λ acc e, match an_action e with
                  | AnnCreate => acc ++ [effective_count e]
                  | AnnDelete => []
                  end) [] (filter P vis).

Definition capped_sum (l : list Z) : Z := Z.min (foldr Z.add 0%Z l) u64_max.

(** The counts of the creates of unidentified clients under the name. *)
Definition anonymous vis (name : string) : list Z :=
  effective_count <$>
  filter (λ e, an_name e = Some name ∧ an_client_id e = None ∧ an_action e = AnnCreate) vis.

(** Creates minus deletes, and the lowest value this takes along the way, at most zero. *)
Definition step_of e : Z := match an_action e with AnnCreate => 1 | AnnDelete => -1 end.

Definition balance vis : Z := foldr (λ e n, (step_of e + n)%Z) 0%Z vis.

Fixpoint lowest vis : Z :=
  match vis with
  | [] => 0
  | e :: vis => Z.min 0 (step_of e + lowest vis)
  end.

Definition index_of names (member : string → string → Prop) : Prop :=
  ∀ name, match names !! name with
          | Some X => X ≠ ∅ ∧ ∀ c, c ∈ X ↔ member name c
          | None => ∀ c, ¬ member name c
          end.

Definition bucket_of vis (name : string) (b : MultipleBucketState) : Prop :=
  (∀ c, mb_client_counts b !! c =
     match standing (λ e, an_name e = Some name ∧ an_client_id e = Some c) vis with
     | [] => None
     | l => Some (capped_sum l)
     end) ∧
  mb_total_unidentified b = capped_sum (anonymous vis name).

Definition engine_holds vis (engine : Engine) : Prop :=
  match engine with
  | EngineTotal total => (Z.of_nat (length vis) ≤ u64_max → total = balance vis - lowest vis)%Z
  | EngineFlag clients _ => ∀ c, c ∈ clients ↔ flagged vis c
  | EngineDistinct names _ => index_of names (listed vis)
  | EngineUnique u _ =>
      index_of (us_names u) (λ name c, choice vis c = Some name) ∧
      ∀ c, us_client_names u !! c = choice vis c
  | EngineMultiple names _ =>
      ∀ name, match names !! name with
              | Some b => bucket_of vis name b
              | None => Forall (λ e, an_name e ≠ Some name) vis
              end
  end.

Lemma required_name_Ok e n : required_name e = Ok n → an_name e = Some n.
Proof. unfold required_name. destruct (an_name e); simpl; [case_match|]; naive_solver. Qed.

Lemma required_client_id_Ok e c : required_client_id e = Ok c → an_client_id e = Some c.
Proof. unfold required_client_id. destruct (an_client_id e); simpl; [case_match|]; naive_solver. Qed.

Lemma index_of_ext names (member member' : string → string → Prop) :
  (∀ name c, member name c ↔ member' name c) → index_of names member → index_of names member'.
Proof. intros Hm Hi name. specialize (Hi name). case_match; by setoid_rewrite <-Hm. Qed.

Lemma index_of_add names member n c :
  index_of names member → index_of (add_client names n c) (λ n' c', (n' = n ∧ c' = c) ∨ member n' c').
Proof.
  intros Hi name. unfold add_client. rewrite lookup_insert. specialize (Hi name).
  case_decide as Hn.
  - subst. split; [set_solver|]. intros c'. rewrite elem_of_union, elem_of_singleton.
    destruct (names !! name) as [X|]; simpl; [destruct Hi as [_ ->]; naive_solver|].
    rewrite elem_of_empty. naive_solver.
  - destruct (names !! name); [|naive_solver]. split; [naive_solver|]. destruct Hi as [_ Hi].
    intros c'. rewrite Hi. naive_solver.
Qed.

Lemma index_of_remove names member n c :
  index_of names member →
  index_of (remove_client_from_name names n c) (λ n' c', ¬ (n' = n ∧ c' = c) ∧ member n' c').
Proof.
  intros Hi name. pose proof (Hi name) as Hname. pose proof (Hi n) as Hn. unfold remove_client_from_name.
  destruct (names !! n) as [X|] eqn:HX.
  - destruct Hn as [HX0 Hn].
    destruct (decide (name = n)) as [->|Hne].
    + case_decide as Hemp.
      * rewrite lookup_delete_eq. intros c' [Hc Hm]. apply Hn in Hm. set_solver.
      * rewrite lookup_insert_eq. split; [done|]. intros c'. rewrite elem_of_difference, Hn. set_solver.
    + assert ((if decide (X ∖ {[c]} = ∅) then delete n names else <[n := X ∖ {[c]}]> names) !! name
              = names !! name) as ->
        by (case_decide; [by rewrite lookup_delete_ne|by rewrite lookup_insert_ne]).
      destruct (names !! name); [|naive_solver]. split; [naive_solver|]. destruct Hname as [_ Hname].
      intros c'. rewrite Hname. naive_solver.
  - destruct (names !! name) eqn:Hlk; [|naive_solver]. split; [naive_solver|].
    destruct Hname as [_ Hname]. intros c'. rewrite Hname.
    split; [|tauto]. intros Hm. split; [|done]. intros [-> ->]. congruence.
Qed.

Lemma flag_apply_holds vis clients clients' e :
  (∀ c, c ∈ clients ↔ flagged vis c) → flag_apply clients e = Ok clients' →
  ∀ c, c ∈ clients' ↔ flagged (vis ++ [e]) c.
Proof.
  intros Hf (c' & Hc%required_client_id_Ok & [= <-])%rbind_Ok_inv c.
  specialize (Hf c). unfold flagged in *. rewrite latest_snoc.
  case_decide as Hd; [|rewrite <-Hf]; destruct (an_action e) eqn:Ha; simpl; try rewrite Ha; set_solver.
Qed.

Lemma distinct_apply_holds vis names names' e :
  index_of names (listed vis) → distinct_apply names e = Ok names' →
  index_of names' (listed (vis ++ [e])).
Proof.
  intros Hi (n & Hn%required_name_Ok & (c & Hc%required_client_id_Ok & [= <-])%rbind_Ok_inv)%rbind_Ok_inv.
  assert (∀ n' c', listed (vis ++ [e]) n' c' ↔
            if decide (n' = n ∧ c' = c) then an_action e = AnnCreate else listed vis n' c') as Hl.
  { intros n' c'. unfold listed. rewrite latest_snoc, Hn, Hc.
    destruct (decide (n' = n ∧ c' = c)) as [[-> ->]|Hne].
    - rewrite decide_True by done. simpl. by split; [intros [=]|intros ->].
    - rewrite decide_False; [done|]. intros [[= ->] [= ->]]. by apply Hne. }
  destruct (an_action e).
  - eapply index_of_ext; [|by apply index_of_add]. intros n' c'. rewrite Hl. case_decide; naive_solver.
  - eapply index_of_ext; [|by apply index_of_remove]. intros n' c'. rewrite Hl. case_decide; naive_solver.
Qed.

Lemma choice_snoc vis e n c c' :
  an_name e = Some n → an_client_id e = Some c →
  choice (vis ++ [e]) c' =
  if decide (c' = c) then match an_action e with AnnCreate => Some n | AnnDelete => None end
  else choice vis c'.
Proof.
  intros Hn Hc. unfold choice. rewrite latest_snoc, Hc.
  destruct (decide (c' = c)) as [->|Hne].
  - rewrite decide_True by done. simpl. by rewrite Hn.
  - rewrite decide_False; [done|]. by intros [= ->].
Qed.

Ltac finish_choice :=
  intros n' c'; simpl;
  match goal with Hs : context [choice (_ ++ _) _] |- _ => rewrite Hs by done; clear Hs end;
  repeat match goal with H : context [index_of] |- _ => clear H | H : ∀ _, _ |- _ => clear H end;
  case_decide; subst; naive_solver congruence.

Lemma unique_apply_holds vis u u' e :
  index_of (us_names u) (λ name c, choice vis c = Some name) →
  (∀ c, us_client_names u !! c = choice vis c) → unique_apply u e = Ok u' →
  index_of (us_names u') (λ name c, choice (vis ++ [e]) c = Some name) ∧
  ∀ c, us_client_names u' !! c = choice (vis ++ [e]) c.
Proof.
  intros Hi Hcn (n & Hn%required_name_Ok & (c & Hc%required_client_id_Ok & [= <-])%rbind_Ok_inv)%rbind_Ok_inv.
  pose proof (choice_snoc vis e n c) as Hsnoc. pose proof (Hcn c) as Hown.
  destruct (an_action e) eqn:Ha; simpl in Hsnoc.
  - simpl. split.
    + destruct (us_client_names u !! c) as [prev|] eqn:Hprev.
      * case_bool_decide as Hp.
        -- eapply index_of_ext; [|by apply index_of_add]. finish_choice.
        -- eapply index_of_ext; [|apply index_of_add, index_of_remove, Hi]. finish_choice.
      * eapply index_of_ext; [|by apply index_of_add]. finish_choice.
    + intros c'. rewrite lookup_insert, Hsnoc by done. repeat case_decide; subst; congruence.
  - destruct (us_client_names u !! c) as [prev|] eqn:Hprev; simpl; split.
    + eapply index_of_ext; [|by apply index_of_remove]. finish_choice.
    + intros c'. rewrite lookup_delete, Hsnoc by done. repeat case_decide; subst; congruence.
    + eapply index_of_ext; [|exact Hi]. finish_choice.
    + intros c'. rewrite Hsnoc by done. case_decide; subst; congruence.
Qed.

Lemma balance_snoc vis e : balance (vis ++ [e]) = (balance vis + step_of e)%Z.
Proof. unfold balance. induction vis as [|x vis IH]; simpl; [lia|]. rewrite IH. lia. Qed.

Lemma lowest_snoc vis e : lowest (vis ++ [e]) = Z.min (lowest vis) (balance (vis ++ [e])).
Proof. induction vis as [|x vis IH]; simpl; [lia|]. rewrite IH. lia. Qed.

Lemma balance_bound vis : (lowest vis ≤ balance vis ∧ lowest vis ≤ 0 ∧
  balance vis - lowest vis ≤ Z.of_nat (length vis))%Z.
Proof.
  induction vis as [|e vis IH]; simpl; [lia|]. unfold step_of. destruct (an_action e); lia.
Qed.

Lemma total_apply_holds vis total total' e :
  ((Z.of_nat (length vis) ≤ u64_max)%Z → total = (balance vis - lowest vis)%Z) →
  total_apply total e = Ok total' → (Z.of_nat (length (vis ++ [e])) ≤ u64_max)%Z →
  total' = (balance (vis ++ [e]) - lowest (vis ++ [e]))%Z.
Proof.
  intros Ht [= <-] Hlen. rewrite length_app in Hlen. simpl in Hlen.
  rewrite Ht by lia. rewrite lowest_snoc, balance_snoc. pose proof (balance_bound vis).
  unfold step_of. destruct (an_action e); u64_lia.
Qed.

Lemma capped_sum_snoc (ns : list Z) (x : Z) :
  Forall (Z.le 0) ns → (0 ≤ x)%Z → capped_sum (ns ++ [x]) = u64_saturating_add (capped_sum ns) x.
Proof.
  intros Hl Hx. unfold capped_sum.
  assert (foldr Z.add 0 (ns ++ [x]) = foldr Z.add 0 ns + x)%Z as ->.
  { clear Hl. induction ns as [|y ns IH]; simpl; [lia|]. rewrite IH. lia. }
  assert (0 ≤ foldr Z.add 0 ns)%Z by (clear Hx; induction Hl; simpl; lia). u64_lia.
Qed.

Lemma standing_snoc (P : Annotation → Prop) `{!∀ e, Decision (P e)} vis e :
  standing P (vis ++ [e]) =
  if decide (P e) then
    match an_action e with AnnCreate => standing P vis ++ [effective_count e] | AnnDelete => [] end
  else standing P vis.
Proof.
  unfold standing. rewrite filter_app, filter_cons, filter_nil, foldl_app.
  by case_decide.
Qed.

Lemma standing_nonneg (P : Annotation → Prop) `{!∀ e, Decision (P e)} vis :
  Forall (λ e, is_u64 (effective_count e)) vis → Forall (Z.le 0) (standing P vis).
Proof.
  induction vis as [|e vis IH] using rev_ind; [constructor|].
  rewrite Forall_app, Forall_singleton, standing_snoc. intros [Hv He].
  case_decide; [|by apply IH]. destruct (an_action e); [|constructor].
  apply Forall_app. split; [by apply IH|]. constructor; [|done]. u64_lia.
Qed.

Lemma anonymous_snoc vis e name :
  anonymous (vis ++ [e]) name =
  anonymous vis name ++
  if decide (an_name e = Some name ∧ an_client_id e = None ∧ an_action e = AnnCreate)
  then [effective_count e] else [].
Proof.
  unfold anonymous. rewrite filter_app, fmap_app, filter_cons, filter_nil. by case_decide.
Qed.

Lemma anonymous_nonneg vis name :
  Forall (λ e, is_u64 (effective_count e)) vis → Forall (Z.le 0) (anonymous vis name).
Proof.
  intros Hv. apply Forall_fmap, Forall_forall. intros e [_ He]%list_elem_of_filter.
  rewrite Forall_forall in Hv. specialize (Hv e He). simpl in *. u64_lia.
Qed.

(** An event under another name leaves a bucket alone. *)
Lemma bucket_of_other vis e name b :
  an_name e ≠ Some name → bucket_of vis name b → bucket_of (vis ++ [e]) name b.
Proof.
  intros Hne [Hc Ha]. split.
  - intros c. rewrite standing_snoc, decide_False by naive_solver. apply Hc.
  - rewrite anonymous_snoc, decide_False, app_nil_r by naive_solver. done.
Qed.

Lemma bucket_apply_holds vis e name b b' :
  Forall (λ e, is_u64 (effective_count e)) vis → is_u64 (effective_count e) →
  an_name e = Some name → bucket_of vis name b → bucket_apply b e = Ok b' →
  bucket_of (vis ++ [e]) name b'.
Proof.
  intros Hv He Hn [Hc Ha] Happ. unfold bucket_apply in Happ.
  assert (0 ≤ effective_count e)%Z as Hpos by u64_lia.
  destruct (an_action e) eqn:Hact, (an_client_id e) as [c|] eqn:Hcl.
  - apply rbind_Ok_inv in Happ as (? & _ & [= <-]). split; simpl.
    + intros c'. rewrite standing_snoc, lookup_insert, Hn, Hcl, Hact.
      pose proof (standing_nonneg (λ e, an_name e = Some name ∧ an_client_id e = Some c) vis Hv) as Hs.
      destruct (decide (c = c')) as [->|Hne].
      * rewrite decide_True by done. rewrite Hc. set (K := standing _ vis) in *.
        trans (Some (capped_sum (K ++ [effective_count e]))); [|by destruct K].
        rewrite capped_sum_snoc by done. by destruct K.
      * rewrite decide_False by (intros ?; destruct_and?; congruence). apply Hc.
    + rewrite anonymous_snoc, decide_False, app_nil_r by (intros ?; destruct_and?; congruence). done.
  - simplify_eq. split; simpl.
    + intros c. rewrite standing_snoc, decide_False by (intros ?; destruct_and?; congruence). apply Hc.
    + rewrite anonymous_snoc, decide_True by done.
      rewrite capped_sum_snoc, Ha by (done || by apply anonymous_nonneg). done.
  - simplify_eq. split; simpl.
    + intros c'. rewrite standing_snoc, lookup_delete, Hn, Hcl, Hact.
      destruct (decide (c = c')) as [->|Hne].
      * by rewrite decide_True by done.
      * rewrite decide_False by (intros ?; destruct_and?; congruence). apply Hc.
    + rewrite anonymous_snoc, decide_False, app_nil_r by (intros ?; destruct_and?; congruence). done.
  - simplify_eq. split.
    + intros c. rewrite standing_snoc, decide_False by (intros ?; destruct_and?; congruence). apply Hc.
    + rewrite anonymous_snoc, decide_False, app_nil_r by (intros ?; destruct_and?; congruence). done.
Qed.

(** Before its first event a name has an empty bucket. *)
Lemma bucket_of_fresh vis name :
  Forall (λ e, an_name e ≠ Some name) vis → bucket_of vis name empty_bucket.
Proof.
  intros Hf. assert (∀ (P : Annotation → Prop) `{!∀ e, Decision (P e)},
    (∀ e, P e → an_name e = Some name) → filter P vis = []) as Hno.
  { intros P ? HP. apply list_filter_none. eapply Forall_impl; [exact Hf|]. intros e He Hp.
    by apply He, HP. }
  split; [intros c; unfold standing|unfold anonymous]; rewrite Hno by naive_solver; done.
Qed.

Lemma multiple_apply_holds vis (names names' : gmap string MultipleBucketState) e :
  Forall (λ e, is_u64 (effective_count e)) vis → is_u64 (effective_count e) →
  (∀ name, match names !! name with
           | Some b => bucket_of vis name b
           | None => Forall (λ e, an_name e ≠ Some name) vis
           end) →
  multiple_apply names e = Ok names' →
  ∀ name, match names' !! name with
          | Some b => bucket_of (vis ++ [e]) name b
          | None => Forall (λ e, an_name e ≠ Some name) (vis ++ [e])
          end.
Proof.
  intros Hv He Hb (n & Hn%required_name_Ok & (b & Hap & [= <-])%rbind_Ok_inv)%rbind_Ok_inv name.
  rewrite lookup_insert. specialize (Hb name). case_decide as Heq.
  - subst n. eapply bucket_apply_holds; [done..| |exact Hap].
    destruct (names !! name); [done|]. by apply bucket_of_fresh.
  - assert (an_name e ≠ Some name) by congruence.
    destruct (names !! name); [by apply bucket_of_other|].
    apply Forall_app. split; [done|]. by constructor.
Qed.

Lemma engine_run_holds vis' vis engine engine' :
  Forall (λ e, is_u64 (effective_count e)) (vis ++ vis') → engine_holds vis engine →
  engine_run engine vis' = Ok engine' → engine_holds (vis ++ vis') engine'.
Proof.
  revert vis engine. induction vis' as [|e vis' IH]; intros vis engine Hu Hh Hrun; simpl in Hrun.
  { simplify_eq. by rewrite app_nil_r. }
  apply rbind_Ok_inv in Hrun as (engine1 & Happ & Hrun).
  replace (vis ++ e :: vis') with ((vis ++ [e]) ++ vis') in * by (by rewrite <-app_assoc).
  eapply IH; [done| |exact Hrun].
  apply Forall_app in Hu as [Hu _]. apply Forall_app in Hu as [Hu He]. rewrite Forall_singleton in He.
  destruct engine; cbn [engine_apply] in Happ; unfold rmap in Happ;
    apply rbind_Ok_inv in Happ as (x & Hx & [= <-]); cbn [engine_holds] in *.
  - by eapply total_apply_holds.
  - by eapply flag_apply_holds.
  - by eapply distinct_apply_holds.
  - destruct Hh as [H1 H2]. by eapply unique_apply_holds.
  - eapply multiple_apply_holds; [exact Hu|exact He|exact Hh|exact Hx].
Qed.

Definition has_options options (engine : Engine) : Prop :=
  match engine with
  | EngineTotal _ => True
  | EngineFlag _ o | EngineDistinct _ o | EngineUnique _ o | EngineMultiple _ o => o = options
  end.

Lemma engine_run_options vis options engine engine' :
  has_options options engine → engine_run engine vis = Ok engine' → has_options options engine'.
Proof.
  revert engine. induction vis as [|e vis IH]; intros engine Ho Hrun; simpl in Hrun; [by simplify_eq|].
  apply rbind_Ok_inv in Hrun as (engine1 & Happ & Hrun). eapply IH; [|exact Hrun].
  destruct engine; cbn [engine_apply] in Happ; unfold rmap in Happ;
    by apply rbind_Ok_inv in Happ as (x & Hx & [= <-]).
Qed.

Lemma new_engine_holds summarizer options : engine_holds [] (new_engine summarizer options).
Proof.
  destruct summarizer; simpl.
  - done.
  - intros c. split; [by intros ?%elem_of_empty|done].
  - intros name. rewrite lookup_empty. by intros c.
  - split; [|done]. intros name. rewrite lookup_empty. by intros c.
  - intros name. by rewrite lookup_empty.
Qed.

Lemma elem_of_counting all pre post e : e ∈ counting all pre post → e ∈ post.
Proof.
  revert pre. induction post as [|x post IH]; intros pre; simpl; [done|].
  rewrite elem_of_app, elem_of_cons. intros [H|H]; [|right; by eapply IH].
  destruct (counts all pre x); [|by apply elem_of_nil in H]. left. by apply list_elem_of_singleton.
Qed.

Lemma tracks_start all engine : tracks all [] (start_rebuild engine).
Proof.
  split; simpl; [done| | |done]; intros id; rewrite elem_of_empty; split; naive_solver.
Qed.

(** A summary per name of the clients that [member] puts under it. *)
Definition names_summary (names : gmap string IdentifiedAnnotationSummary) options
    (member : string → string → Prop) : Prop :=
  ∀ name, match names !! name with
          | Some s => ∃ X, X ≠ ∅ ∧ (∀ c, c ∈ X ↔ member name c) ∧ s = identified_summary X options
          | None => ∀ c, ¬ member name c
          end.

Lemma index_of_summary names options member :
  index_of names member →
  names_summary ((λ clients, identified_summary clients options) <$> names) options member.
Proof.
  intros Hi name. rewrite lookup_fmap. specialize (Hi name).
  destruct (names !! name) as [X|]; simpl; [|done]. exists X. naive_solver.
Qed.

(** C23: a summary says what the log says.  From events with distinct serials, in serial
    order, drop those that do not count: creates after a delete of their annotation, and
    deletes of an annotation whose log starts with a delete although its create is known.
    Then: a total is the balance of creates and deletes above its lowest point; a flag
    lists exactly the clients whose latest event is a create; a distinct summary lists a
    client under a name exactly when its latest event there is a create; a unique summary
    lists it under the one name it chose last, unless it withdrew; and a multiple summary
    has per client the sum of its counts since its last delete, capped at the largest
    [u64], and the sum of the unidentified counts.  The last serial is the greatest. *)
Theorem summary_correct channel_id message_serial annotation_type events options p :
  NoDup (an_serial <$> events) → Forall (λ e, is_u64 (effective_count e)) events →
  rebuild_with_options channel_id message_serial annotation_type events options = Ok p →
  let all := stable_sort annotation_le events in
  let vis := counting all [] all in
  ap_last_serial p = an_serial <$> last all ∧
  match ap_summary p with
  | SummaryTotal total => (Z.of_nat (length vis) ≤ u64_max → total = balance vis - lowest vis)%Z
  | SummaryFlag s => ∃ X, (∀ c, c ∈ X ↔ flagged vis c) ∧ s = identified_summary X options
  | SummaryDistinct names => names_summary names options (listed vis)
  | SummaryUnique names => names_summary names options (λ name c, choice vis c = Some name)
  | SummaryMultiple names =>
      ∀ name, match names !! name with
              | Some s => ∃ b, bucket_of vis name b ∧ s = multiple_summary b options
              | None => Forall (λ e, an_name e ≠ Some name) vis
              end
  end.
Proof.
  intros Hnd Hu (k & Hk & (st & Hloop & [= <-])%rbind_Ok_inv)%rbind_Ok_inv all vis. simpl.
  assert (all ≡ₚ events) as Hperm by apply stable_sort_perm.
  destruct (rebuild_loop_counting all [] all message_serial annotation_type
              (start_rebuild (new_engine k options)) st) as (Hrun & Hlast & _);
    [done|by rewrite Hperm|apply tracks_start|exact Hloop|].
  split; [done|].
  assert (Forall (λ e, is_u64 (effective_count e)) vis) as Huv.
  { apply Forall_forall. intros e He%elem_of_counting. rewrite Forall_forall in Hu.
    apply Hu. by rewrite <-Hperm. }
  pose proof (engine_run_holds vis [] _ _ Huv (new_engine_holds k options) Hrun) as Hh.
  assert (has_options options (rs_engine st)) as Ho
    by (eapply engine_run_options; [|exact Hrun]; by destruct k).
  destruct (rs_engine st) as [total|X o|names o|u o|names o]; simpl in *; subst; try done.
  - by exists X.
  - by apply index_of_summary.
  - destruct Hh as [Hh _]. by apply index_of_summary.
  - intros name. rewrite lookup_fmap. specialize (Hh name).
    destruct (names !! name) as [b|]; simpl; [by exists b|done].
Qed.

(** The sum of the counts wraps although each count saturates. *)
Lemma multiple_total_wraps :
  ms_total (multiple_summary {| mb_client_counts := {["ann" := u64_max; "bob" := 1%Z]};
                                mb_total_unidentified := 0 |} default_options) = 0%Z.
Proof. vm_compute. reflexivity. Qed.

(** ** A sample log *)

Definition sample_event (id serial : string) (action : AnnotationAction) (name client : string)
    : Annotation := {|
  an_id := id; an_action := action; an_serial := serial; an_message_serial := "m1";
  an_annotation_type := "reaction:unique.v1"; an_name := Some name; an_client_id := Some client;
  an_count := None; an_data := None; an_encoding := None; an_timestamp := 0 |}.

(** Ann likes, then changes to wow; Bob likes and withdraws. *)
Definition sample_log : list Annotation :=
  [sample_event "a1" "s1" AnnCreate "like" "ann"; sample_event "a2" "s2" AnnCreate "like" "bob";
   sample_event "a3" "s3" AnnCreate "wow" "ann"; sample_event "a2" "s4" AnnDelete "like" "bob"].

Definition sample_log_twice : list Annotation := reverse sample_log ++ sample_log.


Definition sample_projection : AnnotationProjection := {|
  ap_key := {| apk_channel_id := "room"; apk_message_serial := "m1";
               apk_annotation_type := "reaction:unique.v1" |};
  ap_summary := SummaryUnique {["wow" := {| is_total := 1; is_client_ids := ["ann"]; is_clipped := false |}]};
  ap_last_serial := Some "s4";
  ap_applied_events := 4;
|}.

Lemma sample_rebuild :
  rebuild "room" "m1" "reaction:unique.v1" sample_log = Ok sample_projection.
Proof. vm_compute. reflexivity. Qed.

Lemma summary_correct_witness :
  names_summary {["wow" := {| is_total := 1; is_client_ids := ["ann"]; is_clipped := false |}]}
    default_options
    (λ name c, choice (counting (stable_sort annotation_le sample_log) []
                         (stable_sort annotation_le sample_log)) c = Some name).
Proof.
  destruct (summary_correct "room" "m1" "reaction:unique.v1" sample_log default_options
              sample_projection) as [_ H].
  - apply (bool_decide_unpack _). vm_compute. exact I.
  - repeat constructor; vm_compute; congruence.
  - exact sample_rebuild.
  - exact H.
Defined.
