(* ===== verification/AnnotationStore.v ===== *)
(** * The in-memory annotation store

    [crates/sockudo-core/src/annotations/memory.rs].  The state is three ordered maps
    behind one lock.  A section of the code that holds the lock is one function on the
    state; a call is a thread that moves from section to section, so that calls interleave
    where the code releases the lock: between the insertion of an event and the rebuild of
    its projection, and between the read and the commit of a rebuild. *)

From Stdlib Require Import ZArith Lia.
From stdpp Require Import base gmap strings list pretty.
From S2P Require Import Prelude Errors Messages AnnotationTypes Projection.

(** Equality of JSON values, from the JSON library. *)
Class JsonEq := value_eqb : Json → Json → bool.

Notation EventMap := (gmap string StoredAnnotationEvent).

Record MemoryAnnotationState := {
  as_events_by_projection : gmap string EventMap;
  as_raw_by_channel : gmap string EventMap;
  as_projections : gmap string StoredAnnotationProjection;
}.

Implicit Types (s : MemoryAnnotationState) (record : StoredAnnotationEvent).
Implicit Types (request : AnnotationProjectionRequest) (options : AnnotationProjectionOptions).
Implicit Types (events : EventMap) (now : Z).

Definition empty_annotations : MemoryAnnotationState :=
  {| as_events_by_projection := ∅; as_raw_by_channel := ∅; as_projections := ∅ |}.

(** ** Keys *)

Definition annotation_channel_key (app_id channel_id : string) : string :=
  app_id +:+ nul +:+ channel_id.

Definition annotation_projection_key (app_id channel_id message_serial annotation_type : string)
    : string :=
  annotation_channel_key app_id channel_id +:+ nul +:+ message_serial +:+ nul +:+ annotation_type.

Definition request_projection_key request : string :=
  annotation_projection_key (apr_app_id request) (apr_channel_id request)
    (apr_message_serial request) (apr_annotation_type request).

Definition event_projection_key record : string :=
  annotation_projection_key (se_app_id record) (se_channel_id record)
    (se_message_serial record) (se_annotation_type record).

(** The request of the projection an event belongs to. *)
Definition event_request record : AnnotationProjectionRequest := {|
  apr_app_id := se_app_id record;
  apr_channel_id := se_channel_id record;
  apr_message_serial := se_message_serial record;
  apr_annotation_type := se_annotation_type record;
|}.

(** ** Sections of the lock *)

Definition events_at s (key : string) : EventMap := default ∅ (as_events_by_projection s !! key).

Definition projection_max_serial s (key : string) : option string :=
  fst <$> last (btree_list (events_at s key)).

Definition projection_events s (key : string) : list StoredAnnotationEvent :=
  btree_values (events_at s key).

Definition build_projection now request (records : list StoredAnnotationEvent) options
    : result Error StoredAnnotationProjection :=
  let? projection :=
    rebuild_with_options (apr_channel_id request) (apr_message_serial request)
      (apr_annotation_type request) (se_annotation <$> records) options in
  Ok (from_projection now (apr_app_id request) projection).

Definition put_projection s (key : string) (p : StoredAnnotationProjection)
    : MemoryAnnotationState := {|
  as_events_by_projection := as_events_by_projection s;
  as_raw_by_channel := as_raw_by_channel s;
  as_projections := <[key := p]> (as_projections s);
|}.

(** [entry(key).or_default().entry(serial).or_insert(record)]. *)
Definition or_insert_event (m : gmap string EventMap) (key : string) record : gmap string EventMap :=
  let events := default ∅ (m !! key) in
  <[key := match events !! se_annotation_serial record with
           | Some _ => events
           | None => <[se_annotation_serial record := record]> events
           end]> m.

(** [entry(key).or_default().insert(serial, record)]. *)
Definition insert_event (m : gmap string EventMap) (key : string) record : gmap string EventMap :=
  <[key := <[se_annotation_serial record := record]> (default ∅ (m !! key))]> m.

Definition stamp now record : StoredAnnotationEvent := {|
  se_app_id := se_app_id record;
  se_channel_id := se_channel_id record;
  se_annotation := se_annotation record;
  se_stored_at_ms := if (se_stored_at_ms record =? 0)%Z then now else se_stored_at_ms record;
|}.

(** The locked section of [append_event]. *)
Definition append_section record s : MemoryAnnotationState := {|
  as_events_by_projection :=
    or_insert_event (as_events_by_projection s) (event_projection_key record) record;
  as_raw_by_channel :=
    or_insert_event (as_raw_by_channel s)
      (annotation_channel_key (se_app_id record) (se_channel_id record)) record;
  as_projections := as_projections s;
|}.

Section create.
Context `{JsonEq}.

Definition data_eqb (a b : option Json) : bool :=
  match a, b with
  | Some a, Some b => value_eqb a b
  | None, None => true
  | _, _ => false
  end.

Definition same_payload (a b : Annotation) : bool :=
  bool_decide (an_name a = an_name b) && bool_decide (an_client_id a = an_client_id b)
  && bool_decide (an_count a = an_count b) && data_eqb (an_data a) (an_data b)
  && bool_decide (an_encoding a = an_encoding b).

(** The first create of the projection with this annotation id, in serial order. *)
Definition existing_create events (id : string) : option StoredAnnotationEvent :=
  List.find (λ r, bool_decide (an_action (se_annotation r) = AnnCreate)
                  && bool_decide (an_id (se_annotation r) = id)) (btree_values events).

(** The locked section of [append_create_idempotent]: the state and the serial of the
    create that was there before, if any. *)
Definition create_section record s : result Error (MemoryAnnotationState * option string) :=
  let key := event_projection_key record in
  match existing_create (events_at s key) (an_id (se_annotation record)) with
  | Some existing =>
      if same_payload (se_annotation existing) (se_annotation record)
      then Ok (s, Some (se_annotation_serial existing))
      else Err (InvalidMessageFormat ("Annotation id '" +:+ an_id (se_annotation record)
                  +:+ "' was already used with a different payload"))
  | None =>
      Ok ({| as_events_by_projection := insert_event (as_events_by_projection s) key record;
             as_raw_by_channel :=
               insert_event (as_raw_by_channel s)
                 (annotation_channel_key (se_app_id record) (se_channel_id record)) record;
             as_projections := as_projections s |}, None)
  end.
End create.

(** ** Reads *)

Definition get_events request s : result Error (list StoredAnnotationEvent) :=
  let? _ := projection_request_validate request in
  Ok (projection_events s (request_projection_key request)).

Definition replay_wanted (req : RawAnnotationReplayRequest) (kv : string * StoredAnnotationEvent)
    : bool :=
  match rar_after_annotation_serial req with
  | Some after => key_ltb after kv.1
  | None => true
  end &&
  match rar_message_serial req with
  | Some message_serial => bool_decide (se_message_serial kv.2 = message_serial)
  | None => true
  end.

Definition replay_raw (req : RawAnnotationReplayRequest) s
    : result Error (list StoredAnnotationEvent) :=
  let? _ := raw_replay_validate req in
  match as_raw_by_channel s !! annotation_channel_key (rar_app_id req) (rar_channel_id req) with
  | None => Ok []
  | Some events =>
      Ok (firstn (Z.to_nat (rar_limit req)) (filter (replay_wanted req) (btree_list events)).*2)
  end.

Definition get_event_by_serial (req : AnnotationEventLookupRequest) s
    : result Error (option StoredAnnotationEvent) :=
  let? _ := event_lookup_validate req in
  Ok (as_raw_by_channel s !! annotation_channel_key (ael_app_id req) (ael_channel_id req)
      ≫= λ events, events !! ael_annotation_serial req).

(** The locked section of [get_projection]: a current projection, nothing to project, or
    a projection that has to be rebuilt. *)
Inductive CacheAnswer : Type :=
| Current (p : StoredAnnotationProjection)
| Nothing
| Stale.

Definition cache_section request s : CacheAnswer :=
  let key := request_projection_key request in
  match as_projections s !! key with
  | Some p =>
      if bool_decide (sp_last_annotation_serial p = projection_max_serial s key)
      then Current p else Stale
  | None =>
      match projection_max_serial s key with
      | None => Nothing
      | Some _ => Stale
      end
  end.

(** [should_rebuild] of [list_projections_for_channel_with_rebuild_count]. *)
Definition should_rebuild request s : bool :=
  let key := request_projection_key request in
  match as_projections s !! key, projection_max_serial s key with
  | None, Some _ => true
  | Some p, max_serial => negb (bool_decide (sp_last_annotation_serial p = max_serial))
  | None, None => false
  end.

(** The projections of a channel, by key: of its events, then of the cache. *)
Definition channel_requests (app_id channel_id : string) s : list AnnotationProjectionRequest :=
  let add (m : gmap string AnnotationProjectionRequest) request :=
    if bool_decide (apr_app_id request = app_id) && bool_decide (apr_channel_id request = channel_id)
    then <[request_projection_key request := request]> m else m in
  let of_events := omap (λ events, event_request <$> head (btree_values events))
                     (btree_values (as_events_by_projection s)) in
  let of_cache := projection_key_of <$> btree_values (as_projections s) in
  btree_values (foldl add ∅ (of_events ++ of_cache)).

Definition projection_le (p q : StoredAnnotationProjection) : Prop :=
  key_lt (sp_message_serial p) (sp_message_serial q) ∨
  sp_message_serial p = sp_message_serial q ∧
  key_le (sp_annotation_type p) (sp_annotation_type q).

#[export] Instance key_lt_string_dec : RelDecision (@key_lt string _).
Proof. intros x y. unfold key_lt. apply _. Defined.

#[export] Instance projection_le_dec : RelDecision projection_le.
Proof. intros p q. unfold projection_le. apply _. Defined.

(** ** Calls *)

Inductive AnnotationCall : Type :=
| CallAppend (record : StoredAnnotationEvent)
| CallCreate (record : StoredAnnotationEvent)
| CallGet (request : AnnotationProjectionRequest)
| CallRebuild (request : AnnotationProjectionRequest) (options : AnnotationProjectionOptions)
| CallListProjections (req : AnnotationProjectionsForChannelRequest).

Inductive AnnotationAnswer : Type :=
| AnsProjection (r : result Error StoredAnnotationProjection)
| AnsOutcome (r : result Error AnnotationAppendOutcome)
| AnsOption (r : result Error (option StoredAnnotationProjection))
| AnsList (r : result Error (list StoredAnnotationProjection * Z)).

(** What a caller of a rebuild or of [get_projection] does with the projection. *)
Inductive Caller : Type :=
| RetProjection
| RetOutcome (canonical_serial : string) (inserted : bool)
| RetOption
| RetList (rebuilt : bool) (rest : list AnnotationProjectionRequest)
    (projections : list StoredAnnotationProjection) (rebuild_count : Z).

Inductive AnnotationPc : Type :=
| AtCall (call : AnnotationCall)
| AtGet (request : AnnotationProjectionRequest) (caller : Caller)
| AtRebuild (request : AnnotationProjectionRequest) (options : AnnotationProjectionOptions)
    (caller : Caller)
| AtRead (request : AnnotationProjectionRequest) (options : AnnotationProjectionOptions)
    (caller : Caller)
| AtCommit (request : AnnotationProjectionRequest) (options : AnnotationProjectionOptions)
    (expected_last_serial : option string) (projection : StoredAnnotationProjection)
    (caller : Caller)
| AtList (requests : list AnnotationProjectionRequest)
    (projections : list StoredAnnotationProjection) (rebuild_count : Z)
| Done (answer : AnnotationAnswer).

Definition return_error (caller : Caller) (e : Error) : AnnotationPc :=
  Done (match caller with
        | RetProjection => AnsProjection (Err e)
        | RetOutcome _ _ => AnsOutcome (Err e)
        | RetOption => AnsOption (Err e)
        | RetList _ _ _ _ => AnsList (Err e)
        end).

Definition return_projection (caller : Caller) (p : StoredAnnotationProjection) : AnnotationPc :=
  match caller with
  | RetProjection => Done (AnsProjection (Ok p))
  | RetOutcome canonical_serial inserted =>
      Done (AnsOutcome (Ok {| ao_projection := p; ao_canonical_serial := canonical_serial;
                              ao_inserted := inserted |}))
  | RetOption => Done (AnsOption (Ok (Some p)))
  | RetList rebuilt rest projections rebuild_count =>
      AtList rest (projections ++ [p]) (rebuild_count + usize_from rebuilt)
  end.

(** [get_projection] found nothing. *)
Definition return_none (caller : Caller) : AnnotationPc :=
  match caller with
  | RetList _ rest projections rebuild_count => AtList rest projections rebuild_count
  | _ => Done (AnsOption (Ok None))
  end.

Section exec.
Context `{JsonEq}.

(** The entry of each operation, up to the end of its first section. *)
Definition exec_call now (call : AnnotationCall) s : MemoryAnnotationState * AnnotationPc :=
  match call with
  | CallAppend record =>
      match stored_event_validate record with
      | Err e => (s, Done (AnsProjection (Err e)))
      | Ok _ => (append_section (stamp now record) s,
                 AtRebuild (event_request record) default_options RetProjection)
      end
  | CallCreate record =>
      match stored_event_validate record with
      | Err e => (s, Done (AnsOutcome (Err e)))
      | Ok _ =>
          if decide (an_action (se_annotation record) = AnnCreate) then
            match create_section (stamp now record) s with
            | Err e => (s, Done (AnsOutcome (Err e)))
            | Ok (s, existing) =>
                (s, AtRebuild (event_request record) default_options
                      (RetOutcome (default (se_annotation_serial record) existing)
                         (match existing with None => true | Some _ => false end)))
            end
          else (append_section (stamp now record) s,
                AtRebuild (event_request record) default_options
                  (RetOutcome (se_annotation_serial record) true))
      end
  | CallGet request => (s, AtGet request RetOption)
  | CallRebuild request options => (s, AtRebuild request options RetProjection)
  | CallListProjections req =>
      match channel_projections_validate req with
      | Err e => (s, Done (AnsList (Err e)))
      | Ok _ => (s, AtList (channel_requests (apc_app_id req) (apc_channel_id req) s) [] 0)
      end
  end.

(** [get_projection]. *)
Definition exec_get request (caller : Caller) s : MemoryAnnotationState * AnnotationPc :=
  (s, match projection_request_validate request with
      | Err e => return_error caller e
      | Ok _ =>
          match cache_section request s with
          | Current p => return_projection caller p
          | Nothing => return_none caller
          | Stale => AtRebuild request default_options caller
          end
      end).

(** The next projection of a listing, or its end. *)
Definition exec_list (requests : list AnnotationProjectionRequest)
    (projections : list StoredAnnotationProjection) (rebuild_count : Z) s
    : MemoryAnnotationState * AnnotationPc :=
  match requests with
  | [] => (s, Done (AnsList (Ok (stable_sort projection_le projections, rebuild_count))))
  | request :: rest =>
      (s, AtGet request (RetList (should_rebuild request s) rest projections rebuild_count))
  end.

(** One section, at the time [now]. *)
Definition exec_pc now (pc : AnnotationPc) s : MemoryAnnotationState * AnnotationPc :=
  match pc with
  | AtCall call => exec_call now call s
  | AtGet request caller => exec_get request caller s
  | AtRebuild request options caller =>
      (s, match projection_request_validate request with
          | Err e => return_error caller e
          | Ok _ => AtRead request options caller
          end)
  | AtRead request options caller =>
      let key := request_projection_key request in
      (s, match build_projection now request (projection_events s key) options with
          | Err e => return_error caller e
          | Ok p => AtCommit request options (projection_max_serial s key) p caller
          end)
  | AtCommit request options expected_last_serial p caller =>
      let key := request_projection_key request in
      if bool_decide (projection_max_serial s key = expected_last_serial)
      then (put_projection s key p, return_projection caller p)
      else (s, AtRead request options caller)
  | AtList requests projections rebuild_count => exec_list requests projections rebuild_count s
  | Done answer => (s, Done answer)
  end.
End exec.

(** ** Retention *)

Record PurgeScan := {
  pg_events : gmap string EventMap;
  pg_deleted : Z;
  pg_has_more : bool;
  pg_affected : gset string;
  pg_raw_removals : list (string * string);
}.

Definition expired (before_ms : Z) record : bool := (se_stored_at_ms record <? before_ms)%Z.

(** The loop over the projections, which stops when the batch is full. *)
Fixpoint purge_scan (before_ms batch_size : Z) (entries : list (string * EventMap)) (acc : PurgeScan)
    : PurgeScan :=
  match entries with
  | [] => acc
  | (key, events) :: entries =>
      let remaining := u64_saturating_sub batch_size (pg_deleted acc) in
      if (remaining =? 0)%Z then
        {| pg_events := pg_events acc; pg_deleted := pg_deleted acc; pg_has_more := true;
           pg_affected := pg_affected acc; pg_raw_removals := pg_raw_removals acc |}
      else
        let to_remove :=
          firstn (Z.to_nat remaining) (filter (λ kv, expired before_ms kv.2) (btree_list events)) in
        purge_scan before_ms batch_size entries
          {| pg_events := <[key := foldl (λ m kv, delete kv.1 m) events to_remove]> (pg_events acc);
             pg_deleted := pg_deleted acc + Z.of_nat (length to_remove);
             pg_has_more := pg_has_more acc;
             pg_affected := (if to_remove then ∅ else {[key]}) ∪ pg_affected acc;
             pg_raw_removals :=
               pg_raw_removals acc ++
               ((λ kv, (annotation_channel_key (se_app_id kv.2) (se_channel_id kv.2), kv.1))
                <$> to_remove) |}
  end.

Definition remove_raw (raw : gmap string EventMap) (ks : string * string) : gmap string EventMap :=
  match raw !! ks.1 with
  | Some events => <[ks.1 := delete ks.2 events]> raw
  | None => raw
  end.

Definition retain_nonempty (m : gmap string EventMap) : gmap string EventMap :=
  filter (λ kv, kv.2 ≠ ∅) m.

(** [rebuild_projection_from_state]. *)
Definition rebuild_projection_from_state now request options s
    : result Error MemoryAnnotationState :=
  let key := request_projection_key request in
  let? p := build_projection now request (projection_events s key) options in
  Ok (put_projection s key p).

(** The first error ends the operation, with what was done so far. *)
Fixpoint rebuild_all now (requests : list AnnotationProjectionRequest) s
    : MemoryAnnotationState * result Error unit :=
  match requests with
  | [] => (s, Ok tt)
  | request :: requests =>
      match rebuild_projection_from_state now request default_options s with
      | Ok s => rebuild_all now requests s
      | Err e => (s, Err e)
      end
  end.

Definition drop_projections (keys : list string) s : MemoryAnnotationState := {|
  as_events_by_projection := as_events_by_projection s;
  as_raw_by_channel := as_raw_by_channel s;
  as_projections :=
    foldl (λ m key, match as_events_by_projection s !! key with
                    | None => delete key m
                    | Some _ => m
                    end) (as_projections s) keys;
|}.

Definition any_expired (before_ms : Z) (m : gmap string EventMap) : bool :=
  existsb (λ events, existsb (expired before_ms) (btree_values events)) (btree_values m).

Definition purge_annotations now (before_ms batch_size : Z) s
    : MemoryAnnotationState * result Error (Z * bool) :=
  if (batch_size =? 0)%Z then (s, Ok (0%Z, false))
  else
    let scan := purge_scan before_ms batch_size (btree_list (as_events_by_projection s))
      {| pg_events := as_events_by_projection s; pg_deleted := 0; pg_has_more := false;
         pg_affected := ∅; pg_raw_removals := [] |} in
    let s := {| as_events_by_projection := retain_nonempty (pg_events scan);
                as_raw_by_channel :=
                  retain_nonempty (foldl remove_raw (as_raw_by_channel s) (pg_raw_removals scan));
                as_projections := as_projections s |} in
    let keys := bset_list (pg_affected scan) in
    let requests := omap (λ key, event_request <$> head (projection_events s key)) keys in
    match rebuild_all now requests s with
    | (s, Err e) => (s, Err e)
    | (s, Ok _) =>
        let s := drop_projections keys s in
        (s, Ok (pg_deleted scan,
                pg_has_more scan || any_expired before_ms (as_events_by_projection s)))
    end.

(** ** The system *)

(** A call under way. *)
Record AnnotationThread := {
  th_call : AnnotationCall;
  th_pc : AnnotationPc;
}.

Record AnnotationSystem := {
  sys_state : MemoryAnnotationState;
  sys_calls : gmap nat AnnotationThread;
}.

Section system.
Context `{JsonEq}.

Definition scope_ok (app_id channel_id message_serial : string) : bool :=
  no_nul app_id && no_nul channel_id && no_nul message_serial.

Definition request_ok request : bool :=
  scope_ok (apr_app_id request) (apr_channel_id request) (apr_message_serial request).

(** Identifiers have no NUL byte, which separates the parts of a key. *)
Definition call_ok (call : AnnotationCall) : bool :=
  match call with
  | CallAppend record | CallCreate record => request_ok (event_request record)
  | CallGet request | CallRebuild request _ => request_ok request
  | CallListProjections req => no_nul (apc_app_id req) && no_nul (apc_channel_id req)
  end.

(** Events reach their projection in the order of their serials, and no rebuild clips. *)
Definition in_order (call : AnnotationCall) s : Prop :=
  match call with
  | CallAppend record =>
      ∀ serial, is_Some (events_at s (event_projection_key record) !! serial) →
        key_le serial (se_annotation_serial record)
  | CallCreate record =>
      ∀ serial, is_Some (events_at s (event_projection_key record) !! serial) →
        key_lt serial (se_annotation_serial record)
  | CallRebuild _ options => options = default_options
  | CallGet _ | CallListProjections _ => True
  end.

(** Calls of the kind [allowed] start, take a section, or are dropped; retention runs at
    any time.  [ordered] leaves retention out and asks for [in_order]. *)
Inductive annotation_step (allowed : AnnotationCall → bool) (ordered : bool) (y : AnnotationSystem)
    : AnnotationSystem → Prop :=
| ann_start i call :
    sys_calls y !! i = None → allowed call = true →
    annotation_step allowed ordered y
      {| sys_state := sys_state y;
         sys_calls := <[i := {| th_call := call; th_pc := AtCall call |}]> (sys_calls y) |}
| ann_exec i t now s pc :
    sys_calls y !! i = Some t →
    (ordered = true → ∀ call, th_pc t = AtCall call → in_order call (sys_state y)) →
    exec_pc now (th_pc t) (sys_state y) = (s, pc) →
    annotation_step allowed ordered y
      {| sys_state := s; sys_calls := <[i := {| th_call := th_call t; th_pc := pc |}]> (sys_calls y) |}
| ann_drop i :
    annotation_step allowed ordered y
      {| sys_state := sys_state y; sys_calls := delete i (sys_calls y) |}
| ann_purge now before_ms batch_size s out :
    ordered = false → purge_annotations now before_ms batch_size (sys_state y) = (s, out) →
    annotation_step allowed ordered y {| sys_state := s; sys_calls := sys_calls y |}.

Definition annotation_init : AnnotationSystem :=
  {| sys_state := empty_annotations; sys_calls := ∅ |}.
End system.
