(* ===== verification/AnnotationThms.v ===== *)
(** * The annotation store under interleaving

    Calls interleave between the sections of the lock.  When events reach their projection
    in the order of their serials, every projection a call returns is the one its events
    give at that moment; a create takes effect once; and every call that runs alone
    returns.  When events arrive out of order, the watermark a rebuild compares does not
    notice an event that arrived in between, and a stale projection stays. *)

From Stdlib Require Import Ascii ZArith Lia.
From stdpp Require Import base gmap strings list sorting pretty.
From S2P Require Import Prelude Errors Messages AnnotationTypes Projection ProjectionThms AnnotationStore.

Implicit Types (s : MemoryAnnotationState) (record r : StoredAnnotationEvent).
Implicit Types (request : AnnotationProjectionRequest) (options : AnnotationProjectionOptions).
Implicit Types (events : EventMap) (now : Z) (p : StoredAnnotationProjection).
Implicit Types (y : AnnotationSystem) (t : AnnotationThread) (key : string).

(** ** Keys *)

Lemma string_app_cons x (a b : string) : (String x a +:+ b)%string = String x (a +:+ b).
Proof. done. Qed.

Lemma string_app_nil (b : string) : (EmptyString +:+ b)%string = b.
Proof. done. Qed.

Lemma nul_split (a a' b b' : string) :
  no_nul a = true → no_nul a' = true → (a +:+ nul +:+ b = a' +:+ nul +:+ b')%string →
  a = a' ∧ b = b'.
Proof.
  unfold nul. revert a'. induction a as [|x a IH]; intros [|x' a'] Ha Ha';
    rewrite !string_app_cons, ?string_app_nil; intros Heq.
  - by injection Heq.
  - injection Heq as Hx Hrest. by subst x'.
  - injection Heq as Hx Hrest. by subst x.
  - injection Heq as Hx Hrest. simpl in Ha, Ha'.
    apply andb_true_iff in Ha as [_ Ha], Ha' as [_ Ha'].
    destruct (IH a' Ha Ha') as [-> ->]; [by rewrite !string_app_cons|]. by rewrite Hx.
Qed.

Lemma request_key_inj request request' :
  request_ok request = true → request_ok request' = true →
  request_projection_key request = request_projection_key request' → request = request'.
Proof.
  destruct request as [a c m ty], request' as [a' c' m' ty'].
  unfold request_ok, scope_ok, request_projection_key, annotation_projection_key,
    annotation_channel_key; simpl.
  intros [[Ha Hc]%andb_true_iff Hm]%andb_true_iff [[Ha' Hc']%andb_true_iff Hm']%andb_true_iff.
  rewrite !string_app_assoc.
  intros [-> [-> [-> ->]%nul_split]%nul_split]%nul_split; done.
Qed.

(** ** Event maps *)

Record wf_events s : Prop := {
  we_key key serial r : events_at s key !! serial = Some r →
    serial = se_annotation_serial r ∧ event_projection_key r = key ∧
    request_ok (event_request r) = true;
}.

Lemma event_request_key r : request_projection_key (event_request r) = event_projection_key r.
Proof. done. Qed.

Lemma projection_serials s key :
  wf_events s → se_annotation_serial <$> projection_events s key = (btree_list (events_at s key)).*1.
Proof.
  intros Hwf. unfold projection_events, btree_values. rewrite <-list_fmap_compose.
  apply list_fmap_ext. intros i [serial r] Hi. simpl. symmetry.
  by apply (we_key _ Hwf key), elem_of_btree_list, (list_elem_of_lookup_2 _ i).
Qed.

Lemma projection_serials_sorted s key :
  wf_events s → StronglySorted key_lt (se_annotation_serial <$> projection_events s key).
Proof. intros Hwf. rewrite projection_serials by done. auto with sockudo. Qed.

Lemma max_serial_last s key :
  wf_events s → projection_max_serial s key = se_annotation_serial <$> last (projection_events s key).
Proof.
  intros Hwf. rewrite <-fmap_last, projection_serials by done.
  unfold projection_max_serial. by rewrite fmap_last.
Qed.

(** The last serial of a projection is that of its last event. *)
Lemma build_last now request records options p :
  StronglySorted key_lt (se_annotation_serial <$> records) →
  build_projection now request records options = Ok p →
  sp_last_annotation_serial p = se_annotation_serial <$> last records ∧
  projection_key_of p = request.
Proof.
  intros Hs (ap & (k & Hk & (st & Hloop & [= <-])%rbind_Ok_inv)%rbind_Ok_inv & [= <-])%rbind_Ok_inv.
  split; [|by destruct request]. simpl.
  set (l := se_annotation <$> records) in *.
  assert (an_serial <$> l = se_annotation_serial <$> records) as Hser
    by (unfold l; by rewrite <-list_fmap_compose).
  rewrite <-Hser in Hs.
  assert (stable_sort annotation_le l = l) as Hsort.
  { apply stable_sort_id. clear -Hs. induction l as [|e l IH]; [constructor|].
    csimpl in Hs. apply StronglySorted_cons in Hs as [He Hs]. constructor; [by apply IH|].
    rewrite Forall_fmap in He. eapply Forall_impl; [exact He|]. intros d Hd. by apply key_lt_le. }
  rewrite Hsort in Hloop.
  destruct (rebuild_loop_counting l [] l (apr_message_serial request) (apr_annotation_type request)
              (start_rebuild (new_engine k options)) st eq_refl) as (_ & -> & _);
    [by apply StronglySorted_lt_NoDup|apply tracks_start|exact Hloop|].
  rewrite <-!fmap_last, <-Hser. done.
Qed.

(** A projection built from an initial part of the events of a projection. *)
Definition built_from s key request p : Prop :=
  ∃ now records rest, projection_events s key = records ++ rest ∧
    build_projection now request records default_options = Ok p.

Lemma sorted_app_last (l k : list string) :
  StronglySorted key_lt (l ++ k) → last (l ++ k) = last l → k = [].
Proof.
  intros Hs Hlast. destruct k as [|x k] using rev_ind; [done|].
  rewrite app_assoc, last_snoc in Hlast. symmetry in Hlast.
  apply last_Some in Hlast as [l' ->].
  rewrite app_assoc in Hs. apply StronglySorted_lt_NoDup in Hs.
  apply NoDup_app in Hs as (_ & Hnd & _). exfalso. apply (Hnd x); set_solver.
Qed.

(** With a current watermark it is the projection of all events. *)
Lemma built_from_current s key request p :
  wf_events s → built_from s key request p →
  sp_last_annotation_serial p = projection_max_serial s key →
  ∃ now, build_projection now request (projection_events s key) default_options = Ok p.
Proof.
  intros Hwf (now & records & rest & Heq & Hb) Hlast. exists now.
  pose proof (projection_serials_sorted s key Hwf) as Hs.
  rewrite max_serial_last in Hlast by done. rewrite Heq in Hs, Hlast |- *. rewrite fmap_app in Hs.
  destruct (build_last now request records default_options p) as [Hl _]; [|done|].
  { by apply StronglySorted_app_1_l in Hs. }
  rewrite Hl, <-!fmap_last, fmap_app in Hlast.
  assert (se_annotation_serial <$> rest = []) as Hr by (by eapply sorted_app_last).
  apply fmap_nil_inv in Hr as ->. by rewrite app_nil_r.
Qed.

Definition extends s s' : Prop :=
  ∀ key, ∃ more, projection_events s' key = projection_events s key ++ more.

Lemma extends_refl s s' :
  as_events_by_projection s' = as_events_by_projection s → extends s s'.
Proof. intros Heq key. exists []. unfold projection_events, events_at. by rewrite Heq, app_nil_r. Qed.

#[local] Hint Resolve extends_refl : sockudo.

Lemma built_from_extends s s' key request p :
  extends s s' → built_from s key request p → built_from s' key request p.
Proof.
  intros Hext (now & records & rest & Heq & Hb). destruct (Hext key) as [more Hm].
  exists now, records, (rest ++ more). split; [|done]. by rewrite Hm, Heq, <-app_assoc.
Qed.

(** ** Insertions *)

Lemma events_at_append r s key :
  events_at (append_section r s) key =
  if decide (key = event_projection_key r) then
    match events_at s key !! se_annotation_serial r with
    | Some _ => events_at s key
    | None => <[se_annotation_serial r := r]> (events_at s key)
    end
  else events_at s key.
Proof.
  unfold events_at at 1. simpl. unfold or_insert_event.
  case_decide as Hk; [subst key; by rewrite lookup_insert_eq|by rewrite lookup_insert_ne].
Qed.

(** Every event of the new state is old or the inserted one. *)
Definition inserts r s s' : Prop :=
  ∀ key serial r', events_at s' key !! serial = Some r' →
    events_at s key !! serial = Some r' ∨
    (key = event_projection_key r ∧ serial = se_annotation_serial r ∧ r' = r).

Lemma append_section_inserts r s : inserts r s (append_section r s).
Proof.
  intros key serial r'. rewrite events_at_append. case_decide as Hk; [|by left].
  case_match; [by left|]. intros [[<- <-]|[_ ?]]%lookup_insert_Some; [by right|by left].
Qed.

Section interleaving.
Context `{JsonEq}.

Lemma create_section_state r s s' existing :
  create_section r s = Ok (s', existing) →
  (s' = s ∧ ∃ old, existing = Some (se_annotation_serial old) ∧
     existing_create (events_at s (event_projection_key r)) (an_id (se_annotation r)) = Some old ∧
     same_payload (se_annotation old) (se_annotation r) = true) ∨
  (existing = None ∧
   existing_create (events_at s (event_projection_key r)) (an_id (se_annotation r)) = None ∧
   as_projections s' = as_projections s ∧
   ∀ key, events_at s' key =
     if decide (key = event_projection_key r)
     then <[se_annotation_serial r := r]> (events_at s key) else events_at s key).
Proof.
  unfold create_section. destruct (existing_create _ _) as [old|].
  - destruct (same_payload _ _) eqn:Hp; [|done]. intros [= <- <-]. left. split; [done|]. by exists old.
  - intros [= <- <-]. right. split; [done|]. split; [done|]. split; [done|]. intros key.
    unfold events_at at 1. simpl. unfold insert_event.
    case_decide as Hk; [subst key; by rewrite lookup_insert_eq|by rewrite lookup_insert_ne].
Qed.

Lemma create_section_inserts r s s' existing :
  create_section r s = Ok (s', existing) → inserts r s s' ∧ as_projections s' = as_projections s.
Proof.
  intros [[-> _]|(_ & _ & Hp & He)]%create_section_state; [by split; [left|]|].
  split; [|done]. intros key serial r'. rewrite He. case_decide; [|by left].
  intros [[<- <-]|[_ ?]]%lookup_insert_Some; [by right|by left].
Qed.

Lemma wf_events_inserts r s s' :
  request_ok (event_request r) = true → inserts r s s' → wf_events s → wf_events s'.
Proof.
  intros Hr Hi Hwf. split. intros key serial r' [Hold|(-> & -> & ->)]%Hi; [|done].
  by apply (we_key _ Hwf key).
Qed.

(** A map with one more, largest, serial lists it last. *)
Lemma extends_insert r s s' :
  (∀ key, events_at s' key = events_at s key ∨
     key = event_projection_key r ∧
     events_at s' key = <[se_annotation_serial r := r]> (events_at s key) ∧
     ∀ serial, is_Some (events_at s key !! serial) → key_lt serial (se_annotation_serial r)) →
  extends s s'.
Proof.
  intros Hs key. unfold projection_events, btree_values. destruct (Hs key) as [->|(-> & -> & Hlt)].
  - exists []. by rewrite app_nil_r.
  - exists [r]. by rewrite btree_list_insert_last, fmap_app by done.
Qed.

Lemma append_section_extends r s :
  in_order (CallAppend r) s → extends s (append_section r s).
Proof.
  intros Hin. apply (extends_insert r). intros key. rewrite events_at_append.
  case_decide as Hk; [|by left]. subst key. case_match eqn:Hl; [by left|]. right.
  split; [done|]. split; [done|]. intros serial Hs. apply key_le_neq_lt; [by apply Hin|].
  intros ->. rewrite Hl in Hs. by destruct Hs.
Qed.

Lemma create_section_extends r s s' existing :
  in_order (CallCreate r) s → create_section r s = Ok (s', existing) → extends s s'.
Proof.
  intros Hin [[-> _]|(_ & _ & _ & He)]%create_section_state; [by apply extends_refl|].
  apply (extends_insert r). intros key. rewrite He. case_decide as Hk; [|by left]. subst key.
  right. done.
Qed.

(** Stamping an event changes neither its key nor its place. *)
Lemma stamp_same now r :
  event_projection_key (stamp now r) = event_projection_key r ∧
  se_annotation_serial (stamp now r) = se_annotation_serial r ∧
  event_request (stamp now r) = event_request r.
Proof. done. Qed.

(** ** The invariant *)

Definition call_request (call : AnnotationCall) : option AnnotationProjectionRequest :=
  match call with
  | CallAppend record | CallCreate record => Some (event_request record)
  | CallGet request | CallRebuild request _ => Some request
  | CallListProjections _ => None
  end.

Definition caller_of (call : AnnotationCall) request (caller : Caller) : Prop :=
  match caller with
  | RetList _ rest _ _ => Forall (λ request, request_ok request = true) rest
  | _ => call_request call = Some request
  end.

Definition pc_ok s (call : AnnotationCall) (pc : AnnotationPc) : Prop :=
  match pc with
  | AtCall call' => call' = call ∧ call_ok call = true
  | AtGet request caller => request_ok request = true ∧ caller_of call request caller
  | AtRebuild request options caller | AtRead request options caller =>
      request_ok request = true ∧ caller_of call request caller ∧ options = default_options
  | AtCommit request options expected p caller =>
      request_ok request = true ∧ caller_of call request caller ∧ options = default_options ∧
      projection_key_of p = request ∧ expected = sp_last_annotation_serial p ∧
      built_from s (request_projection_key request) request p
  | AtList requests _ _ => Forall (λ request, request_ok request = true) requests
  | Done _ => True
  end.

Record cache_ok s : Prop := {
  co_events : wf_events s;
  co_cache key p : as_projections s !! key = Some p →
    key = request_projection_key (projection_key_of p) ∧
    request_ok (projection_key_of p) = true ∧ built_from s key (projection_key_of p) p;
}.

Definition system_ok y : Prop :=
  cache_ok (sys_state y) ∧
  ∀ i t, sys_calls y !! i = Some t → pc_ok (sys_state y) (th_call t) (th_pc t).

Lemma pc_ok_extends s s' call pc : extends s s' → pc_ok s call pc → pc_ok s' call pc.
Proof.
  intros Hext. destruct pc; simpl; try done. intros (? & ? & ? & ? & ? & Hb).
  repeat split; try done. by eapply built_from_extends.
Qed.

Lemma cache_ok_extends s s' :
  extends s s' → wf_events s' → as_projections s' = as_projections s → cache_ok s → cache_ok s'.
Proof.
  intros Hext Hwf Hp [_ Hc]. split; [done|]. intros key p. rewrite Hp. intros Hk.
  destruct (Hc key p Hk) as (? & ? & ?). split; [done|]. split; [done|].
  by eapply built_from_extends.
Qed.

Lemma channel_requests_ok app_id channel_id s :
  cache_ok s → Forall (λ request, request_ok request = true) (channel_requests app_id channel_id s).
Proof.
  intros [Hwf Hc]. apply Forall_forall. intros request. unfold channel_requests.
  set (add := λ (m : gmap string AnnotationProjectionRequest) request, _).
  set (l := _ ++ _).
  assert (∀ l m, (∀ k x, m !! k = Some x → request_ok x = true) →
            Forall (λ x, request_ok x = true) l →
            ∀ k x, foldl add m l !! k = Some x → request_ok x = true) as Hfold.
  { clear l. induction l as [|x l IH]; intros m Hm Hl; [done|]. simpl.
    apply Forall_cons in Hl as [Hx Hl]. apply IH; [|done]. intros k z. unfold add.
    case_match; [|apply Hm]. intros [[_ <-]|[_ ?]]%lookup_insert_Some; [done|by eapply Hm]. }
  intros [k Hk]%elem_of_btree_values. eapply Hfold; [| |exact Hk]; [by intros ? ? ?%lookup_empty_Some|].
  apply Forall_app. split; apply Forall_forall.
  - intros x (events & [k' Hk']%elem_of_btree_values & Hx)%list_elem_of_omap.
    destruct (btree_values events) as [|r rs] eqn:Hv; simplify_eq/=.
    assert (r ∈ btree_values events) as [serial Hr]%elem_of_btree_values by (rewrite Hv; left).
    apply (we_key _ Hwf k' serial). unfold events_at. by rewrite Hk'.
  - intros x (p & -> & [k' Hp]%elem_of_btree_values)%list_elem_of_fmap. by apply (Hc k').
Qed.

Ltac unchanged := split; [auto with sockudo|]; split; [done|by simpl].

Lemma exec_call_ok now call s s' pc :
  cache_ok s → call_ok call = true → in_order call s → exec_call now call s = (s', pc) →
  extends s s' ∧ cache_ok s' ∧ pc_ok s' call pc.
Proof.
  intros Hc Hok Hin Hexec.
  assert (∀ caller r, request_ok (event_request r) = true → inserts (stamp now r) s s' →
            extends s s' → as_projections s' = as_projections s →
            call_request call = Some (event_request r) →
            (match caller with RetList _ _ _ _ => False | _ => True end) →
            pc = AtRebuild (event_request r) default_options caller →
            extends s s' ∧ cache_ok s' ∧ pc_ok s' call pc) as Hinsert.
  { intros caller r Hr Hi Hext Hp Hreq Hcaller ->. split; [done|]. split.
    - eapply cache_ok_extends; [done| |done|done].
      by eapply (wf_events_inserts (stamp now r)), co_events.
    - simpl. split; [done|]. split; [|done]. by destruct caller. }
  destruct call as [r|r|request|request options|req]; simpl in *.
  - destruct (stored_event_validate r); simplify_eq; [|unchanged].
    eapply (Hinsert RetProjection r); try done; [apply append_section_inserts|].
    by apply append_section_extends.
  - destruct (stored_event_validate r); [|simplify_eq; unchanged].
    case_decide as Ha.
    + destruct (create_section (stamp now r) s) as [[s1 existing]|] eqn:Hcs;
        [|simplify_eq; unchanged].
      simplify_eq. destruct (create_section_inserts _ _ _ _ Hcs).
      eapply (Hinsert (RetOutcome _ _) r); try done.
      eapply (create_section_extends (stamp now r)); [exact Hin|exact Hcs].
    + simplify_eq. eapply (Hinsert (RetOutcome _ _) r); try done; [apply append_section_inserts|].
      apply append_section_extends. intros serial Hs. auto with sockudo.
  - simplify_eq. unchanged.
  - simplify_eq. unchanged.
  - destruct (channel_projections_validate req); simplify_eq; (split; [auto with sockudo|]); [|done].
    split; [done|]. by apply channel_requests_ok.
Qed.

Lemma build_from_all now request s p :
  wf_events s →
  build_projection now request (projection_events s (request_projection_key request)) default_options = Ok p →
  projection_key_of p = request ∧
  projection_max_serial s (request_projection_key request) = sp_last_annotation_serial p ∧
  built_from s (request_projection_key request) request p.
Proof.
  intros Hwf Hb. destruct (build_last _ _ _ _ _ (projection_serials_sorted s _ Hwf) Hb) as [Hl Hr].
  split; [done|]. split; [by rewrite max_serial_last, Hl|].
  exists now, (projection_events s (request_projection_key request)), [].
  by rewrite app_nil_r.
Qed.

Lemma exec_pc_ok now call pc s s' pc' :
  cache_ok s → pc_ok s call pc → (∀ c, pc = AtCall c → in_order c s) →
  exec_pc now pc s = (s', pc') → extends s s' ∧ cache_ok s' ∧ pc_ok s' call pc'.
Proof.
  intros Hc Hpc Hin Hexec.
  destruct pc as [c|request caller|request options caller|request options caller
                 |request options expected p caller|[|request requests] ps n|answer]; simpl in *; unfold exec_get in *.
  - destruct Hpc as [-> Hok]. eapply exec_call_ok; [done|done|by apply Hin|exact Hexec].
  - destruct Hpc as [Hr Hcl]. simplify_eq. split; [auto with sockudo|]. split; [done|].
    destruct (projection_request_validate request); [|by destruct caller].
    destruct (cache_section request s'); [by destruct caller..|done].
  - destruct Hpc as (Hr & Hcl & Ho). simplify_eq. split; [auto with sockudo|]. split; [done|].
    destruct (projection_request_validate request); [done|by destruct caller].
  - destruct Hpc as (Hr & Hcl & ->). simplify_eq. split; [auto with sockudo|]. split; [done|].
    destruct (build_projection now request _ _) as [p|] eqn:Hb; [|by destruct caller].
    apply build_from_all in Hb as (? & ? & ?); [|apply Hc]. done.
  - destruct Hpc as (Hr & Hcl & -> & Hkey & -> & Hb). case_bool_decide as Hmax; simplify_eq;
      (split; [auto with sockudo|]); [|done].
    split; [|by destruct caller]. destruct Hc as [Hwf Hc]. split; [by split; apply Hwf|].
    intros key p'. simpl. intros [[<- <-]|[_ Hk]]%lookup_insert_Some; [done|]. by apply Hc.
  - simplify_eq. split; [auto with sockudo|]. done.
  - simplify_eq. apply Forall_cons in Hpc as [Hr Hrs]. split; [auto with sockudo|]. done.
  - simplify_eq. split; [auto with sockudo|]. done.
Qed.

Lemma annotation_step_ok y y' :
  annotation_step call_ok true y y' → system_ok y → system_ok y'.
Proof.
  intros Hstep [Hc Ht]. destruct Hstep as [i call Hi Hok|i t now s pc Hi Hin Hexec|i|]; [..|done].
  - split; [done|]. simpl. intros j t [[<- <-]|[_ Hj]]%lookup_insert_Some; [done|]. by apply (Ht j).
  - destruct (exec_pc_ok now (th_call t) (th_pc t) (sys_state y) s pc) as (Hext & Hc' & Hpc);
      [done|by apply (Ht i)|intros c Hpc; by apply Hin|done|].
    split; [done|]. simpl. intros j t' [[<- <-]|[_ Hj]]%lookup_insert_Some; [done|].
    eapply pc_ok_extends; [done|]. by apply (Ht j).
  - split; [done|]. simpl. intros j t [_ Hj]%lookup_delete_Some. by apply (Ht j).
Qed.

Lemma annotation_reachable_ok y :
  rtc (annotation_step call_ok true) annotation_init y → system_ok y.
Proof.
  revert y. apply rtc_ind_r; [|intros ? ? _ ? ?; by eapply annotation_step_ok].
  split; [|by intros i t Hi]. split; [|by intros key p Hk].
  split. intros key serial r Hr. done.
Qed.

(** ** What calls return *)

Definition answered (pc : AnnotationPc) : option StoredAnnotationProjection :=
  match pc with
  | Done (AnsProjection (Ok p)) => Some p
  | Done (AnsOutcome (Ok o)) => Some (ao_projection o)
  | Done (AnsOption (Ok (Some p))) => Some p
  | _ => None
  end.

Lemma answered_return caller p q :
  answered (return_projection caller p) = Some q →
  p = q ∧ match caller with RetList _ _ _ _ => False | _ => True end.
Proof. destruct caller; naive_solver. Qed.

Lemma answered_error caller e : answered (return_error caller e) = None.
Proof. by destruct caller. Qed.

(** A section that answers a call with a projection has just seen it current. *)
Lemma answer_exact now call pc s s' pc' p :
  cache_ok s → pc_ok s call pc → exec_pc now pc s = (s', pc') → answered pc = None → answered pc' = Some p →
  call_request call = Some (projection_key_of p) ∧
  ∃ now', build_projection now' (projection_key_of p)
            (projection_events s' (request_projection_key (projection_key_of p)))
            default_options = Ok p.
Proof.
  intros Hc Hpc Hexec Hnot Hans.
  destruct pc as [c|request caller|request options caller|request options caller
                 |request options expected q caller|[|request requests] ps n|answer]; simpl in *; unfold exec_get in *.
  - exfalso. destruct c; simpl in Hexec; repeat case_match; by simplify_eq.
  - destruct Hpc as [Hr Hcl]. simplify_eq.
    destruct (projection_request_validate request); [|by rewrite answered_error in Hans].
    unfold cache_section in Hans. destruct (as_projections s' !! _) as [q|] eqn:Hk.
    + case_bool_decide as Hcur; [|done]. apply answered_return in Hans as [-> Hcaller].
      destruct (co_cache _ Hc _ _ Hk) as (Hkey & Hok & Hb).
      apply request_key_inj in Hkey as ->; [|done|done].
      split; [by destruct caller|]. by eapply built_from_current; [apply Hc|..].
    + destruct (projection_max_serial s' _); [done|]. by destruct caller.
  - simplify_eq. destruct (projection_request_validate request); [done|by rewrite answered_error in Hans].
  - simplify_eq. destruct (build_projection _ _ _ _); [done|by rewrite answered_error in Hans].
  - destruct Hpc as (Hr & Hcl & -> & <- & -> & Hb). case_bool_decide as Hmax; simplify_eq/=.
    apply answered_return in Hans as [-> Hcaller]. split; [by destruct caller|].
    apply (built_from_current s); [apply Hc|done|done].
  - by simplify_eq.
  - by simplify_eq.
  - simplify_eq. simpl in Hans. congruence.
Qed.


(** ** Calls return *)

(** A call that runs alone, one section after the other. *)
Fixpoint run_alone (n : nat) now (pc : AnnotationPc) s : MemoryAnnotationState * AnnotationPc :=
  match n with
  | O => (s, pc)
  | S n => let '(s, pc) := exec_pc now pc s in run_alone n now pc s
  end.

Definition settles (n : nat) now (pc : AnnotationPc) s : Prop :=
  ∃ s' answer, run_alone n now pc s = (s', Done answer).

Lemma settles_done n now answer s : settles n now (Done answer) s.
Proof. exists s, answer. induction n as [|n IH]; [done|]. exact IH. Qed.

Lemma settles_step n now pc s :
  settles n now (exec_pc now pc s).2 (exec_pc now pc s).1 → settles (S n) now pc s.
Proof. unfold settles. simpl. by destruct (exec_pc now pc s). Qed.

(** What follows a rebuild or a read for [caller] settles in [n] sections. *)
Definition caller_settles (n : nat) now (caller : Caller) : Prop :=
  ∀ s, (∀ p, settles n now (return_projection caller p) s) ∧ settles n now (return_none caller) s.

Lemma return_error_settles n now caller e s : settles n now (return_error caller e) s.
Proof. destruct caller; apply settles_done. Qed.

Lemma rebuild_settles n now request options caller s :
  caller_settles n now caller → settles (3 + n) now (AtRebuild request options caller) s.
Proof.
  intros Hc. apply settles_step. simpl.
  destruct (projection_request_validate request); [|apply return_error_settles].
  apply settles_step. simpl.
  destruct (build_projection _ _ _ _) as [p|]; [|apply return_error_settles].
  apply settles_step. simpl. rewrite bool_decide_true by done. apply Hc.
Qed.

Lemma get_settles n now request caller s :
  (∀ m, n ≤ m → caller_settles m now caller) → settles (4 + n) now (AtGet request caller) s.
Proof.
  intros Hm. apply settles_step. simpl. unfold exec_get.
  destruct (projection_request_validate request); [|apply return_error_settles].
  destruct (cache_section request s); [apply Hm; lia..|].
  apply rebuild_settles. by apply Hm.
Qed.

Lemma list_settles n now requests projections count s :
  5 * length requests < n → settles n now (AtList requests projections count) s.
Proof.
  revert n projections count s. induction requests as [|request requests IH];
    intros n projections count s Hn; (destruct n as [|n]; [simpl in *; lia|]); apply settles_step; simpl.
  { apply settles_done. }
  simpl in Hn. replace n with (4 + (n - 4)) by lia. apply get_settles.
  intros m Hm s'. split; [intros p|]; apply IH; lia.
Qed.

Definition sections_bound (call : AnnotationCall) s : nat :=
  5 + match call with
      | CallListProjections req =>
          5 * length (channel_requests (apc_app_id req) (apc_channel_id req) s)
      | _ => 0
      end.

(** Every call returns.  In any state, a call that is not interfered with answers
    within five sections, and a listing within five for each projection of the channel
    and five more: a rebuild retries only when another call moved the watermark. *)
Theorem call_returns now call s :
  ∃ s' answer, run_alone (sections_bound call s) now (AtCall call) s = (s', Done answer).
Proof.
  change (settles (sections_bound call s) now (AtCall call) s).
  assert (∀ m caller, (match caller with RetList _ _ _ _ => False | _ => True end) →
            caller_settles m now caller) as Hc
    by (intros m [] Hl s'; try done; split; intros; apply settles_done).
  destruct call as [r|r|request|request options|req]; simpl; apply settles_step; simpl.
  - destruct (stored_event_validate r); [|apply settles_done].
    apply (rebuild_settles 1); by apply Hc.
  - destruct (stored_event_validate r); [|apply settles_done].
    case_decide; [destruct (create_section _ _) as [[]|]; [|apply settles_done]|]; simpl;
      (apply (rebuild_settles 1); by apply Hc).
  - apply (get_settles 0). intros. by apply Hc.
  - apply (rebuild_settles 1); by apply Hc.
  - destruct (channel_projections_validate req); simpl; [|apply settles_done].
    apply list_settles. lia.
Qed.

(** ** Creates take effect once *)

(** Creates come in through [append_create_idempotent] alone. *)
Definition creates_once (call : AnnotationCall) : bool :=
  match call with
  | CallAppend record => bool_decide (an_action (se_annotation record) = AnnDelete)
  | _ => true
  end.

Definition is_create_of (id : string) r : Prop :=
  an_action (se_annotation r) = AnnCreate ∧ an_id (se_annotation r) = id.

Definition unique_creates s : Prop :=
  ∀ key id serial r serial' r', events_at s key !! serial = Some r →
    events_at s key !! serial' = Some r' → is_create_of id r → is_create_of id r' → serial = serial'.

Definition sub_events (m m' : gmap string EventMap) : Prop :=
  ∀ key serial r, default ∅ (m !! key) !! serial = Some r → default ∅ (m' !! key) !! serial = Some r.

Lemma unique_creates_sub s s' :
  sub_events (as_events_by_projection s') (as_events_by_projection s) →
  unique_creates s → unique_creates s'.
Proof. intros Hsub Hu key id serial r serial' r' H1%Hsub H2%Hsub. by eapply Hu. Qed.

Lemma foldl_delete_sub (l : list (string * StoredAnnotationEvent)) events serial r :
  foldl (λ m kv, delete kv.1 m) events l !! serial = Some r → events !! serial = Some r.
Proof.
  revert events. induction l as [|[k x] l IH]; intros events; simpl; [done|].
  by intros [_ ?]%IH%lookup_delete_Some.
Qed.

Lemma purge_scan_sub before_ms batch_size entries acc m :
  (∀ key events, (key, events) ∈ entries → m !! key = Some events) →
  sub_events (pg_events acc) m → sub_events (pg_events (purge_scan before_ms batch_size entries acc)) m.
Proof.
  revert acc. induction entries as [|[key events] entries IH]; intros acc He Hsub; simpl; [done|].
  case_match; [done|]. apply IH; [intros; apply He; by right|]. simpl.
  intros key' serial r. rewrite lookup_insert. case_decide as Hk; [|apply Hsub]. subst key'. simpl.
  rewrite (He key events) by left. apply foldl_delete_sub.
Qed.

Lemma retain_nonempty_sub m : sub_events (retain_nonempty m) m.
Proof.
  intros key serial r. unfold retain_nonempty. rewrite map_lookup_filter.
  destruct (m !! key) as [events|]; simpl; [|done]. case_guard; simpl; [done|].
  by rewrite lookup_empty.
Qed.

Lemma rebuild_all_events now requests s :
  as_events_by_projection (rebuild_all now requests s).1 = as_events_by_projection s.
Proof.
  revert s. induction requests as [|request requests IH]; intros s; simpl; [done|].
  unfold rebuild_projection_from_state. destruct (build_projection _ _ _ _); simpl; [|done].
  by rewrite IH.
Qed.

(** Retention only removes events. *)
Lemma purge_sub now before_ms batch_size s :
  sub_events (as_events_by_projection (purge_annotations now before_ms batch_size s).1)
    (as_events_by_projection s).
Proof.
  unfold purge_annotations. case_match; [by intros key serial r|]. simpl.
  set (scan := purge_scan _ _ _ _). set (s1 := {| as_raw_by_channel := _ |}).
  set (requests := omap _ _).
  assert (sub_events (retain_nonempty (pg_events scan)) (as_events_by_projection s)) as Hsub.
  { intros key serial r Hr%retain_nonempty_sub. revert Hr. apply purge_scan_sub; [|by intros ? ? ?].
    intros k events. apply elem_of_btree_list. }
  pose proof (rebuild_all_events now requests s1) as Heq. simpl in Heq.
  destruct (rebuild_all now requests s1) as [s2 [|]]; simpl in *; by rewrite Heq.
Qed.

Lemma existing_create_spec events id :
  match existing_create events id with
  | Some r => is_create_of id r ∧ ∃ serial, events !! serial = Some r
  | None => ∀ serial r, events !! serial = Some r → ¬ is_create_of id r
  end.
Proof.
  unfold existing_create. destruct (List.find _ _) as [r|] eqn:Hf.
  - apply List.find_some in Hf as [Hin%list_elem_of_In%elem_of_btree_values Hb].
    apply andb_true_iff in Hb as [H1%bool_decide_eq_true H2%bool_decide_eq_true]. done.
  - intros serial r Hr [H1 H2]. eapply List.find_none in Hf; [|apply list_elem_of_In, elem_of_btree_values; eauto].
    simpl in Hf. by rewrite !bool_decide_true in Hf.
Qed.

Lemma unique_creates_append r s :
  an_action (se_annotation r) = AnnDelete → unique_creates s → unique_creates (append_section r s).
Proof.
  intros Hd Hu key id serial r1 serial' r2 H1%append_section_inserts H2%append_section_inserts C1 C2.
  destruct H1 as [H1|(_ & _ & ->)]; [|by destruct C1; congruence].
  destruct H2 as [H2|(_ & _ & ->)]; [|by destruct C2; congruence].
  by eapply Hu.
Qed.

Lemma unique_creates_create r s s' existing :
  create_section r s = Ok (s', existing) → unique_creates s → unique_creates s'.
Proof.
  intros [[-> _]|(_ & Hno & _ & He)]%create_section_state Hu; [done|].
  pose proof (existing_create_spec (events_at s (event_projection_key r)) (an_id (se_annotation r))) as Hspec.
  rewrite Hno in Hspec.
  intros key id serial r1 serial' r2. rewrite !He. case_decide as Hk; [|apply Hu]. subst key.
  intros [[<- <-]|[Hn1 H1]]%lookup_insert_Some [[<- <-]|[Hn2 H2]]%lookup_insert_Some [A1 I1] [A2 I2].
  - done.
  - exfalso. by eapply (Hspec serial' r2); [|split; congruence].
  - exfalso. by eapply (Hspec serial r1); [|split; congruence].
  - by eapply Hu; [exact H1|exact H2|split|split].
Qed.

Definition starts_ok t : Prop := ∀ call, th_pc t = AtCall call → creates_once call = true.

Lemma exec_unique now t s s' pc :
  starts_ok t → unique_creates s → exec_pc now (th_pc t) s = (s', pc) →
  unique_creates s' ∧ ∀ call, pc ≠ AtCall call.
Proof.
  intros Hst Hu Hexec.
  destruct (th_pc t) as [call|request caller|request options caller|request options caller
                 |request options expected p caller|[|request requests] ps n|answer] eqn:Hpc; simpl in Hexec; unfold exec_get in Hexec.
  - specialize (Hst call Hpc). destruct call; simpl in *; repeat case_match; simplify_eq;
      (split; [|done]); try done; try (by eapply unique_creates_create).
    + apply unique_creates_append; [|done]. by apply bool_decide_eq_true in Hst.
    + apply unique_creates_append; [|done]. simpl. by destruct (an_action _).
  - simplify_eq. split; [done|]. intros call. repeat case_match; destruct caller; done.
  - simplify_eq. split; [done|]. intros call. case_match; [done|by destruct caller].
  - simplify_eq. split; [done|]. intros call. case_match; [done|by destruct caller].
  - case_bool_decide; simplify_eq; (split; [done|]); [by destruct caller|done].
  - by simplify_eq.
  - by simplify_eq.
  - by simplify_eq.
Qed.

Lemma unique_reachable y :
  rtc (annotation_step creates_once false) annotation_init y →
  unique_creates (sys_state y) ∧ ∀ i t, sys_calls y !! i = Some t → starts_ok t.
Proof.
  revert y. apply rtc_ind_r.
  { split; [|by intros i t Hi]. intros key id serial r serial' r' Hr. done. }
  intros y y' _ Hstep [Hu Hst].
  destruct Hstep as [i call Hi Hok|i t now s pc Hi _ Hexec|i|now before_ms batch_size s out _ Hp]; simpl.
  - split; [done|]. intros j t [[<- <-]|[_ Hj]]%lookup_insert_Some; [intros c Hc; simpl in Hc; by simplify_eq|by eapply Hst].
  - destruct (exec_unique now t (sys_state y) s pc) as [Hu' Hpc]; [by eapply Hst|done|done|].
    split; [done|]. intros j t' [[<- <-]|[_ Hj]]%lookup_insert_Some; [intros c Hc; by destruct (Hpc c)|by eapply Hst].
  - split; [done|]. intros j t [_ Hj]%lookup_delete_Some. by eapply Hst.
  - split; [|done]. eapply unique_creates_sub; [|exact Hu].
    pose proof (purge_sub now before_ms batch_size (sys_state y)) as Hsub. by rewrite Hp in Hsub.
Qed.

(** C29: a create takes effect once.  If creates come in through the idempotent operation:
    however calls, dropped calls and retention interleave, a projection never holds two
    creates of one annotation; and while it holds one, another create with that annotation
    id leaves the store unchanged, and either is answered with the serial of the stored one
    or refused because its payload differs. *)
Theorem create_exactly_once y record serial r :
  rtc (annotation_step creates_once false) annotation_init y →
  events_at (sys_state y) (event_projection_key record) !! serial = Some r →
  is_create_of (an_id (se_annotation record)) r →
  (∀ serial' r', events_at (sys_state y) (event_projection_key record) !! serial' = Some r' →
     is_create_of (an_id (se_annotation record)) r' → serial' = serial ∧ r' = r) ∧
  create_section record (sys_state y) =
    if same_payload (se_annotation r) (se_annotation record)
    then Ok (sys_state y, Some (se_annotation_serial r))
    else Err (InvalidMessageFormat ("Annotation id '" +:+ an_id (se_annotation record)
                +:+ "' was already used with a different payload")).
Proof.
  intros Hreach Hr Hcr. destruct (unique_reachable y Hreach) as [Hu _].
  assert (∀ serial' r', events_at (sys_state y) (event_projection_key record) !! serial' = Some r' →
            is_create_of (an_id (se_annotation record)) r' → serial' = serial ∧ r' = r) as Huniq.
  { intros serial' r' Hr' Hcr'. assert (serial' = serial) as -> by (by eapply Hu). by simplify_eq. }
  split; [done|]. unfold create_section.
  pose proof (existing_create_spec (events_at (sys_state y) (event_projection_key record))
                (an_id (se_annotation record))) as Hspec.
  destruct (existing_create _ _) as [old|].
  - destruct Hspec as [Hold [serial' Hs']]. destruct (Huniq serial' old Hs' Hold) as [_ ->]. done.
  - by apply Hspec in Hr.
Qed.
End interleaving.
