(* ===== verification/AnnotationRuns.v ===== *)
(** * Runs of the annotation store

    A schedule in which two appends cross and leave a stale projection behind, what a
    clipped rebuild leaves in the cache, and the instances of the theorems of
    [AnnotationThms.v] on a small store. *)

From Stdlib Require Import ZArith Lia.
From stdpp Require Import base gmap strings list sorting pretty.
From S2P Require Import Prelude Errors Messages AnnotationTypes Projection ProjectionThms AnnotationStore AnnotationThms.

(** ** Schedules *)

Section schedules.
Context `{JsonEq}.

Inductive Turn : Type :=
| StartCall (i : nat) (call : AnnotationCall)
| NextSection (i : nat) (now : Z).

(** A turn that is not possible leaves the system as it is. *)
Definition take_turn (allowed : AnnotationCall → bool) (y : AnnotationSystem) (turn : Turn)
    : AnnotationSystem :=
  match turn with
  | StartCall i call =>
      match sys_calls y !! i with
      | None =>
          if allowed call then
            {| sys_state := sys_state y;
               sys_calls := <[i := {| th_call := call; th_pc := AtCall call |}]> (sys_calls y) |}
          else y
      | Some _ => y
      end
  | NextSection i now =>
      match sys_calls y !! i with
      | Some t =>
          let '(s, pc) := exec_pc now (th_pc t) (sys_state y) in
          {| sys_state := s;
             sys_calls := <[i := {| th_call := th_call t; th_pc := pc |}]> (sys_calls y) |}
      | None => y
      end
  end.

Lemma take_turns_rtc allowed turns y :
  rtc (annotation_step allowed false) y (foldl (take_turn allowed) y turns).
Proof.
  revert y. induction turns as [|turn turns IH]; intros y; simpl; [done|].
  etrans; [|apply IH]. clear IH. destruct turn as [i call|i now]; simpl.
  - destruct (sys_calls y !! i) eqn:Hi; [done|]. destruct (allowed call) eqn:Ha; [|done].
    apply rtc_once. by apply ann_start.
  - destruct (sys_calls y !! i) as [t|] eqn:Hi; [|done].
    destruct (exec_pc now (th_pc t) (sys_state y)) as [s pc] eqn:He.
    apply rtc_once. by eapply ann_exec.
Qed.

(** ** Crossed appends *)

Definition flag_record (serial client : string) : StoredAnnotationEvent := {|
  se_app_id := "app"; se_channel_id := "room";
  se_annotation := {|
    an_id := serial; an_action := AnnCreate; an_serial := serial; an_message_serial := "m1";
    an_annotation_type := "reaction:flag.v1"; an_name := None; an_client_id := Some client;
    an_count := None; an_data := None; an_encoding := None; an_timestamp := 0 |};
  se_stored_at_ms := 0 |}.

(** Ann's append has read the events for its rebuild when Bob's, with a smaller serial,
    runs to its end; then Ann's commits. *)
Definition crossed_appends : list Turn :=
  [StartCall 0 (CallAppend (flag_record "s5" "ann"));
   NextSection 0 1; NextSection 0 1; NextSection 0 1;
   StartCall 1 (CallAppend (flag_record "s3" "bob"));
   NextSection 1 2; NextSection 1 2; NextSection 1 2; NextSection 1 2;
   NextSection 0 3].

Definition flag_projection (clients : list string) (now : Z) : StoredAnnotationProjection := {|
  sp_app_id := "app"; sp_channel_id := "room"; sp_message_serial := "m1";
  sp_annotation_type := "reaction:flag.v1";
  sp_summary := SummaryFlag {| is_total := Z.of_nat (length clients); is_client_ids := clients;
                               is_clipped := false |};
  sp_last_annotation_serial := Some "s5"; sp_updated_at_ms := now |}.


(** ** Clipped rebuilds *)

(** A rebuild with a limit on client identifiers leaves its clipped projection in the
    cache, and [get_projection], which rebuilds without a limit, answers with it. *)
Lemma clipped_rebuild_cached now now' request options s p :
  wf_events s → projection_request_validate request = Ok tt →
  build_projection now request (projection_events s (request_projection_key request)) options = Ok p →
  let s' := (run_alone 4 now (AtCall (CallRebuild request options)) s).1 in
  run_alone 2 now' (AtCall (CallGet request)) s' = (s', Done (AnsOption (Ok (Some p)))).
Proof.
  intros Hwf Hv Hb. pose proof (build_last _ _ _ _ _ (projection_serials_sorted s _ Hwf) Hb) as [Hl _].
  cbn [run_alone exec_pc exec_call exec_get]. rewrite Hv. cbn [run_alone exec_pc]. rewrite Hb.
  cbn [run_alone exec_pc]. rewrite bool_decide_true by done. cbn [run_alone exec_pc fst return_projection].
  unfold cache_section. simpl as_projections. rewrite lookup_insert_eq.
  rewrite bool_decide_true; [done|]. rewrite Hl. symmetry. by apply (max_serial_last s).
Qed.
End schedules.

(** ** Instances *)

(** Structural equality of JSON values. *)
Fixpoint json_eqb (a b : Json) {struct a} : bool :=
  match a, b with
  | JNull, JNull => true
  | JBool x, JBool y => Bool.eqb x y
  | JNumber x, JNumber y | JString x, JString y => bool_decide (x = y)
  | JArray xs, JArray ys =>
      (fix go xs ys := match xs, ys with
                       | [], [] => true
                       | x :: xs, y :: ys => json_eqb x y && go xs ys
                       | _, _ => false
                       end) xs ys
  | JObject xs, JObject ys =>
      (fix go xs ys := match xs, ys with
                       | [], [] => true
                       | (k, x) :: xs, (l, y) :: ys => bool_decide (k = l) && json_eqb x y && go xs ys
                       | _, _ => false
                       end) xs ys
  | _, _ => false
  end.

#[local] Instance json_eq : JsonEq := json_eqb.

(** One append, up to the commit of its rebuild. *)
Definition append_call : AnnotationCall := CallAppend (flag_record "s5" "ann").

Definition append_thread (pc : AnnotationPc) : AnnotationThread :=
  {| th_call := append_call; th_pc := pc |}.

Definition after_append : MemoryAnnotationState :=
  append_section (stamp 1 (flag_record "s5" "ann")) empty_annotations.

Definition flag_request : AnnotationProjectionRequest := event_request (flag_record "s5" "ann").

Definition append_sys (s : MemoryAnnotationState) (pc : AnnotationPc) : AnnotationSystem :=
  {| sys_state := s; sys_calls := {[0 := append_thread pc]} |}.

Definition append_commit : AnnotationPc :=
  AtCommit flag_request default_options (Some "s5") (flag_projection ["ann"] 1) RetProjection.

Lemma append_run :
  rtc (annotation_step call_ok true) annotation_init (append_sys after_append append_commit).
Proof.
  eapply rtc_l; [by apply (ann_start call_ok true annotation_init 0 append_call)|].
  eapply rtc_l with (y := append_sys after_append (AtRebuild flag_request default_options RetProjection)).
  { apply (ann_exec call_ok true (append_sys empty_annotations (AtCall append_call)) 0
             (append_thread (AtCall append_call)) 1 after_append
             (AtRebuild flag_request default_options RetProjection)); [done| |vm_compute; reflexivity].
    intros _ call [= <-] serial Hs. exfalso. by destruct Hs. }
  eapply rtc_l with (y := append_sys after_append (AtRead flag_request default_options RetProjection)).
  { apply (ann_exec call_ok true (append_sys after_append (AtRebuild flag_request default_options RetProjection))
             0 (append_thread (AtRebuild flag_request default_options RetProjection)) 1 after_append
             (AtRead flag_request default_options RetProjection)); [done|done|vm_compute; reflexivity]. }
  apply rtc_once.
  apply (ann_exec call_ok true (append_sys after_append (AtRead flag_request default_options RetProjection))
           0 (append_thread (AtRead flag_request default_options RetProjection)) 1 after_append
           append_commit); [done|done|vm_compute; reflexivity].
Qed.


(** One create, stored. *)
Definition created_sys : AnnotationSystem :=
  foldl (take_turn creates_once) annotation_init
    [StartCall 0 (CallCreate (flag_record "s5" "ann")); NextSection 0 1].

Definition stored_flag : StoredAnnotationEvent := stamp 1 (flag_record "s5" "ann").

Lemma created_lookup :
  events_at (sys_state created_sys) (event_projection_key stored_flag) !! "s5" = Some stored_flag.
Proof. vm_compute. reflexivity. Qed.

Lemma create_exactly_once_witness :
  create_section stored_flag (sys_state created_sys) = Ok (sys_state created_sys, Some "s5").
Proof.
  destruct (create_exactly_once created_sys stored_flag "s5" stored_flag) as [_ Hc].
  - apply take_turns_rtc.
  - exact created_lookup.
  - split; reflexivity.
  - exact Hc.
Defined.
