(* ===== verification/PresenceRegistry.v ===== *)
(** * The registry of current presence

    [crates/sockudo-core/src/presence_registry.rs].  A channel state is shared by the
    table of channels of its application and by the connections that use it: it lives in
    a store of reference-counted objects, and the tables hold its location.  The members of
    a client are kept as one record or as a table of several.  The number of members is
    bounded by a budget that is handed out in batches to the shards of a lock table.  Each
    operation is a function on the whole registry; the budget is also modelled with its
    interleavings, in [PresenceCapacity.v]. *)

From Stdlib Require Import ZArith Lia.
From stdpp Require Import base gmap strings list sorting.
From S2P Require Import Prelude Errors Messages.

Definition COORDINATION_SHARDS : Z := 4096.

Record PresenceRecord := {
  pr_connection_id : string;
  pr_client_id : string;
  pr_id : string;
  pr_data : option Json;
  pr_encoding : option string;
  pr_extras : option Json;
  pr_timestamp_ms : Z;
}.

Record PresenceTransition := {
  tr_previous : option PresenceRecord;
  tr_first_for_client : bool;
  tr_last_for_client : bool;
}.

Record PresenceRemoval := {
  rm_channel : string;
  rm_member : PresenceRecord;
  rm_last_for_client : bool;
}.

(** ** The members of one client on one channel *)

Inductive ClientMembers : Type :=
| MembersEmpty
| MembersOne (member : PresenceRecord)
| MembersMany (members : gmap string PresenceRecord).

Record PresenceClientMembers := {
  pcm_capacity_shard : nat;
  pcm_members : ClientMembers;
}.

Implicit Types (member : PresenceRecord) (c : PresenceClientMembers).

Definition client_one member (capacity_shard : nat) : PresenceClientMembers :=
  {| pcm_capacity_shard := capacity_shard; pcm_members := MembersOne member |}.

Definition with_members c (members : ClientMembers) : PresenceClientMembers :=
  {| pcm_capacity_shard := pcm_capacity_shard c; pcm_members := members |}.

Definition client_is_empty c : bool :=
  match pcm_members c with MembersEmpty => true | _ => false end.

Definition client_contains_connection c (connection_id : string) : bool :=
  match pcm_members c with
  | MembersEmpty => false
  | MembersOne member => bool_decide (pr_connection_id member = connection_id)
  | MembersMany members => bool_decide (is_Some (members !! connection_id))
  end.

Definition client_insert c member : PresenceClientMembers * option PresenceRecord :=
  match pcm_members c with
  | MembersEmpty => (with_members c (MembersOne member), None)
  | MembersOne current =>
      if bool_decide (pr_connection_id current = pr_connection_id member)
      then (with_members c (MembersOne member), Some current)
      else (with_members c
              (MembersMany (<[pr_connection_id member := member]>
                              {[pr_connection_id current := current]})), None)
  | MembersMany members =>
      (with_members c (MembersMany (<[pr_connection_id member := member]> members)),
       members !! pr_connection_id member)
  end.

(** The hash table and hash function libraries: the order in which a table is iterated, and
    the hash of application, channel and client. *)
Class Dash := dash_iter : ∀ {A}, gmap string A → list (string * A).
Class AHash := ahash : string * string * string → Z.

Notation PresenceChannelState := (gmap string PresenceClientMembers).

(** [PresenceConnectionState]: the channels a connection uses, by location. *)
Notation PresenceConnectionState := (gmap string nat).

Section registry.
Context `{Dash, AHash}.

Definition client_remove c (connection_id : string)
    : PresenceClientMembers * option PresenceRecord :=
  match pcm_members c with
  | MembersEmpty => (c, None)
  | MembersOne member =>
      if bool_decide (pr_connection_id member = connection_id)
      then (with_members c MembersEmpty, Some member) else (c, None)
  | MembersMany members =>
      let removed := members !! connection_id in
      let members := delete connection_id members in
      (with_members c
         (if (size members =? 1)%nat then
            match dash_iter members with
            | (_, remaining) :: _ => MembersOne remaining
            | [] => MembersEmpty
            end
          else MembersMany members), removed)
  end.

Definition connection_ids_except c (connection_id : string) : list string :=
  match pcm_members c with
  | MembersEmpty => []
  | MembersOne member =>
      if bool_decide (pr_connection_id member ≠ connection_id)
      then [pr_connection_id member] else []
  | MembersMany members => filter (λ candidate, candidate ≠ connection_id) (dash_iter members).*1
  end.

Definition client_records c : list PresenceRecord :=
  match pcm_members c with
  | MembersEmpty => []
  | MembersOne member => [member]
  | MembersMany members => (dash_iter members).*2
  end.

(** ** The registry *)

Record PresenceAppState := {
  pa_connections : gmap string PresenceConnectionState;
  pa_channels : gmap string nat;
}.

Record PresenceCapacityShard := {
  sh_active : Z;
  sh_reserved : Z;
}.

(** The configuration fixed by [PresenceRegistry::new]. *)
Record PresenceLimits := {
  pl_capacity_batch : Z;
  pl_max_members : Z;
  pl_max_cached_channels : Z;
}.

Record PresenceRegistry := {
  rg_apps : gmap string PresenceAppState;
  rg_states : gmap nat PresenceChannelState;
  rg_shards : list PresenceCapacityShard;
  rg_reserved_capacity : Z;
}.

Implicit Types (r : PresenceRegistry) (app : PresenceAppState) (lim : PresenceLimits).
Implicit Types (app_id channel connection_id client_id : string) (l : nat).

Definition presence_limits (max_members : Z) : PresenceLimits :=
  let max_members := Z.max max_members 1 in
  {| pl_capacity_batch := Z.max 1 (Z.min (max_members / COORDINATION_SHARDS) 64);
     pl_max_members := max_members;
     pl_max_cached_channels := Z.min max_members 128 |}.

Definition new_registry : PresenceRegistry := {|
  rg_apps := ∅; rg_states := ∅;
  rg_shards := replicate (Z.to_nat COORDINATION_SHARDS) {| sh_active := 0; sh_reserved := 0 |};
  rg_reserved_capacity := 0;
|}.

Definition new_app : PresenceAppState := {| pa_connections := ∅; pa_channels := ∅ |}.

Definition with_app r app_id app : PresenceRegistry := {|
  rg_apps := <[app_id := app]> (rg_apps r); rg_states := rg_states r;
  rg_shards := rg_shards r; rg_reserved_capacity := rg_reserved_capacity r |}.

Definition with_state r l (clients : PresenceChannelState) : PresenceRegistry := {|
  rg_apps := rg_apps r; rg_states := <[l := clients]> (rg_states r);
  rg_shards := rg_shards r; rg_reserved_capacity := rg_reserved_capacity r |}.

Definition with_capacity r (cap : list PresenceCapacityShard * Z) : PresenceRegistry := {|
  rg_apps := rg_apps r; rg_states := rg_states r;
  rg_shards := cap.1; rg_reserved_capacity := cap.2 |}.

Definition with_connection app connection_id (channels : PresenceConnectionState)
    : PresenceAppState :=
  {| pa_connections := <[connection_id := channels]> (pa_connections app);
     pa_channels := pa_channels app |}.

Definition coordination_shard (hash : Z) : nat :=
  Z.to_nat (Z.land hash (COORDINATION_SHARDS - 1)).

Definition capacity_shard app_id channel client_id : nat :=
  coordination_shard (ahash (app_id, channel, client_id)).

(** ** The budget *)

Definition reclaim_shard (acc : list PresenceCapacityShard * Z) (shard : PresenceCapacityShard)
    : list PresenceCapacityShard * Z :=
  let unused := u64_wrap (sh_reserved shard - sh_active shard) in
  if (unused >? 0)%Z
  then (acc.1 ++ [{| sh_active := sh_active shard; sh_reserved := sh_active shard |}],
        u64_wrap (acc.2 - unused))
  else (acc.1 ++ [shard], acc.2).

Definition reclaim_unused_capacity (cap : list PresenceCapacityShard * Z)
    : list PresenceCapacityShard * Z :=
  foldl reclaim_shard ([], cap.2) cap.1.

(** One attempt of [reserve_member]. *)
Definition try_reserve lim (shard_index : nat) (cap : list PresenceCapacityShard * Z)
    : option (list PresenceCapacityShard * Z) :=
  shard ← cap.1 !! shard_index;
  if (sh_active shard <? sh_reserved shard)%Z then
    Some (<[shard_index := {| sh_active := sh_active shard + 1;
                              sh_reserved := sh_reserved shard |}]> cap.1, cap.2)
  else
    let available := u64_saturating_sub (pl_max_members lim) cap.2 in
    if (available >? 0)%Z then
      let granted := Z.min available (pl_capacity_batch lim) in
      Some (<[shard_index := {| sh_active := sh_active shard + 1;
                                sh_reserved := sh_reserved shard + granted |}]> cap.1,
            (cap.2 + granted)%Z)
    else None.

Definition reserve_member lim (shard_index : nat) (cap : list PresenceCapacityShard * Z)
    : (list PresenceCapacityShard * Z) * result Error unit :=
  match try_reserve lim shard_index cap with
  | Some cap => (cap, Ok tt)
  | None =>
      let cap := reclaim_unused_capacity cap in
      match try_reserve lim shard_index cap with
      | Some cap => (cap, Ok tt)
      | None => (cap, Err OverCapacity)
      end
  end.

Definition release_member lim (shard_index : nat) (cap : list PresenceCapacityShard * Z)
    : list PresenceCapacityShard * Z :=
  match cap.1 !! shard_index with
  | None => cap
  | Some shard =>
      let active := u64_saturating_sub (sh_active shard) 1 in
      if (pl_max_members lim <=? COORDINATION_SHARDS)%Z && (active =? 0)%Z
      then (<[shard_index := {| sh_active := active; sh_reserved := 0 |}]> cap.1,
            u64_wrap (cap.2 - sh_reserved shard))
      else (<[shard_index := {| sh_active := active; sh_reserved := sh_reserved shard |}]> cap.1,
            cap.2)
  end.

Definition capacity_of r : list PresenceCapacityShard * Z := (rg_shards r, rg_reserved_capacity r).

(** ** Connections and channels *)

Definition register_connection app_id connection_id r : PresenceRegistry * bool :=
  let app := default new_app (rg_apps r !! app_id) in
  match pa_connections app !! connection_id with
  | Some _ => (with_app r app_id app, false)
  | None => (with_app r app_id (with_connection app connection_id ∅), true)
  end.

Definition has_connection app_id connection_id r : bool :=
  match rg_apps r !! app_id with
  | Some app => bool_decide (is_Some (pa_connections app !! connection_id))
  | None => false
  end.

Definition state_at r l : PresenceChannelState := default ∅ (rg_states r !! l).

Definition channel_contains_connection (clients : PresenceChannelState) connection_id : bool :=
  existsb (λ kv, client_contains_connection kv.2 connection_id) (dash_iter clients).

Definition connection_has_members app_id connection_id r : bool :=
  match rg_apps r !! app_id with
  | None => false
  | Some app =>
      match pa_connections app !! connection_id with
      | None => false
      | Some channels =>
          existsb (λ kv, channel_contains_connection (state_at r kv.2) connection_id)
            (dash_iter channels)
      end
  end.

(** [Arc::strong_count] of a channel state: its table entry and the connections using it. *)
Definition strong_count app channel l : nat :=
  1 + size (filter (λ kv : string * PresenceConnectionState, kv.2 !! channel = Some l)
              (pa_connections app)).

Definition prunable r app (channel : string) l : bool :=
  (strong_count app channel l =? 1)%nat && bool_decide (state_at r l = ∅).

(** A dropped channel state is freed with its last reference. *)
Definition drop_channel (ra : PresenceRegistry * PresenceAppState) (kv : string * nat)
    : PresenceRegistry * PresenceAppState :=
  ({| rg_apps := rg_apps ra.1; rg_states := delete kv.2 (rg_states ra.1);
      rg_shards := rg_shards ra.1; rg_reserved_capacity := rg_reserved_capacity ra.1 |},
   {| pa_connections := pa_connections ra.2; pa_channels := delete kv.1 (pa_channels ra.2) |}).

Definition prune_empty_channels r app (limit : nat) : PresenceRegistry * PresenceAppState :=
  let candidates :=
    firstn limit (filter (λ kv, prunable r app kv.1 kv.2) (dash_iter (pa_channels app))) in
  foldl (λ ra kv, if prunable ra.1 ra.2 kv.1 kv.2 then drop_channel ra kv else ra)
    (r, app) candidates.

Definition app_channel_state lim r app channel : PresenceRegistry * PresenceAppState * nat :=
  match pa_channels app !! channel with
  | Some l => (r, app, l)
  | None =>
      let '(r, app) :=
        if (Z.of_nat (size (pa_channels app)) >=? pl_max_cached_channels lim)%Z
        then prune_empty_channels r app 16 else (r, app) in
      match pa_channels app !! channel with
      | Some l => (r, app, l)
      | None =>
          let l := fresh (dom (rg_states r)) in
          (with_state r l ∅,
           {| pa_connections := pa_connections app; pa_channels := <[channel := l]> (pa_channels app) |},
           l)
      end
  end.

Definition prune_connection_channels r (channels : PresenceConnectionState) connection_id
    (limit : nat) : PresenceConnectionState :=
  let candidates :=
    firstn limit
      (filter (λ kv, negb (channel_contains_connection (state_at r kv.2) connection_id))
         (dash_iter channels)) in
  foldl (λ channels kv,
           if channel_contains_connection (state_at r kv.2) connection_id then channels
           else delete kv.1 channels) channels candidates.

(** The channel state a member enters, cached by its connection from now on. *)
Definition attach lim r app app_id channel connection_id (channels : PresenceConnectionState)
    : PresenceRegistry * nat :=
  match channels !! channel with
  | Some l => (r, l)
  | None =>
      let channels :=
        if (Z.of_nat (size channels) >=? pl_max_cached_channels lim)%Z
        then prune_connection_channels r channels connection_id 16 else channels in
      let '(r, app, l) :=
        app_channel_state lim r (with_connection app connection_id channels) channel in
      (with_app r app_id (with_connection app connection_id (<[channel := l]> channels)), l)
  end.

(** ** Members *)

(** The entry of a client in a channel state: [apply_present] from the lookup on. *)
Definition present_entry lim app_id channel member r l
    : PresenceRegistry * result Error PresenceTransition :=
  let clients := state_at r l in
  match clients !! pr_client_id member with
  | Some client =>
      let first := client_is_empty client in
      let inserted := negb (client_contains_connection client (pr_connection_id member)) in
      let '(cap, reserved) :=
        if inserted then reserve_member lim (pcm_capacity_shard client) (capacity_of r)
        else (capacity_of r, Ok tt) in
      let r := with_capacity r cap in
      match reserved with
      | Err e => (r, Err e)
      | Ok _ =>
          let '(client, previous) := client_insert client member in
          (with_state r l (<[pr_client_id member := client]> clients),
           Ok {| tr_previous := previous; tr_first_for_client := inserted && first;
                 tr_last_for_client := false |})
      end
  | None =>
      let shard := capacity_shard app_id channel (pr_client_id member) in
      let '(cap, reserved) := reserve_member lim shard (capacity_of r) in
      let r := with_capacity r cap in
      match reserved with
      | Err e => (r, Err e)
      | Ok _ =>
          (with_state r l (<[pr_client_id member := client_one member shard]> clients),
           Ok {| tr_previous := None; tr_first_for_client := true;
                 tr_last_for_client := false |})
      end
  end.

Definition apply_present lim app_id channel member r : PresenceRegistry * result Error PresenceTransition :=
  match rg_apps r !! app_id with
  | None => (r, Err ConnectionNotFound)
  | Some app =>
      match pa_connections app !! pr_connection_id member with
      | None => (r, Err ConnectionNotFound)
      | Some channels =>
          let '(r, l) := attach lim r app app_id channel (pr_connection_id member) channels in
          present_entry lim app_id channel member r l
      end
  end.

Definition presence_enter := apply_present.

Definition presence_update := apply_present.

Definition leave_from_channel lim l connection_id client_id r
    : PresenceRegistry * option PresenceTransition :=
  let clients := state_at r l in
  match clients !! client_id with
  | None => (r, None)
  | Some client =>
      let '(client', previous) := client_remove client connection_id in
      match previous with
      | None => (with_state r l (<[client_id := client']> clients), None)
      | Some _ =>
          let last_for_client := client_is_empty client' in
          let r := with_state r l (if last_for_client then delete client_id clients
                                   else <[client_id := client']> clients) in
          (with_capacity r (release_member lim (pcm_capacity_shard client) (capacity_of r)),
           Some {| tr_previous := previous; tr_first_for_client := false;
                   tr_last_for_client := last_for_client |})
      end
  end.

(** The location of a channel a connection uses. *)
Definition connection_channel app_id channel connection_id r : option nat :=
  app ← rg_apps r !! app_id; channels ← pa_connections app !! connection_id; channels !! channel.

Definition presence_leave lim app_id channel connection_id client_id r
    : PresenceRegistry * option PresenceTransition :=
  match connection_channel app_id channel connection_id r with
  | None => (r, None)
  | Some l => leave_from_channel lim l connection_id client_id r
  end.

(** The removals of a sequence of leaves, each of a channel and a client, on the channel
    states that [channels] names. *)
Definition removal channel (transition : option PresenceTransition) : list PresenceRemoval :=
  match transition with
  | Some {| tr_previous := Some member; tr_last_for_client := last |} =>
      [{| rm_channel := channel; rm_member := member; rm_last_for_client := last |}]
  | _ => []
  end.

Fixpoint leave_each lim connection_id (channels : PresenceConnectionState)
    (owned : list (string * string)) r : PresenceRegistry * list PresenceRemoval :=
  match owned with
  | [] => (r, [])
  | (channel, client_id) :: owned =>
      let '(r, removed) :=
        match channels !! channel with
        | Some l =>
            let '(r, transition) := leave_from_channel lim l connection_id client_id r in
            (r, removal channel transition)
        | None => (r, [])
        end in
      let '(r, removals) := leave_each lim connection_id channels owned r in
      (r, removed ++ removals)
  end.

(** The clients of a channel state that a connection owns. *)
Definition owned_clients (clients : PresenceChannelState) connection_id : list string :=
  (filter (λ kv, client_contains_connection kv.2 connection_id) (dash_iter clients)).*1.

Definition unregister_connection lim app_id connection_id r
    : PresenceRegistry * list PresenceRemoval :=
  match rg_apps r !! app_id with
  | None => (r, [])
  | Some app =>
      match pa_connections app !! connection_id with
      | None => (r, [])
      | Some channels =>
          let owned :=
            stable_sort key_le
              (dash_iter channels ≫= λ kv,
                 pair kv.1 <$> owned_clients (state_at r kv.2) connection_id) in
          let '(r, removals) := leave_each lim connection_id channels owned r in
          (with_app r app_id {| pa_connections := delete connection_id (pa_connections app);
                                pa_channels := pa_channels app |}, removals)
      end
  end.

Definition detach_connection lim app_id channel connection_id r
    : PresenceRegistry * list PresenceRemoval :=
  match rg_apps r !! app_id with
  | None => (r, [])
  | Some app =>
      match pa_connections app !! connection_id with
      | None => (r, [])
      | Some channels =>
          match channels !! channel with
          | None => (r, [])
          | Some l =>
              let client_ids := stable_sort key_le (owned_clients (state_at r l) connection_id) in
              let '(r, removals) :=
                leave_each lim connection_id channels (pair channel <$> client_ids) r in
              (with_app r app_id (with_connection app connection_id (delete channel channels)),
               removals)
          end
      end
  end.

Fixpoint leave_connections lim app_id channel client_id (connections : list string) r
    : PresenceRegistry * list PresenceRemoval :=
  match connections with
  | [] => (r, [])
  | connection_id :: connections =>
      let '(r, transition) := presence_leave lim app_id channel connection_id client_id r in
      let '(r, removals) := leave_connections lim app_id channel client_id connections r in
      (r, removal channel transition ++ removals)
  end.

Definition remove_client_except lim app_id channel client_id connection_id r
    : PresenceRegistry * list PresenceRemoval :=
  match rg_apps r !! app_id with
  | None => (r, [])
  | Some app =>
      match pa_channels app !! channel with
      | None => (r, [])
      | Some l =>
          let connections :=
            match state_at r l !! client_id with
            | Some client => connection_ids_except client connection_id
            | None => []
            end in
          leave_connections lim app_id channel client_id (stable_sort key_le connections) r
      end
  end.

(** ** Reads *)

Definition record_key member : string * string := (pr_connection_id member, pr_client_id member).

Definition record_le (x y : PresenceRecord) : Prop := key_le (record_key x) (record_key y).

#[export] Instance record_le_dec : RelDecision record_le.
Proof. intros x y. unfold record_le. apply _. Defined.

Definition snapshot app_id channel r : list PresenceRecord :=
  match rg_apps r !! app_id with
  | None => []
  | Some app =>
      match pa_channels app !! channel with
      | None => []
      | Some l =>
          stable_sort record_le (dash_iter (state_at r l) ≫= λ kv, client_records kv.2)
      end
  end.

Definition member_count r : Z := foldr (λ shard n, (sh_active shard + n)%Z) 0%Z (rg_shards r).

End registry.
