(* ===== verification/PresenceRoster.v ===== *)
(** * What the presence registry promises

    The abstract roster: the registered connections and one flat table of members.  The
    operations of the registry are specified on it, and the budget of
    [PresenceRegistry.v] is shown to count its members exactly. *)

From Stdlib Require Import ZArith Lia.
From stdpp Require Import base gmap strings list sorting.
From S2P Require Import Prelude Errors Messages PresenceRegistry.

(** Application, channel, client and connection. *)
Notation member_key := (string * string * string * string)%type.

Record Roster := {
  ro_connections : gset (string * string);
  ro_members : gmap member_key PresenceRecord;
}.

Implicit Types (A : Roster) (M : gmap member_key PresenceRecord) (member : PresenceRecord).
Implicit Types (app_id channel connection_id client_id : string) (lim : PresenceLimits).

Definition empty_roster : Roster := {| ro_connections := ∅; ro_members := ∅ |}.

(** No other connection holds a member for the client. *)
Definition sole_member M app_id channel client_id connection_id : bool :=
  bool_decide (filter (λ kv : member_key * PresenceRecord,
                         kv.1.1 = (app_id, channel, client_id) ∧ kv.1.2 ≠ connection_id) M = ∅).

Definition roster_register app_id connection_id A : Roster * bool :=
  ({| ro_connections := {[(app_id, connection_id)]} ∪ ro_connections A;
      ro_members := ro_members A |},
   bool_decide ((app_id, connection_id) ∉ ro_connections A)).

(** A registered connection enters: a new member is refused
    when the roster is full. *)
Definition roster_present (max_members : Z) app_id channel member A
    : Roster * result Error PresenceTransition :=
  let M := ro_members A in
  let k := (app_id, channel, pr_client_id member, pr_connection_id member) in
  if bool_decide (M !! k = None) && (max_members <=? Z.of_nat (size M))%Z
  then (A, Err OverCapacity)
  else ({| ro_connections := ro_connections A; ro_members := <[k := member]> M |},
        Ok {| tr_previous := M !! k;
              tr_first_for_client := bool_decide (M !! k = None)
                && sole_member M app_id channel (pr_client_id member) (pr_connection_id member);
              tr_last_for_client := false |}).

Definition roster_enter (max_members : Z) app_id channel member A
    : Roster * result Error PresenceTransition :=
  if bool_decide ((app_id, pr_connection_id member) ∉ ro_connections A)
  then (A, Err ConnectionNotFound) else roster_present max_members app_id channel member A.

Definition roster_leave app_id channel connection_id client_id A
    : Roster * option PresenceTransition :=
  let M := ro_members A in
  let k := (app_id, channel, client_id, connection_id) in
  match M !! k with
  | None => (A, None)
  | Some member =>
      ({| ro_connections := ro_connections A; ro_members := delete k M |},
       Some {| tr_previous := Some member; tr_first_for_client := false;
               tr_last_for_client := sole_member M app_id channel client_id connection_id |})
  end.

(** Leaves of the members with the given keys, in that order. *)
Fixpoint roster_leave_each app_id (keys : list (string * string * string)) A
    : Roster * list PresenceRemoval :=
  match keys with
  | [] => (A, [])
  | (channel, client_id, connection_id) :: keys =>
      let '(A, transition) := roster_leave app_id channel connection_id client_id A in
      let '(A, removals) := roster_leave_each app_id keys A in
      (A, removal channel transition ++ removals)
  end.

(** The members that a selection keeps, in no particular order. *)
Definition roster_select {B} (f : member_key → PresenceRecord → option B) M : list B :=
  omap (λ kv, f kv.1 kv.2) (map_to_list M).

(** The channel and client of every member of a connection. *)
Definition roster_owned app_id connection_id M : list (string * string) :=
  roster_select (λ '(a, channel, client_id, c) _,
    if bool_decide (a = app_id ∧ c = connection_id) then Some (channel, client_id) else None) M.

Definition roster_unregister app_id connection_id A : Roster * list PresenceRemoval :=
  let owned := stable_sort key_le (roster_owned app_id connection_id (ro_members A)) in
  let '(A, removals) :=
    roster_leave_each app_id ((λ o, (o.1, o.2, connection_id)) <$> owned) A in
  ({| ro_connections := ro_connections A ∖ {[(app_id, connection_id)]};
      ro_members := ro_members A |}, removals).

Definition roster_detach app_id channel connection_id A : Roster * list PresenceRemoval :=
  let client_ids := stable_sort key_le
    (roster_select (λ '(a, ch, client_id, c) _,
       if bool_decide (a = app_id ∧ ch = channel ∧ c = connection_id)
       then Some client_id else None) (ro_members A)) in
  roster_leave_each app_id ((λ client_id, (channel, client_id, connection_id)) <$> client_ids) A.

Definition roster_remove_except app_id channel client_id connection_id A
    : Roster * list PresenceRemoval :=
  let connections := stable_sort key_le
    (roster_select (λ '(a, ch, client, c) _,
       if bool_decide (a = app_id ∧ ch = channel ∧ client = client_id ∧ c ≠ connection_id)
       then Some c else None) (ro_members A)) in
  roster_leave_each app_id ((λ c, (channel, client_id, c)) <$> connections) A.

Definition roster_snapshot app_id channel A : list PresenceRecord :=
  stable_sort record_le
    (roster_select (λ '(a, ch, _, _) member,
       if bool_decide (a = app_id ∧ ch = channel) then Some member else None) (ro_members A)).

(** ** The budget counts the members *)

Definition sumZ {T} (f : T → Z) (l : list T) : Z := foldr (λ x n, (f x + n)%Z) 0%Z l.

Lemma sumZ_insert {T} (f : T → Z) (l : list T) i x y :
  l !! i = Some x → sumZ f (<[i := y]> l) = (sumZ f l - f x + f y)%Z.
Proof.
  revert i. induction l as [|z l IH]; intros [|i] Hi; simplify_eq/=; [lia|].
  rewrite (IH _ Hi). lia.
Qed.

Lemma sumZ_app {T} (f : T → Z) (l k : list T) : sumZ f (l ++ k) = (sumZ f l + sumZ f k)%Z.
Proof. induction l as [|x l IH]; simpl; [lia|]. rewrite IH. lia. Qed.

Lemma sumZ_le {T} (f g : T → Z) (l : list T) :
  Forall (λ x, f x ≤ g x)%Z l → (sumZ f l ≤ sumZ g l)%Z.
Proof. induction 1; simpl; lia. Qed.

Lemma sumZ_lt {T} (f g : T → Z) (l : list T) i x :
  Forall (λ x, f x ≤ g x)%Z l → l !! i = Some x → (f x < g x)%Z → (sumZ f l < sumZ g l)%Z.
Proof.
  intros Hall. revert i. induction Hall as [|z l Hz Hl IH]; intros [|i] Hi Hx; simplify_eq/=.
  - apply sumZ_le in Hl. lia.
  - specialize (IH _ Hi Hx). lia.
Qed.

Section budget.
Context `{AHash}.

Definition key_shard (k : member_key) : nat :=
  let '(app_id, channel, client_id, _) := k in capacity_shard app_id channel client_id.

Definition shard_members (i : nat) M : Z :=
  Z.of_nat (size (filter (λ kv : member_key * PresenceRecord, key_shard kv.1 = i) M)).

Record lim_wf lim : Prop := {
  lw_batch : (1 ≤ pl_capacity_batch lim)%Z;
  lw_max : (1 ≤ pl_max_members lim ≤ u64_max)%Z;
}.

Lemma presence_limits_wf max : (0 ≤ max ≤ u64_max)%Z → lim_wf (presence_limits max).
Proof. intros ?. split; unfold presence_limits; simpl; unfold u64_max, COORDINATION_SHARDS in *; lia. Qed.

Record cap_wf lim (cap : list PresenceCapacityShard * Z) M : Prop := {
  cw_length : length cap.1 = Z.to_nat COORDINATION_SHARDS;
  cw_active : ∀ i sh, cap.1 !! i = Some sh → sh_active sh = shard_members i M;
  cw_le : Forall (λ sh, sh_active sh ≤ sh_reserved sh)%Z cap.1;
  cw_sum : sumZ sh_reserved cap.1 = cap.2;
  cw_max : (cap.2 ≤ pl_max_members lim)%Z;
}.

Lemma shard_members_insert_fresh i M k member :
  M !! k = None →
  shard_members i (<[k := member]> M)
  = (shard_members i M + (if decide (key_shard k = i) then 1 else 0))%Z.
Proof.
  intros Hk. unfold shard_members. destruct (decide _) as [Hi|Hi].
  - rewrite map_filter_insert_True by done.
    rewrite map_size_insert_None; [lia|]. apply map_lookup_filter_None. by left.
  - rewrite map_filter_insert_False, delete_id by done. lia.
Qed.

Lemma shard_members_replace i M k member old :
  M !! k = Some old → shard_members i (<[k := member]> M) = shard_members i M.
Proof.
  intros Hk. unfold shard_members. destruct (decide (key_shard k = i)) as [Hi|Hi].
  - rewrite map_filter_insert_True by done.
    rewrite map_size_insert_Some; [done|]. exists old. by apply map_lookup_filter_Some.
  - rewrite map_filter_insert_False by done. rewrite map_filter_delete, delete_id; [done|].
    apply map_lookup_filter_None. right. intros ??. simpl. congruence.
Qed.

Lemma shard_members_delete i M k old :
  M !! k = Some old →
  shard_members i (delete k M)
  = (shard_members i M - (if decide (key_shard k = i) then 1 else 0))%Z.
Proof.
  intros Hk. rewrite <- (insert_delete_id _ _ _ Hk) at 2.
  rewrite shard_members_insert_fresh by apply lookup_delete_eq. lia.
Qed.

Lemma key_shard_lt k : key_shard k < Z.to_nat COORDINATION_SHARDS.
Proof.
  destruct k as [[[a ch] cl] c]. simpl. unfold capacity_shard, coordination_shard.
  change (COORDINATION_SHARDS - 1)%Z with (Z.ones 12).
  rewrite Z.land_ones by lia. unfold COORDINATION_SHARDS.
  pose proof (Z.mod_pos_bound (ahash (a, ch, cl)) (2 ^ 12)). lia.
Qed.

(** The shards together hold every member. *)
Lemma sum_active (l : list PresenceCapacityShard) M :
  length l = Z.to_nat COORDINATION_SHARDS →
  (∀ i sh, l !! i = Some sh → sh_active sh = shard_members i M) →
  sumZ sh_active l = Z.of_nat (size M).
Proof.
  revert l. induction M as [|k m M Hk IH] using map_ind; intros l Hlen Hact.
  - rewrite map_size_empty. clear Hlen. revert Hact.
    assert (∀ i, shard_members i ∅ = 0%Z) as H0.
    { intros i. unfold shard_members. by rewrite map_filter_empty, map_size_empty. }
    induction l as [|sh l IH]; intros Hact; simpl; [done|].
    rewrite IH; [|intros i x Hx; rewrite H0; rewrite <- (H0 (S i)); by apply Hact].
    rewrite (Hact 0 sh), H0 by done. lia.
  - pose proof (key_shard_lt k) as Hlt. rewrite <- Hlen in Hlt.
    destruct (lookup_lt_is_Some_2 _ _ Hlt) as [sh Hsh].
    rewrite map_size_insert_None by done.
    pose (sh' := {| sh_active := sh_active sh - 1; sh_reserved := sh_reserved sh |}).
    assert (sumZ sh_active (<[key_shard k := sh']> l) = Z.of_nat (size M)) as HM.
    { apply IH; [by rewrite length_insert|]. intros i x Hx.
      destruct (decide (key_shard k = i)) as [<-|Hne].
      - rewrite list_lookup_insert_eq in Hx by done. simplify_eq. simpl.
        rewrite (Hact _ _ Hsh), shard_members_insert_fresh by done.
        rewrite decide_True by done. lia.
      - rewrite list_lookup_insert_ne in Hx by done. rewrite (Hact _ _ Hx).
        rewrite shard_members_insert_fresh, decide_False by done. lia. }
    rewrite (sumZ_insert _ _ _ _ _ Hsh) in HM. simpl in HM. lia.
Qed.

Lemma active_nonneg lim cap M i sh :
  cap_wf lim cap M → cap.1 !! i = Some sh → (0 ≤ sh_active sh ≤ sh_reserved sh)%Z.
Proof.
  intros Hc Hi. rewrite (cw_active _ _ _ Hc _ _ Hi) at 1.
  pose proof (proj1 (Forall_lookup _ _) (cw_le _ _ _ Hc) _ _ Hi). unfold shard_members in *. lia.
Qed.

Lemma active_forall lim cap M :
  cap_wf lim cap M → Forall (λ sh, 0 ≤ sh_active sh ≤ sh_reserved sh)%Z cap.1.
Proof. intros Hc. apply Forall_lookup. intros i sh. by eapply active_nonneg. Qed.

Lemma sumZ_nonneg {T} (f : T → Z) (l : list T) : Forall (λ x, 0 ≤ f x)%Z l → (0 ≤ sumZ f l)%Z.
Proof. induction 1; simpl; lia. Qed.

Lemma sumZ_member {T} (f : T → Z) (l : list T) i x :
  Forall (λ x, 0 ≤ f x)%Z l → l !! i = Some x → (f x ≤ sumZ f l)%Z.
Proof.
  intros Hl. revert i. induction Hl as [|y l Hy Hl IH]; intros [|i] Hi; simplify_eq/=.
  - apply sumZ_nonneg in Hl. lia.
  - specialize (IH _ Hi). lia.
Qed.

(** The totals of a well-formed budget. *)
Lemma cap_totals lim cap M :
  cap_wf lim cap M →
  sumZ sh_active cap.1 = Z.of_nat (size M) ∧ (Z.of_nat (size M) ≤ cap.2)%Z.
Proof.
  intros Hc. assert (sumZ sh_active cap.1 = Z.of_nat (size M)) as Heq.
  { apply sum_active; [apply Hc|intros i sh; apply Hc]. }
  split; [done|]. rewrite <- Heq, <- (cw_sum _ _ _ Hc). apply sumZ_le, Hc.
Qed.

Definition reclaimed (sh : PresenceCapacityShard) : PresenceCapacityShard :=
  {| sh_active := sh_active sh; sh_reserved := sh_active sh |}.

(** Reclaiming leaves every shard the budget of its members. *)
Lemma reclaim_spec l n :
  Forall (λ sh, 0 ≤ sh_active sh ≤ sh_reserved sh)%Z l →
  (sumZ sh_reserved l ≤ n ≤ u64_max)%Z →
  reclaim_unused_capacity (l, n)
  = (reclaimed <$> l, (n - sumZ sh_reserved l + sumZ sh_active l)%Z).
Proof.
  unfold reclaim_unused_capacity. cbn [fst snd].
  change (fmap reclaimed l) with ([] ++ fmap reclaimed l).
  generalize (@nil PresenceCapacityShard) as d. revert n.
  induction l as [|sh l IH]; intros n d Hl Hn; simpl in *.
  - rewrite app_nil_r. f_equal. lia.
  - apply Forall_cons in Hl as [Hsh Hl].
    assert (0 ≤ sumZ sh_reserved l)%Z.
    { apply sumZ_nonneg. eapply Forall_impl; [exact Hl|]. simpl. lia. }
    unfold reclaim_shard at 2. cbn [fst snd]. rewrite u64_wrap_id by u64_lia.
    destruct (Z.gtb_spec (sh_reserved sh - sh_active sh) 0).
    + rewrite u64_wrap_id by u64_lia. rewrite IH by (done || lia). simpl.
      rewrite <- app_assoc. f_equal. lia.
    + rewrite IH by (done || lia). rewrite <- app_assoc. simpl. f_equal; [|lia].
      do 2 f_equal. destruct sh as [a s]; unfold reclaimed; simpl in *. f_equal. lia.
Qed.

Lemma sumZ_reclaimed l : sumZ sh_reserved (reclaimed <$> l) = sumZ sh_active l.
Proof. induction l as [|sh l IH]; csimpl; [done|]. by rewrite IH. Qed.

Lemma reclaim_wf lim cap M :
  lim_wf lim → cap_wf lim cap M →
  cap_wf lim (reclaim_unused_capacity cap) M
  ∧ (reclaim_unused_capacity cap).2 = Z.of_nat (size M).
Proof.
  intros Hl Hc. destruct (cap_totals _ _ _ Hc) as [Hact Hle].
  pose proof (active_forall _ _ _ Hc) as Hall. destruct Hc as [Hlen Ha Hcle Hs Hm], Hl.
  destruct cap as [l n]; simpl in *. rewrite reclaim_spec by (done || lia). simpl.
  split; [split; simpl|lia].
  - by rewrite length_fmap.
  - intros i sh. rewrite list_lookup_fmap. intros (sh0 & Hi & ->)%fmap_Some. simpl. by apply Ha.
  - apply Forall_fmap. eapply Forall_impl; [exact Hall|]. simpl. lia.
  - rewrite sumZ_reclaimed. lia.
  - lia.
Qed.

(** An attempt that succeeds makes room for one more member of the shard. *)
Lemma try_reserve_wf lim k member cap cap' M :
  lim_wf lim → cap_wf lim cap M → M !! k = None →
  try_reserve lim (key_shard k) cap = Some cap' → cap_wf lim cap' (<[k := member]> M).
Proof.
  intros Hl Hc Hk. destruct cap as [l n]. unfold try_reserve. simpl.
  destruct (l !! key_shard k) as [sh|] eqn:Hsh; [|done]. simpl.
  pose proof (active_nonneg _ _ _ _ _ Hc Hsh) as Hb. destruct Hc as [Hlen Ha Hcle Hs Hm], Hl.
  simpl in *.
  assert (∀ s' n', (sh_active sh + 1 ≤ s')%Z → (n' = n + (s' - sh_reserved sh))%Z →
    (n' ≤ pl_max_members lim)%Z →
    cap_wf lim (<[key_shard k := {| sh_active := sh_active sh + 1; sh_reserved := s' |}]> l, n')
      (<[k := member]> M)) as Hgo.
  { intros s' n' H1 H2 H3. split; simpl.
    - by rewrite length_insert.
    - intros i x Hx. rewrite shard_members_insert_fresh by done.
      destruct (decide (key_shard k = i)) as [<-|Hne].
      + rewrite list_lookup_insert_eq in Hx by (by eapply lookup_lt_Some). simplify_eq. simpl.
        by rewrite (Ha _ _ Hsh).
      + rewrite list_lookup_insert_ne in Hx by done. rewrite (Ha _ _ Hx). lia.
    - by apply Forall_insert.
    - rewrite (sumZ_insert _ _ _ _ _ Hsh). simpl. lia.
    - done. }
  unfold u64_saturating_sub.
  destruct (Z.ltb_spec (sh_active sh) (sh_reserved sh)).
  { intros [= <-]. apply Hgo; lia. }
  destruct (Z.gtb_spec (Z.max (pl_max_members lim - n) 0) 0); [|done].
  intros [= <-]. apply Hgo; lia.
Qed.

Lemma try_reserve_fails lim k cap M :
  lim_wf lim → cap_wf lim cap M → try_reserve lim (key_shard k) cap = None →
  cap.2 = pl_max_members lim.
Proof.
  intros Hl Hc. unfold try_reserve. pose proof (key_shard_lt k) as Hlt.
  rewrite <- (cw_length _ _ _ Hc) in Hlt. apply lookup_lt_is_Some in Hlt as [sh ->]. simpl.
  destruct (sh_active sh <? sh_reserved sh)%Z; [done|]. unfold u64_saturating_sub.
  destruct (Z.gtb_spec (Z.max (pl_max_members lim - cap.2) 0) 0); [done|].
  pose proof (cw_max _ _ _ Hc). lia.
Qed.

Lemma try_reserve_room lim k cap cap' M :
  lim_wf lim → cap_wf lim cap M → M !! k = None →
  try_reserve lim (key_shard k) cap = Some cap' → (Z.of_nat (size M) < pl_max_members lim)%Z.
Proof.
  intros Hl Hc Hk Ht. pose (member := {| pr_connection_id := ""; pr_client_id := ""; pr_id := "";
    pr_data := None; pr_encoding := None; pr_extras := None; pr_timestamp_ms := 0 |}).
  pose proof (try_reserve_wf _ _ member _ _ _ Hl Hc Hk Ht) as Hc'.
  destruct (cap_totals _ _ _ Hc') as [_ Hle]. rewrite map_size_insert_None in Hle by done.
  pose proof (cw_max _ _ _ Hc'). lia.
Qed.

(** A reservation is refused exactly when the registry is full, whatever shard the unused
    budget is parked on. *)
Lemma reserve_member_spec lim k member cap M :
  lim_wf lim → cap_wf lim cap M → M !! k = None →
  if decide (Z.of_nat (size M) < pl_max_members lim)%Z
  then ∃ cap', reserve_member lim (key_shard k) cap = (cap', Ok tt)
               ∧ cap_wf lim cap' (<[k := member]> M)
  else ∃ cap', reserve_member lim (key_shard k) cap = (cap', Err OverCapacity)
               ∧ cap_wf lim cap' M.
Proof.
  intros Hl Hc Hk. unfold reserve_member.
  destruct (try_reserve lim (key_shard k) cap) as [cap1|] eqn:Ht.
  { pose proof (try_reserve_room _ _ _ _ _ Hl Hc Hk Ht). rewrite decide_True by done.
    eauto using try_reserve_wf. }
  destruct (reclaim_wf _ _ _ Hl Hc) as [Hc' Hn].
  destruct (try_reserve lim (key_shard k) (reclaim_unused_capacity cap)) as [cap2|] eqn:Ht2.
  { pose proof (try_reserve_room _ _ _ _ _ Hl Hc' Hk Ht2). rewrite decide_True by done.
    eauto using try_reserve_wf. }
  pose proof (try_reserve_fails _ _ _ _ Hl Hc' Ht2). rewrite decide_False by lia. eauto.
Qed.

Lemma release_member_wf lim k old cap M :
  lim_wf lim → cap_wf lim cap M → M !! k = Some old →
  cap_wf lim (release_member lim (key_shard k) cap) (delete k M).
Proof.
  intros Hl Hc Hk. pose proof (key_shard_lt k) as Hlt.
  rewrite <- (cw_length _ _ _ Hc) in Hlt. apply lookup_lt_is_Some in Hlt as [sh Hsh].
  unfold release_member. rewrite Hsh. pose proof (active_nonneg _ _ _ _ _ Hc Hsh) as Hb.
  assert (1 ≤ sh_active sh)%Z.
  { rewrite (cw_active _ _ _ Hc _ _ Hsh).
    rewrite <- (insert_delete_id _ _ _ Hk), shard_members_insert_fresh by apply lookup_delete_eq.
    rewrite decide_True by done. unfold shard_members. lia. }
  assert (sh_reserved sh ≤ cap.2)%Z.
  { rewrite <- (cw_sum _ _ _ Hc). eapply sumZ_member; [|exact Hsh].
    eapply Forall_impl; [by eapply active_forall|]. simpl. lia. }
  destruct Hc as [Hlen Ha Hcle Hs Hm], Hl. unfold u64_saturating_sub. rewrite Z.max_l by lia.
  assert (∀ s', (sh_active sh - 1 ≤ s' ≤ sh_reserved sh)%Z →
    cap_wf lim (<[key_shard k := {| sh_active := sh_active sh - 1; sh_reserved := s' |}]> cap.1,
      (cap.2 - (sh_reserved sh - s'))%Z) (delete k M)) as Hgo.
  { intros s' Hs'. split; simpl.
    - by rewrite length_insert.
    - intros i x Hx. rewrite (shard_members_delete _ _ _ _ Hk).
      destruct (decide (key_shard k = i)) as [<-|Hne].
      + rewrite list_lookup_insert_eq in Hx by (by eapply lookup_lt_Some). simplify_eq. simpl.
        by rewrite (Ha _ _ Hsh).
      + rewrite list_lookup_insert_ne in Hx by done. rewrite (Ha _ _ Hx). lia.
    - apply Forall_insert; [done|]. simpl. lia.
    - rewrite (sumZ_insert _ _ _ _ _ Hsh). simpl. lia.
    - lia. }
  destruct (_ && _) eqn:Hb2.
  - apply andb_prop in Hb2 as [_ ?%Z.eqb_eq]. rewrite u64_wrap_id by u64_lia.
    specialize (Hgo 0%Z). rewrite Z.sub_0_r in Hgo. apply Hgo. lia.
  - specialize (Hgo (sh_reserved sh)). rewrite Z.sub_diag, Z.sub_0_r in Hgo. apply Hgo. lia.
Qed.

Lemma replace_wf lim k old member cap M :
  cap_wf lim cap M → M !! k = Some old → cap_wf lim cap (<[k := member]> M).
Proof.
  intros [Hlen Ha Hcle Hs Hm] Hk. split; try done.
  intros i sh Hi. rewrite (shard_members_replace _ _ _ _ _ Hk). by apply Ha.
Qed.

End budget.
