(* ===== verification/PresenceSim.v ===== *)
(** * The presence registry implements the roster: the simulation relation

    The relation between a registry and a roster, the behaviour of the members of one
    client, and the steps that change only how channel states are shared: attaching a
    connection to a channel, and pruning. *)

From Stdlib Require Import ZArith Lia.
From stdpp Require Import base gmap strings list sorting.
From S2P Require Import Prelude Errors Messages PresenceRegistry PresenceRoster.

(** Iterating a table yields its entries, in some order. *)
Class DashLaws `{Dash} : Prop :=
  dash_iter_perm : ∀ {A} (m : gmap string A), dash_iter m ≡ₚ map_to_list m.

Lemma foldl_inv {A B} (P : A → Prop) (f : A → B → A) (l : list B) a :
  (∀ a x, x ∈ l → P a → P (f a x)) → P a → P (foldl f a l).
Proof.
  revert a. induction l as [|x l IH]; intros a Hf Ha; simpl; [done|].
  apply IH; [intros; apply Hf; [by right|done]|]. apply Hf; [by left|done].
Qed.

Lemma NoDup_fmap_fst_filter {A B} (P : A * B → Prop) `{∀ x, Decision (P x)} (l : list (A * B)) :
  NoDup l.*1 → NoDup (filter P l).*1.
Proof.
  induction l as [|x l IH]; [done|]. rewrite fmap_cons, NoDup_cons. intros [Hx Hl].
  rewrite filter_cons. case_decide; [|by apply IH]. csimpl. apply NoDup_cons. split; [|by apply IH].
  intros (y & Hy & [_ Hin]%list_elem_of_filter)%list_elem_of_fmap. apply Hx.
  rewrite Hy. by apply list_elem_of_fmap_2.
Qed.

Lemma map_size_1_inv `{Countable K} {A} (m : gmap K A) : size m = 1 → ∃ k x, m = {[k := x]}.
Proof.
  intros Hs. destruct (map_choose m) as (k & x & Hk).
  { intros ->. by rewrite map_size_empty in Hs. }
  exists k, x. rewrite <- (insert_delete_id _ _ _ Hk), <- insert_empty. f_equal.
  apply map_size_empty_inv. rewrite map_size_delete_Some by eauto. lia.
Qed.

Section clients.
Context `{DashLaws, AHash}.
Implicit Types (member : PresenceRecord) (c : PresenceClientMembers).
Implicit Types (app_id channel connection_id client_id : string).

Lemma elem_of_dash_iter {A} (m : gmap string A) k x : (k, x) ∈ dash_iter m ↔ m !! k = Some x.
Proof. by rewrite dash_iter_perm, elem_of_map_to_list. Qed.

Lemma NoDup_dash_iter {A} (m : gmap string A) : NoDup (dash_iter m).*1.
Proof. rewrite dash_iter_perm. apply NoDup_fst_map_to_list. Qed.

Definition member_at c connection_id : option PresenceRecord :=
  match pcm_members c with
  | MembersEmpty => None
  | MembersOne m => if bool_decide (pr_connection_id m = connection_id) then Some m else None
  | MembersMany ms => ms !! connection_id
  end.

Definition members_wf client_id (ms : ClientMembers) : Prop :=
  match ms with
  | MembersEmpty => False
  | MembersOne m => pr_client_id m = client_id
  | MembersMany ms =>
      2 ≤ size ms
      ∧ map_Forall (λ x m, pr_connection_id m = x ∧ pr_client_id m = client_id) ms
  end.

Definition client_wf app_id channel client_id c : Prop :=
  pcm_capacity_shard c = capacity_shard app_id channel client_id
  ∧ members_wf client_id (pcm_members c).

Lemma client_contains_spec c connection_id :
  client_contains_connection c connection_id = bool_decide (is_Some (member_at c connection_id)).
Proof.
  unfold client_contains_connection, member_at. destruct (pcm_members c) as [|m|ms]; try done.
  case_bool_decide as Hm; symmetry; [by apply bool_decide_eq_true|].
  apply bool_decide_eq_false. by intros [? ?].
Qed.

Lemma member_at_id app_id channel client_id c connection_id m :
  client_wf app_id channel client_id c → member_at c connection_id = Some m →
  pr_connection_id m = connection_id ∧ pr_client_id m = client_id.
Proof.
  intros [_ Hwf] Hm. unfold member_at in Hm. destruct (pcm_members c) as [|m'|ms]; [done| |].
  - case_bool_decide; by simplify_eq.
  - by apply Hwf in Hm.
Qed.

Lemma client_insert_spec app_id channel client_id c member :
  client_wf app_id channel client_id c → pr_client_id member = client_id →
  ∃ c', client_insert c member = (c', member_at c (pr_connection_id member))
    ∧ client_wf app_id channel client_id c'
    ∧ ∀ x, member_at c' x = if decide (x = pr_connection_id member) then Some member
                            else member_at c x.
Proof.
  intros [Hsh Hwf] Hid. unfold client_insert, member_at, client_wf.
  destruct (pcm_members c) as [|m|ms]; simpl in Hwf; [done| |].
  - case_bool_decide as Heq; (eexists; split; [done|]); simpl; (split; [split; [done|]|]).
    + done.
    + intros x. destruct (decide (x = _)) as [->|]; [by rewrite bool_decide_true|].
      rewrite !bool_decide_false by congruence. done.
    + split; [by rewrite map_size_insert_None, map_size_singleton by by apply lookup_singleton_ne|].
      apply map_Forall_insert_2; [done|]. by apply map_Forall_singleton.
    + intros x. rewrite lookup_insert, lookup_singleton. repeat case_decide; simplify_eq;
        repeat case_bool_decide; congruence.
  - eexists; split; [done|]. simpl. split; [split; [done|]|].
    + split; [|apply map_Forall_insert_2; naive_solver].
      destruct Hwf as [Hs _]. rewrite map_size_insert. destruct (ms !! _); simpl; lia.
    + intros x. rewrite lookup_insert. repeat case_decide; congruence.
Qed.

Lemma client_remove_spec app_id channel client_id c connection_id :
  client_wf app_id channel client_id c →
  ∃ c', client_remove c connection_id = (c', member_at c connection_id)
    ∧ pcm_capacity_shard c' = pcm_capacity_shard c
    ∧ (client_is_empty c' = false → client_wf app_id channel client_id c')
    ∧ (client_is_empty c' = true ↔ ∀ x, member_at c' x = None)
    ∧ ∀ x, member_at c' x = if decide (x = connection_id) then None else member_at c x.
Proof.
  intros [Hsh Hwf]. unfold client_remove, member_at, client_wf.
  destruct (pcm_members c) as [|m|ms] eqn:Hc; simpl in Hwf; [done| |].
  - case_bool_decide as Heq; (eexists; split; [done|]); (split; [done|]).
    + split_and!; [done|done|]. intros x. simpl. repeat case_decide; try done.
      by rewrite bool_decide_false by congruence.
    + unfold client_is_empty. rewrite Hc. split_and!; [done| |].
      * split; [done|]. intros Hx. specialize (Hx (pr_connection_id m)).
        by rewrite bool_decide_true in Hx.
      * intros x. case_decide; [|done]. by rewrite bool_decide_false by congruence.
  - destruct Hwf as [Hs Hms].
    assert (map_Forall (λ x m, pr_connection_id m = x ∧ pr_client_id m = client_id)
              (delete connection_id ms)) as Hd by by apply map_Forall_delete.
    pose proof (map_size_delete connection_id ms) as Hsd.
    assert (1 ≤ size (delete connection_id ms)) by (destruct (ms !! _); simpl in *; lia).
    destruct (Nat.eqb_spec (size (delete connection_id ms)) 1) as [Hone|Hone].
    + apply map_size_1_inv in Hone as (k & m & Hkm).
      assert (dash_iter (delete connection_id ms) = [(k, m)]) as Hit.
      { apply Permutation_length_1_inv. by rewrite dash_iter_perm, Hkm, map_to_list_singleton. }
      rewrite Hit. rewrite Hkm in Hd. apply map_Forall_singleton in Hd as [Hk Hm].
      eexists; split; [done|]. simpl. split_and!; [done|done| |].
      * unfold client_is_empty. simpl. split; [done|]. intros Hx. specialize (Hx k).
        by rewrite bool_decide_true in Hx.
      * intros x. pose proof (lookup_delete ms connection_id x) as Hl.
        rewrite Hkm, lookup_singleton in Hl. rewrite Hk.
        repeat (case_decide || case_bool_decide); congruence.
    + eexists; split; [done|]. simpl. split_and!; [done| | |].
      * intros _. split; [done|]. split; [lia|done].
      * unfold client_is_empty. simpl. split; [done|]. intros Hx.
        destruct (map_choose (delete connection_id ms)) as (k & m & Hk).
        { intros Hn. rewrite Hn, map_size_empty in *. lia. }
        by rewrite Hx in Hk.
      * intros x. rewrite lookup_delete. by repeat case_decide.
Qed.

Lemma client_nonempty app_id channel client_id c :
  client_wf app_id channel client_id c → ∃ x m, member_at c x = Some m.
Proof.
  intros [_ Hwf]. unfold member_at. destruct (pcm_members c) as [|m|ms]; [done| |].
  - exists (pr_connection_id m), m. by rewrite bool_decide_true.
  - destruct Hwf as [Hs _]. destruct (map_choose ms) as (k & m & Hk); [|by eauto].
    intros ->. rewrite map_size_empty in Hs. lia.
Qed.

End clients.

Section sim.
Context `{DashLaws, AHash}.
Implicit Types (r : PresenceRegistry) (A : Roster) (lim : PresenceLimits).
Implicit Types (app : PresenceAppState) (clients : PresenceChannelState).
Implicit Types (app_id channel connection_id client_id : string) (l : nat).

(** What the operations observe of a registry. *)
Definition channel_loc r app_id channel : option nat :=
  app ← rg_apps r !! app_id; pa_channels app !! channel.

Definition connection_channels r app_id connection_id : option PresenceConnectionState :=
  app ← rg_apps r !! app_id; pa_connections app !! connection_id.

Definition clients_view clients client_id connection_id : option PresenceRecord :=
  c ← clients !! client_id; member_at c connection_id.

Definition registry_view r app_id channel client_id connection_id : option PresenceRecord :=
  l ← channel_loc r app_id channel; clients_view (state_at r l) client_id connection_id.

Record sim lim r A : Prop := {
  sim_conns app_id connection_id :
    (app_id, connection_id) ∈ ro_connections A
    ↔ is_Some (connection_channels r app_id connection_id);
  sim_cached app_id connection_id chans channel l :
    connection_channels r app_id connection_id = Some chans → chans !! channel = Some l →
    channel_loc r app_id channel = Some l;
  sim_alloc app_id channel l :
    channel_loc r app_id channel = Some l → is_Some (rg_states r !! l);
  sim_inj app_id channel app_id' channel' l :
    channel_loc r app_id channel = Some l → channel_loc r app_id' channel' = Some l →
    app_id = app_id' ∧ channel = channel';
  sim_members app_id channel client_id connection_id :
    ro_members A !! (app_id, channel, client_id, connection_id)
    = registry_view r app_id channel client_id connection_id;
  sim_wf app_id channel l client_id c :
    channel_loc r app_id channel = Some l → state_at r l !! client_id = Some c →
    client_wf app_id channel client_id c;
  sim_owner app_id channel client_id connection_id :
    is_Some (ro_members A !! (app_id, channel, client_id, connection_id)) →
    ∃ chans, connection_channels r app_id connection_id = Some chans
             ∧ is_Some (chans !! channel);
  sim_cap : cap_wf lim (capacity_of r) (ro_members A);
}.

Lemma with_app_id r app_id app : rg_apps r !! app_id = Some app → with_app r app_id app = r.
Proof. intros Hi. destruct r. unfold with_app. simpl in *. by rewrite insert_id. Qed.

Lemma channel_loc_with_app r app_id app app_id' channel :
  channel_loc (with_app r app_id app) app_id' channel
  = if decide (app_id' = app_id) then pa_channels app !! channel
    else channel_loc r app_id' channel.
Proof. unfold channel_loc. simpl. rewrite lookup_insert. by repeat case_decide; simplify_eq. Qed.

Lemma connection_channels_with_app r app_id app app_id' connection_id :
  connection_channels (with_app r app_id app) app_id' connection_id
  = if decide (app_id' = app_id) then pa_connections app !! connection_id
    else connection_channels r app_id' connection_id.
Proof.
  unfold connection_channels. simpl. rewrite lookup_insert. by repeat case_decide; simplify_eq.
Qed.

(** A connection may forget a channel on which it holds no member. *)
Lemma sim_shrink lim r A app_id app connection_id chans chans' :
  sim lim (with_app r app_id app) A →
  pa_connections app !! connection_id = Some chans → chans' ⊆ chans →
  (∀ channel l client_id, chans !! channel = Some l → chans' !! channel = None →
     clients_view (state_at r l) client_id connection_id = None) →
  sim lim (with_app r app_id (with_connection app connection_id chans')) A.
Proof.
  intros Hs Hc Hsub Hno. pose proof Hs as [Hconns Hcached Halloc Hinj Hmem Hwf Howner Hcap].
  assert (∀ a ch, channel_loc (with_app r app_id (with_connection app connection_id chans')) a ch
    = channel_loc (with_app r app_id app) a ch) as Hloc.
  { intros a ch. by rewrite !channel_loc_with_app. }
  assert (∀ a c, connection_channels (with_app r app_id (with_connection app connection_id chans')) a c
    = if decide (a = app_id ∧ c = connection_id) then Some chans'
      else connection_channels (with_app r app_id app) a c) as Hcc.
  { intros a c. rewrite !connection_channels_with_app. simpl. rewrite lookup_insert.
    repeat case_decide; naive_solver. }
  split; intros *; rewrite ?Hloc, ?Hcc; try done.
  - rewrite Hconns. case_decide as Hd; [|done]. destruct Hd as [-> ->].
    rewrite connection_channels_with_app, decide_True by done. rewrite Hc. by split; eauto.
  - case_decide as Hd; [|apply Hcached]. destruct Hd as [-> ->]. intros [= <-] Hl.
    eapply Hcached; [|by eapply lookup_weaken].
    by rewrite connection_channels_with_app, decide_True.
  - apply Halloc.
  - apply Hinj.
  - rewrite Hmem. unfold registry_view. by rewrite Hloc.
  - apply Hwf.
  - intros Hm. destruct (Howner _ _ _ _ Hm) as (cs & Hcs & [l Hl]).
    case_decide as Hd; [|by eauto]. destruct Hd as [-> ->].
    rewrite connection_channels_with_app, decide_True, Hc in Hcs by done. simplify_eq.
    exists chans'. split; [done|]. destruct (chans' !! channel) as [l'|] eqn:Hl'; [done|].
    exfalso. rewrite Hmem in Hm. unfold registry_view in Hm.
    rewrite (Hcached app_id connection_id cs channel l) in Hm;
      [|by rewrite connection_channels_with_app, decide_True|done].
    simpl in Hm. change (state_at (with_app r app_id app) l) with (state_at r l) in Hm.
    rewrite (Hno _ _ _ Hl Hl') in Hm. by destruct Hm.
Qed.

(** A connection may cache a channel of its application. *)
Lemma sim_cache lim r A app_id app connection_id chans channel l :
  sim lim (with_app r app_id app) A →
  pa_connections app !! connection_id = Some chans → pa_channels app !! channel = Some l →
  sim lim (with_app r app_id (with_connection app connection_id (<[channel := l]> chans))) A.
Proof.
  intros Hs Hc Hl. destruct Hs as [Hconns Hcached Halloc Hinj Hmem Hwf Howner Hcap].
  set (r' := with_app r app_id (with_connection app connection_id _)).
  assert (∀ a ch, channel_loc r' a ch = channel_loc (with_app r app_id app) a ch) as Hloc.
  { intros a ch. unfold r'. by rewrite !channel_loc_with_app. }
  assert (∀ a c, connection_channels r' a c
    = if decide (a = app_id ∧ c = connection_id) then Some (<[channel := l]> chans)
      else connection_channels (with_app r app_id app) a c) as Hcc.
  { intros a c. unfold r'. rewrite !connection_channels_with_app. simpl. rewrite lookup_insert.
    repeat case_decide; naive_solver. }
  assert (connection_channels (with_app r app_id app) app_id connection_id = Some chans) as Hc'.
  { by rewrite connection_channels_with_app, decide_True. }
  split; intros *; rewrite ?Hloc, ?Hcc; try done.
  - rewrite Hconns. case_decide as Hd; [|done]. destruct Hd as [-> ->]. rewrite Hc'. by split; eauto.
  - case_decide as Hd; [|apply Hcached]. destruct Hd as [-> ->]. intros [= <-].
    rewrite lookup_insert. case_decide as Hd; [|by eapply Hcached].
    intros [= <-]. subst. by rewrite channel_loc_with_app, decide_True.
  - apply Halloc.
  - apply Hinj.
  - rewrite Hmem. unfold registry_view. by rewrite Hloc.
  - apply Hwf.
  - intros Hm. destruct (Howner _ _ _ _ Hm) as (cs & Hcs & Hch).
    case_decide as Hd; [|by eauto]. destruct Hd as [-> ->]. rewrite Hc' in Hcs. simplify_eq.
    eexists. split; [done|]. rewrite lookup_insert. case_decide; by eauto.
Qed.

Lemma strong_count_1 app channel l :
  strong_count app channel l = 1 →
  ∀ connection_id chans, pa_connections app !! connection_id = Some chans →
    chans !! channel ≠ Some l.
Proof.
  intros Hs c chans Hc Hl. unfold strong_count in Hs.
  assert (filter (λ kv : string * PresenceConnectionState, kv.2 !! channel = Some l)
            (pa_connections app) = ∅) as He by (apply map_size_empty_inv; lia).
  apply (f_equal (.!! c)) in He. rewrite lookup_empty, map_lookup_filter_None in He.
  destruct He as [He|He]; [congruence|]. by apply (He _ Hc).
Qed.

(** Pruning frees a channel state nobody uses. *)
Lemma sim_drop lim r A app_id app channel l :
  sim lim (with_app r app_id app) A →
  pa_channels app !! channel = Some l → prunable r app channel l = true →
  sim lim (with_app (drop_channel (r, app) (channel, l)).1 app_id
             (drop_channel (r, app) (channel, l)).2) A.
Proof.
  intros Hs Hl Hp. destruct Hs as [Hconns Hcached Halloc Hinj Hmem Hwf Howner Hcap].
  apply andb_prop in Hp as [Hsc%Nat.eqb_eq He%bool_decide_eq_true].
  set (r' := with_app _ _ _).
  assert (channel_loc (with_app r app_id app) app_id channel = Some l) as Hl0.
  { by rewrite channel_loc_with_app, decide_True. }
  assert (∀ a ch, channel_loc r' a ch = if decide (a = app_id ∧ ch = channel) then None
    else channel_loc (with_app r app_id app) a ch) as Hloc.
  { intros a ch. unfold r'. rewrite !channel_loc_with_app. simpl. rewrite lookup_delete.
    repeat case_decide; unfold channel_loc; naive_solver. }
  assert (∀ a c, connection_channels r' a c = connection_channels (with_app r app_id app) a c) as Hcc.
  { intros a c. unfold r'. by rewrite !connection_channels_with_app. }
  assert (∀ a ch l', channel_loc r' a ch = Some l' →
    channel_loc (with_app r app_id app) a ch = Some l' ∧ rg_states r' !! l' = rg_states r !! l') as Hst.
  { intros a ch l'. rewrite Hloc. case_decide as Hd; [done|]. intros Hl'. split; [done|].
    simpl. apply lookup_delete_ne. intros ->. apply Hd; by eapply Hinj. }
  split; intros *; rewrite ?Hcc; try done.
  - rewrite Hloc. intros Hch Hc. case_decide as Hd; [|by eapply Hcached].
    destruct Hd as [-> ->]. pose proof (Hcached _ _ _ _ _ Hch Hc) as Hx. rewrite Hl0 in Hx.
    simplify_eq. rewrite connection_channels_with_app, decide_True in Hch by done.
    by destruct (strong_count_1 _ _ _ Hsc _ _ Hch).
  - intros [Hl' ->]%Hst. by eapply Halloc.
  - intros [? _]%Hst [? _]%Hst. by eapply Hinj.
  - rewrite Hmem. unfold registry_view. destruct (channel_loc r' app_id0 channel0) as [l'|] eqn:Hl'.
    + apply Hst in Hl' as [-> Heq]. simpl. unfold state_at. by rewrite Heq.
    + rewrite Hloc in Hl'. case_decide as Hd; [|by rewrite Hl'].
      destruct Hd as [-> ->]. rewrite Hl0. simpl.
      change (state_at (with_app r app_id app) l) with (state_at r l). by rewrite He.
  - intros [Hl' Heq]%Hst. unfold state_at. rewrite Heq. by eapply Hwf.
  - apply Howner.
Qed.

(** A new channel state is empty. *)
Lemma sim_new lim r A app_id app channel :
  sim lim (with_app r app_id app) A → pa_channels app !! channel = None →
  let l := fresh (dom (rg_states r)) in
  sim lim (with_app (with_state r l ∅) app_id
    {| pa_connections := pa_connections app; pa_channels := <[channel := l]> (pa_channels app) |}) A.
Proof.
  intros Hs Hl l. destruct Hs as [Hconns Hcached Halloc Hinj Hmem Hwf Howner Hcap].
  assert (rg_states r !! l = None) as Hf.
  { apply not_elem_of_dom, is_fresh. }
  set (r' := with_app _ _ _).
  assert (∀ a ch, channel_loc r' a ch = if decide (a = app_id ∧ ch = channel) then Some l
    else channel_loc (with_app r app_id app) a ch) as Hloc.
  { intros a ch. unfold r'. rewrite !channel_loc_with_app. simpl. rewrite lookup_insert.
    repeat case_decide; unfold channel_loc; naive_solver. }
  assert (∀ a c, connection_channels r' a c = connection_channels (with_app r app_id app) a c) as Hcc.
  { intros a c. unfold r'. by rewrite !connection_channels_with_app. }
  assert (∀ a ch l', channel_loc (with_app r app_id app) a ch = Some l' → l' ≠ l) as Hne.
  { intros a ch l' [x Hx]%Halloc ->. simpl in Hx. congruence. }
  assert (∀ l', l' ≠ l → rg_states r' !! l' = rg_states r !! l') as Hst.
  { intros l' Hl'. by apply lookup_insert_ne. }
  assert (state_at r' l = ∅) as Hse.
  { unfold state_at, r'. simpl. by rewrite lookup_insert_eq. }
  split; intros *; rewrite ?Hcc, ?Hloc; try done.
  - intros Hch Hc. pose proof (Hcached _ _ _ _ _ Hch Hc) as Hx. case_decide as Hd; [|done].
    destruct Hd as [-> ->]. rewrite channel_loc_with_app, decide_True in Hx by done. congruence.
  - case_decide.
    + intros [= <-]. eexists. apply lookup_insert_eq.
    + intros Hx. rewrite Hst by eauto. by eapply Halloc.
  - repeat case_decide; destruct_and?; subst; try done; intros Hx Hy; simplify_eq.
    + by destruct (Hne _ _ _ Hy).
    + by destruct (Hne _ _ _ Hx).
    + by eapply Hinj.
  - rewrite Hmem. unfold registry_view. rewrite Hloc. case_decide as Hd.
    + destruct Hd as [-> ->]. rewrite channel_loc_with_app, decide_True, Hl by done. simpl.
      by rewrite Hse.
    + destruct (channel_loc (with_app r app_id app) app_id0 channel0) as [l'|] eqn:Hl'; [|done].
      simpl. unfold state_at. rewrite Hst by eauto. done.
  - case_decide.
    + intros [= <-]. by rewrite Hse.
    + intros Hx. unfold state_at. rewrite Hst by eauto. by eapply Hwf.
  - apply Howner.
Qed.

End sim.
