(* ===== verification/PresenceRegistryThms.v ===== *)
(** * The presence registry implements the roster

    Every operation of [PresenceRegistry.v] preserves the simulation with the roster and
    answers as the roster does; so does every sequence of operations.  The budget under
    concurrent use is in [PresenceCapacity.v]. *)

From Stdlib Require Import ZArith Lia.
From stdpp Require Import base gmap strings list sorting.
From S2P Require Import Prelude Errors Messages PresenceRegistry PresenceRoster PresenceSim.

Section registry_thms.
Context `{DashLaws, AHash}.
Implicit Types (r : PresenceRegistry) (A : Roster) (lim : PresenceLimits).
Implicit Types (app : PresenceAppState) (clients : PresenceChannelState).
Implicit Types (app_id channel connection_id client_id : string) (l : nat).

(** ** Attaching a connection to a channel *)

Lemma channel_contains_spec clients connection_id :
  channel_contains_connection clients connection_id = true
  ↔ ∃ client_id, is_Some (clients_view clients client_id connection_id).
Proof.
  unfold channel_contains_connection, clients_view. rewrite existsb_exists. split.
  - intros ([client c] & Hin & Hc). apply list_elem_of_In, elem_of_dash_iter in Hin. simpl in Hc.
    rewrite client_contains_spec in Hc. apply bool_decide_eq_true in Hc.
    exists client. by rewrite Hin.
  - intros (client & m & Hm). apply bind_Some in Hm as (c & Hc & Hm).
    exists (client, c). split; [by apply list_elem_of_In, elem_of_dash_iter|].
    simpl. rewrite client_contains_spec. apply bool_decide_eq_true. by eauto.
Qed.

Lemma channel_contains_false clients connection_id client_id :
  channel_contains_connection clients connection_id = false →
  clients_view clients client_id connection_id = None.
Proof.
  intros Hf. apply eq_None_not_Some. intros Hs.
  assert (channel_contains_connection clients connection_id = true) as Ht
    by (apply channel_contains_spec; eauto). congruence.
Qed.

Lemma prune_connection_channels_spec r chans connection_id limit :
  prune_connection_channels r chans connection_id limit ⊆ chans
  ∧ ∀ channel l client_id, chans !! channel = Some l →
      prune_connection_channels r chans connection_id limit !! channel = None →
      clients_view (state_at r l) client_id connection_id = None.
Proof.
  unfold prune_connection_channels. set (cands := firstn _ _).
  assert (∀ kv, kv ∈ cands → chans !! kv.1 = Some kv.2) as Hc.
  { intros [k l] Hin. apply elem_of_take in Hin as (i & Hin & _).
    apply list_elem_of_lookup_2, list_elem_of_filter in Hin as [_ Hin].
    by apply elem_of_dash_iter in Hin. }
  apply foldl_inv; [|split; [done|congruence]].
  intros chans' [k l] Hin [Hsub Hno]. apply Hc in Hin. simpl in *.
  destruct (channel_contains_connection _ _) eqn:Hcc; [done|]. split.
  - etrans; [apply delete_subseteq|done].
  - intros channel l' client_id Hl' Hd. rewrite lookup_delete in Hd.
    case_decide; subst; [|by eapply Hno]. simplify_eq. by apply channel_contains_false.
Qed.

Lemma prune_empty_sim lim r A app_id app limit :
  sim lim (with_app r app_id app) A →
  let ra := prune_empty_channels r app limit in
  sim lim (with_app ra.1 app_id ra.2) A ∧ pa_connections ra.2 = pa_connections app.
Proof.
  intros Hs. unfold prune_empty_channels. set (cands := firstn _ _).
  assert (NoDup cands.*1 ∧ ∀ kv, kv ∈ cands → pa_channels app !! kv.1 = Some kv.2) as [Hnd Hc].
  { split.
    - unfold cands. rewrite fmap_take. eapply sublist_NoDup; [|apply sublist_take].
      apply NoDup_fmap_fst_filter, NoDup_dash_iter.
    - intros [k l] Hin. apply elem_of_take in Hin as (i & Hin & _).
      apply list_elem_of_lookup_2, list_elem_of_filter in Hin as [_ Hin].
      by apply elem_of_dash_iter in Hin. }
  clearbody cands. cut (∀ r app, sim lim (with_app r app_id app) A →
    (∀ kv, kv ∈ cands → pa_channels app !! kv.1 = Some kv.2) →
    let ra := foldl (λ ra kv, if prunable ra.1 ra.2 kv.1 kv.2 then drop_channel ra kv else ra)
                (r, app) cands in
    sim lim (with_app ra.1 app_id ra.2) A ∧ pa_connections ra.2 = pa_connections app); [by eauto|].
  clear Hs Hc r app. induction cands as [|[k l] cands IH]; intros r app Hs Hc; [done|].
  apply NoDup_cons in Hnd as [Hk Hnd]. cbn [foldl fst snd].
  destruct (prunable r app k l) eqn:Hp.
  - apply (IH Hnd (drop_channel (r, app) (k, l)).1 (drop_channel (r, app) (k, l)).2).
    + apply sim_drop; [done|by apply (Hc (k, l)); left|done].
    + intros [k' l'] Hin. simpl. rewrite lookup_delete_ne; [by apply (Hc (k', l')); right|].
      intros ->. apply Hk. by apply (list_elem_of_fmap_2 fst) in Hin.
  - apply IH; [done|done|]. intros kv Hin. apply Hc. by right.
Qed.

Lemma app_channel_state_sim lim r A app_id app channel r' app' l :
  sim lim (with_app r app_id app) A →
  app_channel_state lim r app channel = (r', app', l) →
  sim lim (with_app r' app_id app') A ∧ pa_connections app' = pa_connections app
  ∧ pa_channels app' !! channel = Some l.
Proof.
  intros Hs. unfold app_channel_state.
  destruct (pa_channels app !! channel) as [l0|] eqn:Hl; [by intros [= <- <- <-]|].
  set (ra := if (_ >=? _)%Z then _ else (r, app)).
  assert (sim lim (with_app ra.1 app_id ra.2) A ∧ pa_connections ra.2 = pa_connections app)
    as [Hs' Hpc].
  { unfold ra. destruct (_ >=? _)%Z; [by apply prune_empty_sim|done]. }
  clearbody ra. destruct ra as [r1 app1]. simpl in *.
  destruct (pa_channels app1 !! channel) as [l1|] eqn:Hl1; intros [= <- <- <-].
  - done.
  - split; [by apply sim_new|]. split; [done|]. simpl. apply lookup_insert_eq.
Qed.

Lemma attach_sim lim r A app_id app channel connection_id chans r' l :
  sim lim r A → rg_apps r !! app_id = Some app →
  pa_connections app !! connection_id = Some chans →
  attach lim r app app_id channel connection_id chans = (r', l) →
  sim lim r' A ∧ channel_loc r' app_id channel = Some l
  ∧ ∃ chans', connection_channels r' app_id connection_id = Some chans'
              ∧ chans' !! channel = Some l.
Proof.
  intros Hs Ha Hc. unfold attach. destruct (chans !! channel) as [l0|] eqn:Hl.
  { intros [= <- <-].
    assert (connection_channels r app_id connection_id = Some chans) as Hcc.
    { unfold connection_channels. by rewrite Ha. }
    split; [done|]. split; [by eapply Hs|by eauto]. }
  set (chans1 := if (_ >=? _)%Z then _ else chans).
  assert (chans1 ⊆ chans ∧ ∀ ch l client_id, chans !! ch = Some l → chans1 !! ch = None →
    clients_view (state_at r l) client_id connection_id = None) as [Hsub Hno].
  { unfold chans1. destruct (_ >=? _)%Z; [apply prune_connection_channels_spec|].
    split; [done|congruence]. }
  clearbody chans1. rewrite <- (with_app_id r app_id app) in Hs by done.
  pose proof (sim_shrink _ _ _ _ _ _ _ _ Hs Hc Hsub Hno) as Hs1.
  destruct (app_channel_state _ _ _ _) as [[r2 app2] l2] eqn:Hacs. intros [= <- <-].
  destruct (app_channel_state_sim _ _ _ _ _ _ _ _ _ Hs1 Hacs) as (Hs2 & Hpc & Hl2).
  assert (pa_connections app2 !! connection_id = Some chans1) as Hc2.
  { rewrite Hpc. apply lookup_insert_eq. }
  split; [by apply sim_cache|].
  rewrite channel_loc_with_app, connection_channels_with_app, !decide_True by done. simpl.
  split; [done|]. eexists. split; apply lookup_insert_eq.
Qed.

(** ** Changing the members of one channel *)

Lemma sim_set lim r A app_id channel l clients' cap' M' :
  sim lim r A → channel_loc r app_id channel = Some l →
  (∀ client_id c, clients' !! client_id = Some c → client_wf app_id channel client_id c) →
  (∀ client_id connection_id, M' !! (app_id, channel, client_id, connection_id)
     = clients_view clients' client_id connection_id) →
  (∀ a ch client_id connection_id, ¬ (a = app_id ∧ ch = channel) →
     M' !! (a, ch, client_id, connection_id)
     = ro_members A !! (a, ch, client_id, connection_id)) →
  (∀ client_id connection_id, is_Some (M' !! (app_id, channel, client_id, connection_id)) →
     ∃ chans, connection_channels r app_id connection_id = Some chans ∧ is_Some (chans !! channel)) →
  cap_wf lim cap' M' →
  sim lim (with_capacity (with_state r l clients') cap')
    {| ro_connections := ro_connections A; ro_members := M' |}.
Proof.
  intros [Hconns Hcached Halloc Hinj Hmem Hwf Howner Hcap] Hl Hwf' Hv Hother Hown' Hcap'.
  set (r' := with_capacity _ _).
  assert (∀ l', state_at r' l' = if decide (l' = l) then clients' else state_at r l') as Hst.
  { intros l'. unfold state_at, r'. simpl. rewrite lookup_insert. by repeat case_decide. }
  assert (∀ a ch l', channel_loc r a ch = Some l' → ¬ (a = app_id ∧ ch = channel) → l' ≠ l) as Hne.
  { intros a ch l' Hl' Hd ->. apply Hd. by eapply Hinj. }
  split; try done; simpl.
  - intros a ch l' Hl'. unfold r'. simpl. destruct (decide (l' = l)) as [->|].
    + rewrite lookup_insert_eq. by eauto.
    + rewrite lookup_insert_ne by done. by eapply Halloc.
  - intros a ch client_id connection_id. unfold registry_view.
    change (channel_loc r' a ch) with (channel_loc r a ch).
    destruct (decide (a = app_id ∧ ch = channel)) as [[-> ->]|Hd].
    + rewrite Hl. simpl. by rewrite Hst, decide_True.
    + rewrite Hother, Hmem by done. unfold registry_view.
      destruct (channel_loc r a ch) as [l'|] eqn:Hl'; [|done]. simpl.
      rewrite Hst, decide_False; [done|by eapply Hne].
  - intros a ch l' client_id c Hl'. change (channel_loc r' a ch) with (channel_loc r a ch) in Hl'.
    rewrite Hst. case_decide as Hd; [|by eapply Hwf]. subst.
    destruct (Hinj _ _ _ _ _ Hl' Hl) as [-> ->]. apply Hwf'.
  - intros a ch client_id connection_id Hm.
    destruct (decide (a = app_id ∧ ch = channel)) as [[-> ->]|Hd]; [by eapply Hown'|].
    rewrite Hother in Hm by done. by eapply Howner.
  - by destruct cap'.
Qed.

(** A budget may change alone. *)
Lemma sim_with_capacity lim r A cap :
  sim lim r A → cap_wf lim cap (ro_members A) → sim lim (with_capacity r cap) A.
Proof. intros [] ?. split; try done. by destruct cap. Qed.

Lemma sole_member_spec (M : gmap member_key PresenceRecord) app_id channel client_id connection_id :
  sole_member M app_id channel client_id connection_id = true
  ↔ ∀ x, x ≠ connection_id → M !! (app_id, channel, client_id, x) = None.
Proof.
  unfold sole_member. rewrite bool_decide_eq_true. split.
  - intros He x Hx. apply (f_equal (.!! (app_id, channel, client_id, x))) in He.
    rewrite lookup_empty, map_lookup_filter_None in He. destruct He as [He|He]; [done|].
    destruct (M !! _) as [m|] eqn:Hm; [|done]. by destruct (He m eq_refl).
  - intros Hx. apply map_empty. intros [k x]. apply map_lookup_filter_None.
    destruct (M !! (k, x)) as [m|] eqn:Hm; [right|by left].
    intros m' Hm' [Hk Hne]. simpl in *. subst. by rewrite Hx in Hm.
Qed.

Lemma sole_member_client (M : gmap member_key PresenceRecord) app_id channel client_id connection_id :
  (∃ x m, M !! (app_id, channel, client_id, x) = Some m) →
  M !! (app_id, channel, client_id, connection_id) = None →
  sole_member M app_id channel client_id connection_id = false.
Proof.
  intros (x & m & Hx) Hn. apply not_true_is_false. rewrite sole_member_spec. intros Hno.
  destruct (decide (x = connection_id)) as [->|Hd]; [congruence|].
  by rewrite (Hno _ Hd) in Hx.
Qed.

(** The members of a channel, seen by the roster. *)
Lemma sim_channel_members lim r A app_id channel l client_id connection_id :
  sim lim r A → channel_loc r app_id channel = Some l →
  ro_members A !! (app_id, channel, client_id, connection_id)
  = clients_view (state_at r l) client_id connection_id.
Proof. intros Hs Hl. rewrite (sim_members _ _ _ Hs). unfold registry_view. by rewrite Hl. Qed.

(** Storing a client's members, one of which is new or replaced. *)
Lemma sim_store lim r A app_id channel l c' member cap' chans :
  sim lim r A → channel_loc r app_id channel = Some l →
  connection_channels r app_id (pr_connection_id member) = Some chans →
  chans !! channel = Some l →
  client_wf app_id channel (pr_client_id member) c' →
  (∀ x, member_at c' x = if decide (x = pr_connection_id member) then Some member
                         else clients_view (state_at r l) (pr_client_id member) x) →
  let M' := <[(app_id, channel, pr_client_id member, pr_connection_id member) := member]>
              (ro_members A) in
  cap_wf lim cap' M' →
  sim lim (with_state (with_capacity r cap') l (<[pr_client_id member := c']> (state_at r l)))
    {| ro_connections := ro_connections A; ro_members := M' |}.
Proof.
  intros Hs Hl Hcc Hch Hwf Hc' M' Hcap.
  change (with_state (with_capacity r cap') l ?cl) with (with_capacity (with_state r l cl) cap').
  assert (∀ client_id x, M' !! (app_id, channel, client_id, x)
    = clients_view (<[pr_client_id member := c']> (state_at r l)) client_id x) as HM.
  { intros client_id x. unfold M', clients_view.
    destruct (decide (client_id = pr_client_id member)) as [->|Hd].
    - rewrite lookup_insert_eq. simpl. rewrite Hc', lookup_insert. case_decide as Hd.
      + simplify_eq. by rewrite decide_True.
      + rewrite decide_False by congruence. by eapply sim_channel_members.
    - rewrite !lookup_insert_ne by congruence. by eapply sim_channel_members. }
  eapply sim_set; try done.
  - intros client_id c. rewrite lookup_insert. case_decide as Hd; [|by eapply Hs].
    intros [= <-]. by subst.
  - intros a ch client_id x Hd. unfold M'. rewrite lookup_insert_ne; [done|naive_solver].
  - intros client_id x Hm. unfold M' in Hm. rewrite lookup_insert in Hm.
    case_decide as Hd; [simplify_eq; by eauto|by eapply Hs].
Qed.

(** A new member: the budget decides, and the client's members [c'] are stored. *)
Lemma present_new lim app_id channel member r A l chans c' :
  lim_wf lim → sim lim r A → channel_loc r app_id channel = Some l →
  connection_channels r app_id (pr_connection_id member) = Some chans → chans !! channel = Some l →
  let k := (app_id, channel, pr_client_id member, pr_connection_id member) in
  let t := {| tr_previous := None; tr_last_for_client := false; tr_first_for_client :=
    sole_member (ro_members A) app_id channel (pr_client_id member) (pr_connection_id member) |} in
  ro_members A !! k = None →
  client_wf app_id channel (pr_client_id member) c' →
  (∀ x, member_at c' x = if decide (x = pr_connection_id member) then Some member
                         else clients_view (state_at r l) (pr_client_id member) x) →
  let '(cap, reserved) :=
    reserve_member lim (capacity_shard app_id channel (pr_client_id member)) (capacity_of r) in
  let after := match reserved with
    | Err e => (with_capacity r cap, Err e)
    | Ok _ => (with_state (with_capacity r cap) l (<[pr_client_id member := c']> (state_at r l)), Ok t)
    end in
  after.2 = (roster_present (pl_max_members lim) app_id channel member A).2
  ∧ sim lim after.1 (roster_present (pl_max_members lim) app_id channel member A).1.
Proof.
  intros Hlim Hs Hl Hcc Hch k t Hk Hwf Hview. unfold roster_present. fold k. rewrite Hk. simpl.
  pose proof (reserve_member_spec lim k member _ _ Hlim (sim_cap _ _ _ Hs) Hk) as Hres.
  change (key_shard k) with (capacity_shard app_id channel (pr_client_id member)) in Hres.
  case_decide as Hd; destruct Hres as (cap' & -> & Hcap').
  - rewrite (proj2 (Z.leb_gt _ _)) by lia. split; [done|].
    apply (sim_store _ _ _ _ _ _ _ _ _ _ Hs Hl Hcc Hch Hwf Hview Hcap').
  - rewrite (proj2 (Z.leb_le _ _)) by lia. split; [done|]. by apply sim_with_capacity.
Qed.

Lemma present_entry_sim lim app_id channel member r A l chans :
  lim_wf lim → sim lim r A → channel_loc r app_id channel = Some l →
  connection_channels r app_id (pr_connection_id member) = Some chans → chans !! channel = Some l →
  (present_entry lim app_id channel member r l).2
  = (roster_present (pl_max_members lim) app_id channel member A).2
  ∧ sim lim (present_entry lim app_id channel member r l).1
      (roster_present (pl_max_members lim) app_id channel member A).1.
Proof.
  intros Hlim Hs Hl Hcc Hch. unfold present_entry.
  pose proof (sim_channel_members _ _ _ _ _ _ (pr_client_id member) (pr_connection_id member) Hs Hl)
    as Hk. unfold clients_view in Hk.
  destruct (state_at r l !! pr_client_id member) as [c|] eqn:Hcl; simpl in Hk.
  - pose proof (sim_wf _ _ _ Hs _ _ _ _ _ Hl Hcl) as Hwf.
    destruct (client_insert_spec _ _ _ _ member Hwf eq_refl) as (c' & Hins & Hwf' & Hc').
    rewrite client_contains_spec, Hins, <- Hk.
    assert (∀ x, member_at c' x = if decide (x = pr_connection_id member) then Some member
      else clients_view (state_at r l) (pr_client_id member) x) as Hview.
    { intros x. rewrite Hc'. unfold clients_view. by rewrite Hcl. }
    assert (client_is_empty c = false) as Hne.
    { destruct Hwf as [_ Hwf]. unfold client_is_empty. by destruct (pcm_members c). }
    rewrite Hne, andb_false_r. destruct (ro_members A !! _) as [old|] eqn:Hm; simpl.
    + unfold roster_present. rewrite Hm. split; [done|].
      apply (sim_store _ _ _ _ _ _ _ _ _ _ Hs Hl Hcc Hch Hwf' Hview).
      eapply replace_wf; [apply Hs|done].
    + pose proof (present_new _ _ _ _ _ _ _ _ _ Hlim Hs Hl Hcc Hch Hm Hwf' Hview) as Hnew.
      destruct Hwf as [Hshard Hwf]. rewrite Hshard. rewrite sole_member_client in Hnew.
      2:{ destruct (client_nonempty app_id channel (pr_client_id member) c) as (x & m & Hx); [done|].
          exists x, m. rewrite (sim_channel_members _ _ _ _ _ _ _ _ Hs Hl).
          unfold clients_view. by rewrite Hcl. }
      2:{ done. }
      by destruct (reserve_member _ _ _) as [cap [|]].
  - assert (sole_member (ro_members A) app_id channel (pr_client_id member)
              (pr_connection_id member) = true) as Hsole.
    { apply sole_member_spec. intros x _. rewrite (sim_channel_members _ _ _ _ _ _ _ _ Hs Hl).
      unfold clients_view. by rewrite Hcl. }
    pose proof (present_new _ _ _ _ _ _ _ _
      (client_one member (capacity_shard app_id channel (pr_client_id member)))
      Hlim Hs Hl Hcc Hch Hk) as Hnew. rewrite Hsole in Hnew.
    destruct (reserve_member _ _ _) as [cap [|]]; apply Hnew; try done;
      intros x; unfold clients_view; rewrite Hcl; unfold member_at; simpl;
      repeat (case_decide || case_bool_decide); congruence.
Qed.

(** [enter] and [update]: an unregistered connection is refused, a new member is refused
    exactly when the registry is full, and otherwise the member is stored and the previous
    record and the first-for-client flag are those of the roster. *)
Lemma apply_present_sim lim app_id channel member r A :
  lim_wf lim → sim lim r A →
  (apply_present lim app_id channel member r).2
  = (roster_enter (pl_max_members lim) app_id channel member A).2
  ∧ sim lim (apply_present lim app_id channel member r).1
      (roster_enter (pl_max_members lim) app_id channel member A).1.
Proof.
  intros Hlim Hs. unfold apply_present, roster_enter.
  assert (((app_id, pr_connection_id member) ∉ ro_connections A)
    ↔ connection_channels r app_id (pr_connection_id member) = None) as Hreg.
  { rewrite (sim_conns _ _ _ Hs). by rewrite eq_None_not_Some. }
  unfold connection_channels in Hreg.
  destruct (rg_apps r !! app_id) as [app|] eqn:Ha; simpl in Hreg;
    [|by rewrite bool_decide_true by by apply Hreg].
  destruct (pa_connections app !! pr_connection_id member) as [chans|] eqn:Hc;
    [|by rewrite bool_decide_true by by apply Hreg].
  rewrite (bool_decide_false (_ ∉ _)) by (intros ?%Hreg; done).
  destruct (attach _ _ _ _ _ _ _) as [r1 l] eqn:Hat.
  destruct (attach_sim _ _ _ _ _ _ _ _ _ _ Hs Ha Hc Hat) as (Hs1 & Hl & chans' & Hcc & Hch).
  exact (present_entry_sim _ _ _ _ _ _ _ _ Hlim Hs1 Hl Hcc Hch).
Qed.

End registry_thms.
