(* ===== verification/PresenceRefinement.v ===== *)
(** * Leaving, unregistering and reading presence

    The operations that remove members, and the reads, against the roster; and the
    refinement of every sequence of operations. *)

From Stdlib Require Import ZArith Lia.
From stdpp Require Import base gmap strings list sorting.
From S2P Require Import Prelude Errors Messages PresenceRegistry PresenceRoster PresenceSim.
From S2P Require Import PresenceRegistryThms.

(** ** Lists with the same elements *)

Lemma stable_sort_eq {A} (le : relation A) `{!RelDecision le, !Transitive le, !base.Total le}
    (l k : list A) :
  (∀ x y, x ∈ l → y ∈ l → le x y → le y x → x = y) → l ≡ₚ k →
  stable_sort le l = stable_sort le k.
Proof.
  intros Hanti Hp. apply (StronglySorted_unique_strong le).
  - intros x y. rewrite !stable_sort_perm, <- Hp. apply Hanti.
  - by apply stable_sort_sorted.
  - by apply stable_sort_sorted.
  - by rewrite !stable_sort_perm.
Qed.

Lemma elem_of_roster_select {B} (f : member_key → PresenceRecord → option B) M b :
  b ∈ roster_select f M ↔ ∃ k m, M !! k = Some m ∧ f k m = Some b.
Proof.
  unfold roster_select. rewrite list_elem_of_omap. split.
  - intros ([k m] & Hin%elem_of_map_to_list & Hf). by eauto.
  - intros (k & m & Hin & Hf). exists (k, m). by rewrite elem_of_map_to_list.
Qed.

Lemma NoDup_roster_select {B} (f : member_key → PresenceRecord → option B) M :
  (∀ k k' m m' b, M !! k = Some m → M !! k' = Some m' →
     f k m = Some b → f k' m' = Some b → k = k') →
  NoDup (roster_select f M).
Proof.
  intros Hinj. unfold roster_select.
  assert (∀ kv, kv ∈ map_to_list M → M !! kv.1 = Some kv.2) as Hin.
  { intros [k m]. by rewrite elem_of_map_to_list. }
  pose proof (NoDup_fst_map_to_list M) as Hnd. revert Hin Hnd. generalize (map_to_list M) as l.
  induction l as [|[k m] l IH]; intros Hin Hnd; [constructor|].
  apply NoDup_cons in Hnd as [Hk Hnd]. csimpl.
  assert (NoDup (omap (λ kv : member_key * PresenceRecord, f kv.1 kv.2) l)) as Hl.
  { apply IH; [|done]. intros kv ?. apply Hin. by right. }
  destruct (f k m) as [b|] eqn:Hf; [|done]. apply NoDup_cons. split; [|done].
  intros ([k' m'] & Hin' & Hf')%list_elem_of_omap. simpl in Hf'. apply Hk.
  rewrite (Hinj k k' m m' b); [by apply (list_elem_of_fmap_2 fst) in Hin'| | |done|done].
  - apply (Hin (k, m)). by left.
  - apply (Hin (k', m')). by right.
Qed.

Lemma elem_of_roster_owned app_id connection_id M ch cl :
  (ch, cl) ∈ roster_owned app_id connection_id M ↔ is_Some (M !! (app_id, ch, cl, connection_id)).
Proof.
  unfold roster_owned. rewrite elem_of_roster_select. split.
  - intros ([[[a ch'] cl'] c] & m & Hm & Hf). case_bool_decide as Hd; [|done].
    destruct Hd as [-> ->]. simplify_eq. by eauto.
  - intros [m Hm]. exists (app_id, ch, cl, connection_id), m. by rewrite bool_decide_true.
Qed.

Lemma NoDup_roster_owned app_id connection_id M : NoDup (roster_owned app_id connection_id M).
Proof.
  apply NoDup_roster_select. intros [[[a ch] cl] c] [[[a' ch'] cl'] c'] m m' b _ _.
  repeat case_bool_decide; naive_solver.
Qed.

Section leaves.
Context `{DashLaws, AHash}.
Implicit Types (r : PresenceRegistry) (A : Roster) (lim : PresenceLimits).
Implicit Types (app : PresenceAppState) (clients : PresenceChannelState).
Implicit Types (app_id channel connection_id client_id : string) (l : nat).

(** A client's members are replaced by [c'], which lacks the connection: by nothing when [c']
    is empty. *)
Lemma sim_remove lim r A app_id channel l connection_id client_id c c' cap' :
  let k := (app_id, channel, client_id, connection_id) in
  sim lim r A → channel_loc r app_id channel = Some l → state_at r l !! client_id = Some c →
  (client_is_empty c' = false → client_wf app_id channel client_id c') →
  (client_is_empty c' = true ↔ ∀ x, member_at c' x = None) →
  (∀ x, member_at c' x = if decide (x = connection_id) then None else member_at c x) →
  cap_wf lim cap' (delete k (ro_members A)) →
  sim lim (with_capacity (with_state r l
             (if client_is_empty c' then delete client_id (state_at r l)
              else <[client_id := c']> (state_at r l))) cap')
    {| ro_connections := ro_connections A; ro_members := delete k (ro_members A) |}.
Proof.
  intros k Hs Hl Hc Hwf' He Hview Hcap. eapply sim_set; try done.
  - intros cl x. destruct (client_is_empty c').
    + rewrite lookup_delete. case_decide; [done|]. by eapply Hs.
    + rewrite lookup_insert. case_decide; [|by eapply Hs]. intros [= <-]. subst. by apply Hwf'.
  - intros cl x. unfold clients_view, k. rewrite lookup_delete.
    rewrite (sim_channel_members _ _ _ _ _ _ _ _ Hs Hl). unfold clients_view.
    destruct (decide (cl = client_id)) as [->|Hcl].
    + rewrite Hc. simpl. specialize (Hview x). destruct (client_is_empty c').
      * rewrite lookup_delete_eq. simpl. pose proof (proj1 He eq_refl x).
        repeat case_decide; congruence.
      * rewrite lookup_insert_eq. simpl. rewrite Hview. repeat case_decide; congruence.
    + rewrite decide_False by congruence.
      destruct (client_is_empty c'); [by rewrite lookup_delete_ne|by rewrite lookup_insert_ne].
  - intros a ch cl x Hd. unfold k. rewrite lookup_delete_ne; [done|naive_solver].
  - intros cl x [m Hx]. apply lookup_delete_Some in Hx as [_ Hx]. eapply Hs. by eauto.
Qed.

Lemma leave_from_channel_sim lim r A app_id channel l connection_id client_id :
  lim_wf lim → sim lim r A → channel_loc r app_id channel = Some l →
  (leave_from_channel lim l connection_id client_id r).2
  = (roster_leave app_id channel connection_id client_id A).2
  ∧ sim lim (leave_from_channel lim l connection_id client_id r).1
      (roster_leave app_id channel connection_id client_id A).1
  ∧ rg_apps (leave_from_channel lim l connection_id client_id r).1 = rg_apps r.
Proof.
  intros Hlim Hs Hl. unfold leave_from_channel, roster_leave.
  set (k := (app_id, channel, client_id, connection_id)).
  pose proof (sim_channel_members _ _ _ _ _ _ client_id connection_id Hs Hl) as Hk. fold k in Hk.
  unfold clients_view in Hk. destruct (state_at r l !! client_id) as [c|] eqn:Hc; simpl in Hk;
    [|by rewrite Hk].
  pose proof (sim_wf _ _ _ Hs _ _ _ _ _ Hl Hc) as Hwf.
  destruct (client_remove_spec _ _ _ _ connection_id Hwf) as (c' & Hrem & Hsh & Hwf' & He & Hview).
  rewrite Hrem, <- Hk. destruct (ro_members A !! k) as [member|] eqn:Hm.
  - assert (client_is_empty c'
      = sole_member (ro_members A) app_id channel client_id connection_id) as Hlast.
    { apply eq_bool_prop_intro. rewrite !Is_true_true, He, sole_member_spec.
      split; intros Hx x.
      - intros Hne. rewrite (sim_channel_members _ _ _ _ _ _ _ _ Hs Hl).
        unfold clients_view. rewrite Hc. simpl. rewrite <- (Hx x), Hview. by rewrite decide_False.
      - rewrite Hview. case_decide as Hd; [done|]. specialize (Hx _ Hd).
        rewrite (sim_channel_members _ _ _ _ _ _ _ _ Hs Hl) in Hx.
        unfold clients_view in Hx. by rewrite Hc in Hx. }
    rewrite <- Hlast. split; [done|]. split; [|done]. cbn [fst].
    destruct Hwf as [Hshard _]. rewrite Hshard. eapply sim_remove; try done.
    eapply (release_member_wf lim k); [done|apply Hs|done].
  - split; [done|]. split; [|done]. cbn [fst].
    assert (client_is_empty c' = false) as Hne.
    { apply not_true_is_false. intros Ht. destruct (client_nonempty _ _ _ _ Hwf) as (x & m & Hx).
      pose proof (proj1 He Ht x) as Hn. rewrite Hview in Hn. case_decide; congruence. }
    pose proof (sim_remove lim r A app_id channel l connection_id client_id c c' (capacity_of r)
      Hs Hl Hc Hwf' He Hview) as Hgo. fold k in Hgo. rewrite Hne, delete_id in Hgo by done.
    destruct A. apply Hgo, Hs.
Qed.

Lemma presence_leave_sim lim r A app_id channel connection_id client_id :
  lim_wf lim → sim lim r A →
  (presence_leave lim app_id channel connection_id client_id r).2
  = (roster_leave app_id channel connection_id client_id A).2
  ∧ sim lim (presence_leave lim app_id channel connection_id client_id r).1
      (roster_leave app_id channel connection_id client_id A).1
  ∧ rg_apps (presence_leave lim app_id channel connection_id client_id r).1 = rg_apps r.
Proof.
  intros Hlim Hs. unfold presence_leave.
  assert (connection_channel app_id channel connection_id r
    = chans ← connection_channels r app_id connection_id; chans !! channel) as Hcc.
  { unfold connection_channel, connection_channels. by destruct (rg_apps r !! app_id). }
  destruct (connection_channel _ _ _ _) as [l|] eqn:Hl.
  - symmetry in Hcc. apply bind_Some in Hcc as (chans & Hch & Hl').
    apply leave_from_channel_sim; [done..|]. by eapply Hs.
  - unfold roster_leave. destruct (ro_members A !! _) as [m|] eqn:Hm; [|done].
    destruct (sim_owner _ _ _ Hs app_id channel client_id connection_id) as (chans & Hch & [l Hl']);
      [by eauto|]. rewrite Hch in Hcc. simpl in Hcc. congruence.
Qed.

(** Several leaves of one connection. *)
Lemma leave_each_sim lim app_id connection_id chans owned r A :
  lim_wf lim → sim lim r A →
  Forall (λ o, ∃ l, chans !! o.1 = Some l ∧ channel_loc r app_id o.1 = Some l) owned →
  let keys := (λ o, (o.1, o.2, connection_id)) <$> owned in
  (leave_each lim connection_id chans owned r).2 = (roster_leave_each app_id keys A).2
  ∧ sim lim (leave_each lim connection_id chans owned r).1 (roster_leave_each app_id keys A).1
  ∧ rg_apps (leave_each lim connection_id chans owned r).1 = rg_apps r.
Proof.
  intros Hlim. revert r A. induction owned as [|[channel client_id] owned IH]; intros r A Hs Ho;
    [done|]. apply Forall_cons in Ho as [(l & Hch & Hl) Ho]. simpl in Hch, Hl. csimpl. rewrite Hch.
  destruct (leave_from_channel_sim lim r A app_id channel l connection_id client_id)
    as (Heq & Hs' & Happs); [done..|].
  destruct (leave_from_channel lim l connection_id client_id r) as [r1 t1].
  destruct (roster_leave app_id channel connection_id client_id A) as [A1 t1']. simpl in *. subst.
  destruct (IH r1 A1 Hs') as (Heq & Hs2 & Happs2).
  { eapply Forall_impl; [exact Ho|]. intros o. unfold channel_loc. by rewrite Happs. }
  destruct (leave_each lim connection_id chans owned r1) as [r2 t2].
  destruct (roster_leave_each _ _ A1) as [A2 t2']. simpl in *. subst. by rewrite Happs2.
Qed.

Lemma leave_connections_sim lim app_id channel client_id connections r A :
  lim_wf lim → sim lim r A →
  let keys := (λ c, (channel, client_id, c)) <$> connections in
  (leave_connections lim app_id channel client_id connections r).2
  = (roster_leave_each app_id keys A).2
  ∧ sim lim (leave_connections lim app_id channel client_id connections r).1
      (roster_leave_each app_id keys A).1.
Proof.
  intros Hlim. revert r A. induction connections as [|c connections IH]; intros r A Hs; [done|].
  csimpl. destruct (presence_leave_sim lim r A app_id channel c client_id)
    as (Heq & Hs' & _); [done..|].
  destruct (presence_leave lim app_id channel c client_id r) as [r1 t1].
  destruct (roster_leave app_id channel c client_id A) as [A1 t1']. simpl in *. subst.
  destruct (IH r1 A1 Hs') as (Heq & Hs2).
  destruct (leave_connections _ _ _ _ connections r1) as [r2 t2].
  destruct (roster_leave_each _ _ A1) as [A2 t2']. simpl in *. by subst.
Qed.

Lemma roster_leave_each_lookup app_id keys A a ch cl c :
  ro_connections (roster_leave_each app_id keys A).1 = ro_connections A
  ∧ ro_members (roster_leave_each app_id keys A).1 !! (a, ch, cl, c)
    = if decide (a = app_id ∧ (ch, cl, c) ∈ keys) then None
      else ro_members A !! (a, ch, cl, c).
Proof.
  revert A. induction keys as [|[[ch0 cl0] c0] keys IH]; intros A; csimpl.
  { rewrite decide_False; [done|]. intros [_ Ho]. by apply elem_of_nil in Ho. }
  specialize (IH (roster_leave app_id ch0 c0 cl0 A).1).
  destruct (roster_leave app_id ch0 c0 cl0 A) as [A1 t] eqn:Hlv. simpl in IH.
  destruct (roster_leave_each app_id keys A1) as [A2 ts]. simpl in *.
  assert (ro_connections A1 = ro_connections A ∧ ro_members A1 !! (a, ch, cl, c)
    = if decide (a = app_id ∧ (ch, cl, c) = (ch0, cl0, c0)) then None
      else ro_members A !! (a, ch, cl, c)) as [Hc1 Hm1].
  { clear IH. unfold roster_leave in Hlv. destruct (ro_members A !! (app_id, ch0, cl0, c0)) as [m|] eqn:Hm;
      simplify_eq; (split; [done|]).
    - simpl. rewrite lookup_delete. repeat case_decide; destruct_and?; simplify_eq; try done;
        exfalso; eauto.
    - case_decide; [|done]. destruct_and?. by simplify_eq. }
  destruct IH as [-> ->]. split; [done|]. rewrite Hm1.
  repeat case_decide; rewrite ?elem_of_cons in *; try done; tauto.
Qed.

(** ** What a connection owns *)

Lemma elem_of_owned_clients clients connection_id client_id :
  client_id ∈ owned_clients clients connection_id
  ↔ is_Some (clients_view clients client_id connection_id).
Proof.
  unfold owned_clients, clients_view. rewrite list_elem_of_fmap. split.
  - intros ([cl c] & -> & [Hc Hin%elem_of_dash_iter]%list_elem_of_filter). simpl in *.
    rewrite Hin. rewrite client_contains_spec in Hc. by apply bool_decide_unpack in Hc.
  - intros [m Hm]. apply bind_Some in Hm as (c & Hc & Hm). exists (client_id, c).
    split; [done|]. apply list_elem_of_filter. rewrite elem_of_dash_iter. split; [|done].
    simpl. rewrite client_contains_spec. apply bool_decide_pack. by eauto.
Qed.

Lemma NoDup_owned_clients clients connection_id : NoDup (owned_clients clients connection_id).
Proof. apply NoDup_fmap_fst_filter, NoDup_dash_iter. Qed.

Lemma owned_perm lim r A app_id connection_id chans :
  sim lim r A → connection_channels r app_id connection_id = Some chans →
  (dash_iter chans ≫= λ kv, pair kv.1 <$> owned_clients (state_at r kv.2) connection_id)
  ≡ₚ roster_owned app_id connection_id (ro_members A).
Proof.
  intros Hs Hcc. apply NoDup_Permutation.
  - apply NoDup_bind.
    + intros [k l] [k' l'] y Hk Hk' (x & -> & _)%list_elem_of_fmap (x' & Hx & _)%list_elem_of_fmap.
      rewrite elem_of_dash_iter in *. by simplify_eq/=.
    + intros [k l] _. apply NoDup_fmap; [apply _|]. apply NoDup_owned_clients.
    + eapply (NoDup_fmap_1 fst), NoDup_dash_iter.
  - apply NoDup_roster_owned.
  - intros [ch cl]. rewrite list_elem_of_bind, elem_of_roster_owned. split.
    + intros ([k l] & (x & Hx & Hin)%list_elem_of_fmap & Hk%elem_of_dash_iter). simplify_eq/=.
      apply elem_of_owned_clients in Hin as [m Hm]. exists m.
      erewrite sim_channel_members; [done..|]. by eapply Hs.
    + intros Hm. destruct (sim_owner _ _ _ Hs app_id ch cl connection_id Hm) as (cs & Hcs & [l Hl]).
      rewrite Hcc in Hcs. simplify_eq. exists (ch, l). rewrite elem_of_dash_iter. split; [|done].
      apply list_elem_of_fmap. exists cl. split; [done|]. apply elem_of_owned_clients. simpl.
      erewrite <- sim_channel_members; [by eauto|done|]. by eapply Hs.
Qed.

Lemma pair_key_le_anti (l : list (string * string)) x y :
  x ∈ l → y ∈ l → key_le x y → key_le y x → x = y.
Proof. intros _ _. apply (anti_symm key_le). Qed.

(** A connection without members may be removed. *)
Lemma sim_forget lim r A app_id app connection_id :
  sim lim (with_app r app_id app) A →
  (∀ channel client_id, ro_members A !! (app_id, channel, client_id, connection_id) = None) →
  sim lim (with_app r app_id {| pa_connections := delete connection_id (pa_connections app);
                                pa_channels := pa_channels app |})
    {| ro_connections := ro_connections A ∖ {[(app_id, connection_id)]};
       ro_members := ro_members A |}.
Proof.
  intros [Hconns Hcached Halloc Hinj Hmem Hwf Howner Hcap] Hno. set (r' := with_app _ _ _).
  assert (∀ a ch, channel_loc r' a ch = channel_loc (with_app r app_id app) a ch) as Hloc.
  { intros a ch. unfold r'. by rewrite !channel_loc_with_app. }
  assert (∀ a c, connection_channels r' a c
    = if decide (a = app_id ∧ c = connection_id) then None
      else connection_channels (with_app r app_id app) a c) as Hcc.
  { intros a c. unfold r'. rewrite !connection_channels_with_app. simpl. rewrite lookup_delete.
    repeat case_decide; naive_solver. }
  split; intros *; rewrite ?Hloc, ?Hcc; try done; simpl.
  - rewrite elem_of_difference, Hconns, elem_of_singleton. case_decide as Hd.
    + destruct Hd as [-> ->]. split; [naive_solver|by intros [? ?]].
    + split; [naive_solver|]. intros ?. split; [done|]. intros [= -> ->]. by apply Hd.
  - case_decide; [done|apply Hcached].
  - apply Halloc.
  - apply Hinj.
  - rewrite Hmem. unfold registry_view. by rewrite Hloc.
  - apply Hwf.
  - intros Hm. case_decide as Hd; [|by eapply Howner].
    destruct Hd as [-> ->]. rewrite Hno in Hm. by destruct Hm.
Qed.

Lemma no_connection_no_members lim r A app_id connection_id :
  sim lim r A → connection_channels r app_id connection_id = None →
  ∀ channel client_id, ro_members A !! (app_id, channel, client_id, connection_id) = None.
Proof.
  intros Hs Hn channel client_id. apply eq_None_not_Some. intros Hm.
  destruct (sim_owner _ _ _ Hs _ _ _ _ Hm) as (? & ? & _). congruence.
Qed.

Lemma roster_select_nil {B} (f : member_key → PresenceRecord → option B) M :
  (∀ k m, M !! k = Some m → f k m = None) → roster_select f M = [].
Proof.
  intros Hf. destruct (roster_select f M) as [|b l] eqn:Hl; [done|].
  assert (b ∈ roster_select f M) as (k & m & Hm & Hb)%elem_of_roster_select
    by (rewrite Hl; by left). rewrite (Hf _ _ Hm) in Hb. done.
Qed.

Lemma unregister_sim lim r A app_id connection_id :
  lim_wf lim → sim lim r A →
  (unregister_connection lim app_id connection_id r).2 = (roster_unregister app_id connection_id A).2
  ∧ sim lim (unregister_connection lim app_id connection_id r).1
      (roster_unregister app_id connection_id A).1.
Proof.
  intros Hlim Hs. unfold unregister_connection, roster_unregister.
  destruct (connection_channels r app_id connection_id) as [chans|] eqn:Hcc.
  - pose proof (owned_perm _ _ _ _ _ _ Hs Hcc) as Hp.
    pose proof Hcc as Hcc'. apply bind_Some in Hcc' as (app & Happ & Hconn). rewrite Happ, Hconn.
    rewrite (stable_sort_eq key_le _ _ (pair_key_le_anti _) Hp).
    set (owned := stable_sort key_le (roster_owned _ _ _)).
    assert (∀ o, o ∈ owned ↔ is_Some (ro_members A !! (app_id, o.1, o.2, connection_id))) as Ho.
    { intros [ch cl]. unfold owned. by rewrite stable_sort_perm, elem_of_roster_owned. }
    destruct (leave_each_sim lim app_id connection_id chans owned r A) as (Heq & Hs' & Ha); [done..| |].
    { apply Forall_forall. intros o Hin%Ho. 
      destruct (sim_owner _ _ _ Hs _ _ _ _ Hin) as (cs & Hcs & [l Hl]).
      rewrite Hcc in Hcs. simplify_eq. exists l. split; [done|]. by eapply Hs. }
    destruct (leave_each _ _ _ _ _) as [r' rs]. simpl in Heq, Hs', Ha.
    pose proof (roster_leave_each_lookup app_id ((λ o, (o.1, o.2, connection_id)) <$> owned) A) as Hlk.
    destruct (roster_leave_each _ _ _) as [A' rs']. simpl in *. split; [done|].
    apply sim_forget; [by rewrite with_app_id by congruence|].
    intros ch cl. destruct (Hlk app_id ch cl connection_id) as [_ ->]. case_decide as Hd; [done|].
    apply eq_None_not_Some. intros Hin. apply Hd. split; [done|]. apply list_elem_of_fmap.
    exists (ch, cl). split; [done|]. by apply Ho.
  - pose proof (no_connection_no_members _ _ _ _ _ Hs Hcc) as Hno.
    unfold roster_owned. rewrite roster_select_nil; simpl.
    2:{ intros [[[a ch] cl] c] m Hm. case_bool_decide as Hd; [|done]. destruct Hd as [-> ->].
        by rewrite Hno in Hm. }
    assert (ro_connections A ∖ {[(app_id, connection_id)]} = ro_connections A) as Hcs.
    { apply leibniz_equiv. assert ((app_id, connection_id) ∉ ro_connections A); [|set_solver].
      rewrite (sim_conns _ _ _ Hs), Hcc. by intros [? ?]. }
    rewrite Hcs. assert ({| ro_connections := ro_connections A; ro_members := ro_members A |} = A) as ->
      by by destruct A.
    unfold connection_channels in Hcc. destruct (rg_apps r !! app_id) as [app|]; [|done].
    simpl in Hcc. by rewrite Hcc.
Qed.

End leaves.
