(* ===== verification/PresenceRuns.v ===== *)
(** * Sequences of presence operations

    Detaching, superseding and the reads against the roster, and the theorems on every
    sequence of operations of a registry. *)

From Stdlib Require Import ZArith Lia.
From stdpp Require Import base gmap strings list sorting.
From S2P Require Import Prelude Errors Messages PresenceRegistry PresenceRoster PresenceSim.
From S2P Require Import PresenceRegistryThms PresenceRefinement.

Lemma fmap_omap_id {A B} (g : A → option B) (f : B → A) (l : list A) :
  (∀ x, x ∈ l → ∃ y, g x = Some y ∧ f y = x) → f <$> omap g l = l.
Proof.
  induction l as [|x l IH]; intros Hl; [done|]. csimpl.
  destruct (Hl x) as (y & -> & Hy); [by left|]. csimpl. rewrite Hy, IH; [done|].
  intros z Hz. apply Hl. by right.
Qed.

(** ** Operations as data *)

Inductive PresenceOp : Type :=
| OpRegister (app_id connection_id : string)
| OpEnter (app_id channel : string) (member : PresenceRecord)
| OpUpdate (app_id channel : string) (member : PresenceRecord)
| OpLeave (app_id channel connection_id client_id : string)
| OpUnregister (app_id connection_id : string)
| OpDetach (app_id channel connection_id : string)
| OpRemoveExcept (app_id channel client_id connection_id : string).

Inductive PresenceReply : Type :=
| ReplyInserted (inserted : bool)
| ReplyPresent (transition : result Error PresenceTransition)
| ReplyLeft (transition : option PresenceTransition)
| ReplyRemovals (removals : list PresenceRemoval).

Definition reply {S T} (f : T → PresenceReply) (x : S * T) : S * PresenceReply := (x.1, f x.2).

Definition registry_op `{Dash, AHash} (lim : PresenceLimits) (op : PresenceOp) (r : PresenceRegistry)
    : PresenceRegistry * PresenceReply :=
  match op with
  | OpRegister a c => reply ReplyInserted (register_connection a c r)
  | OpEnter a ch m => reply ReplyPresent (presence_enter lim a ch m r)
  | OpUpdate a ch m => reply ReplyPresent (presence_update lim a ch m r)
  | OpLeave a ch c cl => reply ReplyLeft (presence_leave lim a ch c cl r)
  | OpUnregister a c => reply ReplyRemovals (unregister_connection lim a c r)
  | OpDetach a ch c => reply ReplyRemovals (detach_connection lim a ch c r)
  | OpRemoveExcept a ch cl c => reply ReplyRemovals (remove_client_except lim a ch cl c r)
  end.

Definition roster_op (max_members : Z) (op : PresenceOp) (A : Roster) : Roster * PresenceReply :=
  match op with
  | OpRegister a c => reply ReplyInserted (roster_register a c A)
  | OpEnter a ch m | OpUpdate a ch m => reply ReplyPresent (roster_enter max_members a ch m A)
  | OpLeave a ch c cl => reply ReplyLeft (roster_leave a ch c cl A)
  | OpUnregister a c => reply ReplyRemovals (roster_unregister a c A)
  | OpDetach a ch c => reply ReplyRemovals (roster_detach a ch c A)
  | OpRemoveExcept a ch cl c => reply ReplyRemovals (roster_remove_except a ch cl c A)
  end.

(** The final state and the replies of a sequence of operations. *)
Fixpoint run_ops {S} (step : PresenceOp → S → S * PresenceReply) (ops : list PresenceOp) (s : S)
    : S * list PresenceReply :=
  match ops with
  | [] => (s, [])
  | op :: ops =>
      let '(s, answer) := step op s in
      let '(s, answers) := run_ops step ops s in
      (s, answer :: answers)
  end.

Section reads.
Context `{DashLaws, AHash}.
Implicit Types (r : PresenceRegistry) (A : Roster) (lim : PresenceLimits).
Implicit Types (app : PresenceAppState) (clients : PresenceChannelState).
Implicit Types (app_id channel connection_id client_id : string) (l : nat).

Lemma register_sim lim r A app_id connection_id :
  sim lim r A →
  (register_connection app_id connection_id r).2 = (roster_register app_id connection_id A).2
  ∧ sim lim (register_connection app_id connection_id r).1
      (roster_register app_id connection_id A).1.
Proof.
  intros Hs. unfold register_connection, roster_register. simpl.
  assert ((app_id, connection_id) ∈ ro_connections A
    ↔ is_Some (pa_connections (default new_app (rg_apps r !! app_id)) !! connection_id)) as Hreg.
  { rewrite (sim_conns _ _ _ Hs). unfold connection_channels. by destruct (rg_apps r !! app_id). }
  assert (sim lim (with_app r app_id (default new_app (rg_apps r !! app_id))) A) as Hs0.
  { destruct (rg_apps r !! app_id) as [app|] eqn:Happ; simpl; [by rewrite with_app_id|].
    assert (∀ a ch, channel_loc (with_app r app_id new_app) a ch = channel_loc r a ch) as Hloc.
    { intros a ch. rewrite channel_loc_with_app. case_decide; [|done]. subst.
      unfold channel_loc. by rewrite Happ. }
    assert (∀ a c, connection_channels (with_app r app_id new_app) a c = connection_channels r a c)
      as Hcc.
    { intros a c. rewrite connection_channels_with_app. case_decide; [|done]. subst.
      unfold connection_channels. by rewrite Happ. }
    destruct Hs. split; intros *; unfold registry_view; rewrite ?Hloc, ?Hcc; eauto. }
  set (app := default new_app (rg_apps r !! app_id)) in *. clearbody app.
  destruct (pa_connections app !! connection_id) as [chans|] eqn:Hc; simpl.
  - rewrite bool_decide_false by (rewrite Hreg; eauto). split; [done|].
    assert ({[(app_id, connection_id)]} ∪ ro_connections A = ro_connections A) as ->.
    { apply leibniz_equiv. assert ((app_id, connection_id) ∈ ro_connections A)
        by (apply Hreg; eauto). set_solver. }
    by destruct A.
  - assert ((app_id, connection_id) ∉ ro_connections A) as Hni by (rewrite Hreg; by intros [? ?]).
    rewrite bool_decide_true by done. split; [done|]. set (r' := with_app _ _ _).
    assert (∀ a ch, channel_loc r' a ch = channel_loc (with_app r app_id app) a ch) as Hloc.
    { intros a ch. unfold r'. by rewrite !channel_loc_with_app. }
    assert (∀ a c, connection_channels r' a c
      = if decide (a = app_id ∧ c = connection_id) then Some ∅
        else connection_channels (with_app r app_id app) a c) as Hcc.
    { intros a c. unfold r'. rewrite !connection_channels_with_app. simpl. rewrite lookup_insert.
      repeat case_decide; naive_solver. }
    destruct Hs0 as [Hconns Hcached Halloc Hinj Hmem Hwf Howner Hcap].
    split; intros *; rewrite ?Hloc, ?Hcc; try done; simpl.
    + rewrite elem_of_union, elem_of_singleton, Hconns. case_decide as Hd.
      * destruct Hd as [-> ->]. split; eauto.
      * split; [|by right]. intros [[= -> ->]|]; [|done]. by destruct Hd.
    + case_decide; [by intros [= <-]|]. apply Hcached.
    + apply Halloc.
    + apply Hinj.
    + rewrite Hmem. unfold registry_view. by rewrite Hloc.
    + apply Hwf.
    + intros Hm. destruct (Howner _ _ _ _ Hm) as (chans & Hch & Hin).
      case_decide as Hd; [|by eauto]. destruct Hd as [-> ->].
      by rewrite connection_channels_with_app, decide_True, Hc in Hch.
Qed.

Lemma elem_of_channel_clients app_id channel connection_id A client_id :
  client_id ∈ roster_select (λ '(a, ch, cl, c) _,
    if bool_decide (a = app_id ∧ ch = channel ∧ c = connection_id) then Some cl else None)
    (ro_members A)
  ↔ is_Some (ro_members A !! (app_id, channel, client_id, connection_id)).
Proof.
  rewrite elem_of_roster_select. split.
  - intros ([[[a ch] cl] c] & m & Hm & Hf). case_bool_decide; [|done]. destruct_and?. simplify_eq.
    by eauto.
  - intros [m Hm]. exists (app_id, channel, client_id, connection_id), m.
    by rewrite bool_decide_true.
Qed.

Lemma detach_sim lim r A app_id channel connection_id :
  lim_wf lim → sim lim r A →
  (detach_connection lim app_id channel connection_id r).2
  = (roster_detach app_id channel connection_id A).2
  ∧ sim lim (detach_connection lim app_id channel connection_id r).1
      (roster_detach app_id channel connection_id A).1.
Proof.
  intros Hlim Hs. unfold detach_connection, roster_detach. set (f := λ '(a, ch, cl, c) _, _).
  destruct (connection_channels r app_id connection_id ≫= (.!! channel)) as [l|] eqn:Hcc.
  - apply bind_Some in Hcc as (chans & Hcc & Hl).
    pose proof Hcc as Hcc'. apply bind_Some in Hcc' as (app & Happ & Hconn).
    rewrite Happ, Hconn, Hl. pose proof (sim_cached _ _ _ Hs _ _ _ _ _ Hcc Hl) as Hloc.
    assert (owned_clients (state_at r l) connection_id ≡ₚ roster_select f (ro_members A)) as Hp.
    { apply NoDup_Permutation; [apply NoDup_owned_clients| |].
      - apply NoDup_roster_select. intros [[[a ch] cl] c] [[[a' ch'] cl'] c'] m m' b _ _. unfold f.
        repeat case_bool_decide; naive_solver.
      - intros cl. unfold f. rewrite elem_of_owned_clients, elem_of_channel_clients.
        by rewrite (sim_channel_members _ _ _ _ _ _ _ _ Hs Hloc). }
    rewrite (stable_sort_eq key_le _ _ (λ x y _ _, anti_symm key_le x y) Hp).
    set (ids := stable_sort key_le (roster_select f (ro_members A))).
    destruct (leave_each_sim lim app_id connection_id chans (pair channel <$> ids) r A)
      as (Heq & Hs' & Ha); [done..| |].
    { apply Forall_fmap, Forall_forall. intros cl _. simpl. by eauto. }
    rewrite <- list_fmap_compose in Heq, Hs'. unfold compose in Heq, Hs'. simpl in Heq, Hs'.
    destruct (leave_each _ _ _ _ _) as [r' rs]. simpl in Heq, Hs', Ha.
    pose proof (roster_leave_each_lookup app_id ((λ cl, (channel, cl, connection_id)) <$> ids) A) as Hlk.
    destruct (roster_leave_each _ _ _) as [A' rs']. simpl in *. split; [done|].
    assert (rg_apps r' !! app_id = Some app) as Happ' by by rewrite Ha.
    assert (channel_loc r' app_id channel = Some l) as Hloc' by (unfold channel_loc in *; by rewrite Ha).
    eapply sim_shrink; [by rewrite with_app_id|done|apply delete_subseteq|].
    intros ch l' cl Hl' Hd. rewrite lookup_delete in Hd. case_decide; [subst|congruence]. simplify_eq.
    rewrite <- (sim_channel_members _ _ _ _ _ _ _ _ Hs' Hloc').
    destruct (Hlk app_id ch cl connection_id) as [_ ->]. case_decide as Hd'; [done|].
    apply eq_None_not_Some. intros Hin. apply Hd'. split; [done|]. apply list_elem_of_fmap.
    exists cl. split; [done|]. unfold ids. rewrite stable_sort_perm. by apply elem_of_channel_clients.
  - rewrite roster_select_nil; simpl.
    2:{ intros [[[a ch] cl] c] m Hm. unfold f. case_bool_decide; [|done]. destruct_and?. subst.
        destruct (sim_owner _ _ _ Hs app_id channel cl connection_id) as (cs & Hcs & [l Hl]);
          [by eauto|]. rewrite Hcs in Hcc. simpl in Hcc. congruence. }
    unfold connection_channels in Hcc. destruct (rg_apps r !! app_id) as [app|]; [|done].
    simpl in Hcc. destruct (pa_connections app !! connection_id) as [chans|]; [|done].
    simpl in Hcc. by rewrite Hcc.
Qed.

Lemma connection_ids_except_spec app_id channel client_id c connection_id :
  client_wf app_id channel client_id c →
  NoDup (connection_ids_except c connection_id)
  ∧ ∀ x, x ∈ connection_ids_except c connection_id ↔ x ≠ connection_id ∧ is_Some (member_at c x).
Proof.
  intros [_ Hwf]. unfold connection_ids_except, member_at. destruct (pcm_members c) as [|m|ms]; [done| |].
  - case_bool_decide as Hd.
    + split; [apply NoDup_singleton|]. intros x. rewrite list_elem_of_singleton. split.
      * intros ->. by rewrite bool_decide_true by done.
      * intros [_ Hs]. case_bool_decide; [done|by destruct Hs].
    + split; [constructor|]. intros x. rewrite elem_of_nil. split; [done|].
      intros [Hx Hs]. case_bool_decide; [congruence|by destruct Hs].
  - split; [apply NoDup_filter, NoDup_dash_iter|]. intros x.
    rewrite list_elem_of_filter. apply and_iff_compat_l. rewrite list_elem_of_fmap. split.
    + intros ([k m] & -> & Hin%elem_of_dash_iter). by eauto.
    + intros [m Hm]. exists (x, m). by rewrite elem_of_dash_iter.
Qed.

Lemma remove_except_sim lim r A app_id channel client_id connection_id :
  lim_wf lim → sim lim r A →
  (remove_client_except lim app_id channel client_id connection_id r).2
  = (roster_remove_except app_id channel client_id connection_id A).2
  ∧ sim lim (remove_client_except lim app_id channel client_id connection_id r).1
      (roster_remove_except app_id channel client_id connection_id A).1.
Proof.
  intros Hlim Hs. unfold remove_client_except, roster_remove_except.
  set (f := λ '(a, ch, cl, c) _, _).
  assert (∀ x, x ∈ roster_select f (ro_members A) ↔ x ≠ connection_id
    ∧ is_Some (registry_view r app_id channel client_id x)) as Hin.
  { intros x. rewrite elem_of_roster_select, <- (sim_members _ _ _ Hs). unfold f. split.
    - intros ([[[a ch] cl] c] & m & Hm & Hf). case_bool_decide; [|done]. destruct_and?.
      simplify_eq. by eauto.
    - intros [Hx [m Hm]]. exists (app_id, channel, client_id, x), m.
      by rewrite bool_decide_true. }
  assert (NoDup (roster_select f (ro_members A))) as Hnd.
  { apply NoDup_roster_select. intros [[[a ch] cl] c] [[[a' ch'] cl'] c'] m m' b _ _. unfold f.
    repeat case_bool_decide; naive_solver. }
  assert (channel_loc r app_id channel = None → roster_select f (ro_members A) = []) as Hnone.
  { intros Hl. apply roster_select_nil. intros [[[a ch] cl] c] m Hm. unfold f.
    case_bool_decide; [|done]. destruct_and?. subst. rewrite (sim_members _ _ _ Hs) in Hm.
    unfold registry_view in Hm. by rewrite Hl in Hm. }
  unfold registry_view in Hin. unfold channel_loc in *.
  destruct (rg_apps r !! app_id) as [app|] eqn:Happ; [|by rewrite Hnone].
  simpl in Hnone, Hin. destruct (pa_channels app !! channel) as [l|] eqn:Hl; [|by rewrite Hnone].
  simpl in Hin.
  rewrite (stable_sort_eq key_le _ (roster_select f (ro_members A))
             (λ x y _ _, anti_symm key_le x y)); [by apply leave_connections_sim|].
  unfold clients_view in Hin. destruct (state_at r l !! client_id) as [c|] eqn:Hc.
  - destruct (connection_ids_except_spec app_id channel client_id c connection_id) as [Hnd' Hin'].
    { eapply Hs; [|done]. unfold channel_loc. by rewrite Happ. }
    apply NoDup_Permutation; [done..|]. intros x. by rewrite Hin, Hin'.
  - apply NoDup_Permutation; [constructor|done|]. intros x. rewrite Hin, elem_of_nil.
    split; [done|]. by intros [_ [? ?]].
Qed.

(** ** Reads *)

Lemma client_records_spec app_id channel client_id c :
  client_wf app_id channel client_id c →
  NoDup (client_records c) ∧ ∀ m, m ∈ client_records c ↔ ∃ x, member_at c x = Some m.
Proof.
  intros [_ Hwf]. unfold client_records, member_at. destruct (pcm_members c) as [|m|ms]; [done| |].
  - split; [apply NoDup_singleton|]. intros m'. rewrite list_elem_of_singleton. split.
    + intros ->. exists (pr_connection_id m). by rewrite bool_decide_true.
    + intros [x Hx]. case_bool_decide; by simplify_eq.
  - destruct Hwf as [_ Hms]. split.
    + apply (NoDup_fmap_1 pr_connection_id). rewrite <- list_fmap_compose.
      rewrite (list_fmap_ext _ fst); [apply NoDup_dash_iter|].
      intros i [k m] Hin%list_elem_of_lookup_2%elem_of_dash_iter. by apply Hms in Hin as [? _].
    + intros m. rewrite list_elem_of_fmap. split.
      * intros ([k m'] & -> & Hin%elem_of_dash_iter). by eauto.
      * intros [x Hx]. exists (x, m). by rewrite elem_of_dash_iter.
Qed.

#[local] Instance record_le_trans : Transitive record_le.
Proof. intros x y z. unfold record_le. by trans (record_key y). Qed.

#[local] Instance record_le_total : base.Total record_le.
Proof. intros x y. unfold record_le. apply (total key_le). Qed.

Lemma snapshot_sim lim r A app_id channel :
  sim lim r A → snapshot app_id channel r = roster_snapshot app_id channel A.
Proof.
  intros Hs. unfold snapshot, roster_snapshot. set (f := λ '(a, ch, _, _) member, _).
  assert (channel_loc r app_id channel = None → roster_select f (ro_members A) = []) as Hnone.
  { intros Hl. apply roster_select_nil. intros [[[a ch] cl] c] m Hm. unfold f.
    case_bool_decide; [|done]. destruct_and?. subst. rewrite (sim_members _ _ _ Hs) in Hm.
    unfold registry_view in Hm. by rewrite Hl in Hm. }
  destruct (channel_loc r app_id channel) as [l|] eqn:Hloc.
  - pose proof Hloc as Hloc'. apply bind_Some in Hloc' as (app & Happ & Hl). rewrite Happ, Hl.
    assert (∀ m, m ∈ (dash_iter (state_at r l) ≫= λ kv, client_records kv.2) ↔
      ∃ cl c, clients_view (state_at r l) cl c = Some m) as Hin.
    { intros m. rewrite list_elem_of_bind. unfold clients_view. split.
      - intros ([cl c] & Hm & Hc%elem_of_dash_iter).
        apply (client_records_spec app_id channel cl) in Hm as [x Hx]; [|by eapply Hs].
        exists cl, x. by rewrite Hc.
      - intros (cl & x & (c & Hc & Hx)%bind_Some). exists (cl, c). rewrite elem_of_dash_iter.
        split; [|done]. apply (client_records_spec app_id channel cl); [by eapply Hs|by eauto]. }
    assert (∀ cl c m, clients_view (state_at r l) cl c = Some m → record_key m = (c, cl)) as Hkey.
    { intros cl x m (c & Hc & Hx)%bind_Some. unfold record_key.
      destruct (member_at_id app_id channel cl c x m) as [-> ->]; [by eapply Hs|done|done]. }
    refine (stable_sort_eq record_le _ _ _ _).
    + intros x y Hx Hy Hle Hge. apply (anti_symm key_le (record_key x)) in Hge; [|done].
      apply Hin in Hx as (cl & c & Hx), Hy as (cl' & c' & Hy).
      rewrite (Hkey _ _ _ Hx), (Hkey _ _ _ Hy) in Hge. by simplify_eq.
    + apply NoDup_Permutation.
      * apply NoDup_bind; [| |eapply (NoDup_fmap_1 fst), NoDup_dash_iter].
        -- intros [cl c] [cl' c'] m Hc Hc' Hm Hm'. rewrite elem_of_dash_iter in *.
           apply (client_records_spec app_id channel cl) in Hm as [x Hx]; [|by eapply Hs].
           apply (client_records_spec app_id channel cl') in Hm' as [x' Hx']; [|by eapply Hs].
           apply (member_at_id app_id channel cl) in Hx as [_ ?]; [|by eapply Hs].
           apply (member_at_id app_id channel cl') in Hx' as [_ ?]; [|by eapply Hs]. by simplify_eq.
        -- intros [cl c] Hc%elem_of_dash_iter.
           by apply (client_records_spec app_id channel cl); eapply Hs.
      * apply NoDup_roster_select. intros [[[a ch] cl] c] [[[a' ch'] cl'] c'] m m' b Hm Hm'.
        unfold f. repeat case_bool_decide; try done. destruct_and?. intros [= ->] [= ->]. subst.
        rewrite (sim_channel_members _ _ _ _ _ _ _ _ Hs Hloc) in Hm.
        rewrite (sim_channel_members _ _ _ _ _ _ _ _ Hs Hloc) in Hm'.
        apply Hkey in Hm, Hm'. congruence.
      * intros m. rewrite Hin, elem_of_roster_select. unfold f. split.
        -- intros (cl & c & Hm). exists (app_id, channel, cl, c), m.
           rewrite (sim_channel_members _ _ _ _ _ _ _ _ Hs Hloc). by rewrite bool_decide_true.
        -- intros ([[[a ch] cl] c] & m' & Hm & Hf). case_bool_decide; [|done]. destruct_and?.
           simplify_eq. rewrite (sim_channel_members _ _ _ _ _ _ _ _ Hs Hloc) in Hm. by eauto.
  - rewrite Hnone by done. unfold channel_loc in Hloc.
    destruct (rg_apps r !! app_id) as [app|]; [|done]. simpl in Hloc. by rewrite Hloc.
Qed.

Lemma connection_reads_sim lim r A app_id connection_id :
  sim lim r A →
  has_connection app_id connection_id r
  = bool_decide ((app_id, connection_id) ∈ ro_connections A)
  ∧ (connection_has_members app_id connection_id r = true
     ↔ ∃ channel client_id, is_Some (ro_members A !! (app_id, channel, client_id, connection_id))).
Proof.
  intros Hs. pose proof (sim_conns _ _ _ Hs app_id connection_id) as Hc.
  unfold has_connection, connection_has_members.
  destruct (connection_channels r app_id connection_id) as [chans|] eqn:Hcc.
  - rewrite (bool_decide_true (_ ∈ _)) by (apply Hc; eauto).
    pose proof Hcc as Hcc'. apply bind_Some in Hcc' as (app & Happ & Hconn). rewrite Happ, Hconn.
    split; [done|]. rewrite existsb_exists. split.
    + intros ([ch l] & Hin%list_elem_of_In%elem_of_dash_iter & [cl Hv]%channel_contains_spec).
      exists ch, cl. simpl in *. erewrite sim_channel_members; [done..|]. by eapply Hs.
    + intros (ch & cl & Hm). destruct (sim_owner _ _ _ Hs _ _ _ _ Hm) as (cs & Hcs & [l Hl]).
      rewrite Hcc in Hcs. simplify_eq. exists (ch, l).
      split; [by apply list_elem_of_In, elem_of_dash_iter|]. apply channel_contains_spec. exists cl.
      simpl. erewrite <- sim_channel_members; [done..|]. by eapply Hs.
  - pose proof (no_connection_no_members _ _ _ _ _ Hs Hcc) as Hno.
    rewrite bool_decide_false by (rewrite Hc; by intros [? ?]).
    unfold connection_channels in Hcc. destruct (rg_apps r !! app_id) as [app|]; simpl in Hcc;
      rewrite ?Hcc; (split; [done|]); (split; [done|]); intros (ch & cl & [m Hm]); by rewrite Hno in Hm.
Qed.

Lemma member_count_sim lim r A : sim lim r A → member_count r = Z.of_nat (size (ro_members A)).
Proof. intros Hs. apply (cap_totals lim (capacity_of r)), Hs. Qed.

(** ** Sequences of operations *)

Lemma op_sim lim op r A :
  lim_wf lim → sim lim r A →
  (registry_op lim op r).2 = (roster_op (pl_max_members lim) op A).2
  ∧ sim lim (registry_op lim op r).1 (roster_op (pl_max_members lim) op A).1.
Proof.
  intros Hlim Hs. destruct op; unfold registry_op, roster_op, reply; cbn [fst snd].
  - edestruct register_sim as [-> ?]; [done|]. by split.
  - unfold presence_enter. edestruct apply_present_sim as [-> ?]; [done..|]. by split.
  - unfold presence_update. edestruct apply_present_sim as [-> ?]; [done..|]. by split.
  - edestruct presence_leave_sim as (-> & ? & _); [done..|]. by split.
  - edestruct unregister_sim as [-> ?]; [done..|]. by split.
  - edestruct detach_sim as [-> ?]; [done..|]. by split.
  - edestruct remove_except_sim as [-> ?]; [done..|]. by split.
Qed.

Lemma run_sim lim ops r A :
  lim_wf lim → sim lim r A →
  (run_ops (registry_op lim) ops r).2 = (run_ops (roster_op (pl_max_members lim)) ops A).2
  ∧ sim lim (run_ops (registry_op lim) ops r).1 (run_ops (roster_op (pl_max_members lim)) ops A).1.
Proof.
  intros Hlim. revert r A. induction ops as [|op ops IH]; intros r A Hs; [done|]. simpl.
  destruct (op_sim lim op r A) as [Heq Hs']; [done..|].
  destruct (registry_op lim op r) as [r1 a1], (roster_op _ op A) as [A1 a1']. simpl in *. subst.
  destruct (IH _ _ Hs') as [Heq Hs2].
  destruct (run_ops (registry_op lim) ops r1) as [r2 a2], (run_ops (roster_op _) ops A1) as [A2 a2'].
  simpl in *. by subst.
Qed.

Lemma sim_new_registry lim : lim_wf lim → sim lim new_registry empty_roster.
Proof.
  intros []. split; try done.
  - intros a c. unfold connection_channels. simpl. rewrite lookup_empty. split; [set_solver|].
    by intros [? ?].
  - intros a ch cl c [m Hm]. simpl in Hm. by rewrite lookup_empty in Hm.
  - unfold capacity_of, new_registry. cbn [rg_shards rg_reserved_capacity ro_members empty_roster].
    split; cbn [fst snd].
    + by rewrite length_replicate.
    + intros i sh [-> _]%lookup_replicate. unfold shard_members.
      by rewrite map_filter_empty, map_size_empty.
    + by apply Forall_replicate.
    + generalize (Z.to_nat COORDINATION_SHARDS) as n. induction n; simpl; lia.
    + lia.
Qed.

Lemma member_ids lim r A app_id channel client_id connection_id m :
  sim lim r A → ro_members A !! (app_id, channel, client_id, connection_id) = Some m →
  pr_client_id m = client_id ∧ pr_connection_id m = connection_id.
Proof.
  intros Hs Hm. rewrite (sim_members _ _ _ Hs) in Hm.
  apply bind_Some in Hm as (l & Hl & (cm & Hcm & Hm)%bind_Some).
  by destruct (member_at_id app_id channel client_id cm connection_id m); [eapply Hs|..].
Qed.

Lemma elem_of_snapshot lim r A app_id channel m :
  sim lim r A →
  m ∈ snapshot app_id channel r
  ↔ ro_members A !! (app_id, channel, pr_client_id m, pr_connection_id m) = Some m.
Proof.
  intros Hs. rewrite (snapshot_sim _ _ _ _ _ Hs). unfold roster_snapshot.
  rewrite stable_sort_perm, elem_of_roster_select. split.
  - intros ([[[a ch] cl] c] & m' & Hm & Hf). case_bool_decide; [|done]. destruct_and?. simplify_eq.
    by destruct (member_ids _ _ _ _ _ _ _ _ Hs Hm) as [-> ->].
  - intros Hm. exists (app_id, channel, pr_client_id m, pr_connection_id m), m.
    by rewrite bool_decide_true.
Qed.

(** The removals of the members of one connection. *)
Lemma roster_leave_each_removals app_id connection_id owned A :
  NoDup owned →
  (roster_leave_each app_id ((λ o, (o.1, o.2, connection_id)) <$> owned) A).2
  = omap (λ o, (λ m, {| rm_channel := o.1; rm_member := m;
      rm_last_for_client := sole_member (ro_members A) app_id o.1 o.2 connection_id |})
      <$> ro_members A !! (app_id, o.1, o.2, connection_id)) owned.
Proof.
  intros Hnd. revert A. induction Hnd as [|[ch cl] owned Hn Hnd IH]; intros A; [done|]. csimpl.
  unfold roster_leave. destruct (ro_members A !! (app_id, ch, cl, connection_id)) as [m|] eqn:Hm;
    csimpl; [set (A' := {| ro_connections := _ |})|set (A' := A)];
    specialize (IH A'); destruct (roster_leave_each _ _ A') as [A2 rs]; simpl in *; [|done].
  f_equal. rewrite IH. clear IH. apply list_omap_ext, Forall2_same_length_lookup.
  split; [done|]. intros i o o' Ho Ho'. rewrite Ho in Ho'. simplify_eq. destruct o' as [ch' cl'].
  assert ((ch', cl') ≠ (ch, cl)) as Hne.
  { intros [= -> ->]. apply Hn. by eapply list_elem_of_lookup_2. }
  simpl. rewrite lookup_delete_ne by congruence.
  replace (sole_member (delete _ _) _ _ _ _)
    with (sole_member (ro_members A) app_id ch' cl' connection_id); [done|].
  apply eq_bool_prop_intro. rewrite !Is_true_true, !sole_member_spec.
  apply forall_proper. intros x. split; intros Hx Hd; specialize (Hx Hd);
    rewrite lookup_delete_ne in *; congruence.
Qed.

(** What unregistering a connection does to the roster. *)
Lemma roster_unregister_spec app_id connection_id A :
  let '(A', removals) := roster_unregister app_id connection_id A in
  let owned := stable_sort key_le (roster_owned app_id connection_id (ro_members A)) in
  removals
  = omap (λ o, (λ m, {| rm_channel := o.1; rm_member := m;
      rm_last_for_client := sole_member (ro_members A) app_id o.1 o.2 connection_id |})
      <$> ro_members A !! (app_id, o.1, o.2, connection_id)) owned
  ∧ (app_id, connection_id) ∉ ro_connections A'
  ∧ ∀ a ch cl c, ro_members A' !! (a, ch, cl, c)
      = if decide (a = app_id ∧ c = connection_id) then None else ro_members A !! (a, ch, cl, c).
Proof.
  unfold roster_unregister. set (owned := stable_sort key_le _).
  pose proof (roster_leave_each_removals app_id connection_id owned A) as Hr.
  pose proof (roster_leave_each_lookup app_id ((λ o, (o.1, o.2, connection_id)) <$> owned) A) as Hl.
  destruct (roster_leave_each _ _ A) as [A' removals]. simpl in *.
  split; [apply Hr; unfold owned; rewrite stable_sort_perm; apply NoDup_roster_owned|].
  split; [set_solver|]. intros a ch cl c. destruct (Hl a ch cl c) as [_ ->].
  destruct (decide (a = app_id ∧ c = connection_id)) as [[-> ->]|Hd].
  - case_decide as Hin; [done|]. apply eq_None_not_Some. intros Hm. apply Hin. split; [done|].
    apply list_elem_of_fmap. exists (ch, cl). split; [done|].
    unfold owned. by rewrite stable_sort_perm, elem_of_roster_owned.
  - rewrite decide_False; [done|]. intros [-> (o & [= -> -> ->] & _)%list_elem_of_fmap]. by apply Hd.
Qed.

(** A registry reached by some sequence of operations. *)
Definition reachable_registry (max_members : Z) r : Prop :=
  ∃ ops, r = (run_ops (registry_op (presence_limits max_members)) ops new_registry).1.

Lemma reachable_sim max_members r :
  is_u64 max_members → reachable_registry max_members r →
  ∃ A, sim (presence_limits max_members) r A.
Proof.
  intros Hmax [ops ->]. eexists. apply run_sim, sim_new_registry; by apply presence_limits_wf; u64_lia.
Qed.

(** ** The theorems *)

(** C2: the presence registry implements the flat roster: whatever sequence of operations runs
    on a new registry, every reply is the roster's — a member refused exactly when its
    connection is unknown or the registry is full, the replaced record, the first and last
    flags of the client, the removals in order of channel and client — and so is every read:
    the registered connections, the connections with members, the sorted snapshot of every
    channel and the number of members, which never exceeds the limit. *)
Theorem presence_refines (max_members : Z) (ops : list PresenceOp) :
  is_u64 max_members →
  let lim := presence_limits max_members in
  let r := (run_ops (registry_op lim) ops new_registry).1 in
  let A := (run_ops (roster_op (Z.max max_members 1)) ops empty_roster).1 in
  (run_ops (registry_op lim) ops new_registry).2
  = (run_ops (roster_op (Z.max max_members 1)) ops empty_roster).2
  ∧ (∀ app_id connection_id, has_connection app_id connection_id r
       = bool_decide ((app_id, connection_id) ∈ ro_connections A))
  ∧ (∀ app_id connection_id, connection_has_members app_id connection_id r = true
       ↔ ∃ channel client_id,
           is_Some (ro_members A !! (app_id, channel, client_id, connection_id)))
  ∧ (∀ app_id channel, snapshot app_id channel r = roster_snapshot app_id channel A)
  ∧ member_count r = Z.of_nat (size (ro_members A))
  ∧ (member_count r ≤ Z.max max_members 1)%Z.
Proof.
  intros Hmax lim r A.
  assert (lim_wf lim) as Hlim by (apply presence_limits_wf; u64_lia).
  destruct (run_sim lim ops _ _ Hlim (sim_new_registry _ Hlim)) as [Heq Hs].
  change (pl_max_members lim) with (Z.max max_members 1) in Heq, Hs. fold r A in Hs.
  split; [done|]. split; [intros; by eapply connection_reads_sim|].
  split; [intros; by eapply connection_reads_sim|]. split; [intros; by eapply snapshot_sim|].
  rewrite (member_count_sim _ _ _ Hs). split; [done|].
  pose proof (cap_totals _ _ _ (sim_cap _ _ _ Hs)) as [_ ?].
  pose proof (cw_max _ _ _ (sim_cap _ _ _ Hs)). simpl in *. lia.
Qed.

(** C32: the representation of the registry is well formed in every reachable state: a client
    entry is never empty, holds several records only when there are at least two, files each
    record under its own connection and client, and charges the capacity shard that its
    application, channel and client hash to; two channels never share a state; and a
    connection that holds a member on a channel still holds the state of that channel. *)
Theorem presence_well_formed (max_members : Z) r app_id channel l :
  is_u64 max_members → reachable_registry max_members r →
  channel_loc r app_id channel = Some l →
  map_Forall (λ client_id c, client_wf app_id channel client_id c) (state_at r l)
  ∧ (∀ app_id' channel', channel_loc r app_id' channel' = Some l →
       app_id' = app_id ∧ channel' = channel)
  ∧ (∀ client_id c connection_id, state_at r l !! client_id = Some c →
       client_contains_connection c connection_id = true →
       connection_channel app_id channel connection_id r = Some l).
Proof.
  intros Hmax [A Hs]%reachable_sim Hl; [|done]. split_and!.
  - intros client_id c Hc. by eapply Hs.
  - intros a ch Hl'. by eapply Hs.
  - intros client_id c connection_id Hc Hcc. rewrite client_contains_spec in Hcc.
    apply bool_decide_eq_true in Hcc.
    destruct (sim_owner _ _ _ Hs app_id channel client_id connection_id) as (chans & Hch & [l' Hl']).
    { rewrite (sim_channel_members _ _ _ _ _ _ _ _ Hs Hl). unfold clients_view. by rewrite Hc. }
    pose proof (sim_cached _ _ _ Hs _ _ _ _ _ Hch Hl') as Heq. rewrite Hl in Heq. simplify_eq.
    unfold connection_channel, connection_channels in *.
    destruct (rg_apps r !! app_id); [|done]. simpl in *. by rewrite Hch.
Qed.

(** The last member of a client on a channel goes exactly when none of it is left there. *)
Lemma sole_member_after lim r A r' A' app_id connection_id channel client_id :
  sim lim r A → sim lim r' A' →
  (∀ a ch cl c, ro_members A' !! (a, ch, cl, c)
     = if decide (a = app_id ∧ c = connection_id) then None else ro_members A !! (a, ch, cl, c)) →
  sole_member (ro_members A) app_id channel client_id connection_id = true
  ↔ ¬ ∃ m, m ∈ snapshot app_id channel r' ∧ pr_client_id m = client_id.
Proof.
  intros Hs Hs' HM. rewrite sole_member_spec. split.
  - intros Hno (m & Hin & Hcl). rewrite (elem_of_snapshot _ _ _ _ _ _ Hs'), HM in Hin.
    case_decide as Hd; [done|]. rewrite Hcl, Hno in Hin; [done|]. intros Heq. by apply Hd.
  - intros Hno x Hx. apply eq_None_not_Some. intros [m Hmx]. apply Hno. exists m.
    destruct (member_ids _ _ _ _ _ _ _ _ Hs Hmx) as [Hcl Hid]. split; [|done].
    rewrite (elem_of_snapshot _ _ _ _ _ _ Hs'), HM, decide_False; [by rewrite Hcl, Hid|].
    intros [_ Heq]. by rewrite Hid in Heq.
Qed.

(** C28: unregistering a connection removes every member it owns exactly once, and nothing else:
    the removals are, without repetition, the members of the connection in the snapshots of
    the application's channels; the other members stay; the connection is forgotten; and a
    removal is flagged last for its client exactly when no member of that client remains on
    the channel. *)
Theorem unregister_exactly_once (max_members : Z) r app_id connection_id :
  is_u64 max_members → reachable_registry max_members r →
  let '(r', removals) :=
    unregister_connection (presence_limits max_members) app_id connection_id r in
  has_connection app_id connection_id r' = false
  ∧ NoDup ((λ rm, (rm_channel rm, rm_member rm)) <$> removals)
  ∧ (∀ channel m, (channel, m) ∈ ((λ rm, (rm_channel rm, rm_member rm)) <$> removals)
       ↔ m ∈ snapshot app_id channel r ∧ pr_connection_id m = connection_id)
  ∧ (∀ app_id' channel m, m ∈ snapshot app_id' channel r'
       ↔ m ∈ snapshot app_id' channel r
         ∧ ¬ (app_id' = app_id ∧ pr_connection_id m = connection_id))
  ∧ (∀ rm, rm ∈ removals →
       rm_last_for_client rm = true
       ↔ ¬ ∃ m, m ∈ snapshot app_id (rm_channel rm) r'
                ∧ pr_client_id m = pr_client_id (rm_member rm)).
Proof.
  intros Hmax [A Hs]%reachable_sim; [|done].
  destruct (unregister_sim (presence_limits max_members) r A app_id connection_id) as [Heq Hs'];
    [apply presence_limits_wf; u64_lia|done|].
  pose proof (roster_unregister_spec app_id connection_id A) as Hspec.
  destruct (unregister_connection _ _ _ _) as [r' removals].
  destruct (roster_unregister _ _ _) as [A' removals']. simpl in Heq, Hs'. subst removals'.
  destruct Hspec as (-> & Hconn & HM). set (owned := stable_sort key_le _).
  assert (∀ ch cl, (ch, cl) ∈ owned ↔ is_Some (ro_members A !! (app_id, ch, cl, connection_id))) as Ho.
  { intros ch cl. unfold owned. by rewrite stable_sort_perm, elem_of_roster_owned. }
  assert (NoDup owned) as Hnd
    by (unfold owned; rewrite stable_sort_perm; apply NoDup_roster_owned).
  set (g := λ o : string * string, _ <$> _).
  assert (∀ rm, rm ∈ omap g owned ↔
    ro_members A !! (app_id, rm_channel rm, pr_client_id (rm_member rm), connection_id)
      = Some (rm_member rm)
    ∧ rm_last_for_client rm
      = sole_member (ro_members A) app_id (rm_channel rm) (pr_client_id (rm_member rm)) connection_id)
    as Hrm.
  { intros rm. rewrite list_elem_of_omap. unfold g. split.
    - intros ([ch cl] & _ & (m & Hm & ->)%fmap_Some). simpl in *.
      by destruct (member_ids _ _ _ _ _ _ _ _ Hs Hm) as [-> _].
    - intros [Hm Hlast]. exists (rm_channel rm, pr_client_id (rm_member rm)).
      rewrite Ho. simpl. rewrite Hm. split; [by eauto|]. simpl. rewrite <- Hlast. by destruct rm. }
  split_and!.
  - destruct (connection_reads_sim _ _ _ app_id connection_id Hs') as [-> _].
    by apply bool_decide_eq_false.
  - apply (NoDup_fmap_1 (λ p, (p.1, pr_client_id p.2))). rewrite <- list_fmap_compose.
    rewrite fmap_omap_id; [done|]. intros [ch cl] [m Hm]%Ho. unfold g. simpl. rewrite Hm.
    eexists. split; [done|]. simpl. by destruct (member_ids _ _ _ _ _ _ _ _ Hs Hm) as [-> _].
  - intros ch m. rewrite list_elem_of_fmap, (elem_of_snapshot _ _ _ _ _ _ Hs). split.
    + intros (rm & [= -> ->] & [Hm _]%Hrm). destruct (member_ids _ _ _ _ _ _ _ _ Hs Hm) as [_ Hid].
      by rewrite Hid.
    + intros [Hm Hid]. rewrite Hid in Hm.
      exists {| rm_channel := ch; rm_member := m; rm_last_for_client :=
        sole_member (ro_members A) app_id ch (pr_client_id m) connection_id |}.
      split; [done|]. by apply Hrm.
  - intros a ch m. rewrite (elem_of_snapshot _ _ _ _ _ _ Hs), (elem_of_snapshot _ _ _ _ _ _ Hs'), HM.
    case_decide as Hd; [split; [done|by intros [_ ?]]|split; [done|by intros [? _]]].
  - intros rm [_ ->]%Hrm. by eapply sole_member_after.
Qed.

End reads.

(** ** Witnesses *)

Definition list_dash : Dash := λ A m, map_to_list m.

Definition one_shard : AHash := λ _, 0%Z.

#[local] Existing Instances list_dash one_shard.

#[local] Instance list_dash_laws : DashLaws.
Proof. intros A m. done. Defined.

Definition sample_member (connection_id client_id : string) : PresenceRecord := {|
  pr_connection_id := connection_id; pr_client_id := client_id; pr_id := "1"; pr_data := None;
  pr_encoding := None; pr_extras := None; pr_timestamp_ms := 7 |}.

(** Two connections of one client and a third that finds the registry full. *)
Definition sample_ops : list PresenceOp :=
  [OpRegister "app" "c1"; OpRegister "app" "c2"; OpEnter "app" "room" (sample_member "c1" "ann");
   OpEnter "app" "room" (sample_member "c2" "ann"); OpEnter "app" "room" (sample_member "c2" "bob");
   OpUpdate "app" "room" (sample_member "c3" "bob")].

Lemma presence_refines_witness :
  (run_ops (registry_op (presence_limits 2)) sample_ops new_registry).2
  = [ReplyInserted true; ReplyInserted true;
     ReplyPresent (Ok {| tr_previous := None; tr_first_for_client := true;
                         tr_last_for_client := false |});
     ReplyPresent (Ok {| tr_previous := None; tr_first_for_client := false;
                         tr_last_for_client := false |});
     ReplyPresent (Err OverCapacity); ReplyPresent (Err ConnectionNotFound)].
Proof.
  destruct (presence_refines 2 sample_ops) as [-> _]; [u64_lia|]. vm_compute. reflexivity.
Defined.

Definition sample_registry : PresenceRegistry :=
  (run_ops (registry_op (presence_limits 2)) sample_ops new_registry).1.

Lemma sample_reachable : reachable_registry 2 sample_registry.
Proof. by exists sample_ops. Qed.

Lemma presence_well_formed_witness :
  ∃ l, channel_loc sample_registry "app" "room" = Some l
    ∧ map_Forall (λ client_id c, client_wf "app" "room" client_id c) (state_at sample_registry l).
Proof.
  exists 0. assert (channel_loc sample_registry "app" "room" = Some 0) as Hl by (vm_compute; reflexivity).
  split; [exact Hl|].
  apply (presence_well_formed 2 sample_registry "app" "room" 0); [u64_lia|exact sample_reachable|exact Hl].
Defined.

Lemma unregister_exactly_once_witness :
  let '(r', removals) := unregister_connection (presence_limits 2) "app" "c1" sample_registry in
  has_connection "app" "c1" r' = false
  ∧ ∀ channel m, (channel, m) ∈ ((λ rm, (rm_channel rm, rm_member rm)) <$> removals)
      ↔ m ∈ snapshot "app" channel sample_registry ∧ pr_connection_id m = "c1".
Proof.
  pose proof (unregister_exactly_once 2 sample_registry "app" "c1") as Hu.
  destruct (unregister_connection (presence_limits 2) "app" "c1" sample_registry) as [r' removals].
  destruct Hu as (Hc & _ & Hin & _); [u64_lia|exact sample_reachable|].
  split; [exact Hc|exact Hin].
Defined.
