(* ===== verification/PresenceCapacity.v ===== *)
(** * The presence budget under concurrent use

    [reserve_member], [reclaim_unused_capacity] and [release_member] of
    [presence_registry.rs] as threads.  A step is one access to shared memory: the part of a
    critical section that works on one shard, or one atomic access to the counter.  The locks
    of the shards only exclude some of these interleavings, so what holds of all of them holds
    of the code. *)

From Stdlib Require Import ZArith Lia.
From stdpp Require Import base gmap strings list relations.
From S2P Require Import Prelude Errors Messages PresenceRegistry PresenceRoster.

(** Where a thread is. *)
Inductive CapPc : Type :=
| ReserveTry (i attempt : nat)         (* to lock shard [i] *)
| ReserveUpdate (i attempt : nat)      (* the shard has no budget left: to raise the counter *)
| ReserveGranted (i : nat) (granted : Z) (* the counter is raised: to credit the shard *)
| Reclaim (i j : nat)                  (* to lock shard [j] *)
| ReclaimSub (i j : nat) (unused : Z)  (* the shard is lowered: to lower the counter *)
| Holding (i : nat)                    (* the member is counted *)
| Release (i : nat)                    (* to lock shard [i] *)
| ReleaseSub (released : Z)            (* the shard is lowered: to lower the counter *)
| Refused
| Released.

Record CapState := {
  cs_shards : list PresenceCapacityShard;
  cs_counter : Z;
  cs_threads : gmap nat CapPc;
}.

Implicit Types (lim : PresenceLimits) (s : CapState) (pc : CapPc) (shards : list PresenceCapacityShard).

(** One step of a thread at [pc], on the shards and the counter. *)
Definition cap_exec lim pc shards (counter : Z)
    : option (list PresenceCapacityShard * Z * CapPc) :=
  match pc with
  | ReserveTry i attempt =>
      shard ← shards !! i;
      Some (if (sh_active shard <? sh_reserved shard)%Z
            then (<[i := {| sh_active := sh_active shard + 1;
                            sh_reserved := sh_reserved shard |}]> shards, counter, Holding i)
            else (shards, counter, ReserveUpdate i attempt))
  | ReserveUpdate i attempt =>
      let available := u64_saturating_sub (pl_max_members lim) counter in
      Some (if (available >? 0)%Z
            then let granted := Z.min available (pl_capacity_batch lim) in
                 (shards, (counter + granted)%Z, ReserveGranted i granted)
            else (shards, counter, if (attempt =? 0)%nat then Reclaim i 0 else Refused))
  | ReserveGranted i granted =>
      shard ← shards !! i;
      Some (<[i := {| sh_active := sh_active shard + 1;
                      sh_reserved := sh_reserved shard + granted |}]> shards, counter, Holding i)
  | Reclaim i j =>
      match shards !! j with
      | None => Some (shards, counter, ReserveTry i 1)
      | Some shard =>
          let unused := u64_wrap (sh_reserved shard - sh_active shard) in
          Some (if (unused >? 0)%Z
                then (<[j := {| sh_active := sh_active shard;
                                sh_reserved := sh_active shard |}]> shards, counter,
                      ReclaimSub i j unused)
                else (shards, counter, Reclaim i (S j)))
      end
  | ReclaimSub i j unused => Some (shards, u64_wrap (counter - unused), Reclaim i (S j))
  | Holding i => Some (shards, counter, Release i)
  | Release i =>
      shard ← shards !! i;
      let active := u64_saturating_sub (sh_active shard) 1 in
      Some (if (pl_max_members lim <=? COORDINATION_SHARDS)%Z && (active =? 0)%Z
            then (<[i := {| sh_active := active; sh_reserved := 0 |}]> shards, counter,
                  ReleaseSub (sh_reserved shard))
            else (<[i := {| sh_active := active;
                            sh_reserved := sh_reserved shard |}]> shards, counter, Released))
  | ReleaseSub released => Some (shards, u64_wrap (counter - released), Released)
  | Refused | Released => None
  end.

Inductive cap_step lim : CapState → CapState → Prop :=
| cap_step_spawn s t i :
    cs_threads s !! t = None → i < length (cs_shards s) →
    cap_step lim s {| cs_shards := cs_shards s; cs_counter := cs_counter s;
                      cs_threads := <[t := ReserveTry i 0]> (cs_threads s) |}
| cap_step_exec s t pc shards counter pc' :
    cs_threads s !! t = Some pc →
    cap_exec lim pc (cs_shards s) (cs_counter s) = Some (shards, counter, pc') →
    cap_step lim s {| cs_shards := shards; cs_counter := counter;
                      cs_threads := <[t := pc']> (cs_threads s) |}.

Definition cap_init : CapState := {|
  cs_shards := rg_shards new_registry; cs_counter := 0; cs_threads := ∅ |}.

Definition cap_reachable lim s : Prop := rtc (cap_step lim) cap_init s.

(** The shard on which a thread holds a member. *)
Definition holds (pc : CapPc) : option nat :=
  match pc with Holding i | Release i => Some i | _ => None end.

(** What a thread has added to the counter and not yet to a shard, or taken from a shard and
    not yet from the counter. *)
Definition in_flight (pc : CapPc) : Z :=
  match pc with
  | ReserveGranted _ n | ReclaimSub _ _ n | ReleaseSub n => n
  | _ => 0
  end.

Definition holders (i : nat) (ts : gmap nat CapPc) : Z :=
  Z.of_nat (size (filter (λ kv : nat * CapPc, holds kv.2 = Some i) ts)).

Definition all_holders (ts : gmap nat CapPc) : Z :=
  Z.of_nat (size (filter (λ kv : nat * CapPc, is_Some (holds kv.2)) ts)).

(** ** Sums over threads *)

Definition thread_sum (f : CapPc → Z) (ts : gmap nat CapPc) : Z :=
  sumZ (λ kv, f kv.2) (map_to_list ts).

Lemma sumZ_perm {T} (f : T → Z) l k : l ≡ₚ k → sumZ f l = sumZ f k.
Proof. induction 1; simpl; lia. Qed.

Lemma thread_sum_insert_None f ts t pc :
  ts !! t = None → thread_sum f (<[t := pc]> ts) = (f pc + thread_sum f ts)%Z.
Proof. intros Ht. unfold thread_sum. by rewrite (sumZ_perm _ _ _ (map_to_list_insert ts t pc Ht)). Qed.

Lemma thread_sum_insert_Some f ts t pc pc' :
  ts !! t = Some pc → thread_sum f (<[t := pc']> ts) = (thread_sum f ts - f pc + f pc')%Z.
Proof.
  intros Ht. rewrite <- (insert_delete_id _ _ _ Ht) at 2. rewrite <- insert_delete_eq.
  rewrite !thread_sum_insert_None by apply lookup_delete_eq. lia.
Qed.

Lemma thread_sum_nonneg f ts : (∀ pc, 0 ≤ f pc)%Z → (0 ≤ thread_sum f ts)%Z.
Proof. intros Hf. apply sumZ_nonneg, Forall_forall. by intros kv _. Qed.

Lemma thread_sum_count (P : CapPc → Prop) `{∀ pc, Decision (P pc)} ts :
  Z.of_nat (size (filter (λ kv : nat * CapPc, P kv.2) ts))
  = thread_sum (λ pc, if decide (P pc) then 1%Z else 0%Z) ts.
Proof.
  induction ts as [|t pc ts Ht IH] using map_ind; [done|].
  rewrite thread_sum_insert_None by done. destruct (decide (P pc)) as [Hp|Hp].
  - rewrite map_filter_insert_True, map_size_insert_None; [lia| |done].
    apply map_lookup_filter_None. by left.
  - rewrite map_filter_insert_False, delete_id by done. lia.
Qed.

Lemma holders_sum i ts :
  holders i ts = thread_sum (λ pc, if decide (holds pc = Some i) then 1%Z else 0%Z) ts.
Proof. exact (thread_sum_count (λ pc, holds pc = Some i) ts). Qed.

(** The holders on a shard after a step of one thread. *)
Lemma holders_insert i ts t pc pc' :
  ts !! t = Some pc →
  holders i (<[t := pc']> ts)
  = (holders i ts - (if decide (holds pc = Some i) then 1 else 0)
     + (if decide (holds pc' = Some i) then 1 else 0))%Z.
Proof. intros Ht. rewrite !holders_sum. by rewrite (thread_sum_insert_Some _ _ _ _ _ Ht). Qed.

(** The invariant of the budget: the counter is what the shards hold and what is in flight;
    a shard counts the threads that hold a member on it, within what it has reserved. *)
Record cap_inv lim s : Prop := {
  ci_length : length (cs_shards s) = Z.to_nat COORDINATION_SHARDS;
  ci_counter : (sumZ sh_reserved (cs_shards s) + thread_sum in_flight (cs_threads s))%Z
               = cs_counter s;
  ci_max : (cs_counter s ≤ pl_max_members lim)%Z;
  ci_flight : map_Forall (λ _ pc, 0 ≤ in_flight pc)%Z (cs_threads s);
  ci_granted : map_Forall (λ _ pc, match pc with ReserveGranted _ n => 1 ≤ n | _ => True end)%Z
                 (cs_threads s);
  ci_active i sh : cs_shards s !! i = Some sh → sh_active sh = holders i (cs_threads s);
  ci_le : Forall (λ sh, 0 ≤ sh_active sh ≤ sh_reserved sh)%Z (cs_shards s);
  ci_valid : map_Forall (λ _ pc, ∀ i, holds pc = Some i → i < length (cs_shards s)) (cs_threads s);
}.


Lemma cap_inv_init lim : lim_wf lim → cap_inv lim cap_init.
Proof.
  intros []. unfold cap_init, new_registry.
  split; cbn [cs_shards cs_counter cs_threads rg_shards].
  - apply length_replicate.
  - change (thread_sum in_flight ∅) with 0%Z.
    generalize (Z.to_nat COORDINATION_SHARDS) as n. induction n; simpl in *; lia.
  - lia.
  - apply map_Forall_empty.
  - apply map_Forall_empty.
  - by intros i sh [-> _]%lookup_replicate.
  - by apply Forall_replicate.
  - apply map_Forall_empty.
Qed.

(** A step that changes one shard, the counter and one thread. *)
Lemma cap_inv_update lim s t pc pc' i sh sh' counter' :
  cap_inv lim s → cs_threads s !! t = Some pc → cs_shards s !! i = Some sh →
  (∀ j, j ≠ i → holds pc ≠ Some j ∧ holds pc' ≠ Some j) →
  (sh_active sh' = sh_active sh - (if decide (holds pc = Some i) then 1 else 0)
                   + (if decide (holds pc' = Some i) then 1 else 0))%Z →
  (0 ≤ sh_active sh' ≤ sh_reserved sh')%Z →
  (counter' = cs_counter s + (sh_reserved sh' - sh_reserved sh) + (in_flight pc' - in_flight pc))%Z →
  (counter' ≤ pl_max_members lim)%Z → (0 ≤ in_flight pc')%Z →
  match pc' with ReserveGranted _ n => (1 ≤ n)%Z | _ => True end →
  cap_inv lim {| cs_shards := <[i := sh']> (cs_shards s); cs_counter := counter';
                 cs_threads := <[t := pc']> (cs_threads s) |}.
Proof.
  intros [Hlen Hc Hm Hf Hg Ha Hle Hv] Ht Hsh Hh Hact Hb Hc' Hm' Hf' Hg'. split; simpl.
  - by rewrite length_insert.
  - rewrite (sumZ_insert _ _ _ _ _ Hsh), (thread_sum_insert_Some _ _ _ _ _ Ht). lia.
  - done.
  - by apply map_Forall_insert_2.
  - by apply map_Forall_insert_2.
  - intros j x Hx. rewrite (holders_insert _ _ _ _ _ Ht). destruct (decide (j = i)) as [->|Hne].
    + rewrite list_lookup_insert_eq in Hx by (by eapply lookup_lt_Some). simplify_eq.
      by rewrite Hact, (Ha _ _ Hsh).
    + rewrite list_lookup_insert_ne in Hx by done. rewrite (Ha _ _ Hx).
      destruct (Hh j Hne). rewrite !decide_False by done. lia.
  - by apply Forall_insert.
  - rewrite length_insert. apply map_Forall_insert_2; [|done]. intros j Hj.
    destruct (decide (j = i)) as [->|Hne]; [by eapply lookup_lt_Some|]. by destruct (Hh j Hne).
Qed.

(** A step that changes only the counter and one thread. *)
Lemma cap_inv_counter lim s t pc pc' counter' :
  cap_inv lim s → cs_threads s !! t = Some pc → holds pc' = holds pc →
  (counter' = cs_counter s + (in_flight pc' - in_flight pc))%Z →
  (counter' ≤ pl_max_members lim)%Z → (0 ≤ in_flight pc')%Z →
  match pc' with ReserveGranted _ n => (1 ≤ n)%Z | _ => True end →
  cap_inv lim {| cs_shards := cs_shards s; cs_counter := counter';
                 cs_threads := <[t := pc']> (cs_threads s) |}.
Proof.
  intros [Hlen Hc Hm Hf Hg Ha Hle Hv] Ht Hh Hc' Hm' Hf' Hg'. split; simpl; try done.
  - rewrite (thread_sum_insert_Some _ _ _ _ _ Ht). lia.
  - by apply map_Forall_insert_2.
  - by apply map_Forall_insert_2.
  - intros j x Hx. rewrite (holders_insert _ _ _ _ _ Ht), Hh, (Ha _ _ Hx). lia.
  - apply map_Forall_insert_2; [|done]. rewrite Hh. by apply (Hv t).
Qed.

Lemma in_flight_bounds lim s t pc :
  cap_inv lim s → cs_threads s !! t = Some pc → (0 ≤ in_flight pc ≤ cs_counter s)%Z.
Proof.
  intros [Hlen Hc Hm Hf Hg Ha Hle Hv] Ht. split; [by apply (Hf t)|]. rewrite <- Hc.
  assert (0 ≤ sumZ sh_reserved (cs_shards s))%Z.
  { apply sumZ_nonneg. eapply Forall_impl; [exact Hle|]. simpl. lia. }
  assert (0 ≤ thread_sum in_flight (delete t (cs_threads s)))%Z.
  { apply sumZ_nonneg, Forall_forall. intros [k x] Hx%elem_of_map_to_list. simpl.
    apply lookup_delete_Some in Hx as [_ Hx]. by apply (Hf k). }
  rewrite <- (insert_delete_id _ _ _ Ht), thread_sum_insert_None by apply lookup_delete_eq. lia.
Qed.

Lemma shard_bounds lim s i sh :
  cap_inv lim s → cs_shards s !! i = Some sh →
  (0 ≤ sh_active sh ≤ sh_reserved sh)%Z ∧ (sh_reserved sh ≤ cs_counter s)%Z.
Proof.
  intros [Hlen Hc Hm Hf Hg Ha Hle Hv] Hi. split; [exact (Forall_lookup_1 _ _ _ _ Hle Hi)|]. rewrite <- Hc.
  assert (sh_reserved sh ≤ sumZ sh_reserved (cs_shards s))%Z.
  { eapply sumZ_member; [|exact Hi]. eapply Forall_impl; [exact Hle|]. simpl. lia. }
  assert (0 ≤ thread_sum in_flight (cs_threads s))%Z; [|lia].
  apply sumZ_nonneg, Forall_forall. intros [k x] Hx%elem_of_map_to_list. by apply (Hf k).
Qed.

Lemma holder_active lim s t pc i sh :
  cap_inv lim s → cs_threads s !! t = Some pc → holds pc = Some i →
  cs_shards s !! i = Some sh → (1 ≤ sh_active sh)%Z.
Proof.
  intros Hinv Ht Hh Hi. rewrite (ci_active _ _ Hinv _ _ Hi). unfold holders.
  assert (filter (λ kv : nat * CapPc, holds kv.2 = Some i) (cs_threads s) !! t = Some pc) as Hf
    by (apply map_lookup_filter_Some; by split).
  destruct (size _) eqn:Hs; [|lia]. apply map_size_empty_inv in Hs. by rewrite Hs in Hf.
Qed.

Ltac shard_cases := repeat (case_decide || case_bool_decide); simplify_eq/=; u64_lia.

Lemma cap_exec_inv lim s t pc shards counter pc' :
  lim_wf lim → cap_inv lim s → cs_threads s !! t = Some pc →
  cap_exec lim pc (cs_shards s) (cs_counter s) = Some (shards, counter, pc') →
  cap_inv lim {| cs_shards := shards; cs_counter := counter;
                 cs_threads := <[t := pc']> (cs_threads s) |}.
Proof.
  intros [Hb Hmax] Hinv Ht. pose proof (in_flight_bounds _ _ _ _ Hinv Ht) as Hfl.
  pose proof (ci_max _ _ Hinv) as Hcm. pose proof (ci_granted _ _ Hinv _ _ Ht) as Hg.
  destruct pc as [i a|i a|i g|i j|i j u|i|i|n| |]; cbn [cap_exec in_flight] in *; try done.
  - destruct (cs_shards s !! i) as [sh|] eqn:Hi; [|done]. simpl.
    destruct (shard_bounds _ _ _ _ Hinv Hi).
    destruct (Z.ltb_spec (sh_active sh) (sh_reserved sh)); intros [= <- <- <-].
    + eapply cap_inv_update; try done; simpl; [naive_solver|shard_cases..].
    + eapply cap_inv_counter; try done; simpl; lia.
  - unfold u64_saturating_sub.
    destruct (Z.gtb_spec (Z.max (pl_max_members lim - cs_counter s) 0) 0); intros [= <- <- <-].
    + eapply cap_inv_counter; try done; simpl; lia.
    + destruct (a =? 0)%nat; eapply cap_inv_counter; try done; simpl; lia.
  - destruct (cs_shards s !! i) as [sh|] eqn:Hi; [|done]. simpl. intros [= <- <- <-].
    destruct (shard_bounds _ _ _ _ Hinv Hi).
    eapply cap_inv_update; try done; simpl; [naive_solver|shard_cases..].
  - destruct (cs_shards s !! j) as [sh|] eqn:Hi.
    2:{ intros [= <- <- <-]. eapply cap_inv_counter; try done; simpl; lia. }
    destruct (shard_bounds _ _ _ _ Hinv Hi). rewrite u64_wrap_id by u64_lia.
    destruct (Z.gtb_spec (sh_reserved sh - sh_active sh) 0); intros [= <- <- <-].
    + eapply cap_inv_update; try done; simpl; shard_cases.
    + eapply cap_inv_counter; try done; simpl; lia.
  - intros [= <- <- <-]. rewrite u64_wrap_id by u64_lia.
    eapply cap_inv_counter; try done; simpl; lia.
  - intros [= <- <- <-]. eapply cap_inv_counter; try done; simpl; lia.
  - destruct (cs_shards s !! i) as [sh|] eqn:Hi; [|done]. simpl.
    destruct (shard_bounds _ _ _ _ Hinv Hi). pose proof (holder_active _ _ _ _ _ _ Hinv Ht eq_refl Hi).
    unfold u64_saturating_sub. rewrite Z.max_l by lia.
    destruct (_ && _) eqn:Hr; intros [= <- <- <-].
    + apply andb_prop in Hr as [_ ?%Z.eqb_eq].
      eapply cap_inv_update; try done; simpl; [naive_solver|shard_cases..].
    + eapply cap_inv_update; try done; simpl; [naive_solver|shard_cases..].
  - intros [= <- <- <-]. rewrite u64_wrap_id by u64_lia.
    eapply cap_inv_counter; try done; simpl; lia.
Qed.

Lemma holders_insert_None i ts t pc :
  ts !! t = None →
  holders i (<[t := pc]> ts)
  = ((if decide (holds pc = Some i) then 1 else 0) + holders i ts)%Z.
Proof. intros Ht. rewrite !holders_sum. by rewrite thread_sum_insert_None. Qed.

Lemma cap_spawn_inv lim s t i :
  cap_inv lim s → cs_threads s !! t = None →
  cap_inv lim {| cs_shards := cs_shards s; cs_counter := cs_counter s;
                 cs_threads := <[t := ReserveTry i 0]> (cs_threads s) |}.
Proof.
  intros [Hlen Hc Hm Hf Hg Ha Hle Hv] Ht. split; simpl; try done.
  - rewrite thread_sum_insert_None by done. simpl. lia.
  - by apply map_Forall_insert_2.
  - by apply map_Forall_insert_2.
  - intros j x Hx. rewrite holders_insert_None by done. simpl. by rewrite (Ha _ _ Hx).
  - by apply map_Forall_insert_2.
Qed.

Lemma cap_reachable_inv lim s : lim_wf lim → cap_reachable lim s → cap_inv lim s.
Proof.
  intros Hlim. revert s. apply rtc_ind_r; [by apply cap_inv_init|].
  intros s s' _ Hstep Hinv. destruct Hstep; [by apply cap_spawn_inv|by eapply cap_exec_inv].
Qed.

(** The shards together count every holder. *)
Lemma sum_holders shards ts :
  (∀ i sh, shards !! i = Some sh → sh_active sh = holders i ts) →
  map_Forall (λ _ pc, ∀ i, holds pc = Some i → i < length shards) ts →
  sumZ sh_active shards = all_holders ts.
Proof.
  assert (∀ ts, all_holders ts
    = thread_sum (λ pc, if decide (is_Some (holds pc)) then 1%Z else 0%Z) ts) as Hall
    by (intros; exact (thread_sum_count (λ pc, is_Some (holds pc)) _)).
  rewrite Hall. clear Hall.
  revert shards. induction ts as [|t pc ts Ht IH] using map_ind; intros shards Ha Hv.
  - change (thread_sum _ ∅) with 0%Z. clear Hv.
    induction shards as [|sh shards IHs]; [done|]. simpl.
    rewrite IHs by (intros i x Hx; by apply (Ha (S i))). rewrite (Ha 0 sh) by done. done.
  - rewrite thread_sum_insert_None by done.
    apply map_Forall_insert_1_1 in Hv as Hpc. apply map_Forall_insert_1_2 in Hv; [|done].
    destruct (holds pc) as [i|] eqn:Hh.
    + destruct (lookup_lt_is_Some_2 shards i) as [sh Hsh]; [by apply Hpc|].
      rewrite decide_True by eauto.
      pose (sh' := {| sh_active := sh_active sh - 1; sh_reserved := sh_reserved sh |}).
      rewrite <- (IH (<[i := sh']> shards)).
      * rewrite (sumZ_insert _ _ _ _ _ Hsh). simpl. lia.
      * intros j x Hx. destruct (decide (j = i)) as [->|Hne].
        -- rewrite list_lookup_insert_eq in Hx by (by eapply lookup_lt_Some). simplify_eq. simpl.
           rewrite (Ha _ _ Hsh), holders_insert_None, Hh, decide_True by done. lia.
        -- rewrite list_lookup_insert_ne in Hx by done.
           rewrite (Ha _ _ Hx), holders_insert_None, Hh, decide_False by congruence. lia.
      * by rewrite length_insert.
    + rewrite decide_False by (by intros [? ?]). apply (IH shards); [|done].
      intros j x Hx. rewrite (Ha _ _ Hx), holders_insert_None, Hh by done. done.
Qed.

(** C15: the limit on members holds under any interleaving of reservations, reclaims and
    releases, also between the parts of their critical sections: at no time do more threads
    hold a member than the limit allows.  No budget is lost or invented either: whenever no
    thread is between a shard and the counter, the counter is exactly what the shards have
    reserved, and the members counted are exactly the threads that hold one. *)
Theorem capacity_never_exceeded (max_members : Z) s :
  is_u64 max_members → cap_reachable (presence_limits max_members) s →
  (all_holders (cs_threads s) ≤ Z.max max_members 1)%Z
  ∧ (0 ≤ cs_counter s ≤ Z.max max_members 1)%Z
  ∧ sumZ sh_active (cs_shards s) = all_holders (cs_threads s)
  ∧ (map_Forall (λ _ pc, in_flight pc = 0%Z) (cs_threads s) →
     cs_counter s = sumZ sh_reserved (cs_shards s)).
Proof.
  intros Hmax Hr. apply cap_reachable_inv in Hr; [|apply presence_limits_wf; u64_lia].
  destruct Hr as [Hlen Hc Hm Hf Hg Ha Hle Hv]. simpl in Hm.
  pose proof (sum_holders _ _ Ha Hv) as Hsum.
  assert (sumZ sh_active (cs_shards s) ≤ sumZ sh_reserved (cs_shards s))%Z.
  { apply sumZ_le. eapply Forall_impl; [exact Hle|]. simpl. lia. }
  assert (0 ≤ thread_sum in_flight (cs_threads s))%Z.
  { apply sumZ_nonneg, Forall_forall. intros [k x] Hx%elem_of_map_to_list. by apply (Hf k). }
  assert (0 ≤ all_holders (cs_threads s))%Z by (unfold all_holders; lia).
  split_and!; [lia..|done|]. intros Hz. rewrite <- Hc.
  assert (thread_sum in_flight (cs_threads s) = 0%Z) as ->; [|lia].
  assert (∀ l, Forall (λ kv : nat * CapPc, in_flight kv.2 = 0%Z) l →
    sumZ (λ kv, in_flight kv.2) l = 0%Z) as Hl by (induction 1; simpl; lia).
  apply Hl, Forall_forall. intros [k x] Hx%elem_of_map_to_list. by apply (Hz k).
Qed.

(** ** A thread that runs alone *)

Definition solo_step lim (x y : list PresenceCapacityShard * Z * CapPc) : Prop :=
  cap_exec lim x.2 x.1.1 x.1.2 = Some y.

Lemma reclaim_alone lim i pre suf counter :
  rtc (solo_step lim) (pre ++ suf, counter, Reclaim i (length pre))
    (foldl reclaim_shard (pre, counter) suf, ReserveTry i 1).
Proof.
  revert pre counter. induction suf as [|sh suf IH]; intros pre counter; simpl.
  - rewrite app_nil_r. apply rtc_once. unfold solo_step. simpl.
    by rewrite lookup_ge_None_2.
  - assert ((pre ++ sh :: suf) !! length pre = Some sh) as Hsh by by apply list_lookup_middle.
    unfold reclaim_shard at 2. cbn [fst snd].
    destruct (u64_wrap (sh_reserved sh - sh_active sh) >? 0)%Z eqn:Hu.
    + set (sh' := {| sh_active := sh_active sh; sh_reserved := sh_active sh |}).
      specialize (IH (pre ++ [sh']) (u64_wrap (counter - u64_wrap (sh_reserved sh - sh_active sh)))).
      rewrite <- app_assoc, length_app, Nat.add_1_r in IH. simpl in IH.
      eapply rtc_l; [|eapply rtc_l; [|exact IH]]; unfold solo_step; simpl.
      * by rewrite Hsh, Hu.
      * by rewrite insert_app_r_alt, Nat.sub_diag.
    + specialize (IH (pre ++ [sh]) counter).
      rewrite <- app_assoc, length_app, Nat.add_1_r in IH. simpl in IH.
      eapply rtc_l; [|exact IH]. unfold solo_step. simpl. by rewrite Hsh, Hu.
Qed.

(** One attempt of a reservation. *)
Lemma attempt_alone lim i attempt cap :
  i < length cap.1 →
  rtc (solo_step lim) (cap, ReserveTry i attempt)
    match try_reserve lim i cap with
    | Some cap' => (cap', Holding i)
    | None => (cap, if (attempt =? 0)%nat then Reclaim i 0 else Refused)
    end.
Proof.
  intros [sh Hsh]%lookup_lt_is_Some. destruct cap as [shards counter]. unfold try_reserve.
  simpl in *. rewrite Hsh. simpl. destruct (sh_active sh <? sh_reserved sh)%Z eqn:Hlt.
  { apply rtc_once. unfold solo_step. simpl. by rewrite Hsh; simpl; rewrite Hlt. }
  eapply rtc_l. { unfold solo_step. simpl. rewrite Hsh. simpl. by rewrite Hlt. }
  destruct (u64_saturating_sub (pl_max_members lim) counter >? 0)%Z eqn:Hav.
  - eapply rtc_l; [unfold solo_step; simpl; by rewrite Hav|].
    apply rtc_once. unfold solo_step. simpl. by rewrite Hsh.
  - apply rtc_once. unfold solo_step. simpl. by rewrite Hav.
Qed.

(** Without interference the steps of a thread compute [reserve_member] and
    [release_member]. *)
Lemma reserve_alone lim i cap :
  i < length cap.1 →
  rtc (solo_step lim) (cap, ReserveTry i 0)
    ((reserve_member lim i cap).1,
     match (reserve_member lim i cap).2 with Ok _ => Holding i | Err _ => Refused end).
Proof.
  intros Hi. unfold reserve_member. pose proof (attempt_alone lim i 0 cap Hi) as Ha.
  destruct (try_reserve lim i cap) as [cap1|]; [done|]. simpl in Ha. etrans; [exact Ha|].
  destruct cap as [shards counter]. simpl in Hi.
  etrans; [exact (reclaim_alone lim i [] shards counter)|].
  change (foldl reclaim_shard ([], counter) shards) with (reclaim_unused_capacity (shards, counter)).
  assert (i < length (reclaim_unused_capacity (shards, counter)).1) as Hi'.
  { unfold reclaim_unused_capacity. cbn [fst snd].
    cut (∀ l acc, length (foldl reclaim_shard acc l).1 = length acc.1 + length l).
    { intros Hl. by rewrite Hl. }
    induction l as [|sh l IH]; intros acc; simpl; [lia|]. rewrite IH. unfold reclaim_shard.
    destruct (_ >? _)%Z; simpl; rewrite length_app; simpl; lia. }
  pose proof (attempt_alone lim i 1 _ Hi') as Ha'.
  by destruct (try_reserve lim i (reclaim_unused_capacity (shards, counter))).
Qed.

Lemma release_alone lim i cap :
  i < length cap.1 →
  rtc (solo_step lim) (cap, Release i) (release_member lim i cap, Released).
Proof.
  intros [sh Hsh]%lookup_lt_is_Some. destruct cap as [shards counter]. unfold release_member.
  simpl in *. rewrite Hsh. destruct (_ && _) eqn:Hr.
  - eapply rtc_l; [unfold solo_step; simpl; rewrite Hsh; simpl; by rewrite Hr|].
    by apply rtc_once.
  - apply rtc_once. unfold solo_step. simpl. rewrite Hsh. simpl. by rewrite Hr.
Qed.

(** ** A schedule as data *)

(** Each entry runs the thread, or starts it on a shard. *)
Fixpoint cap_run lim (schedule : list (nat * option nat)) s : option CapState :=
  match schedule with
  | [] => Some s
  | (t, Some i) :: schedule =>
      if bool_decide (cs_threads s !! t = None) && (i <? length (cs_shards s))%nat
      then cap_run lim schedule {| cs_shards := cs_shards s; cs_counter := cs_counter s;
                                   cs_threads := <[t := ReserveTry i 0]> (cs_threads s) |}
      else None
  | (t, None) :: schedule =>
      pc ← cs_threads s !! t;
      '(shards, counter, pc') ← cap_exec lim pc (cs_shards s) (cs_counter s);
      cap_run lim schedule {| cs_shards := shards; cs_counter := counter;
                              cs_threads := <[t := pc']> (cs_threads s) |}
  end.

Lemma cap_run_rtc lim schedule s s' : cap_run lim schedule s = Some s' → rtc (cap_step lim) s s'.
Proof.
  revert s. induction schedule as [|[t [i|]] schedule IH]; intros s; simpl.
  - by intros [= ->].
  - destruct (_ && _) eqn:Hb; [|done]. apply andb_prop in Hb as [Ht%bool_decide_eq_true Hi%Nat.ltb_lt].
    intros Hr. eapply rtc_l; [by apply (cap_step_spawn lim s t i)|by apply IH].
  - destruct (cs_threads s !! t) as [pc|] eqn:Ht; [|done]. simpl.
    destruct (cap_exec _ _ _ _) as [[[shards counter] pc']|] eqn:He; [|done]. simpl.
    intros Hr. eapply rtc_l; [by eapply cap_step_exec|by apply IH].
Qed.

(** Two reservations race for a limit of one: one is granted, the other starts to reclaim. *)
Definition race_schedule : list (nat * option nat) :=
  [(0, Some 5); (1, Some 7); (0, None); (1, None); (0, None); (1, None); (0, None)].

Lemma capacity_never_exceeded_witness :
  ∃ s, cap_run (presence_limits 1) race_schedule cap_init = Some s
    ∧ cs_threads s = {[0 := Holding 5; 1 := Reclaim 7 0]}
    ∧ (all_holders (cs_threads s) ≤ 1)%Z
    ∧ cs_counter s = sumZ sh_reserved (cs_shards s).
Proof.
  destruct (cap_run (presence_limits 1) race_schedule cap_init) as [s|] eqn:Hs;
    [|vm_compute in Hs; discriminate Hs].
  exists s. split; [done|].
  assert (Some (cs_threads s) = Some {[0 := Holding 5; 1 := Reclaim 7 0]}) as [= Ht].
  { change (Some (cs_threads s)) with (cs_threads <$> Some s). rewrite <- Hs.
    vm_compute. reflexivity. }
  split; [exact Ht|].
  destruct (capacity_never_exceeded 1 s) as (Hle & _ & _ & Hq);
    [u64_lia|by eapply cap_run_rtc|].
  split; [exact Hle|]. apply Hq. rewrite Ht. apply map_Forall_insert_2; [done|].
  by apply map_Forall_singleton.
Defined.
