(* ===== verification/PresenceLocks.v ===== *)
(** * The locks of the presence registry

    The order in which [remove_client_except] and [enter] of [presence_registry.rs] take
    their locks.  A reference obtained from the table of channels with [get] is a read lock on
    one shard of the table, held as long as the reference; [entry] takes the write lock of the
    shard.  A connection is coordinated by an exclusive lock. *)

From Stdlib Require Import ZArith Lia.
From stdpp Require Import base gmap strings list relations.
From S2P Require Import Prelude PresenceRegistry.

Inductive PresenceLock : Type :=
| ConnectionLock (shard : nat)
| ChannelShard (app_id : string) (shard : nat).

#[export] Instance presence_lock_eq_dec : EqDecision PresenceLock.
Proof. solve_decision. Defined.

Inductive LockAct : Type :=
| Acquire (lock : PresenceLock) (exclusive : bool)
| Free (lock : PresenceLock).

(** What each thread still has to do, and the locks held: thread, lock and mode. *)
Record LockState := {
  ls_threads : gmap nat (list LockAct);
  ls_held : list (nat * PresenceLock * bool);
}.

Definition grantable (s : LockState) (lock : PresenceLock) (exclusive : bool) : Prop :=
  Forall (λ h, h.1.2 = lock → h.2 = false ∧ exclusive = false) (ls_held s).

Inductive lock_step : LockState → LockState → Prop :=
| lock_step_acquire s t lock exclusive acts :
    ls_threads s !! t = Some (Acquire lock exclusive :: acts) → grantable s lock exclusive →
    lock_step s {| ls_threads := <[t := acts]> (ls_threads s);
                   ls_held := (t, lock, exclusive) :: ls_held s |}
| lock_step_free s t lock acts :
    ls_threads s !! t = Some (Free lock :: acts) →
    lock_step s {| ls_threads := <[t := acts]> (ls_threads s);
                   ls_held := filter (λ h, h.1 ≠ (t, lock)) (ls_held s) |}.

Definition deadlocked (s : LockState) : Prop :=
  (∃ t act acts, ls_threads s !! t = Some (act :: acts)) ∧ ∀ s', ¬ lock_step s s'.

Notation two a b h := {| ls_threads := {[0 := a; 1 := b]}; ls_held := h |}.

Lemma two_insert_1 (a b b' : list LockAct) :
  <[1 := b']> {[0 := a; 1 := b]} = ({[0 := a; 1 := b']} : gmap nat (list LockAct)).
Proof. by rewrite insert_insert_ne, insert_singleton_eq. Qed.

Lemma two_acquire_0 a b h lock exclusive :
  grantable (two (Acquire lock exclusive :: a) b h) lock exclusive →
  lock_step (two (Acquire lock exclusive :: a) b h) (two a b ((0, lock, exclusive) :: h)).
Proof.
  intros Hg. pose proof (λ Ht, lock_step_acquire _ 0 lock exclusive a Ht Hg) as Hs.
  specialize (Hs eq_refl).
  simpl in Hs. by rewrite insert_insert_eq in Hs.
Qed.

Lemma two_acquire_1 a b h lock exclusive :
  grantable (two a (Acquire lock exclusive :: b) h) lock exclusive →
  lock_step (two a (Acquire lock exclusive :: b) h) (two a b ((1, lock, exclusive) :: h)).
Proof.
  intros Hg. pose proof (λ Ht, lock_step_acquire _ 1 lock exclusive b Ht Hg) as Hs.
  specialize (Hs eq_refl).
  simpl in Hs. by rewrite two_insert_1 in Hs.
Qed.

Lemma two_free_1 a b h h' lock :
  filter (λ x, x.1 ≠ (1, lock)) h = h' →
  lock_step (two a (Free lock :: b) h) (two a b h').
Proof.
  intros <-. pose proof (lock_step_free (two a (Free lock :: b) h) 1 lock b eq_refl) as Hs.
  simpl in Hs. by rewrite two_insert_1 in Hs.
Qed.

Section locks.
(** The shard of the table of channels that a channel hashes to, and the lock of a
    connection. *)
Context (channel_shard : string → nat) (connection_lock : string * string → nat).
Implicit Types (app_id channel connection_id : string).

(** [leave]: the lock of the connection, for as long as the member is removed. *)
Definition leave_locks app_id connection_id : list LockAct :=
  [Acquire (ConnectionLock (connection_lock (app_id, connection_id))) true;
   Free (ConnectionLock (connection_lock (app_id, connection_id)))].

(** [remove_client_except]: the reference to the channel state is held across the leaves of
    the superseded connections. *)
Definition remove_client_except_locks app_id channel (old_connections : list string)
    : list LockAct :=
  [Acquire (ChannelShard app_id (channel_shard channel)) false]
  ++ concat (leave_locks app_id <$> old_connections)
  ++ [Free (ChannelShard app_id (channel_shard channel))].

(** [app_channel_state]: looks the channel up and, when it is new, inserts it. *)
Definition app_channel_state_locks app_id channel (known : bool) : list LockAct :=
  [Acquire (ChannelShard app_id (channel_shard channel)) false;
   Free (ChannelShard app_id (channel_shard channel))]
  ++ if known then []
     else [Acquire (ChannelShard app_id (channel_shard channel)) true;
           Free (ChannelShard app_id (channel_shard channel))].

(** [apply_present]: the lock of the connection is held while the channel state is found. *)
Definition apply_present_locks app_id channel connection_id (cached known : bool) : list LockAct :=
  [Acquire (ConnectionLock (connection_lock (app_id, connection_id))) true]
  ++ (if cached then [] else app_channel_state_locks app_id channel known)
  ++ [Free (ConnectionLock (connection_lock (app_id, connection_id)))].

(** C37: superseding the members of a client can deadlock with one of the superseded connections
    entering a channel that is not in the table yet, when the two channels fall in the same
    shard of the table: one thread holds the shard and waits for the connection, the other
    holds the connection and waits for the shard, and neither can ever proceed. *)
Theorem supersede_enter_deadlock app_id channel connection_id old_connections new_channel :
  channel_shard new_channel = channel_shard channel →
  ∃ s, rtc lock_step
         {| ls_threads := {[0 := remove_client_except_locks app_id channel
                                   (connection_id :: old_connections);
                            1 := apply_present_locks app_id new_channel connection_id false false]};
            ls_held := [] |} s
       ∧ deadlocked s.
Proof.
  intros Heq. unfold remove_client_except_locks, apply_present_locks, app_channel_state_locks.
  rewrite Heq. simpl. set (sh := ChannelShard app_id _). set (cl := ConnectionLock _).
  set (rest := concat _ ++ _).
  exists {| ls_threads := {[0 := Acquire cl true :: Free cl :: rest;
                            1 := [Acquire sh true; Free sh; Free cl]]};
            ls_held := [(1, cl, true); (0, sh, false)] |}.
  split; [|split].
  - eapply rtc_l; [apply two_acquire_0; by constructor|].
    eapply rtc_l; [apply two_acquire_1; by repeat constructor|].
    eapply rtc_l; [apply two_acquire_1; by repeat constructor|].
    apply rtc_once, two_free_1. rewrite filter_cons_False by (by simpl; eauto).
    by rewrite !filter_cons_True.
  - by exists 0, (Acquire cl true), (Free cl :: rest).
  - intros s' Hstep. inversion Hstep as [? t lock ex acts Ht Hg|? t lock acts Ht]; subst; simpl in Ht.
    + rewrite lookup_insert, lookup_singleton in Ht. repeat case_decide; simplify_eq;
        inversion Hg as [|? ? H1 H2]; simpl in *; simplify_eq.
      * by destruct (H1 eq_refl).
      * inversion H2 as [|? ? H3 _]. by destruct (H3 eq_refl).
    + rewrite lookup_insert, lookup_singleton in Ht. repeat case_decide; simplify_eq.
Qed.

End locks.

Lemma supersede_enter_deadlock_witness :
  ∃ s, rtc lock_step
         {| ls_threads := {[0 := remove_client_except_locks (λ _, 0) (λ _, 0) "app" "room" ["c1"];
                            1 := apply_present_locks (λ _, 0) (λ _, 0) "app" "lobby" "c1" false false]};
            ls_held := [] |} s
       ∧ deadlocked s.
Proof. apply (supersede_enter_deadlock (λ _, 0) (λ _, 0) "app" "room" "c1" [] "lobby"). reflexivity. Defined.
