(* ===== verification/CacheManager.v ===== *)
(** * The cache

    The atomic operations of the [CacheManager] trait
    ([crates/sockudo-core/src/cache.rs]) as an interface with laws, and the in-memory cache
    ([crates/sockudo-cache/src/memory_cache_manager.rs]) that implements it.  The table of the
    cache library is a finite map; what it drops by itself, for age or for size, is a step of
    its environment. *)

From Stdlib Require Import ZArith Lia Ascii.
From stdpp Require Import base gmap strings list pretty.
From S2P Require Import Prelude.

(** ** The interface *)

Class CacheManager (C : Type) := {
  cache_get : string → C → option string;
  cache_set_if_not_exists : string → string → Z → C → C * bool;
  cache_compare_and_swap : string → string → string → Z → C → C * bool;
  cache_compare_and_remove : string → string → C → C * bool;
  cache_evict : string → C → C;
}.

(** What the trait promises of each operation, observed by [get]. *)
Class CacheLaws (C : Type) `{CacheManager C} : Prop := {
  set_nx_law (k v : string) (ttl : Z) (c : C) k' :
    (cache_set_if_not_exists k v ttl c).2 = bool_decide (cache_get k c = None)
    ∧ cache_get k' (cache_set_if_not_exists k v ttl c).1
      = if bool_decide (k' = k ∧ cache_get k c = None) then Some v else cache_get k' c;
  cas_law (k e v : string) (ttl : Z) (c : C) k' :
    (cache_compare_and_swap k e v ttl c).2 = bool_decide (cache_get k c = Some e)
    ∧ cache_get k' (cache_compare_and_swap k e v ttl c).1
      = if bool_decide (k' = k ∧ cache_get k c = Some e) then Some v else cache_get k' c;
  car_law (k e : string) (c : C) k' :
    (cache_compare_and_remove k e c).2 = bool_decide (cache_get k c = Some e)
    ∧ cache_get k' (cache_compare_and_remove k e c).1
      = if bool_decide (k' = k ∧ cache_get k c = Some e) then None else cache_get k' c;
  evict_law (k : string) (c : C) k' :
    cache_get k' (cache_evict k c) = if bool_decide (k' = k) then None else cache_get k' c;
}.

(** ** The in-memory cache *)

(** [mc_ttl] is the [ttl] of the options, in seconds. *)
Record MemoryCacheManager := {
  mc_prefix : string;
  mc_ttl : Z;
  mc_entries : gmap string string;
}.

Implicit Types (c : MemoryCacheManager) (key value expected prefix : string).

Definition with_entries c (entries : gmap string string) : MemoryCacheManager :=
  {| mc_prefix := mc_prefix c; mc_ttl := mc_ttl c; mc_entries := entries |}.

Definition prefixed_key c key : string := mc_prefix c +:+ ":" +:+ key.

Definition mem_get key c : option string := mc_entries c !! prefixed_key c key.

Definition mem_has key c : bool := bool_decide (is_Some (mem_get key c)).

Definition mem_set key value c : MemoryCacheManager :=
  with_entries c (<[prefixed_key c key := value]> (mc_entries c)).

Definition mem_remove key c : MemoryCacheManager :=
  with_entries c (delete (prefixed_key c key) (mc_entries c)).

Definition mem_set_if_not_exists key value (ttl_seconds : Z) c : MemoryCacheManager * bool :=
  match mem_get key c with
  | None => (mem_set key value c, true)
  | Some _ => (c, false)
  end.

Definition mem_compare_and_swap key expected value (ttl_seconds : Z) c
    : MemoryCacheManager * bool :=
  match mem_get key c with
  | Some current =>
      if bool_decide (current = expected) then (mem_set key value c, true) else (c, false)
  | None => (c, false)
  end.

Definition mem_compare_and_remove key expected c : MemoryCacheManager * bool :=
  match mem_get key c with
  | Some current => if bool_decide (current = expected) then (mem_remove key c, true) else (c, false)
  | None => (c, false)
  end.

(** [str::parse::<i64>]: a sign, then at least one digit. *)
Definition digit_value (a : Ascii.ascii) : option Z :=
  let n := Z.of_nat (Ascii.nat_of_ascii a) in
  if (48 <=? n)%Z && (n <=? 57)%Z then Some (n - 48)%Z else None.

Fixpoint parse_digits (acc : Z) (s : string) : option Z :=
  match s with
  | EmptyString => Some acc
  | String a s => d ← digit_value a; parse_digits (10 * acc + d) s
  end.

Definition parse_i64 (s : string) : option Z :=
  let '(negative, digits) :=
    match s with
    | String "-"%char s => (true, s)
    | String "+"%char s => (false, s)
    | _ => (false, s)
    end in
  match digits with
  | EmptyString => None
  | _ =>
      n ← parse_digits 0 digits;
      let n := (if negative then - n else n)%Z in
      if (i64_min <=? n)%Z && (n <=? i64_max)%Z then Some n else None
  end.

Definition i64_saturating_add (a b : Z) : Z := Z.max i64_min (Z.min (a + b) i64_max).

Definition mem_increment_by key (delta ttl_seconds : Z) c : MemoryCacheManager * Z :=
  let next := i64_saturating_add (default 0%Z (mem_get key c ≫= parse_i64)) delta in
  (mem_set key (pretty next) c, default 0%Z (parse_i64 (pretty next))).

Definition mem_ttl key c : option Z :=
  if mem_has key c then if (mc_ttl c >? 0)%Z then Some (mc_ttl c) else None else None.

Definition mem_disconnect c : MemoryCacheManager := with_entries c ∅.

Definition mem_delete key c : MemoryCacheManager * bool :=
  if mem_has key c then (mem_remove key c, true) else (c, false).

Definition mem_get_many (keys : list string) c : list (option string) :=
  (λ key, mem_get key c) <$> keys.

Definition mem_set_many (pairs : list (string * string)) c : MemoryCacheManager :=
  foldl (λ c kv, mem_set kv.1 kv.2 c) c pairs.

Record CacheScanPage := {
  sp_entries : list (string * string);
  sp_next_cursor : option string;
}.

(** The entries of this cache whose key starts with [prefix], by key. *)
Definition mem_matching c prefix : list (string * string) :=
  stable_sort entry_le
    (omap (λ kv, key ← strip_prefix (mc_prefix c +:+ ":") kv.1;
                 if String.prefix prefix key then Some (key, kv.2) else None)
       (map_to_list (mc_entries c))).

Fixpoint position {A} (f : A → bool) (l : list A) : option nat :=
  match l with
  | [] => None
  | x :: l => if f x then Some 0 else S <$> position f l
  end.

Definition mem_scan_prefix_page c prefix (cursor : option string) (limit : nat) : CacheScanPage :=
  if (limit =? 0)%nat then {| sp_entries := []; sp_next_cursor := None |}
  else
    let matching := mem_matching c prefix in
    let start :=
      default 0 (cursor ← cursor; position (λ kv, bool_decide (key_lt cursor kv.1)) matching) in
    let stop := (start + limit) `min` length matching in
    let entries := firstn (stop - start) (skipn start matching) in
    {| sp_entries := entries;
       sp_next_cursor := if (stop <? length matching)%nat then fst <$> last entries else None |}.

(** The entries in the order [iter] in which the cache library yields them. *)
Section iteration.
Context (iter : gmap string string → list (string * string)).

Definition mem_scan_prefix c prefix (limit : nat) : list (string * string) :=
  take limit
    (omap (λ kv, key ← strip_prefix (mc_prefix c +:+ ":") kv.1;
                 if String.prefix prefix key then Some (key, kv.2) else None)
       (iter (mc_entries c))).

Definition get_all_entries c : list (string * string * option Z) :=
  omap (λ kv, key ← strip_prefix (mc_prefix c +:+ ":") kv.1;
              Some (key, kv.2, if (mc_ttl c >? 0)%Z then Some (mc_ttl c) else None))
    (iter (mc_entries c)).
End iteration.

#[export] Instance memory_cache : CacheManager MemoryCacheManager := {|
  cache_get := mem_get;
  cache_set_if_not_exists := mem_set_if_not_exists;
  cache_compare_and_swap := mem_compare_and_swap;
  cache_compare_and_remove := mem_compare_and_remove;
  cache_evict := mem_remove;
|}.

(** ** Scans *)

(** When the entries after the cursor are gone, the scan starts over: it returns the first page
    again instead of the empty last page. *)
Lemma scan_restarts c prefix cursor limit :
  (∀ kv, kv ∈ mem_matching c prefix → ¬ key_lt cursor kv.1) →
  mem_scan_prefix_page c prefix (Some cursor) limit = mem_scan_prefix_page c prefix None limit.
Proof.
  intros Hno. unfold mem_scan_prefix_page. cbn [mbind option_bind].
  assert (∀ l, (∀ kv : string * string, kv ∈ l → ¬ key_lt cursor kv.1) →
    position (λ kv, bool_decide (key_lt cursor kv.1)) l = None) as Hpos.
  { induction l as [|kv l IH]; intros Hl; [done|]. cbn [position].
    rewrite bool_decide_false by (apply Hl; by left). rewrite IH; [done|].
    intros kv' Hin. apply Hl. by right. }
  by rewrite (Hpos _ Hno).
Qed.

(** ** The laws *)

Lemma prefixed_key_inj c key key' : prefixed_key c key = prefixed_key c key' → key = key'.
Proof. unfold prefixed_key. intros Heq%(inj _)%(inj _). done. Qed.

Lemma mem_get_set key value c key' :
  mem_get key' (mem_set key value c) = if bool_decide (key' = key) then Some value else mem_get key' c.
Proof.
  unfold mem_get, mem_set. simpl. unfold prefixed_key. simpl. rewrite lookup_insert.
  case_bool_decide as Hk; [subst; by rewrite decide_True|].
  rewrite decide_False; [done|]. intros Heq. apply Hk. symmetry.
  by apply (prefixed_key_inj c).
Qed.

Lemma mem_get_remove key c key' :
  mem_get key' (mem_remove key c) = if bool_decide (key' = key) then None else mem_get key' c.
Proof.
  unfold mem_get, mem_remove. simpl. unfold prefixed_key. simpl. rewrite lookup_delete.
  case_bool_decide as Hk; [subst; by rewrite decide_True|].
  rewrite decide_False; [done|]. intros Heq. apply Hk. symmetry.
  by apply (prefixed_key_inj c).
Qed.

#[export] Instance memory_cache_laws : CacheLaws MemoryCacheManager.
Proof.
  split; simpl; intros *;
    unfold mem_set_if_not_exists, mem_compare_and_swap, mem_compare_and_remove.
  - destruct (mem_get k c) as [x|] eqn:Hk; simpl; [by rewrite bool_decide_false by naive_solver|].
    rewrite mem_get_set. split; [done|]. by repeat case_bool_decide; naive_solver.
  - destruct (mem_get k c) as [x|] eqn:Hk; simpl; [|by rewrite bool_decide_false by naive_solver].
    case_bool_decide; simpl; rewrite ?mem_get_set; split; repeat case_bool_decide; naive_solver.
  - destruct (mem_get k c) as [x|] eqn:Hk; simpl; [|by rewrite bool_decide_false by naive_solver].
    case_bool_decide; simpl; rewrite ?mem_get_remove; split; repeat case_bool_decide; naive_solver.
  - apply mem_get_remove.
Qed.

(** ** Counters *)

Lemma digit_value_char (n : N) :
  (n < 10)%N → digit_value (pretty_N_char n) = Some (Z.of_N n).
Proof.
  intros Hn. assert (n ∈ [0; 1; 2; 3; 4; 5; 6; 7; 8; 9]%N) as Hin.
  { rewrite !elem_of_cons. lia. }
  by repeat (apply elem_of_cons in Hin as [->|Hin]; [done|]); apply elem_of_nil in Hin.
Qed.

Lemma parse_pretty_N_go (n : N) (s : string) : parse_digits 0 (pretty_N_go n s) = parse_digits (Z.of_N n) s.
Proof.
  revert s. induction (N.lt_wf_0 n) as [n _ IH]; intros s.
  destruct (decide (0 < n)%N) as [Hn|Hn].
  - rewrite pretty_N_go_step by done. rewrite IH by (apply N.div_lt; lia). cbn [parse_digits].
    rewrite digit_value_char by (apply N.mod_lt; lia). simpl. f_equal.
    pose proof (N.div_mod n 10 ltac:(done)). lia.
  - replace n with 0%N by lia. by rewrite pretty_N_go_0.
Qed.

Lemma pretty_N_go_digit (n : N) (s : string) :
  (0 < n)%N → ∃ a s', pretty_N_go n s = String a s' ∧ is_Some (digit_value a).
Proof.
  revert s. induction (N.lt_wf_0 n) as [n _ IH]; intros s Hn.
  rewrite pretty_N_go_step by done. destruct (decide (0 < n `div` 10)%N) as [Hd|Hd].
  - apply IH; [apply N.div_lt; lia|done].
  - apply N.nlt_ge, N.le_0_r in Hd. rewrite Hd, pretty_N_go_0.
    eexists _, _. split; [done|]. rewrite digit_value_char; [done|]. apply N.mod_lt. lia.
Qed.

Lemma parse_pretty_pos (p : positive) :
  (Z.pos p ≤ i64_max)%Z → parse_i64 (pretty p) = Some (Z.pos p)
  ∧ parse_i64 ("-" +:+ pretty p) = Some (Z.neg p).
Proof.
  intros Hp. change (pretty p) with (pretty_N_go (Npos p) "").
  destruct (pretty_N_go_digit (Npos p) "") as (a & s & Heq & [d Hd]); [done|].
  pose proof (parse_pretty_N_go (Npos p) "") as Hparse. cbn [parse_digits] in Hparse.
  assert (i64_min ≤ Z.neg p ∧ i64_min ≤ Z.pos p ∧ Z.neg p ≤ i64_max)%Z as (H1 & H2 & H3).
  { u64_lia. }
  assert (Hsign : a ≠ "-"%char ∧ a ≠ "+"%char) by (split; intros ->; discriminate).
  split.
  - unfold parse_i64. rewrite Heq in *.
    assert ((match String a s with
             | String "-"%char s => (true, s) | String "+"%char s => (false, s)
             | _ => (false, String a s) end) = (false, String a s)) as ->.
    { destruct Hsign. clear - H0 H. by destruct a as [[] [] [] [] [] [] [] []]. }
    rewrite Hparse. simpl. by rewrite !(proj2 (Z.leb_le _ _)).
  - rewrite Heq in *. change ("-" +:+ String a s) with (String "-"%char (String a s)).
    unfold parse_i64. cbv iota. rewrite Hparse. simpl. by rewrite !(proj2 (Z.leb_le _ _)).
Qed.

Lemma parse_pretty_i64 (z : Z) : is_i64 z → parse_i64 (pretty z) = Some z.
Proof.
  intros Hz. destruct z as [|p|p]; [done| |].
  - apply parse_pretty_pos. apply Hz.
  - destruct (decide (Z.neg p = i64_min)) as [->|Hmin]; [by vm_compute|].
    apply parse_pretty_pos. u64_lia.
Qed.

(** A counter answers and keeps the saturated sum. *)
Lemma mem_increment_spec key delta ttl c n :
  mem_get key c = Some (pretty n) → is_i64 n →
  let '(c', answer) := mem_increment_by key delta ttl c in
  answer = i64_saturating_add n delta ∧ is_i64 answer ∧ mem_get key c' = Some (pretty answer).
Proof.
  intros Hget Hn. unfold mem_increment_by. rewrite Hget. simpl. rewrite (parse_pretty_i64 n Hn).
  simpl. assert (is_i64 (i64_saturating_add n delta)) as Hsum.
  { unfold i64_saturating_add. u64_lia. }
  rewrite (parse_pretty_i64 _ Hsum). simpl. rewrite mem_get_set, bool_decide_true by done. done.
Qed.

(** ** The operations by cases *)

Section cases.
Context {C : Type} `{CacheLaws C}.

Lemma set_nx_cases k v ttl (cache : C) :
  let '(cache', set) := cache_set_if_not_exists k v ttl cache in
  (∀ k', k' ≠ k → cache_get k' cache' = cache_get k' cache)
  ∧ (set = true ∧ cache_get k cache = None ∧ cache_get k cache' = Some v
     ∨ set = false ∧ is_Some (cache_get k cache) ∧ cache_get k cache' = cache_get k cache).
Proof.
  pose proof (λ k', set_nx_law k v ttl cache k') as Hl.
  destruct (cache_set_if_not_exists k v ttl cache) as [cache' set]. simpl in Hl. split.
  - intros k' Hk. destruct (Hl k') as [_ ->]. by rewrite bool_decide_false by (by intros [? ?]).
  - destruct (Hl k) as [-> ->]. destruct (cache_get k cache) as [x|] eqn:Hx.
    + right. rewrite !bool_decide_false; [by eauto|by intros [? ?]|done].
    + left. by rewrite !bool_decide_true.
Qed.

Lemma cas_cases k e v ttl (cache : C) :
  let '(cache', swapped) := cache_compare_and_swap k e v ttl cache in
  (∀ k', k' ≠ k → cache_get k' cache' = cache_get k' cache)
  ∧ (swapped = true ∧ cache_get k cache = Some e ∧ cache_get k cache' = Some v
     ∨ swapped = false ∧ cache_get k cache ≠ Some e ∧ cache_get k cache' = cache_get k cache).
Proof.
  pose proof (λ k', cas_law k e v ttl cache k') as Hl.
  destruct (cache_compare_and_swap k e v ttl cache) as [cache' swapped]. simpl in Hl. split.
  - intros k' Hk. destruct (Hl k') as [_ ->]. by rewrite bool_decide_false by (by intros [? ?]).
  - destruct (Hl k) as [-> ->]. destruct (decide (cache_get k cache = Some e)) as [Hx|Hx].
    + left. by rewrite !bool_decide_true.
    + right. rewrite !bool_decide_false; [done|by intros [? ?]|done].
Qed.

Lemma car_cases k e (cache : C) :
  let '(cache', removed) := cache_compare_and_remove k e cache in
  (∀ k', k' ≠ k → cache_get k' cache' = cache_get k' cache)
  ∧ (removed = true ∧ cache_get k cache = Some e ∧ cache_get k cache' = None
     ∨ removed = false ∧ cache_get k cache ≠ Some e ∧ cache_get k cache' = cache_get k cache).
Proof.
  pose proof (λ k', car_law k e cache k') as Hl.
  destruct (cache_compare_and_remove k e cache) as [cache' removed]. simpl in Hl. split.
  - intros k' Hk. destruct (Hl k') as [_ ->]. by rewrite bool_decide_false by (by intros [? ?]).
  - destruct (Hl k) as [-> ->]. destruct (decide (cache_get k cache = Some e)) as [Hx|Hx].
    + left. by rewrite !bool_decide_true.
    + right. rewrite !bool_decide_false; [done|by intros [? ?]|done].
Qed.

End cases.
