(* ===== verification/Idempotency.v ===== *)
(** * Idempotent publishing

    The claims and receipts of [crates/sockudo-core/src/idempotency.rs] and the part of
    [publish_message_with_timing] ([crates/sockudo-adapter/src/services.rs]) that uses them.
    A caller is a thread; a step is one call of the cache, or one outcome of the publish
    pipeline or of the search for a durable receipt.  Any call of the cache may also fail, with
    or without having taken effect, and any caller may be dropped.  The cache drops entries
    by itself only where [expiry] says so. *)

From Stdlib Require Import ZArith Lia.
From stdpp Require Import base gmap strings list relations.
From S2P Require Import Prelude Errors CacheManager.

Definition WAIT_ATTEMPTS : nat := 40.
Definition RECOVERY_CAS_ATTEMPTS : nat := 8.

Record IdempotencyReceipt := {
  ir_acknowledgement_id : string;
  ir_message_serial : option string;
  ir_history_serial : option Z;
  ir_delivery_serial : option Z;
  ir_version_serial : option string;
}.

#[export] Instance receipt_eq_dec : EqDecision IdempotencyReceipt.
Proof. solve_decision. Defined.

Inductive IdempotencyRecord : Type :=
| PendingRecord (fingerprint owner : string)
| CommittedRecord (fingerprint : string) (receipt : IdempotencyReceipt).

(** The JSON library: records print, and what is printed reads back. *)
Class RecordCodec := {
  record_to_string : IdempotencyRecord → string;
  record_from_str : string → result string IdempotencyRecord;
}.

Class CodecLaws `{RecordCodec} : Prop :=
  codec_roundtrip : ∀ x, record_from_str (record_to_string x) = Ok x.

(** ** Keys *)

(** The hexadecimal SHA-256 of bytes is a parameter. *)
Definition publish_idempotency_cache_key (digest : string → string)
    (app_id channel message_id : string) : string :=
  "idempotency:publish:v1:" +:+ digest (app_id +:+ nul +:+ channel +:+ nul +:+ message_id).

Definition mutation_idempotency_key (digest : string → string)
    (app_id channel message_serial action operation_id : string) : string :=
  "idempotency:mutation:v1:"
  +:+ digest (foldr (λ part rest, part +:+ nul +:+ rest) EmptyString
                [app_id; channel; message_serial; action; operation_id]).

(** ** A call *)

(** Where a call is.  [duplicate] is the flag of the result. *)
Inductive PublishPc : Type :=
| BeginSet
| BeginLoop (attempt : nat)
| BeginRetry (attempt : nat)
| Publishing
| Committing (receipt : IdempotencyReceipt)
| CommitGet (receipt : IdempotencyReceipt)
| Aborting (e : Error)
| Recover (duplicate : bool)
| RecoverLoop (attempt : nat) (receipt : IdempotencyReceipt) (duplicate : bool)
| RecoverSet (attempt : nat) (receipt : IdempotencyReceipt) (duplicate : bool)
| RecoverSwap (attempt : nat) (receipt : IdempotencyReceipt) (duplicate : bool) (value : string)
| Returned (answer : result Error (IdempotencyReceipt * bool))
| Dropped.

(** The arguments of a call and the owner it drew for its claim. *)
Record Publisher := {
  pb_key : string;
  pb_fingerprint : string;
  pb_ttl : Z;
  pb_owner : string;
  pb_pc : PublishPc;
}.

Definition at_pc (p : Publisher) (pc : PublishPc) : Publisher := {|
  pb_key := pb_key p; pb_fingerprint := pb_fingerprint p; pb_ttl := pb_ttl p;
  pb_owner := pb_owner p; pb_pc := pc |}.

Section calls.
Context `{RecordCodec} {C : Type} `{CacheManager C}.
Implicit Types (p : Publisher) (cache : C) (receipt : IdempotencyReceipt).

Definition pending_value p : string :=
  record_to_string (PendingRecord (pb_fingerprint p) (pb_owner p)).

Definition committed_value p receipt : string :=
  record_to_string (CommittedRecord (pb_fingerprint p) receipt).

Definition ttl_of p : Z := Z.max (pb_ttl p) 1.

Definition parse_record (value : string) (k : IdempotencyRecord → PublishPc) : PublishPc :=
  match record_from_str value with
  | Ok x => k x
  | Err e => Returned (Err (Cache ("invalid idempotency record: " +:+ e)))
  end.

(** [begin_publish]: the loop, once the key was taken. *)
Definition begin_read p (attempt : nat) (value : option string) : PublishPc :=
  match value with
  | None => BeginRetry attempt
  | Some value =>
      parse_record value (λ x,
        match x with
        | CommittedRecord existing receipt =>
            if bool_decide (existing = pb_fingerprint p) then Returned (Ok (receipt, true))
            else Returned (Err IdempotencyConflict)
        | PendingRecord existing _ =>
            if bool_decide (existing = pb_fingerprint p) then BeginLoop (S attempt)
            else Returned (Err IdempotencyConflict)
        end)
  end.

(** [commit_publish]: the read after a swap that failed. *)
Definition commit_read p receipt (value : option string) : PublishPc :=
  match value with
  | None => Recover false
  | Some value =>
      parse_record value (λ x,
        match x with
        | CommittedRecord existing existing_receipt =>
            if bool_decide (existing = pb_fingerprint p ∧ existing_receipt = receipt)
            then Returned (Ok (receipt, false)) else Returned (Err IdempotencyConflict)
        | PendingRecord existing _ =>
            if bool_decide (existing = pb_fingerprint p) then Recover false
            else Returned (Err IdempotencyConflict)
        end)
  end.

(** [commit_recovered_publish]: the read of one attempt. *)
Definition recover_read p (attempt : nat) receipt (duplicate : bool) (value : option string)
    : PublishPc :=
  match value with
  | None => RecoverSet attempt receipt duplicate
  | Some value =>
      parse_record value (λ x,
        match x with
        | CommittedRecord existing existing_receipt =>
            if bool_decide (existing = pb_fingerprint p ∧ existing_receipt = receipt)
            then Returned (Ok (existing_receipt, duplicate))
            else Returned (Err IdempotencyConflict)
        | PendingRecord existing _ =>
            if bool_decide (existing = pb_fingerprint p)
            then RecoverSwap attempt receipt duplicate value
            else Returned (Err IdempotencyConflict)
        end)
  end.

(** One call of the cache; [None] where the call waits for something else or has ended. *)
Definition publish_exec p cache : option (C * PublishPc) :=
  let key := pb_key p in
  match pb_pc p with
  | BeginSet =>
      let '(cache, set) := cache_set_if_not_exists key (pending_value p) (ttl_of p) cache in
      Some (cache, if set then Publishing else BeginLoop 0)
  | BeginLoop attempt =>
      Some (cache, if (attempt <? WAIT_ATTEMPTS)%nat then begin_read p attempt (cache_get key cache)
                   else Recover true)
  | BeginRetry attempt =>
      let '(cache, set) := cache_set_if_not_exists key (pending_value p) (ttl_of p) cache in
      Some (cache, if set then Publishing else BeginLoop (S attempt))
  | Committing receipt =>
      let '(cache, swapped) :=
        cache_compare_and_swap key (pending_value p) (committed_value p receipt) (ttl_of p) cache in
      Some (cache, if swapped then Returned (Ok (receipt, false)) else CommitGet receipt)
  | CommitGet receipt => Some (cache, commit_read p receipt (cache_get key cache))
  | Aborting e =>
      let '(cache, _) := cache_compare_and_remove key (pending_value p) cache in
      Some (cache, Returned (Err e))
  | RecoverLoop attempt receipt duplicate =>
      Some (cache, if (attempt <? RECOVERY_CAS_ATTEMPTS)%nat
                   then recover_read p attempt receipt duplicate (cache_get key cache)
                   else Returned (Err IdempotencyInProgress))
  | RecoverSet attempt receipt duplicate =>
      let '(cache, set) :=
        cache_set_if_not_exists key (committed_value p receipt) (ttl_of p) cache in
      Some (cache, if set then Returned (Ok (receipt, duplicate))
                   else RecoverLoop (S attempt) receipt duplicate)
  | RecoverSwap attempt receipt duplicate value =>
      let '(cache, swapped) :=
        cache_compare_and_swap key value (committed_value p receipt) (ttl_of p) cache in
      Some (cache, if swapped then Returned (Ok (receipt, duplicate))
                   else RecoverLoop (S attempt) receipt duplicate)
  | Publishing | Recover _ | Returned _ | Dropped => None
  end.

(** ** Calls together *)

(** The cache, the publishes performed, and the calls. *)
Record PublishState := {
  ps_cache : C;
  ps_published : list (string * string * IdempotencyReceipt);
  ps_calls : gmap nat Publisher;
}.

Definition set_call (s : PublishState) (t : nat) (p : Publisher) (cache : C)
    (published : list (string * string * IdempotencyReceipt)) : PublishState :=
  {| ps_cache := cache; ps_published := published; ps_calls := <[t := p]> (ps_calls s) |}.

(** A step of call [t]. *)
Inductive call_step (t : nat) (s : PublishState) : PublishState → Prop :=
| step_cache p cache pc :
    ps_calls s !! t = Some p → publish_exec p (ps_cache s) = Some (cache, pc) →
    call_step t s (set_call s t (at_pc p pc) cache (ps_published s))
| step_cache_fails p cache pc (took_effect : bool) e :
    ps_calls s !! t = Some p → publish_exec p (ps_cache s) = Some (cache, pc) →
    call_step t s (set_call s t (at_pc p (Returned (Err e)))
                     (if took_effect then cache else ps_cache s) (ps_published s))
| step_published p receipt :
    ps_calls s !! t = Some p → pb_pc p = Publishing →
    call_step t s (set_call s t (at_pc p (Committing receipt)) (ps_cache s)
                     ((pb_key p, pb_fingerprint p, receipt) :: ps_published s))
| step_publish_fails p e :
    ps_calls s !! t = Some p → pb_pc p = Publishing →
    call_step t s (set_call s t (at_pc p (Aborting e)) (ps_cache s) (ps_published s))
| step_recovered p duplicate receipt :
    ps_calls s !! t = Some p → pb_pc p = Recover duplicate →
    (pb_key p, pb_fingerprint p, receipt) ∈ ps_published s →
    call_step t s (set_call s t (at_pc p (RecoverLoop 0 receipt duplicate)) (ps_cache s)
                     (ps_published s))
| step_not_recovered p duplicate e :
    ps_calls s !! t = Some p → pb_pc p = Recover duplicate →
    call_step t s (set_call s t (at_pc p (Returned (Err e))) (ps_cache s) (ps_published s)).

Inductive publish_step (expiry : bool) (s : PublishState) : PublishState → Prop :=
| step_start t key fingerprint ttl owner :
    ps_calls s !! t = None →
    map_Forall (λ _ p, pb_owner p ≠ owner) (ps_calls s) →
    publish_step expiry s
      (set_call s t {| pb_key := key; pb_fingerprint := fingerprint; pb_ttl := ttl;
                       pb_owner := owner; pb_pc := BeginSet |} (ps_cache s) (ps_published s))
| step_call t s' : call_step t s s' → publish_step expiry s s'
| step_drop t p :
    ps_calls s !! t = Some p →
    publish_step expiry s (set_call s t (at_pc p Dropped) (ps_cache s) (ps_published s))
| step_expire key :
    expiry = true →
    publish_step expiry s {| ps_cache := cache_evict key (ps_cache s);
                             ps_published := ps_published s; ps_calls := ps_calls s |}.

(** The states reached from an empty cache. *)
Definition publish_reachable (expiry : bool) (s : PublishState) : Prop :=
  ∃ cache, (∀ key, cache_get key cache = None)
    ∧ rtc (publish_step expiry)
        {| ps_cache := cache; ps_published := []; ps_calls := ∅ |} s.

End calls.

Arguments PublishState C : clear implicits.
