(* ===== verification/IdempotencyThms.v ===== *)
(** * Idempotent publishing: exactly one receipt

    The theorems on [Idempotency.v], against any cache that keeps the contract of
    [CacheManager.v]; the witnesses use the in-memory cache. *)

From Stdlib Require Import ZArith Lia.
From stdpp Require Import base gmap strings list relations.
From S2P Require Import Prelude Errors CacheManager Idempotency.

Section thms.
Context `{CodecLaws} {C : Type} `{CacheLaws C}.
Implicit Types (p : Publisher) (cache : C) (receipt : IdempotencyReceipt) (s : PublishState C).
Implicit Types (pc : PublishPc) (published : list (string * string * IdempotencyReceipt)).

#[local] Instance record_to_string_inj : Inj (=) (=) record_to_string.
Proof.
  intros x y Heq. apply (f_equal record_from_str) in Heq. rewrite !codec_roundtrip in Heq. by inversion Heq.
Qed.

Definition record_fingerprint (x : IdempotencyRecord) : string :=
  match x with PendingRecord fp _ | CommittedRecord fp _ => fp end.

(** The receipt a call stands for, once it has one. *)
Definition pc_receipt pc : option IdempotencyReceipt :=
  match pc with
  | Committing r | CommitGet r | RecoverLoop _ r _ | RecoverSet _ r _ | RecoverSwap _ r _ _ => Some r
  | Returned (Ok (r, _)) => Some r
  | _ => None
  end.

(** The call holds a claim and has not published. *)
Definition claiming pc : bool :=
  match pc with Publishing | Aborting _ => true | _ => false end.

Definition genuine published p : Prop :=
  ∀ r, pc_receipt (pb_pc p) = Some r → (pb_key p, pb_fingerprint p, r) ∈ published.

Record publish_inv (expiry : bool) s : Prop := {
  pi_owner t t' p p' :
    ps_calls s !! t = Some p → ps_calls s !! t' = Some p' → pb_owner p = pb_owner p' → t = t';
  pi_cache k v : cache_get k (ps_cache s) = Some v →
    ∃ x, v = record_to_string x
      ∧ ∀ fp r, x = CommittedRecord fp r → (k, fp, r) ∈ ps_published s;
  pi_genuine : map_Forall (λ _ p, genuine (ps_published s) p) (ps_calls s);
  pi_claim t p : expiry = false → ps_calls s !! t = Some p → claiming (pb_pc p) = true →
    cache_get (pb_key p) (ps_cache s) = Some (pending_value p)
    ∧ ∀ fp r, (pb_key p, fp, r) ∉ ps_published s;
  pi_published k fp r : expiry = false → (k, fp, r) ∈ ps_published s →
    ∃ x, cache_get k (ps_cache s) = Some (record_to_string x) ∧ record_fingerprint x = fp;
  pi_once : expiry = false → NoDup ((ps_published s).*1.*1);
}.

Lemma published_once s k fp r fp' r' :
  NoDup ((ps_published s).*1.*1) → (k, fp, r) ∈ ps_published s → (k, fp', r') ∈ ps_published s →
  fp = fp' ∧ r = r'.
Proof.
  generalize (ps_published s) as l. induction l as [|[[k0 fp0] r0] l IH]; intros Hnd Hin Hin'.
  { by apply elem_of_nil in Hin. }
  rewrite !fmap_cons in Hnd. apply NoDup_cons in Hnd as [Hk Hnd].
  assert (∀ fp r, (k0, fp, r) ∉ l) as Hno.
  { intros fp1 r1 Hl. apply Hk. by do 2 apply (list_elem_of_fmap_2 fst) in Hl. }
  apply elem_of_cons in Hin as [Hin|Hin]; apply elem_of_cons in Hin' as [Hin'|Hin'].
  - by simplify_eq.
  - simplify_eq. by destruct (Hno _ _ Hin').
  - simplify_eq. by destruct (Hno _ _ Hin).
  - by apply IH.
Qed.

(** What a call of the cache may do at the key of the call. *)
Inductive cache_change p published : option string → option string → Prop :=
| change_none v : cache_change p published v v
| change_claim : cache_change p published None (Some (pending_value p))
| change_commit v r :
    (pb_key p, pb_fingerprint p, r) ∈ published →
    cache_change p published v (Some (committed_value p r))
| change_release e :
    pb_pc p = Aborting e → cache_change p published (Some (pending_value p)) None.

Lemma reads_not_claiming p v :
  (∀ n, claiming (begin_read p n v) = false) ∧ (∀ r, claiming (commit_read p r v) = false)
  ∧ ∀ n r d, claiming (recover_read p n r d v) = false.
Proof.
  unfold begin_read, commit_read, recover_read, parse_record.
  destruct v as [v|]; [|done]. destruct (record_from_str v) as [[fp o|fp r']|e]; [| |done];
    split_and!; intros; by case_bool_decide.
Qed.

Lemma exec_change p cache published cache' pc :
  genuine published p → publish_exec p cache = Some (cache', pc) →
  (∀ k, k ≠ pb_key p → cache_get k cache' = cache_get k cache)
  ∧ cache_change p published (cache_get (pb_key p) cache) (cache_get (pb_key p) cache')
  ∧ (claiming pc = true → cache_get (pb_key p) cache = None
       ∧ cache_get (pb_key p) cache' = Some (pending_value p)).
Proof.
  intros Hg He. unfold genuine in Hg. unfold publish_exec in He.
  pose proof (reads_not_claiming p (cache_get (pb_key p) cache)) as Hr.
  destruct (pb_pc p) as [|n|n| |r|r|e|d|n r d|n r d|n r d v|a|] eqn:Hpc; try done; simpl in Hg.
  - pose proof (set_nx_cases (pb_key p) (pending_value p) (ttl_of p) cache) as Hl.
    destruct (cache_set_if_not_exists _ _ _ _) as [c b], Hl as [Ho Hk]. simplify_eq.
    split; [done|]. destruct Hk as [(-> & -> & ->)|(-> & [v Hv] & ->)]; [split; [constructor|done]|].
    split; [constructor|done].
  - simplify_eq. split; [done|]. split; [constructor|].
    destruct (n <? WAIT_ATTEMPTS)%nat; [|done]. by rewrite (proj1 Hr n).
  - pose proof (set_nx_cases (pb_key p) (pending_value p) (ttl_of p) cache) as Hl.
    destruct (cache_set_if_not_exists _ _ _ _) as [c b], Hl as [Ho Hk]. simplify_eq.
    split; [done|]. destruct Hk as [(-> & -> & ->)|(-> & [v Hv] & ->)]; [split; [constructor|done]|].
    split; [constructor|done].
  - pose proof (cas_cases (pb_key p) (pending_value p) (committed_value p r) (ttl_of p) cache) as Hl.
    destruct (cache_compare_and_swap _ _ _ _ _) as [c b], Hl as [Ho Hk]. simplify_eq.
    split; [done|]. destruct Hk as [(-> & -> & ->)|(-> & _ & ->)]; (split; [|done]); constructor.
    by apply Hg.
  - simplify_eq. split; [done|]. split; [constructor|].
    by rewrite (proj1 (proj2 Hr) r).
  - pose proof (car_cases (pb_key p) (pending_value p) cache) as Hl.
    destruct (cache_compare_and_remove _ _ _) as [c b], Hl as [Ho Hk]. simplify_eq.
    split; [done|]. destruct Hk as [(-> & -> & ->)|(-> & _ & ->)]; (split; [|done]).
    + by apply (change_release _ _ e).
    + constructor.
  - simplify_eq. split; [done|]. split; [constructor|].
    destruct (n <? RECOVERY_CAS_ATTEMPTS)%nat; [|done].
    by rewrite (proj2 (proj2 Hr) n r d).
  - pose proof (set_nx_cases (pb_key p) (committed_value p r) (ttl_of p) cache) as Hl.
    destruct (cache_set_if_not_exists _ _ _ _) as [c b], Hl as [Ho Hk]. simplify_eq.
    split; [done|]. destruct Hk as [(-> & -> & ->)|(-> & _ & ->)]; (split; [|done]); constructor.
    by apply Hg.
  - pose proof (cas_cases (pb_key p) v (committed_value p r) (ttl_of p) cache) as Hl.
    destruct (cache_compare_and_swap _ _ _ _ _) as [c b], Hl as [Ho Hk]. simplify_eq.
    split; [done|]. destruct Hk as [(-> & -> & ->)|(-> & _ & ->)]; (split; [|done]); constructor.
    by apply Hg.
Qed.

(** The receipt of the next point is that of a publish. *)
Lemma exec_genuine p cache published cache' pc :
  genuine published p →
  (∀ v fp r, cache_get (pb_key p) cache = Some v →
     record_from_str v = Ok (CommittedRecord fp r) → (pb_key p, fp, r) ∈ published) →
  publish_exec p cache = Some (cache', pc) → genuine published (at_pc p pc).
Proof.
  intros Hg Hc He r0. unfold genuine in Hg. unfold publish_exec in He. simpl.
  destruct (pb_pc p) as [|n|n| |r|r|e|d|n r d|n r d|n r d v|a|] eqn:Hpc; try done; simpl in Hg;
    try (destruct (cache_set_if_not_exists _ _ _ _) as [c b]; simplify_eq; destruct b; try done;
         simpl; intros; simplify_eq; by apply Hg);
    try (destruct (cache_compare_and_swap _ _ _ _ _) as [c b]; simplify_eq; destruct b; try done;
         simpl; intros; simplify_eq; by apply Hg);
    try (destruct (cache_compare_and_remove _ _ _) as [c b]; by simplify_eq).
  - simplify_eq. destruct (n <? WAIT_ATTEMPTS)%nat; [|done]. unfold begin_read, parse_record.
    destruct (cache_get (pb_key p) cache') as [v|] eqn:Hv; [|done].
    destruct (record_from_str v) as [[fp o|fp r']|e] eqn:Hd; [| |done]; case_bool_decide; try done.
    simpl. intros [= <-]. subst. by eapply Hc.
  - simplify_eq. unfold commit_read, parse_record.
    destruct (cache_get (pb_key p) cache') as [v|] eqn:Hv; [|done].
    destruct (record_from_str v) as [[fp o|fp r']|e] eqn:Hd; [| |done]; case_bool_decide; try done.
    simpl. intros [= <-]. by apply Hg.
  - simplify_eq. destruct (n <? RECOVERY_CAS_ATTEMPTS)%nat; [|done]. unfold recover_read, parse_record.
    destruct (cache_get (pb_key p) cache') as [v|] eqn:Hv.
    + destruct (record_from_str v) as [[fp o|fp r']|e] eqn:Hd; [| |done]; case_bool_decide; try done;
        simpl; intros [= <-]; [by apply Hg|]. destruct_and?. subst. by apply Hg.
    + simpl. intros [= <-]. by apply Hg.
Qed.

(** The cache and the claims after a change at one key by call [t], whatever it goes on to
    do. *)
Lemma change_inv expiry s t p cache' pc :
  publish_inv expiry s → ps_calls s !! t = Some p →
  (∀ k, k ≠ pb_key p → cache_get k cache' = cache_get k (ps_cache s)) →
  cache_change p (ps_published s) (cache_get (pb_key p) (ps_cache s)) (cache_get (pb_key p) cache') →
  genuine (ps_published s) (at_pc p pc) →
  (expiry = false → claiming pc = true →
     cache_get (pb_key p) cache' = Some (pending_value p)
     ∧ ∀ fp r, (pb_key p, fp, r) ∉ ps_published s) →
  publish_inv expiry (set_call s t (at_pc p pc) cache' (ps_published s)).
Proof.
  intros [Howner Hcache Hgen Hclaim Hpub Honce] Ht Ho Hch Hg Hcl.
  assert (∀ k v, cache_get k cache' = Some v → k = pb_key p ∨ cache_get k (ps_cache s) = Some v) as Hk.
  { intros k v Hv. destruct (decide (k = pb_key p)) as [->|Hne]; [by left|]. rewrite Ho in Hv; eauto. }
  split; simpl.
  - intros t1 t2 p1 p2. rewrite !lookup_insert.
    repeat case_decide; intros; simplify_eq/=; eauto; exfalso; naive_solver.
  - intros k v Hv. destruct (Hk _ _ Hv) as [->|Hv']; [|by apply Hcache].
    inversion Hch as [v0 Ea|Ea Eb|v0 r Hin Ea Eb|e He Ea Eb].
    + apply Hcache. congruence.
    + rewrite Hv in Eb. simplify_eq. eexists. split; [done|]. intros; done.
    + rewrite Hv in Eb. simplify_eq. eexists. split; [done|]. by intros fp r' [= <- <-].
    + congruence.
  - by apply map_Forall_insert_2.
  - intros t' p' Hex. rewrite lookup_insert. case_decide as Hd.
    + intros [= <-] Hcp. by apply Hcl.
    + intros Hp' Hcp. destruct (Hclaim _ _ Hex Hp' Hcp) as [Hget Hno]. split; [|done].
      destruct (decide (pb_key p' = pb_key p)) as [Heq|Hne]; [|by rewrite Ho].
      rewrite Heq in *. inversion Hch as [v0 Ea|Ea Eb|v0 r Hin Ea Eb|e He Ea Eb].
      * congruence.
      * congruence.
      * by destruct (Hno _ _ Hin).
      * rewrite Hget in Ea. unfold pending_value in Ea. simplify_eq.
        exfalso. apply Hd. by eapply (Howner t t').
  - intros k fp r Hex Hin. destruct (Hpub _ _ _ Hex Hin) as (x & Hx & Hfp).
    destruct (decide (k = pb_key p)) as [->|Hne]; [|rewrite Ho by done; by eauto].
    inversion Hch as [v0 Ea|Ea Eb|v0 r' Hin' Ea Eb|e He Ea Eb].
    + exists x. split; [congruence|done].
    + congruence.
    + eexists. split; [done|]. simpl. by destruct (published_once _ _ _ _ _ _ (Honce Hex) Hin' Hin).
    + exfalso. destruct (Hclaim t p Hex Ht) as [_ Hno]; [by rewrite He|]. by destruct (Hno _ _ Hin).
  - done.
Qed.

Lemma exec_inv expiry s t p cache' pc pc' :
  publish_inv expiry s → ps_calls s !! t = Some p →
  publish_exec p (ps_cache s) = Some (cache', pc) →
  pc' = pc ∨ claiming pc' = false ∧ pc_receipt pc' = None →
  publish_inv expiry (set_call s t (at_pc p pc') cache' (ps_published s)).
Proof.
  intros Hinv Ht He Hpc. pose proof (pi_genuine _ _ Hinv _ _ Ht) as Hg.
  destruct (exec_change _ _ _ _ _ Hg He) as (Ho & Hch & Hp).
  apply change_inv; [done..| |].
  - destruct Hpc as [->|[_ Hn]]; [|intros r Hr; simpl in Hr; congruence].
    eapply exec_genuine; [done| |done]. intros v fp r Hv Hd.
    destruct (pi_cache _ _ Hinv _ _ Hv) as (x & -> & Hx). rewrite codec_roundtrip in Hd.
    simplify_eq. by apply Hx.
  - intros Hex Hcl. destruct Hpc as [->|[? _]]; [|congruence].
    destruct (Hp Hcl) as [Hn Hs]. split; [done|]. intros fp r Hin.
    destruct (pi_published _ _ Hinv _ _ _ Hex Hin) as (x & Hx & _). congruence.
Qed.

Lemma call_step_inv expiry t s s' :
  publish_inv expiry s → call_step t s s' → publish_inv expiry s'.
Proof.
  intros Hinv Hstep. destruct Hstep as [p cache pc Ht He|p cache pc b e Ht He|p r Ht Hpc
    |p e Ht Hpc|p d r Ht Hpc Hin|p d e Ht Hpc].
  - eapply exec_inv; [done..|by left].
  - destruct b; [eapply exec_inv; [done..|by right]|].
    apply change_inv; [done..|constructor|by intros ?|done].
  - destruct Hinv as [Howner Hcache Hgen Hclaim Hpub Honce].
    assert (claiming (pb_pc p) = true) as Hcp by by rewrite Hpc.
    split; simpl.
    + intros t1 t2 p1 p2. rewrite !lookup_insert.
      repeat case_decide; intros; simplify_eq/=; eauto; exfalso; naive_solver.
    + intros k v Hv. destruct (Hcache _ _ Hv) as (x & -> & Hx). exists x. split; [done|].
      intros fp r' ->. right. by apply Hx.
    + apply map_Forall_insert_2; [intros r' [= <-]; by left|].
      intros t' p' Hp' r' Hr'. right. by apply (Hgen t').
    + intros t' p' Hex. rewrite lookup_insert. case_decide as Hd; [by intros [= <-]|].
      intros Hp' Hcp'. destruct (Hclaim _ _ Hex Hp' Hcp') as [Hget Hno]. split; [done|].
      intros fp r' [Hin|Hin]%elem_of_cons; [|by destruct (Hno fp r')].
      destruct (Hclaim _ _ Hex Ht Hcp) as [Hget' _].
      injection Hin as Hk _ _. rewrite Hk, Hget' in Hget. unfold pending_value in Hget. simplify_eq.
      apply Hd. by eapply (Howner t t').
    + intros k fp r' Hex [Hin|Hin]%elem_of_cons; [|by eapply Hpub]. simplify_eq.
      eexists. split; [by eapply Hclaim|done].
    + intros Hex. apply NoDup_cons. split; [|by apply Honce].
      intros ([k fp] & Hk & ([[k' fp'] r'] & Heq & Hin)%list_elem_of_fmap)%list_elem_of_fmap.
      destruct (Hclaim _ _ Hex Ht Hcp) as [_ Hno]. simpl in Hk, Heq. injection Heq as -> ->.
      apply (Hno fp' r'). by rewrite Hk.
  - apply change_inv; [done..|constructor|by intros ?|]. intros Hex _.
    eapply pi_claim; [done..|]. by rewrite Hpc.
  - apply change_inv; [done..|constructor| |done]. by intros r' [= <-].
  - apply change_inv; [done..|constructor|by intros ?|done].
Qed.

Lemma publish_reachable_inv expiry s : publish_reachable expiry s → publish_inv expiry s.
Proof.
  intros (cache & Hempty & Hrun). revert s Hrun. apply rtc_ind_r.
  - split; simpl; try done.
    + intros k v Hv. by rewrite Hempty in Hv.
    + intros k fp r _ Hin. by apply elem_of_nil in Hin.
    + intros _. constructor.
  - intros s s' _ Hstep Hinv. destruct Hstep as [t key fp ttl owner Ht Hown|t s' Hc|t p Ht|key Hex].
    + destruct Hinv as [Howner Hcache Hgen Hclaim Hpub Honce]. split; simpl; try done.
      * intros t1 t2 p1 p2. rewrite !lookup_insert.
        repeat case_decide; intros; simplify_eq/=; eauto; exfalso;
          [by eapply (Hown t2)|by eapply (Hown t1)].
      * apply map_Forall_insert_2; [by intros ?|done].
      * intros t' p' Hex. rewrite lookup_insert. case_decide; [by intros [= <-]|]. by apply Hclaim.
    + by eapply call_step_inv.
    + apply change_inv; [done..|constructor|by intros ?|done].
    + destruct Hinv as [Howner Hcache Hgen Hclaim Hpub Honce].
      split; simpl; try done; try (intros; congruence).
      intros k v. rewrite evict_law. case_bool_decide; [done|]. apply Hcache.
Qed.


(** ** Every call ends *)

(** A bound on the steps left. *)
Definition pc_rank pc : nat :=
  match pc with
  | BeginSet => 126
  | BeginLoop n => 2 * (WAIT_ATTEMPTS - n) + 45
  | BeginRetry n => (2 * (WAIT_ATTEMPTS - n) + 44) `max` 46
  | Publishing => 40
  | Committing _ => 39
  | CommitGet _ => 38
  | Aborting _ => 1
  | Recover _ => 30
  | RecoverLoop n _ _ => 2 * (RECOVERY_CAS_ATTEMPTS - n) + 3
  | RecoverSet n _ _ | RecoverSwap n _ _ _ => (2 * (RECOVERY_CAS_ATTEMPTS - n) + 2) `max` 4
  | Returned _ | Dropped => 0
  end.

Lemma read_ranks p v :
  (∀ n, n < WAIT_ATTEMPTS → pc_rank (begin_read p n v) < pc_rank (BeginLoop n))
  ∧ (∀ r, pc_rank (commit_read p r v) < pc_rank (CommitGet r))
  ∧ ∀ n r d, n < RECOVERY_CAS_ATTEMPTS →
      pc_rank (recover_read p n r d v) < pc_rank (RecoverLoop n r d).
Proof.
  unfold begin_read, commit_read, recover_read, parse_record, WAIT_ATTEMPTS, RECOVERY_CAS_ATTEMPTS.
  destruct v as [v|]; [destruct (record_from_str v) as [[fp o|fp r']|e]|];
    split_and!; intros; try case_bool_decide; unfold pc_rank, WAIT_ATTEMPTS, RECOVERY_CAS_ATTEMPTS; lia.
Qed.

Lemma exec_rank p cache cache' pc :
  publish_exec p cache = Some (cache', pc) → pc_rank pc < pc_rank (pb_pc p).
Proof.
  unfold publish_exec. pose proof (read_ranks p (cache_get (pb_key p) cache)) as Hr.
  destruct (pb_pc p) as [|n|n| |r|r|e|d|n r d|n r d|n r d v|a|]; try done;
    try destruct (cache_set_if_not_exists _ _ _ _) as [c []];
    try destruct (cache_compare_and_swap _ _ _ _ _) as [c []];
    try destruct (cache_compare_and_remove _ _ _) as [c b];
    try (intros [= <- <-]; unfold pc_rank, WAIT_ATTEMPTS, RECOVERY_CAS_ATTEMPTS; lia).
  - destruct (Nat.ltb_spec n WAIT_ATTEMPTS); intros [= <- <-]; [|unfold pc_rank; lia].
    by apply Hr.
  - intros [= <- <-]. apply Hr.
  - destruct (Nat.ltb_spec n RECOVERY_CAS_ATTEMPTS); intros [= <- <-]; [|unfold pc_rank; lia].
    by apply Hr.
Qed.

Lemma call_step_rank t s s' p :
  ps_calls s !! t = Some p → call_step t s s' →
  ∃ p', ps_calls s' !! t = Some p' ∧ pc_rank (pb_pc p') < pc_rank (pb_pc p).
Proof.
  intros Hp Hstep. destruct Hstep as [q cache pc Ht He|q cache pc b e Ht He|q r Ht Hpc
    |q e Ht Hpc|q d r Ht Hpc Hin|q d e Ht Hpc]; simpl; rewrite lookup_insert_eq;
    (eexists; split; [done|]); simpl; simplify_eq.
  - by eapply exec_rank.
  - apply exec_rank in He. lia.
  - rewrite Hpc. unfold pc_rank. lia.
  - rewrite Hpc. unfold pc_rank. lia.
  - rewrite Hpc. unfold pc_rank, RECOVERY_CAS_ATTEMPTS. lia.
  - rewrite Hpc. unfold pc_rank. lia.
Qed.

(** [n] steps of call [t] among any steps that leave the call alone. *)
Inductive call_run (t : nat) : nat → PublishState C → PublishState C → Prop :=
| call_run_refl s : call_run t 0 s s
| call_run_own n s s' s'' : call_run t n s s' → call_step t s' s'' → call_run t (S n) s s''
| call_run_other n s s' s'' :
    call_run t n s s' → ps_calls s'' !! t = ps_calls s' !! t → call_run t n s s''.

Definition call_ended pc : bool :=
  match pc with Returned _ | Dropped => true | _ => false end.

(** C38: an idempotent publish ends: however the other calls and the cache behave, a call takes
    at most 126 steps, which bounds the waits for another owner and the attempts to record a
    recovered receipt, and it can take a step whenever it has not ended. *)
Theorem publish_call_ends t n s s' p :
  ps_calls s !! t = Some p → pb_pc p = BeginSet → call_run t n s s' →
  n ≤ 126
  ∧ ∃ p', ps_calls s' !! t = Some p'
      ∧ (call_ended (pb_pc p') = true ∨ ∃ s'', call_step t s' s'').
Proof.
  intros Hp Hpc Hrun.
  assert (∃ p', ps_calls s' !! t = Some p' ∧ n + pc_rank (pb_pc p') ≤ 126) as (p' & Hp' & Hle).
  { induction Hrun as [s|n s s' s'' Hr IH Hs|n s s' s'' Hr IH Heq].
    - exists p. rewrite Hpc. by split.
    - destruct IH as (p' & Hp' & Hle); [done|].
      destruct (call_step_rank _ _ _ _ Hp' Hs) as (p'' & Hp'' & Hlt). exists p''. split; [done|lia].
    - destruct IH as (p' & Hp' & Hle); [done|]. exists p'. by rewrite Heq. }
  split; [lia|]. exists p'. split; [done|].
  destruct (publish_exec p' (ps_cache s')) as [[cache pc]|] eqn:He.
  { right. eexists. by eapply step_cache. }
  destruct (pb_pc p') as [|m|m| |r|r|e|d|m r d|m r d|m r d v|a|] eqn:Hpc'; try by left.
  all: try (exfalso; unfold publish_exec in He; rewrite Hpc' in He; by repeat case_match).
  - right. eexists. by apply (step_publish_fails t s' p' IdempotencyInProgress).
  - right. eexists. by apply (step_not_recovered t s' p' d IdempotencyInProgress).
Qed.

End thms.

(** ** Witnesses *)

(** A codec: the bits of the number of a record. *)
Fixpoint bits_of_pos (n : positive) : string :=
  match n with
  | xH => EmptyString
  | xO n => String Ascii.zero (bits_of_pos n)
  | xI n => String Ascii.one (bits_of_pos n)
  end.

Fixpoint pos_of_bits (s : string) : positive :=
  match s with
  | EmptyString => xH
  | String c s => if Ascii.eqb c Ascii.zero then xO (pos_of_bits s) else xI (pos_of_bits s)
  end.

Lemma pos_of_bits_of_pos n : pos_of_bits (bits_of_pos n) = n.
Proof. induction n as [n IH|n IH|]; simpl; by rewrite ?IH. Qed.

Definition receipt_tuple (r : IdempotencyReceipt) :=
  (ir_acknowledgement_id r, ir_message_serial r, ir_history_serial r, ir_delivery_serial r,
   ir_version_serial r).

Definition tuple_receipt (x : string * option string * option Z * option Z * option string) :=
  let '(a, m, h, d, v) := x in
  {| ir_acknowledgement_id := a; ir_message_serial := m; ir_history_serial := h;
     ir_delivery_serial := d; ir_version_serial := v |}.

Definition record_code (x : IdempotencyRecord)
    : (string * string) + (string * (string * option string * option Z * option Z * option string)) :=
  match x with
  | PendingRecord fp o => inl (fp, o)
  | CommittedRecord fp r => inr (fp, receipt_tuple r)
  end.

Definition code_record
    (x : (string * string) + (string * (string * option string * option Z * option Z * option string)))
    : IdempotencyRecord :=
  match x with
  | inl (fp, o) => PendingRecord fp o
  | inr (fp, r) => CommittedRecord fp (tuple_receipt r)
  end.

#[local] Instance bit_codec : RecordCodec := {|
  record_to_string x := bits_of_pos (encode (record_code x));
  record_from_str s :=
    match decode (pos_of_bits s) with Some x => Ok (code_record x) | None => Err s end;
|}.

#[local] Instance bit_codec_laws : CodecLaws.
Proof.
  intros x. simpl. rewrite pos_of_bits_of_pos, decode_encode. by destruct x as [|fp []].
Qed.

Definition empty_cache : MemoryCacheManager := {| mc_prefix := "p"; mc_ttl := 0; mc_entries := ∅ |}.

Definition empty_publishes : PublishState MemoryCacheManager :=
  {| ps_cache := empty_cache; ps_published := []; ps_calls := ∅ |}.

Definition sample_receipt : IdempotencyReceipt := {|
  ir_acknowledgement_id := "ack"; ir_message_serial := None; ir_history_serial := Some 4%Z;
  ir_delivery_serial := None; ir_version_serial := None |}.

Definition sample_call (owner : string) : Publisher := {|
  pb_key := "k"; pb_fingerprint := "fp"; pb_ttl := 60; pb_owner := owner; pb_pc := BeginSet |}.

(** A schedule: start a call, let it use the cache, or let it publish. *)
Inductive PublishAct : Type :=
| Start (t : nat) (owner : string)
| UseCache (t : nat)
| Publish (t : nat) (receipt : IdempotencyReceipt).

Definition run_act (act : PublishAct) (s : PublishState MemoryCacheManager)
    : option (PublishState MemoryCacheManager) :=
  match act with
  | Start t owner =>
      if bool_decide (ps_calls s !! t = None
                      ∧ map_Forall (λ _ p, pb_owner p ≠ owner) (ps_calls s))
      then Some (set_call s t (sample_call owner) (ps_cache s) (ps_published s)) else None
  | UseCache t =>
      p ← ps_calls s !! t;
      '(cache, pc) ← publish_exec p (ps_cache s);
      Some (set_call s t (at_pc p pc) cache (ps_published s))
  | Publish t receipt =>
      p ← ps_calls s !! t;
      match pb_pc p with
      | Publishing => Some (set_call s t (at_pc p (Committing receipt)) (ps_cache s)
                              ((pb_key p, pb_fingerprint p, receipt) :: ps_published s))
      | _ => None
      end
  end.

Lemma run_act_step act s s' : run_act act s = Some s' → publish_step false s s'.
Proof.
  destruct act as [t owner|t|t receipt]; simpl.
  - case_bool_decide as Hd; [|done]. destruct Hd as [Ht Ho]. intros [= <-]. by apply step_start.
  - destruct (ps_calls s !! t) as [p|] eqn:Ht; [|done]. simpl.
    destruct (publish_exec p (ps_cache s)) as [[cache pc]|] eqn:He; [|done]. intros [= <-].
    by eapply step_call, step_cache.
  - destruct (ps_calls s !! t) as [p|] eqn:Ht; [|done]. simpl.
    destruct (pb_pc p) eqn:Hpc; try done. intros [= <-]. by eapply step_call, step_published.
Qed.

Fixpoint run_acts (acts : list PublishAct) (s : PublishState MemoryCacheManager)
    : option (PublishState MemoryCacheManager) :=
  match acts with [] => Some s | act :: acts => s ← run_act act s; run_acts acts s end.

Lemma run_acts_reachable acts s :
  run_acts acts empty_publishes = Some s → publish_reachable false s.
Proof.
  intros Hr. exists empty_cache. split; [done|]. fold empty_publishes. revert Hr.
  generalize empty_publishes as s0. induction acts as [|act acts IH]; intros s0; simpl.
  - by intros [= ->].
  - destruct (run_act act s0) as [s1|] eqn:Ha; [|done]. intros Hr.
    eapply rtc_l; [by eapply run_act_step|by apply IH].
Qed.

(** Call 0 publishes and records its receipt; call 1, which found the claim, finds the receipt. *)
Definition sample_acts : list PublishAct :=
  [Start 0 "a"; Start 1 "b"; UseCache 0; UseCache 1; UseCache 1; Publish 0 sample_receipt;
   UseCache 0; UseCache 1].


Lemma publish_call_ends_witness :
  ∃ s s', ps_calls s !! 0 = Some (sample_call "a") ∧ call_run 0 1 s s'
    ∧ ∃ p', ps_calls s' !! 0 = Some p'
        ∧ (call_ended (pb_pc p') = true ∨ ∃ s'', call_step 0 s' s'').
Proof.
  pose (s := set_call empty_publishes 0 (sample_call "a") empty_cache []).
  pose (s' := set_call s 0 (at_pc (sample_call "a") Publishing)
                (mem_set "k" (pending_value (sample_call "a")) empty_cache) []).
  assert (call_run 0 1 s s') as Hr.
  { apply (call_run_own 0 0 s s s'); [constructor|]. by apply (step_cache 0 s (sample_call "a")). }
  exists s, s'. split; [done|]. split; [done|].
  exact (proj2 (publish_call_ends 0 1 s s' (sample_call "a") eq_refl eq_refl Hr)).
Defined.
