(* ===== verification/FallbackCache.v ===== *)
(** * The cache that falls back to memory

    [crates/sockudo-cache/src/fallback_cache_manager.rs]: a cache over a primary that may fail,
    which serves from an in-memory cache of the node while the primary is down; and the default
    methods of the [CacheManager] trait ([crates/sockudo-core/src/cache.rs]).  The primary is any
    implementation of the trait. *)

From Stdlib Require Import ZArith Lia.
From stdpp Require Import base gmap strings list pretty.
From S2P Require Import Prelude Errors CacheManager.

(** ** The trait, with its errors *)

(** A duration is in whole seconds. *)
Class FallibleCache (P : Type) := {
  fc_has : string → P → P * result Error bool;
  fc_get : string → P → P * result Error (option string);
  fc_set : string → string → Z → P → P * result Error unit;
  fc_remove : string → P → P * result Error unit;
  fc_disconnect : P → P * result Error unit;
  fc_check_health : P → P * result Error unit;
  fc_ttl : string → P → P * result Error (option Z);
  fc_scan_prefix : string → nat → P → P * result Error (list (string * string));
  fc_scan_prefix_page : string → option string → nat → P → P * result Error CacheScanPage;
  fc_set_if_not_exists : string → string → Z → P → P * result Error bool;
  fc_compare_and_swap : string → string → string → Z → P → P * result Error bool;
  fc_compare_and_remove : string → string → P → P * result Error bool;
  fc_increment_by : string → Z → Z → P → P * result Error Z;
}.

(** ** The default methods *)

Section defaults.
Context {P : Type} `{FallibleCache P}.
Implicit Types (key value expected prefix : string) (p : P).

(** [f(..).await?] followed by the rest of the method. *)
Definition and_then {A B} (r : P * result Error A) (k : A → P → P * result Error B)
    : P * result Error B :=
  match r with
  | (p, Ok a) => k a p
  | (p, Err e) => (p, Err e)
  end.

Definition default_check_health p : P * result Error unit := (p, Ok tt).

Definition default_scan_prefix prefix (limit : nat) p : P * result Error (list (string * string)) :=
  (p, Ok []).

Definition default_scan_prefix_page prefix (cursor : option string) (limit : nat) p
    : P * result Error CacheScanPage :=
  and_then (fc_scan_prefix prefix limit p) (λ entries p,
    (p, Ok {| sp_entries := entries; sp_next_cursor := None |})).

Definition default_set_if_not_exists key value (ttl_seconds : Z) p : P * result Error bool :=
  and_then (fc_has key p) (λ has p,
    if has : bool then (p, Ok false)
    else and_then (fc_set key value ttl_seconds p) (λ _ p, (p, Ok true))).

Definition default_compare_and_swap key expected value (ttl_seconds : Z) p
    : P * result Error bool :=
  and_then (fc_get key p) (λ current p,
    if bool_decide (current ≠ Some expected) then (p, Ok false)
    else and_then (fc_set key value ttl_seconds p) (λ _ p, (p, Ok true))).

Definition default_compare_and_remove key expected p : P * result Error bool :=
  and_then (fc_get key p) (λ current p,
    if bool_decide (current ≠ Some expected) then (p, Ok false)
    else and_then (fc_remove key p) (λ _ p, (p, Ok true))).

Definition default_increment_by key (delta ttl_seconds : Z) p : P * result Error Z :=
  and_then (fc_get key p) (λ stored p,
    let current := default 0%Z (stored ≫= parse_i64) in
    let next := i64_saturating_add current delta in
    and_then (fc_set key (pretty next) ttl_seconds p) (λ _ p, (p, Ok next))).
End defaults.

Section iteration.
(** The order in which the table of the in-memory cache is iterated. *)
Context (iter : gmap string string → list (string * string)).

(** ** The in-memory cache as an implementation *)

#[export] Instance memory_fallible : FallibleCache MemoryCacheManager := {|
  fc_has key c := (c, Ok (mem_has key c));
  fc_get key c := (c, Ok (mem_get key c));
  fc_set key value ttl_seconds c := (mem_set key value c, Ok tt);
  fc_remove key c := (mem_remove key c, Ok tt);
  fc_disconnect c := (mem_disconnect c, Ok tt);
  fc_check_health := default_check_health;
  fc_ttl key c := (c, Ok (mem_ttl key c));
  fc_scan_prefix prefix limit c := (c, Ok (mem_scan_prefix iter c prefix limit));
  fc_scan_prefix_page prefix cursor limit c := (c, Ok (mem_scan_prefix_page c prefix cursor limit));
  fc_set_if_not_exists key value ttl c :=
    let '(c, set) := mem_set_if_not_exists key value ttl c in (c, Ok set);
  fc_compare_and_swap key expected value ttl c :=
    let '(c, swapped) := mem_compare_and_swap key expected value ttl c in (c, Ok swapped);
  fc_compare_and_remove key expected c :=
    let '(c, removed) := mem_compare_and_remove key expected c in (c, Ok removed);
  fc_increment_by key delta ttl c :=
    let '(c, n) := mem_increment_by key delta ttl c in (c, Ok n);
|}.

(** ** The fallback *)

Definition RECOVERY_CHECK_INTERVAL_SECS : Z := 30.

Record FallbackCacheManager (P : Type) := {
  fb_primary : P;
  fb_fallback : MemoryCacheManager;
  fb_using_fallback : bool;
  fb_last_failure_time : Z;
}.

Context {P : Type} `{FallibleCache P}.
Notation Fallback := (FallbackCacheManager P).
Arguments fb_primary {_} _.
Arguments fb_fallback {_} _.
Arguments fb_using_fallback {_} _.
Arguments fb_last_failure_time {_} _.
Implicit Types (f : Fallback) (key value expected prefix : string).

(** The in-memory cache of [new]: "fallback_cache" with the options' time to live. *)
Definition fallback_memory (ttl : Z) : MemoryCacheManager :=
  {| mc_prefix := "fallback_cache"; mc_ttl := ttl; mc_entries := ∅ |}.

Definition fallback_new (primary : P) (ttl : Z) : Fallback := {|
  fb_primary := primary; fb_fallback := fallback_memory ttl;
  fb_using_fallback := false; fb_last_failure_time := 0 |}.

(** Times are seconds since the start; [now] is read when the health check has failed. *)
Definition new_with_health_check (primary : P) (ttl now : Z) : Fallback :=
  let '(primary, health) := fc_check_health primary in
  let using_fallback := match health with Ok _ => false | Err _ => true end in {|
  fb_primary := primary; fb_fallback := fallback_memory ttl;
  fb_using_fallback := using_fallback;
  fb_last_failure_time := if using_fallback then now else 0 |}.

Definition with_primary f (primary : P) : Fallback := {|
  fb_primary := primary; fb_fallback := fb_fallback f;
  fb_using_fallback := fb_using_fallback f; fb_last_failure_time := fb_last_failure_time f |}.

Definition with_fallback f (fallback : MemoryCacheManager) : Fallback := {|
  fb_primary := fb_primary f; fb_fallback := fallback;
  fb_using_fallback := fb_using_fallback f; fb_last_failure_time := fb_last_failure_time f |}.

Definition switch_to_fallback (now : Z) f : Fallback :=
  if fb_using_fallback f then f
  else {| fb_primary := fb_primary f; fb_fallback := fb_fallback f;
          fb_using_fallback := true; fb_last_failure_time := now |}.

Definition should_attempt_recovery (now : Z) f : bool :=
  if negb (fb_using_fallback f) then false
  else (RECOVERY_CHECK_INTERVAL_SECS <=? u64_saturating_sub now (fb_last_failure_time f))%Z.

(** The entries of the fallback written to the primary; those that fail are only counted. *)
Fixpoint sync_entries (entries : list (string * string * option Z)) (primary : P) : P :=
  match entries with
  | [] => primary
  | (key, value, ttl) :: entries =>
      let '(primary, _) := fc_set key value (default 0%Z ttl) primary in
      sync_entries entries primary
  end.

Definition sync_fallback_to_primary f (primary : P) : P :=
  sync_entries (get_all_entries iter (fb_fallback f)) primary.

(** [now] is the time of the check of the interval, [later] that of a failed health check. *)
Definition try_recover (now later : Z) f : Fallback * bool :=
  if negb (should_attempt_recovery now f) then (f, false)
  else
    let '(primary, health) := fc_check_health (fb_primary f) in
    match health with
    | Ok _ =>
        ({| fb_primary := sync_fallback_to_primary f primary; fb_fallback := fb_fallback f;
            fb_using_fallback := false; fb_last_failure_time := fb_last_failure_time f |}, true)
    | Err _ =>
        ({| fb_primary := primary; fb_fallback := fb_fallback f;
            fb_using_fallback := fb_using_fallback f; fb_last_failure_time := later |}, false)
    end.

(** What every method does with its operation: recover if it is time to; then the fallback, or
    the primary and on its error the fallback.  [later] is the time of the failure, of the
    health check or of the operation. *)
Definition fb_call {A} (now later : Z) (on_primary : P → P * result Error A)
    (on_fallback : MemoryCacheManager → MemoryCacheManager * result Error A) f
    : Fallback * result Error A :=
  let f := (try_recover now later f).1 in
  let use_fallback f :=
    let '(fallback, answer) := on_fallback (fb_fallback f) in (with_fallback f fallback, answer) in
  if fb_using_fallback f then use_fallback f
  else
    let '(primary, answer) := on_primary (fb_primary f) in
    let f := with_primary f primary in
    match answer with
    | Ok a => (f, Ok a)
    | Err _ => use_fallback (switch_to_fallback later f)
    end.

Definition fb_has now later key : Fallback → Fallback * result Error bool :=
  fb_call now later (fc_has key) (fc_has key).

Definition fb_get now later key : Fallback → Fallback * result Error (option string) :=
  fb_call now later (fc_get key) (fc_get key).

Definition fb_set now later key value ttl_seconds : Fallback → Fallback * result Error unit :=
  fb_call now later (fc_set key value ttl_seconds) (fc_set key value ttl_seconds).

Definition fb_remove now later key : Fallback → Fallback * result Error unit :=
  fb_call now later (fc_remove key) (fc_remove key).

Definition fb_scan_prefix now later prefix limit
    : Fallback → Fallback * result Error (list (string * string)) :=
  fb_call now later (fc_scan_prefix prefix limit) (fc_scan_prefix prefix limit).

Definition fb_scan_prefix_page now later prefix cursor limit
    : Fallback → Fallback * result Error CacheScanPage :=
  fb_call now later (fc_scan_prefix_page prefix cursor limit)
    (fc_scan_prefix_page prefix cursor limit).

Definition fb_ttl now later key : Fallback → Fallback * result Error (option Z) :=
  fb_call now later (fc_ttl key) (fc_ttl key).

Definition fb_set_if_not_exists now later key value ttl_seconds
    : Fallback → Fallback * result Error bool :=
  fb_call now later (fc_set_if_not_exists key value ttl_seconds)
    (fc_set_if_not_exists key value ttl_seconds).

Definition fb_compare_and_swap now later key expected value ttl_seconds
    : Fallback → Fallback * result Error bool :=
  fb_call now later (fc_compare_and_swap key expected value ttl_seconds)
    (fc_compare_and_swap key expected value ttl_seconds).

Definition fb_compare_and_remove now later key expected : Fallback → Fallback * result Error bool :=
  fb_call now later (fc_compare_and_remove key expected) (fc_compare_and_remove key expected).

Definition fb_increment_by now later key delta ttl_seconds : Fallback → Fallback * result Error Z :=
  fb_call now later (fc_increment_by key delta ttl_seconds) (fc_increment_by key delta ttl_seconds).

Definition fb_disconnect f : Fallback * result Error unit :=
  let '(primary, primary_result) := fc_disconnect (fb_primary f) in
  let '(fallback, fallback_result) := fc_disconnect (fb_fallback f) in
  (with_fallback (with_primary f primary) fallback,
   match primary_result, fallback_result with
   | Ok _, Ok _ => Ok tt
   | Err e, _ => Err e
   | _, Err e => Err e
   end).

Definition fb_check_health f : Fallback * result Error unit :=
  if fb_using_fallback f then
    let '(fallback, answer) := fc_check_health (fb_fallback f) in (with_fallback f fallback, answer)
  else
    let '(primary, answer) := fc_check_health (fb_primary f) in (with_primary f primary, answer).
End iteration.

Arguments fb_primary {_} _.
Arguments fb_fallback {_} _.
Arguments fb_using_fallback {_} _.
Arguments fb_last_failure_time {_} _.
