(* ===== verification/FallbackThms.v ===== *)
(** * Outages of the primary cache

    While the primary is down the node sees exactly its in-memory cache; on recovery every
    entry of that cache overwrites the primary's.  Runs show what this loses. *)

From Stdlib Require Import ZArith Lia.
From stdpp Require Import base gmap strings list pretty.
From S2P Require Import Prelude Errors CacheManager FallbackCache.

(** ** Calls *)

Inductive CacheCall :=
  | CHas (key : string)
  | CGet (key : string)
  | CSet (key value : string) (ttl_seconds : Z)
  | CRemove (key : string)
  | CScan (prefix : string) (limit : nat)
  | CScanPage (prefix : string) (cursor : option string) (limit : nat)
  | CTtl (key : string)
  | CSetNx (key value : string) (ttl_seconds : Z)
  | CCas (key expected value : string) (ttl_seconds : Z)
  | CCar (key expected : string)
  | CIncr (key : string) (delta ttl_seconds : Z).

Inductive CacheAnswer :=
  | ABool (b : bool)
  | AValue (value : option string)
  | ADone
  | AEntries (entries : list (string * string))
  | APage (page : CacheScanPage)
  | ATtl (ttl : option Z)
  | AInt (n : Z).

Definition answer_with {S A} (k : A → CacheAnswer) (r : S * result Error A)
    : S * result Error CacheAnswer := (r.1, rmap k r.2).

(** A call of a cache. *)
Definition apply_call {P} `{FallibleCache P} (call : CacheCall) (p : P)
    : P * result Error CacheAnswer :=
  match call with
  | CHas key => answer_with ABool (fc_has key p)
  | CGet key => answer_with AValue (fc_get key p)
  | CSet key value ttl => answer_with (λ _, ADone) (fc_set key value ttl p)
  | CRemove key => answer_with (λ _, ADone) (fc_remove key p)
  | CScan prefix limit => answer_with AEntries (fc_scan_prefix prefix limit p)
  | CScanPage prefix cursor limit => answer_with APage (fc_scan_prefix_page prefix cursor limit p)
  | CTtl key => answer_with ATtl (fc_ttl key p)
  | CSetNx key value ttl => answer_with ABool (fc_set_if_not_exists key value ttl p)
  | CCas key expected value ttl => answer_with ABool (fc_compare_and_swap key expected value ttl p)
  | CCar key expected => answer_with ABool (fc_compare_and_remove key expected p)
  | CIncr key delta ttl => answer_with AInt (fc_increment_by key delta ttl p)
  end.

Section fallback.
Context (iter : gmap string string → list (string * string)) {P : Type} `{FallibleCache P}.
Notation Fallback := (FallbackCacheManager P).
Implicit Types (f : Fallback) (p : P) (c : MemoryCacheManager).

#[local] Instance fallback_iter : FallibleCache MemoryCacheManager := memory_fallible iter.

(** The same call of the fallback cache, at a time. *)
Definition fb_apply (now later : Z) (call : CacheCall) f : Fallback * result Error CacheAnswer :=
  match call with
  | CHas key => answer_with ABool (fb_has iter now later key f)
  | CGet key => answer_with AValue (fb_get iter now later key f)
  | CSet key value ttl => answer_with (λ _, ADone) (fb_set iter now later key value ttl f)
  | CRemove key => answer_with (λ _, ADone) (fb_remove iter now later key f)
  | CScan prefix limit => answer_with AEntries (fb_scan_prefix iter now later prefix limit f)
  | CScanPage prefix cursor limit =>
      answer_with APage (fb_scan_prefix_page iter now later prefix cursor limit f)
  | CTtl key => answer_with ATtl (fb_ttl iter now later key f)
  | CSetNx key value ttl => answer_with ABool (fb_set_if_not_exists iter now later key value ttl f)
  | CCas key expected value ttl =>
      answer_with ABool (fb_compare_and_swap iter now later key expected value ttl f)
  | CCar key expected => answer_with ABool (fb_compare_and_remove iter now later key expected f)
  | CIncr key delta ttl => answer_with AInt (fb_increment_by iter now later key delta ttl f)
  end.

Lemma answer_with_call {A} (k : A → CacheAnswer) now later
    (on_primary : P → P * result Error A) on_fallback f :
  answer_with k (fb_call iter now later on_primary on_fallback f)
  = fb_call iter now later (λ p, answer_with k (on_primary p))
      (λ c, answer_with k (on_fallback c)) f.
Proof.
  unfold fb_call, answer_with. set (f1 := (try_recover iter now later f).1).
  destruct (fb_using_fallback f1).
  - by destruct (on_fallback (fb_fallback f1)).
  - destruct (on_primary (fb_primary f1)) as [p1 [a|e]]; [done|]. cbn [fst snd rmap].
    by destruct (on_fallback _).
Qed.

Lemma fb_apply_call now later call f :
  fb_apply now later call f = fb_call iter now later (apply_call call) (apply_call call) f.
Proof. destruct call; apply answer_with_call. Qed.

(** ** During an outage *)

Lemma outage_call now later call f :
  fb_using_fallback f = true → (now < fb_last_failure_time f + 30)%Z →
  fb_apply now later call f
  = (with_fallback f (apply_call call (fb_fallback f)).1, (apply_call call (fb_fallback f)).2).
Proof.
  intros Hf Hnow. rewrite fb_apply_call. unfold fb_call, try_recover, should_attempt_recovery.
  rewrite Hf. cbn [negb].
  rewrite (proj2 (Z.leb_gt _ _)).
  - cbn [negb fst]. rewrite Hf. by destruct (apply_call call (fb_fallback f)).
  - unfold RECOVERY_CHECK_INTERVAL_SECS. u64_lia.
Qed.

(** Calls with the times at which they are made. *)
Fixpoint fb_run (calls : list (Z * Z * CacheCall)) f : Fallback * list (result Error CacheAnswer) :=
  match calls with
  | [] => (f, [])
  | (now, later, call) :: calls =>
      let '(f, answer) := fb_apply now later call f in
      let '(f, answers) := fb_run calls f in (f, answer :: answers)
  end.

Fixpoint mem_run (calls : list CacheCall) c : MemoryCacheManager * list (result Error CacheAnswer) :=
  match calls with
  | [] => (c, [])
  | call :: calls =>
      let '(c, answer) := apply_call call c in
      let '(c, answers) := mem_run calls c in (c, answer :: answers)
  end.

Lemma outage_run calls f :
  fb_using_fallback f = true →
  Forall (λ x, x.1.1 < fb_last_failure_time f + 30)%Z calls →
  fb_run calls f
  = (with_fallback f (mem_run calls.*2 (fb_fallback f)).1, (mem_run calls.*2 (fb_fallback f)).2).
Proof.
  intros Hf. revert f Hf. induction calls as [|[[now later] call] calls IH]; intros f Hf Hall.
  { by destruct f. }
  apply Forall_cons in Hall as [Hnow Hall]. rewrite fmap_cons. cbn [fb_run mem_run snd].
  rewrite (outage_call now later call f Hf Hnow).
  destruct (apply_call call (fb_fallback f)) as [c answer]. cbn [fst snd].
  rewrite IH by done. cbn [with_fallback fb_fallback]. by destruct (mem_run calls.*2 c).
Qed.

(** ** Recovery *)

(** A primary that is up: a health check succeeds, and a [set] is there to be read. *)
Class HealthyPrimary (up : P → Prop) (reads : string → P → option string) : Prop := {
  up_health p : up p →
    ∃ p', fc_check_health p = (p', Ok tt) ∧ up p' ∧ ∀ k, reads k p' = reads k p;
  up_set k v ttl p : up p →
    ∃ p', fc_set k v ttl p = (p', Ok tt) ∧ up p'
          ∧ ∀ k', reads k' p' = if bool_decide (k' = k) then Some v else reads k' p;
}.

Context (iter_all : ∀ m, iter m ≡ₚ map_to_list m).
Context (up : P → Prop) (reads : string → P → option string) `{!HealthyPrimary up reads}.

Lemma sync_entries_reads es p :
  NoDup es.*1.*1 → up p →
  up (sync_entries es p) ∧ ∀ k,
    reads k (sync_entries es p) = match (list_to_map es.*1 : gmap string string) !! k with
                                  | Some v => Some v | None => reads k p end.
Proof.
  revert p. induction es as [|[[k v] ttl] es IH]; intros p Hnd Hup; [done|].
  cbn [fmap list_fmap fst snd] in Hnd. apply NoDup_cons in Hnd as [Hk Hnd]. cbn [sync_entries].
  destruct (up_set k v (default 0%Z ttl) p Hup) as (p' & -> & Hup' & Hreads).
  destruct (IH p' Hnd Hup') as [Hup2 Hreads2]. split; [done|]. intros k'.
  rewrite Hreads2. cbn [fmap list_fmap fst snd list_to_map foldr uncurry].
  rewrite lookup_insert. case_decide as Hkk.
  - subst k'. rewrite not_elem_of_list_to_map_1 by done.
    by rewrite Hreads, bool_decide_true.
  - case_match; [done|]. by rewrite Hreads, bool_decide_false.
Qed.
Lemma strip_prefixed c s k :
  strip_prefix (mc_prefix c +:+ ":") s = Some k ↔ s = prefixed_key c k.
Proof.
  rewrite strip_prefix_Some. unfold prefixed_key. by rewrite string_app_assoc.
Qed.

Lemma all_entries_fst c : NoDup (get_all_entries iter c).*1.*1.
Proof.
  unfold get_all_entries.
  assert (Hnd : NoDup (iter (mc_entries c)).*1) by (rewrite iter_all; apply NoDup_fst_map_to_list).
  induction (iter (mc_entries c)) as [|[s v] l IH]; [constructor|].
  rewrite fmap_cons in Hnd. apply NoDup_cons in Hnd as [Hs Hnd]. cbn [omap list_omap fst snd].
  destruct (strip_prefix (mc_prefix c +:+ ":") s) as [k|] eqn:Hk; [|by apply IH].
  cbn [mbind option_bind]. rewrite !fmap_cons. apply NoDup_cons. split; [|by apply IH].
  cbn [fst]. intros Hin. apply Hs. clear -Hin Hk. apply strip_prefixed in Hk as ->.
  apply list_elem_of_fmap in Hin as ([k' v'] & -> & Hin).
  apply list_elem_of_fmap in Hin as ([[k2 v2] t] & [= <- <-] & Hin).
  apply list_elem_of_omap in Hin as ([s' w] & Hin & Heq). simpl in Heq.
  destruct (strip_prefix _ s') as [k''|] eqn:Hs'; [|done]. injection Heq as <- _ _.
  apply strip_prefixed in Hs' as ->.
  apply list_elem_of_fmap. by exists (prefixed_key c k'', w).
Qed.

Lemma all_entries_lookup c k :
  (list_to_map (get_all_entries iter c).*1 : gmap string string) !! k = mem_get k c.
Proof.
  apply option_eq. intros v. rewrite <-elem_of_list_to_map by apply all_entries_fst.
  unfold mem_get, get_all_entries. rewrite <-elem_of_map_to_list, <-iter_all.
  rewrite list_elem_of_fmap. split.
  - intros ([[k' v'] t] & [= <- <-] & Hin).
    apply list_elem_of_omap in Hin as ([s w] & Hin & Heq). simpl in Heq.
    destruct (strip_prefix _ s) as [k'|] eqn:Hs; [|done]. injection Heq as <- <- _.
    by apply strip_prefixed in Hs as ->.
  - intros Hin. eexists (k, v, _). split; [done|]. apply list_elem_of_omap.
    exists (prefixed_key c k, v). split; [done|]. simpl.
    by rewrite (proj2 (strip_prefixed c _ k) eq_refl).
Qed.

Lemma recovers now later f :
  up (fb_primary f) → fb_using_fallback f = true → (fb_last_failure_time f + 30 ≤ now)%Z →
  ∃ p, try_recover iter now later f
       = ({| fb_primary := p; fb_fallback := fb_fallback f; fb_using_fallback := false;
             fb_last_failure_time := fb_last_failure_time f |}, true)
    ∧ up p
    ∧ ∀ k, reads k p = match mem_get k (fb_fallback f) with
                       | Some v => Some v | None => reads k (fb_primary f) end.
Proof.
  intros Hup Hf Hnow. unfold try_recover, should_attempt_recovery. rewrite Hf. cbn [negb].
  rewrite (proj2 (Z.leb_le _ _)).
  2: { unfold RECOVERY_CHECK_INTERVAL_SECS. u64_lia. }
  cbn [negb]. destruct (up_health (fb_primary f) Hup) as (p & -> & Hup' & Hread).
  destruct (sync_entries_reads (get_all_entries iter (fb_fallback f)) p) as [Hup2 Hread2];
    [apply all_entries_fst|done|].
  eexists. split_and!; [done|done|]. intros k. unfold sync_fallback_to_primary.
  by rewrite Hread2, all_entries_lookup, Hread.
Qed.

End fallback.

(** ** The default methods *)

(** Run without interference over the in-memory cache, the default methods of the trait do what
    its atomic ones do. *)
Lemma default_methods_agree iter key value expected delta ttl (c : MemoryCacheManager) :
  let H := memory_fallible iter in
  default_set_if_not_exists key value ttl c = fc_set_if_not_exists key value ttl c
  ∧ default_compare_and_swap key expected value ttl c = fc_compare_and_swap key expected value ttl c
  ∧ default_compare_and_remove key expected c = fc_compare_and_remove key expected c
  ∧ default_increment_by key delta ttl c = fc_increment_by key delta ttl c.
Proof.
  cbn. unfold default_set_if_not_exists, default_compare_and_swap, default_compare_and_remove,
    default_increment_by, mem_set_if_not_exists, mem_compare_and_swap, mem_compare_and_remove,
    mem_increment_by, mem_has. cbn.
  destruct (mem_get key c) as [x|] eqn:Hx; cbn.
  - rewrite parse_pretty_i64 by (unfold i64_saturating_add; u64_lia). split_and!; try done.
    + by repeat case_bool_decide; simplify_eq.
    + by repeat case_bool_decide; simplify_eq.
  - rewrite parse_pretty_i64 by (unfold i64_saturating_add; u64_lia). done.
Qed.

(** ** A primary that can be switched off *)

Record Switched := { sw_down : bool; sw_cache : MemoryCacheManager }.

Definition switched {A} (op : MemoryCacheManager → MemoryCacheManager * result Error A) (p : Switched)
    : Switched * result Error A :=
  if sw_down p then (p, Err (Internal "connection refused"))
  else let '(c, answer) := op (sw_cache p) in ({| sw_down := false; sw_cache := c |}, answer).

Section runs.
#[local] Instance table_order : FallibleCache MemoryCacheManager := memory_fallible map_to_list.

#[local] Instance switched_cache : FallibleCache Switched := {|
  fc_has key := switched (fc_has key);
  fc_get key := switched (fc_get key);
  fc_set key value ttl := switched (fc_set key value ttl);
  fc_remove key := switched (fc_remove key);
  fc_disconnect := switched fc_disconnect;
  fc_check_health := switched fc_check_health;
  fc_ttl key := switched (fc_ttl key);
  fc_scan_prefix prefix limit := switched (fc_scan_prefix prefix limit);
  fc_scan_prefix_page prefix cursor limit := switched (fc_scan_prefix_page prefix cursor limit);
  fc_set_if_not_exists key value ttl := switched (fc_set_if_not_exists key value ttl);
  fc_compare_and_swap key expected value ttl := switched (fc_compare_and_swap key expected value ttl);
  fc_compare_and_remove key expected := switched (fc_compare_and_remove key expected);
  fc_increment_by key delta ttl := switched (fc_increment_by key delta ttl);
|}.

Definition switched_on (p : Switched) : Prop := sw_down p = false.
Definition switched_reads (k : string) (p : Switched) : option string := mem_get k (sw_cache p).

#[local] Instance switched_healthy : HealthyPrimary switched_on switched_reads.
Proof.
  unfold switched_on, switched_reads. split.
  - intros p Hup. cbn. unfold switched. rewrite Hup. cbn. by eexists.
  - intros k v ttl p Hup. cbn. unfold switched. rewrite Hup. cbn. eexists. split_and!; [done|done|].
    intros k'. apply mem_get_set.
Qed.

Notation Fallback := (FallbackCacheManager Switched).

Definition set_down (down : bool) (f : Fallback) : Fallback :=
  with_primary f {| sw_down := down; sw_cache := sw_cache (fb_primary f) |}.

(** A primary that holds a session, and then goes down: the first call switches. *)
Definition session_primary : Switched := {|
  sw_down := false;
  sw_cache := mem_set "session" "open" {| mc_prefix := "redis"; mc_ttl := 0; mc_entries := ∅ |} |}.

Definition in_outage : Fallback :=
  (fb_has map_to_list 10 10 "session" (set_down true (fallback_new session_primary 300))).1.


(** ** What an outage loses *)

(** A key removed during the outage is back after it. *)
Lemma removed_key_returns :
  let '(f, _) := fb_remove map_to_list 11 11 "session" in_outage in
  (fb_get map_to_list 40 40 "session" (set_down false f)).2 = Ok (Some "open").
Proof. vm_compute. done. Qed.

(** The in-memory cache is not emptied on recovery.  What a first outage left there overwrites,
    on recovery from a second one, what was written to the primary in between. *)
Lemma stale_value_returns :
  let '(f, _) := fb_set map_to_list 11 11 "session" "closing" 60 in_outage in
  let '(f, _) := fb_set map_to_list 40 40 "session" "closed" 60 (set_down false f) in
  let '(f, during) := fb_get map_to_list 50 50 "session" f in
  let '(f, _) := fb_has map_to_list 60 60 "session" (set_down true f) in
  let '(f, after) := fb_get map_to_list 90 90 "session" (set_down false f) in
  during = Ok (Some "closed") ∧ after = Ok (Some "closing").
Proof. vm_compute. done. Qed.

(** A claim that was taken in the primary is taken again during an outage. *)
Lemma claimed_twice :
  let f := fallback_new session_primary 300 in
  let '(f, first) := fb_set_if_not_exists map_to_list 1 1 "claim" "a" 60 f in
  let '(f, second) := fb_set_if_not_exists map_to_list 2 2 "claim" "b" 60 (set_down true f) in
  first = Ok true ∧ second = Ok true.
Proof. vm_compute. done. Qed.
End runs.
