(* ===== verification/RateLimiter.v ===== *)
(** * The in-memory rate limiter

    [crates/sockudo-rate-limiter/src/memory_limiter.rs]: fixed windows per key.  Instants are
    integers of nanoseconds and every operation takes the instant it read.  [check] and
    [get_remaining] read the entry, and remove it in a second access when its window is over;
    the two accesses are separate definitions, composed for a caller that is not interfered
    with and interleaved in the step relation. *)

From Stdlib Require Import ZArith Lia.
From stdpp Require Import base gmap strings list relations.
From S2P Require Import Prelude.

Definition NANOS_PER_SEC : Z := 1000000000.

Definition u32_wrap (z : Z) : Z := z mod 4294967296.

Record RateLimitConfig := {
  rc_max_requests : Z;
  rc_window_secs : Z;
}.

Record RateLimitResult := {
  rr_allowed : bool;
  rr_remaining : Z;
  rr_reset_after : Z;
  rr_limit : Z;
}.

Record RateLimitEntry := {
  re_count : Z;
  re_window_start : Z;
  re_expiry : Z;
}.

Notation RateLimitMap := (gmap string RateLimitEntry).

Implicit Types (cfg : RateLimitConfig) (key : string) (m : RateLimitMap) (e : RateLimitEntry).

Definition window_duration cfg : Z := rc_window_secs cfg * NANOS_PER_SEC.

(** [saturating_duration_since(now).as_secs()]. *)
Definition secs_until (expiry now : Z) : Z := Z.max 0 (expiry - now) / NANOS_PER_SEC.

Definition saturating_sub_u32 (a b : Z) : Z := Z.max 0 (a - b).

Definition new_window cfg (now : Z) : RateLimitEntry :=
  {| re_count := 0; re_window_start := now; re_expiry := now + window_duration cfg |}.

Definition limiter_increment cfg key (now : Z) m : RateLimitMap * RateLimitResult :=
  let entry := default (new_window cfg now) (m !! key) in
  let entry := if (re_expiry entry <=? now)%Z then new_window cfg now else entry in
  let new_count := u32_wrap (re_count entry + 1) in
  (<[key := {| re_count := new_count; re_window_start := re_window_start entry;
               re_expiry := re_expiry entry |}]> m,
   {| rr_allowed := (new_count <=? rc_max_requests cfg)%Z;
      rr_remaining := saturating_sub_u32 (rc_max_requests cfg) new_count;
      rr_reset_after := secs_until (re_expiry entry) now;
      rr_limit := rc_max_requests cfg |}).

Definition full_allowance cfg : RateLimitResult :=
  {| rr_allowed := true; rr_remaining := rc_max_requests cfg;
     rr_reset_after := rc_window_secs cfg; rr_limit := rc_max_requests cfg |}.

(** The first access of [check] and [get_remaining]: whether the entry is to be removed. *)
Definition window_over key (now : Z) m : bool :=
  match m !! key with Some entry => (re_expiry entry <=? now)%Z | None => false end.

(** The second access, and [reset]. *)
Definition limiter_reset key m : RateLimitMap := delete key m.

Definition limiter_check cfg key (now : Z) m : RateLimitMap * RateLimitResult :=
  if window_over key now m then (limiter_reset key m, full_allowance cfg)
  else
    match m !! key with
    | Some entry =>
        let remaining := saturating_sub_u32 (rc_max_requests cfg) (re_count entry) in
        (m, {| rr_allowed := (remaining >? 0)%Z; rr_remaining := remaining;
               rr_reset_after := secs_until (re_expiry entry) now;
               rr_limit := rc_max_requests cfg |})
    | None => (m, full_allowance cfg)
    end.

Definition limiter_get_remaining cfg key (now : Z) m : RateLimitMap * Z :=
  if window_over key now m then (limiter_reset key m, rc_max_requests cfg)
  else
    match m !! key with
    | Some entry => (m, saturating_sub_u32 (rc_max_requests cfg) (re_count entry))
    | None => (m, rc_max_requests cfg)
    end.

Definition sweep_expired_entries (now : Z) m : RateLimitMap :=
  filter (λ kv, now < re_expiry kv.2)%Z m.

(** ** Sequences of operations *)

Inductive LimiterOp : Type :=
| OpIncrement (key : string)
| OpCheck (key : string)
| OpGetRemaining (key : string)
| OpReset (key : string)
| OpSweep.

Definition limiter_op cfg (now : Z) (op : LimiterOp) m : RateLimitMap :=
  match op with
  | OpIncrement key => (limiter_increment cfg key now m).1
  | OpCheck key => (limiter_check cfg key now m).1
  | OpGetRemaining key => (limiter_get_remaining cfg key now m).1
  | OpReset key => limiter_reset key m
  | OpSweep => sweep_expired_entries now m
  end.

(** The map after the operations, newest first, and the increments of [key] with their
    answers, newest first. *)
Fixpoint limiter_run cfg (ops : list (Z * LimiterOp)) : RateLimitMap :=
  match ops with
  | [] => ∅
  | (now, op) :: ops => limiter_op cfg now op (limiter_run cfg ops)
  end.

Fixpoint increments cfg key (ops : list (Z * LimiterOp)) : list (Z * bool) :=
  match ops with
  | [] => []
  | (now, op) :: ops =>
      match op with
      | OpIncrement key' =>
          if bool_decide (key' = key)
          then (now, rr_allowed (limiter_increment cfg key now (limiter_run cfg ops)).2)
                 :: increments cfg key ops
          else increments cfg key ops
      | _ => increments cfg key ops
      end
  end.

(** The requests admitted at the instants of an interval, closed on the left. *)
Definition admitted (lo hi : Z) (l : list (Z * bool)) : nat :=
  length (filter (λ x, x.2 = true ∧ lo ≤ x.1 < hi)%Z l).

(** ** Interleaved accesses *)

(** The map, the clock, and for each key the callers that are about to remove its entry. *)
Record LimiterState := {
  ls_limits : RateLimitMap;
  ls_clock : Z;
  ls_removers : gmap string nat;
}.

(** A step: time passes, an increment, or one of the two accesses of [check]. *)
Inductive limiter_step cfg : option (string * bool) → LimiterState → LimiterState → Prop :=
| step_tick s now :
    (ls_clock s ≤ now)%Z →
    limiter_step cfg None s
      {| ls_limits := ls_limits s; ls_clock := now; ls_removers := ls_removers s |}
| step_increment s key :
    limiter_step cfg
      (Some (key, rr_allowed (limiter_increment cfg key (ls_clock s) (ls_limits s)).2)) s
      {| ls_limits := (limiter_increment cfg key (ls_clock s) (ls_limits s)).1;
         ls_clock := ls_clock s; ls_removers := ls_removers s |}
| step_check_read s key :
    window_over key (ls_clock s) (ls_limits s) = true →
    limiter_step cfg None s
      {| ls_limits := ls_limits s; ls_clock := ls_clock s;
         ls_removers := <[key := S (default 0 (ls_removers s !! key))]> (ls_removers s) |}
| step_check_remove s key n :
    ls_removers s !! key = Some (S n) →
    limiter_step cfg None s
      {| ls_limits := limiter_reset key (ls_limits s); ls_clock := ls_clock s;
         ls_removers := <[key := n]> (ls_removers s) |}.

(** A run with the answers of its increments, oldest first. *)
Inductive limiter_steps cfg : list (string * bool) → LimiterState → LimiterState → Prop :=
| steps_refl s : limiter_steps cfg [] s s
| steps_step s s' s'' a l :
    limiter_step cfg a s s' → limiter_steps cfg l s' s'' →
    limiter_steps cfg (option_list a ++ l) s s''.

Definition limiter_init : LimiterState :=
  {| ls_limits := ∅; ls_clock := 0; ls_removers := ∅ |}.
