(* ===== verification/RateLimiterThms.v ===== *)
(** * What the rate limiter admits

    Fixed windows admit at most twice the limit in any interval of the window's length, and
    refuse only after the limit was admitted within that length; and concurrent checks of an
    expired window can admit any number of requests. *)

From Stdlib Require Import ZArith Lia.
From stdpp Require Import base gmap strings list relations sorting.
From S2P Require Import Prelude RateLimiter.

Implicit Types (cfg : RateLimitConfig) (key : string) (m : RateLimitMap) (e : RateLimitEntry).

(** ** Windows *)

(** A window and the instants of the requests it admitted, newest first. *)
Record Window := { w_start : Z; w_times : list Z }.

Definition window_ok cfg (w : Window) : Prop :=
  Forall (λ t, w_start w ≤ t < w_start w + window_duration cfg)%Z (w_times w)
  ∧ (Z.of_nat (length (w_times w)) ≤ rc_max_requests cfg)%Z.

(** Windows, newest first, start at least a window's length apart. *)
Definition windows_ok cfg (ws : list Window) : Prop :=
  Forall (window_ok cfg) ws
  ∧ StronglySorted (λ w w', w_start w' + window_duration cfg ≤ w_start w)%Z ws.

Definition times_in (lo hi : Z) (l : list Z) : nat := length (filter (λ t, lo ≤ t < hi)%Z l).

Lemma times_in_app lo hi l k : times_in lo hi (l ++ k) = times_in lo hi l + times_in lo hi k.
Proof. unfold times_in. by rewrite filter_app, length_app. Qed.

Lemma times_in_le lo hi l : times_in lo hi l ≤ length l.
Proof. apply length_filter. Qed.

Lemma times_in_none lo hi l : Forall (λ t, t < lo)%Z l → times_in lo hi l = 0.
Proof.
  intros Hl. unfold times_in. induction Hl as [|t l Ht _ IH]; [done|].
  by rewrite filter_cons_False by lia.
Qed.

Lemma times_in_pos lo hi l : 0 < times_in lo hi l → ∃ t, t ∈ l ∧ (lo ≤ t < hi)%Z.
Proof.
  unfold times_in. destruct (filter _ l) as [|t k] eqn:Hf; simpl; [lia|]. intros _.
  assert (t ∈ filter (λ t, lo ≤ t < hi)%Z l) as [? ?]%list_elem_of_filter by (rewrite Hf; by left).
  by exists t.
Qed.

(** Windows that ended before [lo] admitted nothing from [lo] on. *)
Lemma old_windows cfg lo hi ws :
  Forall (window_ok cfg) ws → Forall (λ w, w_start w + window_duration cfg ≤ lo)%Z ws →
  times_in lo hi (concat (w_times <$> ws)) = 0.
Proof.
  intros Hok. induction Hok as [|w ws [Hw _] _ IH]; intros Hold; [done|].
  apply Forall_cons in Hold as [Hold Holds]. csimpl. rewrite times_in_app, (IH Holds).
  rewrite times_in_none; [done|]. eapply Forall_impl; [exact Hw|]. simpl. lia.
Qed.

Lemma windows_bound cfg lo ws :
  windows_ok cfg ws →
  (Z.of_nat (times_in lo (lo + window_duration cfg) (concat (w_times <$> ws)))
   ≤ 2 * Z.max 0 (rc_max_requests cfg))%Z.
Proof.
  intros [Hok Hs]. induction Hs as [|w ws Hs IH Hw]; csimpl; [unfold times_in; simpl; lia|].
  apply Forall_cons in Hok as [[Ht Hl] Hok]. rewrite times_in_app.
  destruct (decide (times_in lo (lo + window_duration cfg) (w_times w) = 0)) as [->|Hpos].
  { specialize (IH Hok). lia. }
  destruct (times_in_pos lo (lo + window_duration cfg) (w_times w)) as (t & Hin & Hb); [lia|].
  pose proof (proj1 (Forall_forall _ _) Ht _ Hin) as Htb. simpl in Htb.
  pose proof (times_in_le lo (lo + window_duration cfg) (w_times w)).
  destruct ws as [|w2 ws]; csimpl; [unfold times_in at 2; simpl; lia|].
  apply Forall_cons in Hok as [[Ht2 Hl2] Hok]. apply Forall_cons in Hw as [Hw2 Hw].
  apply StronglySorted_cons in Hs as [Hs2 _].
  rewrite times_in_app, (old_windows cfg _ _ ws Hok).
  - pose proof (times_in_le lo (lo + window_duration cfg) (w_times w2)). lia.
  - eapply Forall_impl; [exact Hs2|]. simpl. lia.
Qed.

Lemma times_in_all lo hi l : Forall (λ t, lo ≤ t < hi)%Z l → times_in lo hi l = length l.
Proof.
  intros Hl. unfold times_in. induction Hl as [|t l Ht _ IH]; [done|].
  rewrite filter_cons_True by done. simpl. by rewrite IH.
Qed.

(** ** The invariant *)

(** The requests of the key that were admitted. *)
Definition admitted_times (l : list (Z * bool)) : list Z := (filter (λ x, x.2 = true) l).*1.

Lemma admitted_times_in lo hi l : admitted lo hi l = times_in lo hi (admitted_times l).
Proof.
  unfold admitted, times_in, admitted_times. induction l as [|[t b] l IH]; [done|].
  destruct b.
  - rewrite (filter_cons_True (λ x : Z * bool, x.2 = true)) by done.
    rewrite fmap_cons. cbn [fst]. rewrite !filter_cons. cbn [fst snd].
    repeat case_decide; simpl; try (by rewrite IH); exfalso; tauto.
  - rewrite (filter_cons_False (λ x : Z * bool, x.2 = true)) by done.
    rewrite filter_cons_False by (by intros [? _]). exact IH.
Qed.

(** The entry of a key against the windows so far, at an instant [now] and after [n]
    operations. *)
Definition entry_ok cfg (now : Z) (n : nat) (ws : list Window) (entry : option RateLimitEntry) : Prop :=
  match entry with
  | None => Forall (λ w, w_start w + window_duration cfg ≤ now)%Z ws
  | Some e =>
      ∃ w rest, ws = w :: rest ∧ w_start w = re_window_start e
        ∧ re_expiry e = (re_window_start e + window_duration cfg)%Z
        ∧ (re_window_start e ≤ now)%Z ∧ (0 ≤ re_count e ≤ Z.of_nat n)%Z
        ∧ Z.of_nat (length (w_times w)) = Z.min (re_count e) (rc_max_requests cfg)
  end.

Definition limiter_inv cfg key (now : Z) (ops : list (Z * LimiterOp)) : Prop :=
  ∃ ws, windows_ok cfg ws
    ∧ concat (w_times <$> ws) = admitted_times (increments cfg key ops)
    ∧ entry_ok cfg now (length ops) ws (limiter_run cfg ops !! key).

Lemma entry_ok_later cfg now now' n n' ws entry :
  (now ≤ now')%Z → n ≤ n' → entry_ok cfg now n ws entry → entry_ok cfg now' n' ws entry.
Proof.
  intros Hnow Hn. destruct entry as [e|]; simpl.
  - intros (w & rest & ? & ? & ? & ? & ? & ?). exists w, rest. split_and!; done || lia.
  - intros Hf. eapply Forall_impl; [exact Hf|]. simpl. lia.
Qed.

Lemma windows_ok_old cfg now e w rest :
  windows_ok cfg (w :: rest) → w_start w = re_window_start e →
  re_expiry e = (re_window_start e + window_duration cfg)%Z → (re_expiry e ≤ now)%Z →
  (0 ≤ window_duration cfg)%Z →
  Forall (λ w, w_start w + window_duration cfg ≤ now)%Z (w :: rest).
Proof.
  intros [_ Hs] Hw He Hx Hd. apply StronglySorted_cons in Hs as [Hs _].
  constructor; [lia|]. eapply Forall_impl; [exact Hs|]. simpl. lia.
Qed.

(** The entry an increment works on belongs to a window open at [now], possibly a new one. *)
Lemma open_window cfg now n ws entry :
  (0 < window_duration cfg)%Z → (0 ≤ rc_max_requests cfg)%Z → windows_ok cfg ws →
  entry_ok cfg now n ws entry →
  let e := default (new_window cfg now) entry in
  let e := if (re_expiry e <=? now)%Z then new_window cfg now else e in
  ∃ w rest, windows_ok cfg (w :: rest)
    ∧ concat (w_times <$> w :: rest) = concat (w_times <$> ws)
    ∧ w_start w = re_window_start e ∧ re_expiry e = (re_window_start e + window_duration cfg)%Z
    ∧ (re_window_start e ≤ now < re_expiry e)%Z ∧ (0 ≤ re_count e ≤ Z.of_nat n)%Z
    ∧ Z.of_nat (length (w_times w)) = Z.min (re_count e) (rc_max_requests cfg).
Proof.
  intros Hd Hmax Hws He e0 e.
  assert (Forall (λ w, w_start w + window_duration cfg ≤ now)%Z ws → e = new_window cfg now →
    ∃ w rest, windows_ok cfg (w :: rest)
    ∧ concat (w_times <$> w :: rest) = concat (w_times <$> ws)
    ∧ w_start w = re_window_start e ∧ re_expiry e = (re_window_start e + window_duration cfg)%Z
    ∧ (re_window_start e ≤ now < re_expiry e)%Z ∧ (0 ≤ re_count e ≤ Z.of_nat n)%Z
    ∧ Z.of_nat (length (w_times w)) = Z.min (re_count e) (rc_max_requests cfg)) as Hnew.
  { intros Hold ->. exists {| w_start := now; w_times := [] |}, ws. simpl.
    destruct Hws as [Hok Hs]. split_and!; try done; try lia.
    split; constructor; try done. }
  destruct entry as [e1|]; simpl in He, e0.
  - destruct He as (w & rest & -> & Hw & Hx & Hnow & Hc & Hl). unfold e, e0 in *.
    destruct (Z.leb_spec (re_expiry e1) now).
    + apply Hnew; [|done]. eapply windows_ok_old; done || lia.
    + exists w, rest. split_and!; done || lia.
  - apply Hnew; [done|]. unfold e, e0. by destruct (_ <=? _)%Z.
Qed.

Lemma limiter_inv_increment cfg key now ops :
  (0 < window_duration cfg)%Z → (0 ≤ rc_max_requests cfg)%Z →
  (Z.of_nat (length ops) < 4294967295)%Z → limiter_inv cfg key now ops →
  limiter_inv cfg key now ((now, OpIncrement key) :: ops).
Proof.
  intros Hd Hmax Hn (ws & Hws & Htimes & He).
  destruct (open_window cfg now _ ws _ Hd Hmax Hws He)
    as (w & rest & [Hok Hs] & Hcat & Hw & Hx & Hnow & Hc & Hl).
  unfold limiter_inv. cbn [increments limiter_run limiter_op].
  rewrite bool_decide_true by done. unfold limiter_increment. cbn [fst snd rr_allowed].
  rewrite lookup_insert_eq. cbn [entry_ok].
  set (e := if (re_expiry _ <=? now)%Z then _ else _) in *. clearbody e.
  assert (u32_wrap (re_count e + 1) = (re_count e + 1)%Z) as ->.
  { unfold u32_wrap. apply Z.mod_small. lia. }
  apply Forall_cons in Hok as [[Hin Hlen] Hok]. apply StronglySorted_cons in Hs as [Hs1 Hs2].
  unfold admitted_times. rewrite filter_cons. cbn [snd].
  destruct (Z.leb_spec (re_count e + 1) (rc_max_requests cfg)) as [Hle|Hgt].
  - exists ({| w_start := w_start w; w_times := now :: w_times w |} :: rest). split_and!.
    + split; [constructor; [|done]|by constructor].
      split; simpl; [constructor; [lia|done]|lia].
    + rewrite decide_True by done. csimpl. f_equal. by rewrite <- Hcat in Htimes.
    + do 2 eexists. split; [done|]. simpl. split_and!; done || lia.
  - exists (w :: rest). split_and!.
    + split; by constructor.
    + rewrite decide_False by done. by rewrite Hcat, Htimes.
    + exists w, rest. simpl. split_and!; done || lia.
Qed.

(** Operations that leave the entry of the key or remove it when its window is over. *)
Lemma limiter_inv_remove cfg key now op ops :
  (0 < window_duration cfg)%Z → limiter_inv cfg key now ops →
  increments cfg key ((now, op) :: ops) = increments cfg key ops →
  limiter_op cfg now op (limiter_run cfg ops) !! key = limiter_run cfg ops !! key
  ∨ limiter_op cfg now op (limiter_run cfg ops) !! key = None
    ∧ window_over key now (limiter_run cfg ops) = true →
  limiter_inv cfg key now ((now, op) :: ops).
Proof.
  intros Hd (ws & Hws & Htimes & He) Hinc Hop. exists ws. split; [done|]. rewrite Hinc.
  split; [done|]. cbn [limiter_run]. destruct Hop as [->|[-> Hover]].
  { apply (entry_ok_later cfg now now (length ops)); [lia|simpl; lia|exact He]. }
  unfold window_over in Hover. destruct (limiter_run cfg ops !! key) as [e|]; [|done].
  apply Z.leb_le in Hover. destruct He as (w & rest & -> & Hw & Hx & _).
  eapply windows_ok_old; done || lia.
Qed.

Lemma limiter_inv_run cfg key now ops :
  (0 < window_duration cfg)%Z → (0 ≤ rc_max_requests cfg)%Z →
  (Z.of_nat (length ops) < 4294967296)%Z →
  StronglySorted (λ x y, y.1 ≤ x.1)%Z ops → Forall (λ x, x.1 ≤ now)%Z ops →
  Forall (λ x, x.2 ≠ OpReset key) ops →
  limiter_inv cfg key now ops.
Proof.
  intros Hd Hmax Hn Hs. revert now Hn. induction Hs as [|[t op] ops Hs IH Hle]; intros now Hn Hnow Hres.
  { exists []. split_and!; [split; constructor|done|constructor]. }
  apply Forall_cons in Hnow as [Ht _]. apply Forall_cons in Hres as [Hr Hres]. simpl in *.
  assert (limiter_inv cfg key t ops) as Hinv by (apply IH; done || lia).
  cut (limiter_inv cfg key t ((t, op) :: ops)).
  { intros (ws & Hws & Htimes & He). exists ws. split_and!; [done..|].
    by eapply entry_ok_later; [|done|exact He]. }
  destruct op as [k|k|k|k|].
  - destruct (decide (k = key)) as [->|Hk]; [apply limiter_inv_increment; done || lia|].
    apply limiter_inv_remove; [done..| |]; simpl; [by rewrite bool_decide_false|].
    left. by rewrite lookup_insert_ne.
  - apply limiter_inv_remove; [done..|]. simpl. unfold limiter_check.
    destruct (window_over k t _) eqn:Ho; [|left; by destruct (limiter_run cfg ops !! k)].
    simpl. unfold limiter_reset. rewrite lookup_delete. case_decide; [right; by subst|by left].
  - apply limiter_inv_remove; [done..|]. simpl. unfold limiter_get_remaining.
    destruct (window_over k t _) eqn:Ho; [|left; by destruct (limiter_run cfg ops !! k)].
    simpl. unfold limiter_reset. rewrite lookup_delete. case_decide; [right; by subst|by left].
  - apply limiter_inv_remove; [done..|]. left. simpl. unfold limiter_reset.
    rewrite lookup_delete_ne; [done|congruence].
  - apply limiter_inv_remove; [done..|]. simpl. unfold sweep_expired_entries, window_over.
    rewrite map_lookup_filter. destruct (limiter_run cfg ops !! key) as [e|]; simpl; [|by left].
    case_guard as Hg; simpl; [by left|right]. split; [done|]. apply Z.leb_le. simpl in Hg. lia.
Qed.

Lemma admitted_times_le cfg key now ops :
  Forall (λ x, x.1 ≤ now)%Z ops → Forall (λ t, t ≤ now)%Z (admitted_times (increments cfg key ops)).
Proof.
  intros Hle. unfold admitted_times. apply Forall_fmap, Forall_forall.
  intros x [_ Hx]%list_elem_of_filter. revert x Hx. apply Forall_forall.
  induction Hle as [|[t op] ops Ht _ IH]; simpl; [constructor|].
  destruct op; try done. case_bool_decide; [|done]. by constructor.
Qed.


(** ** The race *)

Lemma limiter_steps_app cfg l k s s' s'' :
  limiter_steps cfg l s s' → limiter_steps cfg k s' s'' → limiter_steps cfg (l ++ k) s s''.
Proof.
  induction 1 as [|s s1 s2 a l Hs _ IH]; intros Hk; [done|]. rewrite <- app_assoc.
  eapply steps_step; [done|by apply IH].
Qed.

(** [n] increments at the current instant, from an entry that is absent or over. *)
Definition fresh_window cfg key (s : LimiterState) : Prop :=
  match ls_limits s !! key with Some e => (re_expiry e ≤ ls_clock s)%Z | None => True end.

Definition with_limits (s : LimiterState) m : LimiterState :=
  {| ls_limits := m; ls_clock := ls_clock s; ls_removers := ls_removers s |}.

Lemma increments_admitted cfg key s (n : nat) :
  (1 ≤ rc_window_secs cfg)%Z → (Z.of_nat n ≤ rc_max_requests cfg < 4294967296)%Z →
  fresh_window cfg key s →
  ∃ m, limiter_steps cfg (replicate n (key, true)) s (with_limits s m)
    ∧ (n = 0 → m = ls_limits s)
    ∧ (0 < n → m !! key = Some {| re_count := Z.of_nat n; re_window_start := ls_clock s;
                                  re_expiry := ls_clock s + window_duration cfg |}).
Proof.
  intros Hw Hn Hf. assert (0 < window_duration cfg)%Z as Hd by (unfold window_duration, NANOS_PER_SEC; lia).
  induction n as [|n IH].
  { exists (ls_limits s). split_and!; [|done|lia]. destruct s. constructor. }
  destruct IH as (m & Hrun & H0 & Hm); [lia|].
  assert ((limiter_increment cfg key (ls_clock s) m).1
    = <[key := {| re_count := Z.of_nat (S n); re_window_start := ls_clock s;
                  re_expiry := ls_clock s + window_duration cfg |}]> m
    ∧ rr_allowed (limiter_increment cfg key (ls_clock s) m).2 = true) as [Hinc Hal].
  { unfold limiter_increment. cbn [fst snd rr_allowed].
    assert ((if (re_expiry (default (new_window cfg (ls_clock s)) (m !! key)) <=? ls_clock s)%Z
      then new_window cfg (ls_clock s) else default (new_window cfg (ls_clock s)) (m !! key))
      = {| re_count := Z.of_nat n; re_window_start := ls_clock s;
           re_expiry := ls_clock s + window_duration cfg |}) as ->.
    { destruct n as [|n].
      - rewrite (H0 eq_refl). unfold fresh_window in Hf.
        destruct (ls_limits s !! key) as [e|]; simpl; [|by destruct (_ <=? _)%Z].
        by rewrite (proj2 (Z.leb_le _ _)).
      - rewrite Hm by lia. simpl. by rewrite (proj2 (Z.leb_gt _ _)) by lia. }
    cbn [re_count re_window_start re_expiry].
    assert (u32_wrap (Z.of_nat n + 1) = Z.of_nat (S n)) as ->
      by (unfold u32_wrap; rewrite Z.mod_small; lia).
    split; [done|]. apply Z.leb_le. lia. }
  exists (<[key := {| re_count := Z.of_nat (S n); re_window_start := ls_clock s;
                      re_expiry := ls_clock s + window_duration cfg |}]> m).
  split; [|split; [done|intros _; apply lookup_insert_eq]].
  rewrite replicate_S_end. eapply limiter_steps_app; [exact Hrun|].
  pose proof (step_increment cfg (with_limits s m) key) as Hstep.
  cbn [with_limits ls_limits ls_clock ls_removers] in Hstep. rewrite Hal, Hinc in Hstep.
  apply (steps_step cfg _ _ _ _ [] Hstep). constructor.
Qed.

(** Callers that are about to remove the entry each let a full window through. *)
Lemma removal_rounds cfg key (n : nat) s :
  (1 ≤ rc_window_secs cfg)%Z → (0 ≤ rc_max_requests cfg < 4294967296)%Z →
  fresh_window cfg key s → ls_removers s !! key = Some n →
  ∃ s', limiter_steps cfg (replicate (S n * Z.to_nat (rc_max_requests cfg)) (key, true)) s s'
    ∧ ls_clock s' = ls_clock s.
Proof.
  intros Hw Hmax. revert s. induction n as [|n IH]; intros s Hf Hr.
  - destruct (increments_admitted cfg key s (Z.to_nat (rc_max_requests cfg))) as (m & Hrun & _); [done|lia|done|].
    exists (with_limits s m). by rewrite Nat.mul_1_l.
  - destruct (increments_admitted cfg key s (Z.to_nat (rc_max_requests cfg))) as (m & Hrun & _); [done|lia|done|].
    pose (s1 := {| ls_limits := limiter_reset key m; ls_clock := ls_clock s;
                   ls_removers := <[key := n]> (ls_removers s) |}).
    destruct (IH s1) as (s' & Hrun' & Hc).
    { unfold fresh_window. simpl. unfold limiter_reset. by rewrite lookup_delete_eq. }
    { simpl. by rewrite lookup_insert_eq. }
    exists s'. split; [|done].
    rewrite (Nat.mul_succ_l (S n)), Nat.add_comm, replicate_add.
    eapply limiter_steps_app; [exact Hrun|].
    apply (steps_step cfg _ s1 _ None); [|exact Hrun'].
    by apply (step_check_remove cfg (with_limits s m) key n).
Qed.

Lemma checks_pile_up cfg key (n : nat) s :
  window_over key (ls_clock s) (ls_limits s) = true →
  ∃ s', limiter_steps cfg [] s s' ∧ ls_limits s' = ls_limits s ∧ ls_clock s' = ls_clock s
    ∧ default 0 (ls_removers s' !! key) = n + default 0 (ls_removers s !! key).
Proof.
  intros Ho. induction n as [|n (s' & Hrun & Hl & Hc & Hr)]; [exists s; split_and!; by constructor|].
  exists {| ls_limits := ls_limits s'; ls_clock := ls_clock s';
            ls_removers := <[key := S (default 0 (ls_removers s' !! key))]> (ls_removers s') |}.
  split_and!; [|done..|].
  - apply (limiter_steps_app cfg [] [] _ _ _ Hrun).
    eapply (steps_step cfg _ _ _ None []); [|constructor]. apply step_check_read. by rewrite Hl, Hc.
  - simpl. rewrite lookup_insert_eq. simpl. by rewrite Hr.
Qed.

(** C39: [check] and [get_remaining] decide that a window is over and remove its entry in two
    separate accesses.  With [n + 1] of them between the two when a window ends, a key gets
    [n + 2] times [max_requests] requests through at one instant: each removal deletes the
    window that the requests since the previous one had filled. *)
Theorem check_race cfg key (n : nat) :
  (1 ≤ rc_window_secs cfg)%Z → (1 ≤ rc_max_requests cfg < 4294967296)%Z →
  ∃ s s', limiter_steps cfg [(key, true)] limiter_init s
    ∧ limiter_steps cfg (replicate ((n + 2) * Z.to_nat (rc_max_requests cfg)) (key, true)) s s'
    ∧ ls_clock s' = ls_clock s.
Proof.
  intros Hw Hmax.
  destruct (increments_admitted cfg key limiter_init 1) as (m & Hrun & _ & Hm); [done|lia|done|].
  pose (s1 := {| ls_limits := m; ls_clock := window_duration cfg; ls_removers := ∅ |}).
  assert (limiter_steps cfg [(key, true)] limiter_init s1) as Hrun1.
  { apply (limiter_steps_app cfg [(key, true)] [] _ _ _ Hrun).
    eapply (steps_step cfg _ _ _ None []); [|constructor].
    apply (step_tick cfg (with_limits limiter_init m)). simpl. unfold window_duration, NANOS_PER_SEC. lia. }
  assert (window_over key (ls_clock s1) (ls_limits s1) = true) as Ho.
  { unfold window_over. simpl. rewrite Hm by lia. simpl. apply Z.leb_refl. }
  destruct (checks_pile_up cfg key (S n) s1 Ho) as (s2 & Hrun2 & Hl & Hc & Hr).
  destruct (removal_rounds cfg key (S n) s2) as (s3 & Hrun3 & Hc3); [done|lia| | |].
  - unfold fresh_window. rewrite Hl, Hc. simpl. rewrite Hm by lia. simpl. lia.
  - simpl in Hr. rewrite lookup_empty in Hr. destruct (ls_removers s2 !! key) as [k|]; simpl in Hr; [|lia]. f_equal. lia.
  - exists s2, s3. split_and!; [|by replace (n + 2) with (S (S n)) by lia|done].
    apply (limiter_steps_app cfg [(key, true)] [] _ _ _ Hrun1 Hrun2).
Qed.

(** ** Witnesses *)

Definition sample_config : RateLimitConfig := {| rc_max_requests := 2; rc_window_secs := 1 |}.

Definition sample_ops : list (Z * LimiterOp) :=
  [(1500000000%Z, OpIncrement "k"); (1200000000%Z, OpSweep); (900000000%Z, OpIncrement "k");
   (2%Z, OpCheck "k"); (1%Z, OpIncrement "k"); (0%Z, OpIncrement "k")].


Lemma check_race_witness :
  ∃ s s', limiter_steps sample_config [("k", true)] limiter_init s
    ∧ limiter_steps sample_config (replicate 6 ("k", true)) s s' ∧ ls_clock s' = ls_clock s.
Proof. apply (check_race sample_config "k" 1); done. Defined.
