(* ===== verification/PresenceHistory.v ===== *)
(** * The presence history

    The in-memory store of presence transitions
    ([crates/sockudo-core/src/presence_history/memory.rs]), the reconstruction of a channel's
    members that the store trait offers ([presence_history/store.rs], [snapshot_at]), and
    their data ([presence_history/types.rs]).  Each operation runs under the store's write
    lock; [now] is the clock it reads and [fresh] the UUID it would draw.  The metrics the
    store reports are left out: nothing reads them back. *)

From Stdlib Require Import ZArith Lia.
From stdpp Require Import base gmap strings list pretty.
From S2P Require Import Prelude Errors Messages.

(** ** Data *)

Inductive PresenceHistoryDirection : Type := PhNewestFirst | PhOldestFirst.

#[export] Instance ph_direction_eq_dec : EqDecision PresenceHistoryDirection.
Proof. solve_decision. Defined.

Inductive PresenceHistoryEventKind : Type := MemberAdded | MemberUpdated | MemberRemoved.

#[export] Instance ph_event_eq_dec : EqDecision PresenceHistoryEventKind.
Proof. solve_decision. Defined.

Inductive PresenceHistoryEventCause : Type :=
| CauseJoin | CauseDisconnect | CauseOrphanCleanup | CauseTimeout | CauseForcedDisconnect.

Record PresenceHistoryQueryBounds := {
  pb_start_serial : option Z;
  pb_end_serial : option Z;
  pb_start_time_ms : option Z;
  pb_end_time_ms : option Z;
}.

#[export] Instance ph_bounds_eq_dec : EqDecision PresenceHistoryQueryBounds.
Proof. solve_decision. Defined.

Record PresenceHistoryCursor := {
  phc_version : Z;
  phc_app_id : string;
  phc_channel : string;
  phc_stream_id : string;
  phc_serial : Z;
  phc_direction : PresenceHistoryDirection;
  phc_bounds : PresenceHistoryQueryBounds;
}.

Record PresenceHistoryRetentionPolicy := {
  pp_retention_window_seconds : Z;
  pp_max_events_per_channel : option Z;
  pp_max_bytes_per_channel : option Z;
}.

Record PresenceHistoryTransitionRecord := {
  pt_app_id : string;
  pt_channel : string;
  pt_event_kind : PresenceHistoryEventKind;
  pt_cause : PresenceHistoryEventCause;
  pt_user_id : string;
  pt_connection_id : option string;
  pt_user_info : option Json;
  pt_dead_node_id : option string;
  pt_dedupe_key : string;
  pt_published_at_ms : Z;
  pt_retention : PresenceHistoryRetentionPolicy;
}.

Record PresenceHistoryAppendRecord := {
  pa_stream_id : string;
  pa_serial : Z;
  pa_published_at_ms : Z;
  pa_event : PresenceHistoryEventKind;
  pa_cause : PresenceHistoryEventCause;
  pa_user_id : string;
  pa_connection_id : option string;
  pa_dead_node_id : option string;
  pa_payload_bytes : string;
  pa_dedupe_key : string;
}.

Record PresenceHistoryItem := {
  pi_stream_id : string;
  pi_serial : Z;
  pi_published_at_ms : Z;
  pi_event : PresenceHistoryEventKind;
  pi_cause : PresenceHistoryEventCause;
  pi_user_id : string;
  pi_connection_id : option string;
  pi_dead_node_id : option string;
  pi_payload_size_bytes : Z;
  pi_payload_bytes : string;
}.

#[export] Instance ph_cause_eq_dec : EqDecision PresenceHistoryEventCause.
Proof. solve_decision. Defined.

Record PresenceHistoryReadRequest := {
  prq_app_id : string;
  prq_channel : string;
  prq_direction : PresenceHistoryDirection;
  prq_limit : Z;
  prq_cursor : option PresenceHistoryCursor;
  prq_bounds : PresenceHistoryQueryBounds;
}.

Record PresenceHistoryRetentionStats := {
  ps_stream_id : option string;
  ps_retained_events : Z;
  ps_retained_bytes : Z;
  ps_oldest_serial : option Z;
  ps_newest_serial : option Z;
  ps_oldest_published_at_ms : option Z;
  ps_newest_published_at_ms : option Z;
}.

Record PresenceHistoryPage := {
  pg_items : list PresenceHistoryItem;
  pg_next_cursor : option PresenceHistoryCursor;
  pg_retained : PresenceHistoryRetentionStats;
  pg_has_more : bool;
  pg_complete : bool;
  pg_truncated_by_retention : bool;
  pg_degraded : bool;
}.

Inductive PresenceHistoryDurableState : Type := PhHealthy | PhDegraded | PhResetRequired.

#[export] Instance ph_durable_eq_dec : EqDecision PresenceHistoryDurableState.
Proof. solve_decision. Defined.

Definition continuity_proven (d : PresenceHistoryDurableState) : bool :=
  match d with PhHealthy => true | _ => false end.

Definition presence_reset_required (d : PresenceHistoryDurableState) : bool :=
  match d with PhResetRequired => true | _ => false end.

Record PresenceHistoryStreamRuntimeState := {
  prs_app_id : string;
  prs_channel : string;
  prs_stream_id : option string;
  prs_durable_state : PresenceHistoryDurableState;
  prs_continuity_proven : bool;
  prs_reset_required : bool;
  prs_reason : option string;
  prs_node_id : option string;
  prs_last_transition_at_ms : option Z;
  prs_authoritative_source : string;
  prs_observed_source : string;
}.

Definition presence_state_healthy (app_id channel : string) (stream_id : option string)
    (source : string) : PresenceHistoryStreamRuntimeState := {|
  prs_app_id := app_id; prs_channel := channel; prs_stream_id := stream_id;
  prs_durable_state := PhHealthy; prs_continuity_proven := true; prs_reset_required := false;
  prs_reason := None; prs_node_id := None; prs_last_transition_at_ms := None;
  prs_authoritative_source := source; prs_observed_source := source |}.

Record PresenceHistoryStreamInspection := {
  pin_app_id : string;
  pin_channel : string;
  pin_stream_id : option string;
  pin_next_serial : option Z;
  pin_retained : PresenceHistoryRetentionStats;
  pin_state : PresenceHistoryStreamRuntimeState;
}.

Record PresenceHistoryResetResult := {
  pre_app_id : string;
  pre_channel : string;
  pre_previous_stream_id : option string;
  pre_new_stream_id : string;
  pre_purged_events : Z;
  pre_purged_bytes : Z;
  pre_inspection : PresenceHistoryStreamInspection;
}.

Record PresenceHistoryRuntimeStatus := {
  pst_enabled : bool;
  pst_backend : string;
  pst_state_authority : string;
  pst_degraded_channels : Z;
  pst_reset_required_channels : Z;
  pst_queue_depth : Z;
}.

Definition default_presence_status : PresenceHistoryRuntimeStatus := {|
  pst_enabled := false; pst_backend := "disabled"; pst_state_authority := "disabled";
  pst_degraded_channels := 0; pst_reset_required_channels := 0; pst_queue_depth := 0 |}.

Record MemoryPresenceHistoryChannel := {
  mph_stream_id : string;
  mph_next_serial : Z;
  mph_retained_bytes : Z;
  mph_records : list PresenceHistoryAppendRecord;
  mph_dedupe_keys : gset string;
  mph_latest_event_by_user : gmap string PresenceHistoryEventKind;
  mph_retention : option PresenceHistoryRetentionPolicy;
}.

Notation PresenceHistoryStore := (gmap string MemoryPresenceHistoryChannel).

Implicit Types (ch : MemoryPresenceHistoryChannel) (x : PresenceHistoryAppendRecord).
Implicit Types (retention config : PresenceHistoryRetentionPolicy) (s : PresenceHistoryStore).
Implicit Types (req : PresenceHistoryReadRequest) (now : Z) (fresh : string).

Definition default_presence_channel fresh : MemoryPresenceHistoryChannel := {|
  mph_stream_id := fresh; mph_next_serial := 1; mph_retained_bytes := 0; mph_records := [];
  mph_dedupe_keys := ∅; mph_latest_event_by_user := ∅; mph_retention := None |}.

Definition presence_channel_key (app_id channel : string) : string := app_id +:+ nul +:+ channel.

(** [Option::is_none_or] and [Option::is_some_and]. *)
Definition none_or {A} (o : option A) (f : A → bool) : bool :=
  match o with None => true | Some y => f y end.

Definition some_and {A} (o : option A) (f : A → bool) : bool :=
  match o with None => false | Some y => f y end.

(** ** Eviction *)

Definition bytes_len x : Z := Z.of_nat (String.length (pa_payload_bytes x)).

(** One of the loops: the front leaves while [go] says so; [evicted] counts events and
    bytes. *)
Fixpoint evict_while (go : MemoryPresenceHistoryChannel → PresenceHistoryAppendRecord → bool)
    (records : list PresenceHistoryAppendRecord) ch (evicted : Z * Z)
    : MemoryPresenceHistoryChannel * (Z * Z) :=
  match records with
  | [] => (ch, evicted)
  | front :: rest =>
      if go ch front
      then evict_while go rest {|
             mph_stream_id := mph_stream_id ch; mph_next_serial := mph_next_serial ch;
             mph_retained_bytes := u64_saturating_sub (mph_retained_bytes ch) (bytes_len front);
             mph_records := rest;
             mph_dedupe_keys := mph_dedupe_keys ch ∖ {[pa_dedupe_key front]};
             mph_latest_event_by_user := mph_latest_event_by_user ch;
             mph_retention := mph_retention ch |}
             (u64_saturating_add evicted.1 1, u64_saturating_add evicted.2 (bytes_len front))
      else (ch, evicted)
  end.

Definition rebuild_latest_event_by_user ch : MemoryPresenceHistoryChannel := {|
  mph_stream_id := mph_stream_id ch; mph_next_serial := mph_next_serial ch;
  mph_retained_bytes := mph_retained_bytes ch; mph_records := mph_records ch;
  mph_dedupe_keys := mph_dedupe_keys ch;
  mph_latest_event_by_user :=
    foldl (λ latest x, <[pa_user_id x := pa_event x]> latest) ∅ (mph_records ch);
  mph_retention := mph_retention ch |}.

Definition presence_evict_channel retention now ch : MemoryPresenceHistoryChannel * (Z * Z) :=
  let cutoff :=
    i64_saturating_sub now (u64_as_i64 (u64_wrap (pp_retention_window_seconds retention * 1000))) in
  let '(ch, evicted) :=
    evict_while (λ _ front, pa_published_at_ms front <? cutoff)%Z (mph_records ch) ch (0, 0)%Z in
  let '(ch, evicted) :=
    evict_while (λ ch _, some_and (pp_max_events_per_channel retention)
                           (λ max_events, Z.of_nat (length (mph_records ch)) >? max_events)%Z)
      (mph_records ch) ch evicted in
  let '(ch, evicted) :=
    evict_while (λ ch _, some_and (pp_max_bytes_per_channel retention)
                           (λ max_bytes, mph_retained_bytes ch >? max_bytes)%Z)
      (mph_records ch) ch evicted in
  (if (evicted.1 >? 0)%Z then rebuild_latest_event_by_user ch else ch, evicted).

(** ** Operations *)

Definition evict_presence config now ch : MemoryPresenceHistoryChannel :=
  (presence_evict_channel (default config (mph_retention ch)) now ch).1.

Definition presence_retained_from_channel ch : PresenceHistoryRetentionStats := {|
  ps_stream_id := Some (mph_stream_id ch);
  ps_retained_events := Z.of_nat (length (mph_records ch));
  ps_retained_bytes := mph_retained_bytes ch;
  ps_oldest_serial := pa_serial <$> head (mph_records ch);
  ps_newest_serial := pa_serial <$> last (mph_records ch);
  ps_oldest_published_at_ms := pa_published_at_ms <$> head (mph_records ch);
  ps_newest_published_at_ms := pa_published_at_ms <$> last (mph_records ch) |}.

(** The JSON library writes the payload of a record of a stream at a serial. *)
Class PayloadCodec :=
  encode_payload : string → Z → PresenceHistoryTransitionRecord → result string string.

(** [now] and [later] are the clock at the two evictions. *)
Definition record_transition `{PayloadCodec} config fresh now (later : Z)
    (record : PresenceHistoryTransitionRecord) s : PresenceHistoryStore * result Error unit :=
  let key := presence_channel_key (pt_app_id record) (pt_channel record) in
  let ch := evict_presence config now (default (default_presence_channel fresh) (s !! key)) in
  if bool_decide (pt_dedupe_key record ∈ mph_dedupe_keys ch) then (<[key := ch]> s, Ok tt)
  else if bool_decide (mph_latest_event_by_user ch !! pt_user_id record = Some (pt_event_kind record))
  then (<[key := ch]> s, Ok tt)
  else
    let serial := mph_next_serial ch in
    let next_serial := u64_saturating_add serial 1 in
    match encode_payload (mph_stream_id ch) serial record with
    | Err e =>
        (<[key := {|
           mph_stream_id := mph_stream_id ch; mph_next_serial := next_serial;
           mph_retained_bytes := mph_retained_bytes ch; mph_records := mph_records ch;
           mph_dedupe_keys := mph_dedupe_keys ch;
           mph_latest_event_by_user := mph_latest_event_by_user ch;
           mph_retention := mph_retention ch |}]> s,
         Err (Serialization ("Failed to encode presence history payload: " +:+ e)))
    | Ok payload =>
        let x := {|
          pa_stream_id := mph_stream_id ch; pa_serial := serial;
          pa_published_at_ms := pt_published_at_ms record; pa_event := pt_event_kind record;
          pa_cause := pt_cause record; pa_user_id := pt_user_id record;
          pa_connection_id := pt_connection_id record; pa_dead_node_id := pt_dead_node_id record;
          pa_payload_bytes := payload; pa_dedupe_key := pt_dedupe_key record |} in
        (<[key := evict_presence config later {|
           mph_stream_id := mph_stream_id ch; mph_next_serial := next_serial;
           mph_retained_bytes := u64_saturating_add (mph_retained_bytes ch) (bytes_len x);
           mph_records := mph_records ch ++ [x];
           mph_dedupe_keys := {[pt_dedupe_key record]} ∪ mph_dedupe_keys ch;
           mph_latest_event_by_user :=
             <[pt_user_id record := pt_event_kind record]> (mph_latest_event_by_user ch);
           mph_retention := Some (pt_retention record) |}]> s, Ok tt)
    end.

Definition presence_validate req : result Error unit :=
  ensure? negb (prq_limit req =? 0)%Z
    else InvalidMessageFormat "Presence history limit must be greater than 0" in
  ensure? match pb_start_serial (prq_bounds req), pb_end_serial (prq_bounds req) with
          | Some start, Some stop => (start <=? stop)%Z | _, _ => true end
    else InvalidMessageFormat "start_serial must be less than or equal to end_serial" in
  ensure? match pb_start_time_ms (prq_bounds req), pb_end_time_ms (prq_bounds req) with
          | Some start, Some stop => (start <=? stop)%Z | _, _ => true end
    else InvalidMessageFormat "start_time_ms must be less than or equal to end_time_ms" in
  match prq_cursor req with
  | None => Ok tt
  | Some cursor =>
      ensure? bool_decide (phc_app_id cursor = prq_app_id req)
        else InvalidMessageFormat "Presence history cursor app does not match the request" in
      ensure? bool_decide (phc_channel cursor = prq_channel req)
        else InvalidMessageFormat "Presence history cursor channel does not match the request" in
      ensure? bool_decide (phc_direction cursor = prq_direction req)
        else InvalidMessageFormat "Presence history cursor direction does not match the request" in
      ensure? bool_decide (phc_bounds cursor = prq_bounds req)
        else InvalidMessageFormat "Presence history cursor bounds do not match the request" in
      Ok tt
  end.

Definition presence_matcher req x : bool :=
  none_or (pb_start_serial (prq_bounds req)) (λ start, start <=? pa_serial x)%Z
  && none_or (pb_end_serial (prq_bounds req)) (λ stop, pa_serial x <=? stop)%Z
  && none_or (pb_start_time_ms (prq_bounds req)) (λ start, start <=? pa_published_at_ms x)%Z
  && none_or (pb_end_time_ms (prq_bounds req)) (λ stop, pa_published_at_ms x <=? stop)%Z
  && none_or (prq_cursor req) (λ cursor,
       bool_decide (pa_stream_id x = phc_stream_id cursor)
       && match prq_direction req with
          | PhNewestFirst => (pa_serial x <? phc_serial cursor)%Z
          | PhOldestFirst => (phc_serial cursor <? pa_serial x)%Z
          end).

Definition presence_truncated (bounds : PresenceHistoryQueryBounds)
    (retained : PresenceHistoryRetentionStats) : bool :=
  match pb_start_serial bounds, ps_oldest_serial retained with
  | Some start, Some oldest => (start <? oldest)%Z | _, _ => false end
  || match pb_start_time_ms bounds, ps_oldest_published_at_ms retained with
     | Some start, Some oldest => (start <? oldest)%Z | _, _ => false end
  || (bool_decide (pb_start_serial bounds = None) && bool_decide (pb_start_time_ms bounds = None)
      && match ps_oldest_serial retained with Some oldest => (1 <? oldest)%Z | None => false end).

Definition presence_item x : PresenceHistoryItem := {|
  pi_stream_id := pa_stream_id x; pi_serial := pa_serial x;
  pi_published_at_ms := pa_published_at_ms x; pi_event := pa_event x; pi_cause := pa_cause x;
  pi_user_id := pa_user_id x; pi_connection_id := pa_connection_id x;
  pi_dead_node_id := pa_dead_node_id x; pi_payload_size_bytes := bytes_len x;
  pi_payload_bytes := pa_payload_bytes x |}.

Definition presence_page req ch : PresenceHistoryPage :=
  let retained := presence_retained_from_channel ch in
  let records := match prq_direction req with
                 | PhNewestFirst => reverse (mph_records ch) | PhOldestFirst => mph_records ch end in
  let collected := take (Z.to_nat (u64_saturating_add (prq_limit req) 1))
                     (filter (λ x, presence_matcher req x = true) records) in
  let has_more := (Z.of_nat (length collected) >? prq_limit req)%Z in
  let items := presence_item <$> take (Z.to_nat (prq_limit req)) collected in
  let truncated := presence_truncated (prq_bounds req) retained in {|
  pg_items := items;
  pg_next_cursor :=
    if has_more
    then (λ x : PresenceHistoryItem, {| phc_version := 1; phc_app_id := prq_app_id req; phc_channel := prq_channel req;
                  phc_stream_id := pi_stream_id x; phc_serial := pi_serial x;
                  phc_direction := prq_direction req; phc_bounds := prq_bounds req |}) <$> last items
    else None;
  pg_retained := retained;
  pg_has_more := has_more;
  pg_complete := negb has_more && negb truncated;
  pg_truncated_by_retention := truncated;
  pg_degraded := false |}.

Definition empty_presence_page : PresenceHistoryPage := {|
  pg_items := []; pg_next_cursor := None; pg_retained := {|
    ps_stream_id := None; ps_retained_events := 0; ps_retained_bytes := 0;
    ps_oldest_serial := None; ps_newest_serial := None; ps_oldest_published_at_ms := None;
    ps_newest_published_at_ms := None |}; pg_has_more := false;
  pg_complete := true; pg_truncated_by_retention := false; pg_degraded := false |}.

Definition presence_read_page config now req s : PresenceHistoryStore * result Error PresenceHistoryPage :=
  match presence_validate req with
  | Err e => (s, Err e)
  | Ok _ =>
      let key := presence_channel_key (prq_app_id req) (prq_channel req) in
      match s !! key with
      | None => (s, Ok empty_presence_page)
      | Some ch =>
          let ch := evict_presence config now ch in
          (<[key := ch]> s,
           match prq_cursor req with
           | None => Ok (presence_page req ch)
           | Some cursor =>
               ensure? bool_decide (phc_stream_id cursor = mph_stream_id ch)
                 else InvalidMessageFormat
                   "Expired presence history cursor: channel stream changed" in
               ensure? none_or (pa_serial <$> head (mph_records ch))
                         (λ oldest, oldest <=? phc_serial cursor)%Z
                 else InvalidMessageFormat
                   "Expired presence history cursor: cursor points before retained history" in
               Ok (presence_page req ch)
           end)
      end
  end.

Definition presence_memory_status : PresenceHistoryRuntimeStatus := {|
  pst_enabled := true; pst_backend := "memory"; pst_state_authority := "in_memory";
  pst_degraded_channels := 0; pst_reset_required_channels := 0; pst_queue_depth := 0 |}.

Definition presence_runtime_state config fresh now (app_id channel : string) s
    : PresenceHistoryStore * PresenceHistoryStreamRuntimeState :=
  let key := presence_channel_key app_id channel in
  let ch := evict_presence config now (default (default_presence_channel fresh) (s !! key)) in
  (<[key := ch]> s,
   presence_state_healthy app_id channel (Some (mph_stream_id ch)) "in_memory").

Definition presence_inspect_channel (app_id channel : string) ch
    : PresenceHistoryStreamInspection := {|
  pin_app_id := app_id; pin_channel := channel; pin_stream_id := Some (mph_stream_id ch);
  pin_next_serial := Some (mph_next_serial ch);
  pin_retained := presence_retained_from_channel ch;
  pin_state := presence_state_healthy app_id channel (Some (mph_stream_id ch)) "in_memory" |}.

Definition presence_inspection config fresh now (app_id channel : string) s
    : PresenceHistoryStore * PresenceHistoryStreamInspection :=
  let key := presence_channel_key app_id channel in
  let ch := evict_presence config now (default (default_presence_channel fresh) (s !! key)) in
  (<[key := ch]> s, presence_inspect_channel app_id channel ch).

(** [fresh] is the id of a channel that does not exist yet, [new_id] the reset's id. *)
Definition presence_reset_stream fresh (new_id app_id channel : string) s
    : PresenceHistoryStore * PresenceHistoryResetResult :=
  let key := presence_channel_key app_id channel in
  let ch := default (default_presence_channel fresh) (s !! key) in
  let ch' := {|
    mph_stream_id := new_id; mph_next_serial := 1; mph_retained_bytes := 0; mph_records := [];
    mph_dedupe_keys := ∅; mph_latest_event_by_user := ∅; mph_retention := mph_retention ch |} in
  (<[key := ch']> s,
   {| pre_app_id := app_id; pre_channel := channel;
      pre_previous_stream_id := Some (mph_stream_id ch); pre_new_stream_id := new_id;
      pre_purged_events := Z.of_nat (length (mph_records ch));
      pre_purged_bytes := mph_retained_bytes ch;
      pre_inspection := presence_inspect_channel app_id channel ch' |}).

(** ** Snapshots *)

Record PresenceSnapshotRequest := {
  sr_app_id : string;
  sr_channel : string;
  sr_at_time_ms : option Z;
  sr_at_serial : option Z;
}.

Record PresenceSnapshotMember := {
  sm_user_id : string;
  sm_last_event : PresenceHistoryEventKind;
  sm_last_event_serial : Z;
  sm_last_event_at_ms : Z;
}.

Record PresenceSnapshot := {
  sn_channel : string;
  sn_members : list PresenceSnapshotMember;
  sn_events_replayed : Z;
  sn_snapshot_serial : option Z;
  sn_snapshot_time_ms : option Z;
  sn_retained : PresenceHistoryRetentionStats;
  sn_complete : bool;
  sn_truncated_by_retention : bool;
}.

(** The local variables of [snapshot_at]. *)
Record SnapshotState := {
  st_members : gmap string PresenceSnapshotMember;
  st_events_replayed : Z;
  st_snapshot_time_ms : option Z;
  st_stream_id : option string;
  st_first_serial : option Z;
  st_previous_serial : option Z;
  st_anomaly : option string;
}.

Implicit Types (st : SnapshotState) (rq : PresenceSnapshotRequest).

Definition start_snapshot : SnapshotState := {|
  st_members := ∅; st_events_replayed := 0; st_snapshot_time_ms := None; st_stream_id := None;
  st_first_serial := None; st_previous_serial := None; st_anomaly := None |}.

Definition snapshot_member (x : PresenceHistoryItem) : PresenceSnapshotMember := {|
  sm_user_id := pi_user_id x; sm_last_event := pi_event x; sm_last_event_serial := pi_serial x;
  sm_last_event_at_ms := pi_published_at_ms x |}.

(** The members after an event, and what is odd about it. *)
Definition snapshot_event (x : PresenceHistoryItem) (members : gmap string PresenceSnapshotMember)
    : gmap string PresenceSnapshotMember * option string :=
  let known := bool_decide (is_Some (members !! pi_user_id x)) in
  match pi_event x with
  | MemberAdded =>
      (<[pi_user_id x := snapshot_member x]> members,
       if known then Some "duplicate_member_added" else None)
  | MemberUpdated =>
      if known then (<[pi_user_id x := snapshot_member x]> members, None)
      else (members, Some "member_updated_without_join")
  | MemberRemoved =>
      (delete (pi_user_id x) members,
       if known then None else Some "member_removed_without_join")
  end.

Definition snapshot_item (adjacent : bool) (x : PresenceHistoryItem) st : result Error SnapshotState :=
  ensure? none_or (st_stream_id st) (λ expected, bool_decide (expected = pi_stream_id x))
    else InvalidMessageFormat "presence history stream changed while reconstructing snapshot" in
  ensure? none_or (st_previous_serial st) (λ previous,
            (previous <? pi_serial x)%Z
            && (negb adjacent || (u64_saturating_add previous 1 =? pi_serial x)%Z))
    else InvalidMessageFormat "presence history serial continuity check failed" in
  let '(members, anomaly) := snapshot_event x (st_members st) in
  Ok {| st_members := members;
        st_events_replayed := u64_saturating_add (st_events_replayed st) 1;
        st_snapshot_time_ms := Some (pi_published_at_ms x);
        st_stream_id := Some (default (pi_stream_id x) (st_stream_id st));
        st_first_serial := Some (default (pi_serial x) (st_first_serial st));
        st_previous_serial := Some (pi_serial x);
        st_anomaly := match st_anomaly st with Some a => Some a | None => anomaly end |}.

Fixpoint snapshot_items (adjacent : bool) (items : list PresenceHistoryItem) st
    : result Error SnapshotState :=
  match items with
  | [] => Ok st
  | x :: items => let? st := snapshot_item adjacent x st in snapshot_items adjacent items st
  end.

Notation snapshot_bounds rq := {|
  pb_start_serial := None; pb_end_serial := sr_at_serial rq;
  pb_start_time_ms := None; pb_end_time_ms := sr_at_time_ms rq |}.

Definition snapshot_page_request rq (cursor : option PresenceHistoryCursor)
    : PresenceHistoryReadRequest := {|
  prq_app_id := sr_app_id rq; prq_channel := sr_channel rq; prq_direction := PhOldestFirst;
  prq_limit := 1000; prq_cursor := cursor; prq_bounds := snapshot_bounds rq |}.

(** The cursor of the next page must continue where the page ended. *)
Definition snapshot_advances rq (items : list PresenceHistoryItem)
    (next : PresenceHistoryCursor) st : bool :=
  match items with [] => false | _ => true end
  && (phc_version next =? 1)%Z && bool_decide (phc_app_id next = sr_app_id rq)
  && bool_decide (phc_channel next = sr_channel rq)
  && bool_decide (Some (phc_serial next) = st_previous_serial st)
  && bool_decide (phc_direction next = PhOldestFirst)
  && bool_decide (phc_bounds next = snapshot_bounds rq)
  && bool_decide (st_stream_id st = Some (phc_stream_id next)).

Definition snapshot_finish rq (page : PresenceHistoryPage) st : result Error PresenceSnapshot :=
  let sound := pg_complete page && negb (pg_truncated_by_retention page)
               && bool_decide (sr_at_time_ms rq = None) in
  ensure? negb (sound && match st_first_serial st with Some n => negb (n =? 1)%Z | None => false end)
    else InvalidMessageFormat "presence history complete snapshot is missing its serial prefix" in
  match (if sound then st_anomaly st else None) with
  | Some anomaly =>
      Err (InvalidMessageFormat ("presence history transition anomaly: " +:+ anomaly))
  | None =>
      Ok {| sn_channel := sr_channel rq; sn_members := btree_values (st_members st);
            sn_events_replayed := st_events_replayed st;
            sn_snapshot_serial := st_previous_serial st;
            sn_snapshot_time_ms := st_snapshot_time_ms st; sn_retained := pg_retained page;
            sn_complete := pg_complete page;
            sn_truncated_by_retention := pg_truncated_by_retention page |}
  end.

(** The loop, over any store that reads pages: [read i] is the [i]-th call, which sees what
    other tasks did to the store since the call before; [None] when the fuel runs out. *)
Fixpoint snapshot_loop {St}
    (read : nat → PresenceHistoryReadRequest → St → St * result Error PresenceHistoryPage)
    (fuel i : nat) rq (cursor : option PresenceHistoryCursor) st (store : St)
    : St * option (result Error PresenceSnapshot) :=
  match fuel with
  | O => (store, None)
  | S fuel =>
      let '(store, answer) := read i (snapshot_page_request rq cursor) store in
      match answer with
      | Err e => (store, Some (Err e))
      | Ok page =>
          match snapshot_items (bool_decide (sr_at_time_ms rq = None)) (pg_items page) st with
          | Err e => (store, Some (Err e))
          | Ok st =>
              if pg_has_more page then
                match pg_next_cursor page with
                | None =>
                    (store, Some (Err (InvalidMessageFormat
                       "presence history page has_more without a cursor")))
                | Some next =>
                    if snapshot_advances rq (pg_items page) next st
                    then snapshot_loop read fuel (S i) rq (Some next) st store
                    else (store, Some (Err (InvalidMessageFormat
                            "presence history cursor did not advance")))
                end
              else (store, Some (snapshot_finish rq page st))
          end
      end
  end.

Definition snapshot_at {St}
    (read : nat → PresenceHistoryReadRequest → St → St * result Error PresenceHistoryPage)
    (fuel : nat) rq (store : St) : St * option (result Error PresenceSnapshot) :=
  snapshot_loop read fuel 0 rq None start_snapshot store.
