(* ===== verification/PresenceHistoryThms.v ===== *)
(** * The invariant of the presence history store

    What every channel of the in-memory store satisfies whatever calls were made: the byte
    count, the dedupe keys and the latest event of each user are those of the retained
    records, the serials increase within one stream, and no record repeats the event that its
    user's previous record has. *)

From Stdlib Require Import ZArith Lia.
From stdpp Require Import base gmap strings list sorting relations.
From S2P Require Import Prelude Errors Messages PresenceHistory.

Implicit Types (ch : MemoryPresenceHistoryChannel) (x : PresenceHistoryAppendRecord).
Implicit Types (l : list PresenceHistoryAppendRecord) (s : PresenceHistoryStore).

(** ** What a list of records determines *)

Definition total_bytes l : Z := foldr (λ x n, bytes_len x + n)%Z 0%Z l.

Definition latest_of l : gmap string PresenceHistoryEventKind :=
  foldl (λ latest x, <[pa_user_id x := pa_event x]> latest) ∅ l.

Definition no_repeat l : Prop :=
  ∀ pre x post, l = pre ++ x :: post → latest_of pre !! pa_user_id x ≠ Some (pa_event x).

Record books ch : Prop := {
  bk_bytes : mph_retained_bytes ch = total_bytes (mph_records ch);
  bk_keys : mph_dedupe_keys ch = list_to_set (pa_dedupe_key <$> mph_records ch);
  bk_nodup : NoDup (pa_dedupe_key <$> mph_records ch);
}.

Record presence_channel_wf ch : Prop := {
  pw_books : books ch;
  pw_latest : mph_latest_event_by_user ch = latest_of (mph_records ch);
  pw_stream : Forall (λ x, pa_stream_id x = mph_stream_id ch) (mph_records ch);
  pw_sorted : StronglySorted Z.lt (pa_serial <$> mph_records ch);
  pw_serials : Forall (λ x, 1 ≤ pa_serial x < mph_next_serial ch)%Z (mph_records ch);
  pw_next : (1 ≤ mph_next_serial ch ≤ u64_max)%Z;
  pw_edges : no_repeat (mph_records ch);
}.

Lemma total_bytes_nonneg l : (0 ≤ total_bytes l)%Z.
Proof. induction l; simpl; unfold bytes_len in *; lia. Qed.

Lemma total_bytes_app l l' : total_bytes (l ++ l') = (total_bytes l + total_bytes l')%Z.
Proof. induction l; simpl; lia. Qed.

Lemma latest_of_snoc l x : latest_of (l ++ [x]) = <[pa_user_id x := pa_event x]> (latest_of l).
Proof. unfold latest_of. by rewrite foldl_app. Qed.

(** The latest event in a suffix is the latest event of the whole. *)
Lemma latest_of_suffix gone l u k : latest_of l !! u = Some k → latest_of (gone ++ l) !! u = Some k.
Proof.
  revert u k. induction l as [|x l IH] using rev_ind; intros u k; [done|].
  rewrite app_assoc, !latest_of_snoc, !lookup_insert. case_decide; [done|]. apply IH.
Qed.

Lemma no_repeat_suffix gone l : no_repeat (gone ++ l) → no_repeat l.
Proof.
  intros Hall pre x post -> Hl. apply (Hall (gone ++ pre) x post); [by rewrite <-app_assoc|].
  by apply latest_of_suffix.
Qed.

Lemma no_repeat_snoc l x :
  no_repeat l → latest_of l !! pa_user_id x ≠ Some (pa_event x) → no_repeat (l ++ [x]).
Proof.
  intros Hl Hx pre y post Heq. destruct post as [|z post _] using rev_ind.
  - apply app_inj_tail in Heq as [-> ->]. done.
  - rewrite app_comm_cons, app_assoc in Heq. apply app_inj_tail in Heq as [-> ->].
    by apply (Hl pre y post).
Qed.

(** ** Eviction *)

(** [ch'] is [ch] without some of the oldest records; the latest events are not yet brought
    up to date. *)
Record trimmed (gone : list PresenceHistoryAppendRecord) ch ch' : Prop := {
  tr_records : mph_records ch = gone ++ mph_records ch';
  tr_stream : mph_stream_id ch' = mph_stream_id ch;
  tr_next : mph_next_serial ch' = mph_next_serial ch;
  tr_latest : gone = [] → mph_latest_event_by_user ch' = mph_latest_event_by_user ch;
  tr_books : books ch → books ch';
}.

Lemma trimmed_refl ch : trimmed [] ch ch.
Proof. by constructor. Qed.

Lemma trimmed_trans g1 g2 ch1 ch2 ch3 :
  trimmed g1 ch1 ch2 → trimmed g2 ch2 ch3 → trimmed (g1 ++ g2) ch1 ch3.
Proof.
  intros [R1 ? ? L1 B1] [R2 ? ? L2 B2]. constructor; try congruence; [| |by auto].
  - by rewrite R1, R2, app_assoc.
  - intros [-> ->]%app_nil. by rewrite L2, L1.
Qed.

(** The count that [evict_channel] tests tells whether something left. *)
Definition counted (gone : list PresenceHistoryAppendRecord) (n n' : Z) : Prop :=
  (0 ≤ n ≤ u64_max)%Z → (n ≤ n' ≤ u64_max)%Z ∧ (gone = [] ∨ (0 < n')%Z).

Lemma counted_nil n : counted [] n n.
Proof. unfold counted. split; [lia|by left]. Qed.

Lemma counted_trans g1 g2 n1 n2 n3 :
  counted g1 n1 n2 → counted g2 n2 n3 → counted (g1 ++ g2) n1 n3.
Proof.
  unfold counted. intros H1 H2 Hn. destruct (H1 Hn) as [? [->|?]], H2 as [? [->|?]];
    try (split; [lia|]); first [lia|by left|by right; lia].
Qed.

Lemma evict_while_trimmed go l : ∀ ch ev,
  mph_records ch = l →
  ∃ gone, trimmed gone ch (evict_while go l ch ev).1
        ∧ counted gone ev.1 (evict_while go l ch ev).2.1.
Proof.
  induction l as [|x l IH]; intros ch ev Hr; simpl.
  { exists []. split; [apply trimmed_refl|apply counted_nil]. }
  destruct (go ch x); [|exists []; split; [apply trimmed_refl|apply counted_nil]].
  match goal with |- context [evict_while go l ?c ?e] =>
    destruct (IH c e eq_refl) as (gone & Ht & Hc) end.
  exists ([x] ++ gone). split; [eapply trimmed_trans, Ht|eapply counted_trans, Hc; simpl].
  - constructor; simpl; try done. intros [Hb Hk Hn]; rewrite Hr in *; simpl in *.
    apply NoDup_cons in Hn as [Hx Hn]. constructor; simpl; [|rewrite Hk; set_solver|done].
    rewrite Hb. pose proof (total_bytes_nonneg l). unfold u64_saturating_sub. lia.
  - unfold counted. intros ?. split; [|right]; u64_lia.
Qed.

Lemma trimmed_wf gone ch ch' :
  trimmed gone ch ch' → mph_latest_event_by_user ch' = latest_of (mph_records ch') →
  presence_channel_wf ch → presence_channel_wf ch'.
Proof.
  intros [Hr Hs Hn _ Hb] Hlatest [? ? Hst Hso Hse ? He]. rewrite Hr in *.
  rewrite fmap_app in Hso. apply Forall_app in Hst as [_ ?], Hse as [_ ?].
  constructor; rewrite ?Hs, ?Hn; auto.
  - by apply StronglySorted_app in Hso as (_ & _ & ?).
  - by eapply no_repeat_suffix.
Qed.

(** Evicting keeps the invariant, the stream, the next serial and the newest records. *)
Lemma evict_channel_wf retention now ch :
  let ch' := (presence_evict_channel retention now ch).1 in
  presence_channel_wf ch →
  (∃ gone, mph_records ch = gone ++ mph_records ch')
  ∧ mph_stream_id ch' = mph_stream_id ch ∧ mph_next_serial ch' = mph_next_serial ch
  ∧ presence_channel_wf ch'.
Proof.
  intros ch' Hwf. subst ch'. unfold presence_evict_channel.
  do 3 match goal with |- context [evict_while ?g (mph_records ?c) ?c ?e] =>
    let T := fresh "T" in let C := fresh "C" in
    destruct (evict_while_trimmed g _ c e eq_refl) as (? & T & C);
    destruct (evict_while g (mph_records c) c e) as [? ?]; simpl in T, C end.
  pose proof (trimmed_trans _ _ _ _ _ (trimmed_trans _ _ _ _ _ T T0) T1) as HT.
  destruct (counted_trans _ _ _ _ _ (counted_trans _ _ _ _ _ C C0) C1) as [_ HC]; [u64_lia|].
  clear T T0 T1 C C0 C1. destruct (Z.gtb_spec p1.1 0); cbn [fst].
  - destruct HT as [Hr Hs Hn Hl Hb]. split_and!; [eexists; exact Hr|done|done|].
    eapply trimmed_wf, Hwf; [|done]. constructor; [exact Hr|done|done| |].
    + intros Hg. rewrite Hg in Hr. simpl in Hr.
      rewrite (pw_latest _ Hwf), Hr. done.
    + intros B%Hb. by destruct B; constructor.
  - destruct HC as [Hg|]; [|lia]. split_and!; [eexists; apply HT|apply HT|apply HT|].
    eapply trimmed_wf, Hwf; [exact HT|]. rewrite (tr_latest _ _ _ HT Hg), (pw_latest _ Hwf).
    by rewrite (tr_records _ _ _ HT), Hg.
Qed.

Lemma default_channel_wf fresh : presence_channel_wf (default_presence_channel fresh).
Proof.
  constructor; simpl; [| |constructor|constructor|constructor|u64_lia|].
  - by constructor; simpl; [| |constructor].
  - done.
  - by intros [] ? ? [=].
Qed.

Lemma evict_presence_wf config now ch :
  presence_channel_wf ch → presence_channel_wf (evict_presence config now ch).
Proof. intros. by apply evict_channel_wf. Qed.

Lemma evict_presence_bytes config now ch :
  presence_channel_wf ch →
  (mph_retained_bytes (evict_presence config now ch) ≤ mph_retained_bytes ch)%Z.
Proof.
  intros Hwf. destruct (evict_channel_wf (default config (mph_retention ch)) now ch Hwf)
    as ([gone Hr] & _ & _ & Hwf'). fold (evict_presence config now ch) in *.
  rewrite (bk_bytes _ (pw_books _ Hwf)), (bk_bytes _ (pw_books _ Hwf')), Hr, total_bytes_app.
  pose proof (total_bytes_nonneg gone). lia.
Qed.

(** ** The store *)

Definition presence_store_wf s : Prop := map_Forall (λ _ ch, presence_channel_wf ch) s.

Lemma store_channel_wf s key fresh :
  presence_store_wf s → presence_channel_wf (default (default_presence_channel fresh) (s !! key)).
Proof.
  intros Hs. destruct (s !! key) as [ch|] eqn:Hk; simpl; [by apply (Hs key)|].
  apply default_channel_wf.
Qed.

(** The serials and the byte count of the record's channel stay below 2^64. *)
Definition has_room `{PayloadCodec} fresh (record : PresenceHistoryTransitionRecord) s : Prop :=
  let ch := default (default_presence_channel fresh)
              (s !! presence_channel_key (pt_app_id record) (pt_channel record)) in
  (mph_next_serial ch < u64_max)%Z
  ∧ ∀ payload, encode_payload (mph_stream_id ch) (mph_next_serial ch) record = Ok payload →
      (mph_retained_bytes ch + str_len payload ≤ u64_max)%Z.

(** One call of a method of the store, by any task, at any time. *)
Inductive presence_step `{PayloadCodec} (config : PresenceHistoryRetentionPolicy)
    : relation PresenceHistoryStore :=
| step_record fresh now later record s :
    has_room fresh record s →
    presence_step config s (record_transition config fresh now later record s).1
| step_read now req s :
    presence_step config s (presence_read_page config now req s).1
| step_state fresh now app_id channel s :
    presence_step config s (presence_runtime_state config fresh now app_id channel s).1
| step_inspect fresh now app_id channel s :
    presence_step config s (presence_inspection config fresh now app_id channel s).1
| step_reset fresh new_id app_id channel s :
    presence_step config s (presence_reset_stream fresh new_id app_id channel s).1.

Section steps.
Context `{PayloadCodec} (config : PresenceHistoryRetentionPolicy).

Lemma record_transition_wf fresh now later record s :
  has_room fresh record s → presence_store_wf s →
  presence_store_wf (record_transition config fresh now later record s).1.
Proof.
  intros [Hnext Hbytes] Hs. unfold record_transition.
  set (key := presence_channel_key _ _) in *.
  set (ch0 := default (default_presence_channel fresh) (s !! key)) in *.
  pose proof (store_channel_wf s key fresh Hs : presence_channel_wf ch0) as Hwf0.
  pose proof (evict_presence_bytes config now ch0 Hwf0) as Hle.
  destruct (evict_channel_wf (default config (mph_retention ch0)) now ch0 Hwf0)
    as (_ & Hst & Hn & Hwf). fold (evict_presence config now ch0) in *.
  set (ch := evict_presence config now ch0) in *. rewrite Hst, Hn.
  case_bool_decide as Hkey; [by apply map_Forall_insert_2|].
  case_bool_decide as Hev; [by apply map_Forall_insert_2|].
  assert (Hsucc : u64_saturating_add (mph_next_serial ch0) 1 = (mph_next_serial ch0 + 1)%Z) by u64_lia.
  rewrite Hsucc. destruct Hwf as [[Hb Hk Hd] Hl Hstr Hso Hse Hnx He]. rewrite Hn, Hst in *.
  destruct (encode_payload _ _ _) as [payload|e] eqn:Henc; simpl;
    (apply map_Forall_insert_2; [|done]).
  - specialize (Hbytes payload eq_refl). apply evict_presence_wf.
    constructor; simpl; rewrite ?fmap_app; simpl.
    + constructor; simpl; rewrite ?fmap_app; simpl.
      * rewrite total_bytes_app, <-Hb; simpl. unfold bytes_len, str_len in *; simpl. u64_lia.
      * rewrite Hk, list_to_set_app_L. set_solver.
      * apply NoDup_app. split_and!; [done| |apply NoDup_singleton].
        rewrite Hk in Hkey. set_solver.
    + by rewrite latest_of_snoc, Hl.
    + by apply Forall_app_2; [|apply Forall_singleton].
    + apply StronglySorted_app. split_and!; [|done|repeat constructor].
      intros n n' Hin ->%list_elem_of_singleton. apply list_elem_of_fmap in Hin as (y & -> & Hy).
      rewrite Forall_forall in Hse. by apply Hse.
    + apply Forall_app_2; [|apply Forall_singleton; simpl; lia].
      eapply Forall_impl; [exact Hse|]. simpl. lia.
    + lia.
    + apply no_repeat_snoc; [done|]. simpl. by rewrite <-Hl.
  - constructor; simpl; try done; try lia. eapply Forall_impl; [exact Hse|]. simpl. lia.
Qed.

Lemma read_page_wf now req s :
  presence_store_wf s → presence_store_wf (presence_read_page config now req s).1.
Proof.
  intros Hs. unfold presence_read_page. destruct (presence_validate req); [|done].
  destruct (s !! _) as [ch|] eqn:Hk; [|done]. apply map_Forall_insert_2; [|done].
  apply evict_presence_wf. by apply (Hs _ _ Hk).
Qed.

Lemma presence_step_wf s s' :
  presence_step config s s' → presence_store_wf s → presence_store_wf s'.
Proof.
  intros [fresh now later record s0 Hr|now req s0|fresh now app_id channel s0
         |fresh now app_id channel s0|fresh new_id app_id channel s0] Hs.
  - by apply record_transition_wf.
  - by apply read_page_wf.
  - apply map_Forall_insert_2; [|done]. by apply evict_presence_wf, store_channel_wf.
  - apply map_Forall_insert_2; [|done]. by apply evict_presence_wf, store_channel_wf.
  - apply map_Forall_insert_2; [|done].
    destruct (default_channel_wf new_id) as [[] ? ? ? ? ? ?]. by constructor; [constructor|..].
Qed.

Lemma presence_reachable_wf s : rtc (presence_step config) ∅ s → presence_store_wf s.
Proof.
  revert s. apply rtc_ind_r; [apply map_Forall_empty|].
  intros ? ? _ Hstep Hs. by eapply presence_step_wf.
Qed.
End steps.
