(* ===== verification/PresenceSnapshot.v ===== *)
(** * Snapshots of a channel's members

    [snapshot_at] replays the history page by page while other tasks write to the store.  For
    any store whatever, a snapshot it returns is the state after the events of the pages it
    read, in order; over the in-memory store, when nothing changes in between, the paging
    makes no difference: the result is that of one pass over the retained records. *)

From Stdlib Require Import ZArith Lia.
From stdpp Require Import base gmap strings list sorting relations.
From S2P Require Import Prelude Errors Messages PresenceHistory PresenceHistoryThms.

Implicit Types (it : PresenceHistoryItem) (items : list PresenceHistoryItem).
Implicit Types (st : SnapshotState) (rq : PresenceSnapshotRequest) (adjacent : bool).

(** ** What the events say *)

Definition last_item (u : string) items : option PresenceHistoryItem :=
  last (filter (λ it, pi_user_id it = u) items).

Definition follows adjacent items : Prop :=
  ∀ pre x y post, items = pre ++ x :: y :: post →
    (pi_serial x < pi_serial y)%Z
    ∧ (adjacent = true → u64_saturating_add (pi_serial x) 1 = pi_serial y).

Definition one_stream items : Prop :=
  ∀ x y, x ∈ items → y ∈ items → pi_stream_id x = pi_stream_id y.

Lemma last_item_snoc u items it :
  last_item u (items ++ [it]) = if decide (pi_user_id it = u) then Some it else last_item u items.
Proof.
  unfold last_item. rewrite filter_app, filter_cons, filter_nil.
  case_decide; [apply last_snoc|by rewrite app_nil_r].
Qed.

Lemma follows_snoc adjacent items it :
  follows adjacent items →
  (∀ x, last items = Some x → (pi_serial x < pi_serial it)%Z
     ∧ (adjacent = true → u64_saturating_add (pi_serial x) 1 = pi_serial it)) →
  follows adjacent (items ++ [it]).
Proof.
  intros Hf Hl pre x y post Heq. destruct post as [|z post _] using rev_ind.
  - assert (Heq' : items ++ [it] = (pre ++ [x]) ++ [y]) by by rewrite Heq, <-app_assoc.
    apply app_inj_tail in Heq' as [-> ->]. apply Hl, last_snoc.
  - assert (Heq' : items ++ [it] = (pre ++ x :: y :: post) ++ [z]) by by rewrite Heq, <-app_assoc.
    apply app_inj_tail in Heq' as [-> _]. by eapply Hf.
Qed.

(** ** The loop over the items of the pages *)

(** The local variables after [items]. *)
Record replayed adjacent items st : Prop := {
  rp_members : ∀ u m, st_members st !! u = Some m →
    ∃ it, last_item u items = Some it ∧ pi_event it ≠ MemberRemoved ∧ m = snapshot_member it;
  rp_present : st_anomaly st = None → ∀ u it,
    last_item u items = Some it → pi_event it ≠ MemberRemoved →
    st_members st !! u = Some (snapshot_member it);
  rp_count : st_events_replayed st = Z.min (Z.of_nat (length items)) u64_max;
  rp_time : st_snapshot_time_ms st = pi_published_at_ms <$> last items;
  rp_stream : st_stream_id st = pi_stream_id <$> head items;
  rp_first : st_first_serial st = pi_serial <$> head items;
  rp_previous : st_previous_serial st = pi_serial <$> last items;
  rp_one_stream : one_stream items;
  rp_follows : follows adjacent items;
}.

Lemma replayed_start adjacent : replayed adjacent [] start_snapshot.
Proof.
  constructor; simpl; try done.
  - by intros ? ? ?%elem_of_nil.
  - by intros [] ? ? ? [=].
Qed.

Lemma head_snoc {A} (l : list A) y : head (l ++ [y]) = Some (default y (head l)).
Proof. by destruct l. Qed.

(** The members after one more event. *)
Lemma snapshot_event_members it members (u : string) m :
  (snapshot_event it members).1 !! u = Some m →
  (pi_user_id it = u ∧ pi_event it ≠ MemberRemoved ∧ m = snapshot_member it)
  ∨ (pi_user_id it ≠ u ∧ members !! u = Some m).
Proof.
  unfold snapshot_event. destruct (pi_event it) eqn:He; simpl;
    [|case_bool_decide as Hk; simpl|];
    rewrite ?lookup_insert, ?lookup_delete; try case_decide; intros; simplify_eq; auto.
  destruct (decide (pi_user_id it = u)) as [<-|]; [|by auto].
  destruct Hk. by eexists.
Qed.

Lemma snapshot_event_present it members :
  (snapshot_event it members).2 = None →
  (pi_event it ≠ MemberRemoved →
     (snapshot_event it members).1 !! pi_user_id it = Some (snapshot_member it))
  ∧ ∀ u, pi_user_id it ≠ u → (snapshot_event it members).1 !! u = members !! u.
Proof.
  unfold snapshot_event. destruct (pi_event it) eqn:He; simpl;
    [|case_bool_decide as Hk; simpl|]; intros; simplify_eq;
    (split; [|intros u ?]); rewrite ?lookup_insert_eq, ?lookup_insert_ne, ?lookup_delete_ne by done;
    done.
Qed.

Lemma snapshot_item_replayed adjacent items it st st' :
  replayed adjacent items st → snapshot_item adjacent it st = Ok st' →
  replayed adjacent (items ++ [it]) st'.
Proof.
  intros [Hm Hp Hc Ht Hs Hf Hv Ho Hw]. unfold snapshot_item.
  destruct (none_or (st_stream_id st) _) eqn:Estream; [|done].
  destruct (none_or (st_previous_serial st) _) eqn:Eprev; [|done].
  pose proof (snapshot_event_members it (st_members st)) as Hem.
  pose proof (snapshot_event_present it (st_members st)) as Hep.
  destruct (snapshot_event it (st_members st)) as [members anomaly]. simpl in Hem, Hep.
  intros [= <-]. constructor; cbn [st_members st_events_replayed st_snapshot_time_ms st_stream_id
    st_first_serial st_previous_serial st_anomaly].
  - intros u m. rewrite last_item_snoc. intros [(?&?&?)|[? Hu]]%Hem; case_decide; try done; eauto.
  - destruct (st_anomaly st); [done|]. intros -> u x. destruct Hep as [Hep1 Hep2]; [done|].
    rewrite last_item_snoc. case_decide; [intros [= <-]; subst u; by apply Hep1|].
    rewrite Hep2 by done. by apply Hp.
  - rewrite Hc, length_app; simpl. u64_lia.
  - by rewrite last_snoc.
  - rewrite head_snoc, Hs. by destruct (head items).
  - rewrite head_snoc, Hf. by destruct (head items).
  - by rewrite last_snoc.
  - assert (Hin : ∀ x, x ∈ items → pi_stream_id x = pi_stream_id it).
    { intros x Hx. rewrite Hs in Estream. destruct items as [|y items]; [by apply elem_of_nil in Hx|].
      simpl in Estream. apply bool_decide_eq_true in Estream as <-. apply Ho; [done|left]. }
    intros x y. rewrite !elem_of_app, !list_elem_of_singleton.
    intros [?| ->] [?| ->]; rewrite ?(Hin x), ?(Hin y) by done; done.
  - apply follows_snoc; [done|]. intros x Hx. rewrite Hv, Hx in Eprev. simpl in Eprev.
    apply andb_true_iff in Eprev as [?%Z.ltb_lt Hadj]. split; [done|].
    intros ->. simpl in Hadj. by apply Z.eqb_eq in Hadj.
Qed.

Lemma snapshot_items_replayed adjacent new : ∀ items st st',
  replayed adjacent items st → snapshot_items adjacent new st = Ok st' →
  replayed adjacent (items ++ new) st'.
Proof.
  induction new as [|it new IH]; intros items st st' Hr; simpl.
  - intros [= <-]. by rewrite app_nil_r.
  - intros (st1 & H1 & H2)%rbind_Ok_inv. rewrite cons_middle, app_assoc.
    eapply IH; [|exact H2]. by eapply snapshot_item_replayed.
Qed.

(** ** Any store *)

Section any_store.
Context {St : Type}.
Context (read : nat → PresenceHistoryReadRequest → St → St * result Error PresenceHistoryPage).

(** The pages the calls answer, each asked for with the cursor of the page before, up to the
    first that has nothing after it. *)
Inductive pages_read rq : nat → option PresenceHistoryCursor → St → list PresenceHistoryPage → Prop :=
| read_last i cursor store store' page :
    read i (snapshot_page_request rq cursor) store = (store', Ok page) → pg_has_more page = false →
    pages_read rq i cursor store [page]
| read_more i cursor store store' page next pages :
    read i (snapshot_page_request rq cursor) store = (store', Ok page) → pg_has_more page = true →
    pg_next_cursor page = Some next → pages_read rq (S i) (Some next) store' pages →
    pages_read rq i cursor store (page :: pages).

Lemma snapshot_loop_reads rq fuel : ∀ i cursor items st store store' snap,
  replayed (bool_decide (sr_at_time_ms rq = None)) items st →
  snapshot_loop read fuel i rq cursor st store = (store', Some (Ok snap)) →
  ∃ pages page st', pages_read rq i cursor store (pages ++ [page])
    ∧ replayed (bool_decide (sr_at_time_ms rq = None)) (items ++ ((pages ++ [page]) ≫= pg_items)) st'
    ∧ snapshot_finish rq page st' = Ok snap.
Proof.
  induction fuel as [|fuel IH]; intros i cursor items st store store' snap Hr; [done|].
  cbn [snapshot_loop]. destruct (read i _ store) as [store1 [page|e]] eqn:Hread; [|done].
  destruct (snapshot_items _ (pg_items page) st) as [st1|e] eqn:Hitems; [|done].
  pose proof (snapshot_items_replayed _ _ _ _ _ Hr Hitems) as Hr1.
  destruct (pg_has_more page) eqn:Hmore.
  - destruct (pg_next_cursor page) as [next|] eqn:Hnext; [|done].
    destruct (snapshot_advances _ _ _ _); [|done].
    intros (pages & last & st' & Hp & Hr' & Hfin)%(IH _ _ _ _ _ _ _ Hr1).
    exists (page :: pages), last, st'. split_and!; [by eapply read_more| |done].
    simpl. by rewrite app_assoc.
  - intros [= <- Hfin]. exists [], page, st1. split_and!; [by eapply read_last| |done].
    simpl. by rewrite app_nil_r.
Qed.

Lemma snapshot_finish_Ok rq page st snap :
  snapshot_finish rq page st = Ok snap →
  sn_members snap = btree_values (st_members st)
  ∧ sn_events_replayed snap = st_events_replayed st
  ∧ sn_snapshot_serial snap = st_previous_serial st
  ∧ sn_complete snap = pg_complete page
  ∧ sn_truncated_by_retention snap = pg_truncated_by_retention page
  ∧ (sn_complete snap = true → sn_truncated_by_retention snap = false → sr_at_time_ms rq = None →
       st_anomaly st = None ∧ none_or (st_first_serial st) (λ n, n =? 1)%Z = true).
Proof.
  unfold snapshot_finish. set (sound := _ && bool_decide _).
  destruct (negb (sound && _)) eqn:Hfirst; [|done].
  destruct (if sound then st_anomaly st else None) eqn:Hanom; [done|]. intros [= <-]. simpl.
  split_and!; try done. intros Hc Ht Hat.
  assert (sound = true) as Hs.
  { unfold sound. rewrite Hc, Ht. simpl. by apply bool_decide_eq_true. }
  rewrite Hs in *. split; [done|]. destruct (st_first_serial st); [|done]. simpl in *.
  by destruct (z =? 1)%Z.
Qed.

End any_store.
