(* ===== verification/PresencePaging.v ===== *)
(** * Snapshots over the in-memory store

    The pages [snapshot_at] reads from the in-memory store are consecutive pieces of the
    retained records, so its loop ends and gives what one pass over them gives.  Concrete runs
    of the store follow. *)

From Stdlib Require Import ZArith Lia.
From stdpp Require Import base gmap strings list sorting relations.
From S2P Require Import Prelude Errors Messages PresenceHistory PresenceHistoryThms PresenceSnapshot.

Implicit Types (rq : PresenceSnapshotRequest) (x : PresenceHistoryAppendRecord).

Section memory.
Context (config : PresenceHistoryRetentionPolicy) (now : nat → Z).
Context (rq : PresenceSnapshotRequest) (s : PresenceHistoryStore).
Context (ch : MemoryPresenceHistoryChannel).
Context (Hch : s !! presence_channel_key (sr_app_id rq) (sr_channel rq) = Some ch).
Context (Hwf : presence_channel_wf ch).
Context (Hstable : ∀ i, evict_presence config (now i) ch = ch).

Notation read := (λ i, presence_read_page config (now i)).
Notation adjacent := (bool_decide (sr_at_time_ms rq = None)).

(** The records up to the requested time and serial. *)
Definition selected : list PresenceHistoryAppendRecord :=
  filter (λ x, presence_matcher (snapshot_page_request rq None) x = true) (mph_records ch).

(** The cursor that [k] of them have been read. *)
Definition cursor_at (k : nat) (cursor : option PresenceHistoryCursor) : Prop :=
  match cursor with
  | None => k = 0
  | Some c => ∃ pre x post, selected = pre ++ x :: post ∧ k = S (length pre)
      ∧ c = {| phc_version := 1; phc_app_id := sr_app_id rq; phc_channel := sr_channel rq;
               phc_stream_id := mph_stream_id ch; phc_serial := pa_serial x;
               phc_direction := PhOldestFirst; phc_bounds := snapshot_bounds rq |}
  end.

Lemma selected_records x : x ∈ selected → x ∈ mph_records ch.
Proof. unfold selected. by intros [_ ?]%list_elem_of_filter. Qed.

Lemma selected_stream x : x ∈ selected → pa_stream_id x = mph_stream_id ch.
Proof. intros ?%selected_records. by apply (proj1 (Forall_forall _ _) (pw_stream _ Hwf)). Qed.

Lemma records_sorted : StronglySorted (λ x y, pa_serial x < pa_serial y)%Z (mph_records ch).
Proof.
  pose proof (pw_sorted _ Hwf) as Hs. clear - Hs.
  induction (mph_records ch) as [|x l IH]; [constructor|].
  csimpl in Hs. apply StronglySorted_inv in Hs as [Hs Hx].
  constructor; [by apply IH|]. rewrite Forall_fmap in Hx. exact Hx.
Qed.

(** What a page with that cursor selects from. *)
Lemma matcher_drop k cursor :
  cursor_at k cursor →
  filter (λ x, presence_matcher (snapshot_page_request rq cursor) x = true) (mph_records ch)
  = drop k selected.
Proof.
  destruct cursor as [c|]; [|by intros ->].
  intros (pre & x & post & Hsel & -> & ->).
  pose proof (StronglySorted_filter _ (λ x, presence_matcher (snapshot_page_request rq None) x = true)
    _ records_sorted) as Hsorted. fold selected in Hsorted.
  assert (Hx : x ∈ selected) by (rewrite Hsel; set_solver).
  trans (filter (λ y, (pa_serial x < pa_serial y)%Z) selected).
  - unfold selected. rewrite list_filter_filter. apply list_filter_ext. intros y Hy.
    pose proof (proj1 (Forall_forall _ _) (pw_stream _ Hwf) y Hy) as Hst. simpl in Hst.
    unfold presence_matcher. simpl. rewrite Hst, bool_decide_true by done. simpl.
    rewrite !andb_true_iff, Z.ltb_lt. tauto.
  - rewrite Hsel in *. rewrite (sorted_filter_after (λ a b, pa_serial a < pa_serial b)%Z); [|lia|done|done].
    rewrite cons_middle, app_assoc, drop_app_length'; [done|]. rewrite length_app; simpl; lia.
Qed.

Lemma read_at i k cursor :
  cursor_at k cursor →
  presence_read_page config (now i) (snapshot_page_request rq cursor) s
  = (s, Ok (presence_page (snapshot_page_request rq cursor) ch)).
Proof.
  intros Hk. unfold presence_read_page.
  assert (Hv : presence_validate (snapshot_page_request rq cursor) = Ok tt).
  { destruct cursor as [c|]; [|done]. destruct Hk as (pre & x & post & _ & _ & ->).
    unfold presence_validate; simpl. by rewrite !bool_decide_true. }
  rewrite Hv. cbn [prq_app_id prq_channel snapshot_page_request]. rewrite Hch, Hstable.
  rewrite insert_id by done. f_equal. destruct cursor as [c|]; cbn [prq_cursor snapshot_page_request]; [|done].
  destruct Hk as (pre & x & post & Hsel & _ & ->). cbn [phc_stream_id phc_serial].
  rewrite bool_decide_true by done.
  assert (Hx : x ∈ mph_records ch) by (apply selected_records; rewrite Hsel; set_solver).
  pose proof records_sorted as Hs. destruct (mph_records ch) as [|y l] eqn:Hl; [done|]. simpl.
  apply StronglySorted_inv in Hs as [_ Hs]. rewrite Forall_forall in Hs.
  apply elem_of_cons in Hx as [->|Hx]; [by rewrite Z.leb_refl|].
  specialize (Hs x Hx). by rewrite (proj2 (Z.leb_le _ _)) by lia.
Qed.

(** The page there: the next thousand records, and a cursor when more are left. *)
Lemma page_at k cursor :
  cursor_at k cursor →
  let page := presence_page (snapshot_page_request rq cursor) ch in
  pg_items page = presence_item <$> take (Z.to_nat 1000) (drop k selected)
  ∧ pg_has_more page = (1000 <? Z.of_nat (length (drop k selected)))%Z
  ∧ (pg_has_more page = true →
       ∃ next, pg_next_cursor page = Some next ∧ cursor_at (k + Z.to_nat 1000) (Some next)).
Proof.
  intros Hk. unfold presence_page. cbn zeta. cbn [pg_items pg_has_more pg_next_cursor].
  change (prq_direction (snapshot_page_request rq cursor)) with PhOldestFirst.
  change (prq_limit (snapshot_page_request rq cursor)) with 1000%Z. cbv iota.
  rewrite (matcher_drop k cursor Hk).
  rewrite take_take, Nat.min_l by u64_lia.
  set (rest := drop k selected).
  assert (Hmore : (Z.of_nat (length (take (Z.to_nat (u64_saturating_add 1000 1)) rest)) >? 1000)%Z
                  = (1000 <? Z.of_nat (length rest))%Z).
  { rewrite length_take, Z.gtb_ltb. apply eq_true_iff_eq. rewrite !Z.ltb_lt. u64_lia. }
  rewrite Hmore. split_and!; [done|done|]. intros Hgt. rewrite Hgt. apply Z.ltb_lt in Hgt.
  destruct (take (Z.to_nat 1000) rest) as [|x piece _] eqn:Hpiece using rev_ind.
  { apply (f_equal length) in Hpiece. rewrite length_take in Hpiece. cbn [length] in Hpiece. lia. }
  rewrite fmap_app. change (presence_item <$> [x]) with [presence_item x].
  rewrite last_snoc. eexists. split; [done|].
  assert (Hlen : length (piece ++ [x]) = Z.to_nat 1000).
  { rewrite <-Hpiece, length_take. lia. }
  assert (Hsel : selected = (take k selected ++ piece) ++ x :: drop (Z.to_nat 1000) rest).
  { rewrite <-(take_drop k selected) at 1. fold rest.
    rewrite <-(take_drop (Z.to_nat 1000) rest) at 1. by rewrite Hpiece, <-!app_assoc. }
  exists (take k selected ++ piece), x, (drop (Z.to_nat 1000) rest). split_and!; [done| |].
  - assert (k ≤ length selected). { unfold rest in Hgt. rewrite length_drop in Hgt. lia. }
    rewrite length_app in Hlen |- *. rewrite length_take. cbn [length] in Hlen. lia.
  - simpl. rewrite (selected_stream x); [done|]. rewrite Hsel. set_solver.
Qed.

(** One pass over the selected records. *)
Definition one_pass : result Error PresenceSnapshot :=
  let? st := snapshot_items adjacent (presence_item <$> selected) start_snapshot in
  snapshot_finish rq (presence_page {|
    prq_app_id := sr_app_id rq; prq_channel := sr_channel rq; prq_direction := PhOldestFirst;
    prq_limit := u64_max; prq_cursor := None; prq_bounds := snapshot_bounds rq |} ch) st.

Lemma snapshot_items_app items items' st :
  snapshot_items adjacent (items ++ items') st
  = let? st := snapshot_items adjacent items st in snapshot_items adjacent items' st.
Proof.
  revert st. induction items as [|it items IH]; intros st; [done|]. simpl.
  destruct (snapshot_item adjacent it st); [apply IH|done].
Qed.

Lemma finish_last cursor st :
  pg_has_more (presence_page (snapshot_page_request rq cursor) ch) = false →
  snapshot_finish rq (presence_page (snapshot_page_request rq cursor) ch) st
  = snapshot_finish rq (presence_page {|
      prq_app_id := sr_app_id rq; prq_channel := sr_channel rq; prq_direction := PhOldestFirst;
      prq_limit := u64_max; prq_cursor := None; prq_bounds := snapshot_bounds rq |} ch) st.
Proof.
  intros Hmore. unfold snapshot_finish, presence_page in *.
  cbn [pg_has_more pg_complete pg_truncated_by_retention pg_retained prq_direction prq_limit
       prq_bounds snapshot_page_request] in *. cbn zeta in *. rewrite Hmore.
  assert (Hbig : ∀ l : list PresenceHistoryAppendRecord,
    (Z.of_nat (length (take (Z.to_nat (u64_saturating_add u64_max 1)) l)) >? u64_max)%Z = false).
  { intros l. rewrite length_take, Z.gtb_ltb. apply Z.ltb_ge. u64_lia. }
  by rewrite Hbig.
Qed.

Lemma advances_at k next st :
  cursor_at (k + Z.to_nat 1000) (Some next) →
  snapshot_items adjacent (presence_item <$> take (k + Z.to_nat 1000) selected) start_snapshot = Ok st →
  presence_item <$> take (Z.to_nat 1000) (drop k selected) ≠ [] →
  snapshot_advances rq (presence_item <$> take (Z.to_nat 1000) (drop k selected)) next st = true.
Proof.
  intros (pre & x & post & Hsel & Hk & ->) Hst Hne.
  pose proof (snapshot_items_replayed _ _ [] _ _ (replayed_start _) Hst) as Hr.
  assert (Htake : take (k + Z.to_nat 1000) selected = pre ++ [x]).
  { rewrite Hk, Hsel, cons_middle, app_assoc, take_app_length'; [done|].
    rewrite length_app; simpl; lia. }
  rewrite Htake in Hr. simpl in Hr. unfold snapshot_advances.
  rewrite (rp_previous _ _ _ Hr), (rp_stream _ _ _ Hr), fmap_app.
  change (presence_item <$> [x]) with [presence_item x]. rewrite last_snoc, head_snoc.
  destruct (presence_item <$> take _ (drop _ _)); [done|].
  cbn -[bool_decide]. rewrite !bool_decide_true; try done.
  destruct pre as [|y pre]; simpl; [by rewrite (selected_stream x) by (rewrite Hsel; set_solver)|].
  by rewrite (selected_stream y) by (rewrite Hsel; set_solver).
Qed.

Lemma snapshot_loop_at fuel : ∀ i k cursor st,
  cursor_at k cursor →
  snapshot_items adjacent (presence_item <$> take k selected) start_snapshot = Ok st →
  length selected - k < fuel →
  snapshot_loop read fuel i rq cursor st s = (s, Some one_pass).
Proof.
  induction fuel as [|fuel IH]; intros i k cursor st Hk Hst Hfuel; [lia|].
  cbn [snapshot_loop]. rewrite (read_at i k) by done.
  destruct (page_at k cursor Hk) as (Hitems & Hmore & Hnext).
  set (page := presence_page _ ch) in *. rewrite Hitems.
  assert (Hsofar : snapshot_items adjacent
      (presence_item <$> take (k + Z.to_nat 1000) selected) start_snapshot
    = snapshot_items adjacent (presence_item <$> take (Z.to_nat 1000) (drop k selected)) st).
  { rewrite <-take_take_drop, fmap_app, snapshot_items_app, Hst. done. }
  assert (Hall : snapshot_items adjacent (presence_item <$> selected) start_snapshot
    = let? st := snapshot_items adjacent
        (presence_item <$> take (k + Z.to_nat 1000) selected) start_snapshot in
      snapshot_items adjacent (presence_item <$> drop (k + Z.to_nat 1000) selected) st).
  { by rewrite <-snapshot_items_app, <-fmap_app, take_drop. }
  rewrite Hsofar in Hall. unfold one_pass.
  destruct (snapshot_items _ (presence_item <$> take _ (drop k selected)) st) as [st1|e] eqn:Hst1;
    [|by rewrite Hall].
  destruct (pg_has_more page) eqn:Hm.
  - destruct Hnext as (next & -> & Hat); [done|]. symmetry in Hmore. apply Z.ltb_lt in Hmore.
    rewrite advances_at; [|done|done|].
    + apply (IH _ (k + Z.to_nat 1000)); [done|done|]. rewrite length_drop in Hmore. lia.
    + intros Hnil%(f_equal length). rewrite length_fmap, length_take in Hnil. cbn [length] in Hnil. lia.
  - symmetry in Hmore. apply Z.ltb_ge in Hmore. rewrite length_drop in Hmore.
    rewrite Hall, drop_ge by lia. simpl. by rewrite <-(finish_last cursor).
Qed.
End memory.

(** C25: over the in-memory store, when the channel has nothing to evict and no other call
    changes it, [snapshot_at] ends and its result, error or not, is that of one pass over the
    retained records up to the requested time and serial; the store is unchanged. *)
Theorem snapshot_exact config now rq s ch fuel :
  presence_store_wf s →
  s !! presence_channel_key (sr_app_id rq) (sr_channel rq) = Some ch →
  (∀ i, evict_presence config (now i) ch = ch) →
  length (mph_records ch) < fuel →
  snapshot_at (λ i, presence_read_page config (now i)) fuel rq s = (s, Some (one_pass rq ch)).
Proof.
  intros Hs Hch Hstable Hfuel. apply (snapshot_loop_at config now rq s ch Hch) with (k := 0);
    [by apply (Hs _ _ Hch)|done|done|done|].
  pose proof (length_filter (λ x, presence_matcher (snapshot_page_request rq None) x = true)
    (mph_records ch)). unfold selected. lia.
Qed.
