(* ===== verification/PresenceStores.v ===== *)
(** * Stores of the presence history

    The [PresenceHistoryStore] trait ([presence_history/store.rs]) as an interface, its
    filtered page read, the disabled store, and the wrapper that tracks failed writes
    ([presence_history/tracking.rs]), which is written against the interface. *)

From Stdlib Require Import ZArith Lia.
From stdpp Require Import base gmap strings list pretty.
From S2P Require Import Prelude Errors Messages PresenceHistory.

(** ** The interface *)

Class PresenceStore (St : Type) := {
  pso_record : PresenceHistoryTransitionRecord → St → St * result Error unit;
  pso_read_page : PresenceHistoryReadRequest → St → St * result Error PresenceHistoryPage;
  pso_runtime_state : string → string → St → St * result Error PresenceHistoryStreamRuntimeState;
  pso_inspection : string → string → St → St * result Error PresenceHistoryStreamInspection;
  pso_reset : string → string → St → St * result Error PresenceHistoryResetResult;
  pso_status : St → St * result Error PresenceHistoryRuntimeStatus;
}.

(** ** The disabled store *)

#[export] Instance noop_presence_store : PresenceStore unit := {|
  pso_record _ st := (st, Ok tt);
  pso_read_page req st := (st, let? _ := presence_validate req in Ok empty_presence_page);
  pso_runtime_state app_id channel st :=
    (st, Ok {| prs_app_id := app_id; prs_channel := channel; prs_stream_id := None;
               prs_durable_state := PhResetRequired; prs_continuity_proven := false;
               prs_reset_required := true; prs_reason := Some "presence_history_disabled";
               prs_node_id := None; prs_last_transition_at_ms := None;
               prs_authoritative_source := "disabled"; prs_observed_source := "disabled" |});
  pso_inspection app_id channel st :=
    (st, Ok {| pin_app_id := app_id; pin_channel := channel; pin_stream_id := None;
               pin_next_serial := None; pin_retained := pg_retained empty_presence_page;
               pin_state :=
                 {| prs_app_id := app_id; prs_channel := channel; prs_stream_id := None;
                    prs_durable_state := PhResetRequired; prs_continuity_proven := false;
                    prs_reset_required := true; prs_reason := Some "presence_history_disabled";
                    prs_node_id := None; prs_last_transition_at_ms := None;
                    prs_authoritative_source := "disabled";
                    prs_observed_source := "disabled" |} |});
  pso_reset _ _ st :=
    (st, Err (Configuration "Presence history reset is not supported by this store"));
  pso_status st := (st, Ok default_presence_status);
|}.

(** ** The in-memory store *)

(** The store with the number of clock readings so far: each call reads the clock and draws
    its UUIDs at its own instant. *)
Record MemoryPresence := { mp_store : PresenceHistoryStore; mp_tick : nat }.

Section memory.
Context `{PayloadCodec} (config : PresenceHistoryRetentionPolicy).
Context (clock : nat → Z) (uuid : nat → string).

Definition ticked {A} (m : MemoryPresence) (r : PresenceHistoryStore * A) : MemoryPresence * A :=
  ({| mp_store := r.1; mp_tick := S (S (mp_tick m)) |}, r.2).

#[export] Instance memory_presence_store : PresenceStore MemoryPresence := {|
  pso_record record m :=
    ticked m (record_transition config (uuid (mp_tick m)) (clock (mp_tick m))
                (clock (S (mp_tick m))) record (mp_store m));
  pso_read_page req m :=
    ticked m (presence_read_page config (clock (mp_tick m)) req (mp_store m));
  pso_runtime_state app_id channel m :=
    let '(s, x) := presence_runtime_state config (uuid (mp_tick m)) (clock (mp_tick m))
                     app_id channel (mp_store m) in
    ticked m (s, Ok x);
  pso_inspection app_id channel m :=
    let '(s, x) := presence_inspection config (uuid (mp_tick m)) (clock (mp_tick m))
                     app_id channel (mp_store m) in
    ticked m (s, Ok x);
  pso_reset app_id channel m :=
    let '(s, x) := presence_reset_stream (uuid (mp_tick m)) (uuid (S (mp_tick m)))
                     app_id channel (mp_store m) in
    ticked m (s, Ok x);
  pso_status m := (m, Ok presence_memory_status);
|}.
End memory.

(** ** Filtered pages *)

Record PresenceHistoryFilter := {
  pf_user_id : option string;
  pf_connection_id : option string;
}.

Definition presence_filter_matches (f : PresenceHistoryFilter) (it : PresenceHistoryItem) : bool :=
  none_or (pf_user_id f) (λ user_id, bool_decide (pi_user_id it = user_id))
  && none_or (pf_connection_id f)
       (λ connection_id, bool_decide (pi_connection_id it = Some connection_id)).

Definition presence_filter_is_empty (f : PresenceHistoryFilter) : bool :=
  bool_decide (pf_user_id f = None) && bool_decide (pf_connection_id f = None).

Definition SCAN_CHUNK : Z := 256.
Definition MAX_SCAN_ITEMS : Z := 4096.

Definition scan_budget (requested_limit : Z) : Z :=
  Z.max SCAN_CHUNK (Z.min (Z.min (requested_limit * 32) u64_max) MAX_SCAN_ITEMS).

(** The local variables of the loop. *)
Record FilteredScan := {
  fs_cursor : option PresenceHistoryCursor;
  fs_scanned : Z;
  fs_items : list PresenceHistoryItem;
  fs_retained : option PresenceHistoryRetentionStats;
  fs_complete : bool;
  fs_truncated : bool;
  fs_degraded : bool;
}.

Implicit Types (sc : FilteredScan) (req : PresenceHistoryReadRequest) (f : PresenceHistoryFilter).

Definition start_scan req : FilteredScan := {|
  fs_cursor := prq_cursor req; fs_scanned := 0; fs_items := []; fs_retained := None;
  fs_complete := true; fs_truncated := false; fs_degraded := false |}.

Definition scan_request req sc : PresenceHistoryReadRequest := {|
  prq_app_id := prq_app_id req; prq_channel := prq_channel req;
  prq_direction := prq_direction req;
  prq_limit :=
    Z.max 1 (Z.min (u64_saturating_sub (scan_budget (prq_limit req)) (fs_scanned sc)) SCAN_CHUNK);
  prq_cursor := fs_cursor sc; prq_bounds := prq_bounds req |}.

(** The answers of the loop differ in the cursor and in [has_more]. *)
Definition scan_answer sc (items : list PresenceHistoryItem)
    (next : option PresenceHistoryCursor) (has_more : bool) : PresenceHistoryPage := {|
  pg_items := items; pg_next_cursor := next;
  pg_retained := default (pg_retained empty_presence_page) (fs_retained sc);
  pg_has_more := has_more; pg_complete := fs_complete sc;
  pg_truncated_by_retention := fs_truncated sc; pg_degraded := fs_degraded sc |}.

(** The loop over the items of a page: the answer when the last item asked for is found, or
    the items collected and the number scanned. *)
Fixpoint scan_items req f sc (page_has_more : bool) (page_items : list PresenceHistoryItem)
    (items : list PresenceHistoryItem) (scanned : Z)
    : PresenceHistoryPage + list PresenceHistoryItem * Z :=
  match page_items with
  | [] => inr (items, scanned)
  | it :: rest =>
      let scanned := u64_saturating_add scanned 1 in
      if presence_filter_matches f it then
        let items := items ++ [it] in
        if (Z.of_nat (length items) =? prq_limit req)%Z then
          let has_more := match rest with [] => page_has_more | _ => true end in
          inl (scan_answer sc items
                 (if has_more
                  then Some {| phc_version := 1; phc_app_id := prq_app_id req;
                               phc_channel := prq_channel req; phc_stream_id := pi_stream_id it;
                               phc_serial := pi_serial it; phc_direction := prq_direction req;
                               phc_bounds := prq_bounds req |}
                  else None) has_more)
        else scan_items req f sc page_has_more rest items scanned
      else scan_items req f sc page_has_more rest items scanned
  end.

Section filtered.
Context {St : Type} `{PresenceStore St}.

Fixpoint filtered_loop (fuel : nat) req f sc (st : St)
    : St * option (result Error PresenceHistoryPage) :=
  match fuel with
  | O => (st, None)
  | S fuel =>
      let '(st, answer) := pso_read_page (scan_request req sc) st in
      match answer with
      | Err e => (st, Some (Err e))
      | Ok page =>
          let sc := {|
            fs_cursor := fs_cursor sc; fs_scanned := fs_scanned sc; fs_items := fs_items sc;
            fs_retained := Some (default (pg_retained page) (fs_retained sc));
            fs_complete := fs_complete sc && pg_complete page;
            fs_truncated := fs_truncated sc || pg_truncated_by_retention page;
            fs_degraded := fs_degraded sc || pg_degraded page |} in
          if match pg_items page with [] => pg_has_more page | _ => false end
          then (st, Some (Err (Internal
                  "Presence history page reported more items without advancing")))
          else
            match scan_items req f sc (pg_has_more page) (pg_items page) (fs_items sc)
                    (fs_scanned sc) with
            | inl answer => (st, Some (Ok answer))
            | inr (items, scanned) =>
                if negb (pg_has_more page)
                then (st, Some (Ok (scan_answer sc items None false)))
                else
                  match pg_next_cursor page with
                  | None =>
                      (st, Some (Err (Internal
                         "Presence history page reported more items without a cursor")))
                  | Some next =>
                      if (scan_budget (prq_limit req) <=? scanned)%Z
                      then (st, Some (Ok (scan_answer sc items (Some next) true)))
                      else filtered_loop fuel req f {|
                             fs_cursor := Some next; fs_scanned := scanned; fs_items := items;
                             fs_retained := fs_retained sc; fs_complete := fs_complete sc;
                             fs_truncated := fs_truncated sc; fs_degraded := fs_degraded sc |} st
                  end
            end
      end
  end.

Definition read_filtered_page (fuel : nat) req f (st : St)
    : St * option (result Error PresenceHistoryPage) :=
  if presence_filter_is_empty f
  then let '(st, answer) := pso_read_page req st in (st, Some answer)
  else
    match presence_validate req with
    | Err e => (st, Some (Err e))
    | Ok _ => filtered_loop fuel req f (start_scan req) st
    end.
End filtered.

(** ** Failure tracking *)

Record TrackingPresenceHistoryStore (St : Type) := {
  trk_inner : St;
  trk_state_authority : string;
  trk_runtime_states : gmap string PresenceHistoryStreamRuntimeState;
}.

Arguments trk_inner {_} _.
Arguments trk_state_authority {_} _.
Arguments trk_runtime_states {_} _.

Section tracking.
Context {St : Type} `{PresenceStore St}.
Implicit Types (t : TrackingPresenceHistoryStore St) (app_id channel : string).

Definition with_inner t (inner : St) : TrackingPresenceHistoryStore St := {|
  trk_inner := inner; trk_state_authority := trk_state_authority t;
  trk_runtime_states := trk_runtime_states t |}.

Definition tracking_key app_id channel : string := app_id +:+ nul +:+ channel.

Definition current_state t app_id channel : option PresenceHistoryStreamRuntimeState :=
  trk_runtime_states t !! tracking_key app_id channel.

(** The state a failed write leaves; the events retained before it decide. *)
Definition failed_state t (before : PresenceHistoryStreamInspection) (now : Z)
    : PresenceHistoryStreamRuntimeState :=
  let durable_state :=
    if (ps_retained_events (pin_retained before) >? 0)%Z then PhResetRequired else PhDegraded in {|
  prs_app_id := pin_app_id before; prs_channel := pin_channel before;
  prs_stream_id := pin_stream_id before; prs_durable_state := durable_state;
  prs_continuity_proven := continuity_proven durable_state;
  prs_reset_required := presence_reset_required durable_state;
  prs_reason := Some match durable_state with
                     | PhHealthy => "presence_history_healthy"
                     | PhDegraded => "presence_history_write_failed"
                     | PhResetRequired => "presence_history_reset_required_after_write_failure"
                     end;
  prs_node_id := None; prs_last_transition_at_ms := Some now;
  prs_authoritative_source := trk_state_authority t;
  prs_observed_source := trk_state_authority t |}.

Definition tracking_record (now : Z) (record : PresenceHistoryTransitionRecord) t
    : TrackingPresenceHistoryStore St * result Error unit :=
  let '(inner, before) := pso_inspection (pt_app_id record) (pt_channel record) (trk_inner t) in
  match before with
  | Err e => (with_inner t inner, Err e)
  | Ok before =>
      let '(inner, answer) := pso_record record inner in
      match answer with
      | Ok _ => (with_inner t inner, Ok tt)
      | Err e =>
          ({| trk_inner := inner; trk_state_authority := trk_state_authority t;
              trk_runtime_states :=
                <[tracking_key (pt_app_id record) (pt_channel record) := failed_state t before now]>
                  (trk_runtime_states t) |}, Err e)
      end
  end.

Definition tracking_read_page (req : PresenceHistoryReadRequest) t
    : TrackingPresenceHistoryStore St * result Error PresenceHistoryPage :=
  let '(inner, answer) := pso_read_page req (trk_inner t) in
  (with_inner t inner,
   let? page := answer in
   Ok (if match current_state t (prq_app_id req) (prq_channel req) with
          | Some state => negb (bool_decide (prs_durable_state state = PhHealthy))
          | None => false
          end
       then {| pg_items := pg_items page; pg_next_cursor := pg_next_cursor page;
               pg_retained := pg_retained page; pg_has_more := pg_has_more page;
               pg_complete := false;
               pg_truncated_by_retention := pg_truncated_by_retention page;
               pg_degraded := true |}
       else page)).

Definition tracking_runtime_state app_id channel t
    : TrackingPresenceHistoryStore St * result Error PresenceHistoryStreamRuntimeState :=
  let '(inner, answer) := pso_runtime_state app_id channel (trk_inner t) in
  (with_inner t inner,
   let? inner_state := answer in Ok (default inner_state (current_state t app_id channel))).

Definition with_state (i : PresenceHistoryStreamInspection)
    (state : PresenceHistoryStreamRuntimeState) : PresenceHistoryStreamInspection := {|
  pin_app_id := pin_app_id i; pin_channel := pin_channel i; pin_stream_id := pin_stream_id i;
  pin_next_serial := pin_next_serial i; pin_retained := pin_retained i; pin_state := state |}.

Definition tracking_inspection app_id channel t
    : TrackingPresenceHistoryStore St * result Error PresenceHistoryStreamInspection :=
  let '(inner, answer) := pso_inspection app_id channel (trk_inner t) in
  (with_inner t inner,
   let? i := answer in
   Ok match current_state t app_id channel with Some state => with_state i state | None => i end).

Definition tracking_reset app_id channel t
    : TrackingPresenceHistoryStore St * result Error PresenceHistoryResetResult :=
  let '(inner, answer) := pso_reset app_id channel (trk_inner t) in
  match answer with
  | Err e => (with_inner t inner, Err e)
  | Ok r =>
      let '(inner, state) := pso_runtime_state app_id channel inner in
      ({| trk_inner := inner; trk_state_authority := trk_state_authority t;
          trk_runtime_states :=
            delete (tracking_key app_id channel) (trk_runtime_states t) |},
       let? state := state in
       Ok {| pre_app_id := pre_app_id r; pre_channel := pre_channel r;
             pre_previous_stream_id := pre_previous_stream_id r;
             pre_new_stream_id := pre_new_stream_id r;
             pre_purged_events := pre_purged_events r; pre_purged_bytes := pre_purged_bytes r;
             pre_inspection := with_state (pre_inspection r) state |})
  end.

(** The channels of [runtime_status] that are degraded and that need a reset. *)
Definition state_counts (states : list PresenceHistoryStreamRuntimeState) : Z * Z :=
  foldl (λ n state,
    match prs_durable_state state with
    | PhHealthy => n
    | PhDegraded => (n.1 + 1, n.2)%Z
    | PhResetRequired => (n.1 + 1, n.2 + 1)%Z
    end) (0, 0)%Z states.

Definition tracking_status t
    : TrackingPresenceHistoryStore St * result Error PresenceHistoryRuntimeStatus :=
  let '(inner, answer) := pso_status (trk_inner t) in
  (with_inner t inner,
   let? status := answer in
   let n := state_counts (btree_values (trk_runtime_states t)) in
   Ok {| pst_enabled := pst_enabled status; pst_backend := pst_backend status;
         pst_state_authority := trk_state_authority t; pst_degraded_channels := n.1;
         pst_reset_required_channels := n.2; pst_queue_depth := pst_queue_depth status |}).
End tracking.
