(* ===== verification/PresenceStoreThms.v ===== *)
(** * Guarantees of the presence history stores

    The filtered read ends whatever the store answers, and returns matching items only; the
    tracking wrapper fails closed once it has recorded a failed write. *)

From Stdlib Require Import ZArith Lia.
From stdpp Require Import base gmap strings list relations.
From S2P Require Import Prelude Errors Messages PresenceHistory PresenceSnapshot PresenceStores.

Implicit Types (sc : FilteredScan) (req : PresenceHistoryReadRequest) (f : PresenceHistoryFilter).
Implicit Types (items : list PresenceHistoryItem).

(** ** The filtered read *)

Lemma scan_budget_bounds n : (256 ≤ scan_budget n ≤ 4096)%Z.
Proof. unfold scan_budget, SCAN_CHUNK, MAX_SCAN_ITEMS. u64_lia. Qed.

(** What a scan has so far, and what an answer holds. *)
Definition matching f (limit : Z) items : Prop :=
  Forall (λ it, presence_filter_matches f it = true) items
  ∧ (Z.of_nat (length items) < limit)%Z.

Lemma scan_items_spec req f sc more page_items : ∀ items scanned,
  matching f (prq_limit req) items → (0 ≤ scanned)%Z →
  (scanned + Z.of_nat (length page_items) ≤ u64_max)%Z →
  match scan_items req f sc more page_items items scanned with
  | inl answer => ∃ items', answer = scan_answer sc (items ++ items') (pg_next_cursor answer)
                              (pg_has_more answer)
      ∧ items' `sublist_of` page_items
      ∧ Forall (λ it, presence_filter_matches f it = true) (items ++ items')
      ∧ Z.of_nat (length (items ++ items')) = prq_limit req
  | inr (items', scanned') =>
      items' = items ++ filter (λ it, presence_filter_matches f it = true) page_items
      ∧ matching f (prq_limit req) items'
      ∧ scanned' = (scanned + Z.of_nat (length page_items))%Z
  end.
Proof.
  induction page_items as [|it rest IH]; intros items scanned [Hall Hlen] Hsc Hroom;
    cbn [scan_items].
  { rewrite filter_nil, app_nil_r. split_and!; [done|done|simpl; lia]. }
  rewrite length_cons in Hroom.
  assert (Hadd : u64_saturating_add scanned 1 = (scanned + 1)%Z) by u64_lia. rewrite Hadd.
  rewrite filter_cons. destruct (presence_filter_matches f it) eqn:Hf; case_decide as Hd; try done.
  - assert (Hall' : Forall (λ it, presence_filter_matches f it = true) (items ++ [it]))
      by (by apply Forall_app_2; [|apply Forall_singleton]).
    destruct (Z.eqb_spec (Z.of_nat (length (items ++ [it]))) (prq_limit req)) as [Heq|Hne].
    { exists [it]. split_and!; [done|by apply sublist_skip, sublist_nil_l|done|done]. }
    rewrite length_app in Hne. simpl in Hne.
    specialize (IH (items ++ [it]) (scanned + 1)%Z). destruct (scan_items _ _ _ _ rest _ _) as [a|[i n]].
    + destruct IH as (items' & Ha & Hsub & Hm & Hl);
        [by split; [|rewrite length_app; simpl; lia]|lia|lia|].
      exists (it :: items'). rewrite <-app_assoc in *. split_and!; try done. by apply sublist_skip.
    + destruct IH as (-> & Hm & ->); [by split; [|rewrite length_app; simpl; lia]|lia|lia|].
      rewrite <-app_assoc in *. split_and!; [done|done|simpl; lia].
  - specialize (IH items (scanned + 1)%Z). destruct (scan_items _ _ _ _ rest _ _) as [a|[i n]].
    + destruct IH as (items' & Ha & Hsub & Hm & Hl); [done|lia|lia|].
      exists items'. split_and!; try done. by apply sublist_cons.
    + destruct IH as (-> & Hm & ->); [done|lia|lia|]. split_and!; [done|done|simpl; lia].
Qed.

Section any_store.
Context {St : Type} `{PresenceStore St}.

(** Pages hold no more than was asked for, as every store's do. *)
Definition pages_bounded : Prop := ∀ req (st st' : St) page,
  (0 ≤ prq_limit req)%Z → pso_read_page req st = (st', Ok page) →
  (Z.of_nat (length (pg_items page)) ≤ prq_limit req)%Z.

Definition filtered_ok req f (answer : result Error PresenceHistoryPage) : Prop :=
  match answer with
  | Err _ => True
  | Ok page =>
      Forall (λ it, presence_filter_matches f it = true) (pg_items page)
      ∧ (Z.of_nat (length (pg_items page)) ≤ prq_limit req)%Z
      ∧ (pg_has_more page = true → is_Some (pg_next_cursor page))
  end.

Lemma scan_request_limit req sc :
  (0 ≤ fs_scanned sc < scan_budget (prq_limit req))%Z →
  (1 ≤ prq_limit (scan_request req sc) ≤ scan_budget (prq_limit req) - fs_scanned sc)%Z.
Proof.
  intros ?. pose proof (scan_budget_bounds (prq_limit req)).
  unfold scan_request, SCAN_CHUNK. simpl. u64_lia.
Qed.

Lemma scan_items_has_more req f sc more page_items : ∀ items scanned answer,
  scan_items req f sc more page_items items scanned = inl answer →
  pg_has_more answer = true → is_Some (pg_next_cursor answer).
Proof.
  induction page_items as [|it rest IH]; intros items scanned answer; cbn [scan_items]; [done|].
  destruct (presence_filter_matches f it); [|apply IH].
  destruct (_ =? _)%Z; [|apply IH]. intros [= <-]. simpl.
  destruct rest; [intros ->|intros _]; by eexists.
Qed.

Lemma filtered_loop_ends req f fuel : ∀ sc (st : St),
  pages_bounded → matching f (prq_limit req) (fs_items sc) →
  (0 ≤ fs_scanned sc < scan_budget (prq_limit req))%Z →
  (scan_budget (prq_limit req) - fs_scanned sc < Z.of_nat fuel)%Z →
  ∃ st' answer, filtered_loop fuel req f sc st = (st', Some answer) ∧ filtered_ok req f answer.
Proof.
  induction fuel as [|fuel IH]; intros sc st Hpages Hm Hs Hfuel; [lia|]. cbn [filtered_loop].
  destruct (pso_read_page (scan_request req sc) st) as [st1 [page|e]] eqn:Hread; [|by eexists _, _].
  pose proof (scan_request_limit req sc Hs) as Hlim.
  pose proof (Hpages (scan_request req sc) st st1 page ltac:(lia) Hread) as Hlen.
  pose proof (scan_budget_bounds (prq_limit req)) as Hb.
  set (sc' := {| fs_cursor := fs_cursor sc |}).
  destruct (match pg_items page with [] => pg_has_more page | _ => false end) eqn:Hstuck; [by eexists _, _|].
  pose proof (scan_items_spec req f sc' (pg_has_more page) (pg_items page) (fs_items sc)
    (fs_scanned sc) Hm) as Hspec. cbn [fs_items fs_scanned sc'] in *.
  destruct (scan_items _ _ _ _ _ _ _) as [answer|[items scanned]] eqn:Hscan.
  - destruct Hspec as (items' & -> & _ & Hall & Hl); [lia|u64_lia|].
    eexists _, _. split; [done|]. split_and!; [done|simpl in *; lia|].
    by apply (scan_items_has_more _ _ _ _ _ _ _ _ Hscan).
  - destruct Hspec as (_ & [Hall Hl] & ->); [lia|u64_lia|].
    destruct (pg_has_more page) eqn:Hmore; simpl;
      [|eexists _, _; split; [done|]; split_and!; [done|simpl; lia|done]].
    destruct (pg_next_cursor page) as [next|]; [|by eexists _, _].
    destruct (Z.leb_spec (scan_budget (prq_limit req))
      (fs_scanned sc + Z.of_nat (length (pg_items page)))) as [Hle|Hgt].
    + eexists _, _. split; [done|]. split_and!; [done|simpl; lia|by eexists].
    + destruct (pg_items page) as [|it rest] eqn:Hitems; [done|].
      apply IH; [done|done|simpl in *; lia|simpl in *; lia].
Qed.


(** When a store's pages with more after them are not complete, a filtered read that needs a
    second page says it is not complete, even when it reads to the end. *)
Lemma filtered_second_page_incomplete req f fuel : ∀ sc (st st' : St) page,
  fs_complete sc = false → filtered_loop fuel req f sc st = (st', Some (Ok page)) →
  pg_complete page = false.
Proof.
  induction fuel as [|fuel IH]; intros sc st st' page Hc; [done|]. cbn [filtered_loop].
  destruct (pso_read_page _ st) as [st1 [p|e]]; [|done]. rewrite Hc. cbn [andb].
  set (sc' := {| fs_cursor := fs_cursor sc |}).
  destruct (match pg_items p with [] => pg_has_more p | _ => false end); [done|].
  destruct (scan_items _ _ _ _ _ _ _) as [answer|[items scanned]] eqn:Hs.
  - intros [= _ <-]. clear - Hs.
    revert Hs. generalize (fs_items sc') (fs_scanned sc').
    induction (pg_items p) as [|it rest IH]; intros items scanned; cbn [scan_items]; [done|].
    destruct (presence_filter_matches f it); [|apply IH].
    destruct (_ =? _)%Z; [by intros [= <-]|apply IH].
  - destruct (pg_has_more p); simpl; [|by intros [= _ <-]].
    destruct (pg_next_cursor p); [|done]. destruct (_ <=? _)%Z; [by intros [= _ <-]|].
    by apply IH.
Qed.
End any_store.

(** ** The tracking wrapper *)

(** A snapshot is not complete when no page it reads is. *)
Lemma snapshot_incomplete {St} (read : nat → PresenceHistoryReadRequest → St → St * result Error PresenceHistoryPage)
    (P : St → Prop) rq :
  (∀ i cursor st st' answer, P st → read i (snapshot_page_request rq cursor) st = (st', answer) →
     P st' ∧ ∀ page, answer = Ok page → pg_complete page = false) →
  ∀ fuel i cursor v st st' snap, P st →
    snapshot_loop read fuel i rq cursor v st = (st', Some (Ok snap)) → sn_complete snap = false.
Proof.
  intros Hread. induction fuel as [|fuel IH]; intros i cursor v st st' snap HP; [done|].
  cbn [snapshot_loop]. destruct (read i _ st) as [st1 answer] eqn:Hr.
  destruct (Hread _ _ _ _ _ HP Hr) as [HP1 Hc]. destruct answer as [page|e]; [|done].
  destruct (snapshot_items _ _ _) as [v'|]; [|done]. destruct (pg_has_more page).
  - destruct (pg_next_cursor page); [|done]. destruct (snapshot_advances _ _ _ _); [|done].
    by apply IH.
  - intros [= _ Hfin]. apply snapshot_finish_Ok in Hfin as (_ & _ & _ & -> & _). by apply Hc.
Qed.

Section tracking.
Context {St : Type} `{PresenceStore St} (app_id channel : string).
Implicit Types (t : TrackingPresenceHistoryStore St).

(** Any call of the wrapper, or of others on the store below, except a reset of the channel
    that succeeds. *)
Inductive tracking_step t : TrackingPresenceHistoryStore St → Prop :=
| trk_record now record : tracking_step t (tracking_record now record t).1
| trk_read req : tracking_step t (tracking_read_page req t).1
| trk_state a c : tracking_step t (tracking_runtime_state a c t).1
| trk_inspect a c : tracking_step t (tracking_inspection a c t).1
| trk_status : tracking_step t (tracking_status t).1
| trk_reset a c :
    tracking_key a c ≠ tracking_key app_id channel
    ∨ is_ok (pso_reset a c (trk_inner t)).2 = false →
    tracking_step t (tracking_reset a c t).1
| trk_below inner : tracking_step t (with_inner t inner).

Definition marked t : Prop :=
  ∃ state, current_state t app_id channel = Some state ∧ prs_durable_state state ≠ PhHealthy.

Lemma failed_state_marked t before now : prs_durable_state (failed_state t before now) ≠ PhHealthy.
Proof. unfold failed_state. simpl. by destruct (_ >? _)%Z. Qed.

Lemma marked_insert t inner authority key state :
  prs_durable_state state ≠ PhHealthy → marked t →
  marked {| trk_inner := inner; trk_state_authority := authority;
            trk_runtime_states := <[key := state]> (trk_runtime_states t) |}.
Proof.
  intros Hs (state' & Hst & Hn). unfold marked, current_state in *. simpl.
  rewrite lookup_insert. case_decide; eauto.
Qed.

Lemma tracking_step_marked t t' : tracking_step t t' → marked t → marked t'.
Proof.
  intros [now record|req|a c|a c| |a c Hr|inner] Hm; try done.
  - unfold tracking_record. destruct (pso_inspection _ _ _) as [inner [before|e]]; [|done].
    destruct (pso_record _ _) as [inner' [u|e]]; [done|]. simpl.
    by apply marked_insert; [apply failed_state_marked|].
  - unfold tracking_read_page. by destruct (pso_read_page _ _).
  - unfold tracking_runtime_state. by destruct (pso_runtime_state _ _ _).
  - unfold tracking_inspection. by destruct (pso_inspection _ _ _).
  - unfold tracking_status. by destruct (pso_status _).
  - unfold tracking_reset. destruct (pso_reset _ _ _) as [inner [r|e]]; [|done].
    destruct Hr as [Hk|]; [|done]. destruct (pso_runtime_state _ _ _).
    destruct Hm as (state & Hst & Hn). exists state. split; [|done].
    unfold current_state in *. simpl. by rewrite lookup_delete_ne.
Qed.

Lemma tracking_steps_marked t t' : rtc tracking_step t t' → marked t → marked t'.
Proof. induction 1 as [|? ? ? Hs]; [done|]. intros Hm. by apply IHrtc, (tracking_step_marked _ _ Hs). Qed.

Lemma marked_read t t' req page :
  marked t → prq_app_id req = app_id → prq_channel req = channel →
  tracking_read_page req t = (t', Ok page) → pg_complete page = false ∧ pg_degraded page = true.
Proof.
  intros (state & Hst & Hn) Ha Hc. unfold tracking_read_page. rewrite Ha, Hc, Hst.
  destruct (pso_read_page _ _) as [inner [p|e]]; [|done].
  rewrite bool_decide_false by done. by intros [= _ <-].
Qed.


(** A write that fails because the store cannot even be inspected leaves no mark. *)
Lemma uninspected_failure_unmarked now record t inner e :
  pso_inspection (pt_app_id record) (pt_channel record) (trk_inner t) = (inner, Err e) →
  tracking_record now record t = (with_inner t inner, Err e).
Proof. intros Hi. unfold tracking_record. by rewrite Hi. Qed.
End tracking.
