(* ===== verification/PresenceStoreRuns.v ===== *)
(** * Runs of the presence stores

    The theorems on filtered reads and on the tracking wrapper, over the in-memory store. *)

From Stdlib Require Import ZArith Lia.
From stdpp Require Import base gmap strings list pretty relations.
From S2P Require Import Prelude Errors Messages PresenceHistory PresenceSnapshot PresenceHistoryRuns.
From S2P Require Import PresenceStores PresenceStoreThms.

(** ** Filtered reads *)

(** The in-memory store never answers more than was asked for. *)
Lemma memory_pages_bounded `{PayloadCodec} config clock uuid :
  @pages_bounded _ (memory_presence_store config clock uuid).
Proof.
  intros req st st' page Hlim. cbn [pso_read_page memory_presence_store].
  unfold ticked, presence_read_page.
  assert (Hp : ∀ ch, (Z.of_nat (length (pg_items (presence_page req ch))) ≤ prq_limit req)%Z).
  { intros ch. unfold presence_page. cbn [pg_items]. rewrite length_fmap, length_take. lia. }
  destruct (presence_validate req); [|done].
  destruct (mp_store st !! _) as [ch|]; [|intros [= _ <-]; simpl; lia].
  destruct (prq_cursor req) as [c|]; [|by intros [= _ <-]].
  cbn [fst snd]. destruct (bool_decide _); simpl; [|done].
  destruct (none_or _ _); simpl; [|done]. by intros [= _ <-].
Qed.

#[local] Existing Instance plain_codec.

Definition run_store : PresenceStore MemoryPresence :=
  memory_presence_store open_policy (λ n, 1000 + Z.of_nat n)%Z (λ n, "id-" +:+ pretty n).

(** "ada" joins and leaves twice. *)
Definition busy_room : MemoryPresence := {|
  mp_store := report MemberRemoved "c2" (report MemberAdded "c2"
                (report MemberRemoved "c1" (report MemberAdded "c1" ∅)));
  mp_tick := 0 |}.

Definition one_event : PresenceHistoryReadRequest := {|
  prq_app_id := "app"; prq_channel := "presence-room"; prq_direction := PhOldestFirst;
  prq_limit := 1; prq_cursor := None;
  prq_bounds := {| pb_start_serial := None; pb_end_serial := None;
                   pb_start_time_ms := None; pb_end_time_ms := None |} |}.

Definition second_connection : PresenceHistoryFilter := {|
  pf_user_id := Some "ada"; pf_connection_id := Some "c2" |}.


(** The third event is the first of the connection. *)
Lemma filtered_run :
  match (@read_filtered_page _ run_store 10 one_event second_connection busy_room).2 with
  | Some (Ok page) => pi_serial <$> pg_items page
  | _ => []
  end = [3%Z].
Proof. vm_compute. done. Qed.

(** ** A failed write *)

(** A store that cannot encode what it is given. *)
Definition full_disk : PayloadCodec := λ _ _ _, Err "disk full".

Definition broken_store : PresenceStore MemoryPresence :=
  @memory_presence_store full_disk open_policy (λ n, 1000 + Z.of_nat n)%Z (λ n, "id-" +:+ pretty n).

Definition tracked_room : TrackingPresenceHistoryStore MemoryPresence := {|
  trk_inner := busy_room; trk_state_authority := "node"; trk_runtime_states := ∅ |}.

(** "ada" comes back, which is not written. *)
Definition after_failure : TrackingPresenceHistoryStore MemoryPresence :=
  (@tracking_record _ broken_store 2000 (ada MemberAdded "c3") tracked_room).1.

