(* ===== verification/DurablePresence.v ===== *)
(** * The presence history over a history store

    [presence_history/durable.rs]: transitions are the records of a channel of a history
    store; a cache of recent transitions saves reading them back.  The history store is an
    interface, of which the in-memory store is an instance. *)

From Stdlib Require Import ZArith Lia Init.Byte.
From stdpp Require Import base gmap strings list pretty.
From S2P Require Import Prelude Errors Messages HistoryTypes HistoryStore PresenceHistory.

(** ** The history store below *)

Class HistoryBackend (B : Type) := {
  hb_reserve : string → string → B → B * result Error HistoryWriteReservation;
  hb_append : HistoryAppendRecord → B → B * result Error unit;
  hb_read_page : HistoryReadRequest → B → B * result Error HistoryPage;
  hb_runtime_state : string → string → B → B * result Error HistoryStreamRuntimeState;
  hb_inspection : string → string → B → B * result Error HistoryStreamInspection;
  hb_reset : string → string → B → B * result Error HistoryResetResult;
  hb_status : B → B * result Error HistoryRuntimeStatus;
}.

(** The in-memory store with the number of its calls so far, each of which reads the clock
    and draws its UUIDs at its own instant. *)
Record MemoryHistory := { mh_store : MemoryHistoryStore; mh_tick : nat }.

Section memory.
Context (config : MemoryHistoryStoreConfig) (clock : nat → Z) (uuid : nat → string).

Definition history_ticked {A} (m : MemoryHistory) (r : MemoryHistoryStore * A) : MemoryHistory * A :=
  ({| mh_store := r.1; mh_tick := S (mh_tick m) |}, r.2).

#[export] Instance memory_history_backend : HistoryBackend MemoryHistory := {|
  hb_reserve app_id channel m :=
    history_ticked m (reserve_publish_position (uuid (mh_tick m)) app_id channel (mh_store m));
  hb_append r m :=
    history_ticked m (history_append config (uuid (mh_tick m)) (clock (mh_tick m)) r (mh_store m));
  hb_read_page req m := history_ticked m (read_page config (clock (mh_tick m)) req (mh_store m));
  hb_runtime_state app_id channel m :=
    history_ticked m (stream_runtime_state config (uuid (mh_tick m)) (clock (mh_tick m))
                        app_id channel (mh_store m));
  hb_inspection app_id channel m :=
    history_ticked m (stream_inspection config (uuid (mh_tick m)) (clock (mh_tick m))
                        app_id channel (mh_store m));
  hb_reset app_id channel m :=
    history_ticked m (reset_stream (uuid (mh_tick m)) (uuid (S (mh_tick m)))
                        app_id channel (mh_store m));
  hb_status m := (m, history_runtime_status);
|}.
End memory.

(** ** Translations *)

Record DurablePresenceHistoryPayload := {
  dp_published_at_ms : Z;
  dp_event : PresenceHistoryEventKind;
  dp_cause : PresenceHistoryEventCause;
  dp_user_id : string;
  dp_connection_id : option string;
  dp_user_info : option Json;
  dp_dead_node_id : option string;
  dp_dedupe_key : string;
}.

(** The JSON library on payloads; an error is its display text. *)
Class DurableCodec := {
  payload_to_vec : DurablePresenceHistoryPayload → result string (list byte);
  payload_from_slice : list byte → result string DurablePresenceHistoryPayload;
}.

(** What is written reads back. *)
Class DurableCodecLaws `{DurableCodec} : Prop :=
  payload_round_trip p bytes : payload_to_vec p = Ok bytes → payload_from_slice bytes = Ok p.

Implicit Types (record : PresenceHistoryTransitionRecord) (req : PresenceHistoryReadRequest).

Definition durable_channel_name (channel : string) : string := "[presence-history]" +:+ channel.

Definition durable_cache_key (app_id channel : string) : string := app_id +:+ nul +:+ channel.

Definition history_retention record : HistoryRetentionPolicy := {|
  rp_retention_window_seconds := pp_retention_window_seconds (pt_retention record);
  rp_max_messages_per_channel := pp_max_events_per_channel (pt_retention record);
  rp_max_bytes_per_channel := pp_max_bytes_per_channel (pt_retention record) |}.

Definition presence_bounds_to_history (b : PresenceHistoryQueryBounds) : HistoryQueryBounds := {|
  hb_start_serial := pb_start_serial b; hb_end_serial := pb_end_serial b;
  hb_start_time_ms := pb_start_time_ms b; hb_end_time_ms := pb_end_time_ms b |}.

Definition presence_direction_to_history (d : PresenceHistoryDirection) : HistoryDirection :=
  match d with PhNewestFirst => NewestFirst | PhOldestFirst => OldestFirst end.

Definition history_cursor_from_presence req (channel : string) : option HistoryCursor :=
  (λ c, {| hc_version := phc_version c; hc_app_id := phc_app_id c; hc_channel := channel;
           hc_stream_id := phc_stream_id c; hc_serial := phc_serial c;
           hc_direction := presence_direction_to_history (phc_direction c);
           hc_bounds := presence_bounds_to_history (phc_bounds c) |}) <$> prq_cursor req.

Definition history_read_request req (limit : Z) : HistoryReadRequest :=
  let channel := durable_channel_name (prq_channel req) in {|
  hr_app_id := prq_app_id req; hr_channel := channel;
  hr_direction := presence_direction_to_history (prq_direction req); hr_limit := limit;
  hr_cursor := history_cursor_from_presence req channel;
  hr_bounds := presence_bounds_to_history (prq_bounds req) |}.

Definition durable_decode_payload `{DurableCodec} (bytes : list byte)
    : result Error DurablePresenceHistoryPayload :=
  match payload_from_slice bytes with
  | Ok p => Ok p
  | Err e => Err (Serialization ("Failed to decode durable presence history payload: " +:+ e))
  end.

Definition durable_payload record : DurablePresenceHistoryPayload := {|
  dp_published_at_ms := pt_published_at_ms record; dp_event := pt_event_kind record;
  dp_cause := pt_cause record; dp_user_id := pt_user_id record;
  dp_connection_id := pt_connection_id record; dp_user_info := pt_user_info record;
  dp_dead_node_id := pt_dead_node_id record; dp_dedupe_key := pt_dedupe_key record |}.

Definition durable_encode_payload `{DurableCodec} record : result Error (list byte) :=
  match payload_to_vec (durable_payload record) with
  | Ok bytes => Ok bytes
  | Err e => Err (Serialization ("Failed to encode durable presence history payload: " +:+ e))
  end.

Definition decode_item `{DurableCodec} (item : HistoryItem) : result Error PresenceHistoryItem :=
  let? p := durable_decode_payload (hi_payload_bytes item) in
  Ok {| pi_stream_id := hi_stream_id item; pi_serial := hi_serial item;
        pi_published_at_ms := dp_published_at_ms p; pi_event := dp_event p;
        pi_cause := dp_cause p; pi_user_id := dp_user_id p;
        pi_connection_id := dp_connection_id p; pi_dead_node_id := dp_dead_node_id p;
        pi_payload_size_bytes := hi_payload_size_bytes item;
        pi_payload_bytes := String.string_of_list_byte (hi_payload_bytes item) |}.

Definition retained_from_history (r : HistoryRetentionStats) : PresenceHistoryRetentionStats := {|
  ps_stream_id := hs_stream_id r; ps_retained_events := hs_retained_messages r;
  ps_retained_bytes := hs_retained_bytes r; ps_oldest_serial := hs_oldest_serial r;
  ps_newest_serial := hs_newest_serial r;
  ps_oldest_published_at_ms := hs_oldest_published_at_ms r;
  ps_newest_published_at_ms := hs_newest_published_at_ms r |}.

Definition map_runtime_state (channel : string) (state : HistoryStreamRuntimeState)
    : PresenceHistoryStreamRuntimeState := {|
  prs_app_id := hst_app_id state; prs_channel := channel; prs_stream_id := hst_stream_id state;
  prs_durable_state := match hst_durable_state state with
                       | Healthy => PhHealthy | Degraded => PhDegraded
                       | ResetRequired => PhResetRequired end;
  prs_continuity_proven := hst_recovery_allowed state;
  prs_reset_required := hst_reset_required state; prs_reason := hst_reason state;
  prs_node_id := hst_node_id state; prs_last_transition_at_ms := hst_last_transition_at_ms state;
  prs_authoritative_source := hst_authoritative_source state;
  prs_observed_source := hst_observed_source state |}.

Definition map_inspection (app_id channel : string) (i : HistoryStreamInspection)
    : PresenceHistoryStreamInspection := {|
  pin_app_id := app_id; pin_channel := channel; pin_stream_id := hin_stream_id i;
  pin_next_serial := hin_next_serial i; pin_retained := retained_from_history (hin_retained i);
  pin_state := map_runtime_state channel (hin_state i) |}.

Definition event_kind_as_str (k : PresenceHistoryEventKind) : string :=
  match k with
  | MemberAdded => "member_added" | MemberUpdated => "member_updated"
  | MemberRemoved => "member_removed"
  end.

(** ** The cache of transitions *)

Record DurablePresenceTransitionCache := {
  tc_stream_id : option string;
  tc_dedupe_keys : gmap string Z;
  tc_latest_event_by_user : gmap string (PresenceHistoryEventKind * Z);
}.

Definition empty_transition_cache : DurablePresenceTransitionCache := {|
  tc_stream_id := None; tc_dedupe_keys := ∅; tc_latest_event_by_user := ∅ |}.

(** One node: the caches of its channels, over the store that all nodes share. *)
Notation TransitionCaches := (gmap string DurablePresenceTransitionCache).

Implicit Types (caches : TransitionCaches) (c : DurablePresenceTransitionCache).

(** The cache of a channel, cleared when the stream has changed. *)
Definition cache_for_stream (stream_id : option string) c : DurablePresenceTransitionCache :=
  if bool_decide (tc_stream_id c = stream_id) then c
  else {| tc_stream_id := stream_id; tc_dedupe_keys := ∅; tc_latest_event_by_user := ∅ |}.

(** [consult_transition_cache], once the channel is inspected. *)
Definition consult_cache (i : HistoryStreamInspection) record caches
    : TransitionCaches * option (bool * bool) :=
  let key := durable_cache_key (pt_app_id record) (pt_channel record) in
  let oldest := default u64_max (hs_oldest_serial (hin_retained i)) in
  let c := cache_for_stream (hin_stream_id i) (default empty_transition_cache (caches !! key)) in
  let c := {| tc_stream_id := tc_stream_id c;
              tc_dedupe_keys := filter (λ kv, (oldest ≤ kv.2)%Z) (tc_dedupe_keys c);
              tc_latest_event_by_user :=
                filter (λ kv, (oldest ≤ kv.2.2)%Z) (tc_latest_event_by_user c) |} in
  (<[key := c]> caches,
   match tc_dedupe_keys c !! pt_dedupe_key record with
   | Some serial =>
       if (oldest <=? serial)%Z then Some (true, false)
       else match tc_latest_event_by_user c !! pt_user_id record with
            | Some (event, serial) =>
                if (oldest <=? serial)%Z
                then Some (false, bool_decide (event = pt_event_kind record)) else None
            | None => None
            end
   | None =>
       match tc_latest_event_by_user c !! pt_user_id record with
       | Some (event, serial) =>
           if (oldest <=? serial)%Z
           then Some (false, bool_decide (event = pt_event_kind record)) else None
       | None => None
       end
   end).

Definition cache_scanned_transition (app_id channel stream_id : string)
    (p : DurablePresenceHistoryPayload) (serial : Z) caches : TransitionCaches :=
  let key := durable_cache_key app_id channel in
  let c := cache_for_stream (Some stream_id) (default empty_transition_cache (caches !! key)) in
  <[key := {| tc_stream_id := tc_stream_id c;
              tc_dedupe_keys := <[dp_dedupe_key p := serial]> (tc_dedupe_keys c);
              tc_latest_event_by_user :=
                match tc_latest_event_by_user c !! dp_user_id p with
                | Some _ => tc_latest_event_by_user c
                | None => <[dp_user_id p := (dp_event p, serial)]> (tc_latest_event_by_user c)
                end |}]> caches.

Definition cache_appended_transition record (stream_id : string) (serial : Z) caches
    : TransitionCaches :=
  let key := durable_cache_key (pt_app_id record) (pt_channel record) in
  let c := cache_for_stream (Some stream_id) (default empty_transition_cache (caches !! key)) in
  <[key := {| tc_stream_id := tc_stream_id c;
              tc_dedupe_keys := <[pt_dedupe_key record := serial]> (tc_dedupe_keys c);
              tc_latest_event_by_user :=
                <[pt_user_id record := (pt_event_kind record, serial)]>
                  (tc_latest_event_by_user c) |}]> caches.

(** ** Operations *)

Section durable.
Context `{DurableCodec} {B : Type} `{HistoryBackend B}.
Implicit Types (h : B).

Definition durable_runtime_state (app_id channel : string) h
    : B * result Error PresenceHistoryStreamRuntimeState :=
  let '(h, state) := hb_runtime_state app_id (durable_channel_name channel) h in
  (h, rmap (map_runtime_state channel) state).

Definition durable_page req (page : HistoryPage) (state : PresenceHistoryStreamRuntimeState)
    (items : list PresenceHistoryItem) : PresenceHistoryPage := {|
  pg_items := items;
  pg_next_cursor :=
    (λ c : HistoryCursor, {| phc_version := hc_version c; phc_app_id := hc_app_id c;
             phc_channel := prq_channel req; phc_stream_id := hc_stream_id c;
             phc_serial := hc_serial c; phc_direction := prq_direction req;
             phc_bounds := prq_bounds req |}) <$> hp_next_cursor page;
  pg_retained := retained_from_history (hp_retained page);
  pg_has_more := hp_has_more page;
  pg_complete := hp_complete page && prs_continuity_proven state;
  pg_truncated_by_retention := hp_truncated_by_retention page;
  pg_degraded := negb (prs_continuity_proven state) |}.

Definition durable_read_page req h : B * result Error PresenceHistoryPage :=
  match presence_validate req with
  | Err e => (h, Err e)
  | Ok _ =>
      let '(h, page) := hb_read_page (history_read_request req (prq_limit req)) h in
      match page with
      | Err e => (h, Err e)
      | Ok page =>
          let '(h, state) := durable_runtime_state (prq_app_id req) (prq_channel req) h in
          (h, let? state := state in
              let? items := rmapM decode_item (hp_items page) in
              Ok (durable_page req page state items))
      end
  end.

Definition durable_inspection (app_id channel : string) h
    : B * result Error PresenceHistoryStreamInspection :=
  let '(h, i) := hb_inspection app_id (durable_channel_name channel) h in
  (h, rmap (map_inspection app_id channel) i).

(** [find_existing_transition]: the items of a page, newest first.  [inl] is the answer. *)
Fixpoint scan_page record (items : list PresenceHistoryItem) caches
    : TransitionCaches * result Error (bool * bool + unit) :=
  match items with
  | [] => (caches, Ok (inr tt))
  | it :: items =>
      match durable_decode_payload (String.list_byte_of_string (pi_payload_bytes it)) with
      | Err e => (caches, Err e)
      | Ok p =>
          let caches := cache_scanned_transition (pt_app_id record) (pt_channel record)
                          (pi_stream_id it) p (pi_serial it) caches in
          if bool_decide (dp_dedupe_key p = pt_dedupe_key record)
          then (caches, Ok (inl (true, false)))
          else if bool_decide (dp_user_id p = pt_user_id record)
          then (caches, Ok (inl (false, bool_decide (dp_event p = pt_event_kind record))))
          else scan_page record items caches
      end
  end.

Definition scan_page_request record (cursor : option PresenceHistoryCursor)
    : PresenceHistoryReadRequest := {|
  prq_app_id := pt_app_id record; prq_channel := pt_channel record;
  prq_direction := PhNewestFirst; prq_limit := 100; prq_cursor := cursor;
  prq_bounds := {| pb_start_serial := None; pb_end_serial := None;
                   pb_start_time_ms := None; pb_end_time_ms := None |} |}.

Fixpoint scan_loop (fuel : nat) record (cursor : option PresenceHistoryCursor) caches h
    : TransitionCaches * B * option (result Error (bool * bool)) :=
  match fuel with
  | O => (caches, h, None)
  | S fuel =>
      let '(h, page) := durable_read_page (scan_page_request record cursor) h in
      match page with
      | Err e => (caches, h, Some (Err e))
      | Ok page =>
          match scan_page record (pg_items page) caches with
          | (caches, Err e) => (caches, h, Some (Err e))
          | (caches, Ok (inl found)) => (caches, h, Some (Ok found))
          | (caches, Ok (inr _)) =>
              if pg_has_more page
              then scan_loop fuel record (pg_next_cursor page) caches h
              else (caches, h, Some (Ok (false, false)))
          end
      end
  end.

Definition find_existing_transition (fuel : nat) record caches h
    : TransitionCaches * B * option (result Error (bool * bool)) :=
  let '(h, i) := hb_inspection (pt_app_id record) (durable_channel_name (pt_channel record)) h in
  match i with
  | Err e => (caches, h, Some (Err e))
  | Ok i =>
      match consult_cache i record caches with
      | (caches, Some found) => (caches, h, Some (Ok found))
      | (caches, None) => scan_loop fuel record None caches h
      end
  end.

(** The record of the history store for a transition. *)
Definition durable_append_record record (w : HistoryWriteReservation) (bytes : list byte)
    : HistoryAppendRecord := {|
  ha_app_id := pt_app_id record; ha_channel := durable_channel_name (pt_channel record);
  ha_stream_id := hw_stream_id w; ha_serial := hw_serial w;
  ha_published_at_ms := pt_published_at_ms record; ha_message_id := None;
  ha_event_name := Some ("presence:" +:+ event_kind_as_str (pt_event_kind record));
  ha_operation_kind := "append"; ha_payload_bytes := bytes;
  ha_retention := history_retention record |}.

(** [record_transition] without metrics; [None] when the scan runs out of fuel. *)
Definition durable_record_transition (fuel : nat) record caches h
    : TransitionCaches * B * option (result Error unit) :=
  match find_existing_transition fuel record caches h with
  | (caches, h, None) => (caches, h, None)
  | (caches, h, Some (Err e)) => (caches, h, Some (Err e))
  | (caches, h, Some (Ok (found_dedupe, found_same_state))) =>
      if found_dedupe || found_same_state then (caches, h, Some (Ok tt))
      else
        let '(h, w) := hb_reserve (pt_app_id record) (durable_channel_name (pt_channel record)) h in
        match w with
        | Err e => (caches, h, Some (Err e))
        | Ok w =>
            match durable_encode_payload record with
            | Err e => (caches, h, Some (Err e))
            | Ok bytes =>
                let '(h, answer) := hb_append (durable_append_record record w bytes) h in
                match answer with
                | Err e => (caches, h, Some (Err e))
                | Ok _ =>
                    (cache_appended_transition record (hw_stream_id w) (hw_serial w) caches, h,
                     Some (Ok tt))
                end
            end
        end
  end.

Definition durable_reset_stream (app_id channel : string) caches h
    : TransitionCaches * B * result Error PresenceHistoryResetResult :=
  let '(h, r) := hb_reset app_id (durable_channel_name channel) h in
  match r with
  | Err e => (caches, h, Err e)
  | Ok r =>
      (delete (durable_cache_key app_id channel) caches, h,
       Ok {| pre_app_id := app_id; pre_channel := channel;
             pre_previous_stream_id := hrr_previous_stream_id r;
             pre_new_stream_id := hrr_new_stream_id r;
             pre_purged_events := hrr_purged_messages r; pre_purged_bytes := hrr_purged_bytes r;
             pre_inspection := map_inspection app_id channel (hrr_inspection r) |})
  end.

Definition durable_status h : B * result Error PresenceHistoryRuntimeStatus :=
  let '(h, status) := hb_status h in
  (h, rmap (λ status, {|
        pst_enabled := hru_enabled status; pst_backend := hru_backend status;
        pst_state_authority := hru_state_authority status;
        pst_degraded_channels := hru_degraded_channels status;
        pst_reset_required_channels := hru_reset_required_channels status;
        pst_queue_depth := hru_queue_depth status |}) status).
End durable.
