(* ===== verification/DurablePresenceLog.v ===== *)
(** * The log below the durable presence history

    A channel of the history store that holds transitions, what the cache of a node says of
    it, and that both survive eviction and the scan for an earlier transition. *)

From Stdlib Require Import ZArith Lia Init.Byte.
From stdpp Require Import base gmap strings list sorting pretty.
From S2P Require Import Prelude Errors Messages HistoryTypes HistoryStore HistoryPages.
From S2P Require Import PresenceHistory DurablePresence.

Implicit Types (r : HistoryAppendRecord) (l : list HistoryAppendRecord).
Implicit Types (p : DurablePresenceHistoryPayload) (c : DurablePresenceTransitionCache).
Implicit Types (ch : MemoryHistoryChannel) (record : PresenceHistoryTransitionRecord).

(** ** Eviction keeps a suffix *)

Lemma evict_channel_suffix retention now ch :
  hch_stream_id (evict_channel retention now ch) = hch_stream_id ch
  ∧ hch_next_serial (evict_channel retention now ch) = hch_next_serial ch
  ∧ hch_records (evict_channel retention now ch) `suffix_of` hch_records ch.
Proof.
  assert (He : ∀ cutoff l b, (evict_expired cutoff l b).1 `suffix_of` l).
  { intros cutoff. induction l as [|r l IH]; intros b; simpl; [done|].
    case_match; [by apply suffix_cons_r|done]. }
  assert (Hc : ∀ n l b, (evict_count n l b).1 `suffix_of` l).
  { intros n. induction l as [|r l IH]; intros b; cbn [evict_count]; [done|].
    case_match; [by apply suffix_cons_r|done]. }
  assert (Hb : ∀ n l b, (evict_bytes n l b).1 `suffix_of` l).
  { intros n. induction l as [|r l IH]; intros b; cbn [evict_bytes]; case_match; try done.
    by apply suffix_cons_r. }
  unfold evict_channel.
  specialize (He (cutoff_ms retention now) (hch_records ch) (hch_retained_bytes ch)).
  destruct (evict_expired _ _ _) as [l1 b1]. simpl in He.
  destruct (rp_max_messages_per_channel retention) as [n|].
  - specialize (Hc n l1 b1). destruct (evict_count n l1 b1) as [l2 b2]. simpl in Hc.
    destruct (rp_max_bytes_per_channel retention) as [n'|]; simpl; [|by split_and!; try etrans].
    specialize (Hb n' l2 b2). destruct (evict_bytes n' l2 b2) as [l3 b3]. simpl in *.
    split_and!; [done|done|]. by etrans; [|etrans].
  - destruct (rp_max_bytes_per_channel retention) as [n'|]; simpl; [|done].
    specialize (Hb n' l1 b1). destruct (evict_bytes n' l1 b1) as [l3 b3]. simpl in *.
    by split_and!; [| |etrans].
Qed.

Section log.
Context `{DurableCodec}.

(** What a record of the log says. *)
Definition says r p : Prop := payload_from_slice (ha_payload_bytes r) = Ok p.

Lemma says_inj r p p' : says r p → says r p' → p = p'.
Proof. unfold says. congruence. Qed.

(** The newest record of a user. *)
Definition newest_of (u : string) l r p : Prop :=
  r ∈ l ∧ says r p ∧ dp_user_id p = u
  ∧ ∀ r' p', r' ∈ l → says r' p' → dp_user_id p' = u → (ha_serial r' ≤ ha_serial r)%Z.

Record log_wf (stream_id : string) (next : Z) l : Prop := {
  lw_sorted : StronglySorted (serial_lt OldestFirst) l;
  lw_stream : Forall (λ r, ha_stream_id r = stream_id) l;
  lw_below : Forall (λ r, ha_serial r < next)%Z l;
  lw_says : Forall (λ r, ∃ p, says r p) l;
  (** No record repeats the event of its user's previous record. *)
  lw_edges : ∀ pre r post p p' r', l = pre ++ r :: post → says r p →
    newest_of (dp_user_id p) pre r' p' → dp_event p' ≠ dp_event p;
}.

Definition oldest l : Z := default u64_max (ha_serial <$> head l).

(** What a cache says is so, as far as the records are still there. *)
Record cache_true (next : Z) l c : Prop := {
  ct_keys : ∀ k n, tc_dedupe_keys c !! k = Some n →
    (n < next)%Z ∧ ((oldest l ≤ n)%Z → ∃ r p, r ∈ l ∧ says r p ∧ dp_dedupe_key p = k ∧ ha_serial r = n);
  ct_users : ∀ u e n, tc_latest_event_by_user c !! u = Some (e, n) →
    (n < next)%Z ∧ ((oldest l ≤ n)%Z →
      ∃ r p, newest_of u l r p ∧ ha_serial r = n ∧ dp_event p = e);
}.

Definition log_sorted l : Prop := StronglySorted (serial_lt OldestFirst) l.

Lemma log_sorted_app l l' :
  log_sorted (l ++ l') ↔
    (∀ r r', r ∈ l → r' ∈ l' → (ha_serial r < ha_serial r')%Z) ∧ log_sorted l ∧ log_sorted l'.
Proof. apply StronglySorted_app. Qed.

(** A record with a serial that is still retained is retained. *)
Lemma suffix_retained stream_id next l l' r :
  log_wf stream_id next l → (next ≤ u64_max)%Z → l' `suffix_of` l → r ∈ l →
  (oldest l' ≤ ha_serial r)%Z → r ∈ l'.
Proof.
  intros Hwf Hnext [gone ->] [Hr|Hr]%elem_of_app Hold; [|done]. exfalso.
  destruct l' as [|h t]; unfold oldest in Hold; simpl in Hold.
  - pose proof (lw_below _ _ _ Hwf) as Hb. rewrite Forall_forall in Hb.
    specialize (Hb r). rewrite app_nil_r in Hb. specialize (Hb Hr). lia.
  - destruct (proj1 (log_sorted_app _ _) (lw_sorted _ _ _ Hwf)) as [Hlt _].
    specialize (Hlt r h Hr ltac:(left)). lia.
Qed.

Lemma newest_suffix u l l' r p : l' `suffix_of` l → r ∈ l' → newest_of u l r p → newest_of u l' r p.
Proof.
  intros [gone ->] Hr (_ & Hs & Hu & Hmax). split_and!; try done.
  intros r' p' Hr'. apply Hmax. apply elem_of_app. by right.
Qed.

Lemma newest_unsuffix u l l' r p :
  log_sorted l → l' `suffix_of` l → newest_of u l' r p → newest_of u l r p.
Proof.
  intros Hwf [gone ->] (Hr & Hs & Hu & Hmax). split_and!; try done.
  - apply elem_of_app. by right.
  - intros r' p' [Hr'|Hr']%elem_of_app Hs' Hu'; [|by eapply Hmax].
    apply log_sorted_app in Hwf as [Hlt _]. specialize (Hlt r' r Hr' Hr). lia.
Qed.

Lemma log_wf_suffix stream_id next l l' :
  log_wf stream_id next l → l' `suffix_of` l → log_wf stream_id next l'.
Proof.
  intros [Hso Hst Hb Hsay He] [gone ->].
  apply Forall_app in Hst as [_ ?], Hb as [_ ?], Hsay as [_ ?].
  constructor; [by destruct (proj1 (log_sorted_app _ _) Hso) as (_ & _ & ?)|done|done|done|].
  intros pre r post p p' r' -> Hs Hn.
  apply (He (gone ++ pre) r post p p' r'); [by rewrite <-app_assoc|done|].
  apply (newest_unsuffix _ _ pre); [|by exists gone|done].
  rewrite app_assoc in Hso. by destruct (proj1 (log_sorted_app _ _) Hso) as (_ & ? & _).
Qed.

Lemma oldest_suffix stream_id next l l' :
  log_wf stream_id next l → (next ≤ u64_max)%Z → l' `suffix_of` l → (oldest l ≤ oldest l')%Z.
Proof.
  intros [Hso _ Hb _ _] Hnext [gone ->]. destruct gone as [|g gone]; [done|].
  apply Forall_cons in Hb as [Hg _]. destruct l' as [|h t]; unfold oldest; simpl; [lia|].
  destruct (proj1 (log_sorted_app (g :: gone) _) Hso) as [Hlt _].
  specialize (Hlt g h ltac:(left) ltac:(left)). lia.
Qed.

Lemma cache_true_suffix stream_id next l l' c :
  log_wf stream_id next l → (next ≤ u64_max)%Z → l' `suffix_of` l →
  cache_true next l c → cache_true next l' c.
Proof.
  intros Hwf Hnext Hsuf [Hk Hu]. pose proof (oldest_suffix _ _ _ _ Hwf Hnext Hsuf).
  constructor.
  - intros k n Hn. destruct (Hk k n Hn) as [? Hin]. split; [done|]. intros Hold.
    destruct Hin as (r & p & Hr & Hs & Hkey & Hser); [lia|].
    exists r, p. split_and!; try done. eapply suffix_retained; try done. lia.
  - intros u e n Hn. destruct (Hu u e n Hn) as [? Hin]. split; [done|]. intros Hold.
    destruct Hin as (r & p & Hnew & Hser & Hev); [lia|].
    exists r, p. split_and!; try done. eapply newest_suffix; try done.
    eapply suffix_retained; try done; [apply Hnew|lia].
Qed.

Lemma newest_unique stream_id next l u r p r' p' :
  log_wf stream_id next l → newest_of u l r p → newest_of u l r' p' → r = r' ∧ p = p'.
Proof.
  intros [Hso _ _ _ _] (Hr & Hs & Hu & Hmax) (Hr' & Hs' & Hu' & Hmax').
  assert (r = r') as ->; [|split; [done|by eapply says_inj]].
  pose proof (Hmax _ _ Hr' Hs' Hu') as H1. pose proof (Hmax' _ _ Hr Hs Hu) as H2.
  clear -Hso Hr Hr' H1 H2. induction Hso as [|h t _ IH Hh]; [by apply elem_of_nil in Hr|].
  rewrite Forall_forall in Hh. unfold serial_lt in Hh.
  apply elem_of_cons in Hr as [->|Hr], Hr' as [->|Hr']; try done.
  - specialize (Hh _ Hr'). lia.
  - specialize (Hh _ Hr). lia.
  - by apply IH.
Qed.

(** ** The empty log and a log with one more record *)

Lemma log_wf_nil stream_id next : log_wf stream_id next [].
Proof. constructor; try constructor. intros [] *; discriminate. Qed.

Lemma empty_cache_true next l : cache_true next l empty_transition_cache.
Proof. constructor; intros *; simpl; rewrite lookup_empty; discriminate. Qed.

Lemma log_wf_next stream_id next next' l :
  (next ≤ next')%Z → log_wf stream_id next l → log_wf stream_id next' l.
Proof.
  intros Hle [? ? Hb ? ?]. constructor; try done.
  eapply Forall_impl; [exact Hb|]. simpl. lia.
Qed.

Lemma cache_true_next next next' l c :
  (next ≤ next')%Z → cache_true next l c → cache_true next' l c.
Proof.
  intros Hle [Hk Hu]. constructor.
  - intros k n Hn. destruct (Hk k n Hn). split; [lia|done].
  - intros u e n Hn. destruct (Hu u e n Hn). split; [lia|done].
Qed.

Lemma log_wf_snoc stream_id next l r p :
  log_wf stream_id next l → ha_stream_id r = stream_id → ha_serial r = next → says r p →
  (∀ r' p', newest_of (dp_user_id p) l r' p' → dp_event p' ≠ dp_event p) →
  log_wf stream_id (next + 1) (l ++ [r]).
Proof.
  intros [Hso Hst Hb Hsay He] Hstream Hser Hs Hdiff. constructor.
  - apply log_sorted_app. split_and!; [|done|by repeat constructor].
    intros r1 r2 H1 ->%list_elem_of_singleton. rewrite Forall_forall in Hb.
    specialize (Hb _ H1). lia.
  - by apply Forall_app_2; [|constructor].
  - apply Forall_app_2; [|constructor; [lia|done]]. eapply Forall_impl; [exact Hb|]. simpl. lia.
  - apply Forall_app_2; [done|]. constructor; [by exists p|done].
  - intros pre r1 post p1 p' r' Heq Hs1 Hn.
    destruct post as [|x post _] using rev_ind.
    + apply app_inj_tail in Heq as [-> ->]. replace p1 with p by by eapply says_inj.
      apply (Hdiff r'). by replace p with p1 by by eapply says_inj.
    + rewrite app_comm_cons, app_assoc in Heq. apply app_inj_tail in Heq as [-> ->].
      by eapply (He pre r1 post).
Qed.

(** ** Learning of a record *)

(** The cache knows the users of these records. *)
Definition covers c l : Prop :=
  ∀ r p, r ∈ l → says r p → is_Some (tc_latest_event_by_user c !! dp_user_id p).

Definition scanned_cache p (serial : Z) c : DurablePresenceTransitionCache := {|
  tc_stream_id := tc_stream_id c;
  tc_dedupe_keys := <[dp_dedupe_key p := serial]> (tc_dedupe_keys c);
  tc_latest_event_by_user :=
    match tc_latest_event_by_user c !! dp_user_id p with
    | Some _ => tc_latest_event_by_user c
    | None => <[dp_user_id p := (dp_event p, serial)]> (tc_latest_event_by_user c)
    end |}.

Lemma scanned_covers p n c newer r :
  covers c newer → says r p → covers (scanned_cache p n c) (r :: newer).
Proof.
  intros Hcov Hs r' p' [->|Hr']%elem_of_cons Hs'; simpl.
  - replace p' with p by by eapply says_inj.
    destruct (tc_latest_event_by_user c !! dp_user_id p) eqn:E; [by rewrite E|].
    by rewrite lookup_insert_eq.
  - specialize (Hcov r' p' Hr' Hs'). destruct (tc_latest_event_by_user c !! dp_user_id p) eqn:E; [done|].
    rewrite lookup_insert. case_decide; [done|done].
Qed.

(** A record with no later record of its user is that user's newest. *)
Lemma newest_at stream_id next older r newer p :
  log_wf stream_id next (older ++ r :: newer) → says r p →
  (∀ r' p', r' ∈ newer → says r' p' → dp_user_id p' ≠ dp_user_id p) →
  newest_of (dp_user_id p) (older ++ r :: newer) r p.
Proof.
  intros Hwf Hs Hnone. split_and!; [set_solver|done|done|].
  intros r' p' [Hr'|[->|Hr']%elem_of_cons]%elem_of_app Hs' Hu; [|done|].
  - destruct (proj1 (log_sorted_app _ _) (lw_sorted _ _ _ Hwf)) as [Hlt _].
    specialize (Hlt r' r Hr' ltac:(left)). lia.
  - by destruct (Hnone r' p' Hr' Hs').
Qed.

Lemma scanned_true stream_id next older r newer c p :
  log_wf stream_id next (older ++ r :: newer) → cache_true next (older ++ r :: newer) c →
  covers c newer → says r p →
  cache_true next (older ++ r :: newer) (scanned_cache p (ha_serial r) c).
Proof.
  intros Hwf [Hk Hu] Hcov Hs.
  assert (ha_serial r < next)%Z.
  { pose proof (lw_below _ _ _ Hwf) as Hb. rewrite Forall_forall in Hb. apply Hb. set_solver. }
  constructor; simpl.
  - intros k n. rewrite lookup_insert. case_decide as Hkk; [|by apply Hk].
    intros [= <-]. split; [done|]. intros _. exists r, p. split_and!; try done. set_solver.
  - intros u e n. destruct (tc_latest_event_by_user c !! dp_user_id p) eqn:E; [by apply Hu|].
    rewrite lookup_insert. case_decide as Hkk; [|by apply Hu].
    intros [= <- <-]. split; [done|]. intros _. exists r, p. rewrite <-Hkk.
    split_and!; try done. eapply newest_at; [done|done|]. intros r' p' Hr' Hs' Heq.
    destruct (Hcov r' p' Hr' Hs') as [x Hx]. rewrite Heq in Hx. congruence.
Qed.

(** The cache after this node appended [r]. *)
Lemma appended_true stream_id next l r p c :
  log_wf stream_id next l → (next ≤ u64_max)%Z → ha_serial r = next → says r p →
  cache_true next l c →
  cache_true (next + 1) (l ++ [r]) {|
    tc_stream_id := tc_stream_id c;
    tc_dedupe_keys := <[dp_dedupe_key p := next]> (tc_dedupe_keys c);
    tc_latest_event_by_user := <[dp_user_id p := (dp_event p, next)]> (tc_latest_event_by_user c) |}.
Proof.
  intros Hwf Hnext Hser Hs [Hk Hu].
  assert (Hold : ∀ n, (n < next)%Z → (oldest (l ++ [r]) ≤ n)%Z → (oldest l ≤ n)%Z).
  { intros n Hn. destruct l; unfold oldest; simpl; [rewrite Hser; lia|done]. }
  pose proof (lw_below _ _ _ Hwf) as Hb. rewrite Forall_forall in Hb.
  constructor; simpl.
  - intros k n. rewrite lookup_insert. case_decide as Hkk.
    + intros [= <-]. split; [lia|]. intros _. exists r, p. split_and!; try done. set_solver.
    + intros [Hlt Hin]%Hk. split; [lia|]. intros (r' & p' & ? & ?)%Hold%Hin; [|done].
      exists r', p'. split; [set_solver|done].
  - intros u e n. rewrite lookup_insert. case_decide as Hkk.
    + intros [= <- <-]. split; [lia|]. intros _. exists r, p. unfold newest_of.
      split_and!; try done; [set_solver|].
      intros r' p' [Hr'%Hb | ->%list_elem_of_singleton]%elem_of_app _ _; lia.
    + intros [Hlt Hin]%Hu. split; [lia|].
      intros (r' & p' & (Hr' & Hs' & Hu' & Hmax) & ? & ?)%Hold%Hin; [|done].
      exists r', p'. unfold newest_of. split_and!; try done; [set_solver|].
      intros r2 p2 [Hr2 | ->%list_elem_of_singleton]%elem_of_app Hs2 Hu2; [by eapply Hmax|].
      destruct Hkk. by replace p with p2 by by eapply says_inj.
Qed.
End log.
