(* ===== verification/DurablePresenceThms.v ===== *)
(** * The durable presence history on one node

    One node over the in-memory history store: its cache never misleads it, so it records
    exactly the transitions that change the state of a user, and every call ends. *)

From Stdlib Require Import ZArith Lia Init.Byte.
From stdpp Require Import base gmap strings list sorting pretty relations.
From S2P Require Import Prelude Errors Messages HistoryTypes HistoryStore HistoryPages.
From S2P Require Import PresenceHistory DurablePresence DurablePresenceLog.

Implicit Types (r : HistoryAppendRecord) (l : list HistoryAppendRecord).
Implicit Types (p : DurablePresenceHistoryPayload) (c : DurablePresenceTransitionCache).
Implicit Types (ch : MemoryHistoryChannel) (record : PresenceHistoryTransitionRecord).
Implicit Types (caches : gmap string DurablePresenceTransitionCache) (m : MemoryHistory).

Section node.
Context `{DurableCodec} (config : MemoryHistoryStoreConfig) (clock : nat → Z) (uuid : nat → string).
Context (app_id channel : string).

#[local] Existing Instance memory_history_backend.
#[local] Instance backend : HistoryBackend MemoryHistory := memory_history_backend config clock uuid.

Definition log_key : string := history_key app_id (durable_channel_name channel).
Definition node_key : string := durable_cache_key app_id channel.

(** The log of the channel: its stream, its next serial and its records. *)
Definition holds m (stream_id : string) (next : Z) l : Prop :=
  ∃ ch, mh_store m !! log_key = Some ch ∧ hch_stream_id ch = stream_id
        ∧ hch_next_serial ch = next ∧ hch_records ch = l.

(** The node's cache of the channel. *)
Definition knows caches (stream_id : string) (next : Z) l : Prop :=
  ∃ c, caches !! node_key = Some c ∧ tc_stream_id c = Some stream_id ∧ cache_true next l c.

(** ** Reads evict *)

Lemma holds_evicted m stream_id next l now tick :
  holds m stream_id next l →
  ∃ ch l', evict_now config now <$> (mh_store m !! log_key) = Some ch ∧ l' `suffix_of` l ∧
    hch_records ch = l' ∧ hch_stream_id ch = stream_id ∧
    holds {| mh_store := <[log_key := ch]> (mh_store m); mh_tick := tick |} stream_id next l'.
Proof.
  intros (ch & Hch & <- & <- & <-). rewrite Hch.
  destruct (evict_channel_suffix (channel_retention config ch) now ch) as (Hs & Hn & Hl).
  eexists _, _. split_and!; [done|exact Hl|done|done|].
  eexists. split; [simpl; by rewrite lookup_insert_eq|done].
Qed.
(** ** A page of the scan *)

(** What the next page of the scan is about: the records before the cursor. *)
Definition before (cursor : option PresenceHistoryCursor) r : bool :=
  match cursor with Some c => (ha_serial r <? phc_serial c)%Z | None => true end.

Definition scan_cursor (stream_id : string) (cursor : option PresenceHistoryCursor) : Prop :=
  ∀ c : PresenceHistoryCursor, cursor = Some c →
    phc_version c = 1%Z ∧ phc_app_id c = app_id ∧ phc_channel c = channel
    ∧ phc_stream_id c = stream_id ∧ phc_direction c = PhNewestFirst
    ∧ phc_bounds c = {| pb_start_serial := None; pb_end_serial := None;
                        pb_start_time_ms := None; pb_end_time_ms := None |}.

Lemma before_split cursor l :
  StronglySorted (serial_lt OldestFirst) l →
  ∃ newer, l = filter (λ r, before cursor r = true) l ++ newer
           ∧ Forall (λ r, before cursor r = false) newer.
Proof.
  induction 1 as [|r l Hs (newer & IH & Hn) Hr]; [by exists []|].
  destruct (before cursor r) eqn:E.
  - rewrite filter_cons_True by done. exists newer. simpl. by rewrite <-IH.
  - exists (r :: l). rewrite filter_cons_False by congruence.
    assert (Hall : Forall (λ r', before cursor r' = false) l).
    { destruct cursor as [c|]; [|done]. simpl in *. eapply Forall_impl; [exact Hr|].
      simpl. intros r' Hlt. apply Z.ltb_ge in E. apply Z.ltb_ge. lia. }
    assert (filter (λ r, before cursor r = true) l = []) as ->; [|by auto].
    apply list_filter_none. eapply Forall_impl; [exact Hall|]. simpl. congruence.
Qed.

Definition presence_item r p : PresenceHistoryItem := {|
  pi_stream_id := ha_stream_id r; pi_serial := ha_serial r;
  pi_published_at_ms := dp_published_at_ms p; pi_event := dp_event p;
  pi_cause := dp_cause p; pi_user_id := dp_user_id p;
  pi_connection_id := dp_connection_id p; pi_dead_node_id := dp_dead_node_id p;
  pi_payload_size_bytes := payload_len r;
  pi_payload_bytes := String.string_of_list_byte (ha_payload_bytes r) |}.

Definition item_of r (it : PresenceHistoryItem) : Prop := ∃ p, says r p ∧ it = presence_item r p.

Lemma decode_items rs :
  Forall (λ r, ∃ p, says r p) rs →
  ∃ its, rmapM decode_item (history_item <$> rs) = Ok its ∧ Forall2 item_of rs its.
Proof.
  induction 1 as [|r rs [p Hp] _ (its & IH & Hits)]; [by exists []|].
  exists (presence_item r p :: its). split; [|constructor; [by exists p|done]].
  rewrite fmap_cons. cbn [rmapM]. rewrite IH. unfold decode_item, durable_decode_payload. simpl.
  unfold says in Hp. by rewrite Hp.
Qed.
Definition scan_request record (cursor : option PresenceHistoryCursor) : HistoryReadRequest :=
  history_read_request (scan_page_request record cursor) 100.

Definition todo (cursor : option PresenceHistoryCursor) l : list HistoryAppendRecord :=
  filter (λ r, before cursor r = true) l.

Lemma scan_history_page record cursor ch :
  scan_cursor (hch_stream_id ch) cursor →
  Forall (λ r, ha_stream_id r = hch_stream_id ch) (hch_records ch) →
  let page := history_page (scan_request record cursor) ch in
  let rs := reverse (todo cursor (hch_records ch)) in
  hp_items page = history_item <$> take 100 rs
  ∧ hp_has_more page = (100 <? length rs)%nat.
Proof.
  intros Hcur Hst. cbn zeta. unfold history_page. cbn [hp_items hp_has_more].
  assert (Hm : filter (λ r, history_matcher (scan_request record cursor) r = true)
                 (in_direction (hr_direction (scan_request record cursor)) (hch_records ch))
               = reverse (todo cursor (hch_records ch))).
  { unfold todo. rewrite <-filter_reverse. simpl. apply list_filter_ext.
    apply Forall_reverse in Hst. rewrite Forall_forall in Hst.
    intros r Hr. specialize (Hst r Hr). unfold history_matcher, within_bounds, past_cursor. simpl.
    destruct cursor as [c|]; [|done]. destruct (Hcur c eq_refl) as (_ & _ & _ & Hs & _).
    simpl. rewrite Hs, bool_decide_true by done. done. }
  rewrite Hm. change (hr_limit (scan_request record cursor)) with 100%Z.
  replace (Z.to_nat (u64_wrap (100 + 1))) with 101%nat by done.
  replace (Z.to_nat 100) with 100%nat by done.
  rewrite take_take, length_take. split; [done|].
  generalize (length (reverse (todo cursor (hch_records ch)))). intros n. rewrite Z.gtb_ltb.
  destruct (Nat.ltb_spec 100 n); [apply Z.ltb_lt|apply Z.ltb_ge]; lia.
Qed.
(** What a page of the scan answers: its items are a chunk of the log [l], newest first, before
    everything that was read already. *)
Record scanned_chunk (stream_id : string) (cursor : option PresenceHistoryCursor) l
    (older chunk newer : list HistoryAppendRecord) (page : PresenceHistoryPage) : Prop := {
  sk_split : l = older ++ reverse chunk ++ newer;
  sk_newer : Forall (λ r, before cursor r = false) newer;
  sk_todo : todo cursor l = older ++ reverse chunk;
  sk_items : Forall2 item_of chunk (pg_items page);
  sk_last : pg_has_more page = false → older = [];
  sk_next : pg_has_more page = true →
    ∃ r chunk' (cur : PresenceHistoryCursor), chunk = chunk' ++ [r] ∧ pg_next_cursor page = Some cur ∧
      phc_serial cur = ha_serial r ∧ scan_cursor stream_id (pg_next_cursor page);
}.

Lemma scan_validates stream_id record cursor :
  pt_app_id record = app_id → pt_channel record = channel → scan_cursor stream_id cursor →
  presence_validate (scan_page_request record cursor) = Ok tt
  ∧ history_read_validate (scan_request record cursor) = Ok tt.
Proof.
  intros Happ Hchan Hcur.
  destruct cursor as [c'|]; [|done]. destruct (Hcur c' eq_refl) as (Hv & Ha & Hc & _ & Hd & Hb).
  unfold presence_validate, history_read_validate, scan_request, history_read_request.
  cbn [prq_limit prq_bounds prq_cursor prq_app_id prq_channel prq_direction scan_page_request
    hr_limit hr_bounds hr_cursor hr_app_id hr_channel hr_direction history_cursor_from_presence
    hc_version hc_app_id hc_channel hc_direction hc_bounds fmap option_fmap option_map].
  rewrite Hv, Ha, Hc, Hd, Hb, Happ, Hchan, !bool_decide_true by done. done.
Qed.

Lemma scanned_page stream_id next record cursor ch state :
  pt_app_id record = app_id → pt_channel record = channel →
  log_wf stream_id next (hch_records ch) → hch_stream_id ch = stream_id →
  scan_cursor stream_id cursor →
  let page := history_page (scan_request record cursor) ch in
  ∃ its older chunk newer, rmapM decode_item (hp_items page) = Ok its ∧
    scanned_chunk stream_id cursor (hch_records ch) older chunk newer
      (durable_page (scan_page_request record cursor) page state its).
Proof.
  intros Happ Hchan Hwf <- Hcur. cbn zeta.
  destruct (scan_history_page record cursor ch Hcur (lw_stream _ _ _ Hwf)) as [Hitems Hmore].
  destruct (before_split cursor _ (lw_sorted _ _ _ Hwf)) as (newer & Hsplit & Hnewer).
  fold (todo cursor (hch_records ch)) in Hsplit.
  set (rs := reverse (todo cursor (hch_records ch))) in *.
  assert (Htodo : todo cursor (hch_records ch) = reverse (drop 100 rs) ++ reverse (take 100 rs)).
  { rewrite <-reverse_app, take_drop. unfold rs. by rewrite reverse_involutive. }
  destruct (decode_items (take 100 rs)) as (its & Hdec & Hits).
  { apply Forall_take, Forall_reverse. pose proof (lw_says _ _ _ Hwf) as Hs.
    rewrite Forall_forall in Hs |- *. intros r [_ Hr]%list_elem_of_filter. by apply Hs. }
  exists its, (reverse (drop 100 rs)), (take 100 rs), newer. rewrite Hitems.
  split; [done|]. constructor; try done.
  - rewrite Hsplit at 1. rewrite Htodo. by rewrite <-app_assoc.
  - cbn [durable_page pg_has_more]. rewrite Hmore. intros Hn%Nat.ltb_ge.
    rewrite drop_ge by done. done.
  - cbn [durable_page pg_has_more pg_next_cursor]. intros Hm. pose proof Hm as Hlen.
    rewrite Hmore in Hlen. apply Nat.ltb_lt in Hlen.
    destruct (take 100 rs) as [|r chunk' _] eqn:Hc using rev_ind.
    { apply (f_equal length) in Hc. rewrite length_take in Hc. cbn [length] in Hc. lia. }
    unfold history_page in Hm, Hitems |- *. cbn [hp_next_cursor hp_has_more hp_items] in *.
    rewrite Hm, Hitems, fmap_app. change (history_item <$> [r]) with [history_item r].
    rewrite last_snoc. eexists r, chunk', _. split_and!; try done.
    intros c' [= <-]. unfold scan_request, history_read_request, scan_page_request.
    cbn [phc_version phc_app_id phc_channel phc_stream_id phc_direction phc_bounds hc_version
      hc_app_id hc_stream_id hr_app_id prq_app_id prq_channel prq_direction prq_bounds
      history_item hi_stream_id].
    rewrite Happ, Hchan. split_and!; try done.
    pose proof (lw_stream _ _ _ Hwf) as Hs. rewrite Forall_forall in Hs. apply Hs.
    rewrite Hsplit, Htodo. set_solver.
Qed.
(** The calls of the store below that only look at the channel. *)
Lemma state_reads m stream_id next l :
  holds m stream_id next l →
  ∃ m' l' state, durable_runtime_state app_id channel m = (m', Ok state) ∧
    l' `suffix_of` l ∧ holds m' stream_id next l'.
Proof.
  intros Hm.
  destruct (holds_evicted m stream_id next l (clock (mh_tick m)) (S (mh_tick m)) Hm)
    as (ch1 & l1 & Hev & Hs1 & _ & _ & Hm1).
  unfold durable_runtime_state. cbn [hb_runtime_state backend memory_history_backend].
  unfold history_ticked, stream_runtime_state, history_entry. fold log_key.
  destruct (mh_store m !! log_key) as [ch|]; [|done]. injection Hev as Hev.
  cbn [default from_option id fst snd]. rewrite Hev. by eexists _, l1, _.
Qed.

Lemma scan_read m stream_id next l record cursor :
  pt_app_id record = app_id → pt_channel record = channel →
  holds m stream_id next l → log_wf stream_id next l → scan_cursor stream_id cursor →
  ∃ m' l1 l2 answer, durable_read_page (scan_page_request record cursor) m = (m', answer) ∧
    l1 `suffix_of` l ∧ l2 `suffix_of` l1 ∧ holds m' stream_id next l2 ∧
    ∀ page, answer = Ok page →
      ∃ older chunk newer, scanned_chunk stream_id cursor l1 older chunk newer page.
Proof.
  intros Happ Hchan Hm Hwf Hcur. unfold durable_read_page.
  destruct (scan_validates stream_id record cursor Happ Hchan Hcur) as [-> Hv].
  destruct (holds_evicted m stream_id next l (clock (mh_tick m)) (S (mh_tick m)) Hm)
    as (ch1 & l1 & Hev & Hs1 & <- & Hst & Hm1).
  destruct (mh_store m !! log_key) as [ch|] eqn:Hch; [|done]. injection Hev as Hev.
  cbn [hb_read_page backend memory_history_backend]. unfold history_ticked, read_page.
  change (history_read_request _ _) with (scan_request record cursor). rewrite Hv.
  change (hr_app_id _) with (pt_app_id record).
  change (hr_channel _) with (durable_channel_name (pt_channel record)).
  change (prq_app_id _) with (pt_app_id record). change (prq_channel _) with (pt_channel record).
  rewrite Happ, Hchan. fold log_key. rewrite Hch, Hev. cbn [fst snd].
  destruct (cursor_expired _ ch1) as [e|].
  { eexists _, _, _, _. split_and!; [done|done|done|done|]. discriminate. }
  destruct (state_reads _ _ _ _ Hm1) as (m2 & l2 & state & -> & Hs2 & Hm2).
  destruct (scanned_page stream_id next record cursor ch1 state Happ Hchan)
    as (its & older & chunk & newer & Hdec & Hchunk); [by eapply log_wf_suffix|done|done|].
  eexists _, _, l2, _. split_and!; [done|done|done|done|]. cbn [rbind]. rewrite Hdec. cbn [rbind].
  intros page [= <-]. by exists older, chunk, newer.
Qed.

(** ** The scan *)

(** What the search for an earlier transition of the user answers about a log. *)
Definition verdict record l (found : bool * bool) : Prop :=
  match found with
  | (true, _) => ∃ r p, r ∈ l ∧ says r p ∧ dp_dedupe_key p = pt_dedupe_key record
  | (false, true) => ∃ r p, newest_of (pt_user_id record) l r p ∧ dp_event p = pt_event_kind record
  | (false, false) =>
      ∀ r p, newest_of (pt_user_id record) l r p → dp_event p ≠ pt_event_kind record
  end.

(** The node knows the log, and the users of the records [seen], none of which is the user
    of the transition. *)
Definition seen record caches (stream_id : string) (next : Z) l
    (newer : list HistoryAppendRecord) : Prop :=
  (∃ c, caches !! node_key = Some c ∧ tc_stream_id c = Some stream_id
        ∧ cache_true next l c ∧ covers c newer)
  ∧ ∀ r p, r ∈ newer → says r p → dp_user_id p ≠ pt_user_id record.

Lemma scan_item caches stream_id next older r newer p :
  log_wf stream_id next (older ++ r :: newer) → says r p →
  (∃ c, caches !! node_key = Some c ∧ tc_stream_id c = Some stream_id
        ∧ cache_true next (older ++ r :: newer) c ∧ covers c newer) →
  ∃ c, cache_scanned_transition app_id channel (ha_stream_id r) p (ha_serial r) caches !! node_key
       = Some c ∧ tc_stream_id c = Some stream_id
       ∧ cache_true next (older ++ r :: newer) c ∧ covers c (r :: newer).
Proof.
  intros Hwf Hs (c & Hc & Hst & Htrue & Hcov).
  assert (ha_stream_id r = stream_id) as Hr.
  { pose proof (lw_stream _ _ _ Hwf) as Hall. rewrite Forall_forall in Hall. apply Hall. set_solver. }
  exists (scanned_cache p (ha_serial r) c). unfold cache_scanned_transition. fold node_key.
  rewrite Hc, Hr. cbn [default from_option id]. unfold cache_for_stream.
  rewrite bool_decide_true by done. rewrite lookup_insert_eq.
  split_and!; [done|done|by eapply scanned_true|by eapply scanned_covers].
Qed.
Lemma reverse_cons_split (older chunk newer : list HistoryAppendRecord) r :
  older ++ reverse (r :: chunk) ++ newer = (older ++ reverse chunk) ++ r :: newer.
Proof. by rewrite reverse_cons, <-!app_assoc. Qed.

Lemma scan_page_spec record stream_id next l older chunk newer its caches :
  pt_app_id record = app_id → pt_channel record = channel →
  log_wf stream_id next l → l = older ++ reverse chunk ++ newer → Forall2 item_of chunk its →
  seen record caches stream_id next l newer →
  ∃ caches' out, scan_page record its caches = (caches', Ok out)
    ∧ knows caches' stream_id next l
    ∧ match out with
      | inl found => verdict record l found
      | inr _ => seen record caches' stream_id next l (reverse chunk ++ newer)
      end.
Proof.
  intros Happ Hchan Hwf Hl Hits. revert newer caches Hl.
  induction Hits as [|r it chunk its (p & Hs & ->) _ IH]; intros newer caches Hl Hseen.
  { exists caches, (inr tt). split_and!; [done| |done].
    destruct Hseen as [(c & ? & ? & ? & _) _]. by exists c. }
  rewrite reverse_cons_split in Hl. pose proof Hseen as [Hknow Hother].
  cbn [scan_page presence_item pi_payload_bytes pi_stream_id pi_serial].
  rewrite String.list_byte_of_string_of_list_byte. unfold durable_decode_payload.
  unfold says in Hs. rewrite Hs. rewrite Happ, Hchan. fold (says r p) in Hs.
  rewrite Hl in Hknow, Hwf.
  destruct (scan_item caches stream_id next _ r newer p Hwf Hs Hknow) as (c & Hc & Hst & Htrue & Hcov).
  rewrite <-Hl in *. set (caches1 := cache_scanned_transition _ _ _ _ _ _) in *.
  destruct (decide (dp_dedupe_key p = pt_dedupe_key record)) as [Hk|Hk].
  { rewrite bool_decide_true by done. eexists _, _. split_and!; [done|by exists c|].
    exists r, p. rewrite Hl. split_and!; [set_solver|done|done]. }
  rewrite (bool_decide_false (dp_dedupe_key p = _)) by done.
  destruct (decide (dp_user_id p = pt_user_id record)) as [Hu|Hu].
  - rewrite bool_decide_true by done. eexists _, _. split_and!; [done|by exists c|].
    assert (Hn : newest_of (pt_user_id record) l r p).
    { rewrite Hl in Hwf |- *. rewrite <-Hu in Hother |- *. by eapply newest_at. }
    destruct (decide (dp_event p = pt_event_kind record)) as [He|He].
    + rewrite bool_decide_true by done. by exists r, p.
    + rewrite bool_decide_false by done. intros r' p' Hn'.
      by destruct (newest_unique _ _ _ _ _ _ _ _ Hwf Hn Hn') as [_ <-].
  - rewrite bool_decide_false by done.
    destruct (IH (r :: newer) caches1) as (caches' & out & Hrun & Hkn & Hout).
    + rewrite Hl. by rewrite <-app_assoc.
    + split; [by exists c|]. intros r' p' [->|Hr']%elem_of_cons Hs'; [|by eapply Hother].
      by replace p' with p by by eapply says_inj.
    + exists caches', out. split_and!; [done|done|]. destruct out; [done|].
      by rewrite reverse_cons, <-app_assoc.
Qed.
Lemma knows_suffix caches stream_id next l l' :
  log_wf stream_id next l → (next ≤ u64_max)%Z → l' `suffix_of` l →
  knows caches stream_id next l → knows caches stream_id next l'.
Proof.
  intros Hwf Hnext Hsuf (c & Hc & Hst & Htrue). exists c. split_and!; try done.
  by eapply cache_true_suffix.
Qed.

Lemma verdict_suffix record l l' :
  StronglySorted (serial_lt OldestFirst) l → l' `suffix_of` l →
  verdict record l (false, false) → verdict record l' (false, false).
Proof. intros Hso Hsuf Hv r p Hn. apply (Hv r p). by eapply newest_unsuffix. Qed.

(** Everything that is not before the cursor was seen. *)
Definition read_to record caches (stream_id : string) (next : Z) l
    (cursor : option PresenceHistoryCursor) : Prop :=
  (∃ c, caches !! node_key = Some c ∧ tc_stream_id c = Some stream_id ∧ cache_true next l c
        ∧ ∀ r p, r ∈ l → before cursor r = false → says r p →
            is_Some (tc_latest_event_by_user c !! dp_user_id p))
  ∧ ∀ r p, r ∈ l → before cursor r = false → says r p → dp_user_id p ≠ pt_user_id record.

Lemma read_to_suffix record caches stream_id next l l' cursor :
  log_wf stream_id next l → (next ≤ u64_max)%Z → l' `suffix_of` l →
  read_to record caches stream_id next l cursor → read_to record caches stream_id next l' cursor.
Proof.
  intros Hwf Hnext Hsuf [(c & Hc & Hst & Htrue & Hcov) Hother].
  assert (∀ r, r ∈ l' → r ∈ l) as Hin.
  { destruct Hsuf as [gone ->]. set_solver. }
  split; [|by eauto]. exists c. split_and!; [done|done|by eapply cache_true_suffix|by eauto].
Qed.

Lemma read_to_seen record caches stream_id next l cursor older chunk newer page :
  scanned_chunk stream_id cursor l older chunk newer page →
  read_to record caches stream_id next l cursor → seen record caches stream_id next l newer.
Proof.
  intros [Hl Hnewer _ _ _ _] [(c & ? & ? & ? & Hcov) Hother].
  rewrite Forall_forall in Hnewer.
  assert (∀ r, r ∈ newer → r ∈ l) by (intros r; rewrite Hl; set_solver).
  split; [|by eauto]. exists c. split_and!; try done. intros r p Hr. by eauto.
Qed.

(** The next page starts where this one stopped. *)
Lemma seen_read_to record caches stream_id next l cursor older chunk newer page :
  log_wf stream_id next l → scanned_chunk stream_id cursor l older chunk newer page →
  pg_has_more page = true → seen record caches stream_id next l (reverse chunk ++ newer) →
  read_to record caches stream_id next l (pg_next_cursor page)
  ∧ length (todo (pg_next_cursor page) l) < length (todo cursor l).
Proof.
  intros Hwf [Hl _ Htodo _ _ Hnext] Hmore [(c & ? & ? & ? & Hcov) Hother].
  destruct (Hnext Hmore) as (r & chunk' & cur & Hch & -> & Hser & _).
  assert (Hl' : l = older ++ r :: (reverse chunk' ++ newer)).
  { rewrite Hl, Hch, reverse_snoc. by rewrite <-app_comm_cons. }
  assert (Hafter : ∀ r', r' ∈ l → before (Some cur) r' = false → r' ∈ reverse chunk ++ newer).
  { intros r' Hr' Hb. simpl in Hb. apply Z.ltb_ge in Hb.
    rewrite Hch, reverse_snoc. rewrite Hl' in Hr'. apply elem_of_app in Hr' as [Hr'|Hr']; [|done].
    pose proof (lw_sorted _ _ _ Hwf) as Hso. rewrite Hl' in Hso.
    destruct (proj1 (log_sorted_app _ _) Hso) as [Hlt _].
    specialize (Hlt r' r Hr' ltac:(left)). lia. }
  split; [split; [exists c; split_and!; try done|]; by eauto|].
  rewrite Htodo, Hch, reverse_snoc. unfold todo. rewrite Hl', filter_app.
  assert (filter (λ r', before (Some cur) r' = true) (r :: reverse chunk' ++ newer) = []) as ->.
  { apply list_filter_none. pose proof (lw_sorted _ _ _ Hwf) as Hso. rewrite Hl' in Hso.
    destruct (proj1 (log_sorted_app _ _) Hso) as (_ & _ & Hso').
    apply StronglySorted_inv in Hso' as [_ Hall].
    assert (∀ r', (ha_serial r ≤ ha_serial r')%Z → ¬ before (Some cur) r' = true) as Hge.
    { intros r' Hle. simpl. rewrite Hser, Z.ltb_lt. lia. }
    constructor; [by apply Hge|]. eapply Forall_impl; [exact Hall|].
    intros r' Hlt. simpl in Hlt. apply Hge. lia. }
  rewrite app_nil_r, !length_app. cbn [length].
  pose proof (length_filter (λ r', before (Some cur) r' = true) older). lia.
Qed.

Lemma todo_suffix cursor l l' : l' `suffix_of` l → length (todo cursor l') ≤ length (todo cursor l).
Proof. intros [gone ->]. unfold todo. rewrite filter_app, length_app. lia. Qed.

Lemma scan_loop_spec record stream_id next fuel : ∀ cursor caches m l,
  pt_app_id record = app_id → pt_channel record = channel →
  holds m stream_id next l → log_wf stream_id next l → (next ≤ u64_max)%Z →
  scan_cursor stream_id cursor → read_to record caches stream_id next l cursor →
  length (todo cursor l) < fuel →
  ∃ caches' m' answer l1 l2, scan_loop fuel record cursor caches m = (caches', m', Some answer)
    ∧ l1 `suffix_of` l ∧ l2 `suffix_of` l1 ∧ holds m' stream_id next l2
    ∧ knows caches' stream_id next l2
    ∧ ∀ found, answer = Ok found → verdict record l1 found.
Proof.
  induction fuel as [|fuel IH]; intros cursor caches m l Happ Hchan Hm Hwf Hnext Hcur Hread Hfuel;
    [lia|].
  cbn [scan_loop].
  destruct (scan_read m stream_id next l record cursor Happ Hchan Hm Hwf Hcur)
    as (m' & l1 & l2 & answer & -> & Hs1 & Hs2 & Hm' & Hpage).
  pose proof (log_wf_suffix _ _ _ _ Hwf Hs1) as Hwf1.
  pose proof (read_to_suffix _ _ _ _ _ _ _ Hwf Hnext Hs1 Hread) as Hread1.
  destruct answer as [page|e].
  2: { eexists _, _, _, l1, l2. split_and!; try done.
       destruct Hread1 as [(c & ? & ? & ? & _) _]. eapply (knows_suffix _ _ _ l1); try done.
       by exists c. }
  destruct (Hpage page eq_refl) as (older & chunk & newer & Hchunk).
  destruct (scan_page_spec record stream_id next l1 older chunk newer (pg_items page) caches)
    as (caches' & out & -> & Hknow & Hout); [done|done|done|by apply Hchunk|by apply Hchunk| |].
  { by eapply read_to_seen. }
  destruct out as [found|[]].
  { eexists _, _, _, l1, l2. split_and!; try done; [by eapply knows_suffix|]. by intros ? [= <-]. }
  destruct (pg_has_more page) eqn:Hmore.
  - destruct (sk_next _ _ _ _ _ _ _ Hchunk Hmore) as (_ & _ & _ & _ & _ & _ & Hcur').
    destruct (seen_read_to _ _ _ _ _ _ _ _ _ _ Hwf1 Hchunk Hmore Hout) as [Hread' Hlen].
    pose proof (todo_suffix cursor _ _ Hs1). pose proof (todo_suffix (pg_next_cursor page) _ _ Hs2).
    destruct (IH (pg_next_cursor page) caches' m' l2) as (c3 & m3 & a3 & l3 & l4 & ? & Hs3 & ? & ? & ? & ?);
      [done|done|done|by eapply log_wf_suffix|done|done|by eapply read_to_suffix|lia|].
    exists c3, m3, a3, l3, l4. split_and!; try done. etrans; [exact Hs3|]. by etrans.
  - eexists _, _, _, l1, l2. split_and!; try done; [by eapply knows_suffix|].
    intros found [= <-] r p (Hr & Hs & Hu & _). exfalso. destruct Hout as [_ Hother].
    rewrite (sk_split _ _ _ _ _ _ _ Hchunk), (sk_last _ _ _ _ _ _ _ Hchunk Hmore) in Hr.
    by eapply Hother.
Qed.
(** ** The node's invariant *)

Definition trusts caches (stream_id : string) (next : Z) l : Prop :=
  ∀ c, caches !! node_key = Some c → tc_stream_id c = Some stream_id → cache_true next l c.

(** The log is well formed and the cache speaks of it. *)
Definition node_ok caches m : Prop :=
  match mh_store m !! log_key with
  | None => caches !! node_key = None
  | Some ch =>
      log_wf (hch_stream_id ch) (hch_next_serial ch) (hch_records ch)
      ∧ (hch_next_serial ch ≤ u64_max)%Z
      ∧ trusts caches (hch_stream_id ch) (hch_next_serial ch) (hch_records ch)
  end.

(** What a call that only looks does to the channel. *)
Definition looks m m' : Prop :=
  match mh_store m !! log_key with
  | None =>
      mh_store m' !! log_key = None
      ∨ ∃ ch, mh_store m' !! log_key = Some ch ∧ hch_next_serial ch = 1%Z ∧ hch_records ch = []
  | Some ch =>
      ∃ ch', mh_store m' !! log_key = Some ch' ∧ hch_stream_id ch' = hch_stream_id ch
             ∧ hch_next_serial ch' = hch_next_serial ch ∧ hch_records ch' `suffix_of` hch_records ch
  end.

Lemma looks_frame m m' : mh_store m' !! log_key = mh_store m !! log_key → looks m m'.
Proof. unfold looks. intros ->. destruct (mh_store m !! log_key); [by eexists|by left]. Qed.

Lemma looks_trans m1 m2 m3 : looks m1 m2 → looks m2 m3 → looks m1 m3.
Proof.
  unfold looks. destruct (mh_store m1 !! log_key) as [ch1|].
  - intros (ch2 & -> & Hs & Hn & Hl) (ch3 & -> & Hs' & Hn' & Hl').
    exists ch3. split_and!; [done|congruence|congruence|by etrans].
  - intros [->|(ch2 & -> & Hn & Hl)]; [done|].
    intros (ch3 & -> & Hs' & Hn' & Hl'). right. exists ch3. split_and!; [done|congruence|].
    rewrite Hl in Hl'. by apply suffix_nil_inv.
Qed.

Lemma looks_evicted fresh now m tick :
  looks m {| mh_store := <[log_key := evict_now config now (history_entry fresh (mh_store m) log_key)]>
                           (mh_store m); mh_tick := tick |}.
Proof.
  unfold looks, history_entry. cbn [mh_store].
  destruct (mh_store m !! log_key) as [ch|]; rewrite lookup_insert_eq; cbn [default from_option id].
  - by eexists; split; [done|]; apply evict_channel_suffix.
  - right. eexists. split; [done|].
    destruct (evict_channel_suffix (channel_retention config (default_history_channel fresh)) now
      (default_history_channel fresh)) as (_ & Hn & Hl).
    split; [done|]. by apply suffix_nil_inv.
Qed.

Lemma node_ok_looks caches m m' : node_ok caches m → looks m m' → node_ok caches m'.
Proof.
  unfold node_ok, looks. destruct (mh_store m !! log_key) as [ch|].
  - intros (Hwf & Hnext & Htrust) (ch' & -> & -> & -> & Hsuf). split_and!; [|done|].
    + by eapply log_wf_suffix.
    + intros c Hc Hst. eapply cache_true_suffix; [done|done|done|by apply Htrust].
  - intros Hnone [->|(ch & -> & -> & ->)]; [done|]. split_and!; [apply log_wf_nil|done|].
    intros c Hc. congruence.
Qed.

Lemma holds_ok caches m stream_id next l :
  holds m stream_id next l → log_wf stream_id next l → (next ≤ u64_max)%Z →
  knows caches stream_id next l → node_ok caches m.
Proof.
  intros (ch & Hch & <- & <- & <-) Hwf Hnext (c & Hc & _ & Htrue). unfold node_ok. rewrite Hch.
  split_and!; [done|done|]. intros c' Hc' _. congruence.
Qed.

(** ** Consulting the cache *)

Lemma consult_spec i record caches stream_id next l :
  pt_app_id record = app_id → pt_channel record = channel →
  hin_stream_id i = Some stream_id →
  default u64_max (hs_oldest_serial (hin_retained i)) = oldest l →
  trusts caches stream_id next l →
  ∃ caches' out, consult_cache i record caches = (caches', out) ∧ knows caches' stream_id next l
    ∧ ∀ found, out = Some found → log_wf stream_id next l → verdict record l found.
Proof.
  intros Happ Hchan Hst Hold Htrust. unfold consult_cache. rewrite Happ, Hchan, Hst, Hold.
  fold node_key.
  set (c := cache_for_stream _ _).
  assert (tc_stream_id c = Some stream_id ∧ cache_true next l c) as [Hcs [Hk Hu]].
  { unfold c, cache_for_stream. case_bool_decide as Hs; [|by split; [|constructor; simpl; intros *; rewrite lookup_empty]].
    split; [done|]. destruct (caches !! node_key) as [c0|] eqn:Hc; [by apply Htrust|done]. }
  eexists _, _. split; [done|]. split.
  - eexists. split; [by rewrite lookup_insert_eq|]. split; [done|]. constructor; simpl.
    + by intros k n [? _]%map_lookup_filter_Some; apply Hk.
    + by intros u e n [? _]%map_lookup_filter_Some; apply Hu.
  - cbn [tc_dedupe_keys tc_latest_event_by_user]. intros found Hfound Hwf.
    assert (Huser : ∀ found, match filter (λ kv, (oldest l ≤ kv.2.2)%Z) (tc_latest_event_by_user c)
        !! pt_user_id record with
      | Some (event, serial) => if (oldest l <=? serial)%Z
          then Some (false, bool_decide (event = pt_event_kind record)) else None
      | None => None end = Some found → verdict record l found).
    { clear found Hfound. intros found.
      destruct (filter _ _ !! pt_user_id record) as [[e n]|] eqn:E; [|done].
      apply map_lookup_filter_Some in E as [E Hle]. simpl in Hle.
      destruct (oldest l <=? n)%Z; [|done]. intros [= <-].
      destruct (Hu _ _ _ E) as [_ (r & p & Hn & _ & <-)]; [done|].
      case_bool_decide as He; [by exists r, p|]. intros r' p' Hn'.
      by destruct (newest_unique _ _ _ _ _ _ _ _ Hwf Hn Hn') as [_ <-]. }
    destruct (filter _ _ !! pt_dedupe_key record) as [n|] eqn:E; [|by apply Huser].
    destruct (oldest l <=? n)%Z eqn:Hle; [|by apply Huser]. injection Hfound as <-.
    apply map_lookup_filter_Some in E as [E _]. apply Z.leb_le in Hle.
    destruct (Hk _ _ E) as [_ (r & p & ? & ? & ? & _)]; [done|]. by exists r, p.
Qed.

(** ** Finding an earlier transition *)

Definition log_of m : list HistoryAppendRecord :=
  default [] (hch_records <$> mh_store m !! log_key).

(** The room left in the serials of the stream. *)
Definition has_room m : Prop :=
  ∀ ch, mh_store m !! log_key = Some ch → (hch_next_serial ch < u64_max)%Z.

Lemma inspect_spec caches m :
  node_ok caches m →
  ∃ m' i stream_id next l, hb_inspection app_id (durable_channel_name channel) m = (m', Ok i)
    ∧ holds m' stream_id next l ∧ l `suffix_of` log_of m
    ∧ log_wf stream_id next l ∧ (next ≤ u64_max)%Z ∧ (has_room m → (next < u64_max)%Z)
    ∧ trusts caches stream_id next l
    ∧ hin_stream_id i = Some stream_id
    ∧ default u64_max (hs_oldest_serial (hin_retained i)) = oldest l.
Proof.
  intros Hok. cbn [hb_inspection backend memory_history_backend].
  unfold history_ticked, stream_inspection. fold log_key. cbn [fst snd].
  pose proof (looks_evicted (uuid (mh_tick m)) (clock (mh_tick m)) m (S (mh_tick m))) as Hlook.
  pose proof (node_ok_looks _ _ _ Hok Hlook) as Hok'.
  set (ch := evict_now _ _ _) in *. unfold node_ok in Hok'. cbn [mh_store] in Hok'.
  rewrite lookup_insert_eq in Hok'. destruct Hok' as (Hwf & Hnext & Htrust).
  eexists _, _, (hch_stream_id ch), (hch_next_serial ch), (hch_records ch).
  split; [done|]. split_and!; try done.
  - exists ch. split; [|done]. apply lookup_insert_eq.
  - unfold looks, log_of in *. cbn [mh_store] in Hlook. rewrite lookup_insert_eq in Hlook.
    destruct (mh_store m !! log_key) as [ch0|]; simpl.
    + by destruct Hlook as (ch' & [= <-] & _ & _ & ?).
    + by destruct Hlook as [?|(ch' & [= <-] & _ & ->)].
  - intros Hroom. unfold looks in Hlook. cbn [mh_store] in Hlook. rewrite lookup_insert_eq in Hlook.
    destruct (mh_store m !! log_key) as [ch0|] eqn:Hch0.
    + destruct Hlook as (ch' & [= <-] & _ & -> & _). by apply Hroom.
    + by destruct Hlook as [?|(ch' & [= <-] & -> & _)].
Qed.

Lemma find_spec record fuel caches m :
  pt_app_id record = app_id → pt_channel record = channel →
  node_ok caches m → length (log_of m) < fuel →
  ∃ caches' m' answer stream_id next l1 l2,
    find_existing_transition fuel record caches m = (caches', m', Some answer)
    ∧ l1 `suffix_of` log_of m ∧ l2 `suffix_of` l1 ∧ holds m' stream_id next l2
    ∧ log_wf stream_id next l1 ∧ (next ≤ u64_max)%Z ∧ (has_room m → (next < u64_max)%Z)
    ∧ knows caches' stream_id next l2
    ∧ ∀ found, answer = Ok found → verdict record l1 found.
Proof.
  intros Happ Hchan Hok Hfuel. unfold find_existing_transition. rewrite Happ, Hchan.
  destruct (inspect_spec caches m Hok)
    as (m1 & i & stream_id & next & l & -> & Hm1 & Hsuf & Hwf & Hnext & Hroom & Htrust & Hst & Hold).
  destruct (consult_spec i record caches stream_id next l Happ Hchan Hst Hold Htrust)
    as (caches' & out & -> & Hknow & Hfound).
  destruct out as [found|].
  { eexists _, _, _, _, _, l, l. split_and!; try done. by intros ? [= <-]; apply Hfound. }
  destruct (scan_loop_spec record stream_id next fuel None caches' m1 l)
    as (c2 & m2 & answer & l1 & l2 & -> & Hs1 & Hs2 & ? & ? & ?); try done.
  - destruct Hknow as (c & ? & ? & ?).
    split; [exists c; split_and!; try done|]; intros r p _ Hb; discriminate.
  - unfold todo. pose proof (length_filter (λ r, before None r = true) l).
    apply suffix_length in Hsuf. lia.
  - eexists _, _, _, _, _, l1, l2. split_and!; try done; [by etrans|by eapply log_wf_suffix].
Qed.
(** ** Recording a transition *)

(** What a call of [record_transition] may do to the log: nothing, when the transition is there
    already or does not change the state of its user; otherwise it appends it.  Reads evict. *)
Definition record_outcome record (answer : result Error unit)
    (old new : list HistoryAppendRecord) : Prop :=
  match answer with
  | Err _ => new `suffix_of` old
  | Ok _ =>
      ∃ l, l `suffix_of` old ∧
        (new `suffix_of` l ∧ (verdict record l (true, false) ∨ verdict record l (false, true))
         ∨ verdict record l (false, false)
           ∧ ∃ r, says r (durable_payload record) ∧ new `suffix_of` l ++ [r])
  end.

Lemma holds_log m stream_id next l : holds m stream_id next l → log_of m = l.
Proof. intros (ch & Hch & _ & _ & <-). unfold log_of. by rewrite Hch. Qed.

Lemma reserve_spec m stream_id next l :
  holds m stream_id next l → (next < u64_max)%Z →
  ∃ m', hb_reserve app_id (durable_channel_name channel) m
        = (m', Ok {| hw_stream_id := stream_id; hw_serial := next |})
    ∧ holds m' stream_id (next + 1) l.
Proof.
  intros (ch & Hch & <- & <- & <-) Hroom. cbn [hb_reserve backend memory_history_backend].
  unfold history_ticked, reserve_publish_position, history_entry. fold log_key.
  rewrite Hch. cbn [default from_option id fst snd]. eexists. split; [done|].
  eexists. split; [apply lookup_insert_eq|]. cbn [hch_stream_id hch_next_serial hch_records].
  split_and!; try done. u64_lia.
Qed.

Lemma append_spec m stream_id next l r :
  holds m stream_id next l → ha_app_id r = app_id → ha_channel r = durable_channel_name channel →
  ha_stream_id r = stream_id → (ha_serial r + 1 = next)%Z → (next ≤ u64_max)%Z →
  ∃ m' l', hb_append r m = (m', Ok tt) ∧ l' `suffix_of` l ++ [r] ∧ holds m' stream_id next l'.
Proof.
  intros (ch & Hch & <- & <- & <-) Happ Hchan Hstream Hser Hmax. cbn [hb_append backend memory_history_backend].
  unfold history_ticked, history_append, history_entry. rewrite Happ, Hchan. fold log_key.
  rewrite Hch. cbn [default from_option id fst snd].
  set (ch' := push_record ch r). set (now := clock (mh_tick m)).
  destruct (evict_channel_suffix (channel_retention config ch') now ch') as (Hs & Hn & Hl).
  eexists _, _. split; [done|]. split; [exact Hl|]. eexists. split; [apply lookup_insert_eq|].
  split_and!; [by etrans| |done]. etrans; [exact Hn|]. simpl. u64_lia.
Qed.
(** The write, once the transition is known to be new. *)
Lemma write_ok `{!DurableCodecLaws} record caches m stream_id next l bytes :
  pt_app_id record = app_id → pt_channel record = channel →
  holds m stream_id (next + 1) l → log_wf stream_id next l → (next < u64_max)%Z →
  knows caches stream_id next l → verdict record l (false, false) →
  durable_encode_payload record = Ok bytes →
  let r := durable_append_record record {| hw_stream_id := stream_id; hw_serial := next |} bytes in
  ∃ m', hb_append r m = (m', Ok tt) ∧ says r (durable_payload record)
    ∧ log_of m' `suffix_of` l ++ [r]
    ∧ node_ok (cache_appended_transition record stream_id next caches) m'.
Proof.
  intros Happ Hchan Hm Hwf Hnext (c & Hc & Hst & Htrue) Hv Henc r.
  destruct (append_spec m stream_id (next + 1) l r Hm) as (m' & l' & Hrun & Hsuf & Hm');
    [done|by unfold r; simpl; rewrite Hchan|done|done|lia|].
  assert (Hs : says r (durable_payload record)).
  { unfold durable_encode_payload in Henc. destruct (payload_to_vec _) eqn:E; [|done].
    injection Henc as <-. by apply payload_round_trip. }
  pose proof (log_wf_snoc stream_id next l r _ Hwf eq_refl eq_refl Hs Hv) as Hwf'.
  pose proof (appended_true stream_id next l r _ c Hwf ltac:(lia) eq_refl Hs Htrue) as Htrue'.
  exists m'. split_and!; [done|done|by rewrite (holds_log _ _ _ _ Hm')|].
  eapply holds_ok; [done|by eapply log_wf_suffix|lia|].
  eexists. unfold cache_appended_transition. rewrite Happ, Hchan. fold node_key.
  rewrite Hc, lookup_insert_eq. cbn [default from_option id]. unfold cache_for_stream.
  rewrite bool_decide_true by done. split_and!; [done|done|].
  eapply (cache_true_suffix stream_id (next + 1) (l ++ [r])); [done|lia|done|exact Htrue'].
Qed.

Lemma record_spec `{!DurableCodecLaws} record fuel caches m :
  pt_app_id record = app_id → pt_channel record = channel →
  node_ok caches m → has_room m → length (log_of m) < fuel →
  ∃ caches' m' answer, durable_record_transition fuel record caches m = (caches', m', Some answer)
    ∧ node_ok caches' m' ∧ record_outcome record answer (log_of m) (log_of m').
Proof.
  intros Happ Hchan Hok Hroom Hfuel. unfold durable_record_transition.
  destruct (find_spec record fuel caches m Happ Hchan Hok Hfuel) as
    (caches1 & m1 & answer & st & nx & l1 & l2 & -> & Hs1 & Hs2 & Hm1 & Hwf1 & Hnext & Hlt & Hkn & Hv).
  pose proof (log_wf_suffix _ _ _ _ Hwf1 Hs2) as Hwf2.
  pose proof (holds_ok _ _ _ _ _ Hm1 Hwf2 Hnext Hkn) as Hok1.
  pose proof (holds_log _ _ _ _ Hm1) as Hlog1.
  destruct answer as [[dedupe same]|e].
  2: { eexists _, _, _. split_and!; [done|done|]. simpl. rewrite Hlog1. by etrans. }
  specialize (Hv _ eq_refl). destruct (dedupe || same) eqn:Hd.
  { eexists _, _, _. split_and!; [done|done|]. exists l1. split; [done|]. left.
    rewrite Hlog1. split; [done|]. by destruct dedupe, same; auto. }
  destruct dedupe, same; try discriminate. specialize (Hlt Hroom).
  apply (verdict_suffix _ _ l2) in Hv; [|by apply Hwf1|done].
  destruct (reserve_spec m1 st nx l2 Hm1 Hlt) as (m2 & Hres & Hm2).
  rewrite Happ, Hchan, Hres.
  destruct (durable_encode_payload record) as [bytes|e] eqn:Henc.
  - destruct (write_ok record caches1 m2 st nx l2 bytes) as (m3 & -> & Hs & Hsuf & Hok3); try done.
    eexists _, _, _. split_and!; [done|done|]. exists l2. split; [by etrans|]. right.
    split; [done|]. by eexists.
  - eexists _, _, _. split_and!; [done| |].
    + eapply holds_ok; [done|eapply (log_wf_next _ nx); [lia|done]|lia|].
      destruct Hkn as (c & ? & ? & ?). exists c. split_and!; try done.
      eapply (cache_true_next nx); [lia|done].
    + simpl. rewrite (holds_log _ _ _ _ Hm2). by etrans.
Qed.
(** ** The life of a node *)

(** The calls on the channel, a restart with an empty cache, and whatever happens to other
    channels. *)
Inductive node_step : relation (gmap string DurablePresenceTransitionCache * MemoryHistory) :=
  | step_record record fuel caches m caches' m' answer :
      pt_app_id record = app_id → pt_channel record = channel → has_room m →
      length (log_of m) < fuel →
      durable_record_transition fuel record caches m = (caches', m', Some answer) →
      node_step (caches, m) (caches', m')
  | step_read req caches m :
      prq_app_id req = app_id → prq_channel req = channel →
      node_step (caches, m) (caches, (durable_read_page req m).1)
  | step_inspect caches m :
      node_step (caches, m) (caches, (durable_inspection app_id channel m).1)
  | step_reset caches m caches' m' answer :
      durable_reset_stream app_id channel caches m = (caches', m', answer) →
      node_step (caches, m) (caches', m')
  | step_restart caches m : node_step (caches, m) (∅, m)
  | step_other caches m caches' m' :
      caches' !! node_key = caches !! node_key → mh_store m' !! log_key = mh_store m !! log_key →
      node_step (caches, m) (caches', m').

Lemma state_looks m : looks m (durable_runtime_state app_id channel m).1.
Proof.
  unfold durable_runtime_state. cbn [hb_runtime_state backend memory_history_backend].
  unfold history_ticked, stream_runtime_state. fold log_key. apply looks_evicted.
Qed.

Lemma read_looks req m :
  prq_app_id req = app_id → prq_channel req = channel → looks m (durable_read_page req m).1.
Proof.
  intros Happ Hchan. unfold durable_read_page.
  destruct (presence_validate req); [|by apply looks_frame].
  cbn [hb_read_page backend memory_history_backend]. unfold history_ticked, read_page.
  change (hr_app_id _) with (prq_app_id req).
  change (hr_channel _) with (durable_channel_name (prq_channel req)). rewrite Happ, Hchan.
  fold log_key. destruct (history_read_validate _); [|by apply looks_frame].
  destruct (mh_store m !! log_key) as [ch|] eqn:Hch; cbn [fst snd].
  - pose proof (looks_evicted "" (clock (mh_tick m)) m (S (mh_tick m))) as Hlook.
    unfold history_entry in Hlook. rewrite Hch in Hlook. cbn [default from_option id] in Hlook.
    set (m1 := {| mh_store := _ |}) in *. destruct (cursor_expired _ _); cbn [fst]; [done|].
    pose proof (state_looks m1). destruct (durable_runtime_state _ _ m1). by eapply looks_trans.
  - set (m1 := {| mh_store := _ |}). pose proof (state_looks m1).
    destruct (durable_runtime_state _ _ m1). eapply looks_trans; [|done]. by apply looks_frame.
Qed.

Lemma node_step_ok `{!DurableCodecLaws} s s' :
  node_step s s' → node_ok s.1 s.2 → node_ok s'.1 s'.2.
Proof.
  intros Hstep. destruct Hstep as [record fuel caches m caches' m' answer Happ Hchan Hroom Hf Hrun
    |req caches m Happ Hchan|caches m|caches m caches' m' answer Hrun|caches m
    |caches m caches' m' Hc Hm]; simpl; intros Hok.
  - destruct (record_spec record fuel caches m Happ Hchan Hok Hroom Hf)
      as (c2 & m2 & a2 & Hrun' & Hok' & _). congruence.
  - eapply node_ok_looks; [done|by apply read_looks].
  - eapply node_ok_looks; [done|]. unfold durable_inspection.
    cbn [hb_inspection backend memory_history_backend]. unfold history_ticked, stream_inspection.
    fold log_key. apply looks_evicted.
  - unfold durable_reset_stream in Hrun. cbn [hb_reset backend memory_history_backend] in Hrun.
    unfold history_ticked, reset_stream in Hrun. fold log_key node_key in Hrun.
    injection Hrun as <- <- _. unfold node_ok. cbn [mh_store fst]. rewrite lookup_insert_eq.
    cbn [hch_stream_id hch_next_serial hch_records]. split_and!; [apply log_wf_nil|done|].
    intros c. by rewrite lookup_delete_eq.
  - unfold node_ok in *. destruct (mh_store m !! log_key); [|apply lookup_empty].
    destruct Hok as (? & ? & _). by split_and!.
  - unfold node_ok, trusts in *. by rewrite Hm, Hc.
Qed.

End node.
