(* ===== verification/DurablePresenceRuns.v ===== *)
(** * Runs of the durable presence history

    The single-node theorem at work, and two runs that leave its conditions: two nodes over
    one history store, of which one then drops a join; and a late duplicate that is dropped
    before a restart and recorded after it. *)

From Stdlib Require Import ZArith Lia Init.Byte.
From stdpp Require Import base gmap strings list pretty relations.
From S2P Require Import Prelude Errors Messages HistoryTypes HistoryStore HistoryPages.
From S2P Require Import PresenceHistory DurablePresence DurablePresenceLog DurablePresenceThms.

(** ** A codec by a table of payloads *)

Definition same_payload (p q : DurablePresenceHistoryPayload) : bool :=
  bool_decide (dp_published_at_ms p = dp_published_at_ms q) &&
  bool_decide (dp_event p = dp_event q) && bool_decide (dp_cause p = dp_cause q) &&
  bool_decide (dp_user_id p = dp_user_id q) &&
  bool_decide (dp_connection_id p = dp_connection_id q) &&
  match dp_user_info p, dp_user_info q with None, None => true | _, _ => false end &&
  bool_decide (dp_dead_node_id p = dp_dead_node_id q) &&
  bool_decide (dp_dedupe_key p = dp_dedupe_key q).

Lemma same_payload_eq p q : same_payload p q = true → p = q.
Proof.
  unfold same_payload. rewrite !andb_true_iff, !bool_decide_eq_true.
  destruct p as [? ? ? ? ? [] ? ?], q as [? ? ? ? ? [] ? ?]; simpl; naive_solver.
Qed.

(** A payload is written as its position in the table, in unary. *)
Definition table_codec (table : list DurablePresenceHistoryPayload) : DurableCodec := {|
  payload_to_vec p :=
    match list_find (λ q, same_payload q p = true) table with
    | Some (i, _) => Ok (repeat x00 i)
    | None => Err "unknown payload"
    end;
  payload_from_slice bytes :=
    match table !! length bytes with
    | Some p => Ok p
    | None => Err "unknown payload"
    end |}.

Lemma table_codec_laws table : @DurableCodecLaws (table_codec table).
Proof.
  intros p bytes. unfold payload_to_vec, payload_from_slice, table_codec.
  destruct (list_find _ table) as [[i q]|] eqn:E; [|done]. intros [= <-].
  apply list_find_Some in E as (Hi & Hsame%same_payload_eq & _).
  by rewrite repeat_length, Hi, Hsame.
Qed.

(** ** The room *)

Definition day_policy : PresenceHistoryRetentionPolicy := {|
  pp_retention_window_seconds := 86400; pp_max_events_per_channel := None;
  pp_max_bytes_per_channel := None |}.

(** The user "ada" in the channel "presence-room". *)
Definition seen_ada (kind : PresenceHistoryEventKind) (key : string)
    : PresenceHistoryTransitionRecord := {|
  pt_app_id := "app"; pt_channel := "presence-room"; pt_event_kind := kind;
  pt_cause := CauseJoin; pt_user_id := "ada"; pt_connection_id := None;
  pt_user_info := None; pt_dead_node_id := None; pt_dedupe_key := key;
  pt_published_at_ms := 1000; pt_retention := day_policy |}.

Definition join1 := seen_ada MemberAdded "join-1".
Definition leave1 := seen_ada MemberRemoved "leave-1".
Definition join2 := seen_ada MemberAdded "join-2".

Definition room_codec : DurableCodec :=
  table_codec (durable_payload <$> [join1; leave1; join2]).
#[local] Existing Instance room_codec.

#[local] Instance room_codec_laws : DurableCodecLaws := table_codec_laws _.

Definition room_config : MemoryHistoryStoreConfig := {|
  mhc_retention_window_secs := 86400; mhc_max_messages_per_channel := None;
  mhc_max_bytes_per_channel := None |}.

Definition room_clock (n : nat) : Z := 1000 + Z.of_nat n.
Definition room_uuid (n : nat) : string := "id-" +:+ pretty n.

Definition room_backend : HistoryBackend MemoryHistory :=
  memory_history_backend room_config room_clock room_uuid.
#[local] Existing Instance room_backend.

Definition empty_history : MemoryHistory := {| mh_store := ∅; mh_tick := 0 |}.

Notation Caches := (gmap string DurablePresenceTransitionCache).

(** A node with the caches [caches] records a transition. *)
Definition node_records (record : PresenceHistoryTransitionRecord) (s : Caches * MemoryHistory)
    : Caches * MemoryHistory :=
  (durable_record_transition 10 record s.1 s.2).1.

(** The events of the log, oldest first. *)
Definition room_events (m : MemoryHistory) : list (result Error PresenceHistoryEventKind) :=
  (λ r, rmap dp_event (durable_decode_payload (ha_payload_bytes r)))
    <$> log_of "app" "presence-room" m.

Definition room_step : relation (Caches * MemoryHistory) :=
  node_step room_config room_clock room_uuid "app" "presence-room".

Lemma node_records_step record s answer :
  pt_app_id record = "app" → pt_channel record = "presence-room" →
  has_room "app" "presence-room" s.2 → length (log_of "app" "presence-room" s.2) < 10 →
  (durable_record_transition 10 record s.1 s.2).2 = Some answer →
  room_step s (node_records record s).
Proof.
  intros Happ Hchan Hroom Hlen Hrun. unfold node_records.
  destruct (durable_record_transition 10 record s.1 s.2) as [[caches' m'] a] eqn:E.
  simpl in Hrun. subst a. destruct s. by eapply step_record.
Qed.


(** ** Two nodes *)

(** Node A records the join of "ada" and node B its leave.  When "ada" joins again through A,
    A's cache still says that "ada" is in: the join is dropped, and the log keeps saying that
    "ada" left. *)
Lemma second_node_join_lost :
  let '(a, m) := node_records join1 (∅, empty_history) in
  let '(_, m) := node_records leave1 (∅, m) in
  let '(_, m', answer) := durable_record_transition 10 join2 a m in
  answer = Some (Ok tt) ∧ room_events m' = [Ok MemberAdded; Ok MemberRemoved].
Proof. vm_compute. done. Qed.

(** The same three transitions through one node. *)
Lemma one_node_join_kept :
  room_events (node_records join2 (node_records leave1 (node_records join1 (∅, empty_history)))).2
  = [Ok MemberAdded; Ok MemberRemoved; Ok MemberAdded].
Proof. vm_compute. done. Qed.

(** ** A late duplicate *)

(** The join of "ada" is delivered a second time, after its leave.  The node that recorded it
    knows its key and drops it; after a restart the scan stops at the leave, and the join is
    recorded again. *)
Lemma duplicate_after_restart :
  let '(a, m) := node_records leave1 (node_records join1 (∅, empty_history)) in
  room_events (node_records join1 (a, m)).2 = [Ok MemberAdded; Ok MemberRemoved]
  ∧ room_events (node_records join1 (∅, m)).2 = [Ok MemberAdded; Ok MemberRemoved; Ok MemberAdded].
Proof. vm_compute. done. Qed.
