(* ===== verification/PushTypes.v ===== *)
(** * Push notifications: data

    The part of [crates/sockudo-push/src/domain.rs] that the queue, the publish status and the
    retries are about: delivery jobs and results, and the life of a publish. *)

From Stdlib Require Import ZArith Lia.
From stdpp Require Import base gmap strings list pretty.
From S2P Require Import Prelude Messages.

Inductive PushProviderKind := Fcm | Apns | WebPush | Hms | Wns | Realtime.

#[export] Instance provider_eq_dec : EqDecision PushProviderKind.
Proof. solve_decision. Defined.

Definition provider_key (provider : PushProviderKind) : string :=
  match provider with
  | Fcm => "fcm" | Apns => "apns" | WebPush => "webpush" | Hms => "hms" | Wns => "wns"
  | Realtime => "realtime"
  end.

(** ** The life of a publish *)

Inductive PublishLifecycleState :=
  | PlQueued | PlPlanning | PlThrottled | PlQuotaExceeded | PlDispatching | PlCancelled
  | PlExpired | PlFailed | PlDeadLettered | PlSucceeded | PlPartiallySucceeded.

#[export] Instance lifecycle_eq_dec : EqDecision PublishLifecycleState.
Proof. solve_decision. Defined.

Definition is_terminal (s : PublishLifecycleState) : bool :=
  match s with
  | PlCancelled | PlExpired | PlFailed | PlDeadLettered | PlSucceeded | PlPartiallySucceeded
  | PlQuotaExceeded => true
  | _ => false
  end.

Definition can_transition_to (self next : PublishLifecycleState) : bool :=
  if bool_decide (self = next) then true
  else if is_terminal self then false
  else
    match next with
    | PlQueued => false
    | PlPlanning => bool_decide (self = PlQueued)
    | PlThrottled | PlDispatching =>
        match self with
        | PlQueued | PlPlanning | PlThrottled | PlDispatching => true
        | _ => false
        end
    | _ => true
    end.

Record PublishCounters := {
  pc_planned : Z;
  pc_dispatched : Z;
  pc_succeeded : Z;
  pc_failed : Z;
  pc_expired : Z;
  pc_retry_scheduled : Z;
  pc_retry_attempted : Z;
  pc_dead_lettered : Z;
}.

(** A sum of [u128]s: four [u64]s do not overflow it. *)
Definition terminal_outcomes (c : PublishCounters) : Z :=
  (pc_succeeded c + pc_failed c + pc_expired c + pc_dead_lettered c)%Z.

Definition resolve_lifecycle_state (c : PublishCounters) (current : PublishLifecycleState)
    : PublishLifecycleState :=
  if (pc_planned c =? 0)%Z || (terminal_outcomes c <? pc_planned c)%Z then current
  else if (pc_failed c =? 0)%Z && (pc_expired c =? 0)%Z && (pc_dead_lettered c =? 0)%Z
       then PlSucceeded
  else if (pc_succeeded c >? 0)%Z then PlPartiallySucceeded
  else if (pc_expired c >? 0)%Z then PlExpired
  else if (pc_dead_lettered c >? 0)%Z then PlDeadLettered
  else PlFailed.

Inductive FanoutRegime := FastPath | ShardPath.

Record PublishStatus := {
  ps_app_id : string;
  ps_publish_id : string;
  ps_state : PublishLifecycleState;
  ps_counters : PublishCounters;
  ps_fanout_regime : option FanoutRegime;
  ps_retry_after_ms : option Z;
  ps_error_reason : option string;
}.

(** ** Deliveries *)

(** [dj_content] is the recipient with the payload, rendered or not. *)
Record DeliveryJob := {
  dj_app_id : string;
  dj_publish_id : string;
  dj_provider : PushProviderKind;
  dj_batch_id : string;
  dj_device_id : option string;
  dj_content : Json;
  dj_attempt : Z;
  dj_first_attempt_at_ms : option Z;
  dj_not_before_ms : option Z;
  dj_expires_at_ms : option Z;
}.

Record DeliveryBatch := {
  db_app_id : string;
  db_publish_id : string;
  db_provider : PushProviderKind;
  db_batch_id : string;
  db_jobs : list DeliveryJob;
}.

Definition batch_queue_key (b : DeliveryBatch) : string :=
  db_app_id b +:+ ":" +:+ db_publish_id b +:+ ":" +:+ provider_key (db_provider b) +:+ ":"
  +:+ db_batch_id b.

Inductive DeliveryOutcome := Accepted | Rejected | Retryable | OutcomeExpired | OutcomeCancelled.

#[export] Instance outcome_eq_dec : EqDecision DeliveryOutcome.
Proof. solve_decision. Defined.

Inductive ProviderFailureClass :=
  | DeviceTerminal | DeviceTransient | ProviderTransient | ProviderQuota | CredentialAuth
  | CallerPayload | NetworkTransport | UnknownFailure.

#[export] Instance failure_class_eq_dec : EqDecision ProviderFailureClass.
Proof. solve_decision. Defined.

Record ProviderError := {
  pe_class : string;
  pe_failure_class : ProviderFailureClass;
  pe_reason : option string;
  pe_retry_after_ms : option Z;
}.

Record DeliveryResult := {
  dr_app_id : string;
  dr_publish_id : string;
  dr_provider : PushProviderKind;
  dr_batch_id : string;
  dr_device_id : option string;
  dr_outcome : DeliveryOutcome;
  dr_provider_message_id : option string;
  dr_error : option ProviderError;
  dr_attempt : Z;
}.

Record DeliveryFeedback := {
  df_result : DeliveryResult;
  df_delivery_key : string;
  df_retry_job : option DeliveryJob;
  df_first_attempt_at_ms : option Z;
  df_expires_at_ms : option Z;
}.

Definition feedback_from_result (result : DeliveryResult) : DeliveryFeedback := {|
  df_result := result;
  df_delivery_key :=
    dr_app_id result +:+ ":" +:+ dr_publish_id result +:+ ":" +:+ provider_key (dr_provider result)
    +:+ ":" +:+ dr_batch_id result +:+ ":" +:+ default "[provider-target]" (dr_device_id result);
  df_retry_job := None; df_first_attempt_at_ms := None; df_expires_at_ms := None |}.

Record DeadLetter := {
  dl_app_id : string;
  dl_publish_id : string;
  dl_stage : string;
  dl_key : string;
  dl_reason : string;
  dl_occurred_at_ms : Z;
}.

Record RetryScheduleEntry := {
  re_app_id : string;
  re_publish_id : string;
  re_provider : option PushProviderKind;
  re_job : option DeliveryJob;
  re_attempt : Z;
  re_first_attempt_at_ms : Z;
  re_next_attempt_at_ms : Z;
  re_max_attempts : Z;
  re_expires_at_ms : Z;
  re_last_error : option ProviderError;
  re_retry_idempotency_key : string;
  re_stage : string;
  re_key : string;
  re_not_before_ms : option Z;
  re_payload : option Json;
}.

(** ** Cursors *)

Inductive PushCursorKind :=
  | CursorDevice | CursorChannelSubscription | CursorCredential | CursorTemplate
  | CursorScheduledJob | CursorPublishStatus | CursorPublishLog | CursorDeliveryEvent
  | CursorDeadLetter | CursorOperatorInvalidation.

#[export] Instance cursor_kind_eq_dec : EqDecision PushCursorKind.
Proof. solve_decision. Defined.

Record PushCursor := {
  cu_app_id : string;
  cu_kind : PushCursorKind;
  cu_position : string;
  cu_issued_at_ms : Z;
}.

(** ** The life of a publish only goes forward *)

Lemma can_transition_terminal s s' : is_terminal s = true → can_transition_to s s' = true → s' = s.
Proof. unfold can_transition_to. intros ->. by case_bool_decide. Qed.

Lemma resolve_never_reactivates c s :
  is_terminal s = true → is_terminal (resolve_lifecycle_state c s) = true.
Proof. intros Hs. unfold resolve_lifecycle_state. by repeat case_match. Qed.

Lemma resolve_complete c s :
  (0 < pc_planned c)%Z → (pc_planned c ≤ terminal_outcomes c)%Z →
  is_terminal (resolve_lifecycle_state c s) = true.
Proof.
  intros Hp Hle. unfold resolve_lifecycle_state.
  rewrite (proj2 (Z.eqb_neq _ _)), (proj2 (Z.ltb_ge _ _)) by lia. simpl. by repeat case_match.
Qed.
