(* ===== verification/PushQueue.v ===== *)
(** * The in-memory push queue

    [MemoryPushQueue] of [crates/sockudo-push/src/pipeline.rs]: staged queues with leases,
    delayed messages, suppression of keys that are still in the queue, and dead letters. *)

From Stdlib Require Import ZArith Lia Ascii.
From stdpp Require Import base gmap strings list pretty.
From S2P Require Import Prelude Messages PushTypes.

(** ** Stages and payloads *)

Inductive PushQueueStage :=
  | PublishLog | ShardJobs | DeliveryJobs (provider : PushProviderKind) | DeliveryResults
  | DeadLetters | RetrySchedule.

#[export] Instance stage_eq_dec : EqDecision PushQueueStage.
Proof. solve_decision. Defined.

(** The derived order of the stages. *)
Definition stage_rank (s : PushQueueStage) : Z :=
  match s with
  | PublishLog => 0 | ShardJobs => 1
  | DeliveryJobs Fcm => 2 | DeliveryJobs Apns => 3 | DeliveryJobs WebPush => 4
  | DeliveryJobs Hms => 5 | DeliveryJobs Wns => 6 | DeliveryJobs Realtime => 7
  | DeliveryResults => 8 | DeadLetters => 9 | RetrySchedule => 10
  end.

Definition rank_stage (n : Z) : option PushQueueStage :=
  match n with
  | 0 => Some PublishLog | 1 => Some ShardJobs
  | 2 => Some (DeliveryJobs Fcm) | 3 => Some (DeliveryJobs Apns) | 4 => Some (DeliveryJobs WebPush)
  | 5 => Some (DeliveryJobs Hms) | 6 => Some (DeliveryJobs Wns) | 7 => Some (DeliveryJobs Realtime)
  | 8 => Some DeliveryResults | 9 => Some DeadLetters | 10 => Some RetrySchedule
  | _ => None
  end%Z.

Lemma rank_stage_rank s : rank_stage (stage_rank s) = Some s.
Proof. by destruct s as [| |[]| | |]. Qed.

#[export] Instance stage_rank_inj : Inj (=) (=) stage_rank.
Proof. intros s s' Heq%(f_equal rank_stage). rewrite !rank_stage_rank in Heq. by injection Heq. Qed.

#[export] Instance stage_countable : Countable PushQueueStage :=
  inj_countable stage_rank rank_stage rank_stage_rank.

#[export] Program Instance stage_ord_key : OrdKey PushQueueStage :=
  {| key_le s s' := (stage_rank s ≤ stage_rank s')%Z |}.
Next Obligation. intros s s'. apply _. Defined.
Next Obligation.
  split; [split; [intros s; lia|intros s s' s''; lia]|].
  intros s s' H1 H2. apply stage_rank_inj. lia.
Qed.
Next Obligation. intros s s'. lia. Qed.

Definition logical_topic (s : PushQueueStage) : string :=
  match s with
  | PublishLog => "push.publish.v1"
  | ShardJobs => "push.shards.v1"
  | DeliveryJobs provider => "push.delivery." +:+ provider_key provider +:+ ".v1"
  | DeliveryResults => "push.results.v1"
  | DeadLetters => "push.deadletters.v1"
  | RetrySchedule => "push.retry.v1"
  end.

(** The derived [Debug] text. *)
Definition stage_debug (s : PushQueueStage) : string :=
  match s with
  | PublishLog => "PublishLog" | ShardJobs => "ShardJobs"
  | DeliveryJobs provider =>
      "DeliveryJobs(" +:+ match provider with
                          | Fcm => "Fcm" | Apns => "Apns" | WebPush => "WebPush" | Hms => "Hms"
                          | Wns => "Wns" | Realtime => "Realtime" end +:+ ")"
  | DeliveryResults => "DeliveryResults" | DeadLetters => "DeadLetters"
  | RetrySchedule => "RetrySchedule"
  end.

(** A publish and a shard job are kept with their app and publish, and the rest as JSON. *)
Inductive PushQueuePayload :=
  | PPublishLog (app_id publish_id : string) (event : Json)
  | PShardJob (app_id publish_id : string) (job : Json)
  | PDeliveryBatch (batch : DeliveryBatch)
  | PDeliveryResult (result : DeliveryResult)
  | PDeliveryFeedback (feedback : DeliveryFeedback)
  | PDeadLetter (dead_letter : DeadLetter)
  | PRetrySchedule (entry : RetryScheduleEntry).

(** The app of any payload. *)
Definition payload_app (p : PushQueuePayload) : string :=
  match p with
  | PPublishLog app_id _ _ | PShardJob app_id _ _ => app_id
  | PDeliveryBatch b => db_app_id b
  | PDeliveryResult r => dr_app_id r
  | PDeliveryFeedback f => dr_app_id (df_result f)
  | PDeadLetter d => dl_app_id d
  | PRetrySchedule e => re_app_id e
  end.

Definition payload_app_id (p : PushQueuePayload) : option string := Some (payload_app p).

Definition payload_provider (p : PushQueuePayload) : option PushProviderKind :=
  match p with
  | PDeliveryBatch b => Some (db_provider b)
  | PDeliveryResult r => Some (dr_provider r)
  | PDeliveryFeedback f => Some (dr_provider (df_result f))
  | PRetrySchedule e => re_provider e
  | PPublishLog _ _ _ | PShardJob _ _ _ | PDeadLetter _ => None
  end.

(** ** Routes *)

Definition default_partitions (s : PushQueueStage) : Z :=
  match s with
  | PublishLog => 64 | ShardJobs => 128 | DeliveryJobs _ => 256 | DeliveryResults => 128
  | DeadLetters => 32 | RetrySchedule => 64
  end.

Definition partition_key_for_payload (s : PushQueueStage) (p : PushQueuePayload) : string :=
  match s, p with
  | PublishLog, PPublishLog app_id publish_id _ => app_id +:+ ":" +:+ publish_id
  | DeliveryJobs _, PDeliveryBatch b => db_app_id b
  | ShardJobs, PShardJob app_id _ _ => app_id
  | DeliveryResults, PDeliveryResult r => dr_app_id r
  | DeliveryResults, PDeliveryFeedback f => dr_app_id (df_result f)
  | RetrySchedule, PRetrySchedule e => re_app_id e
  | DeadLetters, PDeadLetter d => dl_app_id d
  | _, _ => default "unknown" (payload_app_id p)
  end.

(** SHA-256 in hexadecimal, of the sha2 and hex crates. *)
Class StableHash := stable_hash : string → string.

(** [u64::from_str_radix(s, 16)]. *)
Definition hex_digit (a : ascii) : option Z :=
  let n := Z.of_nat (nat_of_ascii a) in
  if (48 <=? n)%Z && (n <=? 57)%Z then Some (n - 48)%Z
  else if (97 <=? n)%Z && (n <=? 102)%Z then Some (n - 87)%Z
  else if (65 <=? n)%Z && (n <=? 70)%Z then Some (n - 55)%Z
  else None.

Fixpoint hex_value (acc : Z) (s : string) : option Z :=
  match s with
  | EmptyString => Some acc
  | String a s => d ← hex_digit a; hex_value (16 * acc + d) s
  end.

Definition u64_from_hex (s : string) : option Z :=
  let digits := match s with String "+"%char s => s | _ => s end in
  match digits with
  | EmptyString => None
  | _ => n ← hex_value 0 digits; if (n <=? u64_max)%Z then Some n else None
  end.

(** [s.get(..n)]; the hash is ASCII. *)
Definition str_prefix (n : nat) (s : string) : option string :=
  if (n <=? String.length s)%nat then Some (String.substring 0 n s) else None.

Section route.
Context `{StableHash}.

(** The code panics where this is [None]: the hash has 64 digits. *)
Definition partition_for_key (key : string) (partitions : Z) : option Z :=
  prefix ← str_prefix 16 (stable_hash key);
  value ← u64_from_hex prefix;
  Some (value mod Z.max partitions 1)%Z.

Record QueueRoute := {
  qr_logical_topic : string;
  qr_key : string;
  qr_partition_key : string;
  qr_partition : option Z;
  qr_partitions : Z;
}.

Definition route_for_message (s : PushQueueStage) (key : string) (p : PushQueuePayload)
    : QueueRoute :=
  let partitions := default_partitions s in
  let partition_key := partition_key_for_payload s p in {|
  qr_logical_topic := logical_topic s; qr_key := key; qr_partition_key := partition_key;
  qr_partition := partition_for_key partition_key partitions; qr_partitions := partitions |}.
End route.

(** ** The queue *)

Record QueueAckToken := { at_stage : PushQueueStage; at_message_id : string }.

Record QueueMessage := {
  qm_message_id : string;
  qm_stage : PushQueueStage;
  qm_key : string;
  qm_partition_key : string;
  qm_partition : option Z;
  qm_payload : PushQueuePayload;
  qm_attempt : Z;
  qm_enqueued_at_ms : Z;
  qm_not_before_ms : option Z;
  qm_lease_deadline_ms : Z;
  qm_ack : QueueAckToken;
}.

Record StoredMessage := {
  sm_message_id : string;
  sm_key : string;
  sm_route : QueueRoute;
  sm_payload : PushQueuePayload;
  sm_attempt : Z;
  sm_enqueued_at_ms : Z;
  sm_not_before_ms : option Z;
  sm_lease_deadline_ms : Z;
}.

Record StoredDeadLetter := {
  sd_dead_letter_id : string;
  sd_dead_letter : DeadLetter;
  sd_provider : option PushProviderKind;
  sd_original_stage : option PushQueueStage;
  sd_original_key : option string;
  sd_original_payload : option PushQueuePayload;
}.

Record MemoryQueueState := {
  mq_next_id : Z;
  mq_ready : gmap PushQueueStage (list StoredMessage);
  mq_inflight : gmap (PushQueueStage * string) StoredMessage;
  mq_produced_keys : gmap PushQueueStage (gmap string string);
  mq_dead_letters : list StoredDeadLetter;
}.

Implicit Types (q : MemoryQueueState) (stage : PushQueueStage) (m : StoredMessage).

Definition empty_queue : MemoryQueueState := {|
  mq_next_id := 0; mq_ready := ∅; mq_inflight := ∅; mq_produced_keys := ∅; mq_dead_letters := [] |}.

Definition u32_max : Z := 4294967295.
Definition u32_saturating_add (a b : Z) : Z := Z.min (a + b) u32_max.

(** [ready.entry(stage).or_default().push_back(m)]. *)
Definition push_ready stage m (ready : gmap PushQueueStage (list StoredMessage))
    : gmap PushQueueStage (list StoredMessage) :=
  <[stage := default [] (ready !! stage) ++ [m]]> ready.

Definition remove_produced_key stage (key : string) q : MemoryQueueState := {|
  mq_next_id := mq_next_id q; mq_ready := mq_ready q; mq_inflight := mq_inflight q;
  mq_produced_keys :=
    match mq_produced_keys q !! stage with
    | None => mq_produced_keys q
    | Some keys =>
        let keys := delete key keys in
        if bool_decide (keys = ∅) then delete stage (mq_produced_keys q)
        else <[stage := keys]> (mq_produced_keys q)
    end;
  mq_dead_letters := mq_dead_letters q |}.

Section queue.
Context `{StableHash}.

Definition dead_letter_entry_id (d : DeadLetter) (source_message_id : string) : string :=
  stable_hash (dl_app_id d +:+ nul +:+ dl_publish_id d +:+ nul +:+ dl_stage d +:+ nul +:+ dl_key d
    +:+ nul +:+ dl_reason d +:+ nul +:+ pretty (dl_occurred_at_ms d) +:+ nul +:+ source_message_id).

(** [now] is the clock when the message is stored. *)
Definition enqueue (now : Z) stage (key : string) (payload : PushQueuePayload)
    (not_before_ms : option Z) q : MemoryQueueState * string :=
  match mq_produced_keys q !! stage ≫= (.!! key) with
  | Some existing => (q, existing)
  | None =>
      let next_id := u64_saturating_add (mq_next_id q) 1 in
      let message_id := "mem-" +:+ pretty next_id in
      ({| mq_next_id := next_id;
          mq_ready := push_ready stage {|
            sm_message_id := message_id; sm_key := key;
            sm_route := route_for_message stage key payload; sm_payload := payload;
            sm_attempt := 1; sm_enqueued_at_ms := now; sm_not_before_ms := not_before_ms;
            sm_lease_deadline_ms := 0 |} (mq_ready q);
          mq_inflight := mq_inflight q;
          mq_produced_keys :=
            <[stage := <[key := message_id]> (default ∅ (mq_produced_keys q !! stage))]>
              (mq_produced_keys q);
          mq_dead_letters :=
            match stage, payload with
            | DeadLetters, PDeadLetter d =>
                mq_dead_letters q ++ [{|
                  sd_dead_letter_id := dead_letter_entry_id d message_id; sd_dead_letter := d;
                  sd_provider := None; sd_original_stage := None; sd_original_key := None;
                  sd_original_payload := None |}]
            | _, _ => mq_dead_letters q
            end |}, message_id)
  end.

Definition queue_produce (now : Z) stage (key : string) (payload : PushQueuePayload) q
    : MemoryQueueState * string :=
  enqueue now stage key payload None q.

Definition queue_retry_at (now : Z) stage (key : string) (payload : PushQueuePayload)
    (not_before_ms : Z) q : MemoryQueueState * string :=
  enqueue now stage key payload (Some not_before_ms) q.

(** A message put back: one more attempt, no lease. *)
Definition requeued m (not_before_ms : option Z) : StoredMessage := {|
  sm_message_id := sm_message_id m; sm_key := sm_key m; sm_route := sm_route m;
  sm_payload := sm_payload m; sm_attempt := u32_saturating_add (sm_attempt m) 1;
  sm_enqueued_at_ms := sm_enqueued_at_ms m; sm_not_before_ms := not_before_ms;
  sm_lease_deadline_ms := 0 |}.

Definition reclaim_expired_leases (now : Z) q : MemoryQueueState :=
  let expired := filter (λ kv, (sm_lease_deadline_ms kv.2 ≤ now)%Z) (btree_list (mq_inflight q)) in {|
  mq_next_id := mq_next_id q;
  mq_ready := foldl (λ ready kv, push_ready kv.1.1 (requeued kv.2 (sm_not_before_ms kv.2)) ready)
                (mq_ready q) expired;
  mq_inflight := foldl (λ inflight kv, delete kv.1 inflight) (mq_inflight q) expired;
  mq_produced_keys := mq_produced_keys q; mq_dead_letters := mq_dead_letters q |}.

Definition leased (now lease_timeout_ms : Z) m : StoredMessage := {|
  sm_message_id := sm_message_id m; sm_key := sm_key m; sm_route := sm_route m;
  sm_payload := sm_payload m; sm_attempt := sm_attempt m;
  sm_enqueued_at_ms := sm_enqueued_at_ms m; sm_not_before_ms := sm_not_before_ms m;
  sm_lease_deadline_ms := u64_saturating_add now lease_timeout_ms |}.

Definition delivered stage m : QueueMessage := {|
  qm_message_id := sm_message_id m; qm_stage := stage; qm_key := sm_key m;
  qm_partition_key := qr_partition_key (sm_route m); qm_partition := qr_partition (sm_route m);
  qm_payload := sm_payload m; qm_attempt := sm_attempt m;
  qm_enqueued_at_ms := sm_enqueued_at_ms m; qm_not_before_ms := sm_not_before_ms m;
  qm_lease_deadline_ms := sm_lease_deadline_ms m;
  qm_ack := {| at_stage := stage; at_message_id := sm_message_id m |} |}.

Definition delayed (now : Z) m : bool :=
  match sm_not_before_ms m with Some not_before => (now <? not_before)%Z | None => false end.

(** The loop of [consume]: what is delivered and what is left, in order. *)
Fixpoint consume_ready (now : Z) (max_messages : nat) (queue : list StoredMessage)
    : list StoredMessage * list StoredMessage :=
  match queue with
  | [] => ([], [])
  | m :: queue =>
      match max_messages with
      | O => let '(out, deferred) := consume_ready now O queue in (out, m :: deferred)
      | S n =>
          if delayed now m
          then let '(out, deferred) := consume_ready now max_messages queue in (out, m :: deferred)
          else let '(out, deferred) := consume_ready now n queue in (m :: out, deferred)
      end
  end.

Definition queue_consume (now : Z) stage (max_messages : nat) (lease_timeout_ms : Z) q
    : MemoryQueueState * list QueueMessage :=
  let q := reclaim_expired_leases now q in
  let '(out, deferred) := consume_ready now max_messages (default [] (mq_ready q !! stage)) in
  let out := leased now lease_timeout_ms <$> out in
  ({| mq_next_id := mq_next_id q;
      mq_ready := <[stage := deferred]> (mq_ready q);
      mq_inflight := foldl (λ inflight m, <[(stage, sm_message_id m) := m]> inflight)
                       (mq_inflight q) out;
      mq_produced_keys := mq_produced_keys q; mq_dead_letters := mq_dead_letters q |},
   delivered stage <$> out).

Definition take_inflight (token : QueueAckToken) q : option (StoredMessage * MemoryQueueState) :=
  let key := (at_stage token, at_message_id token) in
  m ← mq_inflight q !! key;
  Some (m, {| mq_next_id := mq_next_id q; mq_ready := mq_ready q;
              mq_inflight := delete key (mq_inflight q);
              mq_produced_keys := mq_produced_keys q; mq_dead_letters := mq_dead_letters q |}).

Definition queue_ack (token : QueueAckToken) q : MemoryQueueState :=
  match take_inflight token q with
  | Some (m, q) => remove_produced_key (at_stage token) (sm_key m) q
  | None => q
  end.

Definition queue_nack (token : QueueAckToken) (retry_at_ms : option Z) q : MemoryQueueState :=
  match take_inflight token q with
  | Some (m, q) => {|
      mq_next_id := mq_next_id q;
      mq_ready := push_ready (at_stage token) (requeued m retry_at_ms) (mq_ready q);
      mq_inflight := mq_inflight q; mq_produced_keys := mq_produced_keys q;
      mq_dead_letters := mq_dead_letters q |}
  | None => q
  end.

Definition payload_publish_id (p : PushQueuePayload) : string :=
  match p with
  | PPublishLog _ publish_id _ | PShardJob _ publish_id _ => publish_id
  | PDeliveryBatch b => db_publish_id b
  | PDeliveryResult r => dr_publish_id r
  | PDeliveryFeedback f => dr_publish_id (df_result f)
  | PDeadLetter d => dl_publish_id d
  | PRetrySchedule e => re_publish_id e
  end.

Definition dead_letter_from_message (now : Z) stage m (reason : string) : DeadLetter := {|
  dl_app_id := payload_app (sm_payload m); dl_publish_id := payload_publish_id (sm_payload m);
  dl_stage := stage_debug stage; dl_key := sm_key m; dl_reason := reason;
  dl_occurred_at_ms := now |}.

(** [now] is the clock of the dead letter, [later] that of its message. *)
Definition queue_dead_letter (now later : Z) (token : QueueAckToken) (reason : string) q
    : MemoryQueueState :=
  match take_inflight token q with
  | None => q
  | Some (m, q) =>
      let q := remove_produced_key (at_stage token) (sm_key m) q in
      let d := dead_letter_from_message now (at_stage token) m reason in {|
      mq_next_id := mq_next_id q;
      mq_ready := push_ready DeadLetters {|
        sm_message_id := "dlq-" +:+ sm_message_id m; sm_key := dl_key d;
        sm_route := route_for_message DeadLetters (dl_key d) (PDeadLetter d);
        sm_payload := PDeadLetter d; sm_attempt := 1; sm_enqueued_at_ms := later;
        sm_not_before_ms := None; sm_lease_deadline_ms := 0 |} (mq_ready q);
      mq_inflight := mq_inflight q; mq_produced_keys := mq_produced_keys q;
      mq_dead_letters := mq_dead_letters q ++ [{|
        sd_dead_letter_id := dead_letter_entry_id d (sm_message_id m); sd_dead_letter := d;
        sd_provider := payload_provider (sm_payload m); sd_original_stage := Some (at_stage token);
        sd_original_key := Some (sm_key m); sd_original_payload := Some (sm_payload m) |}] |}
  end.

(** ** Dead letters *)

Record DeadLetterQueueEntry := {
  de_dead_letter_id : string;
  de_dead_letter : DeadLetter;
  de_provider : option PushProviderKind;
  de_replayable : bool;
}.

Definition dead_letter_entry (d : StoredDeadLetter) : DeadLetterQueueEntry := {|
  de_dead_letter_id := sd_dead_letter_id d; de_dead_letter := sd_dead_letter d;
  de_provider := sd_provider d;
  de_replayable := bool_decide (is_Some (sd_original_stage d)) &&
    bool_decide (is_Some (sd_original_key d)) && bool_decide (is_Some (sd_original_payload d)) |}.

Record DeadLetterQueueFilter := {
  dq_provider : option PushProviderKind;
  dq_since_ms : option Z;
  dq_until_ms : option Z;
}.

(** [format!("{:020}", n)]. *)
Definition pad20 (n : Z) : string :=
  let digits : string := pretty n in
  String.concat "" (replicate (20 - String.length digits) "0") +:+ digits.

Definition dead_letter_entry_position (e : DeadLetterQueueEntry) : string :=
  pad20 (dl_occurred_at_ms (de_dead_letter e)) +:+ ":" +:+ de_dead_letter_id e.

Definition dead_letter_selected (app_id : string) (f : DeadLetterQueueFilter)
    (position : option string) (e : DeadLetterQueueEntry) : bool :=
  bool_decide (dl_app_id (de_dead_letter e) = app_id)
  && match dq_provider f with
     | None => true | Some p => bool_decide (de_provider e = Some p) end
  && match dq_since_ms f with
     | None => true | Some since => (since <=? dl_occurred_at_ms (de_dead_letter e))%Z end
  && match dq_until_ms f with
     | None => true | Some until => (dl_occurred_at_ms (de_dead_letter e) <=? until)%Z end
  && match position with
     | None => true | Some p => key_ltb p (dead_letter_entry_position e) end.

Definition position_le (e e' : DeadLetterQueueEntry) : Prop :=
  key_le (dead_letter_entry_position e) (dead_letter_entry_position e').

#[export] Instance position_le_dec : RelDecision position_le.
Proof. intros e e'. unfold position_le. apply _. Defined.

(** The items of a page and the cursor of the next; an error is its text. *)
Definition page_dead_letter_entries (now : Z) (app_id : string) (f : DeadLetterQueueFilter)
    (limit : Z) (cursor : option PushCursor) (entries : list DeadLetterQueueEntry)
    : result string (list DeadLetterQueueEntry * option PushCursor) :=
  let? position :=
    match cursor with
    | None => Ok None
    | Some cursor =>
        if bool_decide (cu_app_id cursor ≠ app_id) then
          Err ("dead-letter cursor belongs to app " +:+ cu_app_id cursor +:+ ", expected " +:+ app_id)
        else if bool_decide (cu_kind cursor ≠ CursorDeadLetter) then
          Err "cursor is not a dead-letter cursor"
        else Ok (Some (cu_position cursor))
    end in
  let sorted := stable_sort position_le
    (filter (λ e, dead_letter_selected app_id f position e = true) entries) in
  let limit := Z.max limit 1 in
  let page_items := take (Z.to_nat (u64_saturating_add limit 1)) sorted in
  Ok (if (limit <? Z.of_nat (length page_items))%Z then
        let page_items := take (Z.to_nat limit) page_items in
        (page_items,
         (λ e, {| cu_app_id := app_id; cu_kind := CursorDeadLetter;
                  cu_position := dead_letter_entry_position e; cu_issued_at_ms := now |})
           <$> last page_items)
      else (page_items, None)).

Definition list_dead_letters (now : Z) (app_id : string) (f : DeadLetterQueueFilter) (limit : Z)
    (cursor : option PushCursor) q
    : result string (list DeadLetterQueueEntry * option PushCursor) :=
  page_dead_letter_entries now app_id f limit cursor (dead_letter_entry <$> mq_dead_letters q).

Record DeadLetterReplayResult := {
  rr_dead_letter_id : string;
  rr_replayed : bool;
  rr_message_id : option string;
  rr_reason : option string;
}.

Definition replay_dead_letter (now : Z) (app_id dead_letter_id : string) q
    : MemoryQueueState * option DeadLetterReplayResult :=
  match list_find (λ d, dl_app_id (sd_dead_letter d) = app_id
                        ∧ sd_dead_letter_id d = dead_letter_id) (mq_dead_letters q) with
  | None => (q, None)
  | Some (_, stored) =>
      match sd_original_stage stored, sd_original_key stored, sd_original_payload stored with
      | Some stage, Some key, Some payload =>
          let '(q, message_id) := enqueue now stage key payload None q in
          (q, Some {| rr_dead_letter_id := dead_letter_id; rr_replayed := true;
                      rr_message_id := Some message_id; rr_reason := None |})
      | _, _, _ =>
          (q, Some {| rr_dead_letter_id := dead_letter_id; rr_replayed := false;
                      rr_message_id := None;
                      rr_reason := Some "dead-letter does not retain an original queue payload" |})
      end
  end.

(** ** Lag *)

Record QueueLagMetrics := {
  ql_ready_depth : Z;
  ql_delayed_depth : Z;
  ql_inflight_depth : Z;
  ql_dead_letter_depth : Z;
  ql_oldest_ready_age_ms : option Z;
  ql_oldest_delayed_age_ms : option Z;
  ql_oldest_inflight_age_ms : option Z;
}.

Definition max_optional_u64 (left right : option Z) : option Z :=
  match left, right with
  | Some l, Some r => Some (Z.max l r)
  | Some v, None | None, Some v => Some v
  | None, None => None
  end.

Definition queue_message_age_ms m (now : Z) : Z := u64_saturating_sub now (sm_enqueued_at_ms m).

Definition oldest_age (now : Z) (ms : list StoredMessage) : option Z :=
  foldl (λ oldest m, max_optional_u64 oldest (Some (queue_message_age_ms m now))) None ms.

Definition queue_lag (now : Z) stage q : QueueLagMetrics :=
  let queue := default [] (mq_ready q !! stage) in
  let waiting := filter (λ m, delayed now m = true) queue in
  let ready := filter (λ m, delayed now m = false) queue in
  let inflight := (filter (λ kv, kv.1.1 = stage) (btree_list (mq_inflight q))).*2 in {|
  ql_ready_depth := Z.of_nat (length ready); ql_delayed_depth := Z.of_nat (length waiting);
  ql_inflight_depth := Z.of_nat (length inflight);
  ql_dead_letter_depth := Z.of_nat (length (mq_dead_letters q));
  ql_oldest_ready_age_ms := oldest_age now ready;
  ql_oldest_delayed_age_ms := oldest_age now waiting;
  ql_oldest_inflight_age_ms := oldest_age now inflight |}.
End queue.
