(* ===== verification/PushQueueThms.v ===== *)
(** * The push queue as a multiset of messages

    What the queue holds, ready or in flight, as a list up to order; each operation keeps it,
    adds one message or takes one out. With it: message ids are never reused, a key names at
    most one outstanding message of its stage, and a leased message is not delivered twice. *)

From Stdlib Require Import ZArith Lia Ascii.
From stdpp Require Import base gmap strings list sorting pretty.
From S2P Require Import Prelude Messages PushTypes PushQueue.

Implicit Types (q : MemoryQueueState) (stage : PushQueueStage) (m : StoredMessage).

(** ** Contents *)

Notation item := (PushQueueStage * (string * string * PushQueuePayload))%type.

Definition item_of stage m : item := (stage, (sm_message_id m, sm_key m, sm_payload m)).
Definition item_id (i : item) : string := i.2.1.1.
Definition item_key (i : item) : PushQueueStage * string := (i.1, i.2.1.2).

Definition ready_items (r : gmap PushQueueStage (list StoredMessage)) : list item :=
  map_to_list r ≫= λ sl, item_of sl.1 <$> sl.2.

Definition inflight_items (i : gmap (PushQueueStage * string) StoredMessage) : list item :=
  (λ km, item_of km.1.1 km.2) <$> map_to_list i.

Definition contents q : list item := ready_items (mq_ready q) ++ inflight_items (mq_inflight q).

Lemma ready_items_insert stage l r :
  ready_items (<[stage := l]> r) ≡ₚ (item_of stage <$> l) ++ ready_items (delete stage r).
Proof.
  unfold ready_items. rewrite <- insert_delete_eq.
  rewrite map_to_list_insert by apply lookup_delete_eq. done.
Qed.

Lemma ready_items_split stage r :
  ready_items r ≡ₚ (item_of stage <$> default [] (r !! stage)) ++ ready_items (delete stage r).
Proof.
  destruct (r !! stage) as [l|] eqn:Hl; simpl.
  - rewrite <- (insert_id r stage l) at 1 by done. apply ready_items_insert.
  - by rewrite delete_id.
Qed.

Lemma push_ready_items stage m r :
  ready_items (push_ready stage m r) ≡ₚ item_of stage m :: ready_items r.
Proof.
  unfold push_ready. rewrite ready_items_insert, fmap_app, (ready_items_split stage r). simpl.
  rewrite <- app_assoc. simpl. by rewrite <- Permutation_middle.
Qed.

Lemma inflight_items_insert k m i :
  i !! k = None → inflight_items (<[k := m]> i) ≡ₚ item_of k.1 m :: inflight_items i.
Proof. intros Hk. unfold inflight_items. by rewrite map_to_list_insert. Qed.

Lemma inflight_items_delete k m i :
  i !! k = Some m → inflight_items i ≡ₚ item_of k.1 m :: inflight_items (delete k i).
Proof.
  intros Hk. rewrite <- (insert_id i k m) at 1 by done. rewrite <- insert_delete_eq.
  by rewrite inflight_items_insert by apply lookup_delete_eq.
Qed.

(** ** Taking back expired leases *)

Lemma reclaim_items (l : list ((PushQueueStage * string) * StoredMessage)) r i :
  NoDup l.*1 → (∀ k m, (k, m) ∈ l → i !! k = Some m) →
  ready_items (foldl (λ r kv, push_ready kv.1.1 (requeued kv.2 (sm_not_before_ms kv.2)) r) r l)
    ++ inflight_items (foldl (λ i kv, delete kv.1 i) i l)
  ≡ₚ ready_items r ++ inflight_items i.
Proof.
  revert r i. induction l as [|[k m] l IH]; intros r i Hnd Hin; [done|]. simpl.
  apply NoDup_cons in Hnd as [Hk Hnd].
  rewrite IH; [|done|].
  - rewrite push_ready_items, (inflight_items_delete k m i) by (apply Hin; left).
    by rewrite <- Permutation_middle.
  - intros k' m' Hk'. rewrite lookup_delete_ne; [apply Hin; by right|].
    intros ->. apply Hk, list_elem_of_fmap. by exists (k', m').
Qed.

Definition expired_leases (now : Z) q : list ((PushQueueStage * string) * StoredMessage) :=
  filter (λ kv, (sm_lease_deadline_ms kv.2 ≤ now)%Z) (btree_list (mq_inflight q)).

Lemma expired_leases_spec now q k m :
  (k, m) ∈ expired_leases now q ↔
  mq_inflight q !! k = Some m ∧ (sm_lease_deadline_ms m ≤ now)%Z.
Proof. unfold expired_leases. rewrite list_elem_of_filter, elem_of_btree_list. naive_solver. Qed.

Lemma reclaim_contents now q : contents (reclaim_expired_leases now q) ≡ₚ contents q.
Proof.
  apply reclaim_items; [|intros k m Hkm; by apply (expired_leases_spec now q k m) in Hkm as [? _]].
  eapply sublist_NoDup; [apply (btree_list_NoDup_fst (mq_inflight q))|].
  apply fmap_sublist, sublist_filter.
Qed.

Lemma reclaimed_lookup (l : list ((PushQueueStage * string) * StoredMessage))
    (i : gmap (PushQueueStage * string) StoredMessage) k m :
  foldl (λ i kv, delete kv.1 i) i l !! k = Some m →
  i !! k = Some m ∧ k ∉ l.*1.
Proof.
  revert i. induction l as [|kv l IH]; intros i; simpl; [intros ->; split; [done|apply not_elem_of_nil]|].
  intros [Hk Hn]%IH. apply lookup_delete_Some in Hk as [Hne Hk].
  split; [done|]. rewrite not_elem_of_cons. done.
Qed.

(** ** Ids *)

(** An id without the marks of dead letters. *)
Fixpoint base_id (s : string) : string :=
  match s with
  | String "d" (String "l" (String "q" (String "-" s'))) => base_id s'
  | _ => s
  end%char.

Definition mem_id (n : Z) : string := "mem-" +:+ pretty n.

Lemma base_id_dlq s : base_id ("dlq-" +:+ s) = base_id s.
Proof. done. Qed.

Lemma base_id_mem n : base_id (mem_id n) = mem_id n.
Proof. done. Qed.

#[export] Instance mem_id_inj : Inj (=) (=) mem_id.
Proof. intros n n' Heq. apply (inj (String.append "mem-")) in Heq. by apply (inj pretty) in Heq. Qed.

Notation bases l := (base_id ∘ item_id <$> l).

(** The outstanding message that a key of a stage is registered for. *)
Definition registered q stage (key : string) : option string :=
  mq_produced_keys q !! stage ≫= (.!! key).

Record queue_wf q : Prop := {
  wf_next : (0 ≤ mq_next_id q)%Z;
  wf_keyed : ∀ k m, mq_inflight q !! k = Some m → k.2 = sm_message_id m;
  wf_distinct : NoDup (bases (contents q));
  wf_bounded : ∀ b, b ∈ bases (contents q) → ∃ n, b = mem_id n ∧ (n ≤ mq_next_id q)%Z;
  wf_registered : ∀ stage key id, stage ≠ DeadLetters →
    registered q stage key = Some id ↔ ∃ p, (stage, (id, key, p)) ∈ contents q;
}.

Lemma empty_queue_wf : queue_wf empty_queue.
Proof.
  split; simpl; [done|..].
  - intros k m. by rewrite lookup_empty.
  - apply NoDup_nil_2.
  - intros b Hb. by apply not_elem_of_nil in Hb.
  - intros stage key id _. unfold registered. simpl. rewrite lookup_empty. simpl.
    split; [done|]. intros [p Hp]. by apply not_elem_of_nil in Hp.
Qed.

Lemma wf_id_eq q x y :
  queue_wf q → x ∈ contents q → y ∈ contents q → base_id (item_id x) = base_id (item_id y) → x = y.
Proof.
  intros Hwf [i Hi]%list_elem_of_lookup [j Hj]%list_elem_of_lookup Heq.
  assert (i = j) as <-; [|congruence].
  apply (NoDup_lookup (bases (contents q)) i j (base_id (item_id x))); [apply Hwf|..];
    rewrite list_lookup_fmap; [by rewrite Hi|rewrite Hj; simpl; by rewrite Heq].
Qed.

(** A key names at most one outstanding message. *)
Lemma wf_key_eq q x y :
  queue_wf q → x ∈ contents q → y ∈ contents q → x.1 ≠ DeadLetters → item_key x = item_key y → x = y.
Proof.
  destruct x as [s [[id key] p]], y as [s' [[id' key'] p']]. simpl.
  intros Hwf Hx Hy Hs [= <- <-]. apply (wf_id_eq q); [done..|]. change (base_id id = base_id id'). f_equal.
  assert (registered q s key = Some id) as H1 by (apply (wf_registered q); eauto).
  assert (registered q s key = Some id') as H2 by (apply (wf_registered q); eauto).
  congruence.
Qed.

(** An operation that keeps the contents, the counter and the registered keys. *)
Lemma wf_same q q' :
  queue_wf q → contents q' ≡ₚ contents q → mq_next_id q' = mq_next_id q →
  mq_produced_keys q' = mq_produced_keys q →
  (∀ k m, mq_inflight q' !! k = Some m → k.2 = sm_message_id m) → queue_wf q'.
Proof.
  intros [H1 H2 H3 H4 H5] Hc Hn Hk Hi. split; [by rewrite Hn|done|..].
  - by rewrite Hc.
  - intros b. rewrite Hc, Hn. apply H4.
  - intros stage key id Hs. unfold registered. rewrite Hk. rewrite (H5 stage key id Hs).
    by setoid_rewrite Hc.
Qed.

Lemma wf_removed q q' x :
  queue_wf q → contents q ≡ₚ x :: contents q' → mq_next_id q' = mq_next_id q →
  (∀ k m, mq_inflight q' !! k = Some m → k.2 = sm_message_id m) →
  (∀ s key, registered q' s key = if decide ((s, key) = item_key x) then None
                                  else registered q s key) →
  queue_wf q' ∧ base_id (item_id x) ∉ bases (contents q').
Proof.
  intros Hwf Hc Hn Hi Hr. assert (Hnd := wf_distinct q Hwf). rewrite Hc in Hnd. simpl in Hnd.
  apply NoDup_cons in Hnd as [Hx Hnd]. split; [split|done].
  - rewrite Hn. apply Hwf.
  - done.
  - done.
  - intros b Hb. rewrite Hn. apply (wf_bounded q Hwf). rewrite Hc. by right.
  - intros s key id Hs. rewrite Hr. case_decide as Hk.
    + split; [done|]. intros [p Hp]. contradict Hx.
      rewrite (wf_key_eq q x (s, (id, key, p))); [|done|..|by rewrite <- Hk].
      * apply list_elem_of_fmap. by eexists.
      * rewrite Hc. left.
      * rewrite Hc. by right.
      * injection Hk. congruence.
    + rewrite (wf_registered q Hwf s key id Hs). setoid_rewrite Hc.
      split; intros [p Hp]; exists p; [|by right].
      apply elem_of_cons in Hp as [<-|Hp]; [by contradict Hk|done].
Qed.

Lemma wf_added q q' x :
  queue_wf q → contents q' ≡ₚ x :: contents q → base_id (item_id x) ∉ bases (contents q) →
  (∃ n, base_id (item_id x) = mem_id n ∧ (n ≤ mq_next_id q')%Z) →
  (mq_next_id q ≤ mq_next_id q')%Z →
  (∀ k m, mq_inflight q' !! k = Some m → k.2 = sm_message_id m) →
  (∀ s key id, s ≠ DeadLetters → registered q' s key = Some id ↔
     (item_key x = (s, key) ∧ item_id x = id) ∨ registered q s key = Some id) →
  queue_wf q'.
Proof.
  intros Hwf Hc Hx Hb Hn Hi Hr. split.
  - pose proof (wf_next q Hwf). lia.
  - done.
  - rewrite Hc. simpl. apply NoDup_cons. split; [done|apply Hwf].
  - intros b. rewrite Hc. simpl. intros [->|Hin]%elem_of_cons; [done|].
    apply (wf_bounded q Hwf) in Hin as (n & -> & Hle). exists n. split; [done|lia].
  - intros s key id Hs. rewrite (Hr s key id Hs), (wf_registered q Hwf s key id Hs).
    setoid_rewrite Hc. setoid_rewrite elem_of_cons. destruct x as [s' [[id' key'] p']].
    split; [|naive_solver].
    intros [[[= -> ->] <-]|[p Hp]]; [exists p'; by left|exists p; by right].
Qed.

Section operations.
Context `{StableHash}.

(** ** Enqueueing *)

Lemma enqueue_known now stage key payload not_before q id :
  registered q stage key = Some id →
  enqueue now stage key payload not_before q = (q, id).
Proof. unfold enqueue, registered. by intros ->. Qed.

Lemma enqueue_new now stage key payload not_before q :
  registered q stage key = None →
  let id := mem_id (u64_saturating_add (mq_next_id q) 1) in
  let q' := (enqueue now stage key payload not_before q).1 in
  (enqueue now stage key payload not_before q).2 = id ∧
  contents q' ≡ₚ (stage, (id, key, payload)) :: contents q ∧
  mq_next_id q' = u64_saturating_add (mq_next_id q) 1 ∧
  mq_inflight q' = mq_inflight q ∧
  (∀ s k, registered q' s k = if decide ((s, k) = (stage, key)) then Some id else registered q s k).
Proof.
  unfold enqueue, registered. intros ->. cbn [fst snd mq_next_id mq_inflight mq_produced_keys].
  split_and!; [done| |done|done|].
  - unfold contents. cbn [mq_ready mq_inflight]. by rewrite push_ready_items.
  - intros s k. destruct (decide (s = stage)) as [->|Hs].
    + rewrite lookup_insert_eq. cbn [mbind option_bind]. destruct (decide (k = key)) as [->|Hk].
      * by rewrite lookup_insert_eq, decide_True.
      * rewrite lookup_insert_ne, decide_False by congruence.
        destruct (mq_produced_keys q !! stage); simpl; [done|apply lookup_empty].
    + by rewrite lookup_insert_ne, decide_False by congruence.
Qed.

Lemma enqueue_wf now stage key payload not_before q :
  queue_wf q → (mq_next_id q < u64_max)%Z →
  queue_wf (enqueue now stage key payload not_before q).1.
Proof.
  intros Hwf Hmax. destruct (registered q stage key) as [id|] eqn:Hr.
  { by rewrite (enqueue_known _ _ _ _ _ _ id). }
  destruct (enqueue_new now stage key payload not_before q Hr) as (_ & Hc & Hn & Hi & Hk).
  assert (u64_saturating_add (mq_next_id q) 1 = mq_next_id q + 1)%Z as Hs
    by (unfold u64_saturating_add; lia).
  eapply (wf_added q _ _ Hwf Hc).
  - change (mem_id (u64_saturating_add (mq_next_id q) 1) ∉ bases (contents q)).
    intros (n & Heq & Hle)%(wf_bounded q Hwf). apply (inj mem_id) in Heq. lia.
  - exists (u64_saturating_add (mq_next_id q) 1). split; [done|by rewrite Hn].
  - lia.
  - rewrite Hi. apply Hwf.
  - intros s k id _. rewrite Hk. unfold item_key, item_id. cbn [fst snd].
    case_decide as Heq; [injection Heq as -> ->; rewrite Hr; naive_solver|naive_solver].
Qed.

(** ** Settling a message in flight *)

Lemma registered_remove q stage key s k :
  registered (remove_produced_key stage key q) s k =
  if decide ((s, k) = (stage, key)) then None else registered q s k.
Proof.
  unfold registered, remove_produced_key. cbn [mq_produced_keys].
  destruct (mq_produced_keys q !! stage) as [keys|] eqn:Hs.
  2:{ case_decide as Heq; [|done]. injection Heq as -> ->. by rewrite Hs. }
  case_bool_decide as Hempty.
  - destruct (decide (s = stage)) as [->|Hne].
    + rewrite lookup_delete_eq, Hs. simpl. case_decide as Heq; [done|].
      rewrite <- (lookup_delete_ne keys key k) by congruence. by rewrite Hempty, lookup_empty.
    + by rewrite lookup_delete_ne, decide_False by congruence.
  - destruct (decide (s = stage)) as [->|Hne].
    + rewrite lookup_insert_eq, Hs. simpl. destruct (decide (k = key)) as [->|Hk].
      * by rewrite lookup_delete_eq, decide_True.
      * by rewrite lookup_delete_ne, decide_False by congruence.
    + by rewrite lookup_insert_ne, decide_False by congruence.
Qed.

Lemma keyed_delete (k : PushQueueStage * string) (i : gmap (PushQueueStage * string) StoredMessage) :
  (∀ k m, i !! k = Some m → k.2 = sm_message_id m) →
  ∀ k' m, delete k i !! k' = Some m → k'.2 = sm_message_id m.
Proof. intros Hi k' m [_ Hk]%lookup_delete_Some. by apply Hi. Qed.

(** The message of a token, if it is in flight. *)
Definition held q (token : QueueAckToken) : option StoredMessage :=
  mq_inflight q !! (at_stage token, at_message_id token).

Lemma ack_removes token q m :
  queue_wf q → held q token = Some m →
  contents q ≡ₚ item_of (at_stage token) m :: contents (queue_ack token q) ∧
  queue_wf (queue_ack token q) ∧
  base_id (sm_message_id m) ∉ bases (contents (queue_ack token q)).
Proof.
  intros Hwf Hm. unfold held in Hm.
  assert (contents q ≡ₚ item_of (at_stage token) m :: contents (queue_ack token q)) as Hc.
  { unfold queue_ack, take_inflight. rewrite Hm. unfold contents. simpl.
    rewrite (inflight_items_delete _ _ _ Hm). simpl. by rewrite <- Permutation_middle. }
  split; [done|]. apply (wf_removed q _ (item_of (at_stage token) m)); [done..| | |];
    unfold queue_ack, take_inflight; rewrite Hm; cbn [mbind option_bind].
  - done.
  - cbn [mq_inflight remove_produced_key]. apply keyed_delete, Hwf.
  - intros s k. rewrite registered_remove. done.
Qed.

Lemma ack_unknown token q : held q token = None → queue_ack token q = q.
Proof. unfold held, queue_ack, take_inflight. by intros ->. Qed.

Lemma nack_contents token at_ms q : contents (queue_nack token at_ms q) ≡ₚ contents q.
Proof.
  unfold queue_nack, take_inflight.
  destruct (mq_inflight q !! (at_stage token, at_message_id token)) as [m|] eqn:Hm; [|done].
  unfold contents. simpl. rewrite push_ready_items, (inflight_items_delete _ _ _ Hm).
  by rewrite <- Permutation_middle.
Qed.

Lemma nack_wf token at_ms q : queue_wf q → queue_wf (queue_nack token at_ms q).
Proof.
  intros Hwf. apply (wf_same q _ Hwf (nack_contents token at_ms q)); unfold queue_nack, take_inflight;
    destruct (mq_inflight q !! (at_stage token, at_message_id token)) as [m|]; try done;
    [apply keyed_delete, Hwf|apply Hwf].
Qed.

(** What a dead-lettered message becomes. *)
Definition dead_item (now : Z) (token : QueueAckToken) m (reason : string) : item :=
  (DeadLetters, ("dlq-" +:+ sm_message_id m, sm_key m,
                 PDeadLetter (dead_letter_from_message now (at_stage token) m reason))).

Lemma dead_letter_unknown now later token reason q :
  held q token = None → queue_dead_letter now later token reason q = q.
Proof. unfold held, queue_dead_letter, take_inflight. by intros ->. Qed.

Lemma dead_letter_moves now later token reason q m :
  queue_wf q → held q token = Some m →
  let q' := queue_dead_letter now later token reason q in
  contents q' ≡ₚ dead_item now token m reason :: contents (queue_ack token q) ∧ queue_wf q'.
Proof.
  intros Hwf Hm q'. destruct (ack_removes token q m Hwf Hm) as (Hq & Hwa & Hb).
  assert (contents q' ≡ₚ dead_item now token m reason :: contents (queue_ack token q)) as Hc.
  { subst q'. unfold held in Hm. unfold queue_dead_letter, queue_ack, take_inflight. rewrite Hm.
    unfold contents. simpl. by rewrite push_ready_items. }
  split; [done|]. apply (wf_added _ _ _ Hwa Hc).
  - done.
  - destruct (wf_bounded q Hwf (base_id (sm_message_id m))) as (n & Hn & Hle).
    { rewrite Hq. left. }
    exists n. split; [done|]. subst q'. unfold held in Hm. unfold queue_dead_letter, take_inflight.
    rewrite Hm. done.
  - subst q'. unfold held in Hm. unfold queue_dead_letter, queue_ack, take_inflight. rewrite Hm. done.
  - subst q'. unfold held in Hm. unfold queue_dead_letter, take_inflight. rewrite Hm.
    apply keyed_delete, Hwf.
  - intros s key id Hs. subst q'. unfold held in Hm.
    unfold queue_dead_letter, queue_ack, take_inflight. rewrite Hm. cbn [mbind option_bind].
    unfold registered at 1. cbn [mq_produced_keys]. fold (registered
      (remove_produced_key (at_stage token) (sm_key m) q) s key).
    unfold item_key. simpl. split; [by right|]. intros [[[= <- _] _]|Hr]; done.
Qed.

(** ** Consuming *)

(** The first [n] due messages, in order; the rest stays in order. *)
Lemma consume_ready_spec now n queue :
  let '(out, deferred) := consume_ready now n queue in
  out = take n (filter (λ m, delayed now m = false) queue) ∧
  out ++ deferred ≡ₚ queue ∧ deferred `sublist_of` queue.
Proof.
  revert n. induction queue as [|m queue IH]; intros n; simpl; [by destruct n|].
  destruct n as [|n].
  - specialize (IH 0). destruct (consume_ready now 0 queue) as [out deferred].
    destruct IH as (-> & Hp & Hs). simpl. split_and!; [done|by rewrite <- Hp|by constructor].
  - destruct (delayed now m) eqn:Hd.
    + specialize (IH (S n)). destruct (consume_ready now (S n) queue) as [out deferred].
      destruct IH as (-> & Hp & Hs). rewrite filter_cons_False by congruence.
      split_and!; [done|by rewrite <- Permutation_middle, Hp|by constructor].
    + specialize (IH n). destruct (consume_ready now n queue) as [out deferred].
      destruct IH as (-> & Hp & Hs). rewrite filter_cons_True by done.
      split_and!; [done|simpl; by rewrite Hp|by constructor].
Qed.

Lemma insert_inflight_items stage out i :
  NoDup (sm_message_id <$> out) →
  (∀ m, m ∈ out → i !! (stage, sm_message_id m) = None) →
  inflight_items (foldl (λ i m, <[(stage, sm_message_id m) := m]> i) i out)
  ≡ₚ (item_of stage <$> out) ++ inflight_items i.
Proof.
  revert i. induction out as [|m out IH]; intros i Hnd Hin; [done|]. simpl.
  apply NoDup_cons in Hnd as [Hm Hnd]. rewrite IH; [|done|].
  - rewrite inflight_items_insert by (apply Hin; left). by rewrite <- Permutation_middle.
  - intros m' Hm'. rewrite lookup_insert_ne; [apply Hin; by right|].
    intros [= Heq]. apply Hm. rewrite Heq. by apply list_elem_of_fmap_2.
Qed.

Lemma insert_inflight_lookup stage (out : list StoredMessage)
    (i : gmap (PushQueueStage * string) StoredMessage) (k : PushQueueStage * string) m :
  foldl (λ i m, <[(stage, sm_message_id m) := m]> i) i out !! k = Some m →
  i !! k = Some m ∨ k = (stage, sm_message_id m).
Proof.
  revert i. induction out as [|m' out IH]; intros i; [by left|]. simpl.
  intros [Hk|Hk]%IH; [|by right]. apply lookup_insert_Some in Hk as [[<- <-]|[_ Hk]]; auto.
Qed.

Lemma reclaim_leases_wf now q : queue_wf q → queue_wf (reclaim_expired_leases now q).
Proof.
  intros Hwf. apply (wf_same q _ Hwf (reclaim_contents now q)); [done..|].
  intros k m Hk. apply reclaimed_lookup in Hk as [Hk _]. by apply Hwf.
Qed.

(** A lease that has not ended keeps its message. *)
Lemma reclaim_keeps now q k m :
  mq_inflight q !! k = Some m → (now < sm_lease_deadline_ms m)%Z →
  mq_inflight (reclaim_expired_leases now q) !! k = Some m.
Proof.
  intros Hk Hlt. simpl. fold (expired_leases now q).
  assert (k ∉ (expired_leases now q).*1) as Hn.
  { intros [[k' m'] [-> Hin]]%list_elem_of_fmap. apply expired_leases_spec in Hin as [Hk' Hle].
    simpl in Hk. rewrite Hk in Hk'. injection Hk' as <-. lia. }
  revert Hk. generalize (mq_inflight q). induction (expired_leases now q) as [|kv l IH];
    intros i Hk; [done|]. simpl. apply not_elem_of_cons in Hn as [Hne Hn].
  apply IH; [done|]. by rewrite lookup_delete_ne.
Qed.

(** Messages of a stage, ready and in flight, have distinct ids. *)
Lemma ready_inflight_distinct q stage :
  queue_wf q →
  NoDup (sm_message_id <$> default [] (mq_ready q !! stage)) ∧
  (∀ m, m ∈ default [] (mq_ready q !! stage) → mq_inflight q !! (stage, sm_message_id m) = None).
Proof.
  intros Hwf. assert (Hnd := wf_distinct q Hwf). unfold contents in Hnd.
  rewrite (ready_items_split stage), !fmap_app in Hnd. split.
  - apply NoDup_app in Hnd as [Hnd _]. apply NoDup_app in Hnd as [Hnd _].
    rewrite <- list_fmap_compose in Hnd.
    apply (NoDup_fmap_1 base_id). by rewrite <- list_fmap_compose.
  - intros m Hm. destruct (mq_inflight q !! _) as [m'|] eqn:Hi; [|done]. exfalso.
    apply NoDup_app in Hnd as (_ & Hdis & _). apply (Hdis (base_id (sm_message_id m))).
    + apply elem_of_app. left. rewrite <- list_fmap_compose.
      apply (list_elem_of_fmap_2 (λ m, base_id (item_id (item_of stage m)))). done.
    + assert (sm_message_id m = sm_message_id m') as -> by apply (wf_keyed q Hwf _ _ Hi).
      rewrite (inflight_items_delete _ _ _ Hi). left.
Qed.

Lemma insert_inflight_held stage (out : list StoredMessage)
    (i : gmap (PushQueueStage * string) StoredMessage) m :
  NoDup (sm_message_id <$> out) → m ∈ out →
  foldl (λ i m, <[(stage, sm_message_id m) := m]> i) i out !! (stage, sm_message_id m) = Some m.
Proof.
  intros Hnd (l1 & l2 & ->)%list_elem_of_split. rewrite foldl_app. simpl.
  rewrite fmap_app in Hnd. apply NoDup_app in Hnd as (_ & _ & Hnd). simpl in Hnd.
  apply NoDup_cons in Hnd as [Hm _]. generalize (foldl (λ i m, <[(stage, sm_message_id m) := m]> i) i l1).
  revert Hm. induction l2 as [|m' l2 IH] using rev_ind; intros Hm j; simpl.
  - apply lookup_insert_eq.
  - rewrite fmap_app, not_elem_of_app in Hm. destruct Hm as [Hm Hm'].
    rewrite foldl_app. simpl. rewrite lookup_insert_ne; [by apply IH|].
    intros [= Heq]. apply Hm'. simpl. rewrite Heq. apply list_elem_of_singleton. done.
Qed.

(** The messages that a [consume] delivers: the first due ones, expired leases taken back. *)
Definition due_messages (now : Z) stage (n : nat) q : list StoredMessage :=
  take n (filter (λ m, delayed now m = false)
            (default [] (mq_ready (reclaim_expired_leases now q) !! stage))).

Lemma due_ready now stage n q m :
  m ∈ due_messages now stage n q →
  m ∈ default [] (mq_ready (reclaim_expired_leases now q) !! stage).
Proof.
  intros (i & Hm & _)%elem_of_take. apply list_elem_of_lookup_2 in Hm.
  by apply list_elem_of_filter in Hm as [_ Hm].
Qed.

Lemma consume_spec now stage n lease q :
  queue_wf q →
  let due := due_messages now stage n q in
  let '(q', ms) := queue_consume now stage n lease q in
  ms = delivered stage <$> (leased now lease <$> due) ∧ contents q' ≡ₚ contents q ∧ queue_wf q' ∧
  (∀ m, m ∈ due → mq_inflight q' !! (stage, sm_message_id m) = Some (leased now lease m)).
Proof.
  intros Hwf. apply (reclaim_leases_wf now) in Hwf. cbv zeta. unfold queue_consume, due_messages.
  generalize (reclaim_contents now q). revert Hwf. generalize (contents q).
  generalize (reclaim_expired_leases now q). clear q. intros q items Hwf Hrc.
  destruct (ready_inflight_distinct q stage Hwf) as [Hnd Hfresh].
  assert (Hready := ready_items_split stage (mq_ready q)).
  assert (Hspec := consume_ready_spec now n (default [] (mq_ready q !! stage))).
  destruct (consume_ready now n (default [] (mq_ready q !! stage))) as [out deferred].
  destruct Hspec as (<- & Hp & _).
  assert (sm_message_id <$> (leased now lease <$> out) = sm_message_id <$> out) as Hids
    by (rewrite <- list_fmap_compose; by apply list_fmap_ext).
  assert (item_of stage <$> (leased now lease <$> out) = item_of stage <$> out) as Hitems
    by (rewrite <- list_fmap_compose; by apply list_fmap_ext).
  assert (NoDup (sm_message_id <$> out)) as Hout.
  { rewrite <- Hp, fmap_app in Hnd. by apply NoDup_app in Hnd as [Hnd _]. }
  cbv zeta. match goal with |- context [queue_wf ?x] => set (q' := x) end.
  assert (contents q' ≡ₚ contents q) as Hc.
  { unfold contents. simpl. rewrite ready_items_insert, insert_inflight_items, Hitems.
    - rewrite Hready. rewrite <- Hp at 1. rewrite fmap_app.
      rewrite app_assoc, (Permutation_app_comm (_ ++ _) (item_of stage <$> out)). by rewrite !app_assoc.
    - by rewrite Hids.
    - intros m (m' & -> & Hm')%list_elem_of_fmap. apply (Hfresh m'). rewrite <- Hp.
      apply elem_of_app. by left. }
  split_and!; [done|by rewrite Hc| |].
  - apply (wf_same q q' Hwf Hc); [done..|].
    intros k m [Hk | ->]%insert_inflight_lookup; [by apply Hwf|done].
  - intros m Hm. apply (insert_inflight_held stage (leased now lease <$> out) _ (leased now lease m)).
    + by rewrite Hids.
    + by apply list_elem_of_fmap_2.
Qed.

(** A delivered message was not held under a lease that still ran. *)
Lemma due_not_leased now stage n q m m' :
  queue_wf q → m ∈ due_messages now stage n q →
  mq_inflight q !! (stage, sm_message_id m) = Some m' → (sm_lease_deadline_ms m' ≤ now)%Z.
Proof.
  intros Hwf Hm%due_ready Hi. destruct (Z.le_gt_cases (sm_lease_deadline_ms m') now); [done|].
  destruct (ready_inflight_distinct _ stage (reclaim_leases_wf now q Hwf)) as [_ Hfresh].
  specialize (Hfresh m Hm). by rewrite (reclaim_keeps now q _ m' Hi) in Hfresh.
Qed.

(** ** Runs *)

Inductive QueueOp :=
  | QProduce (stage : PushQueueStage) (key : string) (payload : PushQueuePayload)
  | QRetryAt (stage : PushQueueStage) (key : string) (payload : PushQueuePayload) (at_ms : Z)
  | QConsume (stage : PushQueueStage) (max_messages : nat) (lease_timeout_ms : Z)
  | QAck (token : QueueAckToken)
  | QNack (token : QueueAckToken) (at_ms : option Z)
  | QDeadLetter (token : QueueAckToken) (reason : string)
  | QReplay (app_id dead_letter_id : string).

(** One operation, with its readings of the clock. *)
Definition queue_exec (now later : Z) (op : QueueOp) q : MemoryQueueState :=
  match op with
  | QProduce stage key payload => (queue_produce now stage key payload q).1
  | QRetryAt stage key payload at_ms => (queue_retry_at now stage key payload at_ms q).1
  | QConsume stage n lease => (queue_consume now stage n lease q).1
  | QAck token => queue_ack token q
  | QNack token at_ms => queue_nack token at_ms q
  | QDeadLetter token reason => queue_dead_letter now later token reason q
  | QReplay app_id id => (replay_dead_letter now app_id id q).1
  end.

Definition queue_run (ops : list (Z * Z * QueueOp)) : MemoryQueueState :=
  foldl (λ q o, queue_exec o.1.1 o.1.2 o.2 q) empty_queue ops.

(** A message is added under a new id, unless its key is outstanding. *)
Definition added stage (key : string) (payload : PushQueuePayload) q q' : Prop :=
  (∃ id, registered q stage key = Some id ∧ q' = q ∧
         (stage ≠ DeadLetters → ∃ p, (stage, (id, key, p)) ∈ contents q)) ∨
  (∃ id, base_id id ∉ bases (contents q) ∧
         contents q' ≡ₚ (stage, (id, key, payload)) :: contents q).

(** What each operation does to the contents. *)
Definition op_effect (now later : Z) (op : QueueOp) q : Prop :=
  let q' := queue_exec now later op q in
  match op with
  | QProduce stage key payload | QRetryAt stage key payload _ => added stage key payload q q'
  | QConsume stage n lease =>
      contents q' ≡ₚ contents q ∧
      (queue_consume now stage n lease q).2
        = delivered stage <$> (leased now lease <$> due_messages now stage n q) ∧
      (∀ m, m ∈ due_messages now stage n q →
         mq_inflight q' !! (stage, sm_message_id m) = Some (leased now lease m) ∧
         (∀ m', mq_inflight q !! (stage, sm_message_id m) = Some m' →
                sm_lease_deadline_ms m' ≤ now)%Z)
  | QNack _ _ => contents q' ≡ₚ contents q
  | QAck token =>
      match held q token with
      | Some m => contents q ≡ₚ item_of (at_stage token) m :: contents q'
      | None => q' = q
      end
  | QDeadLetter token reason =>
      match held q token with
      | Some m => ∃ rest, contents q ≡ₚ item_of (at_stage token) m :: rest ∧
                          contents q' ≡ₚ dead_item now token m reason :: rest
      | None => q' = q
      end
  | QReplay app_id id =>
      q' = q ∨ ∃ d stage key payload, d ∈ mq_dead_letters q ∧
        sd_original_stage d = Some stage ∧ sd_original_key d = Some key ∧
        sd_original_payload d = Some payload ∧ added stage key payload q q'
  end.

Lemma enqueue_added now stage key payload not_before q :
  queue_wf q → (mq_next_id q < u64_max)%Z →
  added stage key payload q (enqueue now stage key payload not_before q).1.
Proof.
  intros Hwf Hmax. destruct (registered q stage key) as [id|] eqn:Hr.
  - left. exists id. rewrite (enqueue_known _ _ _ _ _ _ id Hr). split_and!; [done..|].
    intros Hs. by apply (wf_registered q Hwf).
  - right. destruct (enqueue_new now stage key payload not_before q Hr) as (_ & Hc & _).
    eexists. split; [|apply Hc]. rewrite base_id_mem.
    intros (n & Heq & Hle)%(wf_bounded q Hwf). apply (inj mem_id) in Heq.
    unfold u64_saturating_add in Heq. lia.
Qed.

Lemma enqueue_next now stage key payload not_before q :
  (mq_next_id (enqueue now stage key payload not_before q).1 ≤ mq_next_id q + 1)%Z.
Proof.
  destruct (registered q stage key) as [id|] eqn:Hr.
  - rewrite (enqueue_known _ _ _ _ _ _ id Hr). simpl. lia.
  - destruct (enqueue_new now stage key payload not_before q Hr) as (_ & _ & -> & _).
    unfold u64_saturating_add. lia.
Qed.

Lemma replay_cases now app_id id q :
  (replay_dead_letter now app_id id q).1 = q ∨
  ∃ d stage key payload, d ∈ mq_dead_letters q ∧
    sd_original_stage d = Some stage ∧ sd_original_key d = Some key ∧
    sd_original_payload d = Some payload ∧
    (replay_dead_letter now app_id id q).1 = (enqueue now stage key payload None q).1.
Proof.
  unfold replay_dead_letter. case_match eqn:Hf; [|by left]. destruct p as [i d].
  apply list_find_Some in Hf as (Hd & _ & _). apply list_elem_of_lookup_2 in Hd.
  destruct (sd_original_stage d) as [stage|] eqn:H1; [|by left].
  destruct (sd_original_key d) as [key|] eqn:H2; [|by left].
  destruct (sd_original_payload d) as [payload|] eqn:H3; [|by left].
  right. exists d, stage, key, payload. split_and!; [done..|].
  by destruct (enqueue now stage key payload None q).
Qed.

Lemma queue_exec_spec now later op q :
  queue_wf q → (mq_next_id q < u64_max)%Z →
  queue_wf (queue_exec now later op q) ∧ op_effect now later op q ∧
  (mq_next_id (queue_exec now later op q) ≤ mq_next_id q + 1)%Z.
Proof.
  intros Hwf Hmax.
  destruct op as [stage key p|stage key p at_ms|stage n lease|token|token at_ms|token reason|app_id id];
    unfold op_effect, queue_exec, queue_produce, queue_retry_at; cbv zeta.
  - auto using enqueue_wf, enqueue_added, enqueue_next.
  - auto using enqueue_wf, enqueue_added, enqueue_next.
  - assert (Hs := consume_spec now stage n lease q Hwf).
    assert (mq_next_id (queue_consume now stage n lease q).1 = mq_next_id q) as ->
      by (unfold queue_consume; by destruct (consume_ready _ _ _)).
    destruct (queue_consume now stage n lease q) as [q' ms]. cbn [fst snd].
    destruct Hs as (Hms & Hc & Hw & Hh). split_and!; [done..| |lia].
    intros m Hm. split; [by apply Hh|]. intros m'. by apply (due_not_leased now stage n q m m' Hwf).
  - destruct (held q token) as [m|] eqn:Hm.
    + destruct (ack_removes token q m Hwf Hm) as (Hc & Hw & _). split_and!; [done..|].
      unfold held in Hm. unfold queue_ack, take_inflight. rewrite Hm. simpl. lia.
    + rewrite ack_unknown by done. split_and!; [done..|lia].
  - split_and!; [by apply nack_wf|by apply nack_contents|].
    unfold queue_nack, take_inflight. destruct (mq_inflight q !! _); simpl; lia.
  - destruct (held q token) as [m|] eqn:Hm.
    + destruct (dead_letter_moves now later token reason q m Hwf Hm) as [Hc Hw].
      destruct (ack_removes token q m Hwf Hm) as (Hr & _ & _). split_and!; [done|by eexists|].
      unfold held in Hm. unfold queue_dead_letter, take_inflight. rewrite Hm. simpl. lia.
    + rewrite dead_letter_unknown by done. split_and!; [done..|lia].
  - destruct (replay_cases now app_id id q) as [-> | (d & stage & key & p & Hd & H1 & H2 & H3 & ->)].
    + split_and!; [done|by left|lia].
    + split_and!; [by apply enqueue_wf| |apply enqueue_next].
      right. exists d, stage, key, p. split_and!; [done..|]. by apply enqueue_added.
Qed.

Lemma queue_run_wf ops :
  (Z.of_nat (length ops) < u64_max)%Z →
  queue_wf (queue_run ops) ∧ (mq_next_id (queue_run ops) ≤ Z.of_nat (length ops))%Z.
Proof.
  induction ops as [|o ops IH] using rev_ind; intros Hlen.
  - split; [apply empty_queue_wf|done].
  - rewrite length_app in Hlen. simpl in Hlen. destruct IH as [Hwf Hle]; [lia|].
    unfold queue_run. rewrite foldl_app. simpl.
    destruct (queue_exec_spec o.1.1 o.1.2 o.2 (queue_run ops) Hwf) as (Hw & _ & Hn); [lia|].
    split; [done|]. rewrite length_app. simpl. fold (queue_run ops). lia.
Qed.

End operations.
