(* ===== verification/PushStore.v ===== *)
(** * The in-memory push store

    The part of [MemoryPushStore] ([crates/sockudo-push/src/memory.rs]) that retries use: publish
    statuses with revisions, idempotency records and scheduler locks; and the bounded
    compare-and-swap loop of [pipeline.rs] over any store. The delivery events of the store, and
    their cap, are not part of this state. *)

From Stdlib Require Import ZArith Lia.
From stdpp Require Import base gmap strings list pretty.
From S2P Require Import Prelude Messages PushTypes PushQueue.

(** ** Errors *)

Inductive PublishStatusCasOutcome :=
  | CasInserted (revision : Z) | CasUpdated (revision : Z) | CasConflict | CasMissing.

Inductive PushError :=
  | PeStorage (text : string)
  | PeQueue (text : string)
  | PeInvalidPayload (text : string)
  | PeCasExhausted (component app_id publish_id : string)
  | PeUnexpectedCasOutcome (operation : string) (outcome : PublishStatusCasOutcome).

(** ** Records *)

Record VersionedPublishStatus := {
  vs_status : PublishStatus;
  vs_revision : Z;
  vs_updated_at_ms : Z;
}.

Record IdempotencyRecord := {
  ir_app_id : string;
  ir_key : string;
  ir_publish_id : string;
  ir_expires_at_ms : Z;
}.

Record SchedulerLock := {
  sl_app_id : string;
  sl_publish_id : string;
  sl_owner_id : string;
  sl_expires_at_ms : Z;
}.

Record MemoryPushState := {
  mps_publish_status : gmap (string * string) VersionedPublishStatus;
  mps_idempotency : gmap (string * string) IdempotencyRecord;
  mps_scheduler_locks : gmap (string * string) SchedulerLock;
}.

Implicit Types (s : MemoryPushState) (now : Z).

Definition with_statuses s statuses : MemoryPushState := {|
  mps_publish_status := statuses; mps_idempotency := mps_idempotency s;
  mps_scheduler_locks := mps_scheduler_locks s |}.

(** Records that expire before September 2001 are kept. *)
Definition prune_expired_records now s : MemoryPushState := {|
  mps_publish_status := mps_publish_status s;
  mps_idempotency := filter (λ kv, (ir_expires_at_ms kv.2 < 1000000000000)%Z
                                   ∨ (now < ir_expires_at_ms kv.2)%Z) (mps_idempotency s);
  mps_scheduler_locks := filter (λ kv, (now < sl_expires_at_ms kv.2)%Z) (mps_scheduler_locks s) |}.

Definition create_publish_status_if_absent now (status : PublishStatus) s
    : MemoryPushState * PublishStatusCasOutcome :=
  let key := (ps_app_id status, ps_publish_id status) in
  match mps_publish_status s !! key with
  | Some _ => (s, CasConflict)
  | None =>
      (with_statuses s (<[key := {| vs_status := status; vs_revision := 1;
                                    vs_updated_at_ms := now |}]> (mps_publish_status s)),
       CasInserted 1)
  end.

Definition get_versioned_publish_status (app_id publish_id : string) s
    : option VersionedPublishStatus := mps_publish_status s !! (app_id, publish_id).

Definition compare_and_swap_publish_status now (expected : VersionedPublishStatus)
    (next : PublishStatus) s : MemoryPushState * result PushError PublishStatusCasOutcome :=
  if bool_decide (ps_app_id (vs_status expected) ≠ ps_app_id next)
     || bool_decide (ps_publish_id (vs_status expected) ≠ ps_publish_id next)
     || (vs_revision expected =? 0)%Z
  then (s, Err (PeStorage "invalid publish status compare-and-swap identity or revision"))
  else if (vs_revision expected =? u64_max)%Z
  then (s, Err (PeStorage "publish status revision overflow"))
  else
    let next_revision := (vs_revision expected + 1)%Z in
    let key := (ps_app_id next, ps_publish_id next) in
    match mps_publish_status s !! key with
    | None => (s, Ok CasMissing)
    | Some current =>
        if negb (vs_revision current =? vs_revision expected)%Z
           || negb (vs_updated_at_ms current =? vs_updated_at_ms expected)%Z
        then (s, Ok CasConflict)
        else
          let updated_at_ms := Z.max now (u64_saturating_add (vs_updated_at_ms current) 1) in
          (with_statuses s (<[key := {| vs_status := next; vs_revision := next_revision;
                                        vs_updated_at_ms := updated_at_ms |}]>
                              (mps_publish_status s)),
           Ok (CasUpdated next_revision))
    end.

Definition put_idempotency_record_if_absent now (record : IdempotencyRecord) s
    : MemoryPushState * bool :=
  let key := (ir_app_id record, ir_key record) in
  let s := prune_expired_records now s in
  match mps_idempotency s !! key with
  | Some _ => (s, false)
  | None =>
      ({| mps_publish_status := mps_publish_status s;
          mps_idempotency := <[key := record]> (mps_idempotency s);
          mps_scheduler_locks := mps_scheduler_locks s |}, true)
  end.

Definition get_idempotency_record now (app_id key : string) s
    : MemoryPushState * option IdempotencyRecord :=
  let s := prune_expired_records now s in (s, mps_idempotency s !! (app_id, key)).

Definition acquire_scheduler_lock (lock : SchedulerLock) now s : MemoryPushState * bool :=
  let key := (sl_app_id lock, sl_publish_id lock) in
  let s := prune_expired_records now s in
  let held := match mps_scheduler_locks s !! key with
              | Some existing =>
                  bool_decide (sl_owner_id existing ≠ sl_owner_id lock)
                  && (now <? sl_expires_at_ms existing)%Z
              | None => false
              end in
  if held then (s, false)
  else ({| mps_publish_status := mps_publish_status s; mps_idempotency := mps_idempotency s;
           mps_scheduler_locks := <[key := lock]> (mps_scheduler_locks s) |}, true).

Definition release_scheduler_lock (app_id publish_id owner_id : string) s : MemoryPushState :=
  match mps_scheduler_locks s !! (app_id, publish_id) with
  | Some lock =>
      if bool_decide (sl_owner_id lock = owner_id)
      then {| mps_publish_status := mps_publish_status s; mps_idempotency := mps_idempotency s;
              mps_scheduler_locks := delete (app_id, publish_id) (mps_scheduler_locks s) |}
      else s
  | None => s
  end.

(** ** A world: store, queue and clock *)

(** What the pipeline asks of its store and its queue; every call may fail, and other nodes
    act between calls. *)
Class PushWorld (W : Type) := {
  pw_now : W → W * Z;
  pw_get_status : string → string → W → W * result PushError (option VersionedPublishStatus);
  pw_cas_status : VersionedPublishStatus → PublishStatus → W →
    W * result PushError PublishStatusCasOutcome;
  pw_put_idempotency : IdempotencyRecord → W → W * result PushError bool;
  pw_get_idempotency : string → string → W → W * result PushError (option IdempotencyRecord);
  pw_acquire_lock : SchedulerLock → Z → W → W * result PushError bool;
  pw_release_lock : string → string → string → W → W * result PushError unit;
  pw_produce : PushQueueStage → string → PushQueuePayload → W → W * result PushError string;
  pw_retry_at : PushQueueStage → string → PushQueuePayload → Z → W → W * result PushError string;
  pw_consume : PushQueueStage → nat → Z → W → W * result PushError (list QueueMessage);
  pw_ack : QueueAckToken → W → W * result PushError unit;
  pw_nack : QueueAckToken → option Z → W → W * result PushError unit;
  pw_dead_letter : QueueAckToken → string → W → W * result PushError unit;
}.

(** [call.await?] followed by the rest. *)
Definition try_then {W A B} (r : W * result PushError A) (k : A → W → W * result PushError B)
    : W * result PushError B :=
  match r with
  | (w, Ok a) => k a w
  | (w, Err e) => (w, Err e)
  end.

Notation "'await' x := r 'with' w 'in' k" := (try_then r (λ x w, k))
  (at level 200, x binder, w name, r at level 100, k at level 200).

Definition MAX_PUBLISH_STATUS_CAS_ATTEMPTS : nat := 8.

Inductive PublishStatusMutationOutcome :=
  | MutationMissing
  | MutationUnchanged (status : PublishStatus)
  | MutationUpdated (status : PublishStatus).

Section cas.
Context {W : Type} `{PushWorld W}.

(** The attempts left; the sleeps between them are not modelled. *)
Fixpoint cas_attempts (attempts : nat) (component app_id publish_id : string)
    (mutate : PublishStatus → result PushError (option PublishStatus)) (w : W)
    : W * result PushError PublishStatusMutationOutcome :=
  match attempts with
  | O => (w, Err (PeCasExhausted component app_id publish_id))
  | S attempts =>
      await expected := pw_get_status app_id publish_id w with w in
      match expected with
      | None => (w, Ok MutationMissing)
      | Some expected =>
          match mutate (vs_status expected) with
          | Err e => (w, Err e)
          | Ok None => (w, Ok (MutationUnchanged (vs_status expected)))
          | Ok (Some next) =>
              if bool_decide (ps_app_id next ≠ app_id) || bool_decide (ps_publish_id next ≠ publish_id)
              then (w, Err (PeInvalidPayload
                              "publish status CAS mutation changed its storage identity"))
              else
                await outcome := pw_cas_status expected next w with w in
                match outcome with
                | CasUpdated _ => (w, Ok (MutationUpdated next))
                | CasConflict => cas_attempts attempts component app_id publish_id mutate w
                | CasMissing => (w, Ok MutationMissing)
                | CasInserted _ => (w, Err (PeUnexpectedCasOutcome "compare-and-swap" outcome))
                end
          end
      end
  end.

Definition mutate_publish_status_with_cas (component app_id publish_id : string)
    (mutate : PublishStatus → result PushError (option PublishStatus)) (w : W)
    : W * result PushError PublishStatusMutationOutcome :=
  cas_attempts MAX_PUBLISH_STATUS_CAS_ATTEMPTS component app_id publish_id mutate w.
End cas.
