(* ===== verification/PushStoreThms.v ===== *)
(** * Publish status updates among other writers

    The compare-and-swap loop of [pipeline.rs] over the in-memory store, while other writers
    change the store between its calls: an update takes hold at one instant, on the status of
    that instant. *)

From Stdlib Require Import ZArith Lia.
From stdpp Require Import base gmap strings list pretty.
From S2P Require Import Prelude Messages PushTypes PushQueue PushStore.

(** What a writer may do: a status stays, or its revision grows. *)
Definition respects_revisions (f : MemoryPushState → MemoryPushState) : Prop :=
  ∀ s k v, mps_publish_status s !! k = Some v →
    ∃ v', mps_publish_status (f s) !! k = Some v' ∧ (v' = v ∨ (vs_revision v < vs_revision v')%Z).

(** The store's own operations do. *)
Lemma cas_respects now expected next :
  respects_revisions (λ s, (compare_and_swap_publish_status now expected next s).1).
Proof.
  intros s k v Hv. unfold compare_and_swap_publish_status.
  destruct (_ || _ || _); [by eauto|]. destruct (_ =? u64_max)%Z; [by eauto|]. cbv zeta.
  destruct (mps_publish_status s !! (ps_app_id next, _)) as [current|] eqn:Hc; [|by eauto].
  destruct (negb _ || _) eqn:Hr; [by eauto|]. simpl.
  apply orb_false_iff in Hr as [Hr%negb_false_iff%Z.eqb_eq _].
  destruct (decide (k = (ps_app_id next, ps_publish_id next))) as [->|Hne].
  - rewrite lookup_insert_eq. eexists. split; [done|right]. simpl. simplify_eq. lia.
  - rewrite lookup_insert_ne by done. eauto.
Qed.

Lemma create_respects now status :
  respects_revisions (λ s, (create_publish_status_if_absent now status s).1).
Proof.
  intros s k v Hv. unfold create_publish_status_if_absent.
  destruct (mps_publish_status s !! (ps_app_id status, _)) eqn:Hc; [by eauto|]. simpl.
  rewrite lookup_insert_ne by congruence. eauto.
Qed.

(** A store among writers: before its [n]-th call, [others n] happens. *)
Record SharedStore := { ss_store : MemoryPushState; ss_calls : nat }.

Section shared.
Context (others : nat → MemoryPushState → MemoryPushState) (clock : nat → Z).
Context (others_respect : ∀ n, respects_revisions (others n)).

Definition call {A} (f : Z → MemoryPushState → MemoryPushState * A) (w : SharedStore)
    : SharedStore * A :=
  let '(s, a) := f (clock (ss_calls w)) (others (ss_calls w) (ss_store w)) in
  ({| ss_store := s; ss_calls := S (ss_calls w) |}, a).

(** Only the calls of the loop matter; the others answer nothing. *)
Definition shared_world : PushWorld SharedStore := {|
  pw_now w := (w, clock (ss_calls w));
  pw_get_status app_id publish_id :=
    call (λ _ s, (s, Ok (get_versioned_publish_status app_id publish_id s)));
  pw_cas_status expected next := call (λ now, compare_and_swap_publish_status now expected next);
  pw_put_idempotency _ w := (w, Err (PeStorage "unused"));
  pw_get_idempotency _ _ w := (w, Err (PeStorage "unused"));
  pw_acquire_lock _ _ w := (w, Err (PeStorage "unused"));
  pw_release_lock _ _ _ w := (w, Err (PeStorage "unused"));
  pw_produce _ _ _ w := (w, Err (PeQueue "unused"));
  pw_retry_at _ _ _ _ w := (w, Err (PeQueue "unused"));
  pw_consume _ _ _ w := (w, Err (PeQueue "unused"));
  pw_ack _ w := (w, Err (PeQueue "unused"));
  pw_nack _ _ w := (w, Err (PeQueue "unused"));
  pw_dead_letter _ _ w := (w, Err (PeQueue "unused")) |}.

(** What the others do from the [n]-th call on, for [k] calls. *)
Fixpoint meanwhile (n k : nat) (s : MemoryPushState) : MemoryPushState :=
  match k with
  | O => s
  | S k => meanwhile (S n) k (others n s)
  end.

(** The outcome of an update that the others saw as one step: with [s] the store as only the
    others changed it, nothing else happened, or [s] had a status and got the next one. *)
Definition atomic_outcome (key : string * string)
    (mutate : PublishStatus → result PushError (option PublishStatus))
    (s s' : MemoryPushState) (r : result PushError PublishStatusMutationOutcome) : Prop :=
  match r with
  | Ok (MutationUpdated next) =>
      ∃ v now, mps_publish_status s !! key = Some v ∧ mutate (vs_status v) = Ok (Some next) ∧
        s' = with_statuses s (<[key := {| vs_status := next; vs_revision := vs_revision v + 1;
                vs_updated_at_ms := Z.max now (u64_saturating_add (vs_updated_at_ms v) 1) |}]>
                (mps_publish_status s))
  | Ok (MutationUnchanged status) =>
      s' = s ∧ mutate status = Ok None ∧ ∃ v, mps_publish_status s !! key = Some v ∧ vs_status v = status
  | Ok MutationMissing => s' = s ∧ mps_publish_status s !! key = None
  | Err _ => s' = s
  end.

(** One swap: on the status that was read, or not at all. *)
Lemma swap_atomic n now expected next s s1 s2 r :
  s2 = others n s1 → mps_publish_status s1 !! (ps_app_id next, ps_publish_id next) = Some expected →
  compare_and_swap_publish_status now expected next s2 = (s, r) →
  match r with
  | Ok (CasUpdated _) =>
      mps_publish_status s2 !! (ps_app_id next, ps_publish_id next) = Some expected ∧
      s = with_statuses s2 (<[(ps_app_id next, ps_publish_id next) :=
            {| vs_status := next; vs_revision := vs_revision expected + 1;
               vs_updated_at_ms := Z.max now (u64_saturating_add (vs_updated_at_ms expected) 1) |}]>
            (mps_publish_status s2))
  | Ok CasConflict | Err _ => s = s2
  | Ok CasMissing | Ok (CasInserted _) => False
  end.
Proof.
  intros -> Hv. destruct (others_respect n s1 _ _ Hv) as (v & Hv' & Hrev).
  unfold compare_and_swap_publish_status. destruct (_ || _ || _); [by intros [= <- <-]|].
  destruct (_ =? u64_max)%Z; [by intros [= <- <-]|]. cbv zeta. rewrite Hv'.
  destruct (negb _ || _) eqn:Hr; intros [= <- <-]; [done|].
  apply orb_false_iff in Hr as [Hr%negb_false_iff%Z.eqb_eq _].
  destruct Hrev as [->|Hrev]; [done|lia].
Qed.

Lemma cas_attempts_atomic component app_id publish_id mutate attempts w :
  let '(w', r) := cas_attempts (H := shared_world) attempts component app_id publish_id mutate w in
  ∃ k, k ≤ 2 * attempts ∧ ss_calls w' = ss_calls w + k ∧
    atomic_outcome (app_id, publish_id) mutate (meanwhile (ss_calls w) k (ss_store w))
      (ss_store w') r.
Proof.
  revert w. induction attempts as [|attempts IH]; intros w; [by exists 0; split_and!|]. simpl.
  set (s1 := others (ss_calls w) (ss_store w)).
  assert (meanwhile (ss_calls w) 1 (ss_store w) = s1) as H1 by done.
  unfold get_versioned_publish_status. destruct (mps_publish_status s1 !! _) as [v|] eqn:Hv.
  2:{ exists 1. rewrite H1. repeat split; simpl; try lia; done. }
  destruct (mutate (vs_status v)) as [[next|]|e] eqn:Hm.
  2:{ exists 1. rewrite H1. repeat split; simpl; try lia; eauto. }
  2:{ exists 1. rewrite H1. repeat split; simpl; try lia; done. }
  destruct (_ || _) eqn:Hid; [exists 1; rewrite H1; repeat split; simpl; try lia; done|].
  apply orb_false_iff in Hid as [Ha%bool_decide_eq_false Hp%bool_decide_eq_false].
  apply dec_stable in Ha, Hp. subst app_id publish_id. unfold call. simpl.
  set (s2 := others (S (ss_calls w)) s1).
  assert (meanwhile (ss_calls w) 2 (ss_store w) = s2) as H2 by done.
  destruct (compare_and_swap_publish_status _ v next s2) as [s r] eqn:Hcas.
  assert (Hs := swap_atomic (S (ss_calls w)) _ v next s s1 s2 r eq_refl Hv Hcas).
  destruct r as [[rev|rev| |]|e]; simpl; try done.
  - exists 2. rewrite H2. split; [lia|split; [simpl; lia|]]. destruct Hs as [Hs2 ->]. simpl. eauto 10.
  - subst s. set (w2 := {| ss_store := s2; ss_calls := _ |}). specialize (IH w2).
    destruct (cas_attempts attempts _ _ _ mutate w2) as [w' r']. destruct IH as (k & Hk & Hc & Ho).
    exists (S (S k)). split; [lia|split; [simpl in Hc; lia|exact Ho]].
  - exists 2. rewrite H2. repeat split; simpl; try lia; done.
Qed.

End shared.
