(* ===== verification/PushRetry.v ===== *)
(** * Retries of push deliveries

    [crates/sockudo-push/src/retry.rs]: the retry policy (exponential backoff with a
    deterministic jitter, bounded), the entry that schedules a retry, and the scheduler that
    takes due entries from the queue and dispatches them again. Metrics and meta events are not
    modelled. *)

From Stdlib Require Import ZArith Lia.
From stdpp Require Import base gmap strings list pretty.
From S2P Require Import Prelude Messages PushTypes PushQueue PushStore.

(** ** The policy *)

Definition MAX_RETRY_ATTEMPTS : Z := 100.
Definition MAX_RETRY_BACKOFF_MS : Z := 24 * 60 * 60 * 1000.
Definition MAX_RETRY_AGE_MS : Z := 30 * 24 * 60 * 60 * 1000.
Definition RETRY_IDEMPOTENCY_TTL_MS : Z := 7 * 24 * 60 * 60 * 1000.
Definition DEFAULT_PUSH_RETRY_MAX_ATTEMPTS : Z := 5.

Record RetryPolicy := {
  rp_initial_backoff_ms : Z;
  rp_max_backoff_ms : Z;
  rp_max_attempts : Z;
  rp_max_retry_age_ms : Z;
  rp_jitter_ratio_percent : Z;
  rp_respect_retry_after : bool;
}.

Definition default_retry_policy : RetryPolicy := {|
  rp_initial_backoff_ms := 1000; rp_max_backoff_ms := 60000;
  rp_max_attempts := DEFAULT_PUSH_RETRY_MAX_ATTEMPTS; rp_max_retry_age_ms := 86400000;
  rp_jitter_ratio_percent := 20; rp_respect_retry_after := true |}.

(** [Ord::clamp], which panics when [lo > hi]. *)
Definition clamp (z lo hi : Z) : Z := Z.min (Z.max z lo) hi.

Definition bounded (p : RetryPolicy) : RetryPolicy :=
  let initial := clamp (rp_initial_backoff_ms p) 1 MAX_RETRY_BACKOFF_MS in {|
  rp_initial_backoff_ms := initial;
  rp_max_backoff_ms := clamp (rp_max_backoff_ms p) initial MAX_RETRY_BACKOFF_MS;
  rp_max_attempts := clamp (rp_max_attempts p) 1 MAX_RETRY_ATTEMPTS;
  rp_max_retry_age_ms := clamp (rp_max_retry_age_ms p) 1 MAX_RETRY_AGE_MS;
  rp_jitter_ratio_percent := Z.min (rp_jitter_ratio_percent p) 100;
  rp_respect_retry_after := rp_respect_retry_after p |}.

Definition u64_saturating_mul (a b : Z) : Z := Z.min (a * b) u64_max.
Definition u32_saturating_sub (a b : Z) : Z := Z.max (a - b) 0.

Section policy.
Context `{StableHash}.

Definition apply_deterministic_jitter (delay_ms ratio_percent : Z) (seed : string) : Z :=
  if (delay_ms =? 0)%Z || (ratio_percent =? 0)%Z then delay_ms
  else
    let spread := (u64_saturating_mul delay_ms ratio_percent / 100)%Z in
    if (spread =? 0)%Z then delay_ms
    else
      let hash := stable_hash seed in
      let prefix := default hash (str_prefix 16 hash) in
      let raw := default 0%Z (u64_from_hex prefix) in
      let range := u64_saturating_add (u64_saturating_mul spread 2) 1 in
      u64_saturating_add (u64_saturating_sub delay_ms spread) (raw mod range).

Definition next_attempt_at_ms (self : RetryPolicy) (current_attempt : Z)
    (provider_retry_after_ms : option Z) (now : Z) (jitter_seed : string) : Z :=
  let policy := bounded self in
  let backoff :=
    let exponent := Z.min (u32_saturating_sub current_attempt 1) 31 in
    let delay := Z.min (u64_saturating_mul (rp_initial_backoff_ms policy) (2 ^ exponent))
                   (rp_max_backoff_ms policy) in
    let jittered :=
      Z.min (apply_deterministic_jitter delay (rp_jitter_ratio_percent policy) jitter_seed)
        (rp_max_backoff_ms policy) in
    u64_saturating_add now jittered in
  match rp_respect_retry_after policy, provider_retry_after_ms with
  | true, Some retry_after_ms => Z.max retry_after_ms now
  | _, _ => backoff
  end.

Definition retry_idempotency_key (r : DeliveryResult) (delivery_key : string) (next_attempt : Z)
    : string :=
  "retry:" +:+ stable_hash
    (dr_app_id r +:+ ":" +:+ dr_publish_id r +:+ ":" +:+ provider_key (dr_provider r) +:+ ":"
     +:+ dr_batch_id r +:+ ":" +:+ delivery_key +:+ ":" +:+ pretty next_attempt).

Definition retried_job (job : DeliveryJob) (attempt first_attempt_at_ms not_before_ms : Z)
    : DeliveryJob := {|
  dj_app_id := dj_app_id job; dj_publish_id := dj_publish_id job; dj_provider := dj_provider job;
  dj_batch_id := dj_batch_id job; dj_device_id := dj_device_id job; dj_content := dj_content job;
  dj_attempt := attempt; dj_first_attempt_at_ms := Some first_attempt_at_ms;
  dj_not_before_ms := Some not_before_ms; dj_expires_at_ms := dj_expires_at_ms job |}.

Definition schedule_retry (self : RetryPolicy) (feedback : DeliveryFeedback) (now : Z)
    : option RetryScheduleEntry :=
  let r := df_result feedback in
  if bool_decide (dr_outcome r ≠ Retryable) then None
  else
    let policy := bounded self in
    job ← df_retry_job feedback;
    let next_attempt := u32_saturating_add (dr_attempt r) 1 in
    let first_attempt_at_ms :=
      default (default now (dj_first_attempt_at_ms job)) (df_first_attempt_at_ms feedback) in
    let retry_age_deadline := u64_saturating_add first_attempt_at_ms (rp_max_retry_age_ms policy) in
    let delivery_deadline := default u64_max (dj_expires_at_ms job) in
    let expires_at_ms := Z.min retry_age_deadline delivery_deadline in
    let key := retry_idempotency_key r (df_delivery_key feedback) next_attempt in
    let next_at :=
      Z.min (if (rp_max_attempts policy <? next_attempt)%Z then now
             else next_attempt_at_ms policy (dr_attempt r) (dr_error r ≫= pe_retry_after_ms) now key)
        expires_at_ms in
    Some {| re_app_id := dr_app_id r; re_publish_id := dr_publish_id r;
            re_provider := Some (dr_provider r);
            re_job := Some (retried_job job next_attempt first_attempt_at_ms next_at);
            re_attempt := next_attempt; re_first_attempt_at_ms := first_attempt_at_ms;
            re_next_attempt_at_ms := next_at; re_max_attempts := rp_max_attempts policy;
            re_expires_at_ms := expires_at_ms; re_last_error := dr_error r;
            re_retry_idempotency_key := key; re_stage := "delivery"; re_key := key;
            re_not_before_ms := Some next_at; re_payload := None |}.
End policy.

(** ** The scheduler *)

Inductive RetryTerminalKind := RtExpired | RtDeadLettered.

Definition blank (s : string) : bool := bool_decide (trim s = "").

Definition redact_retry_reason (reason : string) (last_error : option ProviderError) : string :=
  match last_error with
  | Some error => reason +:+ ": " +:+ pe_class error
  | None => reason
  end.

Definition retry_lock_key (key : string) : string := "retry-lock:" +:+ key.

Definition guard_publish_status_transition (status : PublishStatus) (next : PublishLifecycleState)
    : bool := can_transition_to (ps_state status) next.

Definition with_counters (status : PublishStatus) (state : PublishLifecycleState)
    (counters : PublishCounters) (retry_after_ms : option Z) (error_reason : option string)
    : PublishStatus := {|
  ps_app_id := ps_app_id status; ps_publish_id := ps_publish_id status; ps_state := state;
  ps_counters := counters; ps_fanout_regime := ps_fanout_regime status;
  ps_retry_after_ms := retry_after_ms; ps_error_reason := error_reason |}.

Definition count_expired (c : PublishCounters) : PublishCounters := {|
  pc_planned := pc_planned c; pc_dispatched := pc_dispatched c; pc_succeeded := pc_succeeded c;
  pc_failed := pc_failed c; pc_expired := u64_saturating_add (pc_expired c) 1;
  pc_retry_scheduled := pc_retry_scheduled c; pc_retry_attempted := pc_retry_attempted c;
  pc_dead_lettered := pc_dead_lettered c |}.

Definition count_dead_lettered (c : PublishCounters) : PublishCounters := {|
  pc_planned := pc_planned c; pc_dispatched := pc_dispatched c; pc_succeeded := pc_succeeded c;
  pc_failed := pc_failed c; pc_expired := pc_expired c;
  pc_retry_scheduled := pc_retry_scheduled c; pc_retry_attempted := pc_retry_attempted c;
  pc_dead_lettered := u64_saturating_add (pc_dead_lettered c) 1 |}.

Definition count_retry_attempted (c : PublishCounters) : PublishCounters := {|
  pc_planned := pc_planned c; pc_dispatched := pc_dispatched c; pc_succeeded := pc_succeeded c;
  pc_failed := pc_failed c; pc_expired := pc_expired c;
  pc_retry_scheduled := pc_retry_scheduled c;
  pc_retry_attempted := u64_saturating_add (pc_retry_attempted c) 1;
  pc_dead_lettered := pc_dead_lettered c |}.

(** The closure of [mark_terminal_status]. *)
Definition terminal_mutation (e : RetryScheduleEntry) (kind : RetryTerminalKind) (reason : string)
    (current : PublishStatus) : result PushError (option PublishStatus) :=
  let counters := match kind with
                  | RtExpired => count_expired (ps_counters current)
                  | RtDeadLettered => count_dead_lettered (ps_counters current)
                  end in
  Ok (Some (with_counters current (resolve_lifecycle_state counters (ps_state current)) counters
              (ps_retry_after_ms current) (Some (redact_retry_reason reason (re_last_error e))))).

Definition scheduled_retry_is_pending (current : PublishStatus) : bool :=
  is_terminal (ps_state current)
  && (pc_retry_attempted (ps_counters current) <? pc_retry_scheduled (ps_counters current))%Z.

(** The closure that accounts for a dispatched retry. *)
Definition dispatched_mutation (current : PublishStatus)
    : result PushError (option PublishStatus) :=
  if is_terminal (ps_state current) && negb (scheduled_retry_is_pending current) then Ok None
  else if negb (is_terminal (ps_state current))
          && negb (guard_publish_status_transition current PlDispatching) then Ok None
  else Ok (Some (with_counters current
                   (if is_terminal (ps_state current) then ps_state current else PlDispatching)
                   (count_retry_attempted (ps_counters current)) None (ps_error_reason current))).

(** The single-job batch of a retry. *)
Definition retry_batch (e : RetryScheduleEntry) (provider : PushProviderKind) (job : DeliveryJob)
    : DeliveryBatch :=
  let batch_id := dj_batch_id job +:+ "-retry-" +:+ pretty (re_attempt e) in {|
  db_app_id := re_app_id e; db_publish_id := re_publish_id e; db_provider := provider;
  db_batch_id := batch_id;
  db_jobs := [{| dj_app_id := re_app_id e; dj_publish_id := re_publish_id e;
                 dj_provider := provider; dj_batch_id := batch_id;
                 dj_device_id := dj_device_id job; dj_content := dj_content job;
                 dj_attempt := re_attempt e;
                 dj_first_attempt_at_ms := Some (re_first_attempt_at_ms e);
                 dj_not_before_ms := Some (re_next_attempt_at_ms e);
                 dj_expires_at_ms := dj_expires_at_ms job |}] |}.

Section scheduler.
Context {W : Type} `{PushWorld W}.

(** [unwrap_or_else(now_ms)]. *)
Definition or_now (z : option Z) (w : W) : W * Z :=
  match z with Some z => (w, z) | None => pw_now w end.

Definition normalize_retry_entry (e : RetryScheduleEntry) (w : W) : W * RetryScheduleEntry :=
  let '(w, next_attempt_at_ms) :=
    if (re_next_attempt_at_ms e =? 0)%Z then or_now (re_not_before_ms e) w
    else (w, re_next_attempt_at_ms e) in
  let key := if blank (re_retry_idempotency_key e) && negb (blank (re_key e)) then re_key e
             else re_retry_idempotency_key e in
  let expires_at_ms := if (re_expires_at_ms e =? 0)%Z
                       then default u64_max (re_job e ≫= dj_expires_at_ms)
                       else re_expires_at_ms e in
  let '(w, first_attempt_at_ms) :=
    if (re_first_attempt_at_ms e =? 0)%Z then or_now (re_job e ≫= dj_first_attempt_at_ms) w
    else (w, re_first_attempt_at_ms e) in
  (w, {| re_app_id := re_app_id e; re_publish_id := re_publish_id e; re_provider := re_provider e;
         re_job := re_job e; re_attempt := re_attempt e;
         re_first_attempt_at_ms := first_attempt_at_ms;
         re_next_attempt_at_ms := next_attempt_at_ms;
         re_max_attempts := if (re_max_attempts e =? 0)%Z then DEFAULT_PUSH_RETRY_MAX_ATTEMPTS
                            else re_max_attempts e;
         re_expires_at_ms := expires_at_ms; re_last_error := re_last_error e;
         re_retry_idempotency_key := key; re_stage := re_stage e; re_key := re_key e;
         re_not_before_ms := re_not_before_ms e; re_payload := re_payload e |}).

Definition mark_terminal_status (e : RetryScheduleEntry) (kind : RetryTerminalKind)
    (reason : string) (w : W) : W * result PushError unit :=
  await _ := mutate_publish_status_with_cas "retry" (re_app_id e) (re_publish_id e)
               (terminal_mutation e kind reason) w with w in
  (w, Ok ()).

Definition retry_already_completed (e : RetryScheduleEntry) (w : W) : W * result PushError bool :=
  await found := pw_get_idempotency (re_app_id e) (re_retry_idempotency_key e) w with w in
  (w, Ok (bool_decide (is_Some found))).

Definition put_retry_idempotency (e : RetryScheduleEntry) (w : W) : W * result PushError unit :=
  let '(w, now) := pw_now w in
  await _ := pw_put_idempotency {|
    ir_app_id := re_app_id e; ir_key := re_retry_idempotency_key e;
    ir_publish_id := re_publish_id e;
    ir_expires_at_ms := u64_saturating_add now RETRY_IDEMPOTENCY_TTL_MS |} w with w in
  (w, Ok ()).

Definition dead_letter_malformed (ack : QueueAckToken) (e : RetryScheduleEntry) (reason : string)
    (w : W) : W * result PushError unit :=
  await _ := mark_terminal_status e RtDeadLettered reason w with w in
  await _ := pw_dead_letter ack reason w with w in
  (w, Ok ()).

Definition complete_terminal_retry (ack : QueueAckToken) (e : RetryScheduleEntry)
    (kind : RetryTerminalKind) (reason : string) (w : W) : W * result PushError unit :=
  await _ := mark_terminal_status e kind reason w with w in
  await _ := put_retry_idempotency e w with w in
  await _ := pw_dead_letter ack reason w with w in
  (w, Ok ()).

(** Dispatch: the job, then its retry key, then the status, then the acknowledgement. *)
Definition dispatch_retry (ack : QueueAckToken) (e : RetryScheduleEntry)
    (provider : PushProviderKind) (job : DeliveryJob) (w : W) : W * result PushError unit :=
  let batch := retry_batch e provider job in
  await _ := pw_produce (DeliveryJobs provider) (batch_queue_key batch) (PDeliveryBatch batch) w
    with w in
  await _ := put_retry_idempotency e w with w in
  await _ := mutate_publish_status_with_cas "retry" (re_app_id e) (re_publish_id e)
               dispatched_mutation w with w in
  await _ := pw_ack ack w with w in
  (w, Ok ()).

Definition handle_locked_retry (ack : QueueAckToken) (e : RetryScheduleEntry)
    (provider : PushProviderKind) (job : DeliveryJob) (now : Z) (w : W)
    : W * result PushError unit :=
  if match dj_expires_at_ms job with Some expires_at => (expires_at <=? now)%Z | None => false end
  then complete_terminal_retry ack e RtExpired "delivery expired before retry" w
  else if (re_max_attempts e <? re_attempt e)%Z || (re_max_attempts e =? 0)%Z
  then complete_terminal_retry ack e RtDeadLettered "retry attempts exhausted" w
  else if (re_expires_at_ms e <=? now)%Z
  then complete_terminal_retry ack e RtDeadLettered "retry age expired" w
  else
    await versioned := pw_get_status (re_app_id e) (re_publish_id e) w with w in
    match vs_status <$> versioned with
    | Some current =>
        if negb (scheduled_retry_is_pending current)
           && negb (guard_publish_status_transition current PlDispatching)
        then
          await _ := put_retry_idempotency e w with w in
          await _ := pw_ack ack w with w in
          (w, Ok ())
        else dispatch_retry ack e provider job w
    | None => dispatch_retry ack e provider job w
    end.

Context (owner_id : string) (lock_ttl_ms : Z).

(** From the lock on. *)
Definition lock_and_handle (ack : QueueAckToken) (e : RetryScheduleEntry)
    (provider : PushProviderKind) (job : DeliveryJob) (now : Z) (w : W)
    : W * result PushError bool :=
  let lock_key := retry_lock_key (re_retry_idempotency_key e) in
  await acquired := pw_acquire_lock {|
    sl_app_id := re_app_id e; sl_publish_id := lock_key; sl_owner_id := owner_id;
    sl_expires_at_ms := u64_saturating_add now lock_ttl_ms |} now w with w in
  if negb acquired then
    await _ := pw_nack ack (Some (u64_saturating_add now 1000)) w with w in
    (w, Ok false)
  else
    let '(w, handled) := handle_locked_retry ack e provider job now w in
    let '(w, release) := pw_release_lock (re_app_id e) lock_key owner_id w in
    match handled, release with
    | Err error, _ => (w, Err error)
    | Ok _, Err error => (w, Err error)
    | Ok _, Ok _ => (w, Ok true)
    end.

Definition handle_message (message : QueueMessage) (w : W) : W * result PushError bool :=
  let ack := qm_ack message in
  match qm_payload message with
  | PRetrySchedule entry =>
      let '(w, e) := normalize_retry_entry entry w in
      let '(w, now) := pw_now w in
      match re_provider e, re_job e with
      | None, _ =>
          await _ := dead_letter_malformed ack e "missing retry provider" w with w in (w, Ok false)
      | Some _, None =>
          await _ := dead_letter_malformed ack e "missing retry job" w with w in (w, Ok false)
      | Some provider, Some job =>
          if blank (re_retry_idempotency_key e) then
            await _ := dead_letter_malformed ack e "missing retry idempotency key" w with w in
            (w, Ok false)
          else if (now <? re_next_attempt_at_ms e)%Z then
            await _ := pw_nack ack (Some (re_next_attempt_at_ms e)) w with w in
            (w, Ok false)
          else
            await completed := retry_already_completed e w with w in
            if completed then
              await _ := pw_ack ack w with w in
              (w, Ok false)
            else lock_and_handle ack e provider job now w
      end
  | _ =>
      await _ := pw_dead_letter ack "unexpected payload for retry scheduler" w with w in
      (w, Ok false)
  end.

(** The messages of a tick in turn: an error leaves the rest leased. *)
Fixpoint handle_messages (messages : list QueueMessage) (processed : Z) (w : W)
    : W * result PushError Z :=
  match messages with
  | [] => (w, Ok processed)
  | message :: messages =>
      await handled := handle_message message w with w in
      handle_messages messages (if handled then processed + 1 else processed)%Z w
  end.

Definition run_once (max_messages_per_tick : nat) (w : W) : W * result PushError Z :=
  await messages := pw_consume RetrySchedule max_messages_per_tick 30000 w with w in
  handle_messages messages 0 w.
End scheduler.

(** ** The world of the in-memory store and queue *)

Record MemWorld := {
  mw_store : MemoryPushState;
  mw_queue : MemoryQueueState;
  mw_tick : nat;
}.

Definition on_store {A} (f : MemoryPushState → MemoryPushState * A) (ticks : nat) (w : MemWorld)
    : MemWorld * A :=
  let '(s, a) := f (mw_store w) in
  ({| mw_store := s; mw_queue := mw_queue w; mw_tick := mw_tick w + ticks |}, a).

Definition on_queue {A} (f : MemoryQueueState → MemoryQueueState * A) (ticks : nat) (w : MemWorld)
    : MemWorld * A :=
  let '(q, a) := f (mw_queue w) in
  ({| mw_store := mw_store w; mw_queue := q; mw_tick := mw_tick w + ticks |}, a).

Definition okay {W A} (r : W * A) : W * result PushError A := (r.1, Ok r.2).

Section memory.
Context `{StableHash} (clock : nat → Z).

(** An operation that may read the clock takes the next readings of [clock]. *)
Definition memory_world : PushWorld MemWorld := {|
  pw_now w := ({| mw_store := mw_store w; mw_queue := mw_queue w; mw_tick := S (mw_tick w) |},
               clock (mw_tick w));
  pw_get_status app_id publish_id w :=
    (w, Ok (get_versioned_publish_status app_id publish_id (mw_store w)));
  pw_cas_status expected next w :=
    on_store (compare_and_swap_publish_status (clock (mw_tick w)) expected next) 1 w;
  pw_put_idempotency record w :=
    okay (on_store (put_idempotency_record_if_absent (clock (mw_tick w)) record) 1 w);
  pw_get_idempotency app_id key w :=
    okay (on_store (get_idempotency_record (clock (mw_tick w)) app_id key) 1 w);
  pw_acquire_lock lock now w := okay (on_store (acquire_scheduler_lock lock now) 0 w);
  pw_release_lock app_id publish_id owner_id w :=
    okay (on_store (λ s, (release_scheduler_lock app_id publish_id owner_id s, ())) 0 w);
  pw_produce stage key payload w :=
    okay (on_queue (queue_produce (clock (mw_tick w)) stage key payload) 1 w);
  pw_retry_at stage key payload not_before w :=
    okay (on_queue (queue_retry_at (clock (mw_tick w)) stage key payload not_before) 1 w);
  pw_consume stage max lease w :=
    okay (on_queue (queue_consume (clock (mw_tick w)) stage max lease) 1 w);
  pw_ack token w := okay (on_queue (λ q, (queue_ack token q, ())) 0 w);
  pw_nack token at_ms w := okay (on_queue (λ q, (queue_nack token at_ms q, ())) 0 w);
  pw_dead_letter token reason w :=
    okay (on_queue (λ q, (queue_dead_letter (clock (mw_tick w)) (clock (S (mw_tick w))) token
                            reason q, ())) 2 w) |}.
End memory.
