(* ===== verification/PushRetryThms.v ===== *)
(** * Retries of push deliveries: theorems

    The times of a scheduled retry, and that a retry that was dispatched is not dispatched again,
    over any store and queue that keep the laws of [RetryWorld]. *)

From Stdlib Require Import ZArith Lia.
From stdpp Require Import base gmap strings list pretty.
From S2P Require Import Prelude Messages PushTypes PushQueue PushStore PushRetry.

(** ** The policy *)

(** The values that the fields of a policy can have. *)
Record policy_typed (p : RetryPolicy) : Prop := {
  pt_initial : is_u64 (rp_initial_backoff_ms p);
  pt_max : is_u64 (rp_max_backoff_ms p);
  pt_attempts : (0 ≤ rp_max_attempts p ≤ u32_max)%Z;
  pt_age : is_u64 (rp_max_retry_age_ms p);
  pt_jitter : (0 ≤ rp_jitter_ratio_percent p ≤ 255)%Z;
}.

Lemma bounded_spec p :
  policy_typed p →
  let b := bounded p in
  (1 ≤ rp_initial_backoff_ms b ≤ rp_max_backoff_ms b)%Z ∧
  (rp_max_backoff_ms b ≤ MAX_RETRY_BACKOFF_MS)%Z ∧
  (1 ≤ rp_max_attempts b ≤ MAX_RETRY_ATTEMPTS)%Z ∧
  (1 ≤ rp_max_retry_age_ms b ≤ MAX_RETRY_AGE_MS)%Z ∧
  (0 ≤ rp_jitter_ratio_percent b ≤ 100)%Z.
Proof.
  intros [H1 H2 H3 H4 H5]. unfold bounded, clamp, is_u64, MAX_RETRY_BACKOFF_MS, MAX_RETRY_ATTEMPTS,
    MAX_RETRY_AGE_MS in *. simpl. lia.
Qed.

Lemma bounded_idemp p : policy_typed p → bounded (bounded p) = bounded p.
Proof.
  intros Hp. destruct (bounded_spec p Hp) as (H1 & H2 & H3 & H4 & H5).
  unfold bounded at 1. unfold clamp.
  destruct (bounded p) as [i m a g j r]. simpl in *. f_equal; lia.
Qed.

(** The backoff the code computes with a capped shift is plain doubling. *)
Lemma backoff_doubles initial max_backoff attempt :
  (1 ≤ initial ≤ max_backoff)%Z → (max_backoff ≤ MAX_RETRY_BACKOFF_MS)%Z →
  Z.min (u64_saturating_mul initial (2 ^ Z.min (u32_saturating_sub attempt 1) 31)) max_backoff
  = Z.min (initial * 2 ^ Z.max (attempt - 1) 0) max_backoff.
Proof.
  unfold MAX_RETRY_BACKOFF_MS, u64_saturating_mul, u32_saturating_sub, u64_max. intros Hi Hm.
  destruct (Z.le_gt_cases (Z.max (attempt - 1) 0) 31) as [Hle|Hgt].
  - rewrite (Z.min_l _ 31) by done. lia.
  - rewrite (Z.min_r _ 31) by lia.
    assert (2 ^ 31 ≤ 2 ^ Z.max (attempt - 1) 0)%Z as Hp by (apply Z.pow_le_mono_r; lia).
    assert (2 ^ 31 = 2147483648)%Z as H31 by done. nia.
Qed.

Section policy.
Context `{StableHash}.

Lemma jitter_bounds delay ratio seed :
  (0 ≤ delay ≤ MAX_RETRY_BACKOFF_MS)%Z → (0 ≤ ratio ≤ 100)%Z →
  (delay - delay * ratio / 100 ≤ apply_deterministic_jitter delay ratio seed
   ≤ delay + delay * ratio / 100)%Z.
Proof.
  unfold MAX_RETRY_BACKOFF_MS, apply_deterministic_jitter. intros Hd Hr.
  assert (u64_saturating_mul delay ratio = delay * ratio)%Z as ->
    by (unfold u64_saturating_mul, u64_max; nia).
  assert (0 ≤ delay * ratio / 100 ≤ delay)%Z as Hs.
  { split; [apply Z.div_pos; lia|]. apply Z.div_le_upper_bound; nia. }
  set (spread := (delay * ratio / 100)%Z) in *. clearbody spread.
  destruct (_ || _); [lia|]. destruct (Z.eqb_spec spread 0); [lia|].
  set (raw := default 0%Z _). clearbody raw. unfold u64_saturating_mul, u64_saturating_add,
    u64_saturating_sub, u64_max in *. rewrite (Z.min_l (spread * 2)), (Z.min_l (spread * 2 + 1)) by lia.
  pose proof (Z.mod_pos_bound raw (spread * 2 + 1)). lia.
Qed.

(** The delay before a retry when no retry-after is honoured: doubled with every attempt, up to
    the maximum. *)
Definition nominal_delay (p : RetryPolicy) (attempt : Z) : Z :=
  Z.min (rp_initial_backoff_ms (bounded p) * 2 ^ Z.max (attempt - 1) 0)
    (rp_max_backoff_ms (bounded p)).

Definition jitter_spread (p : RetryPolicy) (attempt : Z) : Z :=
  (nominal_delay p attempt * rp_jitter_ratio_percent (bounded p) / 100)%Z.

Lemma next_attempt_bounds p attempt retry_after now seed :
  policy_typed p → (0 ≤ now ≤ u64_max)%Z →
  (rp_respect_retry_after p = false ∨ retry_after = None) →
  let d := nominal_delay p attempt in
  let t := next_attempt_at_ms p attempt retry_after now seed in
  (Z.min (now + (d - jitter_spread p attempt)) u64_max ≤ t)%Z ∧
  (t ≤ Z.min (now + Z.min (d + jitter_spread p attempt) (rp_max_backoff_ms (bounded p))) u64_max)%Z.
Proof.
  intros Hp Hn Hra. destruct (bounded_spec p Hp) as (H1 & H2 & _ & _ & H5).
  unfold next_attempt_at_ms, jitter_spread, nominal_delay. cbv zeta.
  rewrite backoff_doubles by done.
  assert (rp_respect_retry_after (bounded p) = rp_respect_retry_after p) as -> by done.
  set (d := Z.min (_ * _) _).
  assert (0 ≤ d ≤ rp_max_backoff_ms (bounded p))%Z as Hd.
  { subst d. pose proof (Z.pow_nonneg 2 (Z.max (attempt - 1) 0)). nia. }
  pose proof (jitter_bounds d (rp_jitter_ratio_percent (bounded p)) seed ltac:(lia) H5) as Hj.
  assert (0 ≤ d * rp_jitter_ratio_percent (bounded p) / 100)%Z by (apply Z.div_pos; nia).
  set (j := apply_deterministic_jitter _ _ _) in *. clearbody j.
  set (sp := (d * _ / 100)%Z) in *. clearbody sp d.
  destruct Hra as [-> | ->]; [|destruct (rp_respect_retry_after p)];
    unfold u64_saturating_add; lia.
Qed.

(** The retry-after of the provider, where the policy honours it. *)
Definition honoured_retry_after (p : RetryPolicy) (f : DeliveryFeedback) : option Z :=
  if rp_respect_retry_after p then dr_error (df_result f) ≫= pe_retry_after_ms else None.

Lemma next_attempt_honoured p attempt t now seed :
  rp_respect_retry_after p = true →
  next_attempt_at_ms p attempt (Some t) now seed = Z.max t now.
Proof. intros Hr. unfold next_attempt_at_ms, bounded. simpl. by rewrite Hr. Qed.

Lemma bounded_typed p : policy_typed p → policy_typed (bounded p).
Proof.
  intros Hp. destruct (bounded_spec p Hp) as (H1 & H2 & H3 & H4 & H5).
  unfold MAX_RETRY_BACKOFF_MS, MAX_RETRY_ATTEMPTS, MAX_RETRY_AGE_MS in *.
  split; unfold is_u64, u64_max, u32_max; lia.
Qed.

(** C18: A retryable delivery with its job is scheduled again with one more attempt, and its
    times are bounded whatever the policy says. The retry is not planned after its deadline, and
    the deadline is neither after the delivery's own nor more than thirty days after the first
    attempt. While attempts remain, of which there are at most a hundred, the delay doubles with
    every attempt up to the maximum, give or take the jitter, unless a retry-after of the
    provider is honoured; when none remains, the entry is due at once, to be given up. *)
Theorem retry_times_bounded p f now job :
  policy_typed p → is_u64 now → (0 ≤ dr_attempt (df_result f) < u32_max)%Z →
  dr_outcome (df_result f) = Retryable → df_retry_job f = Some job →
  let attempt := dr_attempt (df_result f) in
  ∃ e, schedule_retry p f now = Some e ∧
    re_attempt e = (attempt + 1)%Z ∧
    re_job e = Some (retried_job job (re_attempt e) (re_first_attempt_at_ms e)
                       (re_next_attempt_at_ms e)) ∧
    (1 ≤ re_max_attempts e ≤ 100)%Z ∧
    (re_next_attempt_at_ms e ≤ re_expires_at_ms e)%Z ∧
    (re_expires_at_ms e ≤ re_first_attempt_at_ms e + MAX_RETRY_AGE_MS)%Z ∧
    (re_expires_at_ms e ≤ default u64_max (dj_expires_at_ms job))%Z ∧
    ((re_max_attempts e ≤ attempt)%Z →
       re_next_attempt_at_ms e = Z.min now (re_expires_at_ms e)) ∧
    ((attempt < re_max_attempts e)%Z →
       match honoured_retry_after p f with
       | Some t => re_next_attempt_at_ms e = Z.min (Z.max t now) (re_expires_at_ms e)
       | None =>
           let delay := nominal_delay p attempt in
           let spread := jitter_spread p attempt in
           (Z.min (now + (delay - spread)) (re_expires_at_ms e) ≤ re_next_attempt_at_ms e
            ≤ now + Z.min (delay + spread) (rp_max_backoff_ms (bounded p)))%Z
       end).
Proof.
  intros Hp Hn Ha Ho Hj. cbv zeta. unfold schedule_retry. rewrite Ho, Hj.
  rewrite bool_decide_false by auto. cbn [mbind option_bind]. eexists. split; [done|].
  destruct (bounded_spec p Hp) as (H1 & H2 & H3 & H4 & H5).
  cbn [re_attempt re_job re_first_attempt_at_ms re_next_attempt_at_ms re_max_attempts re_expires_at_ms].
  assert (u32_saturating_add (dr_attempt (df_result f)) 1 = dr_attempt (df_result f) + 1)%Z as ->
    by (unfold u32_saturating_add; lia).
  set (first := default _ (df_first_attempt_at_ms f)). set (key := retry_idempotency_key _ _ _).
  set (expires := Z.min _ (default u64_max (dj_expires_at_ms job))).
  assert (expires ≤ first + MAX_RETRY_AGE_MS)%Z as Hage
    by (subst expires; unfold u64_saturating_add; lia).
  assert (expires ≤ default u64_max (dj_expires_at_ms job))%Z as Hexp by (subst expires; lia).
  assert (expires ≤ u64_max)%Z as Hmax by (subst expires; unfold u64_saturating_add; lia).
  clearbody first expires. unfold MAX_RETRY_ATTEMPTS in H3.
  split_and!; [done|done|lia|lia|lia|lia|lia|..].
  - intros Hle. rewrite (proj2 (Z.ltb_lt _ _)) by lia. done.
  - intros Hlt. rewrite (proj2 (Z.ltb_ge _ _)) by lia. unfold honoured_retry_after.
    pose proof (next_attempt_bounds (bounded p) (dr_attempt (df_result f))
      (dr_error (df_result f) ≫= pe_retry_after_ms) now key (bounded_typed p Hp) Hn) as Hb.
    unfold nominal_delay, jitter_spread, nominal_delay in *. rewrite bounded_idemp in Hb by done.
    cbv zeta in Hb. change (rp_respect_retry_after (bounded p)) with (rp_respect_retry_after p) in Hb.
    destruct (rp_respect_retry_after p) eqn:Hr; [destruct (dr_error _ ≫= _)|].
    + by rewrite next_attempt_honoured.
    + specialize (Hb (or_intror eq_refl)). lia.
    + specialize (Hb (or_introl eq_refl)). lia.
Qed.
End policy.

(** ** Once dispatched, never again *)

(** What the scheduler relies on. [rw_recorded] is that a retry key is on record for as long as
    the scheduler runs, [rw_ok] that no record expires meanwhile, [rw_produced] counts the messages
    put in the queue, and [rw_time] are the readings of the clock. Any call but the recording of a
    key may fail. *)
Class RetryWorld (W : Type) `{PushWorld W} := {
  rw_recorded : string → string → W → Prop;
  rw_ok : W → Prop;
  rw_produced : W → Z;
  rw_time : Z → Prop;
  rw_grows (w w' : W) : Prop :=
    (∀ app_id key, rw_recorded app_id key w → rw_recorded app_id key w') ∧ (rw_ok w → rw_ok w');
  rw_keeps (w w' : W) : Prop := rw_grows w w' ∧ rw_produced w' = rw_produced w;
  rw_now w : rw_keeps w (pw_now w).1 ∧ rw_time (pw_now w).2;
  rw_get_status app_id publish_id w : rw_keeps w (pw_get_status app_id publish_id w).1;
  rw_cas_status expected next w : rw_keeps w (pw_cas_status expected next w).1;
  rw_put record now w :
    rw_time now → ir_expires_at_ms record = u64_saturating_add now RETRY_IDEMPOTENCY_TTL_MS →
    rw_keeps w (pw_put_idempotency record w).1 ∧
    (∃ new, (pw_put_idempotency record w).2 = Ok new) ∧
    (rw_ok w → rw_recorded (ir_app_id record) (ir_key record) (pw_put_idempotency record w).1);
  rw_get app_id key w : rw_keeps w (pw_get_idempotency app_id key w).1;
  rw_get_recorded app_id key w found :
    rw_recorded app_id key w → (pw_get_idempotency app_id key w).2 = Ok found → is_Some found;
  rw_acquire lock now w : rw_time now → rw_keeps w (pw_acquire_lock lock now w).1;
  rw_release app_id publish_id owner_id w :
    rw_keeps w (pw_release_lock app_id publish_id owner_id w).1;
  rw_produce stage key payload w : rw_grows w (pw_produce stage key payload w).1;
  rw_produce_fails stage key payload w e :
    (pw_produce stage key payload w).2 = Err e →
    rw_produced (pw_produce stage key payload w).1 = rw_produced w;
  rw_ack token w : rw_keeps w (pw_ack token w).1;
  rw_nack token at_ms w : rw_keeps w (pw_nack token at_ms w).1;
  rw_dead_letter token reason w : rw_keeps w (pw_dead_letter token reason w).1;
}.

(** The record under which a retry is remembered. *)
Definition entry_key (e : RetryScheduleEntry) : string * string :=
  (re_app_id e, if blank (re_retry_idempotency_key e) && negb (blank (re_key e)) then re_key e
                else re_retry_idempotency_key e).

Section once.
Context {W : Type} `{RetryWorld W}.
Implicit Types (w : W) (e : RetryScheduleEntry).

#[local] Instance grows_preorder : PreOrder rw_grows.
Proof. split; [done|]. intros w1 w2 w3 [H1 H2] [H3 H4]. split; auto. Qed.

#[local] Instance keeps_preorder : PreOrder rw_keeps.
Proof. split; [done|]. intros w1 w2 w3 [H1 H2] [H3 H4]. split; [by transitivity w2|congruence]. Qed.

Lemma await_keeps {A B} w (r : W * result PushError A) (k : A → W → W * result PushError B) :
  rw_keeps w r.1 → (∀ a w', rw_keeps w' (k a w').1) → rw_keeps w (try_then r k).1.
Proof. destruct r as [w' [a|e]]; simpl; [|done]. intros Hw Hk. by transitivity w'. Qed.

Lemma await_Ok {A B} (r : W * result PushError A) (k : A → W → W * result PushError B) w' b :
  try_then r k = (w', Ok b) → ∃ a, r.2 = Ok a ∧ k a r.1 = (w', Ok b).
Proof. destruct r as [w1 [a|e]]; simpl; [eauto|done]. Qed.

Lemma cas_keeps n component app_id publish_id mutate w :
  rw_keeps w (cas_attempts n component app_id publish_id mutate w).1.
Proof.
  revert w. induction n as [|n IH]; intros w; [done|]. simpl.
  apply await_keeps; [apply rw_get_status|]. intros [v|] w'; [|done].
  destruct (mutate (vs_status v)) as [[next|]|]; [|done..].
  destruct (_ || _); [done|]. apply await_keeps; [apply rw_cas_status|].
  intros [] w2; [done..| |done]. apply IH.
Qed.

Lemma put_records e w :
  rw_keeps w (put_retry_idempotency e w).1 ∧ (put_retry_idempotency e w).2 = Ok () ∧
  (rw_ok w → rw_recorded (re_app_id e) (re_retry_idempotency_key e) (put_retry_idempotency e w).1).
Proof.
  unfold put_retry_idempotency. destruct (rw_now w) as [Hk Ht].
  destruct (pw_now w) as [w1 now]. simpl in *.
  edestruct (rw_put {| ir_app_id := re_app_id e; ir_key := re_retry_idempotency_key e;
    ir_publish_id := re_publish_id e |} now w1 Ht eq_refl) as (Hk' & [new Hn] & Hr).
  destruct (pw_put_idempotency _ w1) as [w2 r]. simpl in *. rewrite Hn. simpl.
  split_and!; [by transitivity w1|done|]. intros Hok. apply Hr, Hk, Hok.
Qed.

Lemma put_keeps e w : rw_keeps w (put_retry_idempotency e w).1.
Proof. apply put_records. Qed.

Lemma mark_terminal_keeps e kind reason w : rw_keeps w (mark_terminal_status e kind reason w).1.
Proof. apply await_keeps; [apply cas_keeps|done]. Qed.

Lemma malformed_keeps ack e reason w : rw_keeps w (dead_letter_malformed ack e reason w).1.
Proof.
  apply await_keeps; [apply mark_terminal_keeps|]. intros _ w'.
  apply await_keeps; [apply rw_dead_letter|done].
Qed.

Lemma complete_keeps ack e kind reason w : rw_keeps w (complete_terminal_retry ack e kind reason w).1.
Proof.
  apply await_keeps; [apply mark_terminal_keeps|]. intros _ w'.
  apply await_keeps; [apply put_keeps|]. intros _ w2. apply await_keeps; [apply rw_dead_letter|done].
Qed.

(** Records survive a dispatch, and a dispatched retry is on record. *)
Lemma dispatch_records ack e provider job w :
  rw_grows w (dispatch_retry ack e provider job w).1 ∧
  (rw_produced (dispatch_retry ack e provider job w).1 = rw_produced w ∨
   (rw_ok w → rw_recorded (re_app_id e) (re_retry_idempotency_key e)
                (dispatch_retry ack e provider job w).1)).
Proof.
  unfold dispatch_retry. cbv zeta. set (stage := DeliveryJobs provider).
  set (key := batch_queue_key _). set (payload := PDeliveryBatch _).
  assert (Hm := rw_produce stage key payload w). assert (Hf := rw_produce_fails stage key payload w).
  destruct (pw_produce stage key payload w) as [w1 [id|error]]; simpl in *; [|eauto].
  destruct (put_records e w1) as ([Hk _] & Hok & Hr).
  destruct (put_retry_idempotency e w1) as [w2 r]. simpl in *. subst r. simpl.
  match goal with |- context [(try_then ?r ?k).1] =>
    assert (rw_keeps w2 (try_then r k).1) as [Hk' _] end.
  { apply await_keeps; [apply cas_keeps|]. intros _ w3. apply await_keeps; [apply rw_ack|done]. }
  split; [transitivity w1; [done|by transitivity w2]|right].
  intros Hw. apply Hk', Hr, Hm, Hw.
Qed.

(** What allows a dispatch: attempts remain, and neither the retry nor the delivery has expired. *)
Definition may_dispatch e (now : Z) : Prop :=
  (re_attempt e ≤ re_max_attempts e)%Z ∧ (now < re_expires_at_ms e)%Z ∧
  ∃ job, re_job e = Some job ∧ (now < default (now + 1) (dj_expires_at_ms job))%Z.

(** Records survive, and what is put in the queue is the dispatch of [e], then on record. *)
Definition settles e (now : Z) w w' : Prop :=
  rw_grows w w' ∧
  (rw_produced w' = rw_produced w ∨
   ((rw_ok w → rw_recorded (re_app_id e) (re_retry_idempotency_key e) w') ∧ may_dispatch e now)).

Lemma keeps_settles e now w w' : rw_keeps w w' → settles e now w w'.
Proof. intros [H1 H2]. split; [done|by left]. Qed.

Lemma settles_trans_l e now w1 w2 w3 : rw_keeps w1 w2 → settles e now w2 w3 → settles e now w1 w3.
Proof.
  intros [H1 H2] [H3 H4]. split; [by transitivity w2|]. rewrite <- H2.
  destruct H4 as [H4|[H4 Hg]]; [by left|right]. split; [|done]. intros Hok. apply H4, H1, Hok.
Qed.

Lemma settles_trans_r e now w1 w2 w3 : settles e now w1 w2 → rw_keeps w2 w3 → settles e now w1 w3.
Proof.
  intros [H1 H2] [H3 H4]. split; [by transitivity w2|].
  destruct H2 as [H2|[H2 Hg]]; [left; congruence|right]. split; [|done].
  intros Hok. apply H3, H2, Hok.
Qed.

Lemma dispatch_settles ack e provider job now w :
  may_dispatch e now → settles e now w (dispatch_retry ack e provider job w).1.
Proof.
  intros Hg. destruct (dispatch_records ack e provider job w) as [H1 [H2|H2]]; split; auto.
Qed.

Lemma locked_settles ack e provider job now w :
  re_job e = Some job →
  settles e now w (handle_locked_retry ack e provider job now w).1.
Proof.
  intros Hj. unfold handle_locked_retry.
  destruct (match dj_expires_at_ms job with Some _ => _ | None => _ end) eqn:Hx;
    [apply keeps_settles, complete_keeps|].
  destruct ((_ <? _)%Z || _) eqn:Ha; [apply keeps_settles, complete_keeps|].
  destruct (Z.leb_spec (re_expires_at_ms e) now) as [|He]; [apply keeps_settles, complete_keeps|].
  apply orb_false_iff in Ha as [Ha%Z.ltb_ge _].
  assert (may_dispatch e now) as Hg.
  { split_and!; [done..|]. exists job. split; [done|].
    destruct (dj_expires_at_ms job) as [t|]; simpl; [by apply Z.leb_gt|lia]. }
  assert (Hk := rw_get_status (re_app_id e) (re_publish_id e) w).
  destruct (pw_get_status _ _ w) as [w1 [v|error]]; simpl in *; [|by apply keeps_settles].
  apply (settles_trans_l e now w w1); [done|].
  destruct v as [v|]; simpl; [|by apply dispatch_settles].
  destruct (_ && _); [|by apply dispatch_settles].
  apply keeps_settles, await_keeps; [apply put_keeps|]. intros _ w2.
  apply await_keeps; [apply rw_ack|done].
Qed.

Lemma lock_settles owner ttl ack e provider job now w :
  rw_time now → re_job e = Some job →
  settles e now w (lock_and_handle owner ttl ack e provider job now w).1.
Proof.
  intros Ht Hj. unfold lock_and_handle. cbv zeta. set (lock := {| sl_app_id := re_app_id e |}).
  assert (Hk := rw_acquire lock now w Ht).
  destruct (pw_acquire_lock lock now w) as [w1 [acquired|error]]; simpl in *; [|by apply keeps_settles].
  apply (settles_trans_l e now w w1); [done|]. destruct acquired; simpl.
  - assert (Hs := locked_settles ack e provider job now w1 Hj).
    destruct (handle_locked_retry ack e provider job now w1) as [w2 handled]. simpl in Hs.
    assert (Hr := rw_release (re_app_id e) (retry_lock_key (re_retry_idempotency_key e)) owner w2).
    destruct (pw_release_lock _ _ _ w2) as [w3 release]. simpl in Hr.
    apply (settles_trans_r e now w1 w2); [done|]. by destruct handled, release.
  - apply keeps_settles, await_keeps; [apply rw_nack|done].
Qed.

Lemma or_now_keeps z w : rw_keeps w (or_now z w).1.
Proof. destruct z; simpl; [done|]. by destruct (rw_now w). Qed.

Lemma normalize_spec e w :
  let '(w', e') := normalize_retry_entry e w in
  rw_keeps w w' ∧ (re_app_id e', re_retry_idempotency_key e') = entry_key e ∧
  re_attempt e' = re_attempt e ∧ re_job e' = re_job e ∧
  re_max_attempts e' = (if (re_max_attempts e =? 0)%Z then DEFAULT_PUSH_RETRY_MAX_ATTEMPTS
                        else re_max_attempts e).
Proof.
  unfold normalize_retry_entry.
  assert (rw_keeps w (if (re_next_attempt_at_ms e =? 0)%Z then or_now (re_not_before_ms e) w
                      else (w, re_next_attempt_at_ms e)).1) as H1
    by (destruct (_ =? _)%Z; [apply or_now_keeps|done]).
  destruct (if (re_next_attempt_at_ms e =? 0)%Z then _ else _) as [w1 next]. simpl in H1.
  assert (rw_keeps w1 (if (re_first_attempt_at_ms e =? 0)%Z
                       then or_now (re_job e ≫= dj_first_attempt_at_ms) w1
                       else (w1, re_first_attempt_at_ms e)).1) as H2
    by (destruct (_ =? _)%Z; [apply or_now_keeps|done]).
  destruct (if (re_first_attempt_at_ms e =? 0)%Z then _ else _) as [w2 first]. simpl in H2.
  split_and!; [by transitivity w1|done..].
Qed.

Lemma handle_settles owner ttl m w entry :
  qm_payload m = PRetrySchedule entry →
  let w' := (handle_message owner ttl m w).1 in
  ∃ e now, rw_time now ∧ (re_app_id e, re_retry_idempotency_key e) = entry_key entry ∧
    re_attempt e = re_attempt entry ∧ re_job e = re_job entry ∧
    re_max_attempts e = (if (re_max_attempts entry =? 0)%Z then DEFAULT_PUSH_RETRY_MAX_ATTEMPTS
                         else re_max_attempts entry) ∧
    settles e now w w' ∧ (rw_recorded (re_app_id e) (re_retry_idempotency_key e) w → rw_keeps w w').
Proof.
  intros Hp. cbv zeta. unfold handle_message. rewrite Hp. cbv zeta.
  assert (Hn := normalize_spec entry w). destruct (normalize_retry_entry entry w) as [w1 e].
  destruct Hn as (Hk1 & Hkey & Ha & Hj & Hm). destruct (rw_now w1) as [Hk2 Ht].
  destruct (pw_now w1) as [w2 now]. simpl in Hk2, Ht. exists e, now. split_and!; try done;
  assert (rw_keeps w w2) as Hk by (by transitivity w1).
  - apply (settles_trans_l e now w w2); [done|].
    destruct (re_provider e) as [provider|], (re_job e) as [job|] eqn:Hje;
      try (apply keeps_settles, await_keeps; [apply malformed_keeps|done]).
    destruct (blank _); [apply keeps_settles, await_keeps; [apply malformed_keeps|done]|].
    destruct (_ <? _)%Z; [apply keeps_settles, await_keeps; [apply rw_nack|done]|].
    assert (Hg := rw_get (re_app_id e) (re_retry_idempotency_key e) w2). unfold retry_already_completed.
    destruct (pw_get_idempotency _ _ w2) as [w3 [found|error]]; simpl in *; [|by apply keeps_settles].
    apply (settles_trans_l e now w2 w3); [done|]. case_bool_decide.
    + apply keeps_settles, await_keeps; [apply rw_ack|done].
    + by apply lock_settles.
  - intros Hrec. transitivity w2; [done|]. apply (proj1 (proj1 Hk)) in Hrec.
    destruct (re_provider e) as [provider|], (re_job e) as [job|];
      try (apply await_keeps; [apply malformed_keeps|done]).
    destruct (blank _); [apply await_keeps; [apply malformed_keeps|done]|].
    destruct (_ <? _)%Z; [apply await_keeps; [apply rw_nack|done]|].
    assert (Hg := rw_get (re_app_id e) (re_retry_idempotency_key e) w2).
    assert (Hf := λ found, rw_get_recorded _ _ w2 found Hrec). unfold retry_already_completed.
    destruct (pw_get_idempotency _ _ w2) as [w3 [found|error]]; simpl in *; [|done].
    rewrite bool_decide_true by auto. transitivity w3; [done|].
    apply await_keeps; [apply rw_ack|done].
Qed.

Lemma handle_other owner ttl m w :
  (∀ entry, qm_payload m ≠ PRetrySchedule entry) → rw_keeps w (handle_message owner ttl m w).1.
Proof.
  intros Hp. unfold handle_message. cbv zeta.
  destruct (qm_payload m) eqn:Heq; try (apply await_keeps; [apply rw_dead_letter|done]).
  by destruct (Hp entry).
Qed.

(** Schedulers taking turns: who handles which message. *)
Definition handle_all (work : list (string * Z * QueueMessage)) w : W :=
  foldl (λ w x, (handle_message x.1.1 x.1.2 x.2 w).1) w work.

Lemma handle_all_records work w app_id key :
  rw_recorded app_id key w → rw_recorded app_id key (handle_all work w).
Proof.
  revert w. induction work as [|[[owner ttl] m] work IH]; intros w Hr; [done|]. simpl. apply IH.
  destruct (qm_payload m) as [| | | | | |entry] eqn:Hp;
    try (by apply (handle_other owner ttl m w); [rewrite Hp|]).
  destruct (handle_settles owner ttl m w entry Hp) as (e & now & _ & _ & _ & _ & _ & [[Hs _] _] & _). auto.
Qed.

End once.
