(* ===== verification/PushRuns.v ===== *)
(** * Push retries: the in-memory world and runs

    The in-memory store and queue, with calls that may fail, keep the laws of [RetryWorld] while
    the clock spans less than the week for which a retry key is remembered. Then concrete runs:
    the witnesses of the theorems, and what the code does outside their hypotheses. *)

From Stdlib Require Import ZArith Lia.
From stdpp Require Import base gmap strings list pretty.
From S2P Require Import Prelude Messages PushTypes PushQueue PushQueueThms PushStore PushStoreThms PushRetry PushRetryThms.

(** ** The in-memory world *)

(** A call that fails where [fails] says. *)
Definition flaky {A} (fails : nat → bool) (f : MemWorld → MemWorld * result PushError A)
    (w : MemWorld) : MemWorld * result PushError A :=
  if fails (mw_tick w)
  then ({| mw_store := mw_store w; mw_queue := mw_queue w; mw_tick := S (mw_tick w) |},
        Err (PeStorage "unavailable"))
  else f w.

Section laws.
Context `{StableHash} (clock : nat → Z) (fails : nat → bool).
Notation base := (memory_world clock).

(** Everything but the clock and the recording of retry keys may fail. *)
Definition flaky_world : PushWorld MemWorld := {|
  pw_now := @pw_now _ base;
  pw_get_status app_id publish_id := flaky fails (@pw_get_status _ base app_id publish_id);
  pw_cas_status expected next := flaky fails (@pw_cas_status _ base expected next);
  pw_put_idempotency := @pw_put_idempotency _ base;
  pw_get_idempotency app_id key := flaky fails (@pw_get_idempotency _ base app_id key);
  pw_acquire_lock lock now := flaky fails (@pw_acquire_lock _ base lock now);
  pw_release_lock app_id publish_id owner_id :=
    flaky fails (@pw_release_lock _ base app_id publish_id owner_id);
  pw_produce stage key payload := flaky fails (@pw_produce _ base stage key payload);
  pw_retry_at stage key payload at_ms := flaky fails (@pw_retry_at _ base stage key payload at_ms);
  pw_consume stage n lease := flaky fails (@pw_consume _ base stage n lease);
  pw_ack token := flaky fails (@pw_ack _ base token);
  pw_nack token at_ms := flaky fails (@pw_nack _ base token at_ms);
  pw_dead_letter token reason := flaky fails (@pw_dead_letter _ base token reason) |}.

(** The clock spans less than the life of a record. *)
Context (span : ∀ n n', (clock n' < u64_saturating_add (clock n) RETRY_IDEMPOTENCY_TTL_MS)%Z).

Definition lasting (r : IdempotencyRecord) : Prop := ∀ n, (clock n < ir_expires_at_ms r)%Z.

Definition mem_recorded (app_id key : string) (w : MemWorld) : Prop :=
  ∃ r, mps_idempotency (mw_store w) !! (app_id, key) = Some r ∧ lasting r.

Definition mem_ok (w : MemWorld) : Prop :=
  ∀ k r, mps_idempotency (mw_store w) !! k = Some r → lasting r.

Definition mem_grows (w w' : MemWorld) : Prop :=
  (∀ app_id key, mem_recorded app_id key w → mem_recorded app_id key w') ∧ (mem_ok w → mem_ok w').

Definition mem_keeps (w w' : MemWorld) : Prop :=
  mem_grows w w' ∧ mq_next_id (mw_queue w') = mq_next_id (mw_queue w).

Lemma grows_same w w' :
  mps_idempotency (mw_store w') = mps_idempotency (mw_store w) → mem_grows w w'.
Proof. intros Heq. unfold mem_grows, mem_recorded, mem_ok. by rewrite Heq. Qed.

Lemma prune_lookup n s k r :
  mps_idempotency (prune_expired_records (clock n) s) !! k = Some r →
  mps_idempotency s !! k = Some r.
Proof. simpl. by intros [? _]%map_lookup_filter_Some. Qed.

Lemma prune_lasting n s k r :
  mps_idempotency s !! k = Some r → lasting r →
  mps_idempotency (prune_expired_records (clock n) s) !! k = Some r.
Proof. intros Hr Hl. simpl. apply map_lookup_filter_Some. split; [done|right; apply Hl]. Qed.

Lemma grows_pruned n w w' :
  mps_idempotency (mw_store w') = mps_idempotency (prune_expired_records (clock n) (mw_store w)) →
  mem_grows w w'.
Proof.
  intros Heq. unfold mem_grows, mem_recorded, mem_ok. rewrite Heq. split.
  - intros app_id key (r & Hr & Hl). exists r. eauto using prune_lasting.
  - intros Hok k r Hr%prune_lookup. eauto.
Qed.

Lemma flaky_keeps {A} (f : MemWorld → MemWorld * result PushError A) w :
  mem_keeps w (f w).1 → mem_keeps w (flaky fails f w).1.
Proof. unfold flaky. destruct (fails _); [|done]. intros _. split; [by apply grows_same|done]. Qed.

Lemma cas_idempotency now expected next s :
  mps_idempotency (compare_and_swap_publish_status now expected next s).1 = mps_idempotency s.
Proof. unfold compare_and_swap_publish_status. by repeat case_match. Qed.

Lemma dead_letter_next now later token reason q :
  mq_next_id (queue_dead_letter now later token reason q) = mq_next_id q.
Proof. unfold queue_dead_letter, take_inflight. by destruct (mq_inflight q !! _). Qed.

Lemma ack_next token q : mq_next_id (queue_ack token q) = mq_next_id q.
Proof. unfold queue_ack, take_inflight. by destruct (mq_inflight q !! _). Qed.

Lemma nack_next token at_ms q : mq_next_id (queue_nack token at_ms q) = mq_next_id q.
Proof. unfold queue_nack, take_inflight. by destruct (mq_inflight q !! _). Qed.

Lemma mem_put_spec record n w :
  ir_expires_at_ms record = u64_saturating_add (clock n) RETRY_IDEMPOTENCY_TTL_MS →
  mem_keeps w (pw_put_idempotency (PushWorld := base) record w).1 ∧
  (mem_ok w → mem_recorded (ir_app_id record) (ir_key record)
                (pw_put_idempotency (PushWorld := base) record w).1).
Proof.
  intros He. simpl. unfold on_store, put_idempotency_record_if_absent.
  set (s := prune_expired_records _ _).
  assert (lasting record) as Hlast by (intros m; rewrite He; apply span).
  destruct (mps_idempotency s !! (ir_app_id record, ir_key record)) as [r|] eqn:Hr; simpl.
  - split; [split; [by eapply grows_pruned|done]|].
    intros Hok. exists r. split; [done|]. apply prune_lookup in Hr. eauto.
  - split; [split; [split|done]|].
    + intros app_id key (r & Hr' & Hl). exists r. split; [|done]. simpl.
      apply (prune_lasting (mw_tick w)) in Hr'; [|done].
      rewrite lookup_insert_ne; [exact Hr'|]. intros Heq. rewrite Heq in Hr.
      unfold s in Hr. rewrite Hr in Hr'. done.
    + intros Hok k r Hk. simpl in Hk. apply lookup_insert_Some in Hk as [[_ <-]|[_ Hk]]; [done|].
      apply (prune_lookup (mw_tick w) (mw_store w)) in Hk. eauto.
    + intros _. exists record. simpl. by rewrite lookup_insert_eq.
Qed.

#[local] Existing Instance flaky_world.

#[export] Program Instance flaky_retry_world : RetryWorld MemWorld := {|
  rw_recorded := mem_recorded; rw_ok := mem_ok; rw_produced w := mq_next_id (mw_queue w);
  rw_time z := ∃ n, z = clock n |}.
Next Obligation. intros w. split; [split; [by apply grows_same|done]|by eexists]. Qed.
Next Obligation. intros. apply flaky_keeps. split; [by apply grows_same|done]. Qed.
Next Obligation.
  intros. apply flaky_keeps. simpl. unfold on_store.
  assert (Hi := cas_idempotency (clock (mw_tick w)) expected next (mw_store w)).
  destruct (compare_and_swap_publish_status _ _ _ _). split; [by apply grows_same|done].
Qed.
Next Obligation.
  intros record now w [n ->] He. destruct (mem_put_spec record n w He) as [H1 H2].
  split; [exact H1|split; [|exact H2]]. simpl. unfold on_store.
  destruct (put_idempotency_record_if_absent _ _ _). by eexists.
Qed.
Next Obligation. intros. apply flaky_keeps. split; [by eapply grows_pruned|done]. Qed.
Next Obligation.
  intros app_id key w found (r & Hr & Hl). simpl. unfold flaky.
  destruct (fails _); [done|]. intros [= <-]. exists r.
  by apply (prune_lasting (mw_tick w) (mw_store w)).
Qed.
Next Obligation.
  intros lock now w [n ->]. apply flaky_keeps. simpl. unfold on_store, acquire_scheduler_lock.
  cbv zeta. destruct (match _ with Some _ => _ | None => _ end); simpl;
    (split; [by apply (grows_pruned n)|done]).
Qed.
Next Obligation.
  intros. apply flaky_keeps. split; [apply grows_same|done]. simpl. unfold release_scheduler_lock.
  by repeat case_match.
Qed.
Next Obligation.
  intros. simpl. unfold flaky. destruct (fails _); [by apply grows_same|]. simpl. unfold on_queue.
  destruct (queue_produce _ _ _ _ _). by apply grows_same.
Qed.
Next Obligation. intros stage key payload w e. simpl. unfold flaky. by destruct (fails _). Qed.
Next Obligation. intros. apply flaky_keeps. split; [by apply grows_same|apply ack_next]. Qed.
Next Obligation. intros. apply flaky_keeps. split; [by apply grows_same|apply nack_next]. Qed.
Next Obligation. intros. apply flaky_keeps. split; [by apply grows_same|apply dead_letter_next]. Qed.
End laws.

(** ** Concrete runs *)

(** A hash of more than sixteen digits that keeps what it hashes. *)
Definition demo_hash : StableHash := λ s, "0123456789abcdef" +:+ s.
#[local] Existing Instance demo_hash.

Definition demo_clock (n : nat) : Z := (1000 + Z.min (Z.of_nat n) 50)%Z.

Lemma demo_span n n' :
  (demo_clock n' < u64_saturating_add (demo_clock n) RETRY_IDEMPOTENCY_TTL_MS)%Z.
Proof. unfold demo_clock, u64_saturating_add, RETRY_IDEMPOTENCY_TTL_MS, u64_max. lia. Qed.

Definition demo_job (device : string) : DeliveryJob := {|
  dj_app_id := "app"; dj_publish_id := "pub"; dj_provider := Fcm; dj_batch_id := "batch";
  dj_device_id := Some device; dj_content := JNull; dj_attempt := 1;
  dj_first_attempt_at_ms := Some 500%Z; dj_not_before_ms := None; dj_expires_at_ms := None |}.

Definition demo_feedback (device : string) : DeliveryFeedback := {|
  df_result := {| dr_app_id := "app"; dr_publish_id := "pub"; dr_provider := Fcm;
                  dr_batch_id := "batch"; dr_device_id := Some device; dr_outcome := Retryable;
                  dr_provider_message_id := None; dr_error := None; dr_attempt := 1 |};
  df_delivery_key := device; df_retry_job := Some (demo_job device);
  df_first_attempt_at_ms := None; df_expires_at_ms := None |}.

(** The retry of a device, planned at the zero of the clock so that it is due. *)
Definition demo_retry (device : string) : option RetryScheduleEntry :=
  schedule_retry {| rp_initial_backoff_ms := 1; rp_max_backoff_ms := 1; rp_max_attempts := 5;
                    rp_max_retry_age_ms := 86400000; rp_jitter_ratio_percent := 0;
                    rp_respect_retry_after := true |} (demo_feedback device) 0.

Lemma retry_times_bounded_witness :
  policy_typed default_retry_policy ∧ is_u64 1000 ∧
  ∃ e, schedule_retry default_retry_policy (demo_feedback "d1") 1000 = Some e ∧
    re_attempt e = 2%Z ∧
    (1800 ≤ re_next_attempt_at_ms e ≤ 2200)%Z.
Proof.
  assert (policy_typed default_retry_policy) as Hp
    by (split; split; vm_compute; discriminate).
  assert (is_u64 1000) as Hn by (unfold is_u64, u64_max; lia).
  split; [exact Hp|split; [exact Hn|]].
  destruct (retry_times_bounded default_retry_policy (demo_feedback "d1") 1000 (demo_job "d1") Hp Hn)
    as (e & He & Ha & Hj & Hm & Hne & Hage & Hdl & Hlast & Hmore);
    [unfold u32_max; simpl; lia|reflexivity|reflexivity|].
  exists e. split; [exact He|split; [exact Ha|]]. vm_compute in He. injection He as <-.
  simpl. lia.
Defined.

Definition demo_message (id : string) (e : RetryScheduleEntry) : QueueMessage := {|
  qm_message_id := id; qm_stage := RetrySchedule; qm_key := id; qm_partition_key := "app";
  qm_partition := None; qm_payload := PRetrySchedule e; qm_attempt := 1; qm_enqueued_at_ms := 0;
  qm_not_before_ms := None; qm_lease_deadline_ms := 60000;
  qm_ack := {| at_stage := RetrySchedule; at_message_id := id |} |}.

Definition demo_status (state : PublishLifecycleState) : PublishStatus := {|
  ps_app_id := "app"; ps_publish_id := "pub"; ps_state := state;
  ps_counters := {| pc_planned := 2; pc_dispatched := 2; pc_succeeded := 0; pc_failed := 0;
                    pc_expired := 0; pc_retry_scheduled := 2; pc_retry_attempted := 0;
                    pc_dead_lettered := 0 |};
  ps_fanout_regime := None; ps_retry_after_ms := None; ps_error_reason := None |}.

Definition demo_store : MemoryPushState := {|
  mps_publish_status := {[ ("app", "pub") := {| vs_status := demo_status PlDispatching;
                                                vs_revision := 1; vs_updated_at_ms := 1 |} ]};
  mps_idempotency := ∅; mps_scheduler_locks := ∅ |}.

Definition demo_world : MemWorld :=
  {| mw_store := demo_store; mw_queue := empty_queue; mw_tick := 0 |}.

(** The retry of a device, as the policy plans it. *)
Definition demo_entry (device : string) : RetryScheduleEntry :=
  let key := retry_idempotency_key (df_result (demo_feedback device)) device 2 in {|
  re_app_id := "app"; re_publish_id := "pub"; re_provider := Some Fcm;
  re_job := Some (retried_job (demo_job device) 2 500 1); re_attempt := 2;
  re_first_attempt_at_ms := 500; re_next_attempt_at_ms := 1; re_max_attempts := 5;
  re_expires_at_ms := 86400500; re_last_error := None; re_retry_idempotency_key := key;
  re_stage := "delivery"; re_key := key; re_not_before_ms := Some 1%Z; re_payload := None |}.

Lemma demo_entry_planned : demo_retry "d1" = Some (demo_entry "d1") ∧ demo_retry "d2" = Some (demo_entry "d2").
Proof. by vm_compute. Qed.

(** Every call fails from the fifth reading of the clock on, the status update among them. *)
Definition demo_fails (n : nat) : bool := (5 <=? n)%nat.

Definition failing_world : PushWorld MemWorld := flaky_world demo_clock demo_fails.
Definition failing_retry_world : RetryWorld (H := failing_world) MemWorld :=
  flaky_retry_world demo_clock demo_fails demo_span.


(** *** The queue *)

Definition demo_payload : PushQueuePayload := PRetrySchedule (demo_entry "d1").

Definition demo_ops : list (Z * Z * QueueOp) :=
  [(1, 1, QProduce RetrySchedule "k1" demo_payload);
   (2, 2, QProduce RetrySchedule "k1" demo_payload);
   (3, 3, QRetryAt RetrySchedule "k2" demo_payload 100);
   (4, 4, QConsume RetrySchedule 8 1000)]%Z.

Definition demo_token : QueueAckToken := {| at_stage := RetrySchedule; at_message_id := "mem-1" |}.


(** *** Status updates *)

(** Another writer counts an expired delivery right before the first swap. *)
Definition demo_others (n : nat) (s : MemoryPushState) : MemoryPushState :=
  match n with
  | 1 => (compare_and_swap_publish_status 7
            {| vs_status := demo_status PlDispatching; vs_revision := 1; vs_updated_at_ms := 1 |}
            (with_counters (demo_status PlDispatching) PlDispatching
               (count_expired (ps_counters (demo_status PlDispatching))) None None) s).1
  | _ => s
  end.

Lemma demo_others_respect n : respects_revisions (demo_others n).
Proof.
  destruct n as [|[|n]]; [intros s k v Hv; eauto|apply cas_respects|intros s k v Hv; eauto].
Qed.


(** *** What the code does beyond the theorems *)

Definition plain_world : PushWorld MemWorld := memory_world demo_clock.

(** Two devices of one batch are retried: the second batch has the key of the first, which is
    still in the queue, so the queue drops it, although both retries are settled. *)
Lemma second_device_dropped :
  let '(w1, r1) := handle_message (H := plain_world) "node" 30000
                     (demo_message "mem-1" (demo_entry "d1")) demo_world in
  let '(w2, r2) := handle_message (H := plain_world) "node" 30000
                     (demo_message "mem-2" (demo_entry "d2")) w1 in
  r1 = Ok true ∧ r2 = Ok true ∧ mq_next_id (mw_queue w2) = 1%Z ∧
  (∀ key, entry_key (demo_entry "d1") = key → entry_key (demo_entry "d2") ≠ key) ∧
  (λ i, match i.2.2 with PDeliveryBatch b => dj_device_id <$> db_jobs b | _ => [] end)
    <$> contents (mw_queue w2) = [[Some "d1"]].
Proof. vm_compute. split_and!; try reflexivity. intros key <-. discriminate. Qed.

(** Whoever acknowledges what is in the delivery stage. *)
Definition drain (w : MemWorld) : MemWorld :=
  let '(q, ms) := queue_consume 1000 (DeliveryJobs Fcm) 8 1000 (mw_queue w) in
  {| mw_store := mw_store w; mw_queue := foldl (λ q m, queue_ack (qm_ack m) q) q ms;
     mw_tick := mw_tick w |}.

(** A scheduler that has looked for the record before another one handled the message dispatches
    it again once the lock is free: the record is not looked for under the lock. *)
Lemma checked_before_lock :
  let e := demo_entry "d1" in
  let '(w1, completed) := retry_already_completed (H := plain_world) e demo_world in
  let '(w2, first) := handle_message (H := plain_world) "node-a" 30000 (demo_message "mem-1" e) w1 in
  let '(w3, second) := lock_and_handle (H := plain_world) "node-b" 30000
                         {| at_stage := RetrySchedule; at_message_id := "mem-1" |} e Fcm
                         (retried_job (demo_job "d1") 2 500 1) 1001 (drain w2) in
  completed = Ok false ∧ first = Ok true ∧ second = Ok true ∧
  mq_next_id (mw_queue w2) = 1%Z ∧ mq_next_id (mw_queue w3) = 2%Z.
Proof. vm_compute. by split_and!. Qed.

(** A cancelled publish becomes a succeeded one when its outcomes are complete. *)
Lemma cancelled_resolves :
  is_terminal PlCancelled = true ∧ can_transition_to PlCancelled PlSucceeded = false ∧
  resolve_lifecycle_state
    {| pc_planned := 1; pc_dispatched := 1; pc_succeeded := 1; pc_failed := 0; pc_expired := 0;
       pc_retry_scheduled := 0; pc_retry_attempted := 0; pc_dead_lettered := 0 |} PlCancelled
  = PlSucceeded.
Proof. by vm_compute. Qed.
